(* ===== verification/_CoqProject ===== *)
-Q . S2P
Prelude.v
Hoare.v
Llio.v
Stuff.v
Logger.v
Doubles.v
OsCalls.v
Statistics.v
Crc32c.v
PartialRead.v
Stubs.v
AlbaCommon.v
Checksum.v
Encryption.v
OsdInfo.v
Manifest.v
ManifestPrint.v
Sequences.v
ProxyProtocol.v
Writes.v
AsdProtocol.v
LruCache.v
ManifestCache.v
Transport.v
BooleanEnum.v
Io.v
RdmaTransport.v
TcpTransport.v
GenericClient.v
ProxyCalls.v
AsdClient.v
TransportHelper.v
ConnectionPool.v
RoraLocation.v
OsdAccess.v
ProxyClient.v
RoraClient.v
Connecting.v
FastPath.v
Sane.v
AccessInvariant.v
WellFormed.v
SlowPath.v
WritePath.v
AsdServer.v
TcpAsd.v
TrustedAccess.v
ReadCorrect.v
