(* ===== verification/Prelude.v ===== *)
(** * A model of the Alba C++ client library

    Alba is an object store: objects are cut into chunks, chunks are erasure-coded
    into fragments, and the fragments live on ASDs (daemons, one per disk).  A proxy,
    written in OCaml, knows where everything is.  The C++ library [src/cpp] is the
    client's side.  It talks to the proxy ([generic_proxy_client.cc]), and for reads it
    has a fast path of its own ([rora_proxy_client.cc]): from manifests it has cached it
    computes which bytes of which fragments make up a slice of an object, reads them
    from the ASDs over pooled connections, decrypts them in place, and falls back to the
    proxy when anything goes wrong.  Next to it stand the C stubs of the OCaml programs
    ([src/ocaml/src]).  This library models that code, definition by definition, and
    proves what makes it correct.

    ** Conventions

    Machine integers are [Z] with their wrap-around written out ([u32], [u64], [s32],
    [s64] of this file).  Byte sequences, whatever their C++ type, are [bytes]; a
    [char *] into the caller's memory is an address of a [mem], a finite map from
    addresses to bytes.  A computation is a function of the state monad [M], whose
    result is an [outcome]: [Ret a], [Throw e] (a C++ exception, with the constructors
    of [exn] for the library's own classes), [Abort] (an exception that leaves a
    destructor or a [noexcept] function, or a failed [assert]) or [Undef] (undefined
    behaviour: reading behind a buffer, dereferencing null, an [at] of an empty vector,
    locking a mutex the thread holds).  The state is what it was when the exception was
    thrown: a theorem about errors speaks of that state too.  Shared objects are in an
    explicit store where the code shares them (the namespaces' caches in
    [ManifestCache], the pools in [ConnectionPool]).  Critical sections are atomic
    steps; where threads interleave, the file has the steps next to the composed method.
    Code that is not in the repository (libgcrypt, Boost.Asio and bimap, rsockets,
    snappy, the kernel, the processor, the servers) is a class of operations; what the
    documentation promises about it is a second class, with an instance in the file.

    ** The files

    The wire format and data.  [Llio] ([llio.h], [llio.cc]): the message builder, the
    buffers, the cursor and the codec.  [Stuff] ([stuff.h], [stuff.cc]): printers;
    [OsCalls] (the rest of [stuff.cc]): file sizes, the clock, shell commands.
    [Logger] ([alba_logger.*]).  [AlbaCommon] ([alba_common.*]): variable-width
    identifiers and the set-up of libgcrypt.  [Checksum], [Encryption], [OsdInfo],
    [Sequences]: the components of the same names ([checksum.*], [encryption.*],
    [osd_info.*], [proxy_sequences.*]).  [Manifest], [ManifestPrint] ([manifest.*]).
    [Io] ([io.*]) and [BooleanEnum] ([boolean_enum.h]): values on standard streams.

    Protocols and connections.  [ProxyProtocol] ([proxy_protocol.*]), [AsdProtocol]
    ([asd_protocol.*]), [Transport] ([transport.*]) with the interface
    [ReliableTransport] that the clients are proved against, [RdmaTransport]
    ([rdma_transport.*]), [TcpTransport] ([tcp_transport.*]), [TransportHelper]
    ([transport_helper.*]), [GenericClient] ([proxy_client.h],
    [generic_proxy_client.*]), [AsdClient] ([asd_client.*]).

    The read path.  [LruCache] ([lru_cache.h]), [ManifestCache] ([manifest_cache.*]),
    [ConnectionPool] ([asd_access.*]), [OsdAccess] ([osd_access.*]: the map of OSDs,
    its refresh by concurrent threads, reading from an ASD), [RoraLocation] and
    [RoraClient] (both [rora_proxy_client.*]: where bytes are; the client),
    [ProxyClient] ([proxy_client.cc]: the interface of the proxy client inside; the
    factory is with [RoraClient]).

    The compositions, which model no code of their own.  [Hoare]: triples for the monad.
    [Writes]: writes to disjoint blocks.  [ProxyCalls]: the methods of the proxy client as
    data, for what they have in common.  [Connecting]: the factory and the constructors
    behind it.  [FastPath] and [SlowPath]: the two ways a read can take, each composed of
    every component on it.  [WritePath]: writing.  [Sane], [AccessInvariant],
    [WellFormed]: the type invariant of the client and the memory safety of reads, for
    arbitrary servers.  [AsdServer]: what an ASD promises, the class of the same name,
    and what the ASD client knows after a call; [TcpAsd]: an ASD behind the TCP transport
    keeps that promise; [TrustedAccess]: what the pools and the map of OSDs know;
    [ReadCorrect]: reads in an honest deployment.

    The rest.  [Doubles] (binary64 arithmetic and its formatting), [Statistics]
    ([statistics.*]), [Crc32c] ([alba_crc32c_stubs.c]), [PartialRead]
    ([alba_partial_read_stubs.c]), [Stubs] ([posix_stubs.c], [alba_wrappers_stubs.c],
    [alba_gcrypt_stubs.c]).

    ** What is shown

    Reads are right.  [RoraLocation]: a slice is tiled by the locations computed for it,
    across chunks, fragments, levels of fragment caches and with the code's mixed 32 and
    64 bit arithmetic.  [Encryption]: decrypting a stretch in place is decrypting the
    fragment and taking the stretch.  [AsdClient], [OsdAccess]: the ASD's answers land
    in their slices' buffers.  [FastPath] and [SlowPath]: put together, both ways of
    [read_objects_slices] implement the same abstract read of objects ([read_objects]);
    [RoraClient]: whatever the fast path did, after a failure the proxy's answer
    is what the caller gets.  [ReadCorrect]: when the servers are honest, but connections
    break, OSDs are unknown, keys or manifests are missing, a read that returns has put
    the objects' bytes into the slices, and the invariant it needs is kept on every way
    out.

    Calls do what they say.  [ProxyCalls]: each method of the proxy client sends its
    request, takes in the answer, and returns its result or throws its error, over every
    transport that keeps the contract [ReliableTransport]; the TCP transport keeps it on a
    connection to a responsive peer ([tcp_reliable]).  [Connecting]: what the factory makes of a proxy that knows
    the client's questions, does not know them, or refuses.  [SlowPath], [WritePath]:
    which of the manifests that come with an answer are cached afterwards.

    Nothing bad happens, whatever the servers send.  [WellFormed]: a read writes to the
    caller's memory only inside the slices, on every way out; and every public method
    keeps the client's type invariant.

    State stays well-formed and requests are what they should be.  The builder, the
    caches and the pools keep their invariants; a pool neither loses nor duplicates
    connections; concurrent refreshes of the OSD map all finish, and the function
    [update] is a run of their step relation; keys are kept only when
    their hash is right.  Every request decodes, by a reference decoder, to what was
    asked, every reader inverts a reference encoder, and the readers never leave
    their buffer.

    Loops end.  The transports' loops transfer exactly the bytes asked for or throw by
    the deadline.  The stub that sends slices of a file ends for slices inside the file,
    and never for a slice behind its end.

    Equivalences.  The three CRC-32C loops compute the polynomial remainder; the
    statistics in [double] are an integer histogram.

    ** Fuel and bounds

    A loop that is not structural takes fuel, and a theorem says how much is enough.
    [resolve_loop] takes the slice's length, which is never used up since every location
    has a positive length ([resolve_loop_fuel]); the RDMA loops take the number of bytes,
    since a call transfers at least one; the TCP loop takes the number of events, more
    than [max_rounds] of which never come without the operation completing; the loop of
    [shell] takes the length of the command's output plus two; [send_slice]
    takes the number of calls, bounded by the bytes plus the times the socket can make
    the caller wait; a thread needs at most eight steps of [update]; the decimal exponent of a
    double is found in 700 steps, which covers the whole range of the type.

    ** Not modelled

    The tests and the example client, which are uses of the library; the OCaml programs,
    another language, which appear as the reference encoders and decoders of the
    protocols; the calls to the logger inside the other components, which only print
    ([Logger] has the hook itself); the bytes a transport has put into the caller's
    buffer before it throws, which in the model stays as it was (the buffer is the
    caller's slice, so that nothing is said of its contents after an exception);
    [_dump] of [rora_proxy_client.cc], which prints addresses and which nothing calls.

    The contract [AsdServer] says that a read of a connection that returns has the length
    asked for.  The RDMA transport does not promise that ([rdma_short_read_succeeds]), nor
    the contract [ReliableTransport] ([rdma_unreliable]): what is shown of the clients
    with these contracts is not shown of them over RDMA.

    ** Plan

    Next: reads of several clients that share the pools, the map of OSDs and the manifest
    cache, interleaved at their critical sections ([ReadCorrect] has one client after the
    other). *)

From stdpp Require Export prelude gmap strings list fin_maps.
From coqutil Require Export Byte Word.LittleEndianList.
From Stdlib Require Export Lia.

Global Set Default Goal Selector "!".

Local Open Scope Z_scope.

(** ** Notation scope of the development *)

Declare Scope alba_scope.
Delimit Scope alba_scope with alba.

(** [std::string], [char *] ranges and [std::vector<char>] are byte lists. *)
Abbreviation bytes := (list byte).

(** The length of a list as a machine quantity. *)
Definition len {A} (l : list A) : Z := Z.of_nat (length l).

(** A C++ string literal. *)
Definition str (s : string) : bytes := String.list_byte_of_string s.

Arguments str _%_string.

Local Open Scope alba_scope.

#[global] Instance byte_eq_decision : EqDecision byte := Byte.byte_eq_dec.

#[global] Program Instance byte_countable : Countable byte :=
  inj_countable Byte.to_N Byte.of_N _.
Next Obligation. intros b. apply Byte.of_to_N. Qed.

(** ** Fixed-width integers

    [w]-bit unsigned values are the integers of [[0, 2^w)]; an assignment to a
    narrower type reduces modulo [2^w], a conversion to a signed type takes the
    representative in two's complement. *)

Definition u8 (z : Z) : Z := z mod 2 ^ 8.
Definition u32 (z : Z) : Z := z mod 2 ^ 32.
Definition u64 (z : Z) : Z := z mod 2 ^ 64.
Definition s32 (z : Z) : Z :=
  let w := z mod 2 ^ 32 in if w <? 2 ^ 31 then w else w - 2 ^ 32.
Definition s64 (z : Z) : Z :=
  let w := z mod 2 ^ 64 in if w <? 2 ^ 63 then w else w - 2 ^ 64.

Lemma u8_small z : 0 <= z < 2 ^ 8 -> u8 z = z.
Proof. apply Z.mod_small. Qed.
Lemma u32_small z : 0 <= z < 2 ^ 32 -> u32 z = z.
Proof. apply Z.mod_small. Qed.
Lemma u64_small z : 0 <= z < 2 ^ 64 -> u64 z = z.
Proof. apply Z.mod_small. Qed.
Lemma u32_range z : 0 <= u32 z < 2 ^ 32.
Proof. by apply Z.mod_pos_bound. Qed.
Lemma u64_range z : 0 <= u64 z < 2 ^ 64.
Proof. by apply Z.mod_pos_bound. Qed.

Lemma s32_small z : 0 <= z < 2 ^ 31 -> s32 z = z.
Proof.
  intros H. unfold s32. rewrite Z.mod_small by lia.
  destruct (Z.ltb_spec z (2 ^ 31)); lia.
Qed.

Lemma s32_large z : 2 ^ 31 <= z < 2 ^ 32 -> s32 z = z - 2 ^ 32.
Proof.
  intros H. unfold s32. rewrite Z.mod_small by lia.
  destruct (Z.ltb_spec z (2 ^ 31)); lia.
Qed.

(** ** Exceptions and outcomes *)

Record stream_exception := Stream_exception { se_what : bytes }.
Record deserialisation_exception := Deserialisation_exception { de_what : bytes }.
Record transport_exception := Transport_exception { te_what : bytes }.
Record proxy_exception := Proxy_exception { pe_return_code : Z; pe_what : bytes }.
Record asd_exception := Asd_exception { ae_return_code : Z; ae_what : bytes }.
Record osd_access_exception :=
  Osd_access_exception { oae_return_code : Z; oae_what : bytes }.

(** Everything the library throws.  [ExnLiteral] is [throw "..."] (a
    [char const *], which is no [std::exception]), [ExnInt] is [throw 0], and
    [ExnSystem] stands for what the libraries underneath throw
    ([boost::system::system_error], [std::length_error], ...). *)
Inductive exn :=
  | ExnInputStream (e : stream_exception)
  | ExnOutputStream (e : stream_exception)
  | ExnDeserialisation (e : deserialisation_exception)
  | ExnTransport (e : transport_exception)
  | ExnProxy (e : proxy_exception)
  | ExnAsd (e : asd_exception)
  | ExnOsdAccess (e : osd_access_exception)
  | ExnSystem (what : bytes)
  | ExnLiteral (what : bytes)
  | ExnInt (i : Z).

(** Which of them a [catch (std::exception &e)] clause catches. *)
Definition is_std_exception (e : exn) : bool :=
  match e with ExnLiteral _ | ExnInt _ => false | _ => true end.

(** A computation returns, throws, ends the process ([std::terminate], [abort],
    a failed [assert]) or has undefined behaviour. *)
Inductive outcome (A : Type) :=
  | Ret (a : A)
  | Throw (e : exn)
  | Abort
  | Undef.
Arguments Ret {A} _.
Arguments Throw {A} _.
Arguments Abort {A}.
Arguments Undef {A}.

Definition throw_deser {A} (s : bytes) : outcome A :=
  Throw (ExnDeserialisation (Deserialisation_exception s)).

(** ** The state-and-outcome monad

    The state survives an exception, because a [catch] clause goes on with the
    objects the [try] block has changed. *)

Definition M (S A : Type) : Type := S -> outcome A * S.

#[global] Instance M_ret S : MRet (M S) := fun A a s => (Ret a, s).
#[global] Instance M_bind S : MBind (M S) := fun A B k m s =>
  match m s with
  | (Ret a, s') => k a s'
  | (Throw e, s') => (Throw e, s')
  | (Abort, s') => (Abort, s')
  | (Undef, s') => (Undef, s')
  end.
#[global] Instance M_fmap S : FMap (M S) := fun A B f m => m ≫= fun a => mret (f a).

Section monad.
Context {ST : Type}.

Definition mout {A} (o : outcome A) : M ST A := fun s => (o, s).
Definition mthrow {A} (e : exn) : M ST A := mout (Throw e).
Definition gets {A} (f : ST -> A) : M ST A := fun s => (Ret (f s), s).
Definition modify (f : ST -> ST) : M ST unit := fun s => (Ret tt, f s).

(** A function declared [noexcept]: an exception leaving it is [std::terminate]. *)
Definition noexcept {A} (m : M ST A) : M ST A := fun s =>
  match m s with (Throw _, s') => (Abort, s') | r => r end.

(** [try { m } catch] with handler [h]. *)
Definition try_catch {A} (m : M ST A) (h : exn -> M ST A) : M ST A := fun s =>
  match m s with (Throw e, s') => h e s' | r => r end.

(** [for (auto &x : xs) f(x)]. *)
Fixpoint for_each {A} (f : A -> M ST unit) (xs : list A) : M ST unit :=
  match xs with
  | [] => mret tt
  | x :: xs => f x ;; for_each f xs
  end.

(** [for (int i = n - 1; i >= 0; --i) f(i)], threading an accumulator. *)
Fixpoint for_down {A} (n : nat) (f : nat -> A -> M ST A) (a : A) : M ST A :=
  match n with
  | O => mret a
  | S i => a' ← f i a; for_down i f a'
  end.

(** [for (uint i = 0; i < n; i++)], threading an accumulator. *)
Fixpoint for_up {A} (n : nat) (f : A -> M ST A) (a : A) : M ST A :=
  match n with
  | O => mret a
  | S i => a' ← f a; for_up i f a'
  end.
End monad.

Notation "'when' b 'do' m" := (if b then m else mret tt)
  (at level 99, b at level 99, m at level 99) : alba_scope.
Notation "'guard' b 'orelse' e" := (if b then mret tt else mthrow e)
  (at level 99, b at level 99, e at level 99) : alba_scope.


Lemma bind_ret_eq {ST A B} (m : M ST A) (k : A -> M ST B) s a s' :
  m s = (Ret a, s') -> (m ≫= k) s = k a s'.
Proof. unfold mbind, M_bind. by intros ->. Qed.

Lemma bind_throw_eq {ST A B} (m : M ST A) (k : A -> M ST B) s e s' :
  m s = (Throw e, s') -> (m ≫= k) s = (Throw e, s').
Proof. unfold mbind, M_bind. by intros ->. Qed.

(** What a computation that returned has done. *)
Lemma bind_ret_inv {ST A B} (m : M ST A) (k : A -> M ST B) s b s' :
  (m ≫= k) s = (Ret b, s') -> exists a s1, m s = (Ret a, s1) /\ k a s1 = (Ret b, s').
Proof. unfold mbind, M_bind. destruct (m s) as [[a|e| |] s1]; try done. eauto. Qed.

Lemma modify_bind {ST B} (f : ST -> ST) (k : unit -> M ST B) s :
  (modify f ≫= k) s = k tt (f s).
Proof. done. Qed.

Lemma gets_bind {ST A B} (f : ST -> A) (k : A -> M ST B) s :
  (gets f ≫= k) s = k (f s) s.
Proof. done. Qed.

Lemma ret_bind {ST A B} (a : A) (k : A -> M ST B) s : (mret a ≫= k) s = k a s.
Proof. done. Qed.

(** Running a computation on a component of the state. *)
Definition zoom {S T A} (get : S -> T) (set : T -> S -> S) (m : M T A) : M S A :=
  fun s => let '(o, t) := m (get s) in (o, set t s).

Lemma zoom_ret_inv {S T A} (get : S -> T) (set : T -> S -> S) (m : M T A) s a s' :
  zoom get set m s = (Ret a, s') -> exists t, m (get s) = (Ret a, t) /\ s' = set t s.
Proof. unfold zoom. destruct (m (get s)) as [o t]. intros [= -> <-]. eauto. Qed.

(** [std::lock_guard lock(mutex)] around a block: the mutex is released on every
    way out of the block; locking a [std::mutex] one holds is undefined. *)
Definition lock_guard {ST A} (held : ST -> bool) (set : bool -> ST -> ST) (m : M ST A) : M ST A :=
  fun s =>
    if held s then (Undef, s)
    else let '(o, s') := m (set true s) in (o, set false s').

(** ** Byte buffers *)

(** [memcpy(&buf[pos], bs, bs.size())]. *)
Definition splice {A} (pos : nat) (bs buf : list A) : list A :=
  take pos buf ++ bs ++ drop (pos + length bs) buf.

Lemma length_splice {A} pos (bs buf : list A) :
  (pos + length bs <= length buf)%nat -> length (splice pos bs buf) = length buf.
Proof.
  intros H. unfold splice. rewrite !length_app, length_take, length_drop. lia.
Qed.

Lemma take_splice {A} pos (bs buf : list A) :
  (pos <= length buf)%nat ->
  take (pos + length bs) (splice pos bs buf) = take pos buf ++ bs.
Proof.
  intros H. unfold splice. rewrite app_assoc, take_app_length'; [done|].
  rewrite length_app, length_take. lia.
Qed.

Lemma len_nonneg {A} (l : list A) : 0 <= len l.
Proof. unfold len. lia. Qed.

Lemma len_app {A} (l k : list A) : len (l ++ k) = len l + len k.
Proof. unfold len. rewrite length_app. lia. Qed.

Lemma len_nil {A} : len (@nil A) = 0.
Proof. done. Qed.

Lemma len_cons {A} (x : A) l : len (x :: l) = 1 + len l.
Proof. unfold len. simpl. lia. Qed.

Lemma len_le_split n z : len (le_split n z) = Z.of_nat n.
Proof. unfold len. by rewrite length_le_split. Qed.

Lemma le_combine_split_small n z :
  0 <= z < 2 ^ (Z.of_nat n * 8) -> le_combine (le_split n z) = z.
Proof. intros H. rewrite LittleEndianList.le_combine_split. by apply Z.mod_small. Qed.

(** ** Automation

    [codec] collects the component lemmas that prove a writer appends, and a
    reader parses, the bytes its format says. *)

Create HintDb codec.

Create Rewrite HintDb lens.

#[export] Hint Rewrite @len_app @len_nil @len_cons len_le_split : lens.

(** Normalise lengths, then arithmetic. *)
Ltac len_lia :=
  autorewrite with lens in *; unfold len in *;
  rewrite ?length_app, ?length_take, ?length_drop, ?length_cons in *; lia.

(** Split on the test of an [if] and turn the test into a proposition. *)
Ltac case_if :=
  match goal with
  | |- context [if ?b then _ else _] =>
      let E := fresh "E" in destruct b eqn:E
  end.
