(* ===== verification/Hoare.v ===== *)
(** * Triples for computations

    [hoare P m Q E]: started where [P] holds, [m] ends where [Q a] holds when it
    returns [a], and where [E] holds when it ends in any other way, since the objects
    outlive an exception.  [maintains I Q m] is the common case of an invariant [I]
    that every way out keeps.  The hints of the database [triples] build a triple
    along the structure of a computation. *)

From S2P Require Import Prelude.

Local Open Scope alba_scope.

Definition hoare {ST A} (P : ST -> Prop) (m : M ST A) (Q : A -> ST -> Prop) (E : ST -> Prop) : Prop :=
  forall s, P s -> match m s with (Ret a, s') => Q a s' | (_, s') => E s' end.

Definition maintains {ST A} (I : ST -> Prop) (Q : A -> Prop) (m : M ST A) : Prop :=
  hoare I m (fun a s => I s /\ Q a) I.

Abbreviation any := (fun _ => True).

(** ** Triples *)

Section hoare.
Context {ST : Type}.
Implicit Types P E I : ST -> Prop.

Lemma hoare_weaken {A} P P' (m : M ST A) (Q Q' : A -> ST -> Prop) E E' :
  hoare P' m Q' E' -> (forall s, P s -> P' s) -> (forall a s, Q' a s -> Q a s) ->
  (forall s, E' s -> E s) -> hoare P m Q E.
Proof.
  intros Hm HP HQ HE s Hs. specialize (Hm s (HP s Hs)).
  destruct (m s) as [[a|e| |] s']; auto.
Qed.

Lemma hoare_bind {A D} P (m : M ST A) (k : A -> M ST D) R Q E :
  hoare P m R E -> (forall a, hoare (R a) (k a) Q E) -> hoare P (m ≫= k) Q E.
Proof.
  intros Hm Hk s Hs. specialize (Hm s Hs). unfold mbind, M_bind.
  destruct (m s) as [[a|e| |] s']; [by apply Hk|done..].
Qed.

Lemma hoare_try {A} P (m : M ST A) h Q E :
  hoare P m Q E -> (forall e, hoare E (h e) Q E) -> hoare P (try_catch m h) Q E.
Proof.
  intros Hm Hh s Hs. specialize (Hm s Hs). unfold try_catch.
  destruct (m s) as [[a|e| |] s']; [done|by apply Hh|done..].
Qed.

(** Out of a function call, into an object that is part of the state. *)
Lemma hoare_zoom {U A} P (get : ST -> U) (set : U -> ST -> ST) (m : M U A)
    (P' : ST -> U -> Prop) (Q' : ST -> A -> U -> Prop) (E' : ST -> U -> Prop) Q E :
  (forall s, P s -> hoare (P' s) m (Q' s) (E' s)) ->
  (forall s, P s -> P' s (get s)) ->
  (forall s a u, P s -> Q' s a u -> Q a (set u s)) ->
  (forall s u, P s -> E' s u -> E (set u s)) -> hoare P (zoom get set m) Q E.
Proof.
  intros Hm HP HQ HE s Hs. unfold zoom. specialize (Hm s Hs (get s) (HP s Hs)).
  destruct (m (get s)) as [[a|e| |] u]; eauto.
Qed.
End hoare.

(** ** Invariants *)

Section maintains.
Context {ST : Type} (I : ST -> Prop).

Lemma maintains_weaken {A} (Q Q' : A -> Prop) (m : M ST A) :
  maintains I Q' m -> (forall a, Q' a -> Q a) -> maintains I Q m.
Proof. intros Hm HQ. eapply hoare_weaken; [exact Hm|done| |done]. intros a s []; auto. Qed.

(** For a hint: only an unknown postcondition is weakened. *)
Lemma maintains_any {A} (Q : A -> Prop) (m : M ST A) : maintains I Q m -> maintains I any m.
Proof. intros Hm. by eapply maintains_weaken. Qed.

Lemma maintains_ret {A} (Q : A -> Prop) (a : A) : Q a -> maintains I Q (mret a : M ST A).
Proof. by intros Ha s Hs. Qed.

Lemma maintains_mout {A} (Q : A -> Prop) (o : outcome A) :
  (forall a, o = Ret a -> Q a) -> maintains I Q (mout o : M ST A).
Proof. intros Ho s Hs. unfold mout. destruct o; auto. Qed.

Lemma maintains_throw {A} (Q : A -> Prop) e : maintains I Q (mthrow e : M ST A).
Proof. by intros s Hs. Qed.

Lemma maintains_gets {A} (Q : A -> Prop) (f : ST -> A) :
  (forall s, I s -> Q (f s)) -> maintains I Q (gets f).
Proof. intros Hf s Hs. split; auto. Qed.

Lemma maintains_modify (f : ST -> ST) : (forall s, I s -> I (f s)) -> maintains I any (modify f).
Proof. intros Hf s Hs. split; auto. Qed.

Lemma maintains_bind_post {A D} (R : A -> Prop) (Q : D -> Prop) (m : M ST A) (k : A -> M ST D) :
  maintains I R m -> (forall a, R a -> maintains I Q (k a)) -> maintains I Q (m ≫= k).
Proof.
  intros Hm Hk. eapply hoare_bind; [exact Hm|]. intros a s [Hs Ha]. by apply Hk.
Qed.

Lemma maintains_bind {A D} (Q : D -> Prop) (m : M ST A) (k : A -> M ST D) :
  maintains I any m -> (forall a, maintains I Q (k a)) -> maintains I Q (m ≫= k).
Proof. intros Hm Hk. eapply maintains_bind_post; [exact Hm|auto]. Qed.

Lemma maintains_try {A} (Q : A -> Prop) (m : M ST A) h :
  maintains I Q m -> (forall e, maintains I Q (h e)) -> maintains I Q (try_catch m h).
Proof. apply hoare_try. Qed.

Lemma maintains_for_each {A} (f : A -> M ST unit) (l : list A) :
  Forall (fun a => maintains I any (f a)) l -> maintains I any (for_each f l).
Proof.
  induction 1 as [|a l Ha _ IH]; [by apply maintains_ret|]. simpl. by apply maintains_bind.
Qed.

Lemma maintains_if {A} (Q : A -> Prop) (b : bool) (m1 m2 : M ST A) :
  maintains I Q m1 -> maintains I Q m2 -> maintains I Q (if b then m1 else m2).
Proof. by destruct b. Qed.

Lemma maintains_noexcept {A} (Q : A -> Prop) (m : M ST A) :
  maintains I Q m -> maintains I Q (noexcept m).
Proof. intros Hm s Hs. specialize (Hm s Hs). unfold noexcept. by destruct (m s) as [[a|e| |] s']. Qed.

Lemma maintains_for_down {A} (Q : A -> Prop) n (f : nat -> A -> M ST A) (a : A) :
  Q a -> (forall i a, Q a -> maintains I Q (f i a)) -> maintains I Q (for_down n f a).
Proof.
  intros Ha Hf. revert a Ha. induction n as [|n IH]; intros a Ha; [by apply maintains_ret|]. simpl.
  eapply maintains_bind_post; [by apply Hf|auto].
Qed.

Lemma maintains_for_up {A} (Q : A -> Prop) n (f : A -> M ST A) (a : A) :
  Q a -> (forall a, Q a -> maintains I Q (f a)) -> maintains I Q (for_up n f a).
Proof.
  intros Ha Hf. revert a Ha. induction n as [|n IH]; intros a Ha; [by apply maintains_ret|]. simpl.
  eapply maintains_bind_post; [by apply Hf|auto].
Qed.

(** An object that has an invariant of its own. *)
Lemma maintains_zoom {U A} (J : U -> Prop) (Q : A -> Prop) (get : ST -> U) (set : U -> ST -> ST)
    (m : M U A) :
  maintains J Q m -> (forall s, I s -> J (get s)) -> (forall s u, I s -> J u -> I (set u s)) ->
  maintains I Q (zoom get set m).
Proof.
  intros Hm HJ HI. apply (hoare_zoom I get set m (fun _ => J) (fun _ a u => J u /\ Q a) (fun _ => J));
    naive_solver.
Qed.

(** A part of the state the invariant does not speak of. *)
Lemma maintains_apart {U A} (get : ST -> U) (set : U -> ST -> ST) (m : M U A) :
  (forall s u, I s -> I (set u s)) -> maintains I any (zoom get set m).
Proof.
  intros HI s Hs. unfold zoom. destruct (m (get s)) as [[a|e| |] u]; auto.
Qed.

(** A critical section: inside, the mutex is held. *)
Lemma maintains_lock {A} (Q : A -> Prop) (held : ST -> bool) (set : bool -> ST -> ST) (m : M ST A) :
  (forall s, I s -> held s = false) -> (forall s, I s -> I (set false (set true s))) ->
  maintains (fun s => I (set false s)) Q m -> maintains I Q (lock_guard held set m).
Proof.
  intros Hh Hset Hm s Hs. unfold lock_guard. rewrite (Hh s Hs).
  specialize (Hm (set true s) (Hset s Hs)). by destruct (m (set true s)) as [[a|e| |] s'].
Qed.
End maintains.

(** Two invariants at once. *)
Lemma maintains_and {ST A} (I J : ST -> Prop) (Q : A -> Prop) (m : M ST A) :
  maintains I Q m -> maintains J any m -> maintains (fun s => I s /\ J s) Q m.
Proof.
  intros HI HJ s [Hs Hs']. specialize (HI s Hs). specialize (HJ s Hs').
  destruct (m s) as [[a|e| |] s']; naive_solver.
Qed.

Create HintDb triples.
#[export] Hint Resolve maintains_ret maintains_throw maintains_if maintains_try : triples.
