(* ===== verification/Llio.v ===== *)
(** * The wire format: [llio.h] and [llio.cc]

    [message_buffer] and the cursor [message] over it (a reader monad with the
    cursor as its state), the growing output buffer [message_builder] (a writer
    monad), and the [to]/[from] overloads for the basic types and containers.
    The theory that follows the definitions is the interface every protocol
    file is proved against: [appends w bs] (running the writer [w] adds exactly
    [bs] to the builder) and [parses r bs a] (running the reader [r] where the
    message continues with [bs] consumes exactly [bs] and returns [a]), with the
    classes [Encodes] and [Decodes] that every type's overloads instantiate. *)

From S2P Require Import Prelude.

Local Open Scope Z_scope.
Local Open Scope alba_scope.

(** ** Input: [message_buffer] and [message] *)

Module message_buffer.
Record t := Make { _data : bytes; _size : Z; _start : Z }.

(** The private constructor, the fresh [_data] being what the caller reads into it. *)
Definition fresh (data : bytes) (size : Z) : t := Make data size 0.

(** A reader stores a prefix of what it is asked for; what it leaves out is
    indeterminate, and using it is undefined. *)
Definition from_reader {ST} (reader : Z -> M ST bytes) : M ST t :=
  sz ← reader 4;
  (if len sz =? 4 then mret tt else mout Undef) ;;
  let size := le_combine sz in
  d ← reader size;
  mret (fresh d size).

Definition from_reader_know_size {ST} (reader : Z -> M ST bytes) (size : Z) : M ST t :=
  let real_size := u64 (4 + size) in
  d ← reader real_size;
  mret (Make d real_size 4).

Definition from_string (s : bytes) : t := fresh s (len s).

(** The [n] bytes behind [data(pos)]; [None] when they are not all inside [_data]. *)
Definition data (mb : t) (pos n : Z) : option bytes :=
  if (0 <=? n) && (_start mb + pos + n <=? len (_data mb)) then
    Some (take (Z.to_nat n) (drop (Z.to_nat (_start mb + pos)) (_data mb)))
  else None.

Definition size (mb : t) : Z := _size mb.
End message_buffer.

(** An [std::istream] over a byte string, with its state flag. *)
Record istream := Istream { is_content : bytes; is_good : bool }.

Definition check_stream : M istream unit := fun st =>
  if is_good st then (Ret tt, st)
  else (Throw (ExnInputStream (Stream_exception (str "invalid inputstream"))), st).

(** [is.read(p, n)]: stores what there is, and fails the stream when that is too
    little; a failed stream stores nothing. *)
Definition istream_read (n : Z) : M istream bytes := fun st =>
  if is_good st then
    let n' := Z.to_nat n in
    (Ret (take n' (is_content st)),
     Istream (drop n' (is_content st)) (n <=? len (is_content st)))
  else (Ret [], st).

Definition from_istream : M istream message_buffer.t :=
  sz ← istream_read 4;
  check_stream ;;
  let size := le_combine sz in
  d ← istream_read size;
  check_stream ;;
  mret (message_buffer.fresh d size).

Module message.
Record t := Make {
  _mb : message_buffer.t; _pos : Z; _initial_offset : Z; _size : Z }.

Definition make (mb : message_buffer.t) : t := Make mb 0 0 (message_buffer.size mb).
Definition make_view (mb : message_buffer.t) (offset size : Z) : t :=
  Make mb offset offset size.

Definition set_pos (p : Z) (m : t) : t :=
  Make (_mb m) p (_initial_offset m) (_size m).

(** The test both accessors make, in [size_t] arithmetic. *)
Definition outside (n : Z) (m : t) : bool :=
  u64 (_initial_offset m + _size m) <? u64 (_pos m + n).

(** [current(n)] together with the read of the [n] bytes behind the pointer,
    which is how every caller uses it. *)
Definition current (n : Z) : M t bytes := fun m =>
  if outside n m then
    (throw_deser (str "message.current(): reading outside of message"), m)
  else match message_buffer.data (_mb m) (_pos m) n with
       | Some bs => (Ret bs, m)
       | None => (Undef, m)
       end.

Definition get_nested_message (n : Z) : M t t := fun m =>
  if outside (u32 n) m then
    (throw_deser (str "message.get_nested_message(): reading outside of message"), m)
  else (Ret (make_view (_mb m) (_pos m) (u32 n)), m).

Definition get_pos : M t Z := gets (fun m => u32 (_pos m)).

(** [void skip(int x) { _pos += x; }]: [x] is converted to [int] by the call. *)
Definition skip (x : Z) : M t unit := modify (fun m => set_pos (u64 (_pos m + s32 x)) m).

Definition size (m : t) : Z := _size m.

(** What [dump] writes. *)
Definition dump (m : t) : outcome bytes :=
  match message_buffer.data (_mb m) (_initial_offset m) (_size m) with
  | Some d => Ret (le_split 4 (_size m) ++ d)
  | None => Undef
  end.
End message.

(** ** Output: [message_builder] *)

(** An [std::ostream]: a write to a failed stream is dropped. *)
Record ostream := Ostream { os_content : bytes; os_good : bool }.
Definition ostream_write (b : bytes) (os : ostream) : ostream :=
  if os_good os then Ostream (os_content os ++ b) true else os.

Module message_builder.
(** [_buffer] has [_size] bytes; freshly allocated ones are indeterminate in
    the code and zero here (no operation reads beyond [_pos]). *)
Record t := Make { _size : Z; _buffer : bytes; _pos : Z }.

Definition _SIZE0 : Z := 32.

Definition make : t :=
  Make _SIZE0 (replicate (Z.to_nat _SIZE0) Byte.x00) 4.

(** [memcpy(&_buffer[_pos], b, len); _pos += len]; writing outside the block
    is undefined. *)
Definition write (b : bytes) : M t unit := fun mb =>
  if _pos mb + len b <=? len (_buffer mb) then
    (Ret tt, Make (_size mb) (splice (Z.to_nat (_pos mb)) b (_buffer mb))
               (u32 (_pos mb + len b)))
  else (Undef, mb).

(** The reallocation in [add_raw]; copying [_pos] bytes into a smaller block
    is undefined. *)
Definition grow (n : Z) : M t unit := fun mb =>
  let new_size := u32 (_size mb + Z.max n (_size mb)) in
  if _pos mb <=? new_size then
    (Ret tt, Make new_size
       (take (Z.to_nat (_pos mb)) (_buffer mb)
          ++ replicate (Z.to_nat (new_size - _pos mb)) Byte.x00)
       (_pos mb))
  else (Undef, mb).

Definition add_raw (b : bytes) : M t unit :=
  free ← gets (fun mb => u32 (_size mb - _pos mb));
  (when free <? len b do grow (len b)) ;;
  write b.

Definition add_type (i : Z) : M t unit := add_raw [byte.of_Z i].

(** The frame [output_using] hands to the writer: the first four bytes become
    the payload's size. *)
Definition framed (mb : t) : t :=
  Make (_size mb) (splice 0 (le_split 4 (u32 (_pos mb - 4))) (_buffer mb)) (_pos mb).
Definition as_string (mb : t) : bytes := take (Z.to_nat (_pos mb)) (_buffer mb).
Definition as_string_no_size (mb : t) : bytes :=
  drop 4 (take (Z.to_nat (_pos mb)) (_buffer mb)).

Definition output_using {ST} (get : ST -> t) (set : t -> ST -> ST)
    (writer : bytes -> M ST unit) : M ST unit :=
  modify (fun s => set (framed (get s)) s) ;;
  frame ← gets (fun s => as_string (get s));
  writer frame.

Definition output : M (t * ostream) unit :=
  output_using fst (fun b s => (b, s.2)) (fun frame s => (Ret tt, (s.1, ostream_write frame s.2))) ;;
  good ← gets (fun s : t * ostream => os_good s.2);
  guard (good : bool) orelse ExnOutputStream (Stream_exception (str "invalid outputstream")).

Definition reset : M t unit := modify (fun mb => Make (_size mb) (_buffer mb) 4).
End message_builder.

(** Writers and readers. *)
Abbreviation writer := (M message_builder.t unit).
Abbreviation reader := (M message.t).

(** ** [to] *)

Definition to_bool (b : bool) : writer :=
  message_builder.add_raw [if b then Byte.x01 else Byte.x00].
Definition to_u32 (i : Z) : writer := message_builder.add_raw (le_split 4 i).
Definition to_u64 (i : Z) : writer := message_builder.add_raw (le_split 8 i).
(** A [double] is its 64-bit pattern. *)
Definition to_double (d : Z) : writer := message_builder.add_raw (le_split 8 d).

Definition to_be_u32 (i : Z) : writer :=
  to_u32 (u32 (Z.lor (Z.lor (Z.lor
    (Z.shiftr i 24)
    (Z.land (u32 (Z.shiftl i 8)) 0x00ff0000))
    (Z.land (Z.shiftr i 8) 0x0000ff00))
    (u32 (Z.shiftl i 24)))).

(** The byte swap shared by [to_be] and [from_be] on [uint64_t]. *)
Definition bswap64 (i : Z) : Z :=
  Z.lor (Z.lor (Z.lor (Z.lor (Z.lor (Z.lor (Z.lor
    (Z.shiftr (Z.land i 0xff00000000000000) 56)
    (Z.shiftr (Z.land i 0x00ff000000000000) 40))
    (Z.shiftr (Z.land i 0x0000ff0000000000) 24))
    (Z.shiftr (Z.land i 0x000000ff00000000) 8))
    (Z.shiftl (Z.land i 0x00000000ff000000) 8))
    (Z.shiftl (Z.land i 0x0000000000ff0000) 24))
    (Z.shiftl (Z.land i 0x000000000000ff00) 40))
    (Z.shiftl (Z.land i 0x00000000000000ff) 56).

Definition to_be_u64 (i : Z) : writer := to_u64 (bswap64 i).

Definition to_string (s : bytes) : writer :=
  let size := u32 (len s) in
  to_u32 size ;;
  message_builder.add_raw (take (Z.to_nat size) s).

Definition to_vector {A} (to : A -> writer) (ts : list A) : writer :=
  to_u32 (u32 (len ts)) ;;
  for_each to (reverse ts).

Definition to_pair {X Y} (tox : X -> writer) (toy : Y -> writer) (p : X * Y) : writer :=
  tox p.1 ;; toy p.2.

Definition to_optional {X} (to : X -> writer) (xo : option X) : writer :=
  match xo with
  | None => to_bool false
  | Some x => to_bool true ;; to x
  end.

(** Ten rounds exhaust 64 bits, seven at a time. *)
Fixpoint to_varint_loop (fuel : nat) (j : Z) : writer :=
  match fuel with
  | O => mout Undef
  | S fuel =>
      if 0x80 <=? j then
        message_builder.add_raw [byte.of_Z (Z.lor (Z.land j 0x7f) 0x80)] ;;
        to_varint_loop fuel (Z.shiftr j 7)
      else message_builder.add_raw [byte.of_Z (Z.land j 0x7f)]
  end.
Definition to_varint (j : Z) : writer := to_varint_loop 10 j.

(** ** [from] *)

(** [current(n)], an [n]-byte load and [skip(n)]. *)
Definition from_raw (n : nat) : reader Z :=
  ib ← message.current (Z.of_nat n);
  message.skip (Z.of_nat n) ;;
  mret (le_combine ib).

Definition from_u8 : reader Z := from_raw 1.
Definition from_u32 : reader Z := from_raw 4.
Definition from_i32 : reader Z := z ← from_raw 4; mret (s32 z).
Definition from_u64 : reader Z := from_raw 8.
Definition from_double : reader Z := from_raw 8.
Definition from_be_u64 : reader Z := i ← from_u64; mret (bswap64 i).

(** The cursor moves only when the byte is a boolean. *)
Definition from_bool : reader bool :=
  ib ← message.current 1;
  b ← (match le_combine ib with
       | 1 => mret true
       | 0 => mret false
       | _ => mout (throw_deser (str "got unexpected value while deserializing a boolean"))
       end);
  message.skip 1 ;;
  mret b.

Definition from_string : reader bytes :=
  size ← from_u32;
  ib ← message.current size;
  message.skip size ;;
  mret ib.

(** [ts.resize(size); for (int32_t i = size - 1; i >= 0; --i) { T t; from(m, t); ts[i] = t; }] *)
Definition down_from (size : Z) : nat := Z.to_nat (s32 (size - 1) + 1).
Definition from_vector {A} (dflt : A) (from : reader A) : reader (list A) := noexcept (
  size ← from_u32;
  for_down (down_from size)
    (fun i ts => t ← from; mret (<[i := t]> ts))
    (replicate (Z.to_nat size) dflt)).

Definition from_pair {X Y} (fx : reader X) (fy : reader Y) : reader (X * Y) :=
  noexcept (x ← fx; y ← fy; mret (x, y)).
Definition from_tuple3 {X Y Z} (fx : reader X) (fy : reader Y) (fz : reader Z) :
    reader (X * Y * Z) :=
  noexcept (x ← fx; y ← fy; z ← fz; mret (x, y, z)).

Definition from_optional {X} (fx : reader X) : reader (option X) := noexcept (
  d ← from_bool;
  if (d : bool) then x ← fx; mret (Some x) else mret None).

(** Reading from another cursor [m2] than the one at hand. *)
Definition on_nested {A} (m2 : message.t) (r : reader A) : reader A := fun m => (fst (r m2), m).

(** A shift of a [uint64_t] by 64 or more is undefined: the eleventh byte of a
    varint has no defined meaning. *)
Fixpoint from_varint_loop (fuel : nat) (b0 r shift : Z) : reader Z :=
  match fuel with
  | O => mout Undef
  | S fuel =>
      if 0x80 <=? b0 then
        let r := u64 (r + u64 (Z.shiftl (Z.land b0 0x7f) shift)) in
        b0 ← from_u8;
        from_varint_loop fuel b0 r (shift + 7)
      else mret (u64 (r + u64 (Z.shiftl b0 shift)))
  end.
Definition from_varint : reader Z :=
  b0 ← from_u8; from_varint_loop 10 b0 0 0.

(** ** The writer interface: [appends] *)

(** What every reachable builder satisfies. *)
Record wf_builder (b : message_builder.t) : Prop := {
  wfb_pos : 4 <= message_builder._pos b <= message_builder._size b;
  wfb_size : message_builder._size b < 2 ^ 32;
  wfb_buffer : len (message_builder._buffer b) = message_builder._size b }.

(** The abstract value of a builder: the payload written so far. *)
Definition contents (b : message_builder.t) : bytes := message_builder.as_string_no_size b.

(** What a local builder holds after [w], its size field cut off. *)
Definition built (w : writer) : outcome bytes :=
  match w message_builder.make with
  | (Ret _, mb) => Ret (drop 4 (message_builder.as_string mb))
  | (Throw e, _) => Throw e | (Abort, _) => Abort | (Undef, _) => Undef
  end.

(** [w] adds [bs], for every builder whose payload stays below 2 GiB. *)
Definition appends (w : writer) (bs : bytes) : Prop :=
  forall b, wf_builder b -> message_builder._pos b + len bs < 2 ^ 31 ->
  exists b', w b = (Ret tt, b') /\ wf_builder b' /\
    message_builder._pos b' = message_builder._pos b + len bs /\
    contents b' = contents b ++ bs.

(** A type's [to] overload and the format it writes. *)
Class Encodes {A} (to : A -> writer) (enc : A -> bytes) : Prop :=
  to_appends : forall a, appends (to a) (enc a).

(** ** The reader interface: [parses] *)

Record wf_message (m : message.t) : Prop := {
  wfm_off : 0 <= message._initial_offset m <= message._pos m;
  wfm_pos : message._pos m <= message._initial_offset m + message._size m;
  wfm_small : message._initial_offset m + message._size m < 2 ^ 31;
  wfm_start : 0 <= message_buffer._start (message._mb m);
  wfm_data : message_buffer._start (message._mb m) + message._initial_offset m
             + message._size m <= len (message_buffer._data (message._mb m)) }.

Definition left (m : message.t) : Z :=
  message._initial_offset m + message._size m - message._pos m.

(** The abstract value of a cursor: the bytes still to be read. *)
Definition remaining (m : message.t) : bytes :=
  take (Z.to_nat (left m))
    (drop (Z.to_nat (message_buffer._start (message._mb m) + message._pos m))
       (message_buffer._data (message._mb m))).

Definition advance (n : Z) (m : message.t) : message.t :=
  message.set_pos (message._pos m + n) m.

(** [r] reads [a] from exactly [bs]. *)
Definition parses {A} (r : reader A) (bs : bytes) (a : A) : Prop :=
  forall m rest, wf_message m -> remaining m = bs ++ rest ->
  r m = (Ret a, advance (len bs) m).

(** A type's [from] overload reads what the format says of every valid value. *)
Class Decodes {A} (from : reader A) (enc : A -> bytes) (valid : A -> Prop) : Prop :=
  from_parses : forall a, valid a -> parses from (enc a) a.

(** The formats of the basic types. *)
Definition enc_bool (b : bool) : bytes := [if b then Byte.x01 else Byte.x00].
Definition enc_int (n : nat) (i : Z) : bytes := le_split n i.
Definition enc_be (n : nat) (i : Z) : bytes := rev (le_split n i).
Definition enc_string (s : bytes) : bytes := le_split 4 (len s) ++ s.
Definition enc_vector {A} (enc : A -> bytes) (ts : list A) : bytes :=
  le_split 4 (len ts) ++ concat (enc <$> reverse ts).
Definition enc_pair {X Y} (ex : X -> bytes) (ey : Y -> bytes) (p : X * Y) : bytes :=
  ex p.1 ++ ey p.2.
Definition enc_tuple3 {X Y Z} (ex : X -> bytes) (ey : Y -> bytes) (ez : Z -> bytes)
    (t : X * Y * Z) : bytes :=
  ex t.1.1 ++ ey t.1.2 ++ ez t.2.
Definition enc_optional {X} (ex : X -> bytes) (xo : option X) : bytes :=
  match xo with None => enc_bool false | Some x => enc_bool true ++ ex x end.
Fixpoint enc_varint_loop (fuel : nat) (j : Z) : bytes :=
  match fuel with
  | O => []
  | S fuel =>
      if 0x80 <=? j then byte.of_Z (Z.lor (Z.land j 0x7f) 0x80) :: enc_varint_loop fuel (Z.shiftr j 7)
      else [byte.of_Z (Z.land j 0x7f)]
  end.
Definition enc_varint : Z -> bytes := enc_varint_loop 10.

Definition valid_int (bits : Z) (i : Z) : Prop := 0 <= i < 2 ^ bits.
Definition valid_s32 (i : Z) : Prop := - 2 ^ 31 <= i < 2 ^ 31.
Definition valid_any {A} (a : A) : Prop := True.
Definition valid_vector {A} (valid : A -> Prop) (ts : list A) : Prop :=
  Forall valid ts /\ len ts < 2 ^ 31.
Definition valid_pair {X Y} (vx : X -> Prop) (vy : Y -> Prop) (p : X * Y) : Prop :=
  vx p.1 /\ vy p.2.
Definition valid_tuple3 {X Y Z} (vx : X -> Prop) (vy : Y -> Prop) (vz : Z -> Prop)
    (t : X * Y * Z) : Prop := vx t.1.1 /\ vy t.1.2 /\ vz t.2.
Definition valid_optional {X} (vx : X -> Prop) (xo : option X) : Prop :=
  match xo with None => True | Some x => vx x end.

(** The first byte of a varint and what follows it. *)
Definition varint_head (j : Z) : Z := if 0x80 <=? j then j mod 2 ^ 7 + 2 ^ 7 else j.
Definition varint_tail (n : nat) (j : Z) : bytes :=
  if 0x80 <=? j then enc_varint_loop n (j / 2 ^ 7) else [].

(** A value written to a fresh builder, output to a stream, and read back from it
    (the composition of the unit tests). *)
Definition to_stream (w : writer) : outcome bytes :=
  match w message_builder.make with
  | (Ret _, b) =>
      match message_builder.output (b, Ostream [] true) with
      | (Ret _, (_, os)) => Ret (os_content os)
      | (Throw e, _) => Throw e
      | (Abort, _) => Abort
      | (Undef, _) => Undef
      end
  | (Throw e, _) => Throw e
  | (Abort, _) => Abort
  | (Undef, _) => Undef
  end.
Definition from_stream {A} (r : reader A) (bs : bytes) : outcome A * Z :=
  match from_istream (Istream bs true) with
  | (Ret mb, _) => let '(o, m) := r (message.make mb) in (o, left m)
  | (Throw e, _) => (Throw e, 0)
  | (Abort, _) => (Abort, 0)
  | (Undef, _) => (Undef, 0)
  end.

(** The nested type of the composition test. *)
Definition composition_to : list (option (bytes * bool)) -> writer :=
  to_vector (to_optional (to_pair to_string to_bool)).
Definition composition_from : reader (list (option (bytes * bool))) :=
  from_vector None (from_optional (from_pair from_string from_bool)).

(** [safe r]: on every well-formed cursor the reader does not leave the
    message's bytes, and the cursor it leaves behind (also when it throws) is
    well formed again. *)

Definition safe {A} (r : reader A) : Prop :=
  forall m, wf_message m -> fst (r m) <> Undef /\ wf_message (snd (r m)).

(** ** Facts about builders *)

Lemma wf_make : wf_builder message_builder.make.
Proof. split; vm_compute; repeat split; congruence. Qed.

Lemma contents_make : contents message_builder.make = [].
Proof. reflexivity. Qed.

Lemma write_spec bs b :
  wf_builder b -> message_builder._pos b + len bs <= message_builder._size b ->
  message_builder._pos b + len bs < 2 ^ 32 ->
  exists b', message_builder.write bs b = (Ret tt, b') /\ wf_builder b' /\
    message_builder._size b' = message_builder._size b /\
    message_builder._pos b' = message_builder._pos b + len bs /\
    contents b' = contents b ++ bs.
Proof.
  intros [Hp Hs Hb] Hfit Hsmall. destruct b as [sz buf pos]; simpl in *.
  pose proof (len_nonneg bs).
  unfold message_builder.write; simpl.
  replace (pos + len bs <=? len buf) with true by (symmetry; lia).
  rewrite u32_small by lia.
  eexists; split; [done|]. unfold len in *.
  split_and!; [split| | |]; simpl; try done; try lia.
  - unfold len. rewrite length_splice; lia.
  - unfold contents, message_builder.as_string_no_size; simpl.
    replace (Z.to_nat (pos + Z.of_nat (length bs))) with (Z.to_nat pos + length bs)%nat by lia.
    rewrite take_splice by lia. rewrite drop_app_le; [done|]. rewrite length_take; lia.
Qed.

Lemma grow_spec n b :
  wf_builder b -> 0 <= n ->
  message_builder._size b + Z.max n (message_builder._size b) < 2 ^ 32 ->
  exists b', message_builder.grow n b = (Ret tt, b') /\ wf_builder b' /\
    message_builder._size b' = message_builder._size b + Z.max n (message_builder._size b) /\
    message_builder._pos b' = message_builder._pos b /\ contents b' = contents b.
Proof.
  intros [Hp Hs Hb] Hn Hsmall. destruct b as [sz buf pos]; simpl in *.
  unfold message_builder.grow; simpl. rewrite u32_small by lia.
  replace (pos <=? sz + Z.max n sz) with true by (symmetry; lia).
  eexists; split; [done|]. split_and!; [split| | |]; simpl; try lia.
  - unfold len in *. rewrite length_app, length_take, length_replicate. lia.
  - unfold contents, message_builder.as_string_no_size; simpl. f_equal.
    unfold len in *. rewrite take_app_le by (rewrite length_take; lia). rewrite take_take. f_equal; lia.
Qed.

(** The growth rule keeps the block large enough below 2 GiB. *)
Lemma add_raw_appends bs : appends (message_builder.add_raw bs) bs.
Proof.
  intros b Hwf Hfit. pose proof Hwf as [Hp Hs _]. pose proof (len_nonneg bs).
  unfold message_builder.add_raw, mbind, M_bind, gets. simpl.
  rewrite u32_small by lia.
  destruct (Z.ltb_spec (message_builder._size b - message_builder._pos b) (len bs)).
  - destruct (grow_spec (len bs) b) as (b1 & -> & Hwf1 & Hs1 & Hp1 & <-); [done|lia|lia|].
    destruct (write_spec bs b1) as (b2 & -> & ? & _ & ? & ?); [done|lia|lia|].
    exists b2. split_and!; try done; lia.
  - unfold mret, M_ret.
    destruct (write_spec bs b) as (b2 & -> & ? & _ & ? & ?); [done|lia|lia|].
    exists b2. split_and!; try done; lia.
Qed.

Lemma appends_nil : appends (mret tt) [].
Proof. intros b Hb _. exists b. rewrite len_nil, app_nil_r. split_and!; try done. lia. Qed.

Lemma appends_bind w1 w2 bs1 bs2 :
  appends w1 bs1 -> appends w2 bs2 -> appends (w1 ;; w2) (bs1 ++ bs2).
Proof.
  intros H1 H2 b Hb Hfit. rewrite len_app in Hfit.
  pose proof (len_nonneg bs1). pose proof (len_nonneg bs2).
  destruct (H1 b) as (b1 & E1 & ? & ? & Hc1); [done|lia|].
  destruct (H2 b1) as (b2 & E2 & ? & ? & Hc2); [done|lia|].
  exists b2. unfold mbind, M_bind. rewrite E1, E2, Hc2, Hc1, app_assoc, len_app.
  split_and!; try done; lia.
Qed.

Lemma appends_eq w bs bs' : bs = bs' -> appends w bs -> appends w bs'.
Proof. by intros ->. Qed.

(** [reset] empties the payload and keeps the block. *)
Lemma reset_spec b :
  wf_builder b -> exists b', message_builder.reset b = (Ret tt, b') /\ wf_builder b' /\
    message_builder._pos b' = 4 /\ contents b' = [].
Proof.
  intros [Hp Hs Hb]. eexists; split; [reflexivity|]. split_and!; [split|..]; simpl; try done; try lia.
  unfold contents, message_builder.as_string_no_size; simpl.
  rewrite drop_ge; [done|]. rewrite length_take. lia.
Qed.

(** ** Facts about cursors *)

Lemma length_remaining m : wf_message m -> len (remaining m) = left m.
Proof.
  intros []. unfold remaining, left, len in *. rewrite length_take, length_drop. lia.
Qed.

Lemma remaining_split m bs rest :
  wf_message m -> remaining m = bs ++ rest -> len bs <= left m.
Proof.
  intros Hwf E. rewrite <- (length_remaining m Hwf), E, len_app.
  pose proof (len_nonneg rest). lia.
Qed.

Lemma wf_advance m n :
  wf_message m -> 0 <= n <= left m -> wf_message (advance n m).
Proof. intros [] Hn. unfold left in Hn. split; simpl; lia. Qed.

Lemma remaining_advance m bs rest :
  wf_message m -> remaining m = bs ++ rest -> remaining (advance (len bs) m) = rest.
Proof.
  intros Hwf E. pose proof (remaining_split _ _ _ Hwf E) as Hle.
  pose proof (len_nonneg bs). destruct Hwf.
  assert (drop (length bs) (remaining m) = rest) as <- by by rewrite E, drop_app_length.
  unfold remaining, left, len in *; simpl. rewrite skipn_firstn_comm, drop_drop.
  f_equal; [lia|]. f_equal. lia.
Qed.

Lemma advance_advance a b m : advance a (advance b m) = advance (b + a) m.
Proof. unfold advance, message.set_pos. destruct m; simpl. f_equal. lia. Qed.

Lemma advance_0 m : advance 0 m = m.
Proof. unfold advance, message.set_pos. destruct m; simpl. f_equal. lia. Qed.

(** Within the bounds, the overflow-checked test is the test one means. *)
Lemma outside_spec n m :
  wf_message m -> 0 <= n < 2 ^ 63 -> message.outside n m = (left m <? n).
Proof.
  intros [] Hn. unfold message.outside, left. rewrite !u64_small by lia.
  apply eq_true_iff_eq. rewrite !Z.ltb_lt. lia.
Qed.

Lemma data_spec m n :
  wf_message m -> 0 <= n <= left m ->
  message_buffer.data (message._mb m) (message._pos m) n
  = Some (take (Z.to_nat n) (remaining m)).
Proof.
  intros [] Hn. unfold message_buffer.data, remaining, left in *.
  replace (0 <=? n) with true by (symmetry; lia).
  replace (_ <=? _) with true by (symmetry; apply Z.leb_le; lia). simpl.
  rewrite take_take. do 2 f_equal. lia.
Qed.

Lemma current_ok m bs rest :
  wf_message m -> remaining m = bs ++ rest -> message.current (len bs) m = (Ret bs, m).
Proof.
  intros Hwf E. pose proof (remaining_split _ _ _ Hwf E) as Hle.
  pose proof (len_nonneg bs). assert (left m < 2 ^ 31) by (destruct Hwf; unfold left; lia).
  unfold message.current. rewrite outside_spec by (done || lia).
  replace (_ <? _) with false by (symmetry; lia).
  rewrite data_spec by (done || lia). unfold len. rewrite Nat2Z.id.
  by rewrite E, take_app_length.
Qed.

Lemma current_short m n :
  wf_message m -> left m < n < 2 ^ 63 ->
  message.current n m
  = (throw_deser (str "message.current(): reading outside of message"), m).
Proof.
  intros Hwf Hn. assert (0 <= left m) by (destruct Hwf; unfold left; lia).
  unfold message.current. rewrite outside_spec by (done || lia).
  by replace (_ <? _) with true by (symmetry; lia).
Qed.

Lemma current_take m n :
  wf_message m -> 0 <= n <= left m ->
  message.current n m = (Ret (take (Z.to_nat n) (remaining m)), m).
Proof.
  intros Hwf Hn. pose proof (length_remaining m Hwf) as Hlen. unfold len in Hlen.
  replace n with (len (take (Z.to_nat n) (remaining m))) at 1
    by (unfold len; rewrite length_take; lia).
  eapply current_ok; [done|]. by rewrite take_drop.
Qed.

Lemma skip_spec m n :
  wf_message m -> 0 <= n <= left m -> message.skip n m = (Ret tt, advance n m).
Proof.
  intros [] Hn. unfold left in Hn. unfold message.skip, modify, advance.
  rewrite s32_small, u64_small by lia. done.
Qed.

(** ** Composition of readers *)

Lemma parses_ret {A} (a : A) : parses (mret a) [] a.
Proof. intros m rest Hwf E. rewrite len_nil, advance_0. done. Qed.

Lemma parses_bind {A B} (r : reader A) (k : A -> reader B) bs1 bs2 a b :
  parses r bs1 a -> parses (k a) bs2 b -> parses (r ≫= k) (bs1 ++ bs2) b.
Proof.
  intros H1 H2 m rest Hwf E. rewrite <- app_assoc in E.
  pose proof (remaining_split _ _ _ Hwf E). pose proof (len_nonneg bs1).
  unfold mbind, M_bind. rewrite (H1 m _ Hwf E).
  rewrite (H2 _ rest); [|by apply wf_advance; [|lia] |by apply remaining_advance].
  by rewrite advance_advance, len_app.
Qed.

Lemma parses_bind_ret {A B} (r : reader A) (f : A -> B) bs a :
  parses r bs a -> parses (x ← r; mret (f x)) bs (f a).
Proof.
  intros H. rewrite <- (app_nil_r bs). eapply parses_bind; [done|apply parses_ret].
Qed.

Lemma parses_eq {A} (r : reader A) bs bs' a : bs = bs' -> parses r bs a -> parses r bs' a.
Proof. by intros ->. Qed.

Lemma parses_noexcept {A} (r : reader A) bs a : parses r bs a -> parses (noexcept r) bs a.
Proof. intros H m rest Hwf E. unfold noexcept. by rewrite (H m rest Hwf E). Qed.


Lemma parses_get_pos {A} (k : Z -> reader A) bs a :
  (forall p, parses (k p) bs a) -> parses (message.get_pos ≫= k) bs a.
Proof.
  intros H m rest Hwf E.
  rewrite (bind_ret_eq message.get_pos _ m (u32 (message._pos m)) m eq_refl). by eapply H.
Qed.

(** A nested message is read to its end or not: the outer cursor stays. *)
Lemma parses_on_nested {A} m2 (r : reader A) bs rest a :
  wf_message m2 -> remaining m2 = bs ++ rest -> parses r bs a -> parses (on_nested m2 r) [] a.
Proof.
  intros Hwf E Hr m rest' Hm Em. unfold on_nested. rewrite (Hr m2 rest Hwf E).
  by rewrite len_nil, advance_0.
Qed.

(** ** Readers are memory safe *)

Lemma safe_ret {A} (a : A) : safe (mret a).
Proof. done. Qed.

Lemma safe_throw {A} e : safe (mout (@throw_deser A e)).
Proof. done. Qed.

Lemma safe_bind {A B} (r : reader A) (k : A -> reader B) :
  safe r -> (forall a, safe (k a)) -> safe (r ≫= k).
Proof.
  intros H1 H2 m Hwf. destruct (H1 m Hwf) as [Hu Hw]. unfold mbind, M_bind.
  destruct (r m) as [[] m']; simpl in *; try done. by apply H2.
Qed.

Lemma safe_noexcept {A} (r : reader A) : safe r -> safe (noexcept r).
Proof.
  intros H m Hwf. destruct (H m Hwf). unfold noexcept. by destruct (r m) as [[] ?].
Qed.

Lemma safe_for_down {A} n (f : nat -> A -> reader A) :
  (forall i a, safe (f i a)) -> forall a, safe (for_down n f a).
Proof.
  intros Hf. induction n as [|n IH]; intros a; simpl; [apply safe_ret|].
  apply safe_bind; [done|]. intros a'. apply IH.
Qed.

(** The accesses all overloads are made of: load [n] bytes, move past them. *)
Lemma safe_current_skip {A} n (k : bytes -> reader A) :
  0 <= n < 2 ^ 32 -> (forall bs, safe (k bs)) ->
  safe (ib ← message.current n; message.skip n ;; k ib).
Proof.
  intros Hn Hk m Hwf. destruct (Z.le_gt_cases n (left m)) as [Hle|Hgt].
  - rewrite (bind_ret_eq _ _ _ _ _ (current_take m n Hwf ltac:(lia))).
    rewrite (bind_ret_eq _ _ _ _ _ (skip_spec m n Hwf ltac:(lia))).
    apply Hk, wf_advance; [done|lia].
  - by rewrite (bind_throw_eq _ _ _ _ _ (current_short m n Hwf ltac:(lia))).
Qed.

(** ** Little and big endian *)

Lemma le_split_O z : le_split 0 z = [].
Proof. done. Qed.
Lemma le_split_S n z : le_split (S n) z = byte.of_Z z :: le_split n (Z.shiftr z 8).
Proof. done. Qed.
Lemma le_combine_cons b l :
  le_combine (b :: l) = Z.lor (byte.unsigned b) (Z.shiftl (le_combine l) 8).
Proof. done. Qed.

Lemma unsigned_byte_of_Z z : byte.unsigned (byte.of_Z z) = Z.land z 255.
Proof. rewrite byte.unsigned_of_Z. unfold byte.wrap. by rewrite <- (Z.land_ones z 8). Qed.

Lemma le_combine_1 z : 0 <= z < 2 ^ 8 -> le_combine [byte.of_Z z] = z.
Proof. intros H. by apply (le_combine_split_small 1). Qed.

Lemma land_mask i k : 0 <= k ->
  Z.land i (Z.shiftl 255 k) = Z.shiftl (Z.land (Z.shiftr i k) 255) k.
Proof.
  intros Hk. apply Z.bits_inj'. intros n Hn.
  rewrite Z.land_spec, !Z.shiftl_spec, Z.land_spec by lia.
  destruct (Z.le_gt_cases k n).
  - rewrite Z.shiftr_spec by lia. do 2 f_equal. lia.
  - rewrite !(Z.testbit_neg_r _ (n-k)) by lia. by rewrite andb_false_r.
Qed.

(** The masks and shifts of [to_be]/[from_be] reverse the eight bytes. *)
Lemma bswap64_spec i : bswap64 i = le_combine (rev (le_split 8 i)).
Proof.
  unfold bswap64. rewrite !le_split_S, le_split_O. cbn [rev app].
  rewrite !le_combine_cons, LittleEndianList.le_combine_nil, !unsigned_byte_of_Z.
  change 0xff00000000000000 with (Z.shiftl 255 56).
  change 0x00ff000000000000 with (Z.shiftl 255 48).
  change 0x0000ff0000000000 with (Z.shiftl 255 40).
  change 0x000000ff00000000 with (Z.shiftl 255 32).
  change 0x00000000ff000000 with (Z.shiftl 255 24).
  change 0x0000000000ff0000 with (Z.shiftl 255 16).
  change 0x000000000000ff00 with (Z.shiftl 255 8).
  change 0x00000000000000ff with (Z.shiftl 255 0).
  rewrite !land_mask by lia. rewrite ?Z.shiftr_shiftr by lia.
  rewrite !Z.shiftr_shiftl_l by lia.
  rewrite ?Z.shiftl_lor, ?Z.shiftl_shiftl by lia.
  rewrite ?Z.shiftl_0_l, ?Z.shiftl_0_r, ?Z.lor_0_r, ?Z.shiftr_0_r, <- ?Z.lor_assoc.
  reflexivity.
Qed.

Lemma le_split_bswap64 i : le_split 8 (bswap64 i) = rev (le_split 8 i).
Proof. rewrite bswap64_spec. by apply LittleEndianList.split_le_combine'. Qed.

Lemma bswap64_involutive i : 0 <= i < 2 ^ 64 -> bswap64 (bswap64 i) = i.
Proof.
  intros H. rewrite (bswap64_spec (bswap64 i)), le_split_bswap64, rev_involutive.
  by apply le_combine_split_small.
Qed.

Lemma land_255 z : Z.land z 255 = z mod 2 ^ 8.
Proof. by rewrite <- (Z.land_ones z 8). Qed.

Lemma u32_shl24 i : u32 (Z.shiftl i 24) = Z.shiftl (Z.land i 255) 24.
Proof.
  unfold u32. rewrite land_255, !Z.shiftl_mul_pow2 by lia.
  change (2 ^ 32) with (2 ^ 8 * 2 ^ 24). by rewrite Z.mul_mod_distr_r.
Qed.

Lemma u32_shl8_byte2 i :
  Z.land (Z.shiftr (u32 (Z.shiftl i 8)) 16) 255 = Z.land (Z.shiftr i 8) 255.
Proof.
  apply Z.bits_inj'. intros n Hn. change 255 with (Z.ones 8).
  rewrite !Z.land_spec, Z.testbit_ones_nonneg by lia.
  destruct (Z.ltb_spec n 8); [|by rewrite !andb_false_r].
  unfold u32. rewrite !Z.shiftr_spec, Z.mod_pow2_bits_low, Z.shiftl_spec by lia.
  do 2 f_equal. lia.
Qed.

(** The big-endian form of a [uint32_t]. *)
Lemma le_split_be32 i : 0 <= i < 2 ^ 32 ->
  le_split 4 (u32 (Z.lor (Z.lor (Z.lor
    (Z.shiftr i 24) (Z.land (u32 (Z.shiftl i 8)) 0x00ff0000))
    (Z.land (Z.shiftr i 8) 0x0000ff00)) (u32 (Z.shiftl i 24)))) = rev (le_split 4 i).
Proof.
  intros Hi.
  enough (Z.lor (Z.lor (Z.lor
    (Z.shiftr i 24) (Z.land (u32 (Z.shiftl i 8)) 0x00ff0000))
    (Z.land (Z.shiftr i 8) 0x0000ff00)) (u32 (Z.shiftl i 24))
    = le_combine (rev (le_split 4 i))) as ->.
  { rewrite u32_small by apply (LittleEndianList.le_combine_bound (rev (le_split 4 i))).
    by apply LittleEndianList.split_le_combine'. }
  change 0x00ff0000 with (Z.shiftl 255 16). change 0x0000ff00 with (Z.shiftl 255 8).
  rewrite !land_mask, u32_shl24, u32_shl8_byte2, Z.shiftr_shiftr by lia.
  replace (Z.shiftr i 24) with (Z.land (Z.shiftr i 24) 255).
  2: { rewrite land_255. apply Z.mod_small. rewrite Z.shiftr_div_pow2 by lia.
       split; [apply Z.div_pos; lia|apply Z.div_lt_upper_bound; lia]. }
  rewrite !le_split_S, le_split_O. cbn [rev app].
  rewrite !le_combine_cons, LittleEndianList.le_combine_nil, !unsigned_byte_of_Z.
  rewrite ?Z.shiftr_shiftr, ?Z.shiftl_lor, ?Z.shiftl_shiftl by lia.
  rewrite ?Z.shiftl_0_l, ?Z.lor_0_r, <- ?Z.lor_assoc.
  f_equal. rewrite !Z.lor_assoc. f_equal. apply Z.lor_comm.
Qed.

(** ** The writers of the basic types *)

#[export] Hint Resolve appends_nil add_raw_appends : codec.

#[export] Instance to_bool_encodes : Encodes to_bool enc_bool.
Proof. intros b. apply add_raw_appends. Qed.
#[export] Instance to_u32_encodes : Encodes to_u32 (enc_int 4).
Proof. intros i. apply add_raw_appends. Qed.
#[export] Instance to_u64_encodes : Encodes to_u64 (enc_int 8).
Proof. intros i. apply add_raw_appends. Qed.
#[export] Instance to_double_encodes : Encodes to_double (enc_int 8).
Proof. intros i. apply add_raw_appends. Qed.
#[export] Instance to_be_u64_encodes : Encodes to_be_u64 (enc_be 8).
Proof. intros i. unfold enc_be. rewrite <- le_split_bswap64. apply add_raw_appends. Qed.

Lemma to_be_u32_appends i : 0 <= i < 2 ^ 32 -> appends (to_be_u32 i) (enc_be 4 i).
Proof. intros H. unfold enc_be. rewrite <- le_split_be32 by done. apply add_raw_appends. Qed.

Lemma appends_small w bs : (len bs < 2 ^ 31 -> appends w bs) -> appends w bs.
Proof. intros H b Hb Hfit. apply H; [|done..]. destruct Hb. lia. Qed.

#[export] Instance to_string_encodes : Encodes to_string enc_string.
Proof.
  intros s. apply appends_small. intros Hs. unfold to_string, enc_string in *.
  rewrite len_app, len_le_split in Hs. pose proof (len_nonneg s).
  rewrite u32_small by lia. rewrite take_ge by (unfold len; lia).
  apply appends_bind; [apply to_appends|apply add_raw_appends].
Qed.

Lemma for_each_appends {A} (to : A -> writer) enc :
  Encodes to enc -> Encodes (for_each to) (fun ts => concat (enc <$> ts)).
Proof.
  intros H ts. induction ts as [|t ts IH]; [apply appends_nil|].
  apply appends_bind; [apply H|apply IH].
Qed.

Lemma le_split_u32 z : le_split 4 (u32 z) = le_split 4 z.
Proof. symmetry. apply (LittleEndianList.le_split_mod z 4). Qed.

#[export] Instance to_vector_encodes {A} (to : A -> writer) enc :
  Encodes to enc -> Encodes (to_vector to) (enc_vector enc).
Proof.
  intros H ts. unfold to_vector, enc_vector. rewrite <- le_split_u32.
  apply appends_bind; [apply to_appends|by apply for_each_appends].
Qed.

#[export] Instance to_pair_encodes {X Y} (tx : X -> writer) (ty : Y -> writer) ex ey :
  Encodes tx ex -> Encodes ty ey -> Encodes (to_pair tx ty) (enc_pair ex ey).
Proof. intros Hx Hy p. apply appends_bind; [apply Hx|apply Hy]. Qed.

#[export] Instance to_optional_encodes {X} (tx : X -> writer) ex :
  Encodes tx ex -> Encodes (to_optional tx) (enc_optional ex).
Proof.
  intros Hx [x|]; simpl; [|apply to_appends].
  apply (appends_bind _ _ (enc_bool true)); [apply to_appends|apply Hx].
Qed.

(** Ten rounds are enough for every [uint64_t]. *)
Lemma to_varint_loop_appends n j :
  (n <> 0)%nat -> 0 <= j < 2 ^ (7 * Z.of_nat n) ->
  appends (to_varint_loop n j) (enc_varint_loop n j).
Proof.
  revert j. induction n as [|n IH]; intros j Hn Hj; [done|].
  simpl. case_if; [|apply add_raw_appends].
  apply (appends_bind _ _ [_]); [apply add_raw_appends|].
  apply IH; [intros ->; simpl in Hj; lia|].
  rewrite Z.shiftr_div_pow2 by lia. split; [apply Z.div_pos; lia|].
  apply Z.div_lt_upper_bound; [lia|]. rewrite <- Z.pow_add_r by lia.
  eapply Z.lt_le_trans; [apply Hj|]. apply Z.pow_le_mono_r; lia.
Qed.

Lemma to_varint_appends j : valid_int 64 j -> appends (to_varint j) (enc_varint j).
Proof.
  intros H. apply to_varint_loop_appends; [done|]. unfold valid_int in H.
  split; [lia|]. etrans; [apply H|]. done.
Qed.

(** ** The readers of the basic types *)

Lemma from_raw_parses n i :
  0 <= i < 2 ^ (Z.of_nat n * 8) -> parses (from_raw n) (le_split n i) i.
Proof.
  intros Hi m rest Hwf E. pose proof (remaining_split _ _ _ Hwf E) as Hle.
  pose proof (current_ok _ _ _ Hwf E) as Hc. rewrite len_le_split in *.
  unfold from_raw. rewrite (bind_ret_eq _ _ _ _ _ Hc).
  rewrite (bind_ret_eq _ _ _ _ _ (skip_spec m (Z.of_nat n) Hwf ltac:(lia))).
  by rewrite le_combine_split_small.
Qed.

#[export] Instance from_u8_decodes : Decodes from_u8 (enc_int 1) (valid_int 8).
Proof. intros i. apply (from_raw_parses 1). Qed.
#[export] Instance from_u32_decodes : Decodes from_u32 (enc_int 4) (valid_int 32).
Proof. intros i. apply (from_raw_parses 4). Qed.
#[export] Instance from_u64_decodes : Decodes from_u64 (enc_int 8) (valid_int 64).
Proof. intros i. apply (from_raw_parses 8). Qed.
#[export] Instance from_double_decodes : Decodes from_double (enc_int 8) (valid_int 64).
Proof. intros i. apply (from_raw_parses 8). Qed.


#[export] Instance from_i32_decodes : Decodes from_i32 (enc_int 4) valid_s32.
Proof.
  intros i Hi. unfold enc_int. rewrite <- le_split_u32.
  assert (i = s32 (u32 i)) as E.
  { unfold valid_s32, s32, u32 in *. cbv zeta. rewrite Z.mod_mod by lia.
    pose proof (Z.div_mod i (2 ^ 32) ltac:(lia)). pose proof (Z.mod_pos_bound i (2 ^ 32) ltac:(lia)).
    destruct (Z.ltb_spec (i mod 2 ^ 32) (2 ^ 31)); lia. }
  rewrite E at 2. apply parses_bind_ret, (from_raw_parses 4). apply u32_range.
Qed.

#[export] Instance from_be_u64_decodes : Decodes from_be_u64 (enc_be 8) (valid_int 64).
Proof.
  intros i Hi. unfold enc_be. rewrite <- le_split_bswap64.
  rewrite <- (bswap64_involutive i Hi) at 2. apply parses_bind_ret, (from_raw_parses 8).
  rewrite bswap64_spec. apply LittleEndianList.le_combine_bound.
Qed.

#[export] Instance from_bool_decodes : Decodes from_bool enc_bool valid_any.
Proof.
  intros b _ m rest Hwf E. pose proof (remaining_split _ _ _ Hwf E) as Hle.
  pose proof (current_ok _ _ _ Hwf E) as Hc. change (len (enc_bool b)) with 1 in *.
  unfold from_bool. rewrite (bind_ret_eq _ _ _ _ _ Hc).
  by destruct b;
    (rewrite (bind_ret_eq _ _ m true m eq_refl) || rewrite (bind_ret_eq _ _ m false m eq_refl));
    rewrite (bind_ret_eq _ _ _ _ _ (skip_spec m 1 Hwf ltac:(lia))).
Qed.

Lemma parses_small {A} (r : reader A) bs a :
  (len bs < 2 ^ 31 -> parses r bs a) -> parses r bs a.
Proof.
  intros H m rest Hwf E. eapply H; [|done..].
  pose proof (remaining_split _ _ _ Hwf E). destruct Hwf. unfold left in *. lia.
Qed.

(** [current] and [skip] over a known stretch. *)
Lemma current_skip_parses {A} (k : bytes -> reader A) s bs a :
  parses (k s) bs a ->
  parses (ib ← message.current (len s); message.skip (len s) ;; k ib) (s ++ bs) a.
Proof.
  intros Hk m rest Hwf E. rewrite <- app_assoc in E.
  pose proof (remaining_split _ _ _ Hwf E). pose proof (len_nonneg s).
  rewrite (bind_ret_eq _ _ _ _ _ (current_ok _ _ _ Hwf E)).
  rewrite (bind_ret_eq _ _ _ _ _ (skip_spec m (len s) Hwf ltac:(lia))).
  rewrite (Hk _ rest); [|apply wf_advance; [done|lia]|by apply remaining_advance].
  by rewrite advance_advance, len_app.
Qed.

#[export] Instance from_string_decodes : Decodes from_string enc_string valid_any.
Proof.
  intros s _. apply parses_small. intros Hs. unfold enc_string in *.
  rewrite len_app, len_le_split in Hs. pose proof (len_nonneg s).
  eapply parses_bind; [apply (from_parses (enc := enc_int 4)); split; lia|].
  rewrite <- (app_nil_r s) at 2. apply current_skip_parses, parses_ret.
Qed.

(** The loops that fill positions [n-1, ..., 0] of a vector, each step reading one
    element: what was written in reverse order ends up in order. *)
Lemma fill_loop_parses {A B} (step : nat -> list B -> reader (list B)) (g : A -> B) enc
    (l1 : list A) (l2 acc : list B) :
  (forall i ts x, x ∈ l1 -> parses (step i ts) (enc x) (<[i := g x]> ts)) ->
  length acc = length l1 ->
  parses (for_down (length l1) step (acc ++ l2)) (concat (enc <$> reverse l1)) ((g <$> l1) ++ l2).
Proof.
  intros Hstep. revert l2 acc. induction l1 as [|x l1 IH] using rev_ind; intros l2 acc Hl.
  { destruct acc; [apply parses_ret|done]. }
  rewrite length_app in *; simpl in *. rewrite Nat.add_1_r in *. simpl.
  rewrite reverse_snoc. simpl.
  eapply parses_bind; [apply Hstep; set_solver|].
  destruct acc as [|y acc' _] using rev_ind; [simpl in Hl; lia|].
  rewrite length_app in Hl; simpl in Hl. assert (length acc' = length l1) as Hl' by lia.
  rewrite <- !app_assoc, insert_app_r_alt, Hl', Nat.sub_diag by lia. simpl.
  rewrite fmap_app, <- app_assoc. simpl. apply IH; [|done]. intros i ts z Hz. apply Hstep. set_solver.
Qed.

(** The same loop as the readers write it: a count, a default-filled vector, the loop. *)
Lemma fill_vector_parses {A B} (step : nat -> list B -> reader (list B)) (g : A -> B) enc
    (dflt : B) (l : list A) :
  (forall i ts x, x ∈ l -> parses (step i ts) (enc x) (<[i := g x]> ts)) ->
  len l < 2 ^ 31 ->
  parses (size ← from_u32; for_down (down_from size) step (replicate (Z.to_nat size) dflt))
    (le_split 4 (len l) ++ concat (enc <$> reverse l)) (g <$> l).
Proof.
  intros Hstep Hl. pose proof (len_nonneg l).
  eapply parses_bind; [apply (from_u32_decodes (len l)); split; lia|].
  unfold down_from. replace (Z.to_nat (s32 (len l - 1) + 1)) with (length l).
  2: { unfold len in *. destruct l; [done|]. rewrite s32_small; simpl in *; lia. }
  rewrite <- (app_nil_r (replicate _ _)), <- (app_nil_r (g <$> l)).
  apply fill_loop_parses; [done|]. unfold len. by rewrite length_replicate, Nat2Z.id.
Qed.

#[export] Instance from_vector_decodes {A} (dflt : A) (from : reader A) enc valid :
  Decodes from enc valid ->
  Decodes (from_vector dflt from) (enc_vector enc) (valid_vector valid).
Proof.
  intros Hd ts [Hv Hl]. apply parses_noexcept. rewrite <- (list_fmap_id ts) at 2.
  apply (fill_vector_parses _ id); [|done].
  intros i acc x Hx. apply (parses_bind_ret from (fun t => <[i := t]> acc)), Hd.
  by eapply Forall_forall in Hv.
Qed.

#[export] Instance from_pair_decodes {X Y} (fx : reader X) (fy : reader Y) ex ey vx vy :
  Decodes fx ex vx -> Decodes fy ey vy ->
  Decodes (from_pair fx fy) (enc_pair ex ey) (valid_pair vx vy).
Proof.
  intros Hx Hy [x y] [Hvx Hvy]. apply parses_noexcept.
  eapply parses_bind; [by apply Hx|]. by apply parses_bind_ret, Hy.
Qed.

#[export] Instance from_tuple3_decodes {X Y Z} (fx : reader X) (fy : reader Y)
    (fz : reader Z) ex ey ez vx vy vz :
  Decodes fx ex vx -> Decodes fy ey vy -> Decodes fz ez vz ->
  Decodes (from_tuple3 fx fy fz) (enc_tuple3 ex ey ez) (valid_tuple3 vx vy vz).
Proof.
  intros Hx Hy Hz [[x y] z] (Hvx & Hvy & Hvz). apply parses_noexcept.
  eapply parses_bind; [by apply Hx|]. eapply parses_bind; [by apply Hy|].
  by apply parses_bind_ret, Hz.
Qed.

#[export] Instance from_optional_decodes {X} (fx : reader X) ex vx :
  Decodes fx ex vx ->
  Decodes (from_optional fx) (enc_optional ex) (valid_optional vx).
Proof.
  intros Hx [x|] Hv; apply parses_noexcept; simpl.
  - eapply (parses_bind _ _ (enc_bool true)); [by apply from_bool_decodes|].
    by apply parses_bind_ret, Hx.
  - rewrite <- (app_nil_r (enc_bool false)).
    eapply parses_bind; [by apply from_bool_decodes|]. apply parses_ret.
Qed.

(** ** Vectors of values that need to be valid, or are read as something else *)

Lemma for_each_appends_valid {A} (to : A -> writer) enc (xs : list A) :
  (forall x, x ∈ xs -> appends (to x) (enc x)) ->
  appends (for_each to xs) (concat (enc <$> xs)).
Proof.
  induction xs as [|x xs IH]; intros H; simpl; [apply appends_nil|].
  apply appends_bind; [apply H; set_solver|apply IH; set_solver].
Qed.

Lemma to_vector_appends_valid {A} (to : A -> writer) enc (valid : A -> Prop) (xs : list A) :
  (forall x, valid x -> appends (to x) (enc x)) -> Forall valid xs ->
  appends (to_vector to xs) (enc_vector enc xs).
Proof.
  intros Hto Hv. unfold to_vector, enc_vector. rewrite <- le_split_u32.
  apply appends_bind; [apply to_u32_encodes|].
  apply for_each_appends_valid. intros x Hx. apply Hto.
  eapply Forall_forall; [exact Hv|]. by apply elem_of_reverse.
Qed.

Lemma from_vector_parses_fmap {A B} (dflt : B) (from : reader B) (enc : A -> bytes) (g : A -> B)
    (valid : A -> Prop) (xs : list A) :
  (forall a, valid a -> parses from (enc a) (g a)) -> Forall valid xs -> len xs < 2 ^ 31 ->
  parses (from_vector dflt from) (enc_vector enc xs) (g <$> xs).
Proof.
  intros Hp Hv Hl. apply parses_noexcept, (fill_vector_parses _ g); [|done].
  intros i acc x Hx. apply (parses_bind_ret from (fun t => <[i := t]> acc)), Hp.
  by eapply Forall_forall in Hv.
Qed.

Lemma foldl_snoc_map {A B} (f : A -> B) l acc :
  foldl (fun acc x => acc ++ [f x]) acc l = acc ++ (f <$> l).
Proof.
  revert acc. induction l as [|x l IH]; intros acc; simpl; [by rewrite app_nil_r|].
  by rewrite IH, <- app_assoc.
Qed.

Lemma for_up_parses {A B} (f : A -> reader A) (g : A -> B -> A) enc (bs : list B) a :
  (forall a b, b ∈ bs -> parses (f a) (enc b) (g a b)) ->
  parses (for_up (length bs) f a) (concat (enc <$> bs)) (foldl g a bs).
Proof.
  revert a. induction bs as [|b bs IH]; intros a Hf; simpl; [apply parses_ret|].
  eapply parses_bind; [apply Hf; set_solver|]. apply IH. set_solver.
Qed.

Lemma parses_bind_nil {A B} (r : reader A) (k : A -> reader B) bs a b :
  parses r bs a -> parses (k a) [] b -> parses (r ≫= k) bs b.
Proof. intros H1 H2. rewrite <- (app_nil_r bs). by eapply parses_bind. Qed.

(** ** Automation

    [codec] holds the leaves: one extern hint per overload.  [appends_step] and
    [parses_step] take a writer or reader apart along its binds and the format
    along its concatenations. *)

#[export] Hint Extern 1 (appends (message_builder.add_raw _) _) => apply add_raw_appends : codec.
#[export] Hint Extern 1 (appends (to_bool _) _) => apply to_bool_encodes : codec.
#[export] Hint Extern 1 (appends (to_u32 _) _) => apply to_u32_encodes : codec.
#[export] Hint Extern 1 (appends (to_u64 _) _) => apply to_u64_encodes : codec.
#[export] Hint Extern 1 (appends (to_double _) _) => apply to_double_encodes : codec.
#[export] Hint Extern 1 (appends (to_string _) _) => apply to_string_encodes : codec.
#[export] Hint Extern 1 (parses from_u8 _ _) => by apply from_u8_decodes : codec.
#[export] Hint Extern 1 (parses from_u32 _ _) => by apply from_u32_decodes : codec.
#[export] Hint Extern 1 (parses from_i32 _ _) => by apply from_i32_decodes : codec.
#[export] Hint Extern 1 (parses from_u64 _ _) => by apply from_u64_decodes : codec.
#[export] Hint Extern 1 (parses from_double _ _) => by apply from_double_decodes : codec.
#[export] Hint Extern 1 (parses from_bool _ _) => by apply from_bool_decodes : codec.
#[export] Hint Extern 1 (parses from_string _ _) => by apply from_string_decodes : codec.

Ltac appends_step :=
  first [ apply appends_bind; [solve [auto with codec]|]
        | solve [auto with codec] ].
Ltac parses_step :=
  first [ eapply parses_bind; [solve [auto with codec]|]; cbv beta
        | eapply parses_bind_nil; [solve [auto with codec]|]; cbv beta
        | apply parses_ret
        | solve [auto with codec] ].

(** ** Varints *)

Lemma varint_low j : 0 <= j -> Z.land j 0x7f = j mod 2 ^ 7.
Proof. intros _. by rewrite <- (Z.land_ones j 7). Qed.

Lemma varint_cont j : 0 <= j -> Z.lor (Z.land j 0x7f) 0x80 = j mod 2 ^ 7 + 2 ^ 7.
Proof.
  intros Hj. rewrite varint_low by done.
  pose proof (Z.mod_pos_bound j (2 ^ 7) ltac:(lia)) as Hb.
  rewrite <- Z.lxor_lor, <- Z.add_nocarry_lxor; [done|..].
  all: apply Z.bits_inj'; intros n Hn; rewrite Z.land_spec, Z.bits_0.
  all: change 128 with (2 ^ 7); rewrite Z.pow2_bits_eqb by lia.
  all: destruct (Z.eqb_spec 7 n) as [<-|]; [|by rewrite andb_false_r].
  all: by rewrite Z.mod_pow2_bits_high by lia.
Qed.


Lemma varint_head_range j : 0 <= j -> valid_int 8 (varint_head j).
Proof.
  intros Hj. unfold varint_head, valid_int. pose proof (Z.mod_pos_bound j (2 ^ 7) ltac:(lia)).
  destruct (Z.leb_spec 0x80 j); lia.
Qed.

Lemma enc_varint_S n j : 0 <= j ->
  enc_varint_loop (S n) j = enc_int 1 (varint_head j) ++ varint_tail n j.
Proof.
  intros Hj. unfold varint_head, varint_tail. simpl.
  destruct (Z.leb_spec 0x80 j).
  - by rewrite varint_cont, Z.shiftr_div_pow2 by lia.
  - by rewrite varint_low, Z.mod_small by lia.
Qed.

Lemma from_varint_loop_parses n j r shift :
  shift = 7 * (9 - Z.of_nat n) -> (n <= 9)%nat -> 0 <= r < 2 ^ shift -> 0 <= j ->
  r + j * 2 ^ shift < 2 ^ 64 ->
  parses (from_varint_loop (S n) (varint_head j) r shift) (varint_tail n j)
    (r + j * 2 ^ shift).
Proof.
  revert j r shift. induction n as [|n IH]; intros j r shift Hs Hn Hr Hj Hmax.
  all: assert (0 < 2 ^ shift) by (apply Z.pow_pos_nonneg; lia).
  all: unfold varint_head, varint_tail; cbn [from_varint_loop].
  all: destruct (Z.leb_spec 0x80 j) as [Hge|Hlt].
  1: exfalso; subst shift; simpl in *; lia.
  1,3: replace (128 <=? j) with false by (symmetry; lia).
  1,2: rewrite Z.shiftl_mul_pow2, (u64_small (_ * _)), u64_small by (lia || nia);
       apply parses_ret.
  pose proof (Z.mod_pos_bound j (2 ^ 7) ltac:(lia)) as Hb.
  pose proof (Z.div_mod j (2 ^ 7) ltac:(lia)) as Hdm.
  replace (128 <=? _) with true by (symmetry; lia).
  assert (Z.land (j mod 2 ^ 7 + 2 ^ 7) 0x7f = j mod 2 ^ 7) as ->.
  { rewrite varint_low by lia.
    by rewrite <- Z.add_mod_idemp_r, Z_mod_same_full, Z.add_0_r, Z.mod_mod by lia. }
  set (q := j / 2 ^ 7) in *. set (d := j mod 2 ^ 7) in *.
  assert (0 < q) by (unfold q in *; nia).
  rewrite Z.shiftl_mul_pow2, (u64_small (d * 2 ^ shift)), u64_small by (lia || nia).
  rewrite enc_varint_S by lia.
  eapply parses_bind; [apply (from_parses (enc := enc_int 1)), varint_head_range; lia|].
  assert (2 ^ (shift + 7) = 2 ^ shift * 2 ^ 7) as Hp by (apply Z.pow_add_r; lia).
  replace (r + j * 2 ^ shift) with (r + d * 2 ^ shift + q * 2 ^ (shift + 7)) by (rewrite Hp; nia).
  apply IH; rewrite ?Hp; lia || nia.
Qed.

#[export] Instance from_varint_decodes : Decodes from_varint enc_varint (valid_int 64).
Proof.
  intros j [Hj Hmax]. unfold from_varint, enc_varint. rewrite enc_varint_S by done.
  eapply parses_bind; [by apply (from_parses (enc := enc_int 1)), varint_head_range|].
  replace j with (0 + j * 2 ^ 0) at 3 by lia. apply from_varint_loop_parses; lia.
Qed.

(** ** The frame on the wire *)

Lemma as_string_split b :
  wf_builder b ->
  exists h, length h = 4%nat /\ message_builder.as_string b = h ++ contents b.
Proof.
  intros [Hp Hs Hb]. exists (take 4 (message_builder.as_string b)).
  unfold contents, message_builder.as_string_no_size, message_builder.as_string.
  split; [|by rewrite take_drop]. unfold len in *. rewrite !length_take. lia.
Qed.

Lemma len_contents b : wf_builder b -> len (contents b) = message_builder._pos b - 4.
Proof.
  intros [Hp Hs Hb]. unfold contents, message_builder.as_string_no_size, len in *.
  rewrite length_drop, length_take. lia.
Qed.

(** [output_using] sends the payload's size and the payload, and changes nothing
    of the payload. *)
Lemma framed_spec b :
  wf_builder b ->
  wf_builder (message_builder.framed b) /\ contents (message_builder.framed b) = contents b /\
  message_builder._pos (message_builder.framed b) = message_builder._pos b /\
  message_builder.as_string (message_builder.framed b)
  = le_split 4 (len (contents b)) ++ contents b.
Proof.
  intros Hwf. pose proof (len_contents b Hwf) as Hlc. destruct Hwf as [Hp Hs Hb].
  unfold message_builder.framed. remember (le_split 4 _) as h eqn:Eh.
  assert (length h = 4%nat) as Hh by by subst h. unfold len in Hb.
  assert (length (splice 0 h (message_builder._buffer b))
          = length (message_builder._buffer b)) as Hl by (apply length_splice; lia).
  assert (message_builder.as_string
    (message_builder.Make (message_builder._size b) (splice 0 h (message_builder._buffer b))
       (message_builder._pos b)) = h ++ contents b) as E.
  { unfold message_builder.as_string, contents, message_builder.as_string_no_size; simpl.
    unfold splice; simpl. rewrite Hh.
    rewrite take_app_ge, Hh by lia. f_equal. by rewrite skipn_firstn_comm. }
  split_and!; [split|..]; simpl; try (unfold len; lia).
  - unfold contents at 1, message_builder.as_string_no_size.
    unfold message_builder.as_string in E. rewrite E. by rewrite drop_app_length' by done.
  - rewrite E, Eh. by rewrite le_split_u32, Hlc.
Qed.

(** A received frame as a cursor over its payload. *)
Lemma message_make_spec bs :
  len bs < 2 ^ 31 ->
  let m := message.make (message_buffer.fresh bs (len bs)) in
  wf_message m /\ remaining m = bs /\ left m = len bs.
Proof.
  intros H m. pose proof (len_nonneg bs). split_and!.
  - split; simpl; unfold message_buffer.size; simpl; lia.
  - unfold remaining, left; simpl. unfold message_buffer.size; simpl.
    rewrite drop_0. apply take_ge. unfold len. lia.
  - unfold left; simpl. unfold message_buffer.size; simpl. lia.
Qed.

Lemma istream_read_app a b :
  istream_read (len a) (Istream (a ++ b) true) = (Ret a, Istream b true).
Proof.
  unfold istream_read; simpl. pose proof (len_nonneg b).
  replace (len a <=? _) with true by (symmetry; apply Z.leb_le; rewrite len_app; lia).
  unfold len. by rewrite Nat2Z.id, take_app_length, drop_app_length.
Qed.

Lemma from_istream_frame bs rest :
  len bs < 2 ^ 31 ->
  from_istream (Istream (le_split 4 (len bs) ++ bs ++ rest) true)
  = (Ret (message_buffer.fresh bs (len bs)), Istream rest true).
Proof.
  intros H. pose proof (len_nonneg bs). unfold from_istream.
  rewrite (bind_ret_eq _ _ _ _ _ (istream_read_app (le_split 4 (len bs)) (bs ++ rest))).
  rewrite (bind_ret_eq check_stream _ (Istream (bs ++ rest) true) tt _ eq_refl).
  rewrite le_combine_split_small by (simpl; lia). cbv zeta.
  rewrite (bind_ret_eq _ _ _ _ _ (istream_read_app bs rest)).
  by rewrite (bind_ret_eq check_stream _ (Istream rest true) tt _ eq_refl).
Qed.

Lemma to_stream_spec w bs :
  appends w bs -> len bs < 2 ^ 31 - 4 -> to_stream w = Ret (le_split 4 (len bs) ++ bs).
Proof.
  intros Hw Hl. destruct (Hw message_builder.make) as (b & E & Hb & Hp & Hc).
  { apply wf_make. } { simpl. lia. }
  unfold to_stream. rewrite E. rewrite contents_make in Hc. simpl in Hc.
  destruct (framed_spec b Hb) as (_ & _ & _ & Hf).
  unfold message_builder.output, message_builder.output_using, mbind, M_bind, modify, gets.
  simpl. by rewrite Hf, Hc.
Qed.

Lemma from_stream_spec {A} (r : reader A) bs a :
  parses r bs a -> len bs < 2 ^ 31 -> from_stream r (le_split 4 (len bs) ++ bs) = (Ret a, 0).
Proof.
  intros Hr Hl. unfold from_stream. pose proof (from_istream_frame bs [] Hl) as E.
  rewrite app_nil_r in E. rewrite E.
  destruct (message_make_spec bs Hl) as (Hwf & Hrem & Hleft).
  rewrite (Hr _ [] Hwf); [|by rewrite app_nil_r].
  unfold left in *. simpl in *. f_equal. lia.
Qed.

Lemma safe_from_raw n : (n <= 8)%nat -> safe (from_raw n).
Proof.
  intros H. apply (safe_current_skip (Z.of_nat n) (fun ib => mret (le_combine ib))); [lia|].
  intros bs. apply safe_ret.
Qed.

Lemma safe_from_bool : safe from_bool.
Proof.
  intros m Hwf. destruct (Z.le_gt_cases 1 (left m)) as [Hle|Hgt].
  - unfold from_bool. rewrite (bind_ret_eq _ _ _ _ _ (current_take m 1 Hwf ltac:(lia))).
    assert (forall b : bool, fst ((message.skip 1 ;; mret b) m) <> Undef /\
      wf_message (snd ((message.skip 1 ;; mret b) m))) as Hk.
    { intros b. rewrite (bind_ret_eq _ _ _ _ _ (skip_spec m 1 Hwf ltac:(lia))).
      split; [done|]. by apply wf_advance; [|lia]. }
    destruct (le_combine _) as [|[]|]; first [apply (Hk false)|apply (Hk true)|done].
  - unfold from_bool. by rewrite (bind_throw_eq _ _ _ _ _ (current_short m 1 Hwf ltac:(lia))).
Qed.

Lemma from_raw_result_range n m v m' :
  (n <= 8)%nat -> wf_message m -> from_raw n m = (Ret v, m') -> 0 <= v < 2 ^ (8 * Z.of_nat n).
Proof.
  intros Hn Hwf. destruct (Z.le_gt_cases (Z.of_nat n) (left m)) as [Hle|Hgt]; unfold from_raw.
  - rewrite (bind_ret_eq _ _ _ _ _ (current_take m (Z.of_nat n) Hwf ltac:(lia))).
    rewrite (bind_ret_eq _ _ _ _ _ (skip_spec m (Z.of_nat n) Hwf ltac:(lia))).
    intros [= <- _].
    pose proof (LittleEndianList.le_combine_bound
      (take (Z.to_nat (Z.of_nat n)) (remaining m))) as [H1 H2].
    split; [done|]. eapply Z.lt_le_trans; [apply H2|].
    apply Z.pow_le_mono_r; [lia|]. rewrite length_take. lia.
  - by rewrite (bind_throw_eq _ _ _ _ _ (current_short m (Z.of_nat n) Hwf ltac:(lia))).
Qed.

(** A bind whose first reader is a load: the continuation may assume the range. *)
Lemma safe_bind_raw {B} n (k : Z -> reader B) :
  (n <= 8)%nat -> (forall v, 0 <= v < 2 ^ (8 * Z.of_nat n) -> safe (k v)) ->
  safe (from_raw n ≫= k).
Proof.
  intros Hn Hk m Hwf. destruct (safe_from_raw n Hn m Hwf) as [Hu Hw].
  pose proof (from_raw_result_range n m) as Hr.
  unfold mbind, M_bind. destruct (from_raw n m) as [[v| | |] m'] eqn:E; simpl in *; try done.
  apply Hk; [by eapply Hr|done].
Qed.

Lemma safe_from_string : safe from_string.
Proof.
  apply (safe_bind_raw 4); [lia|]. intros v Hv. apply safe_current_skip; [lia|].
  intros bs. apply safe_ret.
Qed.

Lemma safe_from_vector {A} (dflt : A) (r : reader A) : safe r -> safe (from_vector dflt r).
Proof.
  intros Hr. apply safe_noexcept, (safe_bind_raw 4); [lia|]. intros v _.
  apply safe_for_down. intros i ts. apply safe_bind; [done|]. intros t. apply safe_ret.
Qed.

Lemma safe_from_pair {X Y} (fx : reader X) (fy : reader Y) :
  safe fx -> safe fy -> safe (from_pair fx fy).
Proof.
  intros Hx Hy. apply safe_noexcept. repeat (apply safe_bind; [done|intros ?]). apply safe_ret.
Qed.

Lemma safe_from_optional {X} (fx : reader X) : safe fx -> safe (from_optional fx).
Proof.
  intros Hx. apply safe_noexcept, safe_bind; [apply safe_from_bool|]. intros [].
  - apply safe_bind; [done|]. intros ?. apply safe_ret.
  - apply safe_ret.
Qed.

Lemma built_spec w bs : appends w bs -> len bs < 2 ^ 31 - 4 -> built w = Ret bs.
Proof.
  intros Hw Hl. destruct (Hw message_builder.make wf_make) as (b & E & Hb & _ & Hc).
  { simpl. lia. }
  unfold built. rewrite E. rewrite contents_make, app_nil_l in Hc. by rewrite <- Hc.
Qed.

(** ** Properties *)

(** C33: what is written with a type's [to] into a fresh [message_builder] and
    output to a stream is read back by [message_buffer::from_istream] and the
    type's [from], to the last byte, for every type with a matching format. *)
Theorem llio_roundtrip {A} (to : A -> writer) (from : reader A) enc valid
    `{!Encodes to enc} `{!Decodes from enc valid} (a : A) :
  valid a -> len (enc a) < 2 ^ 31 - 4 ->
  exists frame, to_stream (to a) = Ret frame /\ from_stream from frame = (Ret a, 0).
Proof.
  intros Hv Hl. eexists. split.
  - apply to_stream_spec; [apply to_appends|done].
  - apply from_stream_spec; [by apply from_parses|lia].
Qed.

Lemma llio_roundtrip_witness :
  exists frame, to_stream (composition_to [Some (str "0123456789a", true)]) = Ret frame /\
    from_stream composition_from frame = (Ret [Some (str "0123456789a", true)], 0).
Proof.
  apply (llio_roundtrip composition_to composition_from
    (enc_vector (enc_optional (enc_pair enc_string enc_bool)))
    (valid_vector (valid_optional (valid_pair valid_any valid_any)))).
  - split; [repeat constructor|vm_compute; reflexivity].
  - vm_compute. reflexivity.
Defined.

(** [to_be] writes the most significant byte first and [from_be] reads that
    back: the masks and shifts are a byte swap, on every [uint64_t]. *)
Theorem be_roundtrip i :
  valid_int 64 i ->
  appends (to_be_u64 i) (rev (le_split 8 i)) /\ parses from_be_u64 (rev (le_split 8 i)) i.
Proof. intros H. split; [apply (to_be_u64_encodes i)|by apply (from_be_u64_decodes i)]. Qed.

Lemma be_roundtrip_witness :
  appends (to_be_u64 3820908392820902) (rev (le_split 8 3820908392820902)) /\
  parses from_be_u64 (rev (le_split 8 3820908392820902)) 3820908392820902.
Proof. apply (be_roundtrip 3820908392820902). split; vm_compute; congruence. Defined.

Lemma length_enc_varint_loop n j : len (enc_varint_loop n j) <= Z.of_nat n.
Proof.
  revert j. induction n as [|n IH]; intros j; [done|]. simpl.
  destruct (0x80 <=? j); rewrite len_cons; [specialize (IH (Z.shiftr j 7))|rewrite len_nil]; lia.
Qed.

(** The varint loops terminate within ten rounds on every [uint64_t]; what
    the writer's loop emits (at most ten bytes) the reader's loop turns back into
    the same value, without an undefined shift. *)
Theorem varint_roundtrip j :
  valid_int 64 j ->
  appends (to_varint j) (enc_varint j) /\ len (enc_varint j) <= 10 /\
  parses from_varint (enc_varint j) j.
Proof.
  intros H. split_and!; [by apply to_varint_appends|apply length_enc_varint_loop|].
  by apply from_parses.
Qed.

Lemma varint_roundtrip_witness :
  appends (to_varint (2 ^ 64 - 1)) (enc_varint (2 ^ 64 - 1)) /\
  len (enc_varint (2 ^ 64 - 1)) <= 10 /\
  parses from_varint (enc_varint (2 ^ 64 - 1)) (2 ^ 64 - 1).
Proof. apply (varint_roundtrip (2 ^ 64 - 1)). split; vm_compute; congruence. Defined.

(** [add_raw] keeps the builder's invariant (the cursor inside the block, the
    block no larger than its recorded size), grows the block when needed without
    losing a byte of the payload, and appends exactly its argument, as long as the
    message stays below 2 GiB. *)
Theorem add_raw_spec b bs :
  wf_builder b -> message_builder._pos b + len bs < 2 ^ 31 ->
  exists b', message_builder.add_raw bs b = (Ret tt, b') /\ wf_builder b' /\
    message_builder._size b <= message_builder._size b' /\
    contents b' = contents b ++ bs.
Proof.
  intros Hwf Hfit. pose proof Hwf as [Hp Hs _]. pose proof (len_nonneg bs).
  unfold message_builder.add_raw, mbind, M_bind, gets. simpl. rewrite u32_small by lia.
  destruct (Z.ltb_spec (message_builder._size b - message_builder._pos b) (len bs)).
  - destruct (grow_spec (len bs) b) as (b1 & -> & Hwf1 & Hs1 & Hp1 & <-); [done|lia|lia|].
    destruct (write_spec bs b1) as (b2 & -> & ? & ? & _ & ?); [done|lia|lia|].
    exists b2. split_and!; try done; lia.
  - unfold mret, M_ret.
    destruct (write_spec bs b) as (b2 & -> & ? & ? & _ & ?); [done|lia|lia|].
    exists b2. split_and!; try done; lia.
Qed.

Lemma add_raw_spec_witness :
  exists b', message_builder.add_raw (replicate 40 Byte.xff) message_builder.make = (Ret tt, b') /\
    wf_builder b' /\
    message_builder._size message_builder.make <= message_builder._size b' /\
    contents b' = contents message_builder.make ++ replicate 40 Byte.xff.
Proof. apply (add_raw_spec message_builder.make); [apply wf_make|vm_compute; reflexivity]. Defined.

(** At 2 GiB the growth rule [_size + std::max(len, _size)] wraps to zero in
    [uint32_t]: one more byte on a full block of 2^31 bytes copies the payload
    into an empty block. *)
Theorem add_raw_overflow x buf :
  len buf = 2 ^ 31 ->
  fst (message_builder.add_raw [x] (message_builder.Make (2 ^ 31) buf (2 ^ 31))) = Undef.
Proof. intros _. reflexivity. Qed.

Lemma add_raw_overflow_witness :
  len (replicate (Z.to_nat (2 ^ 31)) Byte.x00) = 2 ^ 31 /\
  fst (message_builder.add_raw [Byte.x2a]
    (message_builder.Make (2 ^ 31) (replicate (Z.to_nat (2 ^ 31)) Byte.x00) (2 ^ 31))) = Undef.
Proof.
  assert (len (replicate (Z.to_nat (2 ^ 31)) Byte.x00) = 2 ^ 31) as H.
  { unfold len. rewrite length_replicate. apply Z2Nat.id. lia. }
  split; [exact H|]. apply (add_raw_overflow Byte.x2a _ H).
Defined.



(** A message that ends inside the first element of a vector does not raise a
    [deserialisation_exception] to the caller: [from(vector)] is [noexcept], so
    the process terminates. *)
Theorem truncated_vector_terminates n bs m :
  wf_message m -> 0 < n <= 2 ^ 31 -> len bs < 4 -> remaining m = le_split 4 n ++ bs ->
  fst (from_vector [] from_string m) = Abort.
Proof.
  intros Hwf Hn Hb E. pose proof (remaining_split _ _ _ Hwf E) as Hle.
  pose proof (length_remaining m Hwf) as Hl. rewrite len_le_split in *.
  rewrite E, len_app, len_le_split in Hl.
  unfold from_vector, noexcept.
  assert (from_u32 m = (Ret n, advance 4 m)) as E32
    by (eapply (from_raw_parses 4); [simpl; lia|done|done]).
  rewrite (bind_ret_eq _ _ _ _ _ E32).
  assert (down_from n = S (Z.to_nat (n - 1))) as ->
    by (unfold down_from; rewrite s32_small; lia).
  simpl for_down.
  assert (wf_message (advance 4 m)) as Hwf' by (apply wf_advance; [done|lia]).
  assert (left (advance 4 m) < 4) as Hl' by (unfold left, advance in *; simpl; lia).
  assert (from_string (advance 4 m) =
    (throw_deser (str "message.current(): reading outside of message"), advance 4 m)) as Es.
  { unfold from_string, from_u32, from_raw.
    by rewrite !(bind_throw_eq _ _ _ _ _ (bind_throw_eq _ _ _ _ _
         (current_short _ (Z.of_nat 4) Hwf' ltac:(lia)))). }
  rewrite (bind_throw_eq _ _ _ _ _ (bind_throw_eq _ _ _ _ _ Es)).
  done.
Qed.

Lemma truncated_vector_terminates_witness :
  fst (from_vector [] from_string (message.make
    (message_buffer.fresh (le_split 4 3 ++ [Byte.x01]) 5))) = Abort.
Proof.
  destruct (message_make_spec (le_split 4 3 ++ [Byte.x01]) ltac:(vm_compute; reflexivity))
    as (Hwf & Hrem & _).
  apply (truncated_vector_terminates 3 [Byte.x01] _ Hwf); [lia|vm_compute; reflexivity|exact Hrem].
Defined.
