(* ===== verification/Stuff.v ===== *)
(** * Dumping bytes and containers: [stuff.h] and [stuff.cc]

    Writing to an [std::ostream] is modelled by the bytes written: the printers
    of this file, and the [operator<<] overloads of the other components, return
    them.  [get_file_size], [shell] and
    [timestamp_millis] are in [OsCalls]. *)

From stdpp Require Import pretty.
From S2P Require Import Prelude.

Local Open Scope Z_scope.
Local Open Scope alba_scope.

(** How a value prints. *)
Abbreviation printer A := (A -> bytes).

(** The standard library's formatting of an integer in base ten. *)
Definition dec (z : Z) : bytes := str (pretty z).
Definition endl : bytes := [byte.of_Z 10].

(** [char hexlify(unsigned char c)]: arithmetic in [int], stored into a [char]. *)
Definition hexlify (c : Z) : byte :=
  if c <? 10 then byte.of_Z (c + 48) else byte.of_Z (c + 87).

Definition dump_hex : printer Z := fun c =>
  let c := u8 c in
  [hexlify (Z.shiftr c 4); hexlify (Z.land c 0x0f)].

(** The standard library's lower-case hexadecimal digits. *)
Definition hex_digits : bytes := str "0123456789abcdef".
Definition std_hex (w : Z) : bytes :=
  if w <? 16 then [nth (Z.to_nat w) hex_digits Byte.x00]
  else [nth (Z.to_nat (w / 16)) hex_digits Byte.x00; nth (Z.to_nat (w mod 16)) hex_digits Byte.x00].
(** [std::setw(2) << std::setfill('0')]. *)
Definition setw2 (b : bytes) : bytes := replicate (2 - length b) (byte.of_Z 48) ++ b.

Definition dump_buffer : printer bytes := fun row =>
  concat ((fun c => setw2 (std_hex (byte.unsigned c)) ++ str " ") <$> row).

(** [dump_data(os, rows, k, block_size)] for the [k] rows given. *)
Definition dump_data : printer (list bytes) := fun rows =>
  concat ((fun row => dump_buffer row ++ endl) <$> rows).

Definition print_shared_ptr {X} (px : printer X) : printer X := fun x =>
  str "&(" ++ px x ++ str ")".
Definition print_unique_ptr {X} (px : printer X) : printer X := fun x =>
  str "!(" ++ px x ++ str ")".
Definition print_pair {X Y} (px : printer X) (py : printer Y) : printer (X * Y) := fun p =>
  str "(" ++ px p.1 ++ str ", " ++ py p.2 ++ str ")".
Definition print_tuple3 {X Y Z} (px : printer X) (py : printer Y) (pz : printer Z) :
    printer (X * Y * Z) := fun t =>
  str "(" ++ px t.1.1 ++ str ", " ++ py t.1.2 ++ str ", " ++ pz t.2 ++ str ")".

(** The loop of [operator<<(vector)]: a separator before every element but the first. *)
Fixpoint print_elements {T} (pt : printer T) (first : bool) (ts : list T) : bytes :=
  match ts with
  | [] => []
  | t :: ts => (if first then [] else str ", ") ++ pt t ++ print_elements pt false ts
  end.
Definition print_vector {T} (pt : printer T) : printer (list T) := fun ts =>
  str "{" ++ print_elements pt true ts ++ str "}".
Definition print_optional {T} (pt : printer T) : printer (option T) := fun ot =>
  match ot with
  | None => str "None"
  | Some t => str "(Some " ++ pt t ++ str ")"
  end.

(** ** Properties *)

(** The two ways the library has of printing a byte agree: [hexlify]'s
    arithmetic yields the digits of the standard library's [std::hex]. *)
Lemma dump_hex_std b : dump_hex (byte.unsigned b) = setw2 (std_hex (byte.unsigned b)).
Proof. by destruct b. Qed.

Lemma dump_buffer_hex row :
  dump_buffer row = concat ((fun b => dump_hex (byte.unsigned b) ++ str " ") <$> row).
Proof.
  unfold dump_buffer. f_equal. apply list_fmap_ext. intros i b _. by rewrite dump_hex_std.
Qed.

Lemma dump_hex_inj b1 b2 :
  dump_hex (byte.unsigned b1) = dump_hex (byte.unsigned b2) -> b1 = b2.
Proof.
  assert (forall b, Z.land (byte.unsigned b) 0x0f = byte.unsigned b mod 16) as Hlo
    by by intros []. 
  assert (forall x y, 0 <= x < 16 -> 0 <= y < 16 -> hexlify x = hexlify y -> x = y) as Hinj.
  { intros x y Hx Hy. unfold hexlify.
    destruct (Z.ltb_spec x 10), (Z.ltb_spec y 10); intros E%(f_equal byte.unsigned);
      rewrite !byte.unsigned_of_Z in E; unfold byte.wrap in E;
      rewrite !Z.mod_small in E by lia; lia. }
  unfold dump_hex. pose proof (byte.unsigned_range b1). pose proof (byte.unsigned_range b2).
  intros [= E1 E2]. unfold u8 in *.
  rewrite !Z.mod_small in E1, E2 by lia. rewrite !Z.shiftr_div_pow2 in E1 by lia.
  rewrite !Hlo in E2. apply byte.unsigned_inj.
  apply Hinj in E2; [|apply Z.mod_pos_bound; lia..].
  apply Hinj in E1.
  2,3: split; [apply Z.div_pos; lia|apply Z.div_lt_upper_bound; lia].
  rewrite (Z.div_mod (byte.unsigned b1) 16), (Z.div_mod (byte.unsigned b2) 16) by lia.
  change (2 ^ 4) with 16 in E1. congruence.
Qed.
