(* ===== verification/Logger.v ===== *)
(** * Logging: [alba_logger.h] and [alba_logger.cc]

    The levels, the global hook that chooses the logger of a level, and the macro
    [ALBA_LOG].  What a logger does is the parameter [E], the state it changes. *)

From S2P Require Import Prelude Stuff.

Local Open Scope alba_scope.

Inductive AlbaLogLevel := DEBUG | INFO | ERROR | WARNING.

Definition print_AlbaLogLevel : printer AlbaLogLevel := fun level =>
  match level with
  | DEBUG => str "DEBUG"
  | INFO => str "INFO"
  | ERROR => str "ERROR"
  | WARNING => str "WARNING"
  end.

Section logger.
Context {E : Type}.

(** [std::function<void(AlbaLogLevel, std::string &)>], and a pointer to one. *)
Definition log_function : Type := AlbaLogLevel -> bytes -> E -> E.
Definition chooser : Type := AlbaLogLevel -> option log_function.

(** The global variable [logFunc_] (empty at the start) and the loggers' state. *)
Record log_state := Make_log_state { logFunc_ : option chooser; sink : E }.

Definition setLogFunction (logFunc : option chooser) : M log_state unit :=
  modify (fun s => Make_log_state logFunc (sink s)).

(** Calling an empty [std::function] throws [std::bad_function_call]. *)
Definition getLogger (level : AlbaLogLevel) : M log_state (option log_function) :=
  f ← gets logFunc_;
  match f with
  | Some f => mret (f level)
  | None => mthrow (ExnSystem (str "bad_function_call"))
  end.

Definition ALBA_LOG (level : AlbaLogLevel) (message : bytes) : M log_state unit :=
  logger ← getLogger level;
  match logger with
  | Some logger => modify (fun s => Make_log_state (logFunc_ s) (logger level message (sink s)))
  | None => mret tt
  end.

(** ** Properties *)

Lemma log_before_set level message e :
  ALBA_LOG level message (Make_log_state None e)
  = (Throw (ExnSystem (str "bad_function_call")), Make_log_state None e).
Proof. done. Qed.

Lemma log_after_set f level message s :
  (setLogFunction (Some f) ;; ALBA_LOG level message) s
  = (Ret tt, Make_log_state (Some f)
       (match f level with Some l => l level message (sink s) | None => sink s end)).
Proof. unfold ALBA_LOG, getLogger, mbind, M_bind. simpl. by destruct (f level). Qed.
End logger.

Lemma level_names_differ l1 l2 : print_AlbaLogLevel l1 = print_AlbaLogLevel l2 -> l1 = l2.
Proof. by destruct l1, l2. Qed.
