(* ===== verification/Doubles.v ===== *)
(** * The C++ type [double]

    Binary64 arithmetic through the standard library's [spec_float], rounded to
    nearest even, with the conversions from [int] and the formatting of
    [operator<<] (six significant digits).  The theory shows that integers below
    [2^53] are represented exactly: adding and comparing them as doubles is adding
    and comparing them as integers. *)

From Stdlib Require Import Floats.SpecFloat.
From S2P Require Import Prelude Stuff.

Local Open Scope Z_scope.
Local Open Scope alba_scope.

Abbreviation double := spec_float.

Definition dadd : double -> double -> double := SFadd 53 1024.
Definition dmul : double -> double -> double := SFmul 53 1024.
Definition ddiv : double -> double -> double := SFdiv 53 1024.
Definition dlt : double -> double -> bool := SFltb.
(** The conversion of an integer to [double]. *)
Definition of_int (z : Z) : double := binary_normalize 53 1024 z 0 false.
(** A decimal literal [n / d]: the double nearest to it. *)
Definition literal (n d : Z) : double := ddiv (of_int n) (of_int d).

(** ** [operator<<] with the default precision *)

(** The exponent [x] with [10^x <= n/d < 10^(x+1)], searched upwards from [x]. *)
Fixpoint decimal_exponent (fuel : nat) (n d x : Z) : Z :=
  match fuel with
  | O => x
  | S fuel =>
      let above := if 0 <=? x + 1 then n <? d * 10 ^ (x + 1) else n * 10 ^ (- (x + 1)) <? d in
      if above then x else decimal_exponent fuel n d (x + 1)
  end.

(** [n / d] rounded to the nearest integer, ties to even. *)
Definition round_div (n d : Z) : Z :=
  let q := n / d in
  match Z.compare (2 * (n mod d)) d with
  | Lt => q
  | Gt => q + 1
  | Eq => if Z.even q then q else q + 1
  end.

Definition zero_digit : byte := byte.of_Z 48.
Fixpoint strip_zeros (ds : bytes) : bytes :=
  match ds with
  | [] => []
  | d :: ds =>
      match strip_zeros ds with
      | [] => if bool_decide (d = zero_digit) then [] else [d]
      | ds => d :: ds
      end
  end.
Definition with_fraction (whole frac : bytes) : bytes :=
  match strip_zeros frac with [] => whole | frac => whole ++ str "." ++ frac end.
Definition show_exponent (x : Z) : bytes :=
  str "e" ++ (if x <? 0 then str "-" else str "+") ++
  (if Z.abs x <? 10 then str "0" else []) ++ dec (Z.abs x).

Definition show_positive (n d : Z) : bytes :=
  let x := decimal_exponent 700 n d (-330) in
  let m := if 5 <=? x then round_div n (d * 10 ^ (x - 5)) else round_div (n * 10 ^ (5 - x)) d in
  let '(m, x) := if m =? 10 ^ 6 then (10 ^ 5, x + 1) else (m, x) in
  let digits := dec m in
  if (x <? -4) || (6 <=? x) then with_fraction (take 1 digits) (drop 1 digits) ++ show_exponent x
  else if 0 <=? x then with_fraction (take (Z.to_nat (x + 1)) digits) (drop (Z.to_nat (x + 1)) digits)
  else with_fraction (str "0") (replicate (Z.to_nat (- x - 1)) zero_digit ++ digits).

Definition print_double : printer double := fun f =>
  match f with
  | S754_zero s => (if s then str "-" else []) ++ str "0"
  | S754_infinity s => (if s then str "-" else []) ++ str "inf"
  | S754_nan => str "nan"
  | S754_finite s m e =>
      (if s then str "-" else []) ++
      (if 0 <=? e then show_positive (Zpos m * 2 ^ e) 1 else show_positive (Zpos m) (2 ^ (- e)))
  end.

(** ** Integers are exact *)

(** [p * 2^k]. *)
Definition shl (p : positive) (k : nat) : positive := Nat.iter k xO p.

Lemma iter_xO p q : Pos.iter xO p q = shl p (Pos.to_nat q).
Proof. unfold shl. by rewrite Pos2Nat.inj_iter. Qed.
Lemma Zpos_shl p k : Zpos (shl p k) = Zpos p * 2 ^ Z.of_nat k.
Proof.
  induction k as [|k IH]; [by rewrite Z.mul_1_r|].
  rewrite Nat2Z.inj_succ, Z.pow_succ_r by lia. change (shl p (S k)) with (xO (shl p k)). lia.
Qed.
Lemma shl_shl p k l : shl (shl p k) l = shl p (k + l).
Proof. apply (inj Zpos). rewrite !Zpos_shl, Nat2Z.inj_add, Z.pow_add_r by lia. lia. Qed.
Lemma shl_add p q k : (shl p k + shl q k)%positive = shl (p + q) k.
Proof. apply (inj Zpos). rewrite Pos2Z.inj_add, !Zpos_shl, Pos2Z.inj_add. lia. Qed.

Definition digits (p : positive) : Z := Zpos (digits2_pos p).

Lemma digits_shl p k : digits (shl p k) = digits p + Z.of_nat k.
Proof.
  induction k as [|k IH]; [by rewrite Z.add_0_r|]. unfold digits in *.
  change (shl p (S k)) with (xO (shl p k)). cbn [digits2_pos]. lia.
Qed.
Lemma digits_bounds p : 2 ^ (digits p - 1) <= Zpos p < 2 ^ digits p.
Proof.
  unfold digits. induction p as [p IH|p IH|]; cbn [digits2_pos]; [| |by vm_compute];
    rewrite Pos2Z.inj_succ; replace (Z.succ (Zpos (digits2_pos p)) - 1)
      with (Z.succ (Zpos (digits2_pos p) - 1)) by lia;
    rewrite !Z.pow_succ_r by lia; lia.
Qed.
Lemma digits_le p n : 0 <= n -> Zpos p < 2 ^ n -> digits p <= n.
Proof.
  intros Hn Hp. pose proof (digits_bounds p) as [Hl _].
  apply Z.nlt_ge. intros Hlt. assert (2 ^ n <= 2 ^ (digits p - 1)) by (apply Z.pow_le_mono_r; lia). lia.
Qed.
Lemma digits_pos p : 0 < digits p.
Proof. done. Qed.

Abbreviation fexp64 := (fexp 53 1024).
Lemma fexp_small e : 1 <= e -> fexp64 e = e - 53.
Proof. intros He. unfold fexp, emin. lia. Qed.

Lemma shl_align_spec m e e' :
  shl_align m e e' = if e' <? e then (shl m (Z.to_nat (e - e')), e') else (m, e).
Proof.
  unfold shl_align. destruct (Z.ltb_spec e' e) as [Hlt|Hge].
  - destruct (e' - e) as [|p|p] eqn:E; [lia..|]. rewrite iter_xO. do 2 f_equal. lia.
  - destruct (e' - e) as [|p|p] eqn:E; [done..|lia].
Qed.

(** Shifting right what was shifted left loses nothing. *)
Lemma shr_shl p k n e : (n <= k)%nat ->
  shr {| shr_m := Zpos (shl p k); shr_r := false; shr_s := false |} e (Z.of_nat n)
  = ({| shr_m := Zpos (shl p (k - n)); shr_r := false; shr_s := false |}, e + Z.of_nat n).
Proof.
  intros Hn. unfold shr. destruct (Z.of_nat n) as [|q|q] eqn:E; [|f_equal|lia].
  { assert (n = 0%nat) as -> by lia. by rewrite Nat.sub_0_r, Z.add_0_r. }
  assert (forall A (f : A -> A) q x, SpecFloat.iter_pos f q x = Nat.iter (Pos.to_nat q) f x) as Hit.
  { intros A f r. induction r as [r IH|r IH|]; intros x; cbn [SpecFloat.iter_pos]; [| |done].
    - rewrite !IH, <- Nat.iter_add, <- Nat.iter_succ_r. f_equal. lia.
    - rewrite !IH, <- Nat.iter_add. f_equal. lia. }
  rewrite Hit. replace (Pos.to_nat q) with n by lia. clear E q Hit.
  revert k Hn. induction n as [|n IH]; intros k Hn; [by rewrite Nat.sub_0_r|].
  destruct k as [|k]; [lia|]. rewrite Nat.iter_succ_r. apply IH. lia.
Qed.

Lemma shr_fexp_spec p k e : (0 <= digits (shl p k) + e - 53 - e <= Z.of_nat k) ->
  1 <= digits (shl p k) + e ->
  let n := Z.to_nat (digits (shl p k) - 53) in
  shr_fexp 53 1024 (Zpos (shl p k)) e loc_Exact
  = ({| shr_m := Zpos (shl p (k - n)); shr_r := false; shr_s := false |}, e + Z.of_nat n).
Proof.
  intros Hk He n. unfold shr_fexp. change (Zdigits2 (Zpos (shl p k))) with (digits (shl p k)).
  rewrite fexp_small by done. replace (digits (shl p k) + e - 53 - e) with (Z.of_nat n) by lia.
  apply shr_shl. lia.
Qed.

(** The normal form of an integer of at most 53 digits. *)
Definition exact (s : bool) (p : positive) : double :=
  S754_finite s (shl p (Z.to_nat (53 - digits p))) (digits p - 53).

Lemma binary_round_exact s p k : digits p <= 53 -> (k <= 52)%nat ->
  binary_round 53 1024 s (shl p k) (- Z.of_nat k) = exact s p.
Proof.
  intros Hd Hk. pose proof (digits_pos p) as Hp. unfold binary_round.
  change (Zpos (digits2_pos (shl p k))) with (digits (shl p k)).
  rewrite digits_shl, fexp_small by lia.
  replace (digits p + Z.of_nat k + - Z.of_nat k - 53) with (digits p - 53) by lia.
  rewrite shl_align_spec.
  set (j := Z.to_nat (Z.max (53 - digits p) (Z.of_nat k))).
  assert ((if digits p - 53 <? - Z.of_nat k
           then (shl (shl p k) (Z.to_nat (- Z.of_nat k - (digits p - 53))), digits p - 53)
           else (shl p k, - Z.of_nat k)) = (shl p j, - Z.of_nat j)) as ->.
  { destruct (Z.ltb_spec (digits p - 53) (- Z.of_nat k)).
    - rewrite shl_shl. f_equal; [f_equal|]; lia.
    - f_equal; [f_equal|]; lia. }
  unfold binary_round_aux. rewrite shr_fexp_spec by (rewrite digits_shl; lia). cbn [shr_m].
  rewrite digits_shl. replace (j - Z.to_nat (digits p + Z.of_nat j - 53))%nat
    with (Z.to_nat (53 - digits p)) by lia.
  change (round_nearest_even _ _) with (Zpos (shl p (Z.to_nat (53 - digits p)))).
  rewrite shr_fexp_spec by (rewrite digits_shl; lia). cbn [shr_m]. rewrite digits_shl.
  destruct (Z.leb_spec (- Z.of_nat j + Z.of_nat (Z.to_nat (digits p + Z.of_nat j - 53))
     + Z.of_nat (Z.to_nat (digits p + Z.of_nat (Z.to_nat (53 - digits p)) - 53))) (1024 - 53)); [|lia].
  unfold exact. f_equal; [f_equal|]; lia.
Qed.

Lemma of_int_pos p : Zpos p < 2 ^ 53 -> of_int (Zpos p) = exact false p.
Proof. intros Hp. apply (binary_round_exact false p 0); [by apply digits_le|lia]. Qed.
Lemma of_int_neg p : Zpos p < 2 ^ 53 -> of_int (Zneg p) = exact true p.
Proof. intros Hp. apply (binary_round_exact true p 0); [by apply digits_le|lia]. Qed.

Lemma shl_align_exact p e : digits p <= 53 -> e <= digits p - 53 ->
  fst (shl_align (shl p (Z.to_nat (53 - digits p))) (digits p - 53) e) = shl p (Z.to_nat (- e)).
Proof.
  intros Hd He. rewrite shl_align_spec.
  destruct (Z.ltb_spec e (digits p - 53)); cbn [fst]; rewrite ?shl_shl; f_equal; lia.
Qed.

(** Adding integers whose sum is below [2^53] is exact. *)
Lemma dadd_int a b : 0 <= a -> 0 <= b -> a + b < 2 ^ 53 ->
  dadd (of_int a) (of_int b) = of_int (a + b).
Proof.
  intros Ha Hb Hab. destruct a as [|p|p]; [|destruct b as [|q|q]|]; [| | |lia..].
  - destruct b as [|q|q]; [done| |lia]. rewrite Z.add_0_l, of_int_pos by lia. done.
  - rewrite Z.add_0_r, of_int_pos by lia. done.
  - rewrite !of_int_pos by lia. unfold exact, dadd. cbn [SFadd].
    assert (digits p <= 53) by (apply digits_le; lia).
    assert (digits q <= 53) by (apply digits_le; lia).
    pose proof (digits_pos p). pose proof (digits_pos q).
    rewrite !shl_align_exact by lia. cbn [cond_Zopp]. rewrite <- Pos2Z.inj_add, shl_add.
    set (k := Z.to_nat (- Z.min (digits p - 53) (digits q - 53))).
    replace (Z.min (digits p - 53) (digits q - 53)) with (- Z.of_nat k) by lia.
    cbn [binary_normalize]. change (Zpos p + Zpos q) with (Zpos (p + q)) in *.
    rewrite binary_round_exact; [|apply digits_le; lia|lia]. symmetry. by apply of_int_pos.
Qed.

(** The order on the normal forms is the order of the integers. *)
Lemma exact_compare p q : digits p <= 53 -> digits q <= 53 ->
  match Z.compare (digits p - 53) (digits q - 53) with
  | Lt => Lt
  | Gt => Gt
  | Eq => Pos.compare_cont Eq (shl p (Z.to_nat (53 - digits p))) (shl q (Z.to_nat (53 - digits q)))
  end = Z.compare (Zpos p) (Zpos q).
Proof.
  intros Hp Hq. pose proof (digits_bounds p) as [Hpl Hpu]. pose proof (digits_bounds q) as [Hql Hqu].
  pose proof (digits_pos p). pose proof (digits_pos q).
  destruct (Z.compare_spec (digits p - 53) (digits q - 53)) as [Heq|Hlt|Hgt].
  - replace (digits q) with (digits p) by lia.
    change (Z.compare (Zpos (shl p (Z.to_nat (53 - digits p))))
              (Zpos (shl q (Z.to_nat (53 - digits p)))) = Z.compare (Zpos p) (Zpos q)).
    rewrite !Zpos_shl. symmetry. apply Zmult_compare_compat_r. lia.
  - symmetry. apply Z.compare_lt_iff. apply Z.lt_le_trans with (2 ^ digits p); [done|].
    etransitivity; [|exact Hql]. apply Z.pow_le_mono_r; lia.
  - symmetry. apply Z.compare_gt_iff. apply Z.lt_le_trans with (2 ^ digits q); [done|].
    etransitivity; [|exact Hpl]. apply Z.pow_le_mono_r; lia.
Qed.

(** Comparing integers below [2^53] is exact. *)
Lemma dlt_int a b : Z.abs a < 2 ^ 53 -> Z.abs b < 2 ^ 53 -> dlt (of_int a) (of_int b) = (a <? b).
Proof.
  intros Ha Hb. unfold dlt, SFltb, Z.ltb.
  assert (SFcompare (of_int a) (of_int b) = Some (Z.compare a b)) as ->; [|done].
  destruct a as [|p|p], b as [|q|q];
    rewrite ?of_int_pos, ?of_int_neg by lia; try done; unfold exact; cbn [SFcompare]; f_equal.
  - apply exact_compare; apply digits_le; lia.
  - assert (digits p <= 53) by (apply digits_le; lia).
    assert (digits q <= 53) by (apply digits_le; lia).
    change (Z.compare (Zneg p) (Zneg q)) with (CompOpp (Z.compare (Zpos p) (Zpos q))).
    rewrite <- exact_compare by done. by destruct (Z.compare (digits p - 53) (digits q - 53)).
Qed.

(** The double with a given 64-bit pattern. *)
Definition double_of_bits (b : Z) : double :=
  let s := Z.testbit b 63 in
  let e := Z.land (Z.shiftr b 52) 0x7ff in
  let m := Z.land b (2 ^ 52 - 1) in
  if e =? 0x7ff then if m =? 0 then S754_infinity s else S754_nan
  else if e =? 0 then match m with Zpos p => S754_finite s p (-1074) | _ => S754_zero s end
  else match 2 ^ 52 + m with Zpos p => S754_finite s p (e - 1075) | _ => S754_nan end.

Example double_of_bits_1 : double_of_bits 0x3ff0000000000000 = of_int 1.
Proof. reflexivity. Qed.
