(* ===== verification/OsCalls.v ===== *)
(** * Sizes of files, the clock and shell commands: [stuff.cc]

    [get_file_size], [timestamp_millis] and [shell].  The system calls are a parameter,
    the class [Os]; the standard library's stream on the pipe is [FILE].  The loop of
    [shell] takes [fuel], the number of its tests of [feof]; [None] means that it is
    still running.  [shell_spec] gives fuel that is enough when the stream comes to its
    end, and [shell_read_error] shows that none is when reading fails. *)

From S2P Require Import Prelude Doubles.

Local Open Scope Z_scope.
Local Open Scope alba_scope.

(** ** The code *)

(** What a stream open for reading will still give, whether a read error or the end of
    the data comes after that, and its end-of-file indicator. *)
Record FILE := Make_FILE { pending : bytes; breaks : bool; eof : bool }.

Class Os (W : Type) := {
  (** The result and [st_size]. *)
  stat : bytes -> W -> (Z * Z) * W;
  (** Seconds and microseconds. *)
  gettimeofday : W -> (Z * Z) * W;
  (** [None] is the null pointer. *)
  popen : bytes -> W -> option FILE * W;
  pclose : FILE -> W -> W }.

Definition newline : byte := byte.of_Z 10.
(** [s.c_str()] as a function of the C library takes it: up to the first NUL. *)
Fixpoint c_str (s : bytes) : bytes :=
  match s with
  | [] => []
  | b :: s => if bool_decide (b = Byte.x00) then [] else b :: c_str s
  end.

Definition feof : FILE -> bool := eof.

(** At most [n] bytes, up to and with a newline; whether the data ran out before that. *)
Fixpoint take_line (n : nat) (data : bytes) : bytes * bytes * bool :=
  match n, data with
  | O, _ => ([], data, false)
  | S n, [] => ([], [], true)
  | S n, b :: data =>
      if bool_decide (b = newline) then ([b], data, false)
      else let '(line, rest, out) := take_line n data in (b :: line, rest, out)
  end.
(** [fgets(buffer, size, f)]: the bytes it puts in front of the terminating NUL, or the
    null pointer, on an error or when the end comes before any byte. *)
Definition fgets (size : nat) (f : FILE) : option bytes * FILE :=
  let '(line, rest, out) := take_line (size - 1) (pending f) in
  let f' := Make_FILE rest (breaks f) (eof f || out && negb (breaks f)) in
  (if out && (breaks f || bool_decide (line = [])) then None else Some line, f').

Section os.
Context `{Os W}.

Definition os {A} (f : W -> A * W) : M W A := fun w => let '(a, w) := f w in (Ret a, w).

Definition get_file_size (file_name : bytes) : M W Z :=
  r ← os (stat (c_str file_name));
  if negb (r.1 =? 0) then mthrow (ExnSystem (str "std::exception")) else mret (u64 r.2).

(** [tp.tv_sec + (double)tp.tv_usec / 1e6]. *)
Definition timestamp_millis : M W double :=
  tp ← os gettimeofday;
  mret (dadd (of_int tp.1) (ddiv (of_int tp.2) (of_int (10 ^ 6)))).

(** [result += buffer.data()] stops at the first NUL of the buffer. *)
Fixpoint shell_loop (fuel : nat) (pipe : FILE) (result : bytes) : option (bytes * FILE) :=
  match fuel with
  | O => None
  | S fuel =>
      if feof pipe then Some (result, pipe)
      else
        let '(line, pipe) := fgets 128 pipe in
        shell_loop fuel pipe (result ++ match line with Some line => c_str line | None => [] end)
  end.

(** The deleter of [pipe] is [pclose], which is not defined on the null pointer: the
    exception leaves the scope of [pipe]. *)
Definition shell (fuel : nat) (cmd : bytes) : M W (option bytes) :=
  pipe ← os (popen (c_str cmd));
  match pipe with
  | None => mout Undef
  | Some pipe =>
      match shell_loop fuel pipe [] with
      | None => mret None
      | Some (result, pipe) => os (fun w => (tt, pclose pipe w)) ;; mret (Some result)
      end
  end.
End os.

(** ** Facts *)

Definition no_nul (s : bytes) : Prop := Forall (fun b => b <> Byte.x00) s.

Lemma c_str_no_nul s : no_nul s -> c_str s = s.
Proof. induction 1 as [|b s Hb _ IH]; [done|]. simpl. by rewrite bool_decide_false, IH. Qed.

Lemma take_line_app n data line rest out :
  take_line n data = (line, rest, out) -> data = line ++ rest /\ (out = true -> rest = []) /\
    (n <> O -> out = false -> line <> []).
Proof.
  revert data line rest out. induction n as [|n IH]; intros [|b data] line rest out; simpl;
    try (intros [= <- <- <-]; done).
  case_bool_decide.
  - intros [= <- <- <-]. done.
  - destruct (take_line n data) as [[line' rest'] out'] eqn:E. intros [= <- <- <-].
    destruct (IH _ _ _ _ E) as (-> & Hout & _). by repeat split.
Qed.

(** What [fgets] does on a stream that is not at its end. *)
Lemma fgets_cases size data fails :
  (1 < size)%nat ->
  exists line rest, data = line ++ rest /\
    ((line <> [] /\ fgets size (Make_FILE data fails false) = (Some line, Make_FILE rest fails false)) \/
     (rest = [] /\ fails = false /\
      fgets size (Make_FILE data fails false) = (if decide (line = []) then None else Some line, Make_FILE [] false true)) \/
     (rest = [] /\ fails = true /\ fgets size (Make_FILE data fails false) = (None, Make_FILE [] true false))).
Proof.
  intros Hs. unfold fgets. cbn [pending breaks eof].
  destruct (take_line (size - 1) data) as [[line rest] out] eqn:E.
  destruct (take_line_app _ _ _ _ _ E) as (-> & Hout & Hline). exists line, rest. split; [done|].
  destruct out; simpl.
  - rewrite (Hout eq_refl). right. destruct fails; simpl; [by right|left].
    repeat split. by case_bool_decide; case_decide.
  - left. split; [apply Hline; [lia|done]|done].
Qed.

Section facts.
Context `{Os W}.

(** Every turn of the loop takes bytes from the stream or finds its end. *)
Lemma shell_loop_spec fuel data acc : no_nul data -> (length data + 2 <= fuel)%nat ->
  shell_loop fuel (Make_FILE data false false) acc = Some (acc ++ data, Make_FILE [] false true).
Proof.
  revert data acc. induction fuel as [|fuel IH]; intros data acc Hn Hf; [lia|]. cbn [shell_loop feof eof].
  destruct (fgets_cases 128 data false ltac:(lia)) as (line & rest & -> & [[Hl ->]|[(-> & _ & ->)|(_ & [=] & _)]]).
  - apply Forall_app in Hn as [Hl' Hr]. rewrite length_app in Hf.
    assert (length line <> 0%nat) by (by destruct line).
    rewrite c_str_no_nul, IH by (done || lia). by rewrite <- app_assoc.
  - rewrite app_nil_r in *. destruct fuel as [|fuel]; [lia|].
    case_decide as Hl; [subst line|]; cbn; [done|by rewrite c_str_no_nul].
Qed.

Lemma shell_loop_read_error fuel data acc : shell_loop fuel (Make_FILE data true false) acc = None.
Proof.
  revert data acc. induction fuel as [|fuel IH]; intros data acc; [done|]. cbn [shell_loop feof eof].
  destruct (fgets_cases 128 data true ltac:(lia)) as (line & rest & -> & [[_ ->]|[(_ & [=] & _)|(-> & _ & ->)]]);
    apply IH.
Qed.

(** The output of a command that ends and writes no NUL is returned whole, and the pipe
    is closed. *)
Lemma shell_spec fuel cmd w out w' :
  popen (c_str cmd) w = (Some (Make_FILE out false false), w') -> no_nul out -> (length out + 2 <= fuel)%nat ->
  shell fuel cmd w = (Ret (Some out), pclose (Make_FILE [] false true) w').
Proof.
  intros Hp Hn Hf. unfold shell. rewrite (bind_ret_eq _ _ _ (Some (Make_FILE out false false)) w') by (unfold os; by rewrite Hp).
  by rewrite shell_loop_spec.
Qed.

(** After a read error [feof] stays false: the loop does not end. *)
Lemma shell_read_error fuel cmd w data w' :
  popen (c_str cmd) w = (Some (Make_FILE data true false), w') -> shell fuel cmd w = (Ret None, w').
Proof.
  intros Hp. unfold shell. rewrite (bind_ret_eq _ _ _ (Some (Make_FILE data true false)) w') by (unfold os; by rewrite Hp).
  by rewrite shell_loop_read_error.
Qed.

(** Without a pipe the exception does not leave the function. *)
Lemma shell_no_pipe fuel cmd w w' : popen (c_str cmd) w = (None, w') -> shell fuel cmd w = (Undef, w').
Proof. intros Hp. unfold shell, mbind, M_bind, os. by rewrite Hp. Qed.

Lemma get_file_size_spec name w rc size w' :
  stat (c_str name) w = ((rc, size), w') -> 0 <= size < 2 ^ 63 ->
  get_file_size name w = (if rc =? 0 then Ret size else Throw (ExnSystem (str "std::exception")), w').
Proof.
  intros Hs Hsize. unfold get_file_size. rewrite (bind_ret_eq _ _ _ (rc, size) w') by (unfold os; by rewrite Hs).
  cbn [fst snd]. rewrite u64_small by lia. by destruct (rc =? 0).
Qed.

(** At a full second the time stamp is the number of seconds, not of milliseconds. *)
Lemma timestamp_counts_seconds w s w' :
  gettimeofday w = ((s, 0), w') -> 0 <= s < 2 ^ 53 -> timestamp_millis w = (Ret (of_int s), w').
Proof.
  intros Hg Hs. unfold timestamp_millis. rewrite (bind_ret_eq _ _ _ (s, 0) w') by (unfold os; by rewrite Hg).
  cbn [fst snd]. change (ddiv (of_int 0) (of_int (10 ^ 6))) with (of_int 0).
  by rewrite dadd_int, Z.add_0_r by lia.
Qed.
End facts.

(** ** An operating system with one command *)

#[export] Instance echo_os : Os bytes := {
  stat name w := ((if bool_decide (name = str "f") then 0 else -1, len w), w);
  gettimeofday w := ((1, 500000), w);
  popen cmd w := (Some (Make_FILE (w ++ [newline] ++ cmd) false false), w);
  pclose f w := w ++ [newline] }.

Example shell_echo : shell 20 (str "ab") (str "xyz") = (Ret (Some (str "xyz" ++ [newline] ++ str "ab")), str "xyz" ++ [newline]).
Proof. vm_compute. reflexivity. Qed.
Example timestamp_one_and_a_half : timestamp_millis (str "") = (Ret (literal 3 2), str "").
Proof. vm_compute. reflexivity. Qed.
(** A NUL in the output drops the rest of its line. *)
Example shell_nul : shell 20 (str "ab") [Byte.x41; Byte.x00; Byte.x42] = (Ret (Some ([Byte.x41] ++ str "ab")), [Byte.x41; Byte.x00; Byte.x42; newline]).
Proof. vm_compute. reflexivity. Qed.
