(* ===== verification/Statistics.v ===== *)
(** * Latency statistics: [statistics.h] and [statistics.cc]

    The timer with its sample count, extremes, running average and latency
    buckets, all but the count in [double].  The clock's readings (nanoseconds) are
    arguments.  [represents s ds] says what the numbers mean: [ds] are the measured
    durations, latest first, and each bucket holds how many of them fall into it;
    [statistics_refine] shows that the timer implements that histogram. *)

From S2P Require Import Prelude Stuff Doubles.

Local Open Scope Z_scope.
Local Open Scope alba_scope.

(** ** The code *)

Record Statistics := Make_Statistics {
  _n_samples : Z;
  _min_dur : double;
  _max_dur : double;
  _avg : double;
  _borders : list double;
  _last_index : Z;
  _t0 : Z;
  _t1 : Z;
  _creation : Z;
  _dur_buckets : list double }.

Definition border_values : list Z :=
  [100; 125; 150; 175; 200; 225; 250; 300; 350; 400; 800; 1000; 2000; 4000; 8000; 1000000000].

(** The constructor, created at [now]. *)
Definition new_Statistics (now : Z) : Statistics :=
  let borders := of_int <$> border_values in
  Make_Statistics 0 (of_int 1000000000) (of_int 0) (of_int 0) borders
    (u32 (u64 (len borders - 1))) 0 0 now (replicate (length borders) (of_int 0)).

Definition new_start (now : Z) (s : Statistics) : Statistics :=
  Make_Statistics (_n_samples s) (_min_dur s) (_max_dur s) (_avg s) (_borders s) (_last_index s)
    now (_t1 s) (_creation s) (_dur_buckets s).

(** [_dur_buckets[i] = _dur_buckets[i] + 1]. *)
Definition count_in (i : nat) (buckets : list double) : list double :=
  alter (fun n => dadd n (of_int 1)) i buckets.

(** The loop from [border_index] on, [k] places before [_last_index]; the flag is
    [set]. *)
Fixpoint bucket_loop (k : nat) (duration : Z) (border_index : nat) (borders buckets : list double) :
    bool * list double :=
  match k with
  | O => (false, buckets)
  | S k =>
      let border := nth border_index borders (of_int 0) in
      if dlt (of_int duration) border then (true, count_in border_index buckets)
      else bucket_loop k duration (S border_index) borders buckets
  end.

Definition new_stop (now : Z) (s : Statistics) : Statistics :=
  let duration := s32 (Z.quot (now - _t0 s) 1000) in
  let d := of_int duration in
  let min_dur := if dlt d (_min_dur s) then d else _min_dur s in
  let max_dur := if dlt (_max_dur s) d then d else _max_dur s in
  let '(set, buckets) :=
    bucket_loop (Z.to_nat (_last_index s)) duration 0 (_borders s) (_dur_buckets s) in
  let buckets := if set : bool then buckets else count_in (Z.to_nat (_last_index s)) buckets in
  let avg := ddiv (dadd (dmul (_avg s) (of_int (_n_samples s))) d)
                  (of_int (u32 (_n_samples s + 1))) in
  Make_Statistics (u32 (_n_samples s + 1)) min_dur max_dur avg (_borders s) (_last_index s)
    (_t0 s) now (_creation s) buckets.

Definition pretty : printer Statistics := fun s =>
  let duration := ddiv (of_int (Z.quot (_t1 s - _creation s) 1000000)) (of_int 1000) in
  let frequency := ddiv (of_int (_n_samples s)) (dadd duration (literal 1 10000000)) in
  str "n_samples: " ++ dec (_n_samples s) ++ endl ++
  str "min_dur: " ++ print_double (_min_dur s) ++ endl ++
  str "max_dur: " ++ print_double (_max_dur s) ++ endl ++
  str "average: " ++ print_double (_avg s) ++ endl ++
  str "total_time: " ++ print_double duration ++ str " s" ++ endl ++
  str "frequency: " ++ print_double frequency ++ str "/s" ++ endl ++
  concat (zip_with (fun n b => print_double n ++ [byte.of_Z 9] ++ str "<" ++ print_double b ++ endl)
            (_dur_buckets s) (_borders s)).

Definition print_Statistics : printer Statistics := fun s =>
  str "Statistics{" ++
  str " _n_samples = " ++ dec (_n_samples s) ++
  str ", _min_dur = " ++ print_double (_min_dur s) ++
  str ", _max_dur = " ++ print_double (_max_dur s) ++
  str ", _avg = " ++ print_double (_avg s) ++
  str ", _dur_buckets" ++ print_vector print_double (_dur_buckets s) ++
  str ", _borders" ++ print_vector print_double (_borders s) ++
  str " }".

(** Timing a sequence of sections, each with the clock at its start and its end. *)
Definition measure (s : Statistics) (section : Z * Z) : Statistics :=
  new_stop section.2 (new_start section.1 s).

(** ** The specification *)

(** The section's duration as the code sees it: microseconds in an [int]. *)
Definition micros (section : Z * Z) : Z := s32 (Z.quot (section.2 - section.1) 1000).

(** The first border above the duration, the last bucket when there is none. *)
Definition bucket_of (d : Z) : nat :=
  match list_find (fun b => d < b) (take 15 border_values) with
  | Some (i, _) => i
  | None => 15
  end.
Definition occurrences (i : nat) (ds : list Z) : nat :=
  length (filter (fun d => bucket_of d = i) ds).

Record represents (s : Statistics) (ds : list Z) : Prop := {
  r_samples : _n_samples s = len ds;
  r_min : _min_dur s = of_int (foldr Z.min 1000000000 ds);
  r_max : _max_dur s = of_int (foldr Z.max 0 ds);
  r_borders : _borders s = of_int <$> border_values;
  r_last : _last_index s = 15;
  r_buckets : _dur_buckets s = (fun i => of_int (Z.of_nat (occurrences i ds))) <$> seq 0 16 }.

(** ** Facts *)

Definition is_int (d : Z) : Prop := - 2 ^ 31 <= d < 2 ^ 31.
Lemma s32_is_int z : is_int (s32 z).
Proof.
  unfold is_int, s32. pose proof (Z.mod_pos_bound z (2 ^ 32) ltac:(lia)).
  destruct (Z.ltb_spec (z mod 2 ^ 32) (2 ^ 31)); lia.
Qed.

Lemma new_represents now : represents (new_Statistics now) [].
Proof. split; try done; by vm_compute. Qed.

Lemma fold_min_bounds ds : Forall is_int ds ->
  - 2 ^ 31 <= foldr Z.min 1000000000 ds <= 1000000000 /\ 0 <= foldr Z.max 0 ds < 2 ^ 31.
Proof. unfold is_int. induction 1 as [|d ds Hd _ [IH1 IH2]]; simpl; lia. Qed.

Lemma pick_min d m : is_int d -> - 2 ^ 31 <= m <= 1000000000 ->
  (if dlt (of_int d) (of_int m) then of_int d else of_int m) = of_int (d `min` m).
Proof.
  unfold is_int. intros Hd Hm. rewrite dlt_int by lia. destruct (Z.ltb_spec d m); f_equal; lia.
Qed.
Lemma pick_max d m : is_int d -> 0 <= m < 2 ^ 31 ->
  (if dlt (of_int m) (of_int d) then of_int d else of_int m) = of_int (d `max` m).
Proof.
  unfold is_int. intros Hd Hm. rewrite dlt_int by lia. destruct (Z.ltb_spec m d); f_equal; lia.
Qed.

(** The loop finds what [list_find] finds. *)
Lemma bucket_loop_spec d before bs last buckets : is_int d ->
  Forall (fun b => 0 <= b <= 1000000000) bs ->
  bucket_loop (length bs) d (length before) (of_int <$> before ++ bs ++ last) buckets
  = match list_find (fun b => d < b) bs with
    | Some (i, _) => (true, count_in (length before + i) buckets)
    | None => (false, buckets)
    end.
Proof.
  unfold is_int. intros Hd Hbs. revert before. induction Hbs as [|b bs Hb _ IH]; intros before; [done|].
  cbn [length bucket_loop]. rewrite fmap_app, app_nth2 by (rewrite length_fmap; lia).
  rewrite length_fmap, Nat.sub_diag. cbn [app fmap list_fmap nth]. rewrite dlt_int by lia.
  cbn [list_find]. destruct (Z.ltb_spec d b) as [Hlt|Hge].
  - rewrite decide_True by done. by rewrite Nat.add_0_r.
  - rewrite decide_False by lia. specialize (IH (before ++ [b])).
    rewrite length_app, Nat.add_1_r, <- app_assoc, fmap_app in IH. cbn in IH. cbn. rewrite IH.
    destruct (list_find _ bs) as [[i x]|]; [|done]. cbn. by rewrite Nat.add_succ_r.
Qed.

Lemma bucket_of_lt d : (bucket_of d < 16)%nat.
Proof.
  unfold bucket_of. destruct (list_find _ _) as [[i x]|] eqn:E; [|lia].
  apply list_find_Some in E as (E & _ & _). apply lookup_lt_Some in E.
  rewrite length_take in E. lia.
Qed.

Lemma occurrences_cons i d ds :
  occurrences i (d :: ds) = ((if decide (bucket_of d = i) then 1 else 0) + occurrences i ds)%nat.
Proof. unfold occurrences. rewrite filter_cons. by destruct (decide _). Qed.

Lemma occurrences_le i ds : (occurrences i ds <= length ds)%nat.
Proof. apply length_filter. Qed.

#[local] Arguments occurrences : simpl never.
#[local] Arguments of_int : simpl never.

(** Counting a duration into the buckets of the others. *)
Lemma count_in_spec d ds : len ds < 2 ^ 32 ->
  count_in (bucket_of d) ((fun i => of_int (Z.of_nat (occurrences i ds))) <$> seq 0 16)
  = (fun i => of_int (Z.of_nat (occurrences i (d :: ds)))) <$> seq 0 16.
Proof.
  intros Hl. apply list_eq. intros j. unfold count_in. rewrite !list_lookup_fmap.
  pose proof (bucket_of_lt d) as Hb.
  destruct (decide (j < 16)%nat) as [Hj|Hj].
  2: { rewrite (lookup_ge_None_2 (seq 0 16) j) by (rewrite length_seq; lia).
    apply lookup_ge_None_2. rewrite length_alter, length_fmap, length_seq. lia. }
  assert (forall f : nat -> double, (f <$> seq 0 16) !! j = Some (f j)) as Hf.
  { intros f. by rewrite list_lookup_fmap, (lookup_seq_lt 0 16 j). }
  rewrite <- list_lookup_fmap, (Hf (fun i => of_int (Z.of_nat (occurrences i (d :: ds))))).
  rewrite occurrences_cons. destruct (decide (bucket_of d = j)) as [->|Hne].
  - rewrite list_lookup_alter_eq, Hf. simpl. pose proof (occurrences_le j ds). unfold len in Hl.
    rewrite dadd_int by lia. do 2 f_equal. lia.
  - by rewrite list_lookup_alter_ne, Hf.
Qed.

(** One timed section adds its duration to what the statistics represent. *)
Lemma measure_represents s ds section : represents s ds -> Forall is_int ds -> len ds + 1 < 2 ^ 32 ->
  represents (measure s section) (micros section :: ds).
Proof.
  intros [Hn Hmin Hmax Hbo Hla Hbu] Hds Hlen. pose proof (fold_min_bounds ds Hds) as [Hb1 Hb2].
  pose proof (s32_is_int (Z.quot (section.2 - section.1) 1000)) as Hd. fold (micros section) in Hd.
  unfold measure, new_stop. cbn [new_start _t0 _n_samples _min_dur _max_dur _avg _borders
    _last_index _dur_buckets _creation]. fold (micros section).
  assert (bucket_loop (Z.to_nat 15) (micros section) 0 (of_int <$> border_values) (_dur_buckets s)
    = match list_find (fun b => micros section < b) (take 15 border_values) with
      | Some (i, _) => (true, count_in i (_dur_buckets s))
      | None => (false, _dur_buckets s)
      end) as Hloop.
  { apply (bucket_loop_spec _ [] (take 15 border_values) (drop 15 border_values)); [done|].
    repeat constructor; by vm_compute. }
  rewrite Hla, Hbo, Hloop.
  assert ((let '(set, b) := match list_find (fun b => micros section < b) (take 15 border_values) with
             | Some (i, _) => (true, count_in i (_dur_buckets s))
             | None => (false, _dur_buckets s) end in
           if set : bool then b else count_in (Z.to_nat 15) b)
          = count_in (bucket_of (micros section)) (_dur_buckets s)) as Hbk.
  { unfold bucket_of. by destruct (list_find _ _) as [[i x]|]. }
  destruct (list_find _ _) as [[i x]|]; rewrite Hbk; (split;
    [cbn; rewrite Hn, len_cons, Z.add_comm; apply u32_small; pose proof (len_nonneg ds); lia
    |cbn; rewrite Hmin; by apply pick_min
    |cbn; rewrite Hmax; by apply pick_max
    |done|done|cbn [_dur_buckets]; rewrite Hbu; apply count_in_spec; lia]).
Qed.

(** C18: After any sequence of timed sections (fewer than [2^32]) the statistics hold the
    number of samples, the smallest and the largest duration, and in each bucket exactly
    the number of durations that fall below its border and below no earlier one: the
    [double] counters implement the integer histogram. *)
Theorem statistics_refine now sections : len sections < 2 ^ 32 ->
  represents (foldl measure (new_Statistics now) sections) (rev (micros <$> sections)).
Proof.
  induction sections as [|x sections IH] using rev_ind; intros Hl; [apply new_represents|].
  rewrite foldl_snoc, fmap_app, rev_app_distr. cbn [fmap list_fmap rev app].
  rewrite len_app in Hl. change (len [x]) with 1 in Hl.
  apply measure_represents; [apply IH; pose proof (len_nonneg sections); lia| |].
  - apply Forall_rev, Forall_fmap, Forall_true. intros y. apply s32_is_int.
  - unfold len in *. rewrite length_rev, length_fmap. lia.
Qed.

Lemma statistics_refine_witness :
  represents (foldl measure (new_Statistics 0) [(0, 110000); (0, 9000000); (5, 120005)])
    [120; 9000; 110].
Proof. apply (statistics_refine 0 [(0, 110000); (0, 9000000); (5, 120005)]). by vm_compute. Defined.
