(* ===== verification/Crc32c.v ===== *)
(** * CRC-32C: [alba_crc32c_stubs.c]

    The checksum of the OCaml side: the table-driven loop, the loops around the
    SSE 4.2 instructions, the dispatch on the processor, and the two functions
    OCaml calls.  The instructions and [cpuid] are a parameter, the class [Cpu];
    [CpuSpec] states the operation the processor's manual gives for [CRC32]
    (reflect, shift, remainder modulo the polynomial 11EDC6F41H, reflect), from
    [mod2] and [bit_reflect].  The reference is [poly_crc], that same remainder for
    a message of any length.  Reading behind the end of the buffer is [Undef]. *)

From S2P Require Import Prelude.

Local Open Scope Z_scope.
Local Open Scope alba_scope.

(** ** The code *)

Class Cpu := {
  (** [crc32b %cl, %esi] and [crc32q %rcx, %rsi]: destination, source. *)
  crc32b : Z -> Z -> Z;
  crc32q : Z -> Z -> Z;
  (** The result of [__get_cpuid] and the value it leaves in [c]. *)
  __get_cpuid : Z -> Z * Z;
  bit_SSE4_2 : Z }.

Definition crc32Table : list Z :=
  [
   0x00000000; 0xF26B8303; 0xE13B70F7; 0x1350F3F4; 0xC79A971F; 0x35F1141C;
   0x26A1E7E8; 0xD4CA64EB; 0x8AD958CF; 0x78B2DBCC; 0x6BE22838; 0x9989AB3B;
   0x4D43CFD0; 0xBF284CD3; 0xAC78BF27; 0x5E133C24; 0x105EC76F; 0xE235446C;
   0xF165B798; 0x030E349B; 0xD7C45070; 0x25AFD373; 0x36FF2087; 0xC494A384;
   0x9A879FA0; 0x68EC1CA3; 0x7BBCEF57; 0x89D76C54; 0x5D1D08BF; 0xAF768BBC;
   0xBC267848; 0x4E4DFB4B; 0x20BD8EDE; 0xD2D60DDD; 0xC186FE29; 0x33ED7D2A;
   0xE72719C1; 0x154C9AC2; 0x061C6936; 0xF477EA35; 0xAA64D611; 0x580F5512;
   0x4B5FA6E6; 0xB93425E5; 0x6DFE410E; 0x9F95C20D; 0x8CC531F9; 0x7EAEB2FA;
   0x30E349B1; 0xC288CAB2; 0xD1D83946; 0x23B3BA45; 0xF779DEAE; 0x05125DAD;
   0x1642AE59; 0xE4292D5A; 0xBA3A117E; 0x4851927D; 0x5B016189; 0xA96AE28A;
   0x7DA08661; 0x8FCB0562; 0x9C9BF696; 0x6EF07595; 0x417B1DBC; 0xB3109EBF;
   0xA0406D4B; 0x522BEE48; 0x86E18AA3; 0x748A09A0; 0x67DAFA54; 0x95B17957;
   0xCBA24573; 0x39C9C670; 0x2A993584; 0xD8F2B687; 0x0C38D26C; 0xFE53516F;
   0xED03A29B; 0x1F682198; 0x5125DAD3; 0xA34E59D0; 0xB01EAA24; 0x42752927;
   0x96BF4DCC; 0x64D4CECF; 0x77843D3B; 0x85EFBE38; 0xDBFC821C; 0x2997011F;
   0x3AC7F2EB; 0xC8AC71E8; 0x1C661503; 0xEE0D9600; 0xFD5D65F4; 0x0F36E6F7;
   0x61C69362; 0x93AD1061; 0x80FDE395; 0x72966096; 0xA65C047D; 0x5437877E;
   0x4767748A; 0xB50CF789; 0xEB1FCBAD; 0x197448AE; 0x0A24BB5A; 0xF84F3859;
   0x2C855CB2; 0xDEEEDFB1; 0xCDBE2C45; 0x3FD5AF46; 0x7198540D; 0x83F3D70E;
   0x90A324FA; 0x62C8A7F9; 0xB602C312; 0x44694011; 0x5739B3E5; 0xA55230E6;
   0xFB410CC2; 0x092A8FC1; 0x1A7A7C35; 0xE811FF36; 0x3CDB9BDD; 0xCEB018DE;
   0xDDE0EB2A; 0x2F8B6829; 0x82F63B78; 0x709DB87B; 0x63CD4B8F; 0x91A6C88C;
   0x456CAC67; 0xB7072F64; 0xA457DC90; 0x563C5F93; 0x082F63B7; 0xFA44E0B4;
   0xE9141340; 0x1B7F9043; 0xCFB5F4A8; 0x3DDE77AB; 0x2E8E845F; 0xDCE5075C;
   0x92A8FC17; 0x60C37F14; 0x73938CE0; 0x81F80FE3; 0x55326B08; 0xA759E80B;
   0xB4091BFF; 0x466298FC; 0x1871A4D8; 0xEA1A27DB; 0xF94AD42F; 0x0B21572C;
   0xDFEB33C7; 0x2D80B0C4; 0x3ED04330; 0xCCBBC033; 0xA24BB5A6; 0x502036A5;
   0x4370C551; 0xB11B4652; 0x65D122B9; 0x97BAA1BA; 0x84EA524E; 0x7681D14D;
   0x2892ED69; 0xDAF96E6A; 0xC9A99D9E; 0x3BC21E9D; 0xEF087A76; 0x1D63F975;
   0x0E330A81; 0xFC588982; 0xB21572C9; 0x407EF1CA; 0x532E023E; 0xA145813D;
   0x758FE5D6; 0x87E466D5; 0x94B49521; 0x66DF1622; 0x38CC2A06; 0xCAA7A905;
   0xD9F75AF1; 0x2B9CD9F2; 0xFF56BD19; 0x0D3D3E1A; 0x1E6DCDEE; 0xEC064EED;
   0xC38D26C4; 0x31E6A5C7; 0x22B65633; 0xD0DDD530; 0x0417B1DB; 0xF67C32D8;
   0xE52CC12C; 0x1747422F; 0x49547E0B; 0xBB3FFD08; 0xA86F0EFC; 0x5A048DFF;
   0x8ECEE914; 0x7CA56A17; 0x6FF599E3; 0x9D9E1AE0; 0xD3D3E1AB; 0x21B862A8;
   0x32E8915C; 0xC083125F; 0x144976B4; 0xE622F5B7; 0xF5720643; 0x07198540;
   0x590AB964; 0xAB613A67; 0xB831C993; 0x4A5A4A90; 0x9E902E7B; 0x6CFBAD78;
   0x7FAB5E8C; 0x8DC0DD8F; 0xE330A81A; 0x115B2B19; 0x020BD8ED; 0xF0605BEE;
   0x24AA3F05; 0xD6C1BC06; 0xC5914FF2; 0x37FACCF1; 0x69E9F0D5; 0x9B8273D6;
   0x88D28022; 0x7AB90321; 0xAE7367CA; 0x5C18E4C9; 0x4F48173D; 0xBD23943E;
   0xF36E6F75; 0x0105EC76; 0x12551F82; 0xE03E9C81; 0x34F4F86A; 0xC69F7B69;
   0xD5CF889D; 0x27A40B9E; 0x79B737BA; 0x8BDCB4B9; 0x988C474D; 0x6AE7C44E;
   0xBE2DA0A5; 0x4C4623A6; 0x5F16D052; 0xAD7D5351].

(** The loops over the [size] bytes at [buf], the rest of the buffer. *)
Fixpoint _crc32c_soft (crc32c : Z) (p : bytes) (length : Z) : outcome Z :=
  if length =? 0 then Ret crc32c
  else match p with
       | [] => Undef
       | b :: p =>
           let i := Z.land (Z.lxor crc32c (byte.unsigned b)) 0xff in
           _crc32c_soft (Z.lxor (nth (Z.to_nat i) crc32Table 0) (Z.shiftr crc32c 8)) p (length - 1)
       end.

Section crc32c.
Context `{Cpu}.

Fixpoint _crc32c_sse42_byte (crc : Z) (buf : bytes) (size : Z) : outcome Z :=
  if size =? 0 then Ret crc
  else match buf with
       | [] => Undef
       | b :: buf => _crc32c_sse42_byte (crc32b crc (byte.unsigned b)) buf (size - 1)
       end.

(** The loop over [q] words of eight bytes; it leaves the pointer behind them. *)
Fixpoint quad_loop (crc : Z) (qb : bytes) (q : Z) : outcome (Z * bytes) :=
  if q =? 0 then Ret (crc, qb)
  else match qb with
       | b0 :: b1 :: b2 :: b3 :: b4 :: b5 :: b6 :: b7 :: qb =>
           quad_loop (crc32q crc (le_combine [b0; b1; b2; b3; b4; b5; b6; b7])) qb (q - 1)
       | _ => Undef
       end.

Definition _crc32c_sse42 (crc : Z) (buf : bytes) (size : Z) : outcome Z :=
  let q := Z.shiftr size 3 in
  let rem := Z.land size 0x7 in
  match quad_loop crc buf q with
  | Ret (crc, qb) => if negb (rem =? 0) then _crc32c_sse42_byte crc qb rem else Ret crc
  | _ => Undef
  end.

(** The value of [have_sse_4_2] after the library's constructor function ran. *)
Definition __cpu_detect : bool :=
  let '(r, c) := __get_cpuid 1 in
  let c := if r =? 0 then 0 else c in
  negb (Z.land c bit_SSE4_2 =? 0).

Definition _crc32c_generic (have_sse_4_2 : bool) (crc32c : Z) (buffer : bytes) (length : Z) :
    outcome Z :=
  if have_sse_4_2 then _crc32c_sse42 crc32c buffer length else _crc32c_soft crc32c buffer length.

(** [buf + offset]: the bytes from there on; only inside the object (or at its
    end) is the pointer defined. *)
Definition advance (buf : bytes) (offset : Z) : outcome bytes :=
  if (0 <=? offset) && (offset <=? len buf) then Ret (drop (Z.to_nat offset) buf) else Undef.

(** The arguments are the OCaml integers; [Int_val] truncates to [int], which the
    assignment to [size_t] sign-extends. *)
Definition crc32c_string (v_crc : Z) (v_string : bytes) (v_offset v_length : Z)
    (v_final : bool) : outcome Z :=
  match advance v_string v_offset with
  | Ret buf =>
      let crc := u32 v_crc in
      let length := u64 (s32 v_length) in
      match _crc32c_generic __cpu_detect crc buf length with
      | Ret r32 => Ret (s32 (if v_final then Z.lxor r32 0xFFFFFFFF else r32))
      | _ => Undef
      end
  | _ => Undef
  end.

Definition crc32c_bigarray (v_crc : Z) (v_bigarray : bytes) (v_offset v_length : Z)
    (v_final : bool) : outcome Z :=
  let length := u64 (s32 v_length) in
  let crc := u32 v_crc in
  match advance v_bigarray v_offset with
  | Ret buf =>
      match (if negb (length =? 0) then _crc32c_generic __cpu_detect crc buf length
             else Ret crc) with
      | Ret crc => Ret (s32 (if v_final then Z.lxor crc 0xFFFFFFFF else crc))
      | _ => Undef
      end
  | _ => Undef
  end.
End crc32c.

(** ** The reference *)

(** The [w] low bits of [x], in reverse order. *)
Fixpoint bit_reflect (w : nat) (x : Z) : Z :=
  match w with
  | O => 0
  | S w => Z.lor (Z.shiftl (Z.b2z (Z.odd x)) (Z.of_nat w)) (bit_reflect w (Z.shiftr x 1))
  end.

(** The remainder of the polynomial [x], of degree below [32 + k], modulo the
    polynomial of CRC-32C, by long division. *)
Definition POLY : Z := 0x11EDC6F41.
Fixpoint mod2 (k : nat) (x : Z) : Z :=
  match k with
  | O => x
  | S k =>
      mod2 k (if Z.testbit x (32 + Z.of_nat k) then Z.lxor x (Z.shiftl POLY (Z.of_nat k)) else x)
  end.

(** The operation of the [CRC32] instruction for a source of [n] bits. *)
Definition crc32_operation (n : nat) (dest src : Z) : Z :=
  bit_reflect 32 (mod2 n (Z.lxor (Z.shiftl (bit_reflect n src) 32)
                            (Z.shiftl (bit_reflect 32 dest) (Z.of_nat n)))).

Definition poly_crc (crc : Z) (data : bytes) : Z :=
  crc32_operation (8 * length data) crc (le_combine data).

Class CpuSpec `{Cpu} := {
  crc32b_spec c b : 0 <= c < 2 ^ 32 -> 0 <= b < 2 ^ 8 -> crc32b c b = crc32_operation 8 c b;
  crc32q_spec c q : 0 <= c < 2 ^ 32 -> 0 <= q < 2 ^ 64 -> crc32q c q = crc32_operation 64 c q }.

(** A processor that works as documented. *)
#[export] Instance documented_Cpu : Cpu := {
  crc32b := crc32_operation 8;
  crc32q := crc32_operation 64;
  __get_cpuid _ := (1, 2 ^ 20);
  bit_SSE4_2 := 2 ^ 20 }.
#[export] Instance documented_CpuSpec : CpuSpec.
Proof. by split. Defined.

(** The register of the bit-serial circuit, least significant bit first. *)
Definition crc_step (x : Z) : Z :=
  Z.lxor (Z.shiftr x 1) (if Z.odd x then 0x82F63B78 else 0).
Fixpoint crc_steps (n : nat) (x : Z) : Z :=
  match n with O => x | S n => crc_steps n (crc_step x) end.

(** ** From the polynomial to the circuit *)

Lemma testbit_b2z b i : i <> 0 -> Z.testbit (Z.b2z b) i = false.
Proof. intros Hi. destruct b; [destruct i; try done; by destruct p|apply Z.bits_0]. Qed.

Lemma testbit_bit_reflect_high w x i : Z.of_nat w <= i -> Z.testbit (bit_reflect w x) i = false.
Proof.
  revert x i. induction w as [|w IH]; intros x i Hi; [apply Z.bits_0|]. cbn [bit_reflect].
  by rewrite Z.lor_spec, Z.shiftl_spec, IH, testbit_b2z by lia.
Qed.

Lemma testbit_bit_reflect w x i :
  0 <= i < Z.of_nat w -> Z.testbit (bit_reflect w x) i = Z.testbit x (Z.of_nat w - 1 - i).
Proof.
  revert x. induction w as [|w IH]; intros x Hi; [lia|]. cbn [bit_reflect].
  rewrite Z.lor_spec, Z.shiftl_spec by lia.
  destruct (decide (i = Z.of_nat w)) as [->|Hne].
  - rewrite Z.sub_diag, testbit_bit_reflect_high, orb_false_r by lia.
    replace (Z.of_nat (S w) - 1 - Z.of_nat w) with 0 by lia. rewrite !Z.bit0_odd. by destruct (Z.odd x).
  - rewrite IH, Z.shiftr_spec, testbit_b2z by lia. simpl orb. f_equal. lia.
Qed.

Lemma testbit_high x n i : 0 <= x < 2 ^ n -> n <= i -> Z.testbit x i = false.
Proof.
  intros Hx Hi. destruct (decide (x = 0)) as [->|]; [apply Z.bits_0|].
  apply Z.bits_above_log2; [lia|]. pose proof (Z.log2_lt_pow2 x n). lia.
Qed.

(** Equality of two integers whose bits from [n] on are clear. *)
Lemma bits_eq_below n x y :
  (forall i, n <= i -> Z.testbit x i = false) -> (forall i, n <= i -> Z.testbit y i = false) ->
  (forall i, 0 <= i < n -> Z.testbit x i = Z.testbit y i) -> x = y.
Proof.
  intros Hx Hy H. apply Z.bits_inj'. intros i Hi. destruct (Z.lt_ge_cases i n); [auto|].
  by rewrite Hx, Hy.
Qed.

Lemma below_of_bits n x :
  0 <= n -> 0 <= x -> (forall i, n <= i -> Z.testbit x i = false) -> x < 2 ^ n.
Proof.
  intros Hn Hx H. destruct (decide (x = 0)) as [->|]; [lia|].
  apply Z.log2_lt_pow2; [lia|]. apply Z.nle_gt. intros Hle.
  specialize (H _ Hle). by rewrite Z.bit_log2 in H by lia.
Qed.

Lemma forall_below (P : Z -> Prop) (n : nat) :
  Forall (fun k => P (Z.of_nat k)) (seq 0 n) -> forall i, 0 <= i < Z.of_nat n -> P i.
Proof.
  intros HF i Hi. rewrite Forall_forall in HF. rewrite <- (Z2Nat.id i) by lia.
  apply HF, elem_of_seq. lia.
Qed.

(** The reflected polynomial is the constant of the circuit, one place up. *)
Lemma poly_reflected i : 0 <= i -> Z.testbit POLY (31 - i) = Z.testbit 0x82F63B78 i.
Proof.
  intros Hi. destruct (Z.lt_ge_cases i 32) as [Hlt|Hge].
  - revert i Hi Hlt. intros i Hi Hlt. pattern i. apply (forall_below _ 32); [|lia].
    repeat constructor.
  - rewrite Z.testbit_neg_r by lia. symmetry. by apply (testbit_high _ 32).
Qed.

Lemma testbit_crc_step x i :
  0 <= i -> Z.testbit (crc_step x) i
            = xorb (Z.testbit x (i + 1)) (Z.testbit x 0 && Z.testbit 0x82F63B78 i).
Proof.
  intros Hi. unfold crc_step. rewrite Z.lxor_spec, Z.shiftr_spec, Z.bit0_odd by done.
  destruct (Z.odd x); [done|]. by rewrite Z.bits_0.
Qed.

(** One round of the division, seen from the other end. *)
Lemma reflect_round k x : 0 <= x < 2 ^ (32 + Z.of_nat (S k)) ->
  let x' := if Z.testbit x (32 + Z.of_nat k) then Z.lxor x (Z.shiftl POLY (Z.of_nat k)) else x in
  bit_reflect (32 + k) x' = crc_step (bit_reflect (32 + S k) x) /\ 0 <= x' < 2 ^ (32 + Z.of_nat k).
Proof.
  intros Hx x'.
  assert (forall i, 0 <= i -> Z.testbit x' i = xorb (Z.testbit x i)
            (Z.testbit x (32 + Z.of_nat k) && Z.testbit POLY (i - Z.of_nat k))) as Hb.
  { intros i Hi. subst x'. destruct (Z.testbit x (32 + Z.of_nat k)); [|by rewrite xorb_false_r].
    by rewrite Z.lxor_spec, Z.shiftl_spec. }
  split.
  - apply (bits_eq_below (32 + Z.of_nat k)).
    + intros i Hi. apply testbit_bit_reflect_high. lia.
    + intros i Hi. rewrite testbit_crc_step, testbit_bit_reflect_high by lia.
      rewrite (testbit_high 0x82F63B78 32) by lia. by rewrite andb_false_r.
    + intros i Hi. rewrite testbit_crc_step, !testbit_bit_reflect, Hb by lia.
      rewrite <- poly_reflected by lia. do 2 f_equal; [lia|f_equal; lia|f_equal; lia].
  - assert (0 <= x') as Hp.
    { subst x'. case_match; [|lia]. apply Z.lxor_nonneg. split; [|lia].
      intros _. apply Z.shiftl_nonneg. done. }
    split; [done|]. apply below_of_bits; [lia..|]. intros i Hi. rewrite Hb by lia.
    destruct (decide (i = 32 + Z.of_nat k)) as [->|Hne].
    + replace (32 + Z.of_nat k - Z.of_nat k) with 32 by lia.
      by destruct (Z.testbit x (32 + Z.of_nat k)).
    + rewrite (testbit_high x (32 + Z.of_nat (S k))) by lia.
      rewrite (testbit_high POLY 33) by (unfold POLY; lia). apply andb_false_r.
Qed.

Lemma mod2_circuit k x : 0 <= x < 2 ^ (32 + Z.of_nat k) ->
  bit_reflect 32 (mod2 k x) = crc_steps k (bit_reflect (32 + k) x).
Proof.
  revert x. induction k as [|k IH]; intros x Hx; [done|]. cbn [mod2 crc_steps].
  destruct (reflect_round k x Hx) as [<- Hr]. by apply IH.
Qed.

Lemma bit_reflect_range w x : 0 <= bit_reflect w x < 2 ^ Z.of_nat w.
Proof.
  assert (0 <= bit_reflect w x) as Hp.
  { revert x. induction w as [|w IH]; intros x; [done|]. cbn [bit_reflect].
    apply Z.lor_nonneg. split; [|apply IH]. apply Z.shiftl_nonneg. by destruct (Z.odd x). }
  split; [done|]. apply below_of_bits; [lia|done|]. apply testbit_bit_reflect_high.
Qed.

Lemma lxor_range n x y : 0 <= n -> 0 <= x < 2 ^ n -> 0 <= y < 2 ^ n -> 0 <= Z.lxor x y < 2 ^ n.
Proof.
  intros Hn Hx Hy. assert (0 <= Z.lxor x y) by (apply Z.lxor_nonneg; lia).
  split; [done|]. apply below_of_bits; [done..|]. intros i Hi.
  by rewrite Z.lxor_spec, !(testbit_high _ n).
Qed.

Lemma shiftl_range n m x : 0 <= n -> 0 <= m -> 0 <= x < 2 ^ n -> 0 <= Z.shiftl x m < 2 ^ (n + m).
Proof. intros Hn Hm Hx. rewrite Z.shiftl_mul_pow2, Z.pow_add_r by done. nia. Qed.

Lemma crc32_operation_circuit n dest src : 0 <= dest < 2 ^ 32 -> 0 <= src < 2 ^ Z.of_nat n ->
  crc32_operation n dest src = crc_steps n (Z.lxor src dest).
Proof.
  intros Hd Hs. unfold crc32_operation. rewrite mod2_circuit.
  2: { apply lxor_range; [lia| |].
    - rewrite Z.add_comm. apply shiftl_range; [lia..|]. apply bit_reflect_range.
    - apply shiftl_range; [lia..|]. apply (bit_reflect_range 32). }
  f_equal. apply (bits_eq_below (32 + Z.of_nat n)).
  - intros i Hi. apply testbit_bit_reflect_high. lia.
  - intros i Hi. by rewrite Z.lxor_spec, (testbit_high src (Z.of_nat n)), (testbit_high dest 32) by lia.
  - intros i Hi. rewrite testbit_bit_reflect, !Z.lxor_spec, !Z.shiftl_spec by lia. f_equal.
    + destruct (Z.lt_ge_cases i (Z.of_nat n)).
      * rewrite testbit_bit_reflect by lia. f_equal. lia.
      * by rewrite Z.testbit_neg_r, (testbit_high src (Z.of_nat n)) by lia.
    + destruct (Z.lt_ge_cases i 32).
      * rewrite testbit_bit_reflect by lia. f_equal. lia.
      * by rewrite Z.testbit_neg_r, (testbit_high dest 32) by lia.
Qed.

(** ** The circuit: linearity, one byte at a time *)

Lemma crc_step_lxor x y : crc_step (Z.lxor x y) = Z.lxor (crc_step x) (crc_step y).
Proof.
  apply Z.bits_inj'. intros i Hi. rewrite Z.lxor_spec, !testbit_crc_step, !Z.lxor_spec by done.
  destruct (Z.testbit x 0), (Z.testbit y 0), (Z.testbit x (i + 1)), (Z.testbit y (i + 1)),
    (Z.testbit 0x82F63B78 i); done.
Qed.
Lemma crc_steps_lxor n x y : crc_steps n (Z.lxor x y) = Z.lxor (crc_steps n x) (crc_steps n y).
Proof. revert x y. induction n as [|n IH]; intros x y; [done|]. simpl. by rewrite crc_step_lxor, IH. Qed.

Lemma crc_steps_add n m x : crc_steps (n + m) x = crc_steps m (crc_steps n x).
Proof. revert x. induction n as [|n IH]; intros x; [done|]. apply IH. Qed.

Lemma crc_steps_shiftl n y : crc_steps n (Z.shiftl y (Z.of_nat n)) = y.
Proof.
  induction n as [|n IH]; [apply Z.shiftl_0_r|]. cbn [crc_steps]. etransitivity; [|exact IH]. f_equal.
  apply Z.bits_inj'. intros i Hi. rewrite testbit_crc_step, !Z.shiftl_spec by lia.
  rewrite (Z.testbit_neg_r _ (0 - _)) by lia. rewrite xorb_false_r. f_equal. lia.
Qed.

Lemma crc_steps_range n x : 0 <= x < 2 ^ 32 -> 0 <= crc_steps n x < 2 ^ 32.
Proof.
  revert x. induction n as [|n IH]; intros x Hx; [done|]. apply IH, lxor_range; [lia| |].
  - rewrite Z.shiftr_div_pow2 by lia. split; [apply Z.div_pos; lia|].
    apply Z.le_lt_trans with x; [apply Z.div_le_upper_bound; lia|lia].
  - by destruct (Z.odd x).
Qed.

Definition byte_step (crc : Z) (b : byte) : Z := crc_steps 8 (Z.lxor (byte.unsigned b) crc).

(** The equation as a rewriting step, since conversion would unfold the circuit. *)
Lemma fold_left_step {A B} (f : A -> B -> A) x l a : fold_left f (x :: l) a = fold_left f l (f a x).
Proof. reflexivity. Qed.

Lemma byte_range32 b : 0 <= byte.unsigned b < 2 ^ 32.
Proof. destruct (byte.unsigned_range b) as [? Hb]. split; [done|]. apply Z.lt_trans with (2 ^ 8); [exact Hb|reflexivity]. Qed.

Lemma byte_step_range c b : 0 <= c < 2 ^ 32 -> 0 <= byte_step c b < 2 ^ 32.
Proof.
  intros Hc. apply crc_steps_range, lxor_range; [lia|apply byte_range32|done].
Qed.

Lemma fold_byte_step_range d c : 0 <= c < 2 ^ 32 -> 0 <= fold_left byte_step d c < 2 ^ 32.
Proof.
  revert c. induction d as [|b d IH]; intros c Hc; [exact Hc|].
  rewrite fold_left_step. exact (IH _ (byte_step_range c b Hc)).
Qed.

Lemma le_combine_lxor b d :
  le_combine (b :: d) = Z.lxor (byte.unsigned b) (Z.shiftl (le_combine d) 8).
Proof.
  change (le_combine (b :: d)) with (Z.lor (byte.unsigned b) (Z.shiftl (le_combine d) 8)).
  apply Z.bits_inj'. intros i Hi.
  rewrite Z.lor_spec, Z.lxor_spec, Z.shiftl_spec by done. destruct (Z.lt_ge_cases i 8).
  - by rewrite (Z.testbit_neg_r (le_combine d)), orb_false_r, xorb_false_r by lia.
  - by rewrite (testbit_high _ 8 _ (byte.unsigned_range b)).
Qed.

Lemma le_combine_range d : 0 <= le_combine d < 2 ^ (8 * len d).
Proof. exact (LittleEndianList.le_combine_bound d). Qed.

(** The circuit over a whole message is the circuit byte by byte. *)
Lemma crc_steps_message d c :
  crc_steps (8 * length d) (Z.lxor (le_combine d) c) = fold_left byte_step d c.
Proof.
  revert c. induction d as [|b d IH]; intros c.
  { change (le_combine []) with 0. rewrite Z.lxor_0_l. reflexivity. }
  replace (8 * length (b :: d))%nat with (8 + 8 * length d)%nat by (simpl; lia).
  rewrite crc_steps_add, le_combine_lxor, (Z.lxor_comm (byte.unsigned b)), Z.lxor_assoc.
  rewrite (crc_steps_lxor 8 (Z.shiftl (le_combine d) 8)), (crc_steps_shiftl 8).
  rewrite fold_left_step, <- IH. unfold byte_step. reflexivity.
Qed.

(** From here on the circuit is known by its lemmas. *)
#[local] Opaque crc_steps crc32_operation.

Lemma crc32_operation_bytes d c : 0 <= c < 2 ^ 32 ->
  crc32_operation (8 * length d) c (le_combine d) = fold_left byte_step d c.
Proof.
  intros Hc. rewrite crc32_operation_circuit, crc_steps_message; [done..|].
  pose proof (le_combine_range d) as Hr. unfold len in Hr.
  by replace (Z.of_nat (8 * length d)) with (8 * Z.of_nat (length d)) by lia.
Qed.

Lemma poly_crc_bytes c d : 0 <= c < 2 ^ 32 -> poly_crc c d = fold_left byte_step d c.
Proof. intros Hc. unfold poly_crc. by rewrite crc32_operation_bytes. Qed.

Lemma poly_crc_range c d : 0 <= c < 2 ^ 32 -> 0 <= poly_crc c d < 2 ^ 32.
Proof. intros Hc. rewrite poly_crc_bytes by done. by apply fold_byte_step_range. Qed.

(** ** The table *)

Lemma table_entry i : 0 <= i < 256 -> nth (Z.to_nat i) crc32Table 0 = crc_steps 8 i.
Proof.
  intros Hi. apply Z.eqb_eq. pattern i. apply (forall_below _ 256); [|lia].
  apply Forall_forall. intros k Hk.
  assert (forallb (fun k => nth (Z.to_nat (Z.of_nat k)) crc32Table 0 =? crc_steps 8 (Z.of_nat k))
            (seq 0 256) = true) as HT by (vm_compute; reflexivity).
  rewrite forallb_forall in HT. apply HT. by apply list_elem_of_In.
Qed.

Lemma low_byte x : 0 <= Z.land x 0xff < 256.
Proof. change 0xff with (Z.ones 8). rewrite Z.land_ones by done. by apply Z.mod_pos_bound. Qed.

(** A look-up is eight rounds of the circuit. *)
Lemma table_step c b :
  Z.lxor (nth (Z.to_nat (Z.land (Z.lxor c (byte.unsigned b)) 0xff)) crc32Table 0) (Z.shiftr c 8)
  = byte_step c b.
Proof.
  rewrite table_entry by apply low_byte. unfold byte_step.
  rewrite <- (crc_steps_shiftl 8 (Z.shiftr c 8)) at 1. rewrite <- crc_steps_lxor. f_equal.
  apply Z.bits_inj'. intros i Hi. change (Z.of_nat 8) with 8. change 0xff with (Z.ones 8).
  rewrite !Z.lxor_spec, Z.land_spec, Z.lxor_spec, Z.shiftl_spec by done.
  destruct (Z.lt_ge_cases i 8).
  - rewrite Z.ones_spec_low, (Z.testbit_neg_r _ (i - 8)) by lia.
    by rewrite andb_true_r, xorb_false_r, xorb_comm.
  - rewrite Z.ones_spec_high, Z.shiftr_spec, (testbit_high _ 8 _ (byte.unsigned_range b)) by lia.
    rewrite andb_false_r. f_equal. by rewrite Z.sub_add.
Qed.

(** ** The loops *)

Lemma soft_loop p c n : 0 <= n <= len p ->
  _crc32c_soft c p n = Ret (fold_left byte_step (take (Z.to_nat n) p) c).
Proof.
  revert c n. induction p as [|b p IH]; intros c n Hn; unfold len in *; simpl length in Hn;
    cbn [_crc32c_soft]; destruct (Z.eqb_spec n 0) as [->|Hne];
    [reflexivity|lia|reflexivity|].
  rewrite table_step, IH by lia. replace (Z.to_nat n) with (S (Z.to_nat (n - 1))) by lia.
  by rewrite firstn_cons, fold_left_step.
Qed.

Section sse.
Context `{CpuSpec}.

Lemma crc32b_step c b : 0 <= c < 2 ^ 32 -> crc32b c (byte.unsigned b) = byte_step c b.
Proof.
  intros Hc. pose proof (byte.unsigned_range b) as Hb.
  by rewrite crc32b_spec, crc32_operation_circuit.
Qed.

Lemma byte_loop p c n : 0 <= c < 2 ^ 32 -> 0 <= n <= len p ->
  _crc32c_sse42_byte c p n = Ret (fold_left byte_step (take (Z.to_nat n) p) c).
Proof.
  revert c n. induction p as [|b p IH]; intros c n Hc Hn; unfold len in *; simpl length in Hn;
    cbn [_crc32c_sse42_byte]; destruct (Z.eqb_spec n 0) as [->|Hne];
    [reflexivity|lia|reflexivity|].
  rewrite crc32b_step, IH by (done || lia || by apply byte_step_range).
  replace (Z.to_nat n) with (S (Z.to_nat (n - 1))) by lia. by rewrite firstn_cons, fold_left_step.
Qed.

Lemma crc32q_steps c d : 0 <= c < 2 ^ 32 -> length d = 8%nat ->
  crc32q c (le_combine d) = fold_left byte_step d c.
Proof.
  intros Hc Hd. rewrite crc32q_spec; [|done|].
  - rewrite <- crc32_operation_bytes by done. by rewrite Hd.
  - pose proof (le_combine_range d) as Hr. unfold len in Hr. by rewrite Hd in Hr.
Qed.

Lemma quad_loop_spec n p c : 0 <= c < 2 ^ 32 -> (8 * n <= length p)%nat ->
  quad_loop c p (Z.of_nat n)
  = Ret (fold_left byte_step (take (8 * n) p) c, drop (8 * n) p).
Proof.
  revert p c. induction n as [|n IH]; intros p c Hc Hn; [by destruct p|].
  do 8 (destruct p as [|? p]; [simpl in Hn; lia|]). cbn [quad_loop].
  destruct (Z.eqb_spec (Z.of_nat (S n)) 0) as [|_]; [lia|].
  rewrite crc32q_steps by done. replace (Z.of_nat (S n) - 1) with (Z.of_nat n) by lia.
  rewrite IH by (simpl in Hn; lia || by apply fold_byte_step_range).
  replace (8 * S n)%nat with (S (S (S (S (S (S (S (S (8 * n)))))))))%nat by lia.
  by rewrite !firstn_cons, !fold_left_step.
Qed.

Lemma sse42_spec c p n : 0 <= c < 2 ^ 32 -> 0 <= n <= len p ->
  _crc32c_sse42 c p n = Ret (fold_left byte_step (take (Z.to_nat n) p) c).
Proof.
  intros Hc Hn. unfold _crc32c_sse42. rewrite Z.shiftr_div_pow2 by done.
  change 0x7 with (Z.ones 3). rewrite Z.land_ones by done. change (2 ^ 3) with 8.
  pose proof (Z.div_mod n 8 ltac:(lia)) as Hdm. pose proof (Z.mod_pos_bound n 8 ltac:(lia)).
  set (q := Z.to_nat (n / 8)). assert (0 <= n / 8) by (apply Z.div_pos; lia).
  replace (n / 8) with (Z.of_nat q) by lia.
  rewrite quad_loop_spec by (done || unfold len in Hn; lia).
  replace (take (Z.to_nat n) p)
    with (take (8 * q) p ++ take (Z.to_nat (n mod 8)) (drop (8 * q) p)).
  2: { rewrite take_take_drop. f_equal. lia. }
  rewrite fold_left_app. destruct (Z.eqb_spec (n mod 8) 0) as [->|Hne]; [done|]. simpl negb.
  cbv iota. apply byte_loop; [by apply fold_byte_step_range|]. unfold len in *.
  rewrite length_drop. lia.
Qed.

Lemma generic_spec b c p n : 0 <= c < 2 ^ 32 -> 0 <= n <= len p ->
  _crc32c_generic b c p n = Ret (poly_crc c (take (Z.to_nat n) p)).
Proof.
  intros Hc Hn. rewrite poly_crc_bytes by done. destruct b; [by apply sse42_spec|by apply soft_loop].
Qed.
End sse.

(** ** What OCaml sees *)

(** [String.sub s offset length]. *)
Definition sub (s : bytes) (offset length : Z) : bytes :=
  take (Z.to_nat length) (drop (Z.to_nat offset) s).

Lemma u32_s32 z : u32 (s32 z) = u32 z.
Proof.
  unfold u32, s32. destruct (_ <? _); [by apply Z.mod_mod|].
  by rewrite Zminus_mod, Z_mod_same_full, Z.sub_0_r, !Z.mod_mod.
Qed.

Lemma sub_app s o n m : 0 <= o -> 0 <= n -> 0 <= m ->
  sub s o n ++ sub s (o + n) m = sub s o (n + m).
Proof.
  intros Ho Hn Hm. unfold sub. rewrite !Z2Nat.inj_add, <- drop_drop by done. apply take_take_drop.
Qed.

Lemma poly_crc_app c d e : 0 <= c < 2 ^ 32 -> poly_crc (poly_crc c d) e = poly_crc c (d ++ e).
Proof.
  intros Hc. rewrite (poly_crc_bytes _ e), !poly_crc_bytes by (done || by apply poly_crc_range).
  by rewrite fold_left_app.
Qed.

Section calls.
Context `{CpuSpec}.

Definition finish (final : bool) (r : Z) : Z := s32 (if final then Z.lxor r 0xFFFFFFFF else r).

Lemma advance_inside s o : 0 <= o <= len s -> advance s o = Ret (drop (Z.to_nat o) s).
Proof.
  intros Ho. unfold advance. destruct (Z.leb_spec 0 o), (Z.leb_spec o (len s)); done || lia.
Qed.

Lemma calls_spec v_crc s o n final : 0 <= o -> 0 <= n < 2 ^ 31 -> o + n <= len s ->
  let r := Ret (finish final (poly_crc (u32 v_crc) (sub s o n))) in
  crc32c_string v_crc s o n final = r /\ crc32c_bigarray v_crc s o n final = r.
Proof.
  intros Ho Hn Hl r. unfold crc32c_string, crc32c_bigarray.
  rewrite advance_inside, (s32_small n), u64_small by lia.
  rewrite generic_spec; [|apply u32_range|unfold len in *; rewrite length_drop; lia].
  split; [done|]. destruct (Z.eqb_spec n 0) as [->|]; [|done]. simpl negb. cbv iota.
  subst r. unfold sub, finish. simpl Z.to_nat. rewrite take_0, poly_crc_bytes by apply u32_range. done.
Qed.
End calls.

(** C17: Whichever of its three loops runs (the table, the eight-byte instruction, the
    one-byte instruction for the rest), the checksum of [n] bytes of the buffer is the
    remainder, modulo the CRC-32C polynomial, of the message as one polynomial with the
    given register in front. *)
Theorem crc32c_is_remainder `{CpuSpec} have_sse_4_2 crc buffer n :
  0 <= crc < 2 ^ 32 -> 0 <= n <= len buffer ->
  _crc32c_generic have_sse_4_2 crc buffer n = Ret (poly_crc crc (take (Z.to_nat n) buffer)).
Proof. apply generic_spec. Qed.

Lemma crc32c_is_remainder_witness :
  _crc32c_generic true 0xFFFFFFFF (str "123456789") 9 = Ret 0x1CF96D7C /\
  _crc32c_generic false 0xFFFFFFFF (str "123456789") 9 = Ret 0x1CF96D7C.
Proof.
  split; (etransitivity; [apply (crc32c_is_remainder _ 0xFFFFFFFF (str "123456789") 9);
    [by vm_compute|by vm_compute]|vm_compute; reflexivity]).
Defined.

(** Feeding the result for one range of a string (or bigarray) into the call for the
    range behind it gives the checksum of the two together, whatever sign OCaml's
    [int32] shows in between. *)
Theorem crc32c_incremental `{CpuSpec} v_crc s o n m final :
  0 <= o -> 0 <= n < 2 ^ 31 -> 0 <= m < 2 ^ 31 -> n + m < 2 ^ 31 -> o + n + m <= len s ->
  exists r, crc32c_string v_crc s o n false = Ret r /\
    crc32c_bigarray r s (o + n) m final = crc32c_string v_crc s o (n + m) final.
Proof.
  intros Ho Hn Hm Hnm Hl. eexists. split; [apply calls_spec; lia|].
  rewrite (proj2 (calls_spec _ s (o + n) m final ltac:(lia) Hm Hl)).
  rewrite (proj1 (calls_spec v_crc s o (n + m) final Ho ltac:(lia) ltac:(lia))).
  unfold finish at 2. rewrite u32_s32, (u32_small (poly_crc _ _)) by apply poly_crc_range, u32_range.
  by rewrite poly_crc_app, sub_app by (lia || apply u32_range).
Qed.

Lemma crc32c_incremental_witness : exists r,
  crc32c_string (-1) (str "123456789") 0 4 false = Ret r /\
  crc32c_bigarray r (str "123456789") (0 + 4) 5 true
  = crc32c_string (-1) (str "123456789") 0 (4 + 5) true.
Proof. apply (crc32c_incremental (-1) (str "123456789") 0 4 5 true); by vm_compute. Defined.

(** [Int_val] keeps 32 bits of the length: a range of 4 GiB counts as empty. *)
Lemma length_truncated `{Cpu} v_crc s o n final :
  crc32c_bigarray v_crc s o (n + 2 ^ 32) final = crc32c_bigarray v_crc s o n final.
Proof.
  unfold crc32c_bigarray. replace (s32 (n + 2 ^ 32)) with (s32 n); [done|]. unfold s32.
  by rewrite (Zplus_mod n (2 ^ 32)), Z_mod_same_full, Z.add_0_r, Z.mod_mod.
Qed.
