(* ===== verification/PartialRead.v ===== *)
(** * Sending slices of a file: [alba_partial_read_stubs.c]

    The job that lwt runs on a worker thread: open the file, advise the kernel,
    [sendfile] every slice to the socket, advise again, close; the functions that
    build the job from OCaml's values and turn its outcome into one.  The system
    calls are a parameter, the class [Kernel]; [KernelSpec] states what their manual
    pages promise for a file and a socket.  A [malloc]ed word nobody has written is
    [None], and reading it is [Undef].  The loop around [sendfile] takes [fuel], the
    number of calls; without an answer after that many calls it is still running
    ([None]).  The loop ends when every call makes progress or is followed by a
    successful [poll] ([partial_read_sends_slices]); behind the end of the file it
    never does ([read_past_end_never_returns]). *)

From S2P Require Import Prelude Doubles.

Local Open Scope Z_scope.
Local Open Scope alba_scope.

(** ** The system calls *)

Class Kernel (W : Type) := {
  (** Seconds and microseconds. *)
  gettimeofday : W -> (Z * Z) * W;
  open_rdonly : bytes -> W -> Z * W;
  posix_fadvise : Z -> Z -> Z -> Z -> W -> Z * W;
  (** Out, in, offset, count; the result and the offset afterwards. *)
  sendfile : Z -> Z -> Z -> Z -> W -> (Z * Z) * W;
  (** [poll] on one descriptor for an event, without a timeout; the result and [revents]. *)
  poll : Z -> Z -> W -> (Z * Z) * W;
  close : Z -> W -> Z * W;
  errno : W -> Z;
  EAGAIN : Z;
  EWOULDBLOCK : Z;
  POLLOUT : Z;
  POSIX_FADV_RANDOM : Z;
  POSIX_FADV_WILLNEED : Z;
  POSIX_FADV_DONTNEED : Z }.

(** [struct job_partial_read]; the fields lwt owns are left out. *)
Record job_partial_read := Make_job {
  result : option Z;
  errno_copy : option Z;
  n_slices : Z;
  path : bytes;
  socket : Z;
  offsets : list (option Z);
  lens : list (option Z);
  use_fadvise : bool;
  took : option double }.

Section worker.
Context `{Kernel W}.

Abbreviation W_ := (M (job_partial_read * W)).

Definition sys {A} (f : W -> A * W) : W_ A := fun s =>
  let '(a, w) := f s.2 in (Ret a, (s.1, w)).
Definition job : W_ job_partial_read := gets fst.

Definition set_result (r e : Z) (j : job_partial_read) : job_partial_read :=
  Make_job (Some r) (Some e) (n_slices j) (path j) (socket j) (offsets j) (lens j)
    (use_fadvise j) (took j).
Definition set_took (t : double) (j : job_partial_read) : job_partial_read :=
  Make_job (Some 0) (errno_copy j) (n_slices j) (path j) (socket j) (offsets j) (lens j)
    (use_fadvise j) (Some t).

(** [job->result = r; job->errno_copy = e; close(in_fd); return;]: [false] ends the
    worker. *)
Definition fail_with (r e in_fd : Z) : W_ bool :=
  modify (fun s => (set_result r e s.1, s.2)) ;;
  sys (close in_fd) ;;
  mret false.

(** [job->offsets[pos]] and [job->lens[pos]]. *)
Definition element (l : list (option Z)) (pos : nat) : W_ Z :=
  match l !! pos with Some (Some z) => mret z | _ => mout Undef end.
Definition slice_at (pos : nat) : W_ (Z * Z) :=
  j ← job;
  offset ← element (offsets j) pos;
  len ← element (lens j) pos;
  mret (offset, len).

(** [while (pos < n) { ... pos++; }] for the [k] positions from [pos] on. *)
Fixpoint advise_slices (k pos : nat) (in_fd advice : Z) : W_ bool :=
  match k with
  | O => mret true
  | S k =>
      s ← slice_at pos;
      r ← sys (posix_fadvise in_fd s.1 s.2 advice);
      if negb (r =? 0) then fail_with r r in_fd
      else advise_slices k (S pos) in_fd advice
  end.

Definition advise_start (in_fd : Z) : W_ bool :=
  r ← sys (posix_fadvise in_fd 0 0 POSIX_FADV_RANDOM);
  if negb (r =? 0) then fail_with r r in_fd
  else
    j ← job;
    advise_slices (Z.to_nat (n_slices j)) 0 in_fd POSIX_FADV_WILLNEED.

(** What follows a call that returned -1: whether to go on. *)
Definition would_block : W_ bool :=
  w ← gets snd;
  if (errno w =? EAGAIN) || (errno w =? EWOULDBLOCK) then
    j ← job;
    p ← sys (poll (socket j) POLLOUT);
    mret ((p.1 =? 1) && (p.2 =? POLLOUT))
  else mret false.

(** The [do ... while (todo > 0)] loop of one slice; [int sent] takes the result. *)
Fixpoint send_slice (fuel : nat) (in_fd offset todo : Z) : W_ (option bool) :=
  match fuel with
  | O => mret None
  | S fuel =>
      j ← job;
      r ← sys (sendfile (socket j) in_fd offset (u64 todo));
      let sent := s32 r.1 in
      if sent =? -1 then
        ok ← would_block;
        if negb ok then
          w ← gets snd;
          b ← fail_with (-1) (errno w) in_fd;
          mret (Some b)
        else if 0 <? todo then send_slice fuel in_fd r.2 todo else mret (Some true)
      else
        let todo := s32 (todo - sent) in
        if 0 <? todo then send_slice fuel in_fd r.2 todo else mret (Some true)
  end.

Fixpoint send_slices (fuel : nat) (k pos : nat) (in_fd : Z) : W_ (option bool) :=
  match k with
  | O => mret (Some true)
  | S k =>
      s ← slice_at pos;
      b ← send_slice fuel in_fd s.1 s.2;
      match b with
      | Some true => send_slices fuel k (S pos) in_fd
      | b => mret b
      end
  end.

(** The time between two readings, in milliseconds. *)
Definition elapsed (t0 t1 : Z * Z) : double :=
  dadd (dmul (of_int (t1.1 - t0.1)) (of_int 1000)) (dmul (of_int (t1.2 - t0.2)) (literal 1 1000)).

(** What follows a successful [open]; [None]: a slice's loop is still running after
    [fuel] calls. *)
Definition work_on (fuel : nat) (t0 : Z * Z) (in_fd : Z) : W_ (option unit) :=
  j ← job;
  ok ← (if use_fadvise j then advise_start in_fd else mret true);
  if negb ok then mret (Some tt) else
  sent ← send_slices fuel (Z.to_nat (n_slices j)) 0 in_fd;
  match sent with
  | None => mret None
  | Some false => mret (Some tt)
  | Some true =>
      ok ← (if use_fadvise j then
              advise_slices (Z.to_nat (n_slices j)) 0 in_fd POSIX_FADV_DONTNEED
            else mret true);
      if negb ok then mret (Some tt) else
      sys (close in_fd) ;;
      t1 ← sys gettimeofday;
      modify (fun s => (set_took (elapsed t0 t1) s.1, s.2)) ;;
      mret (Some tt)
  end.

Definition worker_partial_read (fuel : nat) : W_ (option unit) :=
  t0 ← sys gettimeofday;
  j ← job;
  in_fd ← sys (open_rdonly (path j));
  if in_fd =? -1 then
    modify (fun s => (set_result (-1) (errno s.2) s.1, s.2)) ;; mret (Some tt)
  else work_on fuel t0 in_fd.
End worker.

(** [result_partial_read]: the OCaml exception [Unix_error], or the time taken. *)
Inductive caml_result := Unix_error (error : Z) (arg : bytes) | Took (t : double).

Definition result_partial_read (j : job_partial_read) : outcome caml_result :=
  match result j with
  | None => Undef
  | Some r =>
      if r <? 0 then
        match errno_copy j with Some e => Ret (Unix_error e (path j)) | None => Undef end
      else match took j with Some t => Ret (Took t) | None => Undef end
  end.

(** The loop over OCaml's list, writing to the arrays from [pos] on; a write behind
    their end is undefined. *)
Fixpoint fill_slices (offset_lens : list (Z * Z)) (pos : nat) (offsets lens : list (option Z)) :
    outcome (list (option Z) * list (option Z)) :=
  match offset_lens with
  | [] => Ret (offsets, lens)
  | (v_off, v_size) :: rest =>
      if (pos <? length offsets)%nat then
        fill_slices rest (S pos) (<[pos := Some (s32 v_off)]> offsets)
          (<[pos := Some (s32 v_size)]> lens)
      else Undef
  end.

(** The job before the worker runs, with [malloc] succeeding. *)
Definition alba_partial_read_job (path : bytes) (n_slices : Z) (offset_lens : list (Z * Z))
    (socket : Z) (use_fadvise : bool) : outcome job_partial_read :=
  let n := s32 n_slices in
  let fresh := replicate (Z.to_nat n) None in
  match fill_slices offset_lens 0 fresh fresh with
  | Ret (offsets, lens) =>
      Ret (Make_job None None n path (s32 socket) offsets lens use_fadvise None)
  | _ => Undef
  end.

(** ** What the manual pages promise *)

(** [disk w p] is the content of the file named [p], [file w fd] of the open file
    [fd], [sent w s] what has been handed to the socket [s]; [patience w] bounds how
    often [sendfile] will still answer that it would block: the peer reads on. *)
Class KernelSpec (W : Type) `{Kernel W} := {
  disk : W -> bytes -> option bytes;
  file : W -> Z -> option bytes;
  sent : W -> Z -> bytes;
  patience : W -> nat;
  quiet (w w' : W) : Prop :=
    (forall s, sent w' s = sent w s) /\ (patience w' <= patience w)%nat;
  gettimeofday_spec w : quiet w (gettimeofday w).2 /\ disk (gettimeofday w).2 = disk w;
  open_spec p w :
    quiet w (open_rdonly p w).2 /\
    ((open_rdonly p w).1 <> -1 -> file (open_rdonly p w).2 (open_rdonly p w).1 = disk w p);
  posix_fadvise_spec fd o n a w :
    quiet w (posix_fadvise fd o n a w).2 /\ file (posix_fadvise fd o n a w).2 = file w;
  poll_spec s e w : quiet w (poll s e w).2 /\ file (poll s e w).2 = file w;
  close_spec fd w : quiet w (close fd w).2;
  (** An error sends nothing; a success sends some of the bytes asked for, at least one
      unless none was asked for or the file has none left. *)
  sendfile_spec s fd o n w f : file w fd = Some f -> 0 <= o -> 0 <= n < 2 ^ 31 ->
    let '((r, o'), w') := sendfile s fd o n w in
    file w' = file w /\ (patience w' <= patience w)%nat /\
    if r =? -1 then
      o' = o /\ sent w' s = sent w s /\
      (errno w' = EAGAIN \/ errno w' = EWOULDBLOCK -> (patience w' < patience w)%nat)
    else
      0 <= r <= n /\ o' = o + r /\ sent w' s = sent w s ++ take (Z.to_nat r) (drop (Z.to_nat o) f) /\
      (o < len f -> o + r <= len f /\ (0 < n -> 0 < r)) }.

(** A kernel with one file, which sends at most two bytes per call and would block
    [tk_block] times. *)
Record toy_kernel := Toy_kernel { tk_file : bytes; tk_sent : bytes; tk_block : nat; tk_time : Z }.
#[export] Instance toy_Kernel : Kernel toy_kernel := {
  gettimeofday w := ((0, tk_time w), Toy_kernel (tk_file w) (tk_sent w) (tk_block w) (tk_time w + 1500));
  open_rdonly _ w := (3, w);
  posix_fadvise _ _ _ _ w := (0, w);
  sendfile _ _ o n w :=
    match tk_block w with
    | S b => ((-1, o), Toy_kernel (tk_file w) (tk_sent w) b (tk_time w))
    | O =>
        let data := take (Z.to_nat (Z.min 2 n)) (drop (Z.to_nat o) (tk_file w)) in
        ((len data, o + len data), Toy_kernel (tk_file w) (tk_sent w ++ data) O (tk_time w))
    end;
  poll _ _ w := ((1, 4), w);
  close _ w := (0, w);
  errno _ := 11;
  EAGAIN := 11;
  EWOULDBLOCK := 11;
  POLLOUT := 4;
  POSIX_FADV_RANDOM := 1;
  POSIX_FADV_WILLNEED := 3;
  POSIX_FADV_DONTNEED := 4 }.

Example toy_run :
  match alba_partial_read_job (str "f") 2 [(1, 3); (6, 1)] 5 true with
  | Ret j =>
      let '(o, (j', w)) := worker_partial_read 10 (j, Toy_kernel (str "abcdefgh") [] 2 0) in
      o = Ret (Some tt) /\ tk_sent w = str "bcdg" /\ result j' = Some 0
  | _ => False
  end.
Proof. by vm_compute. Qed.

Lemma take_length_take {A} k (l : list A) : take (length (take k l)) l = take k l.
Proof.
  rewrite length_take. destruct (Nat.min_spec k (length l)) as [[_ ->]|[? ->]]; [done|].
  by rewrite !take_ge by lia.
Qed.

#[export] Instance toy_KernelSpec : KernelSpec toy_kernel.
Proof.
  refine {| disk w _ := Some (tk_file w); file w _ := Some (tk_file w);
            sent w _ := tk_sent w; patience := tk_block |}; try done.
  intros s fd o n w f [= <-] Ho Hn. destruct w as [f sn [|b] t]; simpl.
  2: { split_and!; try done; lia. }
  set (data := take (Z.to_nat (Z.min 2 n)) (drop (Z.to_nat o) f)).
  assert (len data = Z.min (Z.min 2 n) (Z.max 0 (len f - o))) as Hd
    by (unfold data, len; rewrite length_take, length_drop; lia).
  destruct (Z.eqb_spec (len data) (-1)); [lia|]. split_and!; try done; try lia.
  unfold len. rewrite Nat2Z.id. unfold data. by rewrite take_length_take.
Defined.

(** ** The worker *)

Section facts.
Context `{KernelSpec W}.
Implicit Types (j : job_partial_read) (w : W).

#[export] Instance quiet_preorder : PreOrder (quiet (W := W)).
Proof.
  split; [by split|]. intros w1 w2 w3 [H1 H2] [H3 H4]. split; [intros s; by rewrite H3|lia].
Qed.

(** [sys] hands a call's answer on. *)
Lemma sys_bind {A B} (f : W -> A * W) (k : A -> M (job_partial_read * W) B) j w :
  (sys f ≫= k) (j, w) = k (f w).1 (j, (f w).2).
Proof. unfold sys, mbind, M_bind. simpl. by destruct (f w). Qed.
Lemma job_bind {B} (k : job_partial_read -> M (job_partial_read * W) B) j w :
  (job ≫= k) (j, w) = k j (j, w).
Proof. done. Qed.

Lemma fail_with_eq r e fd j w :
  fail_with r e fd (j, w) = (Ret false, (set_result r e j, (close fd w).2)).
Proof. unfold fail_with. by rewrite modify_bind, sys_bind. Qed.

Lemma would_block_spec j w : exists ok w', would_block (j, w) = (Ret ok, (j, w')) /\
  quiet w w' /\ file w' = file w /\ (ok = true -> errno w = EAGAIN \/ errno w = EWOULDBLOCK).
Proof.
  unfold would_block. rewrite gets_bind. cbn [snd].
  destruct (Z.eqb_spec (errno w) EAGAIN), (Z.eqb_spec (errno w) EWOULDBLOCK);
    try (do 2 eexists; split; [reflexivity|]; by split_and!);
    cbn [orb]; rewrite job_bind, sys_bind; (do 2 eexists; split; [reflexivity|]);
    destruct (poll_spec (socket j) POLLOUT w); split_and!; auto.
Qed.

(** How far a phase of the worker has come: it goes on with the job untouched, or it
    has recorded a failure; the bytes sent are a beginning of [data]. *)
Definition progress (data : bytes) (s fd : Z) (f : bytes) j w (b : bool) j' w' : Prop :=
  (patience w' <= patience w)%nat /\
  exists m, (m <= length data)%nat /\ sent w' s = sent w s ++ take m data /\
    if b then m = length data /\ j' = j /\ file w' fd = Some f
    else exists r, r <> 0 /\ result j' = Some r.

(** Phases one after the other. *)
Lemma progress_seq d1 d2 s fd f j w w1 b j' w' :
  progress d1 s fd f j w true j w1 -> progress d2 s fd f j w1 b j' w' ->
  progress (d1 ++ d2) s fd f j w b j' w'.
Proof.
  intros (Hp1 & m1 & Hm1 & Hs1 & -> & _ & Hf1) (Hp2 & m2 & Hm2 & Hs2 & Hb). split; [lia|].
  exists (length d1 + m2)%nat. rewrite length_app, take_app_add, Hs2, Hs1, firstn_all, <- app_assoc.
  split; [lia|]. split; [done|]. destruct b; [|done]. by destruct Hb as (-> & -> & ->).
Qed.

Lemma progress_nothing s fd f j w w' : quiet w w' -> file w' fd = Some f ->
  progress [] s fd f j w true j w'.
Proof. intros [Hs Hp] Hf. split; [done|]. exists 0%nat. by rewrite Hs, app_nil_r. Qed.

Lemma progress_failed data s fd f j w r e w' : quiet w w' -> r <> 0 ->
  progress data s fd f j w false (set_result r e j) w'.
Proof.
  intros [Hs Hp] Hr. split; [done|]. exists 0%nat. rewrite Hs, app_nil_r.
  split_and!; [lia|done|by exists r].
Qed.

Lemma progress_after data s fd f j w w1 b j' w' :
  sent w1 s = sent w s -> (patience w1 <= patience w)%nat ->
  progress data s fd f j w1 b j' w' -> progress data s fd f j w b j' w'.
Proof. intros Hs Hp (Hp2 & m & Hm & Hs2 & Hb). split; [lia|]. exists m. by rewrite Hs2, Hs. Qed.

(** One [sendfile] that succeeds. *)
Lemma progress_sent s fd f j w w1 o n : file w1 fd = Some f ->
  (patience w1 <= patience w)%nat -> sent w1 s = sent w s ++ take n (drop o f) ->
  progress (take n (drop o f)) s fd f j w true j w1.
Proof.
  intros Hf Hp Hs. split; [done|]. exists (length (take n (drop o f))). by rewrite firstn_all.
Qed.

Lemma progress_weaken data s fd f j w j' w' :
  progress [] s fd f j w false j' w' -> progress data s fd f j w false j' w'.
Proof.
  intros (Hp & m & Hm & Hs & Hr). split; [done|]. exists 0%nat. simpl in Hm.
  assert (m = 0%nat) as -> by lia. split; [lia|done].
Qed.

(** A slice inside the file is sent: each call either sends a byte of it or uses up
    some patience. *)
Lemma send_slice_spec fuel fd f o todo j w : file w fd = Some f ->
  0 <= o -> 0 <= todo < 2 ^ 31 -> o + todo <= len f -> (Z.to_nat todo + patience w < fuel)%nat ->
  exists b j' w', send_slice fuel fd o todo (j, w) = (Ret (Some b), (j', w')) /\
    progress (take (Z.to_nat todo) (drop (Z.to_nat o) f)) (socket j) fd f j w b j' w'.
Proof.
  revert o todo w. induction fuel as [|fuel IH]; intros o todo w Hf Ho Ht Hin Hfuel; [lia|].
  cbn [send_slice]. rewrite job_bind, sys_bind, u64_small by lia.
  pose proof (sendfile_spec (socket j) fd o todo w f Hf Ho Ht) as Hs.
  destruct (sendfile (socket j) fd o todo w) as [[r o'] w1]. cbn [fst snd].
  destruct Hs as (Hf1 & Hp1 & Hs). destruct (Z.eqb_spec r (-1)) as [->|Hr].
  - destruct Hs as (-> & Hs1 & Hblock). change (s32 (-1) =? -1) with true. cbv iota.
    destruct (would_block_spec j w1) as (ok & w2 & Hwb & [Hs2 Hp2] & Hf2 & Hok).
    rewrite (bind_ret_eq _ _ _ _ _ Hwb).
    assert (file w2 fd = Some f) as Hf' by by rewrite Hf2, Hf1.
    destruct ok; cbn [negb]; cbv iota.
    + specialize (Hblock (Hok eq_refl)). destruct (Z.ltb_spec 0 todo).
      * destruct (IH o todo w2 Hf' Ho Ht Hin ltac:(lia)) as (b & j' & w' & -> & Hp).
        do 3 eexists. split; [done|]. eapply (progress_after _ _ _ _ _ _ w2); [|lia|done].
        by rewrite Hs2.
      * assert (todo = 0) as -> by lia. do 3 eexists. split; [done|]. rewrite take_0.
        eapply (progress_after _ _ _ _ _ _ w2); [by rewrite Hs2|lia|by apply progress_nothing].
    + rewrite gets_bind, (bind_ret_eq _ _ _ _ _ (fail_with_eq _ _ _ _ _)).
      do 3 eexists. split; [done|].
      eapply (progress_after _ _ _ _ _ _ w2); [by rewrite Hs2|lia|].
      apply progress_failed; [apply close_spec|done].
  - destruct Hs as ((Hr0 & Hrn) & -> & Hs1 & Hmore). rewrite (s32_small r) by lia.
    destruct (Z.eqb_spec r (-1)); [lia|]. rewrite (s32_small (todo - r)) by lia.
    assert (file w1 fd = Some f) as Hf' by by rewrite Hf1.
    destruct (Z.ltb_spec 0 (todo - r)).
    + destruct Hmore as [Hle Hpos]; [lia|]. specialize (Hpos ltac:(lia)).
      destruct (IH (o + r) (todo - r) w1 Hf' ltac:(lia) ltac:(lia) ltac:(lia) ltac:(lia))
        as (b & j' & w' & -> & Hp).
      do 3 eexists. split; [done|].
      replace (take (Z.to_nat todo) (drop (Z.to_nat o) f))
        with (take (Z.to_nat r) (drop (Z.to_nat o) f) ++
              take (Z.to_nat (todo - r)) (drop (Z.to_nat (o + r)) f)).
      2: { rewrite Z2Nat.inj_add, <- drop_drop, take_take_drop by lia. f_equal. lia. }
      eapply progress_seq; [|exact Hp]. by apply progress_sent.
    + replace todo with r by lia. do 3 eexists. split; [done|]. by apply progress_sent.
Qed.

Definition slice_data (f : bytes) (s : Z * Z) : bytes := take (Z.to_nat s.2) (drop (Z.to_nat s.1) f).
Definition inside (f : bytes) (s : Z * Z) : Prop :=
  0 <= s.1 /\ 0 <= s.2 < 2 ^ 31 /\ s.1 + s.2 <= len f.

(** The job's arrays hold these slices. *)
Record holds j (slices : list (Z * Z)) : Prop := {
  h_offsets : offsets j = (fun s => Some s.1) <$> slices;
  h_lens : lens j = (fun s => Some s.2) <$> slices;
  h_n : n_slices j = len slices }.

Lemma slice_at_spec {B} (k : Z * Z -> M (job_partial_read * W) B) j w pre s suf :
  holds j (pre ++ s :: suf) -> (slice_at (length pre) ≫= k) (j, w) = k s (j, w).
Proof.
  intros [Ho Hl _]. apply bind_ret_eq. unfold slice_at, element. rewrite job_bind, Ho, Hl.
  rewrite !fmap_app, !lookup_app_r by (by rewrite length_fmap).
  rewrite !length_fmap, Nat.sub_diag. cbn. by destruct s.
Qed.

Lemma send_slices_spec fuel fd f j pre suf w : holds j (pre ++ suf) -> file w fd = Some f ->
  Forall (inside f) suf -> Forall (fun s => Z.to_nat s.2 + patience w < fuel)%nat suf ->
  exists b j' w',
    send_slices fuel (length suf) (length pre) fd (j, w) = (Ret (Some b), (j', w')) /\
    progress (concat (slice_data f <$> suf)) (socket j) fd f j w b j' w'.
Proof.
  revert pre w. induction suf as [|s suf IH]; intros pre w Hj Hf Hin Hfuel.
  { do 3 eexists. split; [done|]. by apply progress_nothing. }
  apply Forall_cons in Hin as [(Ho & Hn & Hl) Hin]. apply Forall_cons in Hfuel as [Hs Hfuel].
  cbn [length send_slices]. rewrite (slice_at_spec _ _ _ _ _ _ Hj).
  destruct (send_slice_spec fuel fd f s.1 s.2 j w Hf Ho Hn Hl Hs) as (b & j1 & w1 & He & Hp).
  rewrite (bind_ret_eq _ _ _ _ _ He). destruct b.
  - destruct Hp as (Hp1 & m & Hm & Hs1 & -> & -> & Hf1).
    destruct (IH (pre ++ [s]) w1) as (b & j' & w' & He' & Hp'); [by rewrite <- app_assoc|done|done| |].
    { eapply Forall_impl; [exact Hfuel|]. intros x Hx. cbn beta in *. lia. }
    rewrite length_app, Nat.add_1_r in He'. rewrite He'. do 3 eexists. split; [done|].
    eapply progress_seq; [|exact Hp']. split; [done|]. by eexists.
  - do 3 eexists. split; [done|]. destruct Hp as (Hp1 & m & Hm & Hs1 & Hr). split; [done|].
    exists m. cbn [fmap list_fmap concat]. rewrite length_app, take_app_le by done.
    split; [fold (slice_data f s) in Hm; lia|done].
Qed.

Lemma advise_slices_spec advice fd f j pre suf w : holds j (pre ++ suf) -> file w fd = Some f ->
  exists b j' w',
    advise_slices (length suf) (length pre) fd advice (j, w) = (Ret b, (j', w')) /\
    progress [] (socket j) fd f j w b j' w'.
Proof.
  revert pre w. induction suf as [|s suf IH]; intros pre w Hj Hf.
  { do 3 eexists. split; [done|]. by apply progress_nothing. }
  cbn [length advise_slices]. rewrite (slice_at_spec _ _ _ _ _ _ Hj), sys_bind.
  destruct (posix_fadvise_spec fd s.1 s.2 advice w) as [Hq Hf1].
  destruct (Z.eqb_spec (posix_fadvise fd s.1 s.2 advice w).1 0) as [Hz|Hr]; cbn [negb]; cbv iota.
  - destruct (IH (pre ++ [s]) (posix_fadvise fd s.1 s.2 advice w).2) as (b & j' & w' & He & Hp);
      [by rewrite <- app_assoc|by rewrite Hf1|].
    rewrite length_app, Nat.add_1_r in He. rewrite He. do 3 eexists. split; [done|].
    eapply progress_after; [apply Hq|apply Hq|done].
  - rewrite fail_with_eq. do 3 eexists. split; [done|].
    eapply progress_failed; [|done]. etransitivity; [exact Hq|apply close_spec].
Qed.

Lemma advise_start_spec fd f j slices w : holds j slices -> file w fd = Some f ->
  exists b j' w', advise_start fd (j, w) = (Ret b, (j', w')) /\
    progress [] (socket j) fd f j w b j' w'.
Proof.
  intros Hj Hf. unfold advise_start. rewrite sys_bind.
  destruct (posix_fadvise_spec fd 0 0 POSIX_FADV_RANDOM w) as [Hq Hf1].
  destruct (Z.eqb_spec (posix_fadvise fd 0 0 POSIX_FADV_RANDOM w).1 0) as [Hz|Hr];
    cbn [negb]; cbv iota.
  - rewrite job_bind, (h_n _ _ Hj). unfold len. rewrite Nat2Z.id.
    destruct (advise_slices_spec POSIX_FADV_WILLNEED fd f j [] slices
      (posix_fadvise fd 0 0 POSIX_FADV_RANDOM w).2 Hj ltac:(by rewrite Hf1)) as (b & j' & w' & He & Hp).
    do 3 eexists. split; [exact He|]. eapply progress_after; [apply Hq|apply Hq|done].
  - rewrite fail_with_eq. do 3 eexists. split; [done|].
    eapply progress_failed; [|done]. etransitivity; [exact Hq|apply close_spec].
Qed.

(** An optional phase. *)
Lemma optional_phase (b : bool) (m : M (job_partial_read * W) bool) s fd f j w :
  file w fd = Some f ->
  (exists ok j' w', m (j, w) = (Ret ok, (j', w')) /\ progress [] s fd f j w ok j' w') ->
  exists ok j' w', (if b then m else mret true) (j, w) = (Ret ok, (j', w')) /\
    progress [] s fd f j w ok j' w'.
Proof.
  intros Hf Hm. destruct b; [done|]. do 3 eexists. split; [done|]. by apply progress_nothing.
Qed.

(** How the worker can end: the slices are sent and the time is recorded, or a failure
    is and a beginning of them is sent. *)
Definition finished (data : bytes) (s : Z) w j' w' : Prop :=
  exists m, (m <= length data)%nat /\ sent w' s = sent w s ++ take m data /\
    ((m = length data /\ exists t, result_partial_read j' = Ret (Took t)) \/
     exists r, r <> 0 /\ result j' = Some r).

Lemma finished_failed data s fd f j w j' w' :
  progress data s fd f j w false j' w' -> finished data s w j' w'.
Proof. intros (_ & m & Hm & Hs & Hr). exists m. auto. Qed.

Lemma finished_took data s fd f j w w' w'' t : progress data s fd f j w true j w' -> quiet w' w'' ->
  finished data s w (set_took t j) w''.
Proof.
  intros (_ & m & Hm & Hs & -> & _) [Hq _]. exists (length data). rewrite Hq.
  split_and!; [done|done|]. left. split; [done|]. by exists t.
Qed.

(** The three phases and the end, on an open file. *)
Lemma work_on_spec fuel (t0 : Z * Z) f slices j w fd :
  holds j slices -> file w fd = Some f -> Forall (inside f) slices ->
  Forall (fun s => Z.to_nat s.2 + patience w < fuel)%nat slices ->
  exists j' w', work_on fuel t0 fd (j, w) = (Ret (Some tt), (j', w')) /\
    finished (concat (slice_data f <$> slices)) (socket j) w j' w'.
Proof.
  intros Hj Hf Hin Hfuel. unfold work_on. rewrite job_bind.
  assert (Z.to_nat (n_slices j) = length slices) as Hn
    by (rewrite (h_n _ _ Hj); unfold len; apply Nat2Z.id).
  destruct (optional_phase (use_fadvise j) (advise_start fd) (socket j) fd f j w Hf
    (advise_start_spec _ _ _ _ _ Hj Hf)) as (ok & j1 & w1 & He & Hp1).
  rewrite (bind_ret_eq _ _ _ _ _ He). destruct ok; cbn [negb]; cbv iota.
  2: { do 2 eexists. split; [done|]. by eapply finished_failed, progress_weaken. }
  destruct (Hp1) as (Hpat & _ & _ & _ & _ & -> & Hf1). rewrite Hn.
  destruct (send_slices_spec fuel fd f j [] slices w1 Hj Hf1 Hin) as (b & j2 & w2 & He2 & Hp2).
  { eapply Forall_impl; [exact Hfuel|]. intros x Hx. cbn beta in *. lia. }
  rewrite (bind_ret_eq _ _ _ _ _ He2). pose proof (progress_seq _ _ _ _ _ _ _ _ _ _ _ Hp1 Hp2) as Hp12.
  destruct b.
  2: { do 2 eexists. split; [done|]. by eapply finished_failed. }
  destruct (Hp2) as (_ & _ & _ & _ & _ & -> & Hf2).
  destruct (optional_phase (use_fadvise j) (advise_slices (length slices) 0 fd POSIX_FADV_DONTNEED)
    (socket j) fd f j w2 Hf2 (advise_slices_spec _ _ _ _ [] _ _ Hj Hf2)) as (ok & j3 & w3 & He3 & Hp3).
  rewrite (bind_ret_eq _ _ _ _ _ He3). pose proof (progress_seq _ _ _ _ _ _ _ _ _ _ _ Hp12 Hp3) as Hp.
  rewrite app_nil_r in Hp. destruct ok; cbn [negb]; cbv iota.
  2: { do 2 eexists. split; [done|]. by eapply finished_failed. }
  destruct (Hp3) as (_ & _ & _ & _ & _ & -> & _). rewrite !sys_bind, modify_bind.
  do 2 eexists. split; [done|]. eapply finished_took; [exact Hp|].
  etransitivity; [apply close_spec|apply gettimeofday_spec].
Qed.

(** Building the job. *)
Definition no_truncation (s : Z * Z) : Prop := 0 <= s.1 < 2 ^ 31 /\ 0 <= s.2 < 2 ^ 31.

Lemma fill_slices_spec done_ rest : Forall no_truncation rest ->
  fill_slices rest (length done_)
    (((fun s => Some s.1) <$> done_) ++ replicate (length rest) None)
    (((fun s => Some s.2) <$> done_) ++ replicate (length rest) None)
  = Ret ((fun s => Some s.1) <$> done_ ++ rest, (fun s => Some s.2) <$> done_ ++ rest).
Proof.
  revert done_. induction rest as [|[o n] rest IH]; intros done_ Hr.
  { by rewrite !app_nil_r. }
  apply Forall_cons in Hr as [[Ho Hn] Hr]. cbn [fst snd] in *. cbn [fill_slices length replicate].
  rewrite length_app, length_fmap. cbn [length].
  destruct (Nat.ltb_spec (length done_) (length done_ + S (length (replicate (length rest) (@None Z)))));
    [|lia].
  rewrite !s32_small by done.
  rewrite <- (length_fmap (fun s : Z * Z => Some s.1) done_) at 2.
  rewrite <- (length_fmap (fun s : Z * Z => Some s.2) done_) at 2.
  rewrite !insert_app_r_alt, !Nat.sub_diag by lia. cbn [insert list_insert].
  specialize (IH (done_ ++ [(o, n)]) Hr).
  rewrite length_app, Nat.add_1_r, !fmap_app, <- !app_assoc in IH. rewrite !fmap_app. exact IH.
Qed.

Lemma job_holds path slices sock fa : Forall no_truncation slices -> len slices < 2 ^ 31 ->
  - 2 ^ 31 <= sock < 2 ^ 31 ->
  exists j, alba_partial_read_job path (len slices) slices sock fa = Ret j /\
    holds j slices /\ socket j = sock /\ PartialRead.path j = path.
Proof.
  intros Hs Hl Hsock. unfold alba_partial_read_job.
  pose proof (len_nonneg slices). rewrite s32_small by lia.
  unfold len at 1 2. rewrite Nat2Z.id. pose proof (fill_slices_spec [] slices Hs) as Hf.
  cbn [fmap list_fmap app length] in Hf. rewrite Hf. eexists. split; [done|].
  split; [by split|]. split; [|done]. cbn. unfold s32.
  destruct (Z.ltb_spec (sock mod 2 ^ 32) (2 ^ 31)) as [Hlt|Hge];
    (destruct (Z.le_gt_cases 0 sock);
     [rewrite Z.mod_small in * by lia; lia
     |replace (sock mod 2 ^ 32) with (sock + 2 ^ 32) in *
        by (rewrite <- (Z_mod_plus_full sock 1), Z.mod_small; lia); lia]).
Qed.
End facts.

(** C19: For slices that lie inside the file (and offsets the code does not truncate) the
    job ends, given one call per byte and per would-block answer of the socket: either the
    slices have been sent completely and in order and OCaml gets the time taken, or a
    failure has been recorded and a beginning of them has been sent. *)
Theorem partial_read_sends_slices `{KernelSpec W} fuel path slices sock use_fadvise w f :
  disk w path = Some f -> Forall (inside f) slices -> Forall no_truncation slices ->
  len slices < 2 ^ 31 -> - 2 ^ 31 <= sock < 2 ^ 31 ->
  Forall (fun s => Z.to_nat s.2 + patience w < fuel)%nat slices ->
  exists j j' w', alba_partial_read_job path (len slices) slices sock use_fadvise = Ret j /\
    worker_partial_read fuel (j, w) = (Ret (Some tt), (j', w')) /\
    finished (concat (slice_data f <$> slices)) sock w j' w'.
Proof.
  intros Hd Hin Ht Hl Hs Hfuel.
  destruct (job_holds path slices sock use_fadvise Ht Hl Hs) as (j & Hj & Hh & <- & <-).
  exists j. unfold worker_partial_read. rewrite sys_bind, job_bind, sys_bind.
  destruct (gettimeofday_spec w) as [[Hs0 Hp0] Hd0].
  destruct (open_spec (PartialRead.path j) (gettimeofday w).2) as [[Hs1 Hp1] Hf1].
  set (w1 := (open_rdonly (PartialRead.path j) (gettimeofday w).2).2) in *.
  set (fd := (open_rdonly (PartialRead.path j) (gettimeofday w).2).1) in *.
  destruct (Z.eqb_spec fd (-1)) as [|Hfd].
  - rewrite modify_bind. do 2 eexists. split_and!; [done..|]. exists 0%nat.
    cbn [snd]. rewrite Hs1, Hs0, app_nil_r. split_and!; [lia|done|]. right. by exists (-1).
  - destruct (work_on_spec fuel (gettimeofday w).1 f slices j w1 fd Hh) as (j' & w' & He & m & Hm & Hsm & Hr);
      [by rewrite Hf1, Hd0|done| |].
    { eapply Forall_impl; [exact Hfuel|]. intros x Hx. cbn beta in *. lia. }
    exists j', w'. split_and!; [done|exact He|]. exists m. by rewrite Hsm, Hs1, Hs0.
Qed.

Lemma partial_read_sends_slices_witness :
  let w := Toy_kernel (str "abcdefgh") [] 2 0 in
  exists j j' w', alba_partial_read_job (str "f") 2 [(1, 3); (6, 1)] 5 true = Ret j /\
    worker_partial_read 10 (j, w) = (Ret (Some tt), (j', w')) /\
    finished (str "bcdg") 5 w j' w'.
Proof.
  apply (partial_read_sends_slices 10 (str "f") [(1, 3); (6, 1)] 5 true
    (Toy_kernel (str "abcdefgh") [] 2 0) (str "abcdefgh")); try done;
    repeat constructor; simpl; try done; lia.
Defined.

(** C37: When a slice starts at or behind the end of the file, [sendfile] answers 0 for
    ever and the loop around it never ends: no number of calls is enough. *)
Theorem read_past_end_never_returns `{Kernel W} (at_end : W -> Prop) fuel fd o todo j w :
  0 < todo < 2 ^ 31 ->
  (forall w n, at_end w -> (sendfile (socket j) fd o n w).1 = (0, o) /\
                           at_end (sendfile (socket j) fd o n w).2) ->
  at_end w ->
  exists w', send_slice fuel fd o todo (j, w) = (Ret None, (j, w')).
Proof.
  intros Ht Hend. revert w. induction fuel as [|fuel IH]; intros w Hw; [by eexists|].
  cbn [send_slice]. rewrite job_bind, sys_bind.
  destruct (Hend w (u64 todo) Hw) as [-> Hw']. cbn [fst snd].
  rewrite !s32_small, Z.sub_0_r by lia. destruct (Z.ltb_spec 0 todo); [|lia]. by apply IH.
Qed.

Lemma read_past_end_never_returns_witness : exists w',
  send_slice 1000 3 8 1 (Make_job None None 1 (str "f") 5 [Some 8] [Some 1] false None,
                         Toy_kernel (str "abcdefgh") [] 0 0)
  = (Ret None, (Make_job None None 1 (str "f") 5 [Some 8] [Some 1] false None, w')).
Proof.
  apply (read_past_end_never_returns (fun w => tk_block w = O /\ tk_file w = str "abcdefgh")).
  - done.
  - intros [f sn b t] n [Hb Hf]. simpl in Hb, Hf. subst b f. simpl.
    change (drop (Z.to_nat 8) (str "abcdefgh")) with (@nil byte). by rewrite take_nil.
  - by split.
Defined.

(** An offset of 2 GiB or more reaches the kernel truncated. *)
Lemma offset_truncated :
  fmap (fun j => offsets j) (match alba_partial_read_job [] 1 [(2 ^ 32 + 7, 1)] 5 false with
                             | Ret j => Some j | _ => None end) = Some [Some 7].
Proof. reflexivity. Qed.

(** A failing [posix_fadvise] is recorded as a positive result, which the OCaml side does
    not take for an error: it reads the time nobody has written. *)
Lemma fadvise_failure_unnoticed j r : 0 < r -> result j = Some r -> took j = None ->
  result_partial_read j = Undef.
Proof. intros Hr Hj Ht. unfold result_partial_read. rewrite Hj, Ht. by destruct (Z.ltb_spec r 0); [lia|]. Qed.
