(* ===== verification/Stubs.v ===== *)
(** * Small OCaml stubs: [posix_stubs.c], [alba_wrappers_stubs.c], [alba_gcrypt_stubs.c]

    File advice and allocation, the resource queries and the libgcrypt set-up call.
    The system calls and library calls are a parameter, the class [Posix].  An OCaml
    exception is a value of [caml_exn]. *)

From S2P Require Import Prelude Stuff.

Local Open Scope Z_scope.
Local Open Scope alba_scope.

Class Posix (W : Type) := {
  errno : W -> Z;
  posix_fadvise : Z -> Z -> Z -> Z -> W -> Z * W;
  fallocate : Z -> Z -> Z -> Z -> W -> Z * W;
  (** The result and [ru_maxrss]. *)
  getrusage : W -> (Z * Z) * W;
  getpid : W -> Z;
  (** [opendir]'s null pointer, or the entries [readdir] will return. *)
  opendir : bytes -> W -> option (list bytes);
  gcry_control_set_thread_cbs : W -> Z * W;
  POSIX_FADV_NORMAL : Z;
  POSIX_FADV_SEQUENTIAL : Z;
  POSIX_FADV_RANDOM : Z;
  POSIX_FADV_NOREUSE : Z;
  POSIX_FADV_WILLNEED : Z;
  POSIX_FADV_DONTNEED : Z }.

Inductive caml_exn :=
  | Invalid_argument (s : bytes)
  | Unix_error (code : Z) (function : bytes)
  | Failure (s : bytes).

Section stubs.
Context `{Posix W}.

(** [uerror] takes the code from [errno]. *)
Definition uerror (function : bytes) (w : W) : caml_exn := Unix_error (errno w) function.

Definition c_advice (advice : Z) : option Z :=
  match advice with
  | 0 => Some POSIX_FADV_NORMAL
  | 1 => Some POSIX_FADV_SEQUENTIAL
  | 2 => Some POSIX_FADV_RANDOM
  | 3 => Some POSIX_FADV_NOREUSE
  | 4 => Some POSIX_FADV_WILLNEED
  | 5 => Some POSIX_FADV_DONTNEED
  | _ => None
  end.

Definition _bs_posix_fadvise (fd offset len advice : Z) (w : W) : option caml_exn * W :=
  match c_advice (s32 advice) with
  | None => (Some (Invalid_argument (str "advice")), w)
  | Some a =>
      let '(ret, w) := posix_fadvise (s32 fd) offset len a w in
      (if negb (ret =? 0) then Some (uerror (str "posix_fadvise") w) else None, w)
  end.

Definition _bs_posix_fallocate (fd mode offset len : Z) (w : W) : option caml_exn * W :=
  let '(ret, w) := fallocate (s32 fd) (s32 mode) offset len w in
  (if ret <? 0 then Some (uerror (str "fallocate") w) else None, w).

(** [Val_int] of a [long]: an OCaml integer has 63 bits. *)
Definition val_int (z : Z) : Z :=
  let r := z mod 2 ^ 63 in if r <? 2 ^ 62 then r else r - 2 ^ 63.

Definition alba_get_maxrss (w : W) : (caml_exn + Z) * W :=
  let '((res, maxrss), w) := getrusage w in
  (if negb (res =? 0) then inl (Failure (str "get_rusage")) else inr (val_int maxrss), w).

(** [snprintf(buf, 64, ...)]. *)
Definition fd_directory (w : W) : bytes := take 63 (str "/proc/" ++ dec (getpid w) ++ str "/fd/").

(** The loop over [readdir]; a null directory stream is undefined. *)
Fixpoint count_entries (entries : list bytes) (fd_count : Z) : Z :=
  match entries with [] => fd_count | _ :: entries => count_entries entries (s32 (fd_count + 1)) end.
Definition alba_get_num_fds (w : W) : outcome Z :=
  match opendir (fd_directory w) w with
  | None => Undef
  | Some entries => Ret (count_entries entries 0)
  end.

Definition gcrypt_set_threads (w : W) : Z * W := gcry_control_set_thread_cbs w.

(** ** Properties *)

Lemma count_entries_length entries n : 0 <= n -> n + len entries < 2 ^ 31 ->
  count_entries entries n = n + len entries.
Proof.
  revert n. induction entries as [|e entries IH]; intros n Hn Hl; simpl.
  - by rewrite Z.add_0_r.
  - rewrite len_cons in *. pose proof (len_nonneg entries). rewrite s32_small, IH by lia. lia.
Qed.

(** The number of open files OCaml is told is three more than the process has
    without the query: [readdir] also returns the two dot entries and the stream's own
    descriptor. *)
Lemma num_fds_counts_dots w fds : len fds + 3 < 2 ^ 31 ->
  opendir (fd_directory w) w = Some (str "." :: str ".." :: fds ++ [str "3"]) ->
  alba_get_num_fds w = Ret (len fds + 3).
Proof.
  intros Hl Hd. unfold alba_get_num_fds. rewrite Hd.
  assert (len (str "." :: str ".." :: fds ++ [str "3"]) = len fds + 3) as He
    by (unfold len; simpl; rewrite length_app; simpl; lia).
  rewrite count_entries_length by lia. by rewrite He.
Qed.

(** [posix_fadvise] returns its error; the exception carries [errno], which it does not
    set. *)
Lemma fadvise_reports_errno fd offset len a w ret w' : 0 <= a < 6 -> ret <> 0 ->
  (forall a', posix_fadvise (s32 fd) offset len a' w = (ret, w')) ->
  _bs_posix_fadvise fd offset len a w = (Some (Unix_error (errno w') (str "posix_fadvise")), w').
Proof.
  intros Ha Hr Hf. unfold _bs_posix_fadvise. rewrite s32_small by lia.
  assert (exists x, c_advice a = Some x) as [x ->].
  { assert (a = 0 \/ a = 1 \/ a = 2 \/ a = 3 \/ a = 4 \/ a = 5) as Hc by lia.
    destruct Hc as [->|[->|[->|[->|[->| ->]]]]]; by eexists. }
  rewrite Hf. by destruct (Z.eqb_spec ret 0).
Qed.
End stubs.

Lemma fadvise_bad_advice `{Posix W} fd offset len a w : 6 <= a < 2 ^ 31 ->
  _bs_posix_fadvise fd offset len a w = (Some (Invalid_argument (str "advice")), w).
Proof.
  intros Ha. unfold _bs_posix_fadvise. rewrite s32_small by lia.
  assert (c_advice a = None) as ->; [|done]. unfold c_advice.
  destruct a as [|p|p]; try lia. do 3 (destruct p as [p|p|]; try lia; try done).
Qed.
