(* ===== verification/AlbaCommon.v ===== *)
(** * Shared types: [alba_common.h] and [alba_common.cc]

    [x_uint64_t], the variable-width 64-bit identifier of OSDs and namespaces: a
    value below [max_int32] travels as 32 bits, any other as the marker
    [max_int32] followed by 64 bits; and the order of the calls that set libgcrypt up. *)

From S2P Require Import Prelude Llio Stuff.

Local Open Scope Z_scope.

Definition max_int32 : Z := 2147483647.

(** [struct x_uint64_t { uint64_t i; }], and its synonyms. *)
Abbreviation x_uint64_t := Z.
Abbreviation osd_t := x_uint64_t.
Abbreviation namespace_t := x_uint64_t.
Abbreviation alba_id_t := bytes.

Definition from_x_uint64 : reader x_uint64_t :=
  i32 ← from_u32;
  if i32 <? max_int32 then mret i32 else from_u64.

Definition to_be_x_uint64 (t : x_uint64_t) : writer :=
  if t <? max_int32 then to_be_u32 (u32 t)
  else to_be_u32 max_int32 ;; to_be_u64 t.

Definition x_uint64_lt (lhs rhs : x_uint64_t) : bool := lhs <? rhs.
Definition print_x_uint64 : printer x_uint64_t := dec.

(** libgcrypt's global set-up calls; [gcry_check_version] is false for a mismatch. *)
Class GcryptInit (W : Type) := {
  gcry_check_version : W -> bool * W;
  gcry_control : Z -> W -> W;
  GCRYCTL_DISABLE_SECMEM : Z;
  GCRYCTL_INITIALIZATION_FINISHED : Z }.

(** A mismatch ends the process ([exit(2)]). *)
Definition initialize_libgcrypt `{GcryptInit W} : M W unit :=
  ok ← (fun w => let '(b, w) := gcry_check_version w in (Ret b, w));
  if negb ok then mout Abort
  else
    modify (gcry_control GCRYCTL_DISABLE_SECMEM) ;;
    modify (gcry_control GCRYCTL_INITIALIZATION_FINISHED).

(** The little-endian format [from] reads (the servers write it). *)
Definition enc_x_uint64 (t : x_uint64_t) : bytes :=
  if t <? max_int32 then le_split 4 t else le_split 4 max_int32 ++ le_split 8 t.
(** The big-endian format of keys. *)
Definition enc_be_x_uint64 (t : x_uint64_t) : bytes :=
  if t <? max_int32 then rev (le_split 4 t) else rev (le_split 4 max_int32) ++ rev (le_split 8 t).

#[export] Instance from_x_uint64_decodes :
  Decodes from_x_uint64 enc_x_uint64 (valid_int 64).
Proof.
  intros t Ht. unfold from_x_uint64, enc_x_uint64, valid_int, max_int32 in *.
  destruct (Z.ltb_spec t 2147483647).
  - rewrite <- (app_nil_r (le_split 4 t)).
    eapply parses_bind; [apply (from_u32_decodes t); split; lia|].
    replace (_ <? _) with true by (symmetry; lia). apply parses_ret.
  - eapply parses_bind; [apply (from_u32_decodes 2147483647); split; lia|].
    by apply (from_u64_decodes t).
Qed.

Lemma to_be_x_uint64_appends t :
  valid_int 64 t -> appends (to_be_x_uint64 t) (enc_be_x_uint64 t).
Proof.
  intros Ht. unfold to_be_x_uint64, enc_be_x_uint64, valid_int, max_int32 in *.
  destruct (Z.ltb_spec t 2147483647).
  - rewrite u32_small by lia. apply to_be_u32_appends. lia.
  - apply appends_bind; [apply to_be_u32_appends; lia|apply (to_be_u64_encodes t)].
Qed.

(** Keys are compared bytewise by the storage: the big-endian form starts with
    four bytes that tell both lengths apart. *)
Lemma length_enc_be_x_uint64 t :
  length (enc_be_x_uint64 t) = if t <? max_int32 then 4%nat else 12%nat.
Proof. unfold enc_be_x_uint64. by destruct (t <? max_int32). Qed.

Lemma rev_le_split_inj n x y :
  0 <= x < 2 ^ (Z.of_nat n * 8) -> 0 <= y < 2 ^ (Z.of_nat n * 8) ->
  rev (le_split n x) = rev (le_split n y) -> x = y.
Proof.
  intros Hx Hy E%(f_equal (@rev byte)). rewrite !rev_involutive in E.
  apply (f_equal le_combine) in E. by rewrite !le_combine_split_small in E.
Qed.

(** The identifier's key form is prefix-free: two identifiers with different keys
    differ whatever follows. *)
Lemma enc_be_x_uint64_inj t1 t2 r1 r2 :
  valid_int 64 t1 -> valid_int 64 t2 ->
  enc_be_x_uint64 t1 ++ r1 = enc_be_x_uint64 t2 ++ r2 -> t1 = t2 /\ r1 = r2.
Proof.
  intros H1 H2. unfold enc_be_x_uint64, valid_int, max_int32 in *.
  destruct (Z.ltb_spec t1 2147483647), (Z.ltb_spec t2 2147483647); rewrite <- ?app_assoc; intros E.
  - apply app_inj_1 in E as [E ->]; [|done]. split; [|done].
    eapply (rev_le_split_inj 4); [simpl; lia..|done].
  - exfalso. apply app_inj_1 in E as [E _]; [|done].
    apply (rev_le_split_inj 4) in E; simpl; lia.
  - exfalso. apply app_inj_1 in E as [E _]; [|done].
    apply (rev_le_split_inj 4) in E; simpl; lia.
  - apply app_inj_1 in E as [_ E]; [|done]. apply app_inj_1 in E as [E ->]; [|done].
    split; [|done]. eapply (rev_le_split_inj 8); [simpl; lia..|done].
Qed.

(** ** Properties *)

(** OSD and namespace identifiers: [from] reads the variable-width form back
    for every 64-bit value, short and long, and [to_be] writes a key form from
    which the identifier and what follows it can be recovered. *)
Theorem x_uint64_formats t :
  valid_int 64 t ->
  parses from_x_uint64 (enc_x_uint64 t) t /\
  appends (to_be_x_uint64 t) (enc_be_x_uint64 t) /\
  (forall t' r r', valid_int 64 t' ->
     enc_be_x_uint64 t ++ r = enc_be_x_uint64 t' ++ r' <-> t = t' /\ r = r').
Proof.
  intros H. split_and!; [by apply from_parses|by apply to_be_x_uint64_appends|].
  intros t' r r' H'. split; [by apply enc_be_x_uint64_inj|by intros [-> ->]].
Qed.

Lemma x_uint64_formats_witness :
  parses from_x_uint64 (le_split 4 2147483647 ++ le_split 8 2147483647) 2147483647 /\
  appends (to_be_x_uint64 2147483647) (rev (le_split 4 2147483647) ++ rev (le_split 8 2147483647)).
Proof.
  destruct (x_uint64_formats 2147483647) as (H1 & H2 & _); [split; vm_compute; congruence|].
  split; [exact H1|exact H2].
Defined.
