(* ===== verification/Checksum.v ===== *)
(** * Checksums: [checksum.h] and [checksum.cc]

    The class hierarchy [Checksum] as a tagged union, comparison ([verify]),
    printing and the wire form. *)

From S2P Require Import Prelude Llio Stuff.

Local Open Scope Z_scope.

Definition SHA_SIZE : Z := 20.

Inductive algo_t := NO_CHECKSUM | SHA1 | CRC32c.

#[export] Instance algo_t_eq_dec : EqDecision algo_t.
Proof. solve_decision. Defined.

(** The subclasses of [Checksum] with their [_digest]. *)
Inductive Checksum :=
  | NoChecksum
  | Sha1 (_digest : bytes)
  | Crc32c (_digest : Z).

#[export] Instance Checksum_eq_dec : EqDecision Checksum.
Proof. solve_decision. Defined.

Definition get_algo (c : Checksum) : algo_t :=
  match c with NoChecksum => NO_CHECKSUM | Sha1 _ => SHA1 | Crc32c _ => CRC32c end.

(** The first [n] bytes behind [s.data()]; the terminating zero may be read, what
    lies beyond it may not. *)
Definition data_prefix (s : bytes) (n : Z) : outcome bytes :=
  if n <=? len s then Ret (take (Z.to_nat n) s)
  else if n =? len s + 1 then Ret (s ++ [Byte.x00])
  else Undef.

Definition to_checksum (c : Checksum) : writer :=
  match c with
  | NoChecksum => message_builder.add_type 1
  | Sha1 digest =>
      message_builder.add_type 2 ;;
      to_u32 SHA_SIZE ;;
      d ← mout (data_prefix digest SHA_SIZE);
      message_builder.add_raw d
  | Crc32c digest => message_builder.add_type 3 ;; to_u32 digest
  end.

(** [static_cast]s to the subclass the tag names. *)
Definition verify (c0 c1 : Checksum) : bool :=
  if decide (get_algo c0 = get_algo c1) then
    match c0, c1 with
    | NoChecksum, _ => true
    | Sha1 d0, Sha1 d1 => bool_decide (d0 = d1)
    | Crc32c d0, Crc32c d1 => d0 =? d1
    | _, _ => false
    end
  else false.

Definition print_algo_t : printer algo_t := fun algo =>
  match algo with
  | NO_CHECKSUM => str "NO_CHECKSUM"
  | SHA1 => str "SHA1"
  | CRC32c => str "Crc32c"
  end.

Definition print_Sha1 (digest : bytes) : bytes :=
  str "Sha1(`" ++ concat ((fun c => dump_hex (byte.unsigned c)) <$> digest) ++ str "`)".
Definition print_Crc32c (d : Z) : bytes :=
  str "Crc32c 0x" ++ dump_hex (Z.shiftr d 24) ++ dump_hex (Z.land (Z.shiftr d 16) 0xff)
    ++ dump_hex (Z.land (Z.shiftr d 8) 0xff) ++ dump_hex (Z.land d 0xff).
Definition print_Checksum : printer Checksum := fun c =>
  match c with
  | NoChecksum => str "NoChecksum()"
  | Sha1 digest => print_Sha1 digest
  | Crc32c d => print_Crc32c d
  end.

(** An unknown tag throws a string literal, which no handler of the library for
    [std::exception] catches. *)
Definition from_checksum : reader Checksum :=
  type ← from_u8;
  match type with
  | 1 => mret NoChecksum
  | 2 => digest ← from_string; mret (Sha1 digest)
  | 3 => d ← from_u32; mret (Crc32c d)
  | _ => mthrow (ExnLiteral (str "serialization error"))
  end.

(** The format, and the values that have one. *)
Definition enc_checksum (c : Checksum) : bytes :=
  match c with
  | NoChecksum => enc_int 1 1
  | Sha1 d => enc_int 1 2 ++ enc_string d
  | Crc32c d => enc_int 1 3 ++ enc_int 4 d
  end.
Definition valid_checksum (c : Checksum) : Prop :=
  match c with
  | NoChecksum => True
  | Sha1 d => len d = SHA_SIZE
  | Crc32c d => valid_int 32 d
  end.

(** ** Facts *)

#[export] Instance from_checksum_decodes : Decodes from_checksum enc_checksum valid_checksum.
Proof.
  intros [|d|d] Hv; unfold enc_checksum.
  - rewrite <- (app_nil_r (enc_int 1 1)).
    eapply parses_bind; [by apply (from_u8_decodes 1)|apply parses_ret].
  - eapply parses_bind; [by apply (from_u8_decodes 2)|].
    by apply parses_bind_ret, from_string_decodes.
  - eapply parses_bind; [by apply (from_u8_decodes 3)|].
    by apply parses_bind_ret, from_u32_decodes.
Qed.

Lemma to_checksum_appends c : valid_checksum c -> appends (to_checksum c) (enc_checksum c).
Proof.
  destruct c as [|d|d]; intros Hv; simpl.
  - apply add_raw_appends.
  - apply (appends_bind _ _ (enc_int 1 2)); [apply add_raw_appends|].
    unfold enc_string. simpl in Hv. rewrite Hv.
    apply (appends_bind _ _ (le_split 4 SHA_SIZE)); [apply to_u32_encodes|].
    unfold data_prefix. rewrite Hv. simpl. unfold SHA_SIZE, len in Hv.
    rewrite take_ge by (unfold SHA_SIZE; lia). apply add_raw_appends.
  - apply (appends_bind _ _ (enc_int 1 3)); [apply add_raw_appends|apply to_u32_encodes].
Qed.

Lemma safe_from_checksum : safe from_checksum.
Proof.
  apply safe_bind; [by apply safe_from_raw; lia|]. intros [|[[]|[]|]|]; try done.
  - apply (safe_bind from_u32); [by apply safe_from_raw; lia|]. intros d. apply safe_ret.
  - apply (safe_bind from_string); [apply safe_from_string|]. intros d. apply safe_ret.
Qed.

(** ** Properties *)

(** [verify] accepts exactly equal checksums: same algorithm and same digest. *)
Theorem verify_spec c0 c1 : verify c0 c1 = true <-> c0 = c1.
Proof.
  unfold verify. destruct c0, c1; simpl; rewrite ?bool_decide_eq_true, ?Z.eqb_eq;
    split; congruence.
Qed.

(** A checksum sent by the client is read back as the same checksum (an SHA-1
    digest being 20 bytes, a CRC 32 bits). *)
Theorem checksum_roundtrip c :
  valid_checksum c ->
  appends (to_checksum c) (enc_checksum c) /\ parses from_checksum (enc_checksum c) c.
Proof. intros Hv. split; [by apply to_checksum_appends|by apply from_parses]. Qed.

Lemma checksum_roundtrip_witness :
  appends (to_checksum (Crc32c 3735928559)) (enc_checksum (Crc32c 3735928559)) /\
  parses from_checksum (enc_checksum (Crc32c 3735928559)) (Crc32c 3735928559).
Proof. apply (checksum_roundtrip (Crc32c 3735928559)). split; vm_compute; congruence. Defined.
