(* ===== verification/Encryption.v ===== *)
(** * Encryption: [encryption.h] and [encryption.cc]

    [EncryptInfo] and its parser, and [Encrypted::partial_decrypt], which decrypts
    a stretch of a fragment that was encrypted as a whole in counter mode.
    libgcrypt is a parameter: the class [Gcrypt] holds the calls the code makes,
    [CtrMode] what the library documents of counter mode (a 16-byte big-endian
    counter incremented modulo 2^128 per block, successive calls continuing the
    key stream).  [toy_gcrypt] instantiates both. *)

From S2P Require Import Prelude Llio.

Local Open Scope Z_scope.
Local Open Scope alba_scope.

Inductive encryption_t := NO_ENCRYPTION | ENCRYPTED.
Inductive algo_t := AES.
Inductive chaining_mode_t := CBC | CTR.
Inductive key_length_t := L256.

#[export] Instance encryption_t_eq_dec : EqDecision encryption_t.
Proof. solve_decision. Defined.
#[export] Instance chaining_mode_t_eq_dec : EqDecision chaining_mode_t.
Proof. solve_decision. Defined.

Record Encrypted := Make_Encrypted {
  algo : algo_t; mode : chaining_mode_t; key_length : key_length_t;
  key_identification : bytes }.

(** The subclasses of [EncryptInfo]. *)
Inductive EncryptInfo := NoEncryption | IsEncrypted (e : Encrypted).

Definition get_encryption (i : EncryptInfo) : encryption_t :=
  match i with NoEncryption => NO_ENCRYPTION | IsEncrypted _ => ENCRYPTED end.
Definition supports_partial_decrypt (i : EncryptInfo) : bool :=
  match i with NoEncryption => true | IsEncrypted e => bool_decide (mode e = CTR) end.
Definition print_EncryptInfo (i : EncryptInfo) : bytes :=
  match i with NoEncryption => str "NoEncryption()" | IsEncrypted _ => str "Encrypted()" end.

Definition print_algo_t (a : algo_t) : bytes := match a with AES => str "AES" end.
Definition print_chaining_mode_t (m : chaining_mode_t) : bytes :=
  match m with CBC => str "CBC" | CTR => str "CTR" end.
(** The second case falls through to the default. *)
Definition print_encryption_t (e : encryption_t) : bytes :=
  match e with
  | NO_ENCRYPTION => str "NO_ENCRYPTION"
  | ENCRYPTED => str "ENCRYPTED" ++ str "?encryption?"
  end.

(** ** [from] *)

Definition from_chaining_mode : reader chaining_mode_t :=
  type ← from_u8;
  match type with
  | 1 => mret CBC
  | 2 => mret CTR
  | _ => mout (throw_deser (str "unknown chaining_mode"))
  end.

Definition from_key_length : reader key_length_t :=
  type ← from_u8;
  match type with
  | 1 => mret L256
  | _ => mout (throw_deser (str "unknown key_length"))
  end.

Definition from_algo : reader algo_t :=
  type ← from_u8;
  match type with
  | 1 => mret AES
  | _ => mout (throw_deser (str "unknown algo"))
  end.

Definition from_Encrypted : reader Encrypted :=
  a ← from_algo;
  md ← from_chaining_mode;
  kl ← from_key_length;
  tag ← from_u8;
  (if tag =? 1 then mret tt else mout Abort) ;;
  ki ← from_string;
  (guard len ki =? 32 orelse
     ExnDeserialisation (Deserialisation_exception (str "key length != 32"))) ;;
  mret (Make_Encrypted a md kl ki).

Definition from_EncryptInfo : reader EncryptInfo :=
  type ← from_u8;
  match type with
  | 1 => mret NoEncryption
  | 2 => awk ← from_Encrypted; mret (IsEncrypted awk)
  | _ => mout (throw_deser (str "unknown encryption scheme)"))
  end.

(** The format. *)
Definition enc_mode (m : chaining_mode_t) : bytes :=
  enc_int 1 (match m with CBC => 1 | CTR => 2 end).
Definition enc_Encrypted (e : Encrypted) : bytes :=
  enc_int 1 1 ++ enc_mode (mode e) ++ enc_int 1 1 ++ enc_int 1 1
    ++ enc_string (key_identification e).
Definition enc_EncryptInfo (i : EncryptInfo) : bytes :=
  match i with
  | NoEncryption => enc_int 1 1
  | IsEncrypted e => enc_int 1 2 ++ enc_Encrypted e
  end.
Definition valid_EncryptInfo (i : EncryptInfo) : Prop :=
  match i with NoEncryption => True | IsEncrypted e => len (key_identification e) = 32 end.

(** ** libgcrypt *)

(** The cipher calls, each with its return code and the handle it leaves. *)
Class Gcrypt := {
  gcry_hd : Type;
  gcry_cipher_open : Z * gcry_hd;
  gcry_cipher_setkey : gcry_hd -> bytes -> Z * gcry_hd;
  gcry_cipher_setctr : gcry_hd -> bytes -> Z * gcry_hd;
  gcry_cipher_decrypt : gcry_hd -> bytes -> Z * gcry_hd * bytes }.

(** Byte [i] of the key stream that starts at counter [c], for a block function [E]. *)
Definition keystream (E : Z -> bytes) (c i : Z) : byte :=
  nth (Z.to_nat (i mod 16)) (E ((c + i / 16) mod 2 ^ 128)) Byte.x00.
Definition byte_xor (a b : byte) : byte :=
  byte.of_Z (Z.lxor (byte.unsigned a) (byte.unsigned b)).
(** [buf] as it stands at position [n] of the stream. *)
Definition xor_stream (E : Z -> bytes) (c n : Z) (buf : bytes) : bytes :=
  imap (fun i b => byte_xor b (keystream E c (n + Z.of_nat i))) buf.

(** Counter mode as documented: [stream_at hd key c n] says that the handle has
    the key, started at counter [c], and has produced [n] bytes. *)
Class CtrMode (G : Gcrypt) (E : bytes -> Z -> bytes) := {
  has_key : gcry_hd -> bytes -> Prop;
  stream_at : gcry_hd -> bytes -> Z -> Z -> Prop;
  ctr_open : fst gcry_cipher_open = 0;
  ctr_setkey key : len key = 32 ->
    exists hd, gcry_cipher_setkey (snd gcry_cipher_open) key = (0, hd) /\ has_key hd key;
  ctr_setctr hd key ctr : has_key hd key -> len ctr = 16 ->
    exists hd', gcry_cipher_setctr hd ctr = (0, hd') /\
      stream_at hd' key (le_combine (rev ctr)) 0;
  ctr_decrypt hd key c n buf : stream_at hd key c n ->
    exists hd', gcry_cipher_decrypt hd buf = (0, hd', xor_stream (E key) c n buf) /\
      stream_at hd' key c (n + len buf) }.

(** ** [Encrypted::partial_decrypt] *)

Section partial_decrypt.
Context `{G : Gcrypt}.

(** The buffer, decrypted in place, and the number of cipher handles open. *)
Record decrypt_state := Decrypt_state { ds_buf : bytes; ds_open : Z }.

Definition open_handle : M decrypt_state (Z * gcry_hd) := fun s =>
  let '(rc, hd) := gcry_cipher_open in
  (Ret (rc, hd), Decrypt_state (ds_buf s) (if rc =? 0 then ds_open s + 1 else ds_open s)).
Definition gcry_cipher_close : M decrypt_state unit :=
  modify (fun s => Decrypt_state (ds_buf s) (ds_open s - 1)).
Definition decrypt_buf (hd : gcry_hd) : M decrypt_state (Z * gcry_hd) := fun s =>
  let '(rc, hd, buf) := gcry_cipher_decrypt hd (ds_buf s) in
  (Ret (rc, hd), Decrypt_state buf (ds_open s)).

(** The counter block as two big-endian words. *)
Definition ctr_words (ctr : bytes) : outcome (Z * Z) :=
  fst ((high ← from_be_u64; low ← from_be_u64; mret (high, low))
         (message.make (message_buffer.from_string ctr))).

(** 128-bit addition on [uint64_t]s: the carry is detected before it is lost. *)
Definition ctr_add (high low skip_blocks : Z) : Z * Z :=
  let low2 := u64 (low + skip_blocks) in
  let high2 := if 2 ^ 64 - 1 - low <? skip_blocks then u64 (high + 1) else high in
  (high2, low2).

Definition ctr_block (high2 low2 : Z) : outcome bytes :=
  match (to_be_u64 high2 ;; to_be_u64 low2) message_builder.make with
  | (Ret _, mb) => Ret (message_builder.as_string_no_size mb)
  | (Throw e, _) => Throw e
  | (Abort, _) => Abort
  | (Undef, _) => Undef
  end.

(** The calls after the handle is open, each failure closing it. *)
Definition burn_and_decrypt (hd : gcry_hd) (to_burn : Z) : M decrypt_state bool :=
  let '(rc, hd, _) :=
    if 0 <? to_burn then gcry_cipher_decrypt hd (replicate (Z.to_nat to_burn) Byte.x00)
    else (0, hd, []) in
  if negb (rc =? 0) then gcry_cipher_close ;; mret false else
  r ← decrypt_buf hd;
  if negb (r.1 =? 0) then gcry_cipher_close ;; mret false else
  gcry_cipher_close ;; mret true.

Definition keyed_decrypt (hd : gcry_hd) (enc_key ctr_with_offset : bytes) (to_burn : Z) :
    M decrypt_state bool :=
  let '(rc, hd) := gcry_cipher_setkey hd enc_key in
  if negb (rc =? 0) then gcry_cipher_close ;; mret false else
  let '(rc, hd) := gcry_cipher_setctr hd ctr_with_offset in
  if negb (rc =? 0) then gcry_cipher_close ;; mret false else
  burn_and_decrypt hd to_burn.

(** [partial_decrypt(buf, len, enc_key, ctr, offset)] with [buf] the [len] bytes;
    [offset] is an [int], and a [uint64_t] from its first use on. *)
Definition partial_decrypt (e : Encrypted) (enc_key ctr : bytes) (offset : Z) :
    M decrypt_state bool :=
  let offset := u64 (s32 offset) in
  if negb (bool_decide (mode e = CTR)) then mret false else
  let block_len := 16 in
  (if len ctr =? block_len then mret tt else mout Abort) ;;
  let skip_blocks := offset / block_len in
  hl ← mout (ctr_words ctr);
  let '(high2, low2) := ctr_add hl.1 hl.2 skip_blocks in
  ctr_with_offset ← mout (ctr_block high2 low2);
  r ← open_handle;
  if negb (r.1 =? 0) then mret false else
  keyed_decrypt r.2 enc_key ctr_with_offset (offset mod block_len).
End partial_decrypt.

(** A concrete instance: the "block cipher" adds the key's length to the counter. *)
Definition toy_block (key : bytes) (c : Z) : bytes := le_split 16 (c + len key).
Record toy_hd := Toy { toy_key : bytes; toy_ctr : Z; toy_pos : Z }.
#[export] Instance toy_gcrypt : Gcrypt := {
  gcry_hd := toy_hd;
  gcry_cipher_open := (0, Toy [] 0 0);
  gcry_cipher_setkey hd key := (0, Toy key (toy_ctr hd) (toy_pos hd));
  gcry_cipher_setctr hd ctr := (0, Toy (toy_key hd) (le_combine (rev ctr)) 0);
  gcry_cipher_decrypt hd buf :=
    (0, Toy (toy_key hd) (toy_ctr hd) (toy_pos hd + len buf),
     xor_stream (toy_block (toy_key hd)) (toy_ctr hd) (toy_pos hd) buf) }.

(** ** Facts about the parser *)

#[export] Instance from_Encrypted_decodes :
  Decodes from_Encrypted enc_Encrypted (fun e => len (key_identification e) = 32).
Proof.
  intros [[] md [] ki] Hv; simpl in Hv. unfold enc_Encrypted; cbn [mode key_identification].
  rewrite <- (app_nil_r (enc_string ki)).
  eapply parses_bind.
  { rewrite <- (app_nil_r (enc_int 1 1)).
    eapply parses_bind; [by apply (from_u8_decodes 1)|apply parses_ret]. }
  eapply parses_bind.
  { rewrite <- (app_nil_r (enc_mode md)).
    eapply (parses_bind _ _ _ _ (match md with CBC => 1 | CTR => 2 end));
      [by destruct md; apply (from_u8_decodes _)|destruct md; apply parses_ret]. }
  eapply parses_bind.
  { rewrite <- (app_nil_r (enc_int 1 1)).
    eapply parses_bind; [by apply (from_u8_decodes 1)|apply parses_ret]. }
  eapply parses_bind; [by apply (from_u8_decodes 1)|].
  rewrite <- (app_nil_l (enc_string ki ++ [])). eapply parses_bind; [apply parses_ret|].
  eapply parses_bind; [by apply from_string_decodes|]. rewrite Hv. simpl.
  rewrite <- (app_nil_l []). eapply parses_bind; [apply parses_ret|apply parses_ret].
Qed.

#[export] Instance from_EncryptInfo_decodes :
  Decodes from_EncryptInfo enc_EncryptInfo valid_EncryptInfo.
Proof.
  intros [|e] Hv; unfold enc_EncryptInfo.
  - rewrite <- (app_nil_r (enc_int 1 1)).
    eapply parses_bind; [by apply (from_u8_decodes 1)|apply parses_ret].
  - eapply parses_bind; [by apply (from_u8_decodes 2)|].
    by apply parses_bind_ret, from_Encrypted_decodes.
Qed.

(** ** Counter arithmetic *)

Lemma lor_shiftl_add a b k :
  0 <= k -> 0 <= a < 2 ^ k -> Z.lor a (Z.shiftl b k) = a + b * 2 ^ k.
Proof.
  intros Hk Ha.
  assert (Z.land a (Z.shiftl b k) = 0) as Hd.
  { apply Z.bits_inj'. intros n Hn. rewrite Z.land_spec, Z.bits_0, Z.shiftl_spec by lia.
    destruct (Z.lt_ge_cases n k).
    - rewrite (Z.testbit_neg_r b) by lia. apply andb_false_r.
    - rewrite <- (Z.mod_small a (2 ^ k)), Z.mod_pow2_bits_high by lia. done. }
  by rewrite <- Z.lxor_lor, <- Z.add_nocarry_lxor, Z.shiftl_mul_pow2.
Qed.

(** The value of a counter block given as two big-endian words. *)
Lemma be_words_value a b :
  length b = 8%nat ->
  le_combine (rev (a ++ b)) = le_combine (rev a) * 2 ^ 64 + le_combine (rev b).
Proof.
  intros Hb. rewrite rev_app_distr, LittleEndianList.le_combine_app, length_rev, Hb.
  pose proof (LittleEndianList.le_combine_bound (rev b)) as Hr.
  rewrite length_rev, Hb in Hr. rewrite lor_shiftl_add; simpl in *; lia.
Qed.

Lemma ctr_words_spec ctr :
  len ctr = 16 ->
  exists high low, ctr_words ctr = Ret (high, low) /\
    0 <= high < 2 ^ 64 /\ 0 <= low < 2 ^ 64 /\
    le_combine (rev ctr) = high * 2 ^ 64 + low.
Proof.
  intros Hl. rewrite <- (take_drop 8 ctr).
  assert (length (take 8 ctr) = 8%nat /\ length (drop 8 ctr) = 8%nat) as [Ha Hb].
  { unfold len in Hl. rewrite length_take, length_drop. lia. }
  set (a := take 8 ctr) in *. set (b := drop 8 ctr) in *.
  exists (le_combine (rev a)), (le_combine (rev b)).
  assert (forall w : bytes, length w = 8%nat ->
    0 <= le_combine (rev w) < 2 ^ 64 /\ enc_be 8 (le_combine (rev w)) = w) as Hw.
  { intros w Hw. split.
    - pose proof (LittleEndianList.le_combine_bound (rev w)) as Hr.
      by rewrite length_rev, Hw in Hr.
    - unfold enc_be. rewrite LittleEndianList.split_le_combine' by by rewrite length_rev.
      apply rev_involutive. }
  destruct (Hw a Ha) as [Hra Hea], (Hw b Hb) as [Hrb Heb].
  split_and!; [|lia..|by apply be_words_value].
  unfold ctr_words, message_buffer.from_string.
  destruct (message_make_spec (a ++ b)) as (Hwf & Hrem & _).
  { unfold len. rewrite length_app. lia. }
  assert (parses (high ← from_be_u64; low ← from_be_u64; mret (high, low)) (a ++ b)
    (le_combine (rev a), le_combine (rev b))) as HP.
  { rewrite <- Hea at 1. rewrite <- Heb at 1.
    eapply parses_bind; [by apply from_be_u64_decodes|].
    by apply parses_bind_ret, from_be_u64_decodes. }
  by rewrite (HP _ [] Hwf) by by rewrite app_nil_r.
Qed.

Lemma ctr_add_spec high low s :
  0 <= high < 2 ^ 64 -> 0 <= low < 2 ^ 64 -> 0 <= s < 2 ^ 64 ->
  let '(high2, low2) := ctr_add high low s in
  0 <= high2 < 2 ^ 64 /\ 0 <= low2 < 2 ^ 64 /\
  high2 * 2 ^ 64 + low2 = (high * 2 ^ 64 + low + s) mod 2 ^ 128.
Proof.
  intros Hh Hl Hs. unfold ctr_add, u64.
  pose proof (Z.div_mod (low + s) (2 ^ 64) ltac:(lia)) as H1.
  pose proof (Z.mod_pos_bound (low + s) (2 ^ 64) ltac:(lia)) as H2.
  pose proof (Z.div_mod (high + 1) (2 ^ 64) ltac:(lia)) as H3.
  pose proof (Z.mod_pos_bound (high + 1) (2 ^ 64) ltac:(lia)) as H4.
  destruct (Z.ltb_spec (2 ^ 64 - 1 - low) s).
  - assert ((low + s) / 2 ^ 64 = 1) as Hq by (symmetry; apply Z.div_unique_pos with (low + s - 2 ^ 64); lia).
    split_and!; try lia. rewrite Hq in H1.
    destruct (Z.eq_dec high (2 ^ 64 - 1)) as [->|Hne].
    + apply Z.mod_unique_pos with 1; lia.
    + rewrite (Z.mod_small (high + 1)) by lia. apply Z.mod_unique_pos with 0; lia.
  - rewrite Z.mod_small by lia. split_and!; try lia. apply Z.mod_unique_pos with 0; lia.
Qed.

Lemma ctr_block_spec high2 low2 :
  0 <= high2 < 2 ^ 64 -> 0 <= low2 < 2 ^ 64 ->
  exists ctr, ctr_block high2 low2 = Ret ctr /\ len ctr = 16 /\
    le_combine (rev ctr) = high2 * 2 ^ 64 + low2.
Proof.
  intros Hh Hl. exists (enc_be 8 high2 ++ enc_be 8 low2). split_and!.
  - assert (appends (to_be_u64 high2 ;; to_be_u64 low2) (enc_be 8 high2 ++ enc_be 8 low2)) as HA
      by (apply appends_bind; apply to_be_u64_encodes).
    destruct (HA message_builder.make) as (b & E & _ & _ & Hc); [apply wf_make|done|].
    unfold ctr_block. rewrite E. rewrite contents_make in Hc. unfold contents in Hc.
    by rewrite Hc.
  - done.
  - rewrite be_words_value by done. unfold enc_be. rewrite !rev_involutive.
    by rewrite !le_combine_split_small by (simpl; lia).
Qed.

(** Starting the stream [s] blocks on is dropping [16 * s] bytes of it. *)
Lemma keystream_skip E c s i :
  keystream E ((c + s) mod 2 ^ 128) i = keystream E c (16 * s + i).
Proof.
  unfold keystream. rewrite Z.add_mod_idemp_l by lia.
  replace (16 * s + i) with (i + s * 16) by lia.
  rewrite Z.div_add, Z.mod_add by lia. do 3 f_equal. lia.
Qed.

Lemma xor_stream_skip E c s n buf :
  xor_stream E ((c + s) mod 2 ^ 128) n buf = xor_stream E c (16 * s + n) buf.
Proof.
  unfold xor_stream. apply imap_ext. intros i b _. rewrite keystream_skip. do 2 f_equal. lia.
Qed.

(** Decrypting a slice is slicing the decryption. *)
Lemma xor_stream_slice E c off l buf :
  0 <= off ->
  xor_stream E c off (take l (drop (Z.to_nat off) buf))
  = take l (drop (Z.to_nat off) (xor_stream E c 0 buf)).
Proof.
  intros Ho. unfold xor_stream. apply list_eq. intros i.
  rewrite list_lookup_imap. destruct (decide (i < l)%nat).
  - rewrite !lookup_take_lt, !lookup_drop, list_lookup_imap by done.
    destruct (buf !! _) as [b|]; simpl; [|done]. do 3 f_equal. lia.
  - by rewrite !lookup_take_ge by lia.
Qed.

(** ** [partial_decrypt] *)

Section partial_decrypt_facts.
Context {G : Gcrypt} {E : bytes -> Z -> bytes} {CM : CtrMode G E}.

Lemma burn_and_decrypt_spec hd key c to_burn s :
  stream_at hd key c 0 -> 0 <= to_burn ->
  burn_and_decrypt hd to_burn s
  = (Ret true, Decrypt_state (xor_stream (E key) c to_burn (ds_buf s)) (ds_open s - 1)).
Proof.
  intros Hs Hb. unfold burn_and_decrypt.
  assert (exists hd' out,
    (if 0 <? to_burn then gcry_cipher_decrypt hd (replicate (Z.to_nat to_burn) Byte.x00)
     else (0, hd, [])) = (0, hd', out) /\ stream_at hd' key c to_burn) as (hd' & out & -> & Hs').
  { destruct (Z.ltb_spec 0 to_burn).
    - destruct (ctr_decrypt hd key c 0 (replicate (Z.to_nat to_burn) Byte.x00) Hs) as (hd' & -> & H').
      exists hd'. eexists. split; [done|]. unfold len in H'. rewrite length_replicate in H'.
      by replace to_burn with (0 + Z.of_nat (Z.to_nat to_burn)) by lia.
    - exists hd, []. replace to_burn with 0 by lia. done. }
  destruct (ctr_decrypt hd' key c to_burn (ds_buf s) Hs') as (hd'' & Hd & _).
  cbn -[gcry_cipher_decrypt xor_stream]. unfold mbind, M_bind, decrypt_buf.
  rewrite Hd. done.
Qed.

Lemma partial_decrypt_spec e key ctr offset buf n :
  mode e = CTR -> len key = 32 -> len ctr = 16 -> 0 <= offset < 2 ^ 31 ->
  partial_decrypt e key ctr offset (Decrypt_state buf n)
  = (Ret true, Decrypt_state (xor_stream (E key) (le_combine (rev ctr)) offset buf) n).
Proof.
  intros Hm Hk Hc Ho. unfold partial_decrypt.
  rewrite s32_small, u64_small by lia. rewrite bool_decide_true by done. cbn [negb].
  rewrite Hc. cbn [Z.eqb Pos.eqb].
  destruct (ctr_words_spec ctr Hc) as (high & low & Ew & Hh & Hl & Ev).
  pose proof (Z.div_mod offset 16 ltac:(lia)) as Hdm.
  pose proof (Z.mod_pos_bound offset 16 ltac:(lia)) as Hmb.
  assert (0 <= offset / 16 < 2 ^ 64) as Hs by (split; [apply Z.div_pos; lia|lia]).
  pose proof (ctr_add_spec high low (offset / 16) Hh Hl Hs) as Ha.
  destruct (ctr_add high low (offset / 16)) as [high2 low2] eqn:Ea.
  destruct Ha as (Hh2 & Hl2 & Ev2).
  destruct (ctr_block_spec high2 low2 Hh2 Hl2) as (blk & Eb & Hbl & Ebv).
  unfold mbind, M_bind, mret, M_ret, mout, open_handle. rewrite Ew. cbn [fst snd].
  rewrite Ea, Eb.
  pose proof ctr_open as Hop. pose proof (ctr_setkey key Hk) as (hd1 & Esk & Hhk).
  destruct gcry_cipher_open as [rc hd0]. cbn [fst snd] in Hop, Esk. subst rc.
  cbn [fst snd negb Z.eqb]. unfold keyed_decrypt. rewrite Esk. cbn [negb Z.eqb].
  destruct (ctr_setctr hd1 key blk Hhk Hbl) as (hd2 & -> & Hst). cbn [negb Z.eqb].
  rewrite (burn_and_decrypt_spec hd2 key (le_combine (rev blk))) by (done || lia).
  cbn [ds_buf ds_open]. rewrite Ebv, Ev2, <- Ev, xor_stream_skip.
  rewrite <- Hdm. do 2 f_equal. lia.
Qed.
End partial_decrypt_facts.

#[export] Instance toy_ctr_mode : CtrMode toy_gcrypt toy_block.
Proof.
  refine {| has_key := fun hd key => toy_key hd = key;
            stream_at := fun hd key c n => toy_key hd = key /\ toy_ctr hd = c /\ toy_pos hd = n |}.
  - done.
  - intros key _. eexists. split; [reflexivity|done].
  - intros hd key ctr Hk _. eexists. split; [reflexivity|done].
  - intros hd key c n buf (<- & <- & <-). eexists. split; [reflexivity|done].
Defined.

(** The printer of the second case goes on into the default. *)
Lemma print_encryption_falls_through :
  print_encryption_t ENCRYPTED = str "ENCRYPTED" ++ str "?encryption?".
Proof. reflexivity. Qed.

(** ** Properties *)

(** C11: decrypting a slice of a fragment with the counter advanced by
    [offset / 16] blocks and [offset mod 16] bytes burnt yields that slice of the
    fragment decrypted as a whole, carry of the 128-bit counter included, and
    leaves no cipher handle open. *)
Theorem partial_decrypt_slice {G E} {CM : CtrMode G E} e key ctr fragment offset l n :
  mode e = CTR -> len key = 32 -> len ctr = 16 -> 0 <= offset < 2 ^ 31 ->
  partial_decrypt e key ctr offset
    (Decrypt_state (take l (drop (Z.to_nat offset) fragment)) n)
  = (Ret true, Decrypt_state
       (take l (drop (Z.to_nat offset)
          (xor_stream (E key) (le_combine (rev ctr)) 0 fragment))) n).
Proof.
  intros Hm Hk Hc Ho. rewrite partial_decrypt_spec by done.
  by rewrite xor_stream_slice by lia.
Qed.

(** The counter overflows both words between the fragment's start and the slice. *)
Lemma partial_decrypt_slice_witness :
  partial_decrypt (Make_Encrypted AES CTR L256 []) (replicate 32 Byte.x2a)
    (replicate 16 Byte.xff) 21 (Decrypt_state (take 8 (drop 21 (replicate 40 Byte.x00))) 3)
  = (Ret true, Decrypt_state (take 8 (drop 21 (xor_stream (toy_block (replicate 32 Byte.x2a))
       (2 ^ 128 - 1) 0 (replicate 40 Byte.x00)))) 3).
Proof.
  apply (partial_decrypt_slice (CM := toy_ctr_mode) (Make_Encrypted AES CTR L256 [])
    (replicate 32 Byte.x2a) (replicate 16 Byte.xff) (replicate 40 Byte.x00) 21 8 3);
    [reflexivity|reflexivity|reflexivity|lia].
Defined.

(** Whatever libgcrypt returns, every path of [partial_decrypt] after a
    successful [gcry_cipher_open] closes the handle exactly once, and a failed
    open closes nothing. *)
Theorem partial_decrypt_closes_handles {G : Gcrypt} e key ctr offset s :
  ds_open (snd (partial_decrypt e key ctr offset s)) = ds_open s.
Proof.
  unfold partial_decrypt. destruct (negb _); [done|].
  unfold mbind, M_bind, mret, M_ret, mout. destruct (len ctr =? 16); [|done].
  destruct (ctr_words ctr) as [[h l]| | |]; try done. cbn [fst snd].
  destruct (ctr_add h l _) as [h2 l2]. destruct (ctr_block h2 l2) as [blk| | |]; try done.
  unfold open_handle. destruct gcry_cipher_open as [rc hd]. cbn [fst snd].
  destruct (rc =? 0); [|done]. cbn [negb].
  unfold keyed_decrypt, burn_and_decrypt, gcry_cipher_close, decrypt_buf, modify, mbind, M_bind, mret, M_ret.
  destruct (gcry_cipher_setkey hd key) as [rc1 hd1]. destruct (rc1 =? 0); simpl; [|lia].
  destruct (gcry_cipher_setctr hd1 blk) as [rc2 hd2]. destruct (rc2 =? 0); simpl; [|lia].
  destruct (if 0 <? _ then _ else _) as [[rc3 hd3] out]. destruct (rc3 =? 0); simpl; [|lia].
  destruct (gcry_cipher_decrypt hd3 (ds_buf s)) as [[rc4 hd4] out4]. simpl.
  destruct (rc4 =? 0); simpl; lia.
Qed.
