(* ===== verification/OsdInfo.v ===== *)
(** * OSD descriptions: [osd_info.h] and [osd_info.cc]

    [OsdInfo] and [OsdCapabilities] with their parsers and printers. *)

From S2P Require Import Prelude Llio Stuff AlbaCommon.

Local Open Scope Z_scope.
Local Open Scope alba_scope.

Record OsdInfo := Make_OsdInfo {
  kind_asd : bool; long_id : bytes; ips : list bytes; port : Z;
  use_tls : bool; use_rdma : bool; node_id : bytes }.

(** [OsdInfo info;]: the fields without initialiser are indeterminate in the code
    and zero here. *)
Definition default_OsdInfo : OsdInfo := Make_OsdInfo false [] [] 0 false false [].

Record OsdCapabilities := Make_OsdCapabilities {
  rora_port : option Z; rora_transport : option bytes; rora_ips : option (list bytes) }.

Definition default_OsdCapabilities : OsdCapabilities := Make_OsdCapabilities None None None.

Abbreviation info_caps := (OsdInfo * OsdCapabilities)%type.
Abbreviation osd_map_t := (gmap osd_t info_caps).
Abbreviation osd_maps_t := (list (alba_id_t * osd_map_t)).

Definition from_OsdInfo : reader OsdInfo :=
  version ← from_u8;
  (guard version =? 3 orelse ExnDeserialisation (Deserialisation_exception
     (str "unexpected version while deserializing OsdInfo"))) ;;
  inner_s ← from_string;
  on_nested (message.make (message_buffer.from_string inner_s)) (
    kind ← from_u8;
    if negb (kind =? 1) then mret default_OsdInfo else
    ips ← from_vector [] from_string;
    port ← from_u32;
    use_tls ← from_bool;
    use_rdma ← from_bool;
    long_id ← from_string;
    node_id ← from_string;
    mret (Make_OsdInfo true long_id ips port use_tls use_rdma node_id)).

(** The [switch] on a capability's tag.  Case 4 has no [break]: it falls into the
    default, which rejects it when the capability came without a length. *)
Definition capability_switch (tag length : Z) (caps : OsdCapabilities) :
    reader OsdCapabilities :=
  let dflt caps :=
    if length =? 0 then
      mout (throw_deser (str "OsdCapabilities"))
    else mret caps in
  match tag with
  | 1 => mret caps
  | 2 => mret caps
  | 3 =>
      port ← from_u32;
      mret (Make_OsdCapabilities (Some port) (rora_transport caps) (rora_ips caps))
  | 4 =>
      ips ← from_vector [] from_string;
      port ← from_u32;
      transport ← from_string;
      dflt (Make_OsdCapabilities (Some port) (Some transport) (Some ips))
  | _ => dflt caps
  end.

(** What remains of a capability with a length is skipped. *)
Definition capability_end (length pos0 : Z) : reader unit :=
  if length =? 0 then mret tt else
  pos1 ← message.get_pos;
  let actual_length := u32 (pos1 - pos0) in
  if length <? actual_length then mout (throw_deser (str "OsdCapabilities"))
  else if actual_length <? length then message.skip (length - actual_length)
  else mret tt.

Definition from_capability (caps : OsdCapabilities) : reader OsdCapabilities :=
  version ← from_u8;
  length ← (if version =? 1 then mret 0
            else if version =? 2 then from_u32
            else mout (throw_deser
              (str "unexpected version while deserializing OsdCapabilities")));
  pos0 ← message.get_pos;
  tag ← from_u8;
  caps ← capability_switch tag length caps;
  capability_end length pos0 ;;
  mret caps.

Definition from_OsdCapabilities : reader OsdCapabilities :=
  size ← from_u32;
  for_up (Z.to_nat size) from_capability default_OsdCapabilities.

Definition print_bool (b : bool) : bytes := if b then str "1" else str "0".
Definition print_OsdInfo : printer OsdInfo := fun info =>
  str "OsdInfo(" ++ str " port=" ++ dec (port info)
    ++ str ", ips= " ++ print_vector (fun s => s) (ips info)
    ++ str ", use_tls=" ++ print_bool (use_tls info)
    ++ str ", use_rdma=" ++ print_bool (use_rdma info) ++ str ")".
Definition print_OsdCapabilities : printer OsdCapabilities := fun caps =>
  str "OsdCapabilities( rora_port= " ++ print_optional dec (rora_port caps)
    ++ str ", rora_transport= " ++ print_optional (fun s => s) (rora_transport caps)
    ++ str ", rora_ips=" ++ print_optional (print_vector (fun s => s)) (rora_ips caps)
    ++ str ")".

(** ** The formats *)

Definition enc_OsdInfo_inner (i : OsdInfo) : bytes :=
  enc_int 1 1 ++ enc_vector enc_string (ips i) ++ enc_int 4 (port i) ++ enc_bool (use_tls i)
    ++ enc_bool (use_rdma i) ++ enc_string (long_id i) ++ enc_string (node_id i).
(** The server appends what this client does not read. *)
Definition enc_OsdInfo (i : OsdInfo) (extra : bytes) : bytes :=
  enc_int 1 3 ++ enc_string (enc_OsdInfo_inner i ++ extra).
Definition valid_OsdInfo (i : OsdInfo) : Prop :=
  kind_asd i = true /\ valid_int 32 (port i) /\ valid_vector valid_any (ips i).

(** The capabilities a server announces; an unknown one carries its length. *)
Inductive capability :=
  | CMultiGet2
  | CPartialGet
  | CRoraFetcher (port : Z)
  | CRoraFetcher2 (ips : list bytes) (port : Z) (transport : bytes)
  | CUnknown (tag : Z) (payload : bytes).

Definition enc_sized (body : bytes) : bytes := enc_int 1 2 ++ enc_int 4 (len body) ++ body.
Definition enc_capability (c : capability) : bytes :=
  match c with
  | CMultiGet2 => enc_int 1 1 ++ enc_int 1 1
  | CPartialGet => enc_int 1 1 ++ enc_int 1 2
  | CRoraFetcher port => enc_int 1 1 ++ enc_int 1 3 ++ enc_int 4 port
  | CRoraFetcher2 ips port transport =>
      enc_sized (enc_int 1 4 ++ enc_vector enc_string ips ++ enc_int 4 port
                   ++ enc_string transport)
  | CUnknown tag payload => enc_sized (enc_int 1 tag ++ payload)
  end.
Definition valid_capability (c : capability) : Prop :=
  match c with
  | CRoraFetcher port => valid_int 32 port
  | CRoraFetcher2 ips port _ => valid_vector valid_any ips /\ valid_int 32 port
  | CUnknown tag payload => 4 < tag < 2 ^ 8
  | _ => True
  end.
Definition apply_capability (caps : OsdCapabilities) (c : capability) : OsdCapabilities :=
  match c with
  | CRoraFetcher port => Make_OsdCapabilities (Some port) (rora_transport caps) (rora_ips caps)
  | CRoraFetcher2 ips port transport =>
      Make_OsdCapabilities (Some port) (Some transport) (Some ips)
  | _ => caps
  end.
Definition enc_OsdCapabilities (cs : list capability) : bytes :=
  enc_int 4 (len cs) ++ concat (enc_capability <$> cs).

(** ** Facts about the parsers *)

Lemma from_OsdInfo_parses i extra :
  valid_OsdInfo i -> parses from_OsdInfo (enc_OsdInfo i extra) i.
Proof.
  intros (Hk & Hp & Hi). apply parses_small. intros Hs. unfold enc_OsdInfo.
  rewrite <- (app_nil_r (enc_string _)).
  eapply parses_bind; [by apply (from_u8_decodes 3)|].
  rewrite <- (app_nil_l (enc_string _ ++ [])). eapply parses_bind; [apply parses_ret|].
  eapply parses_bind; [by apply from_string_decodes|].
  destruct (message_make_spec (enc_OsdInfo_inner i ++ extra)) as (Hwf & Hrem & _).
  { unfold enc_OsdInfo, enc_string in Hs. rewrite !len_app, !len_le_split in Hs.
    pose proof (len_nonneg (enc_int 1 3)). rewrite len_app. lia. }
  eapply (parses_on_nested _ _ (enc_OsdInfo_inner i) extra); [done..|].
  unfold enc_OsdInfo_inner. destruct i as [k li ip po ut ur ni]; simpl in Hk, Hp, Hi; subst k.
  cbn [ips port use_tls use_rdma long_id node_id].
  eapply parses_bind; [by apply (from_u8_decodes 1)|].
  eapply parses_bind; [by apply (from_vector_decodes [] from_string enc_string valid_any _)|].
  eapply parses_bind; [by apply from_u32_decodes|].
  eapply parses_bind; [by apply from_bool_decodes|].
  eapply parses_bind; [by apply from_bool_decodes|].
  eapply parses_bind; [by apply from_string_decodes|].
  by apply parses_bind_ret, from_string_decodes.
Qed.

(** A capability with a length: the switch reads a prefix of the body, and the
    cursor ends up behind the body. *)
Lemma sized_capability_parses tag pre suf caps caps' :
  valid_int 8 tag ->
  (forall length, length <> 0 -> parses (capability_switch tag length caps) pre caps') ->
  parses (from_capability caps) (enc_sized (enc_int 1 tag ++ pre ++ suf)) caps'.
Proof.
  intros Ht Hsw. apply parses_small. intros Hs. unfold enc_sized in *.
  set (body := enc_int 1 tag ++ pre ++ suf) in *.
  rewrite !len_app in Hs. pose proof (len_nonneg body).
  assert (len body = 1 + len pre + len suf) as Hb
    by (unfold body; rewrite !len_app; change (len (enc_int 1 tag)) with 1; lia).
  pose proof (len_nonneg pre). pose proof (len_nonneg suf).
  change (len (enc_int 1 2)) with 1 in Hs. change (len (enc_int 4 (len body))) with 4 in Hs.
  eapply parses_bind; [by apply (from_u8_decodes 2)|].
  eapply parses_bind; [apply (from_u32_decodes (len body)); split; lia|].
  intros m rest Hwf E.
  rewrite (bind_ret_eq message.get_pos _ m (u32 (message._pos m)) m eq_refl).
  unfold body in E. rewrite <- !app_assoc in E.
  assert (remaining (advance 1 m) = pre ++ suf ++ rest) as E1
    by apply (remaining_advance m (enc_int 1 tag) _ Hwf E).
  assert (wf_message (advance 1 m)) as Hw1.
  { apply wf_advance; [done|]. pose proof (remaining_split m (enc_int 1 tag) _ Hwf E) as Hl.
    change (len (enc_int 1 tag)) with 1 in Hl. lia. }
  rewrite (bind_ret_eq _ _ _ _ _ (from_u8_decodes tag Ht m _ Hwf E)).
  change (len (enc_int 1 tag)) with 1.
  rewrite (bind_ret_eq _ _ _ _ _ (Hsw (len body) ltac:(lia) _ _ Hw1 E1)).
  rewrite advance_advance.
  enough (capability_end (len body) (u32 (message._pos m)) (advance (1 + len pre) m)
          = (Ret tt, advance (len body) m)) as Hend by by rewrite (bind_ret_eq _ _ _ _ _ Hend).
  unfold capability_end. replace (len body =? 0) with false by (symmetry; lia).
  pose proof (remaining_split _ _ _ Hw1 E1) as Hl1.
  assert (len suf <= left (advance (1 + len pre) m)) as Hl2.
  { pose proof (remaining_advance _ _ _ Hw1 E1) as E2. rewrite advance_advance in E2.
    eapply remaining_split; [|exact E2]. rewrite <- advance_advance. by apply wf_advance. }
  assert (wf_message (advance (1 + len pre) m)) as Hw2
    by (rewrite <- advance_advance; by apply wf_advance).
  assert (message.get_pos (advance (1 + len pre) m)
          = (Ret (message._pos m + 1 + len pre), advance (1 + len pre) m)) as Hgp.
  { unfold message.get_pos, gets. simpl. destruct Hw2; simpl in *.
    rewrite u32_small by lia. do 2 f_equal. lia. }
  rewrite (bind_ret_eq _ _ _ _ _ Hgp).
  assert (0 <= message._pos m < 2 ^ 31) as Hpm by (destruct Hw2, Hwf; simpl in *; lia).
  rewrite (u32_small (message._pos m)) by lia. rewrite u32_small by (destruct Hw2; simpl in *; lia).
  cbv zeta. replace (len body <? _) with false by (symmetry; lia).
  destruct (Z.ltb_spec (message._pos m + 1 + len pre - message._pos m) (len body)).
  - rewrite skip_spec by (done || lia). rewrite advance_advance. do 2 f_equal. lia.
  - unfold mret, M_ret. do 2 f_equal. lia.
Qed.

Lemma unsized_capability_parses tag bs caps caps' :
  valid_int 8 tag -> parses (capability_switch tag 0 caps) bs caps' ->
  parses (from_capability caps) (enc_int 1 1 ++ enc_int 1 tag ++ bs) caps'.
Proof.
  intros Ht Hsw. rewrite <- (app_nil_r bs).
  eapply parses_bind; [by apply (from_u8_decodes 1)|].
  rewrite <- (app_nil_l (enc_int 1 tag ++ _)). eapply parses_bind; [apply parses_ret|].
  apply parses_get_pos. intros pos0. eapply parses_bind; [by apply from_u8_decodes|].
  eapply parses_bind; [exact Hsw|].
  rewrite <- (app_nil_l []). eapply parses_bind; [apply parses_ret|apply parses_ret].
Qed.

Lemma from_capability_parses c caps :
  valid_capability c ->
  parses (from_capability caps) (enc_capability c) (apply_capability caps c).
Proof.
  destruct c as [| |port|ips port tr|tag payload]; intros Hv;
    cbn [enc_capability apply_capability].
  - apply (unsized_capability_parses 1 []); [done|apply parses_ret].
  - apply (unsized_capability_parses 2 []); [done|apply parses_ret].
  - apply unsized_capability_parses; [done|].
    by apply (parses_bind_ret from_u32
      (fun p => Make_OsdCapabilities (Some p) (rora_transport caps) (rora_ips caps))),
      from_u32_decodes.
  - destruct Hv as [Hi Hp].
    rewrite <- (app_nil_r (enc_vector enc_string ips ++ enc_int 4 port ++ enc_string tr)).
    apply sized_capability_parses; [done|]. intros length Hl. cbn [capability_switch].
    eapply parses_bind; [by apply (from_vector_decodes [] from_string enc_string valid_any _)|].
    eapply parses_bind; [by apply from_u32_decodes|].
    rewrite <- (app_nil_r (enc_string tr)).
    eapply parses_bind; [by apply from_string_decodes|].
    replace (length =? 0) with false by (symmetry; lia). apply parses_ret.
  - simpl in Hv. change payload with ([] ++ payload). apply sized_capability_parses; [split; lia|].
    intros length Hl. unfold capability_switch.
    replace (length =? 0) with false by (symmetry; lia).
    destruct tag as [|[[]|[[]|[]|]|]|]; try lia; apply parses_ret.
Qed.

Lemma from_OsdCapabilities_parses cs :
  Forall valid_capability cs -> len cs < 2 ^ 32 ->
  parses from_OsdCapabilities (enc_OsdCapabilities cs)
    (foldl apply_capability default_OsdCapabilities cs).
Proof.
  intros Hv Hl. pose proof (len_nonneg cs).
  eapply parses_bind; [apply (from_u32_decodes (len cs)); split; lia|].
  unfold len. rewrite Nat2Z.id. apply for_up_parses.
  intros caps c Hc. apply from_capability_parses. by eapply Forall_forall in Hv.
Qed.

(** ** Properties *)

(** C35: reading the capabilities a server announces folds them in order into the
    client's view: the last RORA port, transport and addresses win, and a
    capability of a kind this client does not know is skipped by its length. *)
Theorem osd_capabilities_parsed cs :
  len cs < 2 ^ 32 -> Forall valid_capability cs ->
  parses from_OsdCapabilities (enc_OsdCapabilities cs)
    (foldl apply_capability default_OsdCapabilities cs).
Proof. intros Hl Hv. by apply from_OsdCapabilities_parses. Qed.

Lemma osd_capabilities_parsed_witness :
  parses from_OsdCapabilities
    (enc_OsdCapabilities [CRoraFetcher 8000; CUnknown 9 [Byte.x01; Byte.x02]; CPartialGet;
       CRoraFetcher2 [str "10.0.0.1"] 8001 (str "tcp")])
    (Make_OsdCapabilities (Some 8001) (Some (str "tcp")) (Some [str "10.0.0.1"])).
Proof.
  apply (osd_capabilities_parsed [CRoraFetcher 8000; CUnknown 9 [Byte.x01; Byte.x02]; CPartialGet;
       CRoraFetcher2 [str "10.0.0.1"] 8001 (str "tcp")]); [reflexivity|].
  repeat constructor; vm_compute; congruence.
Defined.

(** A capability whose announced length exceeds 2 GiB moves the cursor
    backwards ([skip] takes an [int]): fifteen bytes suffice to make the parser
    read the byte before its buffer. *)
Theorem osd_capabilities_escape :
  exists bs, len bs = 15 /\
    fst (from_OsdCapabilities (message.make (message_buffer.from_string bs))) = Undef.
Proof.
  exists (enc_int 4 2 ++ enc_int 1 2 ++ enc_int 4 (2 ^ 32 - 10) ++ enc_int 1 9 ++ enc_int 4 0 ++ [Byte.x01]).
  split; vm_compute; reflexivity.
Qed.
