(* ===== verification/Manifest.v ===== *)
(** * Manifests: [manifest.h] and [manifest.cc]

    The records describing where an object's fragments are, their parser (both
    manifest versions, with the [ok_to_continue] protocol of [from2]), and the
    printers.  The decompressor is a parameter ([Snappy]): the code ignores its
    return value and goes on with the output string. *)

From S2P Require Import Prelude Llio Stuff AlbaCommon Checksum Encryption.

Local Open Scope Z_scope.
Local Open Scope alba_scope.

(** [snappy::Uncompress(data, size, &real)]: what [real] holds afterwards. *)
Class Snappy := snappy_Uncompress : bytes -> bytes.

Record EncodingScheme := Make_EncodingScheme { k : Z; m : Z; w : Z }.

Inductive compressor_t := NO_COMPRESSION | SNAPPY | BZIP2 | TEST.
#[export] Instance compressor_t_eq_dec : EqDecision compressor_t.
Proof. solve_decision. Defined.

(** The subclasses of [Compression]. *)
Inductive Compression := NoCompression | SnappyCompression | BZip2Compression | TestCompression.
Definition get_compressor (c : Compression) : compressor_t :=
  match c with
  | NoCompression => NO_COMPRESSION
  | SnappyCompression => SNAPPY
  | BZip2Compression => BZIP2
  | TestCompression => TEST
  end.

Abbreviation fragment_location_t := (option osd_t * Z)%type.
Abbreviation layout T := (list (list T)).

Record Location := Make_Location {
  loc_namespace_id : namespace_t; loc_object_id : bytes;
  loc_chunk_id : Z; loc_fragment_id : Z; loc_offset : Z; loc_length : Z;
  loc_fragment_location : fragment_location_t;
  loc_uses_compression : bool; loc_encrypt_info : EncryptInfo; loc_ctr : option bytes }.

(** [crc] is a [shared_ptr]; [None] is null. *)
Record Fragment := Make_Fragment {
  frag_loc : fragment_location_t; frag_crc : option Checksum; frag_len : Z;
  frag_ctr : option bytes; frag_fnr : option bytes }.

(** [fragments] holds [shared_ptr]s; [None] is null.  What version 2 manifests do
    not carry is zero, as in a value-initialised object. *)
Record Manifest := Make_Manifest {
  name : bytes; object_id : bytes; chunk_sizes : list Z; encoding_scheme : EncodingScheme;
  compression : Compression; encrypt_info : EncryptInfo; checksum : Checksum; size : Z;
  fragments : layout (option Fragment);
  version_id : Z; max_disks_per_node : Z; timestamp : Z }.

Record ManifestWithNamespaceId := Make_ManifestWithNamespaceId {
  manifest : Manifest; namespace_id : namespace_t }.

(** The bit pattern of [1.0]. *)
Definition double_1 : Z := 0x3ff0000000000000.

Definition from_EncodingScheme : reader EncodingScheme :=
  version ← from_u8;
  (guard version =? 1 orelse ExnDeserialisation (Deserialisation_exception
     (str "unexpected EncodingScheme version"))) ;;
  k ← from_u32; m ← from_u32; w ← from_u8;
  mret (Make_EncodingScheme k m w).

Definition from_Compression : reader Compression :=
  type ← from_u8;
  match type with
  | 1 => mret NoCompression
  | 2 => mret SnappyCompression
  | 3 => mret BZip2Compression
  | 4 => mret TestCompression
  | _ => mout (throw_deser (str "unknown compression type"))
  end.

Definition expect_tag (v : Z) (what : bytes) : reader unit :=
  tag ← from_u8;
  guard tag =? v orelse ExnDeserialisation (Deserialisation_exception what).

(** The nested loops over chunks and fragments, filling from the back. *)
Definition from_chunks {T} (from : reader T) : reader (layout (option T)) :=
  n_chunks ← from_u32;
  for_down (down_from n_chunks)
    (fun c ts =>
       n_fragments ← from_u32;
       chunk ← for_down (down_from n_fragments)
         (fun f ch => t ← from; mret (<[f := Some t]> ch))
         (replicate (Z.to_nat n_fragments) None);
       mret (<[c := chunk]> ts))
    (replicate (Z.to_nat n_chunks) []).

(** [v[i]]: undefined out of range. *)
Definition vec_at {T} (l : list T) (i : nat) : outcome T :=
  match l !! i with Some t => Ret t | None => Undef end.

Definition from_fragment_location : reader fragment_location_t :=
  from_pair (from_optional from_x_uint64) from_u32.

Fixpoint mapM_idx {A B} (f : nat -> A -> outcome B) (i : nat) (l : list A) : outcome (list B) :=
  match l with
  | [] => Ret []
  | a :: l =>
      match f i a with
      | Ret b => match mapM_idx f (S i) l with Ret bs => Ret (b :: bs) | o => o end
      | Throw e => Throw e | Abort => Abort | Undef => Undef
      end
  end.

(** The three layouts of a version 1 manifest put together: the loops run over
    [n_chunks] (the checksum layout's) and over the locations of each chunk. *)
Definition build_fragments (n_chunks : nat) (locations : layout fragment_location_t)
    (checksums : layout (option Checksum)) (packed_sizes : layout Z) :
    outcome (layout (option Fragment)) :=
  mapM_idx (fun c _ =>
    match vec_at locations c with
    | Ret locs =>
        mapM_idx (fun f loc =>
          match vec_at checksums c, vec_at packed_sizes c with
          | Ret crcs, Ret lens =>
              match vec_at crcs f, vec_at lens f with
              | Ret crc, Ret l => Ret (Some (Make_Fragment loc crc l None None))
              | _, _ => Undef
              end
          | _, _ => Undef
          end) 0 locs
    | _ => Undef
    end) 0 (replicate n_chunks tt).

Definition _small_string_from : reader bytes :=
  v ← from_varint;
  let size := s32 v in
  (guard 0 <=? size orelse ExnSystem (str "std::length_error")) ;;
  ib ← message.current size;
  message.skip size ;;
  mret ib.

(** An optional trailing field: read when the nested message has bytes left. *)
Definition trailing_string (end_pos : Z) : reader (option bytes) :=
  pos ← message.get_pos;
  let size_left := s32 (end_pos - pos) in
  if 0 <? size_left then
    has ← from_bool;
    if (has : bool) then s ← _small_string_from; mret (Some s) else mret None
  else mret None.

Definition from_Fragment_body (end_pos : Z) : reader Fragment :=
  expect_tag 1 (str "unexpected Fragment version") ;;
  loc ← from_fragment_location;
  crc ← from_checksum;
  l ← from_u32;
  ctr ← trailing_string end_pos;
  fnr ← trailing_string end_pos;
  mret (Make_Fragment loc (Some crc) l ctr fnr).

Definition from_Fragment : reader Fragment :=
  fragment_s_size ← from_varint;
  m2 ← message.get_nested_message fragment_s_size;
  message.skip fragment_s_size ;;
  end_pos ← message.get_pos;
  on_nested m2 (from_Fragment_body end_pos).

(** The fields both versions share, up to the object's size. *)
Definition from_header : reader
    (bytes * bytes * list Z * EncodingScheme * Compression * EncryptInfo * Checksum * Z) :=
  name ← from_string;
  object_id ← from_string;
  chunk_sizes ← from_vector 0 from_u32;
  expect_tag 1 (str "unexpected version2") ;;
  es ← from_EncodingScheme;
  compression ← from_Compression;
  encrypt_info ← from_EncryptInfo;
  checksum ← from_checksum;
  size ← from_u64;
  mret (name, object_id, chunk_sizes, es, compression, encrypt_info, checksum, size).

Definition from_body1 : reader Manifest :=
  '(name, object_id, chunk_sizes, es, compression, encrypt_info, checksum, size) ← from_header;
  expect_tag 1 (str "unexpected layout tag") ;;
  locations ← from_vector [] (from_vector (None, 0) from_fragment_location);
  expect_tag 1 (str "unexpected layout tag 2") ;;
  checksums ← from_chunks from_checksum;
  expect_tag 1 (str "unexpected layout tag 3") ;;
  packed_sizes ← from_vector [] (from_vector 0 from_u32);
  fragments ← mout (build_fragments (length checksums) locations checksums packed_sizes);
  version_id ← from_u32;
  max_disks ← from_u32;
  timestamp ← from_double;
  mret (Make_Manifest name object_id chunk_sizes es compression encrypt_info checksum size
          fragments version_id max_disks timestamp).

Definition from_body2 : reader Manifest :=
  '(name, object_id, chunk_sizes, es, compression, encrypt_info, checksum, size) ← from_header;
  expect_tag 1 (str "unexpected layout tag") ;;
  fragments ← from_chunks from_Fragment;
  mret (Make_Manifest name object_id chunk_sizes es compression encrypt_info checksum size
          fragments 0 0 double_1).

(** [from2]: the cursor and the flag [ok_to_continue], both of which the caller
    looks at after an exception. *)
Abbreviation reader2 := (M (message.t * bool)).
Definition rd {A} (r : reader A) : reader2 A := zoom fst (fun m s => (m, s.2)) r.
Definition set_ok (b : bool) : reader2 unit := modify (fun s => (s.1, b)).

Section with_snappy.
Context `{Snappy}.

Definition _from_version1 : reader2 Manifest :=
  compressed ← rd from_string;
  let real := snappy_Uncompress compressed in
  set_ok true ;;
  rd (on_nested (message.make (message_buffer.from_string real)) from_body1).

Definition _from_version2 : reader2 Manifest :=
  compressed_size ← rd from_u32;
  m_compressed ← rd (message.get_nested_message compressed_size);
  rd (message.skip compressed_size) ;;
  compressed ← rd (on_nested m_compressed (message.current compressed_size));
  let real := snappy_Uncompress compressed in
  set_ok true ;;
  rd (on_nested (message.make (message_buffer.from_string real)) from_body2).

Definition from2_Manifest : reader2 Manifest :=
  set_ok false ;;
  version ← rd from_u8;
  match version with
  | 1 => _from_version1
  | 2 => _from_version2
  | _ => mout (throw_deser (str "unexpecteded Manifest version"))
  end.

Definition from_Manifest : reader Manifest := fun msg =>
  let '(o, s) := from2_Manifest (msg, false) in (o, s.1).

(** The namespace id follows the manifest: when the manifest itself could not be
    understood but was delimited, the id is read all the same, so that the cursor
    is at the next entry, before the exception goes on. *)
Definition from2_ManifestWithNamespaceId : reader2 ManifestWithNamespaceId :=
  try_catch
    (mf ← from2_Manifest;
     ns ← rd from_x_uint64;
     mret (Make_ManifestWithNamespaceId mf ns))
    (fun e =>
       match e with
       | ExnDeserialisation _ =>
           ok ← gets snd;
           (when (ok : bool) do (rd from_x_uint64 ;; mret tt)) ;;
           mthrow e
       | _ => mthrow e
       end).

Definition from_ManifestWithNamespaceId : reader ManifestWithNamespaceId := fun msg =>
  let '(o, s) := from2_ManifestWithNamespaceId (msg, false) in (o, s.1).
End with_snappy.

(** ** Printing *)

Definition print_EncodingScheme : printer EncodingScheme := fun s =>
  str "EncodingScheme{k=" ++ dec (k s) ++ str ", m=" ++ dec (m s)
    ++ str ", w=" ++ dec (w s) ++ str "}".
Definition print_compressor_t : printer compressor_t := fun c =>
  match c with
  | NO_COMPRESSION => str "NO_COMPRESSION"
  | SNAPPY => str "SNAPPY"
  | BZIP2 => str "BZIP2"
  | TEST => str "TEST"
  end.
Definition print_Compression : printer Compression := fun c =>
  match c with
  | NoCompression => str "NoCompression()"
  | SnappyCompression => str "SnappyCompression()"
  | BZip2Compression => str "BZip2Compression()"
  | TestCompression => str "TestCompression()"
  end.
Definition dump_string : printer bytes := dump_buffer.
Definition dump_string_option : printer (option bytes) := fun so =>
  match so with
  | None => str "None"
  | Some s => str "(Some " ++ dump_string s ++ str ")"
  end.

(** ** The formats the proxy writes *)

Definition enc_EncodingScheme (s : EncodingScheme) : bytes :=
  enc_int 1 1 ++ enc_int 4 (k s) ++ enc_int 4 (m s) ++ enc_int 1 (w s).
Definition valid_EncodingScheme (s : EncodingScheme) : Prop :=
  valid_int 32 (k s) /\ valid_int 32 (m s) /\ valid_int 8 (w s).
Definition enc_Compression (c : Compression) : bytes :=
  enc_int 1 (match c with NoCompression => 1 | SnappyCompression => 2
             | BZip2Compression => 3 | TestCompression => 4 end).
Definition enc_location : fragment_location_t -> bytes :=
  enc_pair (enc_optional enc_x_uint64) (enc_int 4).
Definition valid_location : fragment_location_t -> Prop :=
  valid_pair (valid_optional (valid_int 64)) (valid_int 32).

(** A layout: counts and elements, both levels written from the back. *)
Definition enc_layout {T} (enc : T -> bytes) : layout T -> bytes := enc_vector (enc_vector enc).
Definition valid_layout {T} (valid : T -> Prop) : layout T -> Prop :=
  valid_vector (valid_vector valid).

Definition enc_small_string (s : bytes) : bytes := enc_varint (len s) ++ s.
Definition enc_trailing (o : option bytes) : bytes := enc_optional enc_small_string o.

(** A fragment as nested bytes.  [trailers] of the two optional fields are
    present (older writers have none); behind both a newer writer may add more. *)
Record wire_Fragment := Make_wire_Fragment {
  wf_loc : fragment_location_t; wf_crc : Checksum; wf_len : Z;
  wf_trailers : list (option bytes); wf_extra : bytes }.
Definition enc_Fragment_body (f : wire_Fragment) : bytes :=
  enc_int 1 1 ++ enc_location (wf_loc f) ++ enc_checksum (wf_crc f) ++ enc_int 4 (wf_len f)
    ++ concat (enc_trailing <$> wf_trailers f) ++ wf_extra f.
Definition enc_Fragment (f : wire_Fragment) : bytes :=
  enc_varint (len (enc_Fragment_body f)) ++ enc_Fragment_body f.
Definition valid_Fragment (f : wire_Fragment) : Prop :=
  valid_location (wf_loc f) /\ valid_checksum (wf_crc f) /\ valid_int 32 (wf_len f) /\
  (length (wf_trailers f) <= 2)%nat /\
  ((length (wf_trailers f) < 2)%nat -> wf_extra f = []).
Definition read_Fragment (f : wire_Fragment) : Fragment :=
  Make_Fragment (wf_loc f) (Some (wf_crc f)) (wf_len f)
    (default None (wf_trailers f !! 0%nat)) (default None (wf_trailers f !! 1%nat)).

Record header := Make_header {
  h_name : bytes; h_object_id : bytes; h_chunk_sizes : list Z; h_scheme : EncodingScheme;
  h_compression : Compression; h_encrypt_info : EncryptInfo; h_checksum : Checksum; h_size : Z }.
Definition enc_header (h : header) : bytes :=
  enc_string (h_name h) ++ enc_string (h_object_id h)
    ++ enc_vector (enc_int 4) (h_chunk_sizes h) ++ enc_int 1 1
    ++ enc_EncodingScheme (h_scheme h) ++ enc_Compression (h_compression h)
    ++ enc_EncryptInfo (h_encrypt_info h) ++ enc_checksum (h_checksum h) ++ enc_int 8 (h_size h).
Definition valid_header (h : header) : Prop :=
  valid_vector (valid_int 32) (h_chunk_sizes h) /\ valid_EncodingScheme (h_scheme h) /\
  valid_EncryptInfo (h_encrypt_info h) /\ valid_checksum (h_checksum h) /\
  valid_int 64 (h_size h).

Definition make_Manifest (h : header) (frs : layout (option Fragment)) (v md ts : Z) : Manifest :=
  Make_Manifest (h_name h) (h_object_id h) (h_chunk_sizes h) (h_scheme h) (h_compression h)
    (h_encrypt_info h) (h_checksum h) (h_size h) frs v md ts.

(** A manifest on the wire: version 1 with its three parallel layouts, or version
    2 with a layout of self-contained fragments. *)
Inductive wire_Manifest :=
  | Wire1 (h : header) (locs : layout fragment_location_t) (crcs : layout Checksum)
      (sizes : layout Z) (v md ts : Z)
  | Wire2 (h : header) (frs : layout wire_Fragment).
Definition enc_body (wm : wire_Manifest) : bytes :=
  match wm with
  | Wire1 h locs crcs sizes v md ts =>
      enc_header h ++ enc_int 1 1 ++ enc_layout enc_location locs
        ++ enc_int 1 1 ++ enc_layout enc_checksum crcs
        ++ enc_int 1 1 ++ enc_layout (enc_int 4) sizes
        ++ enc_int 4 v ++ enc_int 4 md ++ enc_int 8 ts
  | Wire2 h frs => enc_header h ++ enc_int 1 1 ++ enc_layout enc_Fragment frs
  end.
Definition zip_fragments (locs : list fragment_location_t) (crcs : list Checksum) (sizes : list Z) :
    list (option Fragment) :=
  zip_with (fun loc p => Some (Make_Fragment loc (Some p.1) p.2 None None)) locs (zip crcs sizes).
Definition map_layout {A B} (f : A -> B) (l : list (list A)) : list (list B) :=
  fmap (M := list) (fmap (M := list) f) l.
Definition read_Manifest (wm : wire_Manifest) : Manifest :=
  match wm with
  | Wire1 h locs crcs sizes v md ts =>
      make_Manifest h (zip_with (fun l p => zip_fragments l p.1 p.2) locs (zip crcs sizes)) v md ts
  | Wire2 h frs =>
      make_Manifest h (map_layout (fun f => Some (read_Fragment f)) frs) 0 0 double_1
  end.
(** The three layouts of a version 1 manifest have one shape. *)
Definition valid_Manifest (wm : wire_Manifest) : Prop :=
  match wm with
  | Wire1 h locs crcs sizes v md ts =>
      valid_header h /\ valid_layout valid_location locs /\ valid_layout valid_checksum crcs /\
      valid_layout (valid_int 32) sizes /\
      length <$> crcs = length <$> locs /\ length <$> sizes = length <$> locs /\
      valid_int 32 v /\ valid_int 32 md /\ valid_int 64 ts
  | Wire2 h frs => valid_header h /\ valid_layout valid_Fragment frs
  end.
Definition wire_version (wm : wire_Manifest) : Z :=
  match wm with Wire1 _ _ _ _ _ _ _ => 1 | Wire2 _ _ => 2 end.

(** What the decompressed bytes of a manifest of version [v] parse to. *)
Definition body_result (v : Z) (real : bytes) : outcome Manifest :=
  fst ((if v =? 1 then from_body1 else from_body2)
         (message.make (message_buffer.from_string real))).
Definition enc_Manifest (v : Z) (compressed : bytes) : bytes :=
  enc_int 1 v ++ enc_string compressed.

(** ** Readers that look at the end of a nested message *)

Definition end_of (msg : message.t) : Z := message._initial_offset msg + message._size msg.

(** [r] returns [a] on a nested message that ends at [e] and has exactly [bs] left. *)
Definition parses_to_end {A} (e : Z) (r : reader A) (bs : bytes) (a : A) : Prop :=
  forall msg, wf_message msg -> end_of msg = e -> remaining msg = bs -> fst (r msg) = Ret a.

(** A manifest to evaluate the theorems on. *)
Definition sample_header : header :=
  Make_header (str "object") (replicate 32 Byte.x07) [4096; 100] (Make_EncodingScheme 2 1 8)
    SnappyCompression NoEncryption (Crc32c 77) 4196.
Definition sample_wire : wire_Manifest :=
  Wire2 sample_header
    [[Make_wire_Fragment (Some 3, 1) (Crc32c 5) 2048 [] [];
      Make_wire_Fragment (None, 1) NoChecksum 2048 [Some (replicate 16 Byte.x01); None] [Byte.x09]]].

Lemma to_end_bind {A B} e (r : reader A) (k : A -> reader B) bs1 bs2 a b :
  parses r bs1 a -> parses_to_end e (k a) bs2 b -> parses_to_end e (r ≫= k) (bs1 ++ bs2) b.
Proof.
  intros H1 H2 msg Hwf He E. rewrite (bind_ret_eq _ _ _ _ _ (H1 msg bs2 Hwf E)).
  pose proof (remaining_split _ _ _ Hwf E). pose proof (len_nonneg bs1).
  apply H2; [by apply wf_advance|done|by apply remaining_advance].
Qed.

Lemma to_end_ret {A} e bs (a : A) : parses_to_end e (mret a) bs a.
Proof. by intros msg _ _ _. Qed.

Lemma expect_tag_parses v what :
  valid_int 8 v -> parses (expect_tag v what) (enc_int 1 v) tt.
Proof.
  intros Hv. unfold expect_tag. rewrite <- (app_nil_r (enc_int 1 v)).
  eapply parses_bind; [by apply (from_u8_decodes v)|]. rewrite Z.eqb_refl. apply parses_ret.
Qed.

Lemma small_string_parses s : parses _small_string_from (enc_small_string s) s.
Proof.
  apply parses_small. intros Hs. unfold enc_small_string in *. rewrite len_app in Hs.
  pose proof (len_nonneg s). pose proof (len_nonneg (enc_varint (len s))).
  eapply parses_bind; [apply from_varint_decodes; split; lia|].
  rewrite s32_small by lia. cbv zeta.
  replace (0 <=? len s) with true by (symmetry; lia).
  rewrite <- (app_nil_l s). eapply parses_bind; [apply parses_ret|].
  rewrite <- (app_nil_r s) at 2. rewrite app_nil_l. apply current_skip_parses, parses_ret.
Qed.

(** The test for bytes left compares the two cursors' positions. *)
Lemma size_left_spec msg :
  wf_message msg -> s32 (end_of msg - u32 (message._pos msg)) = left msg.
Proof.
  intros []. unfold end_of, left. rewrite u32_small, s32_small by lia. lia.
Qed.

Lemma to_end_trailing_some {A} e (k : option bytes -> reader A) o bs a :
  parses_to_end e (k o) bs a ->
  parses_to_end e (trailing_string e ≫= k) (enc_trailing o ++ bs) a.
Proof.
  intros Hk msg Hwf He E.
  assert (parses (has ← from_bool;
      if (has : bool) then s ← _small_string_from; mret (Some s) else mret None)
    (enc_trailing o) o) as HP.
  { destruct o as [s|]; unfold enc_trailing, enc_optional.
    - eapply parses_bind; [by apply from_bool_decodes|].
      apply parses_bind_ret, small_string_parses.
    - rewrite <- (app_nil_r (enc_bool false)).
      eapply parses_bind; [by apply from_bool_decodes|]. apply parses_ret. }
  pose proof (remaining_split _ _ _ Hwf E) as Hl.
  assert (0 < len (enc_trailing o)) as Hpos.
  { destruct o as [s|]; unfold enc_trailing, enc_optional; [|done]. rewrite len_app.
    change (len (enc_bool true)) with 1. pose proof (len_nonneg (enc_small_string s)). lia. }
  assert (trailing_string e msg = (Ret o, advance (len (enc_trailing o)) msg)) as Ht.
  { unfold trailing_string.
    rewrite (bind_ret_eq message.get_pos _ msg (u32 (message._pos msg)) msg eq_refl).
    rewrite <- He, size_left_spec by done.
    replace (0 <? left msg) with true by (symmetry; lia). by eapply HP. }
  rewrite (bind_ret_eq _ _ _ _ _ Ht).
  apply Hk; [apply wf_advance; [done|lia]|done|by apply remaining_advance].
Qed.

Lemma to_end_trailing_none {A} e (k : option bytes -> reader A) a :
  parses_to_end e (k None) [] a -> parses_to_end e (trailing_string e ≫= k) [] a.
Proof.
  intros Hk msg Hwf He E.
  pose proof (length_remaining msg Hwf) as Hl. rewrite E, len_nil in Hl.
  assert (trailing_string e msg = (Ret None, msg)) as Ht.
  { unfold trailing_string.
    rewrite (bind_ret_eq message.get_pos _ msg (u32 (message._pos msg)) msg eq_refl).
    rewrite <- He, size_left_spec by done.
    by replace (0 <? left msg) with false by (symmetry; lia). }
  rewrite (bind_ret_eq _ _ _ _ _ Ht). by apply Hk.
Qed.

Lemma nested_spec msg bs rest :
  wf_message msg -> remaining msg = bs ++ rest ->
  let m2 := message.make_view (message._mb msg) (message._pos msg) (len bs) in
  message.get_nested_message (len bs) msg = (Ret m2, msg) /\
  wf_message m2 /\ remaining m2 = bs /\ end_of m2 = message._pos msg + len bs.
Proof.
  intros Hwf E m2. pose proof (remaining_split _ _ _ Hwf E) as Hl.
  pose proof (len_nonneg bs). pose proof Hwf as [? ? ? ? ?]. unfold left in Hl.
  split_and!.
  - unfold message.get_nested_message. rewrite u32_small by lia.
    rewrite outside_spec by (unfold left; lia || done).
    by replace (left msg <? len bs) with false by (symmetry; unfold left; lia).
  - split; simpl; lia.
  - apply (f_equal (take (length bs))) in E. rewrite take_app_length in E. rewrite <- E.
    unfold remaining, left, m2, len in *; simpl. rewrite take_take. f_equal. lia.
  - done.
Qed.

(** A length-prefixed part, parsed by a reader that knows where the part ends. *)
Lemma parses_nested {A} (r : Z -> reader A) bs a :
  (forall e, parses_to_end e (r e) bs a) ->
  parses (m2 ← message.get_nested_message (len bs); message.skip (len bs) ;;
          end_pos ← message.get_pos; on_nested m2 (r end_pos)) bs a.
Proof.
  intros Hr msg rest Hwf E. pose proof (remaining_split _ _ _ Hwf E) as Hl.
  pose proof (len_nonneg bs). destruct (nested_spec msg bs rest Hwf E) as (Hn & Hw & Hrem & He).
  rewrite (bind_ret_eq _ _ _ _ _ Hn).
  rewrite (bind_ret_eq _ _ _ _ _ (skip_spec msg (len bs) Hwf ltac:(lia))).
  rewrite (bind_ret_eq message.get_pos _ (advance (len bs) msg)
    (u32 (message._pos msg + len bs)) _ eq_refl).
  unfold on_nested. rewrite (Hr _ _ Hw); [done| |done].
  pose proof Hwf as [? ? ? ? ?]. unfold left in *. rewrite He, u32_small; lia.
Qed.

Lemma to_end_trailers e l crc sz ts ex :
  (length ts <= 2)%nat -> ((length ts < 2)%nat -> ex = []) ->
  parses_to_end e
    (ctr ← trailing_string e; fnr ← trailing_string e; mret (Make_Fragment l crc sz ctr fnr))
    (concat (enc_trailing <$> ts) ++ ex)
    (Make_Fragment l crc sz (default None (ts !! 0%nat)) (default None (ts !! 1%nat))).
Proof.
  intros Hl Hex. destruct ts as [|t0 [|t1 [|]]]; simpl in *; try lia.
  - rewrite Hex by lia. apply to_end_trailing_none, to_end_trailing_none, to_end_ret.
  - rewrite Hex, !app_nil_r by lia. rewrite <- (app_nil_r (enc_trailing t0)).
    apply (to_end_trailing_some e (fun ctr => fnr ← trailing_string e; _)).
    apply to_end_trailing_none, to_end_ret.
  - rewrite app_nil_r, <- app_assoc.
    apply (to_end_trailing_some e (fun ctr => fnr ← trailing_string e; _)).
    apply to_end_trailing_some, to_end_ret.
Qed.

#[export] Instance from_fragment_location_decodes :
  Decodes from_fragment_location enc_location valid_location.
Proof. unfold from_fragment_location, enc_location, valid_location. apply _. Qed.

Lemma from_Fragment_body_to_end e f :
  valid_Fragment f ->
  parses_to_end e (from_Fragment_body e) (enc_Fragment_body f) (read_Fragment f).
Proof.
  intros (Hloc & Hcrc & Hlen & Ht & Hex). unfold from_Fragment_body, enc_Fragment_body.
  eapply to_end_bind; [by apply expect_tag_parses|].
  eapply to_end_bind; [by apply from_fragment_location_decodes|].
  eapply to_end_bind; [by apply from_checksum_decodes|].
  eapply to_end_bind; [by apply from_u32_decodes|].
  by apply to_end_trailers.
Qed.

Lemma from_Fragment_parses f :
  valid_Fragment f -> parses from_Fragment (enc_Fragment f) (read_Fragment f).
Proof.
  intros Hf. apply parses_small. intros Hs. unfold enc_Fragment in *. rewrite len_app in Hs.
  pose proof (len_nonneg (enc_Fragment_body f)).
  pose proof (len_nonneg (enc_varint (len (enc_Fragment_body f)))).
  eapply parses_bind; [apply from_varint_decodes; split; lia|].
  apply (parses_nested from_Fragment_body). intros e. by apply from_Fragment_body_to_end.
Qed.

(** ** The body of a manifest *)

Lemma from_chunks_parses {A T} (from : reader T) (enc : A -> bytes) (g : A -> T)
    (valid : A -> Prop) (l : layout A) :
  (forall a, valid a -> parses from (enc a) (g a)) -> valid_layout valid l ->
  parses (from_chunks from) (enc_layout enc l) (map_layout (fun a => Some (g a)) l).
Proof.
  intros Hp [Hv Hl]. unfold from_chunks, enc_layout, map_layout.
  apply (fill_vector_parses _ (fmap (M := list) (fun a => Some (g a)))); [|done].
  intros i ts ch [Hch Hlc]%(proj1 (Forall_forall _ _) Hv).
  pose proof (fill_vector_parses (fun f (ch : list (option T)) => t ← from; mret (<[f := Some t]> ch))
    (fun a => Some (g a)) enc None ch) as HF.
  eassert (parses _ (enc_vector enc ch) ((fun a => Some (g a)) <$> ch)) as H.
  { apply HF; [|done]. intros j us a Ha.
    apply (parses_bind_ret from (fun t => <[j := Some t]> us)), Hp.
    by eapply Forall_forall in Hch. }
  intros m0 rest Hwf E. specialize (H m0 rest Hwf E).
  unfold mbind, M_bind in *. destruct (from_u32 m0) as [[n| | |] m1]; try done.
  by rewrite H.
Qed.

#[export] Instance from_EncodingScheme_decodes :
  Decodes from_EncodingScheme enc_EncodingScheme valid_EncodingScheme.
Proof.
  intros [k0 m0 w0] (Hk & Hm & Hw). unfold enc_EncodingScheme; cbn [k m w] in *.
  eapply parses_bind; [by apply (from_u8_decodes 1)|].
  rewrite <- (app_nil_l (enc_int 4 k0 ++ _)). eapply parses_bind; [apply parses_ret|].
  eapply parses_bind; [by apply from_u32_decodes|].
  eapply parses_bind; [by apply from_u32_decodes|].
  by apply parses_bind_ret, from_u8_decodes.
Qed.

#[export] Instance from_Compression_decodes :
  Decodes from_Compression enc_Compression valid_any.
Proof.
  intros c _. unfold enc_Compression. rewrite <- (app_nil_r (enc_int _ _)).
  by destruct c; (eapply parses_bind; [by apply from_u8_decodes|apply parses_ret]).
Qed.

Abbreviation header_tuple h :=
  (h_name h, h_object_id h, h_chunk_sizes h, h_scheme h, h_compression h, h_encrypt_info h,
   h_checksum h, h_size h).

Lemma from_header_parses h :
  valid_header h -> parses from_header (enc_header h) (header_tuple h).
Proof.
  intros (Hcs & Hes & Hei & Hck & Hsz). unfold from_header, enc_header.
  eapply parses_bind; [by apply from_string_decodes|].
  eapply parses_bind; [by apply from_string_decodes|].
  eapply parses_bind.
  { by apply (from_vector_decodes 0 from_u32 (enc_int 4) (valid_int 32) from_u32_decodes). }
  eapply parses_bind; [by apply expect_tag_parses|].
  eapply parses_bind; [by apply from_EncodingScheme_decodes|].
  eapply parses_bind; [by apply from_Compression_decodes|].
  eapply parses_bind; [by apply from_EncryptInfo_decodes|].
  eapply parses_bind; [by apply from_checksum_decodes|].
  by apply parses_bind_ret, from_u64_decodes.
Qed.

Lemma mapM_idx_ret {A B} (f : nat -> A -> outcome B) (l : list A) (bs : list B) i :
  length bs = length l ->
  (forall j a b, l !! j = Some a -> bs !! j = Some b -> f (i + j)%nat a = Ret b) ->
  mapM_idx f i l = Ret bs.
Proof.
  revert i bs. induction l as [|a l IH]; intros i [|b bs] Hl Hf; try done; simpl.
  rewrite <- (Nat.add_0_r i) at 1. rewrite (Hf 0%nat a b) by done.
  rewrite (IH (S i) bs); [done|by simpl in Hl; lia|].
  intros j a' b' Ha Hb. replace (S i + j)%nat with (i + S j)%nat by lia. by apply (Hf (S j)).
Qed.

(** The three parallel layouts, when they have one shape, are zipped. *)
Lemma build_fragments_zip (locs : layout fragment_location_t) (crcs : layout Checksum)
    (sizes : layout Z) :
  length <$> crcs = length <$> locs -> length <$> sizes = length <$> locs ->
  build_fragments (length crcs) locs (map_layout Some crcs) sizes
  = Ret (zip_with (fun l p => zip_fragments l p.1 p.2) locs (zip crcs sizes)).
Proof.
  intros Hc Hs.
  pose proof (f_equal length Hc) as Hlc. pose proof (f_equal length Hs) as Hls.
  rewrite !length_fmap in *.
  apply mapM_idx_ret; [rewrite length_zip_with, length_zip, length_replicate; lia|].
  intros c _ frs _ Hfrs. simpl. apply lookup_zip_with_Some in Hfrs as (ls & [cs ss] & -> & El & Ep).
  apply lookup_zip_Some in Ep as [Ec Es]. unfold vec_at at 1. rewrite El.
  assert (length cs = length ls) as Lc.
  { pose proof (f_equal (lookup c) Hc) as H. rewrite !list_lookup_fmap, Ec, El in H. by injection H. }
  assert (length ss = length ls) as Ls.
  { pose proof (f_equal (lookup c) Hs) as H. rewrite !list_lookup_fmap, Es, El in H. by injection H. }
  apply mapM_idx_ret; [unfold zip_fragments; rewrite length_zip_with, length_zip; simpl; lia|].
  intros f loc fr Eloc Efr. simpl. unfold zip_fragments in Efr; simpl in Efr.
  apply lookup_zip_with_Some in Efr as (loc' & [crc sz] & -> & El' & Ep).
  apply lookup_zip_Some in Ep as [Ec' Es']. simplify_eq.
  unfold vec_at, map_layout. by rewrite list_lookup_fmap, Ec, Es; simpl; rewrite list_lookup_fmap, Ec', Es'.
Qed.

Lemma length_map_layout {A B} (f : A -> B) (l : layout A) : length (map_layout f l) = length l.
Proof. apply length_fmap. Qed.

Lemma from_body1_parses h locs crcs sizes v md ts :
  valid_Manifest (Wire1 h locs crcs sizes v md ts) ->
  parses from_body1 (enc_body (Wire1 h locs crcs sizes v md ts))
    (read_Manifest (Wire1 h locs crcs sizes v md ts)).
Proof.
  intros (Hh & Hlocs & Hcrcs & Hsizes & Ec & Es & Hv & Hmd & Hts). unfold from_body1, enc_body.
  eapply parses_bind; [by apply from_header_parses|].
  eapply parses_bind; [by apply expect_tag_parses|].
  eapply parses_bind.
  { by apply (from_vector_decodes [] _ _ _
      (from_vector_decodes (None, 0) _ _ _ from_fragment_location_decodes)). }
  eapply parses_bind; [by apply expect_tag_parses|].
  eapply parses_bind.
  { apply (from_chunks_parses from_checksum enc_checksum id valid_checksum); [|done].
    apply from_checksum_decodes. }
  eapply parses_bind; [by apply expect_tag_parses|].
  eapply parses_bind.
  { by apply (from_vector_decodes [] _ _ _ (from_vector_decodes 0 _ _ _ from_u32_decodes)). }
  unfold id. rewrite length_map_layout, build_fragments_zip by done.
  rewrite <- (app_nil_l (enc_int 4 v ++ _)). eapply parses_bind; [apply (parses_ret (_ : layout _))|].
  eapply parses_bind; [by apply from_u32_decodes|].
  eapply parses_bind; [by apply from_u32_decodes|].
  by apply (parses_bind_ret from_double (fun ts => make_Manifest h _ v md ts)), from_double_decodes.
Qed.

Lemma from_body2_parses h frs :
  valid_Manifest (Wire2 h frs) ->
  parses from_body2 (enc_body (Wire2 h frs)) (read_Manifest (Wire2 h frs)).
Proof.
  intros (Hh & Hfrs). unfold from_body2, enc_body.
  eapply parses_bind; [by apply from_header_parses|].
  eapply parses_bind; [by apply expect_tag_parses|].
  apply (parses_bind_ret (from_chunks from_Fragment)
    (fun frs => make_Manifest h frs 0 0 double_1)).
  apply (from_chunks_parses from_Fragment enc_Fragment read_Fragment valid_Fragment); [|done].
  apply from_Fragment_parses.
Qed.

(** ** [from2] *)

Lemma body_result_spec wm extra :
  valid_Manifest wm -> len (enc_body wm ++ extra) < 2 ^ 31 ->
  body_result (wire_version wm) (enc_body wm ++ extra) = Ret (read_Manifest wm).
Proof.
  intros Hv Hl. destruct (message_make_spec _ Hl) as (Hwf & Hrem & _).
  destruct wm as [h locs crcs sizes v md ts|h frs].
  - apply (f_equal fst (from_body1_parses _ _ _ _ _ _ _ Hv _ extra Hwf Hrem)).
  - apply (f_equal fst (from_body2_parses _ _ Hv _ extra Hwf Hrem)).
Qed.

Lemma rd_eq {A} (r : reader A) msg b o msg' :
  r msg = (o, msg') -> rd r (msg, b) = (o, (msg', b)).
Proof. unfold rd, zoom. simpl. by intros ->. Qed.

Lemma set_ok_bind {A} b' (k : reader2 A) msg b :
  (set_ok b' ;; k) (msg, b) = k (msg, b').
Proof. done. Qed.

Section from2_facts.
Context `{Snappy}.

Lemma from_version1_spec msg b c rest :
  wf_message msg -> remaining msg = enc_string c ++ rest ->
  _from_version1 (msg, b)
  = (body_result 1 (snappy_Uncompress c), (advance (len (enc_string c)) msg, true)).
Proof.
  intros Hwf E. unfold _from_version1.
  rewrite (bind_ret_eq _ _ _ _ _ (rd_eq _ _ b _ _ (from_string_decodes c I msg rest Hwf E))).
  rewrite set_ok_bind.
  by apply (rd_eq (on_nested _ _)).
Qed.

Lemma from_version2_spec msg b c rest :
  wf_message msg -> remaining msg = enc_string c ++ rest ->
  _from_version2 (msg, b)
  = (body_result 2 (snappy_Uncompress c), (advance (len (enc_string c)) msg, true)).
Proof.
  intros Hwf E. pose proof (remaining_split _ _ _ Hwf E) as Hl.
  unfold enc_string in *. rewrite len_app, len_le_split in *. pose proof (len_nonneg c).
  assert (valid_int 32 (len c)) as Hv by (pose proof Hwf as []; unfold left in Hl; split; lia).
  rewrite <- app_assoc in E. unfold _from_version2.
  rewrite (bind_ret_eq _ _ _ _ _ (rd_eq _ _ b _ _ (from_u32_decodes (len c) Hv msg _ Hwf E))).
  pose proof (remaining_advance msg _ _ Hwf E) as E1. rewrite len_le_split in E1.
  change (len (enc_int 4 (len c))) with 4.
  assert (wf_message (advance 4 msg)) as Hw1 by (apply wf_advance; [done|lia]).
  destruct (nested_spec _ c rest Hw1 E1) as (Hn & Hw2 & Hrem & _).
  rewrite (bind_ret_eq _ _ _ _ _ (rd_eq _ _ b _ _ Hn)).
  rewrite (bind_ret_eq _ _ _ _ _ (rd_eq _ _ b _ _
    (skip_spec (advance 4 msg) (len c) Hw1 ltac:(unfold left in *; simpl; lia)))).
  assert (remaining (message.make_view (message._mb (advance 4 msg))
    (message._pos (advance 4 msg)) (len c)) = c ++ []) as Hrem' by by rewrite app_nil_r.
  pose proof (current_ok _ _ _ Hw2 Hrem') as Hc.
  rewrite (bind_ret_eq (rd (on_nested _ (message.current (len c)))) _ _ c
    (advance (len c) (advance 4 msg), b)).
  2: { apply (rd_eq (on_nested _ _)). unfold on_nested. by rewrite Hc. }
  rewrite set_ok_bind, advance_advance.
  by apply (rd_eq (on_nested _ _)).
Qed.

(** Once the compressed stretch is delimited, the cursor is behind it and
    [ok_to_continue] is set, whatever the decompressed bytes contain. *)
Lemma from2_Manifest_spec msg b v c rest :
  v = 1 \/ v = 2 -> wf_message msg -> remaining msg = enc_Manifest v c ++ rest ->
  from2_Manifest (msg, b)
  = (body_result v (snappy_Uncompress c), (advance (len (enc_Manifest v c)) msg, true)).
Proof.
  intros Hv Hwf E. unfold from2_Manifest. pose proof (remaining_split _ _ _ Hwf E) as Hl.
  rewrite set_ok_bind.
  unfold enc_Manifest in *. rewrite len_app in *. change (len (enc_int 1 v)) with 1 in *.
  pose proof (len_nonneg (enc_string c)). rewrite <- app_assoc in E.
  assert (valid_int 8 v) as Hv8 by (unfold valid_int; lia).
  rewrite (bind_ret_eq _ _ _ _ _ (rd_eq _ _ false _ _ (from_u8_decodes v Hv8 msg _ Hwf E))).
  pose proof (remaining_advance msg _ _ Hwf E) as E1.
  change (len (enc_int 1 v)) with 1 in *.
  assert (wf_message (advance 1 msg)) as Hw1 by (apply wf_advance; [done|lia]).
  rewrite <- (advance_advance (len (enc_string c)) 1).
  destruct Hv as [-> | ->].
  - by apply (from_version1_spec _ _ _ rest).
  - by apply (from_version2_spec _ _ _ rest).
Qed.

Lemma from2_ManifestWithNamespaceId_spec msg b v c ns rest :
  v = 1 \/ v = 2 -> valid_int 64 ns -> wf_message msg ->
  remaining msg = (enc_Manifest v c ++ enc_x_uint64 ns) ++ rest ->
  let msg' := advance (len (enc_Manifest v c ++ enc_x_uint64 ns)) msg in
  match body_result v (snappy_Uncompress c) with
  | Ret mf => from2_ManifestWithNamespaceId (msg, b)
              = (Ret (Make_ManifestWithNamespaceId mf ns), (msg', true))
  | Throw (ExnDeserialisation e) => from2_ManifestWithNamespaceId (msg, b)
              = (Throw (ExnDeserialisation e), (msg', true))
  | _ => True
  end.
Proof.
  intros Hv Hns Hwf E msg'. rewrite <- app_assoc in E.
  pose proof (from2_Manifest_spec msg b v c _ Hv Hwf E) as Hf.
  pose proof (remaining_split _ _ _ Hwf E) as Hl. pose proof (len_nonneg (enc_Manifest v c)).
  assert (wf_message (advance (len (enc_Manifest v c)) msg)) as Hw1
    by (apply wf_advance; [done|lia]).
  pose proof (remaining_advance msg _ _ Hwf E) as E1.
  pose proof (rd_eq _ _ true _ _ (from_x_uint64_decodes ns Hns _ _ Hw1 E1)) as Hx.
  assert (advance (len (enc_x_uint64 ns)) (advance (len (enc_Manifest v c)) msg) = msg') as Ha
    by (unfold msg'; by rewrite advance_advance, len_app).
  rewrite Ha in Hx. unfold from2_ManifestWithNamespaceId, try_catch.
  destruct (body_result v (snappy_Uncompress c)) as [mf|[] | |] eqn:Eb; try done.
  - rewrite (bind_ret_eq _ _ _ _ _ Hf). by rewrite (bind_ret_eq _ _ _ _ _ Hx).
  - rewrite (bind_throw_eq _ _ _ _ _ Hf).
    unfold mbind, M_bind, gets. cbn [snd]. by rewrite Hx.
Qed.
End from2_facts.

(** ** Properties *)



(** A manifest entry this client cannot parse, but whose compressed stretch is
    delimited, raises the deserialisation exception with [ok_to_continue] set and
    the cursor behind the entry's namespace id, so the caller can go on with the
    next entry. *)
Theorem bad_manifest_skipped {S : Snappy} v c ns e msg b rest :
  v = 1 \/ v = 2 -> valid_int 64 ns -> wf_message msg ->
  remaining msg = (enc_Manifest v c ++ enc_x_uint64 ns) ++ rest ->
  body_result v (snappy_Uncompress c) = Throw (ExnDeserialisation e) ->
  from2_ManifestWithNamespaceId (msg, b)
  = (Throw (ExnDeserialisation e),
     (advance (len (enc_Manifest v c ++ enc_x_uint64 ns)) msg, true)).
Proof.
  intros Hv Hns Hwf E Hb.
  pose proof (from2_ManifestWithNamespaceId_spec msg b v c ns rest Hv Hns Hwf E) as H.
  rewrite Hb in H. exact H.
Qed.

Lemma bad_manifest_skipped_witness :
  let c := enc_string (str "object") in
  let bs := enc_Manifest 1 c ++ enc_x_uint64 5 in
  let msg := message.make (message_buffer.from_string bs) in
  from2_ManifestWithNamespaceId (H := fun c => c) (msg, false)
  = (Throw (ExnDeserialisation (Deserialisation_exception
       (str "message.current(): reading outside of message"))), (advance (len bs) msg, true)).
Proof.
  intros c bs msg.
  destruct (message_make_spec bs ltac:(vm_compute; reflexivity)) as (Hwf & Hrem & _).
  apply (bad_manifest_skipped (S := fun c => c) 1 c 5 _ msg false []).
  - left. reflexivity.
  - split; vm_compute; congruence.
  - exact Hwf.
  - rewrite app_nil_r. exact Hrem.
  - vm_compute. reflexivity.
Defined.
