(* ===== verification/ManifestPrint.v ===== *)
(** * Printing manifests: [operator<<] of [manifest.cc]

    The printers of locations, fragments and whole manifests.  They dereference the
    shared pointers of a manifest without a test, so a printer returns an [outcome]:
    a null pointer is [Undef].  How boost prints an optional is a parameter. *)

From S2P Require Import Prelude Stuff AlbaCommon Checksum Encryption Doubles Llio Manifest.

Local Open Scope Z_scope.
Local Open Scope alba_scope.

(** [os << a << b]. *)
Definition oapp (a b : outcome bytes) : outcome bytes :=
  match a, b with
  | Ret a, Ret b => Ret (a ++ b)
  | Ret _, b => b
  | a, _ => a
  end.
Infix "<<" := oapp (at level 50, left associativity) : alba_scope.
Definition deref {A} (p : option A) (print : A -> outcome bytes) : outcome bytes :=
  match p with Some a => print a | None => Undef end.

Fixpoint oprint_elements {T} (pt : T -> outcome bytes) (first : bool) (ts : list T) : outcome bytes :=
  match ts with
  | [] => Ret []
  | t :: ts => Ret (if first then [] else str ", ") << pt t << oprint_elements pt false ts
  end.
(** [stuff]'s vector printer over such printers. *)
Definition oprint_vector {T} (pt : T -> outcome bytes) (ts : list T) : outcome bytes :=
  Ret (str "{") << oprint_elements pt true ts << Ret (str "}").

Section print.
Variable boost_print_optional : option osd_t -> bytes.

Definition print_fragment_location (f : fragment_location_t) : bytes :=
  str "(" ++ boost_print_optional f.1 ++ str ", " ++ dec f.2 ++ str ")".

Definition print_Fragment (f : Fragment) : outcome bytes :=
  Ret (str "{" ++ str "loc = " ++ print_fragment_location (frag_loc f) ++ str ", crc = ")
  << deref (frag_crc f) (fun c => Ret (print_Checksum c))
  << Ret (str ", len = " ++ dec (frag_len f) ++ str ", ctr = " ++ dump_string_option (frag_ctr f)
          ++ str " , fnr = " ++ dump_string_option (frag_fnr f) ++ str " }" ++ endl).

(** [stuff] prints a [shared_ptr] by what it points to. *)
Definition print_fragment_ptr (p : option Fragment) : outcome bytes :=
  Ret (str "&(") << deref p print_Fragment << Ret (str ")").

Definition print_Manifest (mf : Manifest) : outcome bytes :=
  Ret (str "{" ++ str "name = `" ++ dump_string (name mf) ++ str "`, " ++ endl
       ++ str "  object_id = `" ++ dump_string (object_id mf) ++ str "`, " ++ endl
       ++ str "  encoding_scheme = " ++ print_EncodingScheme (encoding_scheme mf) ++ str "," ++ endl
       ++ str "  compression = " ++ print_Compression (compression mf) ++ str "," ++ endl
       ++ str "  encryptinfo = " ++ print_EncryptInfo (encrypt_info mf) ++ str ","
       ++ str "  chunk_sizes = " ++ print_vector dec (chunk_sizes mf) ++ str "," ++ endl
       ++ str "  size = " ++ dec (size mf) ++ endl ++ endl
       ++ str "  checksum= " ++ print_Checksum (checksum mf) ++ str "," ++ endl
       ++ str "  fragments= ")
  << oprint_vector (oprint_vector print_fragment_ptr) (fragments mf)
  << Ret (str "," ++ endl
       ++ str "  version_id = " ++ dec (version_id mf) ++ str "," ++ endl
       ++ str "  timestamp = " ++ print_double (double_of_bits (timestamp mf)) ++ str "}").

Definition print_ManifestWithNamespaceId (mf : ManifestWithNamespaceId) : outcome bytes :=
  Ret (str "{") << print_Manifest (manifest mf)
  << Ret (str ", namespace_id = " ++ print_x_uint64 (namespace_id mf) ++ str "} ").

(** ** When printing is defined *)

Definition complete (mf : Manifest) : Prop :=
  Forall (Forall (fun p => exists f c, p = Some f /\ frag_crc f = Some c)) (fragments mf).

Lemma oprint_vector_defined {T} (pt : T -> outcome bytes) ts :
  Forall (fun t => exists bs, pt t = Ret bs) ts -> exists bs, oprint_vector pt ts = Ret bs.
Proof.
  intros Hts. unfold oprint_vector.
  assert (forall first, exists bs, oprint_elements pt first ts = Ret bs) as Hel.
  { induction Hts as [|t ts [bs Hbs] _ IH]; intros first; [by eexists|]. simpl.
    destruct (IH false) as [cs ->]. rewrite Hbs. by eexists. }
  destruct (Hel true) as [bs ->]. by eexists.
Qed.

(** A manifest whose fragments and their checksums are all there prints. *)
Lemma print_Manifest_defined mf : complete mf -> exists bs, print_Manifest mf = Ret bs.
Proof.
  intros Hc. unfold print_Manifest.
  destruct (oprint_vector_defined (oprint_vector print_fragment_ptr) (fragments mf)) as [bs ->].
  - eapply Forall_impl; [exact Hc|]. intros row Hrow. apply oprint_vector_defined.
    eapply Forall_impl; [exact Hrow|]. intros p (f & c & -> & Hf). unfold print_fragment_ptr; simpl.
    unfold print_Fragment. rewrite Hf. by eexists.
  - by eexists.
Qed.
End print.
