(* ===== verification/Sequences.v ===== *)
(** * Sequences of assertions and updates: [proxy_sequences.h] and [proxy_sequences.cc]

    The subclasses of [Assert] and [Update] as tagged unions, their wire forms,
    and the builder [Sequence].  A reference decoder states what a receiver gets
    from the bytes: the tags and the argument order determine it. *)

From S2P Require Import Prelude Llio Checksum.

Local Open Scope Z_scope.
Local Open Scope alba_scope.

Inductive Assert :=
  | AssertObjectExists (_name : bytes)
  | AssertObjectDoesNotExist (_name : bytes)
  | AssertObjectHasId (_name _object_id : bytes)
  | AssertObjectHasChecksum (_name : bytes) (_cs : Checksum).

(** A null [Checksum *] is [None]; [_data] is the block behind the pointer, as
    it stands when the update is written. *)
Inductive Update :=
  | UpdateUploadObjectFromFile (_name _file_name : bytes) (_cs_o : option Checksum)
  | UpdateUploadObject (_name _data : bytes) (_size : Z) (_cs_o : option Checksum)
  | UpdateDeleteObject (_name : bytes).

(** The first [_size] bytes of the block; reading beyond it is undefined. *)
Definition block_prefix (data : bytes) (size : Z) : outcome bytes :=
  if size <=? len data then Ret (take (Z.to_nat size) data) else Undef.

(** [to(mb, boost::optional<const Checksum *>)], from a pointer that may be null. *)
Definition to_checksum_opt (cs_o : option Checksum) : writer :=
  match cs_o with
  | None => to_optional to_checksum None
  | Some cs => to_optional to_checksum (Some cs)
  end.

Definition to_Assert (a : Assert) : writer :=
  match a with
  | AssertObjectExists name => message_builder.add_type 1 ;; to_string name
  | AssertObjectDoesNotExist name => message_builder.add_type 2 ;; to_string name
  | AssertObjectHasId name object_id =>
      message_builder.add_type 3 ;; to_string name ;; to_string object_id
  | AssertObjectHasChecksum name cs =>
      message_builder.add_type 4 ;; to_string name ;; to_checksum cs
  end.

Definition to_Update (u : Update) : writer :=
  match u with
  | UpdateUploadObjectFromFile name file_name cs_o =>
      message_builder.add_type 1 ;; to_string name ;; to_string file_name ;; to_checksum_opt cs_o
  | UpdateUploadObject name data size cs_o =>
      message_builder.add_type 2 ;; to_string name ;; to_u32 size ;;
      (d ← mout (block_prefix data size); message_builder.add_raw d) ;;
      to_checksum_opt cs_o
  | UpdateDeleteObject name => message_builder.add_type 3 ;; to_string name
  end.

(** [BOOLEAN_ENUM(ObjectExists)]. *)
Inductive ObjectExists := ObjectExists_F | ObjectExists_T.

Module Sequence.
Record t := Make { _asserts : list Assert; _updates : list Update }.

Definition make : t := Make [] [].
Definition push_assert (a : Assert) (s : t) : t := Make (_asserts s ++ [a]) (_updates s).
Definition push_update (u : Update) (s : t) : t := Make (_asserts s) (_updates s ++ [u]).

Definition add_assert (name : bytes) (should_exist : ObjectExists) : t -> t :=
  match should_exist with
  | ObjectExists_T => push_assert (AssertObjectExists name)
  | ObjectExists_F => push_assert (AssertObjectDoesNotExist name)
  end.
Definition add_assert_object_id (name object_id : bytes) : t -> t :=
  push_assert (AssertObjectHasId name object_id).
Definition add_assert_checksum (name : bytes) (cs : Checksum) : t -> t :=
  push_assert (AssertObjectHasChecksum name cs).
Definition add_upload_fs (name path : bytes) (cs_o : option Checksum) : t -> t :=
  push_update (UpdateUploadObjectFromFile name path cs_o).
Definition add_upload (name data : bytes) (size : Z) (cs_o : option Checksum) : t -> t :=
  push_update (UpdateUploadObject name data size cs_o).
Definition add_delete (name : bytes) : t -> t := push_update (UpdateDeleteObject name).
End Sequence.

(** ** The formats, and the reference decoder *)

Definition enc_Assert (a : Assert) : bytes :=
  match a with
  | AssertObjectExists name => enc_int 1 1 ++ enc_string name
  | AssertObjectDoesNotExist name => enc_int 1 2 ++ enc_string name
  | AssertObjectHasId name object_id => enc_int 1 3 ++ enc_string name ++ enc_string object_id
  | AssertObjectHasChecksum name cs => enc_int 1 4 ++ enc_string name ++ enc_checksum cs
  end.
Definition valid_Assert (a : Assert) : Prop :=
  match a with AssertObjectHasChecksum _ cs => valid_checksum cs | _ => True end.

Definition enc_Update (u : Update) : bytes :=
  match u with
  | UpdateUploadObjectFromFile name file_name cs_o =>
      enc_int 1 1 ++ enc_string name ++ enc_string file_name ++ enc_optional enc_checksum cs_o
  | UpdateUploadObject name data size cs_o =>
      enc_int 1 2 ++ enc_string name
        ++ (enc_int 4 size ++ take (Z.to_nat size) data) ++ enc_optional enc_checksum cs_o
  | UpdateDeleteObject name => enc_int 1 3 ++ enc_string name
  end.
Definition valid_Update (u : Update) : Prop :=
  match u with
  | UpdateUploadObjectFromFile _ _ cs_o => valid_optional valid_checksum cs_o
  | UpdateUploadObject _ data size cs_o =>
      0 <= size <= len data /\ valid_optional valid_checksum cs_o
  | UpdateDeleteObject _ => True
  end.
(** What is sent of an update: of a block, its first [_size] bytes. *)
Definition sent_Update (u : Update) : Update :=
  match u with
  | UpdateUploadObject name data size cs_o =>
      UpdateUploadObject name (take (Z.to_nat size) data) size cs_o
  | u => u
  end.

Definition decode_Assert : reader Assert :=
  tag ← from_u8;
  name ← from_string;
  match tag with
  | 1 => mret (AssertObjectExists name)
  | 2 => mret (AssertObjectDoesNotExist name)
  | 3 => object_id ← from_string; mret (AssertObjectHasId name object_id)
  | 4 => cs ← from_checksum; mret (AssertObjectHasChecksum name cs)
  | _ => mout (throw_deser (str "assert"))
  end.
Definition decode_Update : reader Update :=
  tag ← from_u8;
  name ← from_string;
  match tag with
  | 1 =>
      file_name ← from_string; cs_o ← from_optional from_checksum;
      mret (UpdateUploadObjectFromFile name file_name cs_o)
  | 2 =>
      data ← from_string; cs_o ← from_optional from_checksum;
      mret (UpdateUploadObject name data (len data) cs_o)
  | 3 => mret (UpdateDeleteObject name)
  | _ => mout (throw_deser (str "update"))
  end.

(** ** Facts *)

Lemma add_type_appends i : appends (message_builder.add_type i) (enc_int 1 i).
Proof. apply add_raw_appends. Qed.

Lemma to_checksum_opt_appends cs_o :
  valid_optional valid_checksum cs_o ->
  appends (to_checksum_opt cs_o) (enc_optional enc_checksum cs_o).
Proof.
  destruct cs_o as [cs|]; intros Hv; unfold to_checksum_opt, to_optional, enc_optional.
  - apply appends_bind; [apply to_bool_encodes|by apply to_checksum_appends].
  - apply to_bool_encodes.
Qed.

Lemma to_Assert_appends a : valid_Assert a -> appends (to_Assert a) (enc_Assert a).
Proof.
  intros Hv. destruct a; (apply appends_bind; [apply add_type_appends|]);
    try (apply appends_bind; [apply to_string_encodes|]);
    solve [apply to_string_encodes | by apply to_checksum_appends].
Qed.

Lemma block_prefix_ret data size :
  0 <= size <= len data -> block_prefix data size = Ret (take (Z.to_nat size) data).
Proof.
  intros H. unfold block_prefix. by replace (size <=? len data) with true by (symmetry; lia).
Qed.

Lemma to_Update_appends u : valid_Update u -> appends (to_Update u) (enc_Update u).
Proof.
  intros Hv. destruct u as [name file cs|name data size cs|name];
    (apply appends_bind; [apply add_type_appends|]).
  - apply appends_bind; [apply to_string_encodes|].
    apply appends_bind; [apply to_string_encodes|by apply to_checksum_opt_appends].
  - apply appends_bind; [apply to_string_encodes|]. rewrite <- app_assoc.
    apply appends_bind; [apply to_u32_encodes|]. destruct Hv as [Hs Hcs].
    apply appends_bind; [|by apply to_checksum_opt_appends].
    rewrite block_prefix_ret by done. apply add_raw_appends.
  - apply to_string_encodes.
Qed.

Lemma decode_Assert_parses a :
  valid_Assert a -> parses decode_Assert (enc_Assert a) a.
Proof.
  intros Hv. destruct a; unfold enc_Assert;
    (eapply parses_bind; [by apply from_u8_decodes|]).
  1,2: rewrite <- (app_nil_r (enc_string _));
    (eapply parses_bind; [by apply from_string_decodes|]); apply parses_ret.
  - eapply parses_bind; [by apply from_string_decodes|].
    by apply parses_bind_ret, from_string_decodes.
  - eapply parses_bind; [by apply from_string_decodes|].
    by apply parses_bind_ret, from_checksum_decodes.
Qed.

Lemma decode_Update_parses u :
  valid_Update u -> parses decode_Update (enc_Update u) (sent_Update u).
Proof.
  assert (forall cs_o, valid_optional valid_checksum cs_o ->
    parses (from_optional from_checksum) (enc_optional enc_checksum cs_o) cs_o) as Hcs.
  { intros cs_o. apply from_optional_decodes, from_checksum_decodes. }
  intros Hv. destruct u as [name file cs|name data size cs|name]; unfold enc_Update;
    (eapply parses_bind; [by apply from_u8_decodes|]).
  - eapply parses_bind; [by apply from_string_decodes|].
    eapply parses_bind; [by apply from_string_decodes|].
    by apply (parses_bind_ret _ (UpdateUploadObjectFromFile name file)), Hcs.
  - destruct Hv as [Hs Hv]. eapply parses_bind; [by apply from_string_decodes|].
    assert (len (take (Z.to_nat size) data) = size) as Hl
      by (unfold len in *; rewrite length_take; lia).
    eapply parses_bind.
    { rewrite <- Hl at 1. by apply (from_string_decodes (take (Z.to_nat size) data)). }
    simpl. rewrite Hl.
    by apply (parses_bind_ret _ (UpdateUploadObject name (take (Z.to_nat size) data) size)), Hcs.
  - rewrite <- (app_nil_r (enc_string _)).
    eapply parses_bind; [by apply from_string_decodes|]. apply parses_ret.
Qed.

(** ** Properties *)


