(* ===== verification/ProxyProtocol.v ===== *)
(** * The proxy's protocol: [proxy_protocol.h] and [proxy_protocol.cc]

    One writer per request and one reader per response.  A response reader takes
    the old [Status] and returns the new one with the result, which is present
    when the status is OK.  Slices are copied into the caller's memory, a map
    from addresses to bytes.  The inductive [request] and its reference decoder
    say what the proxy gets from the bytes. *)

From S2P Require Import Prelude Llio Stuff AlbaCommon Checksum OsdInfo Manifest Sequences.

Local Open Scope Z_scope.
Local Open Scope alba_scope.

(** ** Tags and status *)

Definition _LIST_NAMESPACES : Z := 1.
Definition _NAMESPACE_EXISTS : Z := 2.
Definition _CREATE_NAMESPACE : Z := 3.
Definition _DELETE_NAMESPACE : Z := 4.
Definition _LIST_OBJECTS : Z := 5.
Definition _DELETE_OBJECT : Z := 8.
Definition _GET_OBJECT_INFO : Z := 9.
Definition _READ_OBJECT_FS : Z := 10.
Definition _WRITE_OBJECT_FS : Z := 11.
Definition _READ_OBJECTS_SLICES : Z := 13.
Definition _INVALIDATE_CACHE : Z := 14.
Definition _DROP_CACHE : Z := 16.
Definition _GET_PROXY_VERSION : Z := 17.
Definition _PING : Z := 20.
Definition _WRITE_OBJECT_FS2 : Z := 21.
Definition _OSD_INFO : Z := 22.
Definition _READ_OBJECTS_SLICES2 : Z := 23.
Definition _APPLY_SEQUENCE : Z := 24.
Definition _OSD_INFO2 : Z := 28.
Definition _HAS_LOCAL_FRAGMENT_CACHE : Z := 31.
Definition _UPDATE_SESSION : Z := 32.
Definition _GET_FRAGMENT_ENCRYPTION_KEY : Z := 33.

Module return_code.
Definition OK : Z := 0.
Definition UNKNOWN : Z := 1.
Definition OVERWRITE_NOT_ALLOWED : Z := 2.
Definition OBJECT_DOES_NOT_EXIST : Z := 3.
Definition NAMESPACE_ALREADY_EXISTS : Z := 4.
Definition NAMESPACE_DOES_NOT_EXIST : Z := 5.
Definition CHECKSUM_MISMATCH : Z := 7.
Definition CHECKSUM_ALGO_NOT_ALLOWED : Z := 8.
Definition PRESET_DOES_NOT_EXIST : Z := 9.
Definition BAD_SLICE_LENGTH : Z := 10.
Definition OVERLAPPING_SLICES : Z := 11.
Definition SLICE_OUTSIDE_OBJECT : Z := 12.
Definition UNKNOWN_OPERATION : Z := 13.
Definition FILE_NOT_FOUND : Z := 14.
Definition NO_SATISFIABLE_POLICY : Z := 15.
Definition PROTOCOL_VERSION_MISMATCH : Z := 17.
Definition ASSERT_FAILED : Z := 18.
End return_code.

Record Status := Make_Status { _return_code : Z; _what : bytes }.
Definition is_ok (st : Status) : bool := _return_code st =? return_code.OK.

(** The old message stays when the status is OK. *)
Definition read_status (st : Status) : reader Status :=
  rc ← from_u32;
  if negb (rc =? 0) then what ← from_string; mret (Make_Status rc what)
  else mret (Make_Status rc (_what st)).

(** [read_status(m, status); if (status.is_ok()) { ... }]. *)
Definition respond {A} (st : Status) (r : reader A) : reader (Status * option A) :=
  st ← read_status st;
  if is_ok st then a ← r; mret (st, Some a) else mret (st, None).

(** ** Slices and memory *)

(** [buf] is an address. *)
Record SliceDescriptor := Make_SliceDescriptor { buf : Z; offset : Z; sd_size : Z }.
Record ObjectSlices := Make_ObjectSlices {
  object_name : bytes; slices : list SliceDescriptor }.
Abbreviation mem := (gmap Z byte).

(** [memcpy(p, bs, size)]. *)
Fixpoint mem_write (p : Z) (bs : bytes) (mm : mem) : mem :=
  match bs with
  | [] => mm
  | b :: bs => mem_write (p + 1) bs (<[p := b]> mm)
  end.

Definition to_SliceDescriptor (desc : SliceDescriptor) : writer :=
  to_u64 (offset desc) ;; to_u32 (sd_size desc).
Definition to_ObjectSlices (s : ObjectSlices) : writer :=
  to_string (object_name s) ;; to_vector to_SliceDescriptor (slices s).

Definition print_SliceDescriptor : printer SliceDescriptor := fun s =>
  str "{ offset = " ++ dec (offset s) ++ str " , size = " ++ dec (sd_size s) ++ str " }".
Definition print_ObjectSlices : printer ObjectSlices := fun s =>
  str "{ object_name = " ++ dump_string (object_name s) ++ str "slices = [ "
    ++ concat ((fun sd => print_SliceDescriptor sd ++ str ";") <$> slices s) ++ str " ] }".

(** ** Requests *)

Definition write_tag (tag : Z) : writer := to_u32 tag.

Definition write_range_params (first : bytes) (finc : bool) (last : option bytes) (linc : bool)
    (max : Z) (reverse : bool) : writer :=
  to_string first ;;
  to_bool finc ;;
  (let lasto := match last with None => None | Some last => Some (last, linc) end in
   to_optional (to_pair to_string to_bool) lasto) ;;
  to_u32 (u32 max) ;;
  to_bool reverse.

Definition write_list_namespaces_request (first : bytes) (finc : bool) (last : option bytes)
    (linc : bool) (max : Z) (reverse : bool) : writer :=
  write_tag _LIST_NAMESPACES ;; write_range_params first finc last linc max reverse.
Definition write_namespace_exists_request (name : bytes) : writer :=
  write_tag _NAMESPACE_EXISTS ;; to_string name.
Definition write_create_namespace_request (name : bytes) (preset_name : option bytes) : writer :=
  write_tag _CREATE_NAMESPACE ;; to_string name ;; to_optional to_string preset_name.
Definition write_delete_namespace_request (name : bytes) : writer :=
  write_tag _DELETE_NAMESPACE ;; to_string name.
Definition write_list_objects_request (namespace_ first : bytes) (finc : bool)
    (last : option bytes) (linc : bool) (max : Z) (reverse : bool) : writer :=
  write_tag _LIST_OBJECTS ;; to_string namespace_ ;;
  write_range_params first finc last linc max reverse.
Definition write_read_object_fs_request (namespace_ object_name dest_file : bytes)
    (consistent_read should_cache : bool) : writer :=
  write_tag _READ_OBJECT_FS ;; to_string namespace_ ;; to_string object_name ;;
  to_string dest_file ;; to_bool consistent_read ;; to_bool should_cache.
Definition _write_write_object_fs_request (tag : Z) (namespace_ object_name input_file : bytes)
    (allow_overwrite : bool) (checksum : option Checksum) : writer :=
  write_tag tag ;; to_string namespace_ ;; to_string object_name ;; to_string input_file ;;
  to_bool allow_overwrite ;; to_checksum_opt checksum.
Definition write_write_object_fs_request : bytes -> bytes -> bytes -> bool -> option Checksum -> writer :=
  _write_write_object_fs_request _WRITE_OBJECT_FS.
Definition write_write_object_fs2_request : bytes -> bytes -> bytes -> bool -> option Checksum -> writer :=
  _write_write_object_fs_request _WRITE_OBJECT_FS2.
Definition write_delete_object_request (namespace_ object_name : bytes) (may_not_exist : bool) :
    writer :=
  write_tag _DELETE_OBJECT ;; to_string namespace_ ;; to_string object_name ;;
  to_bool may_not_exist.
Definition write_get_object_info_request (namespace_ object_name : bytes)
    (consistent_read should_cache : bool) : writer :=
  write_tag _GET_OBJECT_INFO ;; to_string namespace_ ;; to_string object_name ;;
  to_bool consistent_read ;; to_bool should_cache.
Definition _write_read_objects_slices_request (tag : Z) (namespace_ : bytes)
    (slices : list ObjectSlices) (consistent_read : bool) : writer :=
  write_tag tag ;; to_string namespace_ ;; to_vector to_ObjectSlices slices ;;
  to_bool consistent_read.
Definition write_read_objects_slices_request : bytes -> list ObjectSlices -> bool -> writer :=
  _write_read_objects_slices_request _READ_OBJECTS_SLICES.
Definition write_read_objects_slices2_request : bytes -> list ObjectSlices -> bool -> writer :=
  _write_read_objects_slices_request _READ_OBJECTS_SLICES2.
Definition write_update_session_request (args : list (bytes * option bytes)) : writer :=
  write_tag _UPDATE_SESSION ;; to_vector (to_pair to_string (to_optional to_string)) args.
Definition write_apply_sequence_request (namespace_ : bytes) (write_barrier : bool)
    (asserts : list Assert) (updates : list Update) : writer :=
  write_tag _APPLY_SEQUENCE ;; to_string namespace_ ;; to_bool write_barrier ;;
  to_vector to_Assert asserts ;; to_vector to_Update updates.
Definition write_invalidate_cache_request (namespace_ : bytes) : writer :=
  write_tag _INVALIDATE_CACHE ;; to_string namespace_.
Definition write_drop_cache_request (namespace_ : bytes) : writer :=
  write_tag _DROP_CACHE ;; to_string namespace_.
Definition write_get_proxy_version_request : writer := write_tag _GET_PROXY_VERSION.
Definition write_ping_request (delay : Z) : writer := write_tag _PING ;; to_double delay.
Definition write_osd_info_request : writer := write_tag _OSD_INFO.
Definition write_osd_info2_request : writer := write_tag _OSD_INFO2.
Definition write_has_local_fragment_cache_request : writer := write_tag _HAS_LOCAL_FRAGMENT_CACHE.
Definition write_get_fragment_encryption_key_request (alba_id : bytes)
    (namespace_id : namespace_t) : writer :=
  write_tag _GET_FRAGMENT_ENCRYPTION_KEY ;; to_string alba_id ;; to_u64 namespace_id.

(** ** Responses *)

Definition read_list_namespaces_response (st : Status) : reader (Status * option (list bytes * bool)) :=
  respond st (namespaces ← from_vector [] from_string; has_more ← from_bool;
              mret (namespaces, has_more)).
Definition read_namespace_exists_response (st : Status) : reader (Status * option bool) :=
  respond st from_bool.
Definition read_create_namespace_response : Status -> reader Status := read_status.
Definition read_delete_namespace_response : Status -> reader Status := read_status.
Definition read_list_objects_response (st : Status) : reader (Status * option (list bytes * bool)) :=
  respond st (objects ← from_vector [] from_string; has_more ← from_bool;
              mret (objects, has_more)).
Definition read_read_object_fs_response : Status -> reader Status := read_status.
Definition read_write_object_fs_response : Status -> reader Status := read_status.
Definition read_delete_object_response : Status -> reader Status := read_status.
Definition read_get_object_info_response (st : Status) : reader (Status * option (Z * Checksum)) :=
  respond st (size ← from_u64; checksum ← from_checksum; mret (size, checksum)).
Definition read_update_session_response (st : Status) :
    reader (Status * option (list (bytes * bytes))) :=
  respond st (from_vector ([], []) (from_pair from_string from_string)).
Definition read_invalidate_cache_response : Status -> reader Status := read_status.
Definition read_drop_cache_response : Status -> reader Status := read_status.
Definition read_get_proxy_version_response (st : Status) :
    reader (Status * option (Z * Z * Z * bytes)) :=
  respond st (major ← from_i32; minor ← from_i32; patch ← from_i32; hash ← from_string;
              mret (major, minor, patch, hash)).
Definition read_ping_response (st : Status) : reader (Status * option Z) := respond st from_double.
Definition read_has_local_fragment_cache_response (st : Status) : reader (Status * option bool) :=
  respond st from_bool.
Definition read_get_fragment_encryption_key_response (st : Status) :
    reader (Status * option (option bytes)) :=
  respond st (from_optional from_string).

(** [_read_osd_infos]: the map grows entry by entry, later entries winning. *)
Definition read_osd_entry (result : osd_map_t) : reader osd_map_t :=
  osd_id ← from_x_uint64;
  info_s_size ← from_u32;
  m2 ← message.get_nested_message info_s_size;
  message.skip info_s_size ;;
  info ← on_nested m2 from_OsdInfo;
  caps ← from_OsdCapabilities;
  mret (<[osd_id := (info, caps)]> result).
Definition _read_osd_infos (result : osd_map_t) : reader osd_map_t :=
  n ← from_u32;
  for_up (Z.to_nat n) read_osd_entry result.
Definition read_osd_info_response (st : Status) : reader (Status * option osd_map_t) :=
  respond st (_read_osd_infos ∅).
Definition read_osd_info2_response (st : Status) : reader (Status * option osd_maps_t) :=
  respond st (
    n ← from_u32;
    for_down (down_from n)
      (fun i result =>
         alba_id ← from_string;
         infos ← _read_osd_infos ∅;
         mret (<[i := (alba_id, infos)]> result))
      (replicate (Z.to_nat n) ([], ∅))).

(** Reading into memory: the cursor and the memory both survive an exception. *)
Abbreviation mreader := (M (message.t * mem)).
Definition rm {A} (r : reader A) : mreader A := zoom fst (fun m s => (m, s.2)) r.

Definition copy_slice (slice : SliceDescriptor) : mreader unit :=
  ib ← rm (message.current (sd_size slice));
  modify (fun s => (s.1, mem_write (buf slice) ib s.2)) ;;
  rm (message.skip (sd_size slice)).
Definition copy_slices (objects_slices : list ObjectSlices) : mreader unit :=
  for_each (fun object_slices => for_each copy_slice (slices object_slices)) objects_slices.

Definition read_read_objects_slices_response (objects_slices : list ObjectSlices) (st : Status) :
    mreader Status :=
  st ← rm (read_status st);
  (when is_ok st do (rm from_u32 ;; copy_slices objects_slices)) ;;
  mret st.

(** An element of [object_infos]: the name, the alba id and the manifest. *)
Abbreviation object_info := (bytes * alba_id_t * ManifestWithNamespaceId)%type.

Section with_snappy.
Context `{Snappy}.

(** The [try] block of [_read_object_infos]: an entry whose manifest cannot be
    parsed is skipped when the cursor is behind it. *)
Definition read_umf (name future : bytes) (object_infos : list object_info) :
    reader (list object_info) := fun msg =>
  match from2_ManifestWithNamespaceId (msg, false) with
  | (Ret umf, (msg', _)) =>
      if bool_decide (name = Manifest.name (manifest umf))
      then (Ret (object_infos ++ [(name, future, umf)]), msg') else (Abort, msg')
  | (Throw (ExnDeserialisation e), (msg', ok_to_continue)) =>
      if (ok_to_continue : bool) then (Ret object_infos, msg')
      else (Throw (ExnDeserialisation e), msg')
  | (Throw e, (msg', _)) => (Throw e, msg')
  | (Abort, (msg', _)) => (Abort, msg')
  | (Undef, (msg', _)) => (Undef, msg')
  end.
Definition read_object_info (object_infos : list object_info) : reader (list object_info) :=
  name ← from_string;
  future ← from_string;
  read_umf name future object_infos.
Definition _read_object_infos : reader (list object_info) :=
  size ← from_u32;
  for_up (down_from size) read_object_info [].

Definition read_write_object_fs2_response (st : Status) :
    reader (Status * option ManifestWithNamespaceId) :=
  respond st from_ManifestWithNamespaceId.
Definition read_apply_sequence_response (st : Status) : reader (Status * option (list object_info)) :=
  respond st _read_object_infos.
Definition read_read_objects_slices2_response (objects_slices : list ObjectSlices) (st : Status) :
    mreader (Status * list object_info) :=
  st ← rm (read_status st);
  if is_ok st then
    rm from_u32 ;;
    copy_slices objects_slices ;;
    object_infos ← rm _read_object_infos;
    mret (st, object_infos)
  else mret (st, []).
End with_snappy.

(** ** Requests as data, their format, and the reference decoder *)

Inductive request :=
  | ListNamespaces (first : bytes) (finc : bool) (last : option bytes) (linc : bool) (max : Z)
      (reverse : bool)
  | NamespaceExists (name : bytes)
  | CreateNamespace (name : bytes) (preset_name : option bytes)
  | DeleteNamespace (name : bytes)
  | ListObjects (ns first : bytes) (finc : bool) (last : option bytes) (linc : bool) (max : Z)
      (reverse : bool)
  | ReadObjectFs (ns name dest_file : bytes) (consistent_read should_cache : bool)
  | WriteObjectFs (ns name input_file : bytes) (allow_overwrite : bool) (cs : option Checksum)
  | WriteObjectFs2 (ns name input_file : bytes) (allow_overwrite : bool) (cs : option Checksum)
  | DeleteObject (ns name : bytes) (may_not_exist : bool)
  | GetObjectInfo (ns name : bytes) (consistent_read should_cache : bool)
  | ReadObjectsSlices (ns : bytes) (os : list ObjectSlices) (consistent_read : bool)
  | ReadObjectsSlices2 (ns : bytes) (os : list ObjectSlices) (consistent_read : bool)
  | UpdateSession (args : list (bytes * option bytes))
  | ApplySequence (ns : bytes) (write_barrier : bool) (asserts : list Assert) (updates : list Update)
  | InvalidateCache (ns : bytes)
  | DropCache (ns : bytes)
  | GetProxyVersion
  | Ping (delay : Z)
  | ReqOsdInfo
  | ReqOsdInfo2
  | HasLocalFragmentCache
  | GetFragmentEncryptionKey (alba_id : bytes) (namespace_id : namespace_t).

Definition write_request (r : request) : writer :=
  match r with
  | ListNamespaces f fi l li mx rv => write_list_namespaces_request f fi l li mx rv
  | NamespaceExists n => write_namespace_exists_request n
  | CreateNamespace n p => write_create_namespace_request n p
  | DeleteNamespace n => write_delete_namespace_request n
  | ListObjects ns f fi l li mx rv => write_list_objects_request ns f fi l li mx rv
  | ReadObjectFs ns n d cr sc => write_read_object_fs_request ns n d cr sc
  | WriteObjectFs ns n i ao cs => write_write_object_fs_request ns n i ao cs
  | WriteObjectFs2 ns n i ao cs => write_write_object_fs2_request ns n i ao cs
  | DeleteObject ns n mne => write_delete_object_request ns n mne
  | GetObjectInfo ns n cr sc => write_get_object_info_request ns n cr sc
  | ReadObjectsSlices ns os cr => write_read_objects_slices_request ns os cr
  | ReadObjectsSlices2 ns os cr => write_read_objects_slices2_request ns os cr
  | UpdateSession args => write_update_session_request args
  | ApplySequence ns wb a u => write_apply_sequence_request ns wb a u
  | InvalidateCache ns => write_invalidate_cache_request ns
  | DropCache ns => write_drop_cache_request ns
  | GetProxyVersion => write_get_proxy_version_request
  | Ping d => write_ping_request d
  | ReqOsdInfo => write_osd_info_request
  | ReqOsdInfo2 => write_osd_info2_request
  | HasLocalFragmentCache => write_has_local_fragment_cache_request
  | GetFragmentEncryptionKey a ns => write_get_fragment_encryption_key_request a ns
  end.

Definition last_param (last : option bytes) (linc : bool) : option (bytes * bool) :=
  match last with None => None | Some l => Some (l, linc) end.
Definition enc_range f (fi : bool) l li mx (rv : bool) : bytes :=
  enc_string f ++ enc_bool fi ++ enc_optional (enc_pair enc_string enc_bool) (last_param l li)
    ++ enc_int 4 (u32 mx) ++ enc_bool rv.
Definition enc_SliceDescriptor (d : SliceDescriptor) : bytes :=
  enc_int 8 (offset d) ++ enc_int 4 (sd_size d).
Definition enc_ObjectSlices (s : ObjectSlices) : bytes :=
  enc_string (object_name s) ++ enc_vector enc_SliceDescriptor (slices s).
Definition enc_write_fs ns n i (ao : bool) cs : bytes :=
  enc_string ns ++ enc_string n ++ enc_string i ++ enc_bool ao ++ enc_optional enc_checksum cs.
Definition enc_read_slices ns os (cr : bool) : bytes :=
  enc_string ns ++ enc_vector enc_ObjectSlices os ++ enc_bool cr.

Definition request_tag (r : request) : Z :=
  match r with
  | ListNamespaces _ _ _ _ _ _ => 1 | NamespaceExists _ => 2 | CreateNamespace _ _ => 3
  | DeleteNamespace _ => 4 | ListObjects _ _ _ _ _ _ _ => 5 | DeleteObject _ _ _ => 8
  | GetObjectInfo _ _ _ _ => 9 | ReadObjectFs _ _ _ _ _ => 10 | WriteObjectFs _ _ _ _ _ => 11
  | ReadObjectsSlices _ _ _ => 13 | InvalidateCache _ => 14 | DropCache _ => 16
  | GetProxyVersion => 17 | Ping _ => 20 | WriteObjectFs2 _ _ _ _ _ => 21 | ReqOsdInfo => 22
  | ReadObjectsSlices2 _ _ _ => 23 | ApplySequence _ _ _ _ => 24 | ReqOsdInfo2 => 28
  | HasLocalFragmentCache => 31 | UpdateSession _ => 32 | GetFragmentEncryptionKey _ _ => 33
  end.
Definition enc_arguments (r : request) : bytes :=
  match r with
  | ListNamespaces f fi l li mx rv => enc_range f fi l li mx rv
  | NamespaceExists n => enc_string n
  | CreateNamespace n p => enc_string n ++ enc_optional enc_string p
  | DeleteNamespace n => enc_string n
  | ListObjects ns f fi l li mx rv => enc_string ns ++ enc_range f fi l li mx rv
  | ReadObjectFs ns n d cr sc =>
      enc_string ns ++ enc_string n ++ enc_string d ++ enc_bool cr ++ enc_bool sc
  | WriteObjectFs ns n i ao cs | WriteObjectFs2 ns n i ao cs => enc_write_fs ns n i ao cs
  | DeleteObject ns n mne => enc_string ns ++ enc_string n ++ enc_bool mne
  | GetObjectInfo ns n cr sc => enc_string ns ++ enc_string n ++ enc_bool cr ++ enc_bool sc
  | ReadObjectsSlices ns os cr | ReadObjectsSlices2 ns os cr => enc_read_slices ns os cr
  | UpdateSession args => enc_vector (enc_pair enc_string (enc_optional enc_string)) args
  | ApplySequence ns wb a u =>
      enc_string ns ++ enc_bool wb ++ enc_vector enc_Assert a ++ enc_vector enc_Update u
  | InvalidateCache ns | DropCache ns => enc_string ns
  | Ping d => enc_int 8 d
  | GetFragmentEncryptionKey a ns => enc_string a ++ enc_int 8 ns
  | GetProxyVersion | ReqOsdInfo | ReqOsdInfo2 | HasLocalFragmentCache => []
  end.
Definition enc_request (r : request) : bytes := enc_int 4 (request_tag r) ++ enc_arguments r.

Definition valid_SliceDescriptor (d : SliceDescriptor) : Prop :=
  valid_int 64 (offset d) /\ valid_int 32 (sd_size d).
Definition valid_ObjectSlices (s : ObjectSlices) : Prop :=
  valid_vector valid_SliceDescriptor (slices s).
Definition valid_request (r : request) : Prop :=
  match r with
  | WriteObjectFs _ _ _ _ cs | WriteObjectFs2 _ _ _ _ cs => valid_optional valid_checksum cs
  | ReadObjectsSlices _ os _ | ReadObjectsSlices2 _ os _ => valid_vector valid_ObjectSlices os
  | UpdateSession args => len args < 2 ^ 31
  | ApplySequence _ _ a u => valid_vector valid_Assert a /\ valid_vector valid_Update u
  | Ping d => valid_int 64 d
  | GetFragmentEncryptionKey _ ns => valid_int 64 ns
  | _ => True
  end.

(** What arrives of a request: [linc] only with [last], sizes and offsets but not
    addresses, blocks without what is behind them. *)
Definition sent_slices (s : ObjectSlices) : ObjectSlices :=
  Make_ObjectSlices (object_name s)
    ((fun d => Make_SliceDescriptor 0 (offset d) (sd_size d)) <$> slices s).
Definition sent_linc (last : option bytes) (linc : bool) : bool :=
  match last with None => false | Some _ => linc end.
Definition sent (r : request) : request :=
  match r with
  | ListNamespaces f fi l li mx rv => ListNamespaces f fi l (sent_linc l li) (u32 mx) rv
  | ListObjects ns f fi l li mx rv => ListObjects ns f fi l (sent_linc l li) (u32 mx) rv
  | ReadObjectsSlices ns os cr => ReadObjectsSlices ns (sent_slices <$> os) cr
  | ReadObjectsSlices2 ns os cr => ReadObjectsSlices2 ns (sent_slices <$> os) cr
  | ApplySequence ns wb a u => ApplySequence ns wb a (sent_Update <$> u)
  | r => r
  end.

Definition decode_range {A} (mk : bytes -> bool -> option bytes -> bool -> Z -> bool -> A) :
    reader A :=
  first ← from_string; finc ← from_bool;
  last ← from_optional (from_pair from_string from_bool);
  max ← from_u32; reverse ← from_bool;
  mret (mk first finc (fst <$> last) (match last with None => false | Some l => l.2 end) max reverse).
Definition decode_write_fs (mk : bytes -> bytes -> bytes -> bool -> option Checksum -> request) :
    reader request :=
  ns ← from_string; name ← from_string; file ← from_string; ao ← from_bool;
  cs ← from_optional from_checksum; mret (mk ns name file ao cs).
Definition decode_SliceDescriptor : reader SliceDescriptor :=
  offset ← from_u64; size ← from_u32; mret (Make_SliceDescriptor 0 offset size).
Definition decode_ObjectSlices : reader ObjectSlices :=
  name ← from_string;
  slices ← from_vector (Make_SliceDescriptor 0 0 0) decode_SliceDescriptor;
  mret (Make_ObjectSlices name slices).
Definition decode_read_slices (mk : bytes -> list ObjectSlices -> bool -> request) : reader request :=
  ns ← from_string; os ← from_vector (Make_ObjectSlices [] []) decode_ObjectSlices;
  cr ← from_bool; mret (mk ns os cr).
Definition decode_arguments (tag : Z) : reader request :=
  match tag with
  | 1 => decode_range ListNamespaces
  | 2 => name ← from_string; mret (NamespaceExists name)
  | 3 => name ← from_string; p ← from_optional from_string; mret (CreateNamespace name p)
  | 4 => name ← from_string; mret (DeleteNamespace name)
  | 5 => ns ← from_string; decode_range (ListObjects ns)
  | 8 => ns ← from_string; n ← from_string; b ← from_bool; mret (DeleteObject ns n b)
  | 9 => ns ← from_string; n ← from_string; b ← from_bool; c ← from_bool;
         mret (GetObjectInfo ns n b c)
  | 10 => ns ← from_string; n ← from_string; d ← from_string; b ← from_bool; c ← from_bool;
          mret (ReadObjectFs ns n d b c)
  | 11 => decode_write_fs WriteObjectFs
  | 13 => decode_read_slices ReadObjectsSlices
  | 14 => ns ← from_string; mret (InvalidateCache ns)
  | 16 => ns ← from_string; mret (DropCache ns)
  | 17 => mret GetProxyVersion
  | 20 => d ← from_double; mret (Ping d)
  | 21 => decode_write_fs WriteObjectFs2
  | 22 => mret ReqOsdInfo
  | 23 => decode_read_slices ReadObjectsSlices2
  | 24 => ns ← from_string; wb ← from_bool;
          a ← from_vector (AssertObjectExists []) decode_Assert;
          u ← from_vector (UpdateDeleteObject []) decode_Update;
          mret (ApplySequence ns wb a u)
  | 28 => mret ReqOsdInfo2
  | 31 => mret HasLocalFragmentCache
  | 32 => args ← from_vector ([], None) (from_pair from_string (from_optional from_string));
          mret (UpdateSession args)
  | 33 => a ← from_string; ns ← from_u64; mret (GetFragmentEncryptionKey a ns)
  | _ => mout (throw_deser (str "unknown operation"))
  end.
Definition decode_request : reader request := tag ← from_u32; decode_arguments tag.

(** ** Responses as data *)

Definition enc_status (rc : Z) (what : bytes) : bytes :=
  enc_int 4 rc ++ (if rc =? 0 then [] else enc_string what).

(** An entry of the OSD map on the wire. *)
Record wire_osd := Make_wire_osd {
  wo_id : osd_t; wo_info : OsdInfo; wo_extra : bytes; wo_caps : list capability }.
Definition enc_osd (o : wire_osd) : bytes :=
  enc_x_uint64 (wo_id o) ++ enc_string (enc_OsdInfo (wo_info o) (wo_extra o))
    ++ enc_OsdCapabilities (wo_caps o).
Definition enc_osds (os : list wire_osd) : bytes := enc_int 4 (len os) ++ concat (enc_osd <$> os).
Definition valid_osd (o : wire_osd) : Prop :=
  valid_int 64 (wo_id o) /\ valid_OsdInfo (wo_info o) /\ Forall valid_capability (wo_caps o) /\
  len (wo_caps o) < 2 ^ 32.
Definition read_caps (cs : list capability) : OsdCapabilities :=
  foldl apply_capability default_OsdCapabilities cs.
Definition add_osd (result : osd_map_t) (o : wire_osd) : osd_map_t :=
  <[wo_id o := (wo_info o, read_caps (wo_caps o))]> result.
Definition read_osds (os : list wire_osd) : osd_map_t := foldl add_osd ∅ os.

(** Writing slices one after the other. *)
Definition all_slices (os : list ObjectSlices) : list SliceDescriptor := concat (slices <$> os).
Definition write_slice (mm : mem) (p : SliceDescriptor * bytes) : mem := mem_write (buf p.1) p.2 mm.
Definition write_slices (ss : list SliceDescriptor) (datas : list bytes) (mm : mem) : mem :=
  foldl write_slice mm (zip ss datas).
(** The address [a] is in the block of [n] bytes at [p]. *)
Definition in_block (a p n : Z) : Prop := p <= a < p + n.
Definition disjoint_slices (s1 s2 : SliceDescriptor) : Prop :=
  forall a, in_block a (buf s1) (sd_size s1) -> in_block a (buf s2) (sd_size s2) -> False.

(** An entry of [object_infos] on the wire, its manifest compressed. *)
Record wire_info := Make_wire_info {
  wi_name : bytes; wi_future : bytes; wi_version : Z; wi_compressed : bytes; wi_ns : namespace_t }.
Definition enc_info (i : wire_info) : bytes :=
  enc_string (wi_name i) ++ enc_string (wi_future i)
    ++ enc_Manifest (wi_version i) (wi_compressed i) ++ enc_x_uint64 (wi_ns i).
Definition enc_infos (wis : list wire_info) : bytes :=
  enc_int 4 (len wis) ++ concat (enc_info <$> wis).
Section wire_info.
Context `{Snappy}.
Definition info_result (i : wire_info) : outcome Manifest :=
  body_result (wi_version i) (snappy_Uncompress (wi_compressed i)).
(** The manifest is the named object's, or not one this client can parse. *)
Definition valid_info (i : wire_info) : Prop :=
  (wi_version i = 1 \/ wi_version i = 2) /\ valid_int 64 (wi_ns i) /\
  ((exists mf, info_result i = Ret mf /\ name mf = wi_name i) \/
   (exists e, info_result i = Throw (ExnDeserialisation e))).
Definition read_info (i : wire_info) : option object_info :=
  match info_result i with
  | Ret mf => Some (wi_name i, wi_future i, Make_ManifestWithNamespaceId mf (wi_ns i))
  | _ => None
  end.
End wire_info.

(** ** Requests *)

Lemma to_optional_appends {X} (tx : X -> writer) ex xo :
  Encodes tx ex -> appends (to_optional tx xo) (enc_optional ex xo).
Proof. intros H. apply to_optional_encodes, H. Qed.

#[export] Hint Extern 1 (appends (to_checksum_opt _) _) => by apply to_checksum_opt_appends : codec.
#[export] Hint Extern 1 (appends (write_tag _) _) => apply to_u32_encodes : codec.
#[export] Hint Extern 1 (appends (to_optional to_string _) _) =>
  apply to_optional_appends, to_string_encodes : codec.

#[export] Instance to_SliceDescriptor_encodes : Encodes to_SliceDescriptor enc_SliceDescriptor.
Proof. intros d. unfold to_SliceDescriptor, enc_SliceDescriptor. repeat appends_step. Qed.
#[export] Instance to_ObjectSlices_encodes : Encodes to_ObjectSlices enc_ObjectSlices.
Proof.
  intros s. unfold to_ObjectSlices, enc_ObjectSlices. appends_step. apply to_vector_encodes, _.
Qed.

Lemma write_range_params_appends f fi l li mx rv :
  appends (write_range_params f fi l li mx rv) (enc_range f fi l li mx rv).
Proof.
  unfold write_range_params, enc_range, last_param. do 2 appends_step.
  apply appends_bind; [|by repeat appends_step].
  apply to_optional_encodes. apply _.
Qed.

Lemma write_fs_appends tag ns n i ao cs :
  valid_optional valid_checksum cs ->
  appends (_write_write_object_fs_request tag ns n i ao cs)
    (enc_int 4 tag ++ enc_write_fs ns n i ao cs).
Proof.
  intros Hcs. unfold _write_write_object_fs_request, enc_write_fs. repeat appends_step.
Qed.

Lemma write_read_slices_appends tag ns os cr :
  appends (_write_read_objects_slices_request tag ns os cr)
    (enc_int 4 tag ++ enc_read_slices ns os cr).
Proof.
  unfold _write_read_objects_slices_request, enc_read_slices. do 2 appends_step.
  apply appends_bind; [apply to_vector_encodes, _|appends_step].
Qed.

#[export] Hint Extern 1 (appends (write_range_params _ _ _ _ _ _) _) =>
  apply write_range_params_appends : codec.

Lemma write_request_appends r : valid_request r -> appends (write_request r) (enc_request r).
Proof.
  intros Hv. destruct r; unfold enc_request; cbn [write_request valid_request enc_arguments request_tag] in *.
  7,8: by apply write_fs_appends.
  9,10: by apply write_read_slices_appends.
  13,15,16,17: rewrite app_nil_r; apply to_u32_encodes.
  all: (eapply appends_bind; [apply to_u32_encodes|]).
  1: apply write_range_params_appends.
  4: appends_step; apply write_range_params_appends.
  1-6,9-12: by repeat appends_step.
  - apply to_vector_encodes, _.
  - destruct Hv as [[Ha _] [Hu _]]. do 2 appends_step. apply appends_bind.
    + by apply (to_vector_appends_valid _ _ valid_Assert); [apply to_Assert_appends|].
    + by apply (to_vector_appends_valid _ _ valid_Update); [apply to_Update_appends|].
Qed.

#[export] Hint Extern 1 (parses (from_optional from_string) _ _) =>
  apply (from_optional_decodes _ _ _ from_string_decodes);
  match goal with |- valid_optional _ ?o => by destruct o end : codec.
#[export] Hint Extern 1 (parses (from_optional from_checksum) _ _) =>
  by apply (from_optional_decodes _ _ _ from_checksum_decodes) : codec.

Lemma decode_range_parses {A} (mk : bytes -> bool -> option bytes -> bool -> Z -> bool -> A)
    f fi l li mx rv :
  parses (decode_range mk) (enc_range f fi l li mx rv) (mk f fi l (sent_linc l li) (u32 mx) rv).
Proof.
  unfold decode_range, enc_range. do 2 parses_step. eapply parses_bind.
  { apply (from_optional_decodes _ _ (valid_pair valid_any valid_any)); [apply _|].
    destruct l; [by split|done]. }
  eapply parses_bind; [by apply from_u32_decodes, u32_range|]. parses_step.
  destruct l; parses_step.
Qed.

Lemma decode_write_fs_parses mk ns n i ao cs :
  valid_optional valid_checksum cs ->
  parses (decode_write_fs mk) (enc_write_fs ns n i ao cs) (mk ns n i ao cs).
Proof. intros Hcs. unfold decode_write_fs, enc_write_fs. repeat parses_step. Qed.

Lemma decode_ObjectSlices_parses s :
  valid_ObjectSlices s -> parses decode_ObjectSlices (enc_ObjectSlices s) (sent_slices s).
Proof.
  intros [Hv Hl]. unfold decode_ObjectSlices, enc_ObjectSlices. parses_step.
  apply (parses_bind_ret _ (Make_ObjectSlices (object_name s))).
  apply (from_vector_parses_fmap _ _ _ _ valid_SliceDescriptor); [|done..].
  intros d [Ho Hs]. unfold decode_SliceDescriptor, enc_SliceDescriptor. repeat parses_step.
Qed.

Lemma decode_read_slices_parses mk ns os cr :
  valid_vector valid_ObjectSlices os ->
  parses (decode_read_slices mk) (enc_read_slices ns os cr) (mk ns (sent_slices <$> os) cr).
Proof.
  intros [Hv Hl]. unfold decode_read_slices, enc_read_slices. parses_step. eapply parses_bind.
  { by apply (from_vector_parses_fmap _ _ _ _ valid_ObjectSlices _ decode_ObjectSlices_parses). }
  repeat parses_step.
Qed.

Lemma decode_request_parses r :
  valid_request r -> parses decode_request (enc_request r) (sent r).
Proof.
  intros Hv. unfold decode_request, enc_request.
  eapply parses_bind; [by apply from_u32_decodes; destruct r|].
  destruct r; cbn [valid_request enc_arguments request_tag sent] in *;
    cbn [decode_arguments].
  7,8: by apply decode_write_fs_parses.
  9,10: by apply decode_read_slices_parses.
  1: apply (decode_range_parses ListNamespaces).
  4: parses_step; apply (decode_range_parses (ListObjects ns)).
  all: try by repeat parses_step.
  - apply (parses_bind_ret _ UpdateSession).
    apply (from_vector_decodes _ _ _ (valid_pair valid_any (valid_optional valid_any))); [apply _|].
    split; [|done]. apply Forall_forall. intros [n [v|]] _; by split.
  - destruct Hv as [[Ha Hla] [Hu Hlu]]. do 2 parses_step. eapply parses_bind.
    { apply (from_vector_parses_fmap _ _ _ id valid_Assert); [|done..]. apply decode_Assert_parses. }
    rewrite list_fmap_id. apply (parses_bind_ret _ (ApplySequence _ _ _)).
    by apply (from_vector_parses_fmap _ _ _ sent_Update valid_Update);
      [apply decode_Update_parses|..].
Qed.

(** ** Statuses *)

Lemma read_status_parses st rc what :
  valid_int 32 rc ->
  parses (read_status st) (enc_status rc what)
    (Make_Status rc (if rc =? 0 then _what st else what)).
Proof.
  intros Hrc. unfold read_status, enc_status. parses_step.
  destruct (rc =? 0); simpl; repeat parses_step.
Qed.

Lemma respond_ok {A} st (r : reader A) bs a :
  parses r bs a -> parses (respond st r) (enc_status 0 [] ++ bs) (Make_Status 0 (_what st), Some a).
Proof.
  intros Hr. eapply parses_bind; [by apply (read_status_parses st 0 [])|].
  by apply (parses_bind_ret r (fun a => (_, Some a))).
Qed.

Lemma respond_error {A} st (r : reader A) rc what :
  valid_int 32 rc -> rc <> 0 ->
  parses (respond st r) (enc_status rc what) (Make_Status rc what, None).
Proof.
  intros Hrc Hne. eapply parses_bind_nil; [by apply read_status_parses|].
  apply Z.eqb_neq in Hne. unfold is_ok, return_code.OK; simpl. rewrite Hne. parses_step.
Qed.

(** ** OSD maps *)

Lemma read_osd_entry_parses o result :
  valid_osd o -> parses (read_osd_entry result) (enc_osd o) (add_osd result o).
Proof.
  intros (Hid & Hinfo & Hcaps & Hl). apply parses_small. intros Hs.
  unfold read_osd_entry, enc_osd, enc_string in *. rewrite !len_app, !len_le_split in Hs.
  pose proof (len_nonneg (enc_x_uint64 (wo_id o))).
  pose proof (len_nonneg (enc_OsdCapabilities (wo_caps o))).
  set (inner := enc_OsdInfo (wo_info o) (wo_extra o)) in *. pose proof (len_nonneg inner).
  eapply parses_bind; [by apply from_x_uint64_decodes|]. rewrite <- app_assoc.
  eapply parses_bind; [apply (from_u32_decodes (len inner)); split; lia|].
  intros msg rest Hwf E. rewrite <- app_assoc in E.
  pose proof (remaining_split _ _ _ Hwf E) as Hle.
  destruct (nested_spec msg inner _ Hwf E) as (Hn & Hw & Hrem & _).
  rewrite (bind_ret_eq _ _ _ _ _ Hn).
  rewrite (bind_ret_eq _ _ _ _ _ (skip_spec msg (len inner) Hwf ltac:(lia))).
  rewrite (bind_ret_eq (on_nested _ from_OsdInfo) _ _ (wo_info o) (advance (len inner) msg)).
  2: { unfold on_nested. f_equal.
    rewrite (from_OsdInfo_parses (wo_info o) (wo_extra o) Hinfo _ [] Hw); [done|].
    by rewrite app_nil_r. }
  rewrite len_app, <- advance_advance.
  apply (parses_bind_ret from_OsdCapabilities
    (fun caps => <[wo_id o := (wo_info o, caps)]> result)
    (enc_OsdCapabilities (wo_caps o)) (read_caps (wo_caps o))) with (rest := rest).
  - by apply from_OsdCapabilities_parses.
  - by apply wf_advance; [|lia].
  - by apply remaining_advance.
Qed.

Lemma read_osd_infos_parses os result :
  Forall valid_osd os -> len os < 2 ^ 32 ->
  parses (_read_osd_infos result) (enc_osds os) (foldl add_osd result os).
Proof.
  intros Hv Hl. pose proof (len_nonneg os).
  eapply parses_bind; [apply (from_u32_decodes (len os)); split; lia|].
  unfold len. rewrite Nat2Z.id. apply for_up_parses.
  intros res o Ho. apply read_osd_entry_parses. by eapply Forall_forall in Hv.
Qed.

(** ** Slices *)

Lemma mem_write_outside a p bs (mm : mem) :
  ~ in_block a p (len bs) -> mem_write p bs mm !! a = mm !! a.
Proof.
  revert p mm. induction bs as [|b bs IH]; intros p mm Ha; [done|]. simpl.
  rewrite len_cons in Ha. pose proof (len_nonneg bs). unfold in_block in *.
  rewrite IH by lia. apply lookup_insert_ne. lia.
Qed.

Lemma mem_write_inside i b p bs (mm : mem) :
  bs !! i = Some b -> mem_write p bs mm !! (p + Z.of_nat i) = Some b.
Proof.
  revert i p mm. induction bs as [|b0 bs IH]; intros i p mm; [done|].
  destruct i as [|i]; simpl.
  - intros [= ->]. rewrite mem_write_outside by (unfold in_block; lia).
    rewrite Z.add_0_r. by rewrite lookup_insert_eq.
  - intros Hi. replace (p + Z.of_nat (S i)) with (p + 1 + Z.of_nat i) by lia. by apply IH.
Qed.

(** A slice keeps what was written to it as long as later slices are elsewhere. *)
Lemma write_slices_outside a ss datas mm :
  Forall2 (fun s d => len d = sd_size s) ss datas ->
  Forall (fun s => ~ in_block a (buf s) (sd_size s)) ss ->
  write_slices ss datas mm !! a = mm !! a.
Proof.
  unfold write_slices. intros H. revert mm. induction H as [|s d ss datas Hd _ IH]; intros mm Ha; [done|].
  inversion Ha; subst. simpl. rewrite IH by done. unfold write_slice; simpl.
  apply mem_write_outside. by rewrite Hd.
Qed.

Lemma write_slices_inside ss datas mm k s d i b :
  Forall2 (fun s d => len d = sd_size s) ss datas ->
  (forall j1 j2 s1 s2, j1 <> j2 -> ss !! j1 = Some s1 -> ss !! j2 = Some s2 ->
     disjoint_slices s1 s2) ->
  ss !! k = Some s -> datas !! k = Some d -> d !! i = Some b ->
  write_slices ss datas mm !! (buf s + Z.of_nat i) = Some b.
Proof.
  intros H. revert mm k. induction H as [|s0 d0 ss datas Hd0 HF IH]; intros mm k Hdj Hs Hd Hi; [done|].
  destruct k as [|k]; simpl in Hs, Hd.
  - injection Hs as ->. injection Hd as ->.
    change (write_slices ss datas (write_slice mm (s, d)) !! (buf s + Z.of_nat i) = Some b).
    rewrite write_slices_outside; [by apply mem_write_inside|done|].
    apply Forall_forall. intros s' Hs' Hin. apply list_elem_of_lookup in Hs' as [j Hj].
    apply (Hdj 0%nat (S j) s s' ltac:(lia) eq_refl Hj (buf s + Z.of_nat i)); [|done].
    apply lookup_lt_Some in Hi. unfold in_block. unfold len in Hd0. lia.
  - apply (IH (write_slice mm (s0, d0)) k); [|done..].
    intros j1 j2 s1 s2 Hne H1 H2. apply (Hdj (S j1) (S j2)); [lia|done..].
Qed.

Lemma rm_eq {A} (r : reader A) msg mm o msg' :
  r msg = (o, msg') -> rm r (msg, mm) = (o, (msg', mm)).
Proof. unfold rm, zoom. simpl. by intros ->. Qed.

Lemma copy_slice_spec s d msg mm rest :
  wf_message msg -> remaining msg = d ++ rest -> len d = sd_size s ->
  copy_slice s (msg, mm) = (Ret tt, (advance (len d) msg, mem_write (buf s) d mm)).
Proof.
  intros Hwf E Hd. unfold copy_slice. rewrite <- Hd.
  pose proof (remaining_split _ _ _ Hwf E). pose proof (len_nonneg d).
  rewrite (bind_ret_eq _ _ _ _ _ (rm_eq _ _ mm _ _ (current_ok _ _ _ Hwf E))).
  rewrite modify_bind.
  cbn [fst snd]. apply (rm_eq (message.skip (len d))), skip_spec; [done|lia].
Qed.

Lemma for_each_concat {ST A} (f : A -> M ST unit) (ll : list (list A)) s :
  for_each (fun l => for_each f l) ll s = for_each f (concat ll) s.
Proof.
  revert s. induction ll as [|l ll IH]; intros s; [done|]. simpl.
  revert s. induction l as [|x l IHl]; intros s; simpl; [apply IH|].
  unfold mbind, M_bind in *. destruct (f x s) as [[[]| | |] s']; [apply IHl|done..].
Qed.

Lemma for_each_copy_slice ss datas msg mm rest :
  wf_message msg -> Forall2 (fun s d => len d = sd_size s) ss datas ->
  remaining msg = concat datas ++ rest ->
  for_each copy_slice ss (msg, mm)
  = (Ret tt, (advance (len (concat datas)) msg, write_slices ss datas mm)).
Proof.
  intros Hwf H. revert msg mm Hwf. induction H as [|s d ss datas Hd _ IH]; intros msg mm Hwf E.
  { simpl. by rewrite len_nil, advance_0. }
  simpl in *. rewrite <- app_assoc in E.
  rewrite (bind_ret_eq _ _ _ _ _ (copy_slice_spec s d msg mm _ Hwf E Hd)).
  pose proof (remaining_split _ _ _ Hwf E). pose proof (len_nonneg d).
  rewrite IH; [|by apply wf_advance; [|lia]|by apply remaining_advance].
  by rewrite advance_advance, len_app.
Qed.

Lemma copy_slices_spec os datas msg mm rest :
  wf_message msg -> Forall2 (fun s d => len d = sd_size s) (all_slices os) datas ->
  remaining msg = concat datas ++ rest ->
  copy_slices os (msg, mm)
  = (Ret tt, (advance (len (concat datas)) msg, write_slices (all_slices os) datas mm)).
Proof.
  intros Hwf HF E. unfold copy_slices.
  assert (for_each (fun o => for_each copy_slice (slices o)) os (msg, mm)
          = for_each copy_slice (all_slices os) (msg, mm)) as ->.
  { unfold all_slices. rewrite <- for_each_concat. generalize (msg, mm). clear.
    induction os as [|o os IH]; intros s; [done|]. simpl. unfold mbind, M_bind.
    destruct (for_each copy_slice (slices o) s) as [[[]| | |] s']; done. }
  by apply for_each_copy_slice with (rest := rest).
Qed.

(** ** Object infos *)

Section object_infos.
Context `{Snappy}.

Lemma read_object_info_parses acc i :
  valid_info i ->
  parses (read_object_info acc) (enc_info i) (acc ++ option_list (read_info i)).
Proof.
  intros (Hver & Hns & Hres). unfold read_object_info, enc_info.
  do 2 parses_step. intros msg rest Hwf E.
  pose proof (from2_ManifestWithNamespaceId_spec msg false _ _ _ rest Hver Hns Hwf E) as H2.
  fold (info_result i) in H2. unfold read_umf, read_info.
  destruct Hres as [(mf & Hr & Hn) | (e & Hr)]; rewrite Hr in *; rewrite H2.
  - simpl. rewrite bool_decide_true by done. done.
  - simpl. by rewrite app_nil_r.
Qed.

Lemma foldl_option_list {A B} (f : A -> option B) (l : list A) acc :
  foldl (fun acc x => acc ++ option_list (f x)) acc l = acc ++ omap f l.
Proof.
  revert acc. induction l as [|x l IH]; intros acc; simpl; [by rewrite app_nil_r|].
  rewrite IH. destruct (f x); simpl; by rewrite <- app_assoc.
Qed.

Lemma down_from_len {A} (l : list A) : len l < 2 ^ 31 -> down_from (len l) = length l.
Proof.
  intros Hl. unfold down_from, len in *. destruct l; [done|].
  rewrite s32_small; simpl in *; lia.
Qed.

Lemma read_object_infos_parses wis :
  Forall valid_info wis -> len wis < 2 ^ 31 ->
  parses _read_object_infos (enc_infos wis) (omap read_info wis).
Proof.
  intros Hv Hl. pose proof (len_nonneg wis).
  eapply parses_bind; [apply (from_u32_decodes (len wis)); split; lia|].
  rewrite down_from_len by done.
  rewrite <- (app_nil_l (omap _ _)), <- foldl_option_list.
  apply for_up_parses. intros acc i Hi. apply read_object_info_parses.
  by eapply Forall_forall in Hv.
Qed.
End object_infos.

(** ** Properties *)

(** C15: every request of the protocol carries its own tag followed by its
    arguments in the order the proxy reads them: decoding the bytes of any of the
    22 requests yields that request, up to what is not sent at all (the addresses
    of slices, [linc] without [last], and what lies behind an uploaded block). *)
Theorem requests_roundtrip r :
  valid_request r ->
  appends (write_request r) (enc_request r) /\ parses decode_request (enc_request r) (sent r).
Proof. intros Hv. split; [by apply write_request_appends|by apply decode_request_parses]. Qed.

Lemma requests_roundtrip_witness :
  let r := ReadObjectsSlices2 (str "ns")
    [Make_ObjectSlices (str "obj") [Make_SliceDescriptor 4096 10 20; Make_SliceDescriptor 8192 0 4]]
    true in
  parses decode_request (enc_request r)
    (ReadObjectsSlices2 (str "ns")
      [Make_ObjectSlices (str "obj") [Make_SliceDescriptor 0 10 20; Make_SliceDescriptor 0 0 4]]
      true).
Proof.
  intros r. apply (requests_roundtrip r).
  split; [|reflexivity]. repeat constructor; simpl; lia.
Defined.



(** C20: a successful slice response puts each slice's bytes into the buffer its
    descriptor names and changes no other address: in buffers that do not overlap
    every slice ends up whole, at its place, in the request's order. *)
Theorem slices_land_in_buffers st os datas msg mm rest count :
  wf_message msg ->
  Forall2 (fun s d => len d = sd_size s) (all_slices os) datas ->
  (forall j1 j2 s1 s2, j1 <> j2 -> all_slices os !! j1 = Some s1 ->
     all_slices os !! j2 = Some s2 -> disjoint_slices s1 s2) ->
  valid_int 32 count ->
  remaining msg = enc_status 0 [] ++ enc_int 4 count ++ concat datas ++ rest ->
  exists msg' mm',
    read_read_objects_slices_response os st (msg, mm)
    = (Ret (Make_Status 0 (_what st)), (msg', mm')) /\ remaining msg' = rest /\
    (forall k s d i b, all_slices os !! k = Some s -> datas !! k = Some d ->
       d !! i = Some b -> mm' !! (buf s + Z.of_nat i) = Some b) /\
    (forall a, Forall (fun s => ~ in_block a (buf s) (sd_size s)) (all_slices os) ->
       mm' !! a = mm !! a).
Proof.
  intros Hwf HF Hdj Hc E. pose proof (remaining_split _ _ _ Hwf E) as H0.
  change (len (enc_status 0 [])) with 4 in H0.
  assert (wf_message (advance 4 msg)) as Hw1 by (by apply wf_advance; [|lia]).
  pose proof (remaining_advance _ _ _ Hwf E) as E1. change (len (enc_status 0 [])) with 4 in E1.
  pose proof (remaining_split _ _ _ Hw1 E1) as H1. change (len (enc_int 4 count)) with 4 in H1.
  assert (wf_message (advance 4 (advance 4 msg))) as Hw2 by (by apply wf_advance; [|lia]).
  pose proof (remaining_advance _ _ _ Hw1 E1) as E2. change (len (enc_int 4 count)) with 4 in E2.
  do 2 eexists. split.
  { unfold read_read_objects_slices_response.
    assert (valid_int 32 0) as Hz by (vm_compute; split; congruence).
    rewrite (bind_ret_eq _ _ _ _ _ (rm_eq _ _ mm _ _ (read_status_parses st 0 [] Hz msg _ Hwf E))).
    cbn [Z.eqb is_ok _return_code]. unfold is_ok, return_code.OK; cbn [Z.eqb _return_code].
    change (len (enc_status 0 [])) with 4.
    erewrite bind_ret_eq; [reflexivity|].
    rewrite (bind_ret_eq _ _ _ _ _ (rm_eq _ _ mm _ _ (from_u32_decodes count Hc _ _ Hw1 E1))).
    change (len (enc_int 4 count)) with 4. by apply copy_slices_spec with (rest := rest). }
  split; [by apply remaining_advance|]. split.
  - intros k s d i b Hs Hd Hi. by apply (write_slices_inside _ _ _ k s d).
  - intros a Ha. by apply write_slices_outside.
Qed.

Lemma slices_land_in_buffers_witness :
  let os := [Make_ObjectSlices (str "obj") [Make_SliceDescriptor 200 0 2; Make_SliceDescriptor 100 7 1]] in
  let bs := enc_status 0 [] ++ enc_int 4 2 ++ [Byte.x0a; Byte.x0b; Byte.x0c] in
  exists msg' mm',
    read_read_objects_slices_response os (Make_Status 0 [])
      (message.make (message_buffer.from_string bs), ∅) = (Ret (Make_Status 0 []), (msg', mm')) /\
    mm' !! 201 = Some Byte.x0b.
Proof.
  intros os bs.
  destruct (message_make_spec bs ltac:(vm_compute; reflexivity)) as (Hwf & Hrem & _).
  destruct (slices_land_in_buffers (Make_Status 0 []) os [[Byte.x0a; Byte.x0b]; [Byte.x0c]]
    (message.make (message_buffer.from_string bs)) ∅ [] 2) as (msg' & mm' & H1 & _ & H2 & _).
  - exact Hwf.
  - repeat constructor.
  - intros [|[|[]]] [|[|[]]] s1 s2 Hne H1 H2; simpl in *; simplify_eq; try done;
      intros a Ha1 Ha2; unfold in_block in *; simpl in *; lia.
  - split; vm_compute; congruence.
  - exact Hrem.
  - exists msg', mm'. split; [exact H1|].
    apply (H2 0%nat (Make_SliceDescriptor 200 0 2) [Byte.x0a; Byte.x0b] 1%nat); reflexivity.
Defined.

(** The reader of the [osd_info] response first looks at the status: an error
    response yields its code and message, no result, and nothing after it is read;
    the OSD map of a successful response is the announced entries folded in order. *)
Theorem osd_info_response_read st os rc what :
  Forall valid_osd os -> len os < 2 ^ 32 -> valid_int 32 rc -> rc <> 0 ->
  parses (read_osd_info_response st) (enc_status 0 [] ++ enc_osds os)
    (Make_Status 0 (_what st), Some (read_osds os)) /\
  parses (read_osd_info_response st) (enc_status rc what) (Make_Status rc what, None).
Proof.
  intros Hv Hl Hrc Hne. split; [|by apply respond_error].
  by apply respond_ok, read_osd_infos_parses.
Qed.

Lemma osd_info_response_read_witness :
  let o := Make_wire_osd 3 (Make_OsdInfo true (str "long") [str "10.0.0.1"] 8000 false true (str "node"))
    [Byte.x01] [CRoraFetcher 8001] in
  parses (read_osd_info_response (Make_Status 0 [])) (enc_status 0 [] ++ enc_osds [o])
    (Make_Status 0 [], Some (read_osds [o])).
Proof.
  intros o. apply (osd_info_response_read (Make_Status 0 []) [o] 1 []).
  - repeat constructor; simpl; lia || (vm_compute; congruence).
  - reflexivity.
  - split; vm_compute; congruence.
  - lia.
Defined.
