(* ===== verification/Writes.v ===== *)
(** * Writes to the caller's buffers

    A read fills several blocks of the caller's memory, in an order that depends on
    how its slices are grouped.  This file has the theory the end-to-end theorem
    needs: writes to disjoint blocks commute, so any permutation of them leaves the
    same memory, and overwriting one of them changes only its block. *)

From S2P Require Import Prelude ProxyProtocol.

Local Open Scope Z_scope.

Abbreviation write := (Z * bytes)%type.

Definition apply_writes (ws : list write) (mm : mem) : mem :=
  foldl (fun mm w => mem_write w.1 w.2 mm) mm ws.

Definition disjoint_writes (w1 w2 : write) : Prop :=
  forall a, in_block a w1.1 (len w1.2) -> in_block a w2.1 (len w2.2) -> False.

Fixpoint pairwise_disjoint (ws : list write) : Prop :=
  match ws with
  | [] => True
  | w :: ws => Forall (disjoint_writes w) ws /\ pairwise_disjoint ws
  end.

Lemma disjoint_writes_sym w1 w2 : disjoint_writes w1 w2 -> disjoint_writes w2 w1.
Proof. intros H a H1 H2. by apply (H a). Qed.

(** ** Reading back *)

Lemma mem_write_lookup a p bs (mm : mem) :
  mem_write p bs mm !! a
  = if bool_decide (in_block a p (len bs)) then bs !! Z.to_nat (a - p) else mm !! a.
Proof.
  case_bool_decide as Ha; [|by apply mem_write_outside]. unfold in_block, len in Ha.
  destruct (bs !! Z.to_nat (a - p)) as [b|] eqn:E.
  - replace a with (p + Z.of_nat (Z.to_nat (a - p))) at 1 by lia. by apply mem_write_inside.
  - apply lookup_ge_None in E. lia.
Qed.

Lemma mem_write_comm w1 w2 mm : disjoint_writes w1 w2 ->
  mem_write w1.1 w1.2 (mem_write w2.1 w2.2 mm) = mem_write w2.1 w2.2 (mem_write w1.1 w1.2 mm).
Proof.
  intros Hd. apply map_eq. intros a. rewrite !mem_write_lookup.
  do 2 case_bool_decide; try done. by destruct (Hd a).
Qed.

Lemma mem_write_over p a b mm : len a = len b -> mem_write p b (mem_write p a mm) = mem_write p b mm.
Proof.
  intros Hl. apply map_eq. intros x. rewrite !mem_write_lookup, Hl. by case_bool_decide.
Qed.

(** ** Permutations *)

Lemma apply_writes_app ws1 ws2 mm :
  apply_writes (ws1 ++ ws2) mm = apply_writes ws2 (apply_writes ws1 mm).
Proof. apply foldl_app. Qed.

(** Writes to rising addresses that do not reach into one another. *)
Fixpoint rising (p : Z) (ws : list write) : bool :=
  match ws with
  | [] => true
  | w :: ws => (p <=? w.1) && rising (w.1 + len w.2) ws
  end.
Lemma rising_disjoint p ws : rising p ws = true ->
  Forall (fun w => p <= w.1) ws /\ pairwise_disjoint ws.
Proof.
  revert p. induction ws as [|w ws IH]; intros p Hr; [by split|].
  simpl in Hr. apply andb_true_iff in Hr as [Hp%Z.leb_le Hr].
  destruct (IH _ Hr) as [Hle Hd]. pose proof (len_nonneg w.2). split; [constructor; [done|]|split; [|done]].
  - eapply Forall_impl; [exact Hle|]. simpl. lia.
  - eapply Forall_impl; [exact Hle|]. simpl. intros v Hv a. unfold in_block. lia.
Qed.

Lemma pairwise_perm ws1 ws2 : ws1 ≡ₚ ws2 -> pairwise_disjoint ws1 -> pairwise_disjoint ws2.
Proof.
  induction 1 as [|w ws1 ws2 HP IH|w1 w2 ws|ws1 ws2 ws3 _ IH1 _ IH2]; simpl; [done| | |auto].
  - intros [Hw Hd]. split; [|auto]. by rewrite <- HP.
  - intros [Hw1 [Hw2 Hd]]. apply Forall_cons in Hw1 as [H12 Hw1].
    split; [|done]. apply Forall_cons. split; [by apply disjoint_writes_sym|done].
Qed.

Lemma apply_writes_perm ws1 ws2 mm : ws1 ≡ₚ ws2 -> pairwise_disjoint ws1 ->
  apply_writes ws1 mm = apply_writes ws2 mm.
Proof.
  intros HP. revert mm. induction HP as [|w ws1 ws2 HP IH|w1 w2 ws|ws1 ws2 ws3 HP1 IH1 _ IH2];
    intros mm Hd; [done| | |].
  - apply IH, Hd.
  - unfold apply_writes; simpl. f_equal. apply mem_write_comm. destruct Hd as [Hd _].
    apply Forall_inv in Hd. by apply disjoint_writes_sym.
  - rewrite IH1 by done. by apply IH2, (pairwise_perm ws1).
Qed.

(** The blocks matter for disjointness, not what is written. *)
Lemma pairwise_blocks ws1 ws2 :
  Forall2 (fun w1 w2 => w1.1 = w2.1 /\ len w1.2 = len w2.2) ws1 ws2 ->
  pairwise_disjoint ws1 -> pairwise_disjoint ws2.
Proof.
  induction 1 as [|w1 w2 ws1 ws2 [Hp Hl] HF IH]; [done|]. intros [Hw Hd]. split; [|auto]. clear Hd IH.
  induction HF as [|v1 v2 ws1 ws2 [Hp' Hl'] HF IH]; [done|].
  apply Forall_cons in Hw as [Hv Hw]. apply Forall_cons. split; [|auto].
  intros a. rewrite <- Hp, <- Hl, <- Hp', <- Hl'. apply Hv.
Qed.

(** A block of disjoint writes, read back and overwritten. *)
Lemma apply_writes_lookup ws1 p bs ws2 mm a : pairwise_disjoint (ws1 ++ (p, bs) :: ws2) ->
  in_block a p (len bs) ->
  apply_writes (ws1 ++ (p, bs) :: ws2) mm !! a = bs !! Z.to_nat (a - p).
Proof.
  intros Hd Ha. rewrite (apply_writes_perm _ ((ws1 ++ ws2) ++ [(p, bs)]) mm) by
    (done || by rewrite <- Permutation_middle, <- Permutation_cons_append).
  rewrite apply_writes_app. unfold apply_writes at 1; simpl.
  rewrite mem_write_lookup. by rewrite bool_decide_eq_true_2.
Qed.

Lemma apply_writes_over ws1 p a b ws2 mm : pairwise_disjoint (ws1 ++ (p, a) :: ws2) ->
  len a = len b ->
  mem_write p b (apply_writes (ws1 ++ (p, a) :: ws2) mm) = apply_writes (ws1 ++ (p, b) :: ws2) mm.
Proof.
  intros Hd Hl.
  assert (forall c, ws1 ++ (p, c) :: ws2 ≡ₚ (ws1 ++ ws2) ++ [(p, c)]) as HP
    by (intros c; by rewrite <- Permutation_middle, <- Permutation_cons_append).
  assert (pairwise_disjoint (ws1 ++ (p, b) :: ws2)) as Hd'.
  { eapply pairwise_blocks; [|exact Hd]. apply Forall2_app; [|constructor; [done|]];
      apply Forall2_same_length_lookup; split; try done; intros i x y; intros; simplify_eq; done. }
  rewrite (apply_writes_perm _ _ mm (HP a) Hd), (apply_writes_perm _ _ mm (HP b) Hd').
  rewrite !apply_writes_app. unfold apply_writes at 1 3; simpl. by apply mem_write_over.
Qed.
