(* ===== verification/AsdProtocol.v ===== *)
(** * The ASD's protocol: [asd_protocol.h] and [asd_protocol.cc]

    The prologue of a connection, the three requests and the readers of their
    responses.  As for the proxy's protocol, an inductive type of requests with a
    reference decoder says what the server gets. *)

From S2P Require Import Prelude Llio.

Local Open Scope Z_scope.
Local Open Scope alba_scope.

Module asd_return_code.
Definition OK : Z := 0.
Definition UNKNOWN : Z := 1.
Definition ASSERT_FAILED : Z := 2.
Definition UNKNOWN_OPERATION : Z := 4.
Definition FULL : Z := 6.
Definition PROTOCOL_VERSION_MISMATCH : Z := 7.
End asd_return_code.

(** [enum command]. *)
Module command.
Definition GET_VERSION : Z := 7.
Definition PARTIAL_GET : Z := 11.
Definition SLOWNESS : Z := 14.
End command.

(** [Status] is its return code. *)
Record AsdStatus := Make_AsdStatus { asd_rc : Z }.
Definition asd_is_ok (st : AsdStatus) : bool := asd_rc st =? asd_return_code.OK.

(** [target] is an address. *)
Record slice := Make_slice { slice_offset : Z; slice_length : Z; target : Z }.

Definition _MAGIC : bytes := str "aLbA".
Definition _VERSION : Z := 1.

Definition make_prologue (long_id : option bytes) : writer :=
  message_builder.add_raw _MAGIC ;;
  to_u32 _VERSION ;;
  to_optional to_string long_id.

Definition write_partial_get_request (key : bytes) (slices : list slice) : writer :=
  to_u32 11 ;;
  to_string key ;;
  to_u32 (u32 (len slices)) ;;
  for_each (fun slice => to_u32 (slice_offset slice) ;; to_u32 (slice_length slice)) slices ;;
  to_u32 1.

Definition read_asd_status : reader AsdStatus := rc ← from_u32; mret (Make_AsdStatus rc).

(** [success] keeps its old value when the status is not OK. *)
Definition read_partial_get_response (success : bool) : reader (AsdStatus * bool) :=
  status ← read_asd_status;
  if negb (asd_is_ok status) then mret (status, success) else
  success ← from_bool;
  mret (status, success).

Abbreviation slowness_t := (option (Z * Z)).
Definition write_set_slowness_request (slowness : slowness_t) : writer :=
  to_u32 command.SLOWNESS ;;
  match slowness with
  | None => to_bool false
  | Some s => to_bool true ;; to_pair to_double to_double s
  end.
Definition read_set_slowness_response : reader AsdStatus := read_asd_status.

Definition write_get_version_request : writer := to_u32 command.GET_VERSION.
Definition read_get_version_response : reader (AsdStatus * option (Z * Z * Z * bytes)) :=
  status ← read_asd_status;
  if asd_is_ok status then
    major ← from_i32; minor ← from_i32; patch ← from_i32; hash ← from_string;
    mret (status, Some (major, minor, patch, hash))
  else mret (status, None).

(** ** Requests as data, and the reference decoder *)

Inductive asd_request :=
  | PartialGet (key : bytes) (slices : list slice)
  | SetSlowness (slowness : slowness_t)
  | GetVersion.
Definition write_asd_request (r : asd_request) : writer :=
  match r with
  | PartialGet key slices => write_partial_get_request key slices
  | SetSlowness s => write_set_slowness_request s
  | GetVersion => write_get_version_request
  end.
Definition enc_slice (s : slice) : bytes := enc_int 4 (slice_offset s) ++ enc_int 4 (slice_length s).
Definition enc_asd_request (r : asd_request) : bytes :=
  match r with
  | PartialGet key slices =>
      enc_int 4 11 ++ enc_string key ++ enc_int 4 (u32 (len slices))
        ++ concat (enc_slice <$> slices) ++ enc_int 4 1
  | SetSlowness s => enc_int 4 14 ++ enc_optional (enc_pair (enc_int 8) (enc_int 8)) s
  | GetVersion => enc_int 4 7
  end.
Definition valid_slice (s : slice) : Prop :=
  valid_int 32 (slice_offset s) /\ valid_int 32 (slice_length s).
Definition valid_asd_request (r : asd_request) : Prop :=
  match r with
  | PartialGet _ slices => Forall valid_slice slices /\ len slices < 2 ^ 32
  | SetSlowness s => valid_optional (valid_pair (valid_int 64) (valid_int 64)) s
  | GetVersion => True
  end.
(** The target addresses stay with the client. *)
Definition sent_asd (r : asd_request) : asd_request :=
  match r with
  | PartialGet key slices =>
      PartialGet key ((fun s => Make_slice (slice_offset s) (slice_length s) 0) <$> slices)
  | r => r
  end.
(** The count is followed by (offset, length) pairs and the priority. *)
Definition decode_slice (acc : list slice) : reader (list slice) :=
  offset ← from_u32; length ← from_u32; mret (acc ++ [Make_slice offset length 0]).
Definition decode_asd_request : reader asd_request :=
  cmd ← from_u32;
  match cmd with
  | 11 => key ← from_string; n ← from_u32;
          slices ← for_up (Z.to_nat n) decode_slice [];
          prio ← from_u32;
          if prio =? 1 then mret (PartialGet key slices) else mout (throw_deser (str "priority"))
  | 14 => s ← from_optional (from_pair from_double from_double); mret (SetSlowness s)
  | 7 => mret GetVersion
  | _ => mout (throw_deser (str "unknown operation"))
  end.

(** The magic, the version and the optional long id. *)
Definition enc_prologue (long_id : option bytes) : bytes :=
  _MAGIC ++ enc_int 4 1 ++ enc_optional enc_string long_id.

(** ** Facts *)

Lemma make_prologue_appends long_id : appends (make_prologue long_id) (enc_prologue long_id).
Proof.
  unfold make_prologue, enc_prologue. do 2 appends_step. apply to_optional_encodes, _.
Qed.

Lemma write_asd_request_appends r : appends (write_asd_request r) (enc_asd_request r).
Proof.
  destruct r as [key slices|s|]; cbn [write_asd_request enc_asd_request].
  - unfold write_partial_get_request. do 3 appends_step.
    apply appends_bind; [|appends_step]. apply for_each_appends_valid. intros s _.
    unfold enc_slice. repeat appends_step.
  - unfold write_set_slowness_request. appends_step. destruct s as [p|].
    + apply appends_bind; [apply to_bool_encodes|]. apply to_pair_encodes; apply _.
    + apply to_bool_encodes.
  - apply to_u32_encodes.
Qed.

Lemma decode_asd_request_parses r :
  valid_asd_request r -> parses decode_asd_request (enc_asd_request r) (sent_asd r).
Proof.
  unfold decode_asd_request, enc_asd_request.
  destruct r as [key slices|s|]; cbn [valid_asd_request sent_asd].
  - intros [Hv Hl]. pose proof (len_nonneg slices). do 2 parses_step.
    rewrite u32_small by lia.
    eapply parses_bind; [apply (from_u32_decodes (len slices)); split; lia|].
    unfold len. rewrite Nat2Z.id.
    rewrite <- (app_nil_l ((fun s => Make_slice _ _ _) <$> slices)).
    rewrite <- (foldl_snoc_map (fun s => Make_slice (slice_offset s) (slice_length s) 0)).
    eapply parses_bind.
    { apply (for_up_parses _ (fun acc s => acc ++ [Make_slice (slice_offset s) (slice_length s) 0])).
      intros acc s Hs. eapply Forall_forall in Hv as [Ho Hln]; [|done].
      unfold decode_slice, enc_slice. repeat parses_step. }
    eapply parses_bind_nil; [by apply (from_u32_decodes 1)|]. parses_step.
  - intros Hv. parses_step. apply (parses_bind_ret _ SetSlowness).
    by apply (from_optional_decodes _ _ _ (from_pair_decodes _ _ _ _ _ _
      from_double_decodes from_double_decodes)).
  - intros _. repeat parses_step.
Qed.

Lemma read_asd_status_parses rc :
  valid_int 32 rc -> parses read_asd_status (enc_int 4 rc) (Make_AsdStatus rc).
Proof. intros H. by apply parses_bind_ret, from_u32_decodes. Qed.

Lemma read_partial_get_ok old b :
  parses (read_partial_get_response old) (enc_int 4 0 ++ enc_bool b) (Make_AsdStatus 0, b).
Proof.
  eapply parses_bind; [by apply read_asd_status_parses|]. by apply parses_bind_ret, from_bool_decodes.
Qed.

Lemma read_partial_get_error old rc :
  valid_int 32 rc -> rc <> 0 ->
  parses (read_partial_get_response old) (enc_int 4 rc) (Make_AsdStatus rc, old).
Proof.
  intros Hv Hne. eapply parses_bind_nil; [by apply read_asd_status_parses|].
  apply Z.eqb_neq in Hne. unfold asd_is_ok, asd_return_code.OK; simpl. rewrite Hne. parses_step.
Qed.

(** ** Properties *)


