(* ===== verification/LruCache.v ===== *)
(** * The LRU cache: [lru_cache.h]

    [UnsafeLRUCache] over a [boost::bimap] whose left view is a hash map on the
    keys and whose right view is a list, and [SafeLRUCache], the same under a
    mutex.  The bimap is an interface: the class [BimapOps] holds the calls the
    code makes, [Bimap] what Boost documents of them, in terms of the list of
    entries the right view shows; [list_bimap] is an instance. *)

From stdpp Require Import sorting.
From S2P Require Import Prelude.

Local Open Scope Z_scope.
Local Open Scope alba_scope.

(** ** The container *)

Class BimapOps (K V : Type) := {
  bimap : Type;
  bimap_empty : bimap;
  bimap_size : bimap -> Z;
  (** [left.find(k)], with the value behind the iterator. *)
  left_find : bimap -> K -> option V;
  (** [right.relocate(right.end(), project_right(left.find(k)))]. *)
  relocate_end : bimap -> K -> bimap;
  (** [right.erase(right.begin())]. *)
  erase_begin : bimap -> bimap;
  (** [insert(value_type(k, v))] and whether it took place. *)
  bimap_insert : bimap -> K -> V -> bool * bimap;
  (** [left.erase(k)]: the number of entries erased, as a [bool]. *)
  left_erase : bimap -> K -> bool * bimap;
  right_keys : bimap -> list K }.

Section entries.
Context {K V : Type} `{EqDecision K}.

Fixpoint assoc (k : K) (l : list (K * V)) : option V :=
  match l with
  | [] => None
  | (k', v) :: l => if decide (k = k') then Some v else assoc k l
  end.
Definition without (k : K) (l : list (K * V)) : list (K * V) :=
  filter (fun kv => kv.1 <> k) l.

(** The documented behaviour: a key that is present is not inserted again; new
    entries go to the end of the right list. *)
Class Bimap (B : BimapOps K V) := {
  view : bimap -> list (K * V);
  view_empty : view bimap_empty = [];
  view_size b : bimap_size b = len (view b);
  view_find b k : left_find b k = assoc k (view b);
  view_relocate b k v : assoc k (view b) = Some v ->
    view (relocate_end b k) = without k (view b) ++ [(k, v)];
  view_erase_begin b : view b <> [] -> view (erase_begin b) = tail (view b);
  view_insert b k v :
    match assoc k (view b) with
    | Some _ => bimap_insert b k v = (false, b)
    | None => fst (bimap_insert b k v) = true /\
              view (snd (bimap_insert b k v)) = view b ++ [(k, v)]
    end;
  view_erase b k :
    fst (left_erase b k) = bool_decide (is_Some (assoc k (view b))) /\
    view (snd (left_erase b k)) = without k (view b);
  view_keys b : right_keys b = fst <$> view b }.
End entries.

(** ** The caches *)

Module UnsafeLRUCache.
Section unsafe_lru.
Context {K V : Type} {B : BimapOps K V}.

Record t := Make { bimap_ : bimap; capacity_ : Z }.

(** The constructor rejects a capacity of 0. *)
Definition make (capacity : Z) : outcome t :=
  if capacity =? 0 then Throw (ExnSystem (str "UnsafeLRUCache capacity should be > 0"))
  else Ret (Make bimap_empty capacity).

Definition set_bimap (b : bimap) : M t unit := modify (fun c => Make b (capacity_ c)).

(** A hit moves the entry to the end of the list. *)
Definition find (k : K) : M t (option V) :=
  b ← gets bimap_;
  match left_find b k with
  | Some v => set_bimap (relocate_end b k) ;; mret (Some v)
  | None => mret None
  end.

(** At capacity the first entry goes, before it is known whether [k] is new. *)
Definition insert (k : K) (v : V) : M t unit :=
  c ← gets id;
  (when capacity_ c <=? bimap_size (bimap_ c) do set_bimap (erase_begin (bimap_ c))) ;;
  b ← gets bimap_;
  let '(inserted, b') := bimap_insert b k v in
  set_bimap b' ;;
  if negb inserted then
    set_bimap (snd (left_erase b' k)) ;;
    b ← gets bimap_;
    set_bimap (snd (bimap_insert b k v))
  else mret tt.

Definition erase (k : K) : M t bool :=
  b ← gets bimap_;
  let '(erased, b') := left_erase b k in
  set_bimap b' ;; mret erased.

Definition keys (c : t) : list K := right_keys (bimap_ c).
Definition clear : M t unit := set_bimap bimap_empty.
Definition empty (c : t) : bool := bimap_size (bimap_ c) =? 0.
Definition size (c : t) : Z := bimap_size (bimap_ c).
Definition capacity (c : t) : Z := capacity_ c.
End unsafe_lru.
Arguments t K V {B}.
End UnsafeLRUCache.

Module SafeLRUCache.
Section safe_lru.
Context {K V : Type} {B : BimapOps K V}.

Record t := Make { _cache : UnsafeLRUCache.t K V; _mutex : bool }.
Definition make (capacity : Z) : outcome t :=
  match UnsafeLRUCache.make capacity with
  | Ret c => Ret (Make c false)
  | Throw e => Throw e | Abort => Abort | Undef => Undef
  end.
Definition guarded {A} (m : M (UnsafeLRUCache.t K V) A) : M t A :=
  lock_guard _mutex (fun held s => Make (_cache s) held)
    (zoom _cache (fun c s => Make c (_mutex s)) m).
Definition insert (k : K) (v : V) : M t unit := guarded (UnsafeLRUCache.insert k v).
Definition find (k : K) : M t (option V) := guarded (UnsafeLRUCache.find k).
End safe_lru.
Arguments t K V {B}.
End SafeLRUCache.

(** ** Specification *)

Section spec.
Context {K V : Type} `{EqDecision K} {B : BimapOps K V} {BL : Bimap B}.

Definition entries (c : UnsafeLRUCache.t K V) : list (K * V) := view (UnsafeLRUCache.bimap_ c).

(** The type invariant. *)
Record wf_lru (c : UnsafeLRUCache.t K V) : Prop := {
  wf_nodup : NoDup (fst <$> entries c);
  wf_capacity : 0 < UnsafeLRUCache.capacity_ c;
  wf_size : len (entries c) <= UnsafeLRUCache.capacity_ c }.

(** What [insert] does to the list of entries. *)
Definition insert_entries (cap : Z) (k : K) (v : V) (l : list (K * V)) : list (K * V) :=
  without k (if cap <=? len l then tail l else l) ++ [(k, v)].

Inductive lru_op := OpFind (k : K) | OpInsert (k : K) (v : V) | OpErase (k : K) | OpClear.
Definition run_op (c : UnsafeLRUCache.t K V) (o : lru_op) : UnsafeLRUCache.t K V :=
  snd (match o with
       | OpFind k => (UnsafeLRUCache.find k ;; mret tt) c
       | OpInsert k v => UnsafeLRUCache.insert k v c
       | OpErase k => (UnsafeLRUCache.erase k ;; mret tt) c
       | OpClear => UnsafeLRUCache.clear c
       end).
Definition run_ops (c : UnsafeLRUCache.t K V) (os : list lru_op) : UnsafeLRUCache.t K V :=
  foldl run_op c os.

(** Whether the operation uses the key, and how many operations ago, in a history
    with the newest first, that happened last. *)
Definition uses (k : K) (o : lru_op) : bool :=
  match o with OpFind k' | OpInsert k' _ => bool_decide (k = k') | _ => false end.
Fixpoint age (k : K) (newest_first : list lru_op) : nat :=
  match newest_first with
  | [] => 0
  | o :: h => if uses k o then 0 else S (age k h)
  end.
End spec.
Arguments lru_op : clear implicits.

(** The instance over lists of entries. *)
Definition list_relocate {K V} `{EqDecision K} (l : list (K * V)) (k : K) : list (K * V) :=
  match assoc k l with Some v => without k l ++ [(k, v)] | None => l end.
Definition list_insert_pair {K V} `{EqDecision K} (l : list (K * V)) (k : K) (v : V) :
    bool * list (K * V) :=
  match assoc k l with Some _ => (false, l) | None => (true, l ++ [(k, v)]) end.

#[export] Instance list_bimap_ops {K V} `{EqDecision K} : BimapOps K V := {
  bimap := list (K * V);
  bimap_empty := [];
  bimap_size l := len l;
  left_find l k := assoc k l;
  relocate_end := list_relocate;
  erase_begin l := tail l;
  bimap_insert := list_insert_pair;
  left_erase l k := (bool_decide (is_Some (assoc k l)), without k l);
  right_keys l := fst <$> l }.

#[export] Instance list_bimap {K V} `{EqDecision K} : Bimap (K := K) (V := V) list_bimap_ops.
Proof.
  refine {| view := (fun l : list (K * V) => l) : @bimap K V list_bimap_ops -> list (K * V) |};
    try done; simpl; unfold list_relocate, list_insert_pair.
  - by intros b k v ->.
  - intros b k v. by destruct (assoc k b).
Defined.

(** ** Facts about entries *)

Section facts.
Context {K V : Type} `{EqDecision K}.
Implicit Types l : list (K * V).

Lemma assoc_app k l1 l2 :
  assoc k (l1 ++ l2) = match assoc k l1 with Some v => Some v | None => assoc k l2 end.
Proof.
  induction l1 as [|[k' v'] l1 IH]; simpl; [done|]. by destruct (decide (k = k')).
Qed.

Lemma assoc_Some k v l : assoc k l = Some v -> (k, v) ∈ l.
Proof.
  induction l as [|[k' v'] l IH]; simpl; [done|].
  destruct (decide (k = k')); intros; simplify_eq; [left|right; auto].
Qed.

Lemma assoc_None k l : assoc k l = None <-> k ∉ l.*1.
Proof.
  induction l as [|[k' v'] l IH]; simpl; [by split; [intros _; apply not_elem_of_nil|]|].
  rewrite not_elem_of_cons, <- IH. destruct (decide (k = k')).
  - split; [done|by intros []].
  - split; [by intros ?|by intros [_ ?]].
Qed.

Lemma assoc_without_ne k k' l : k <> k' -> assoc k (without k' l) = assoc k l.
Proof.
  intros Hne. unfold without. induction l as [|[k0 v0] l IH]; [done|].
  rewrite filter_cons. simpl. destruct (decide (k0 <> k')); simpl; rewrite IH; [done|].
  destruct (decide (k = k0)) as [->|]; [|done]. tauto.
Qed.

Lemma assoc_without_eq k l : assoc k (without k l) = None.
Proof.
  apply assoc_None. unfold without. intros ([k' v] & -> & [? _]%list_elem_of_filter)%list_elem_of_fmap.
  done.
Qed.

Lemma without_absent k l : assoc k l = None -> without k l = l.
Proof.
  unfold without. induction l as [|[k' v'] l IH]; [done|]. simpl.
  destruct (decide (k = k')) as [|Hne]; [done|]. intros Ha.
  rewrite filter_cons_True by (simpl; congruence). f_equal. by apply IH.
Qed.

Lemma without_nodup k l : NoDup l.*1 -> NoDup (without k l).*1.
Proof.
  unfold without. induction l as [|[k' v'] l IH]; [done|].
  simpl. intros [Hk Hnd]%NoDup_cons. rewrite filter_cons.
  destruct (decide _); simpl; [|by apply IH]. apply NoDup_cons. split; [|by apply IH].
  intros ([k0 v0] & -> & [_ ?]%list_elem_of_filter)%list_elem_of_fmap. apply Hk.
  apply list_elem_of_fmap. by exists (k0, v0).
Qed.

Lemma without_length k v l : NoDup l.*1 -> assoc k l = Some v -> S (length (without k l)) = length l.
Proof.
  unfold without. induction l as [|[k' v'] l IH]; simpl; [done|].
  rewrite filter_cons. simpl. intros [Hk Hnd]%NoDup_cons.
  destruct (decide (k = k')) as [->|Hne]; intros Hs.
  - rewrite decide_False by naive_solver. f_equal.
    pose proof (without_absent k' l) as Hw. unfold without in Hw. rewrite Hw; [done|].
    by apply assoc_None.
  - rewrite decide_True by (simpl; congruence). simpl. f_equal. by apply IH.
Qed.

Lemma length_without_le k l : (length (without k l) <= length l)%nat.
Proof. apply length_filter. Qed.

Lemma without_snoc_nodup k v l : NoDup l.*1 -> NoDup (without k l ++ [(k, v)]).*1.
Proof.
  intros Hnd. rewrite fmap_app. apply NoDup_app. split; [by apply without_nodup|].
  split; [|by apply NoDup_singleton]. simpl. intros k' Hk' ->%list_elem_of_singleton.
  by apply (proj1 (assoc_None k _) (assoc_without_eq k l)).
Qed.

Lemma tail_nodup l : NoDup l.*1 -> NoDup (tail l).*1.
Proof. destruct l; [done|]. by intros [_ ?]%NoDup_cons. Qed.
End facts.

(** ** Facts about the operations *)

Section operations.
Context {K V : Type} `{EqDecision K} {B : BimapOps K V} {BL : Bimap B}.
Implicit Types c : UnsafeLRUCache.t K V.

Lemma find_spec k c :
  exists c', UnsafeLRUCache.find k c = (Ret (assoc k (entries c)), c') /\
    UnsafeLRUCache.capacity_ c' = UnsafeLRUCache.capacity_ c /\
    entries c' = match assoc k (entries c) with
                 | Some v => without k (entries c) ++ [(k, v)]
                 | None => entries c
                 end.
Proof.
  unfold UnsafeLRUCache.find. rewrite gets_bind, view_find. fold (entries c).
  destruct (assoc k (entries c)) as [v|] eqn:E; eexists; (split; [reflexivity|]); [|done].
  split; [done|]. unfold entries in *; simpl. by apply view_relocate.
Qed.

Lemma insert_spec k v c :
  wf_lru c ->
  exists c', UnsafeLRUCache.insert k v c = (Ret tt, c') /\
    UnsafeLRUCache.capacity_ c' = UnsafeLRUCache.capacity_ c /\
    entries c' = insert_entries (UnsafeLRUCache.capacity_ c) k v (entries c).
Proof.
  intros [_ Hc Hs]. unfold UnsafeLRUCache.insert, insert_entries. rewrite gets_bind, view_size.
  fold (entries c). unfold id.
  set (b := if UnsafeLRUCache.capacity_ c <=? len (entries c)
            then erase_begin (UnsafeLRUCache.bimap_ c) else UnsafeLRUCache.bimap_ c).
  set (l := if UnsafeLRUCache.capacity_ c <=? len (entries c) then tail (entries c) else entries c).
  assert (view b = l) as Hb.
  { unfold b, l. destruct (Z.leb_spec (UnsafeLRUCache.capacity_ c) (len (entries c))); [|done].
    apply view_erase_begin. fold (entries c). destruct (entries c); [|done].
    rewrite len_nil in *. lia. }
  erewrite (bind_ret_eq _ _ c tt (UnsafeLRUCache.Make b (UnsafeLRUCache.capacity_ c))).
  2: { unfold b. destruct (_ <=? _); [done|]. by destruct c. }
  rewrite gets_bind. cbn [UnsafeLRUCache.bimap_]. pose proof (view_insert b k v) as Hi.
  rewrite Hb in Hi. destruct (assoc k l) as [v0|] eqn:E.
  - rewrite Hi. eexists. split; [reflexivity|]. split; [done|]. unfold entries; simpl.
    destruct (view_erase b k) as [_ He]. rewrite Hb in He.
    pose proof (view_insert (snd (left_erase b k)) k v) as Hi2.
    rewrite He, assoc_without_eq in Hi2. destruct Hi2 as [_ Hi2]. by rewrite Hi2.
  - destruct (bimap_insert b k v) as [ins b'] eqn:E'. simpl in Hi. destruct Hi as [-> Hv].
    eexists. split; [reflexivity|]. split; [done|]. unfold entries; simpl.
    by rewrite Hv, without_absent.
Qed.

Lemma insert_entries_length cap k v (l : list (K * V)) :
  0 < cap -> len l <= cap -> len (insert_entries cap k v l) <= cap.
Proof.
  intros Hc Hl. unfold insert_entries. rewrite len_app. change (len [(k, v)]) with 1.
  destruct (Z.leb_spec cap (len l)) as [Hle|Hlt].
  - pose proof (length_without_le k (tail l)). unfold len in *. destruct l; simpl in *; lia.
  - pose proof (length_without_le k l). unfold len in *. lia.
Qed.

Lemma insert_entries_nodup cap k v (l : list (K * V)) :
  NoDup l.*1 -> NoDup (insert_entries cap k v l).*1.
Proof.
  intros Hn. unfold insert_entries. apply without_snoc_nodup.
  destruct (_ <=? _); [by apply tail_nodup|done].
Qed.

Lemma find_wf k c : wf_lru c -> wf_lru (snd (UnsafeLRUCache.find k c)).
Proof.
  intros [Hn Hc Hs]. destruct (find_spec k c) as (c' & -> & Hcap & He); simpl.
  destruct (assoc k (entries c)) as [v|] eqn:E; split; rewrite ?He, ?Hcap; try done.
  - by apply without_snoc_nodup.
  - pose proof (without_length k v _ Hn E). rewrite len_app. change (len [(k, v)]) with 1.
    unfold len in *. lia.
Qed.

Lemma insert_wf k v c : wf_lru c -> wf_lru (snd (UnsafeLRUCache.insert k v c)).
Proof.
  intros Hwf. destruct (insert_spec k v c Hwf) as (c' & -> & Hcap & He); simpl.
  destruct Hwf as [Hn Hc Hs]. split; rewrite ?He, ?Hcap; try done.
  - by apply insert_entries_nodup.
  - by apply insert_entries_length.
Qed.

Lemma erase_spec k c :
  exists c', UnsafeLRUCache.erase k c
    = (Ret (bool_decide (is_Some (assoc k (entries c)))), c') /\
    UnsafeLRUCache.capacity_ c' = UnsafeLRUCache.capacity_ c /\
    entries c' = without k (entries c).
Proof.
  unfold UnsafeLRUCache.erase. rewrite gets_bind.
  destruct (view_erase (UnsafeLRUCache.bimap_ c) k) as [H1 H2].
  destruct (left_erase (UnsafeLRUCache.bimap_ c) k) as [b b']. simpl in *. subst.
  eexists. split; [reflexivity|]. by split.
Qed.

Lemma run_op_spec o c :
  wf_lru c ->
  wf_lru (run_op c o) /\ UnsafeLRUCache.capacity_ (run_op c o) = UnsafeLRUCache.capacity_ c /\
  match o with
  | OpFind k => entries (run_op c o) = match assoc k (entries c) with
                 | Some v => without k (entries c) ++ [(k, v)]
                 | None => entries c
                 end
  | OpInsert k v =>
      entries (run_op c o) = insert_entries (UnsafeLRUCache.capacity_ c) k v (entries c)
  | OpErase k => entries (run_op c o) = without k (entries c)
  | OpClear => entries (run_op c o) = []
  end.
Proof.
  intros Hwf. destruct o as [k|k v|k|]; unfold run_op.
  - pose proof (find_wf k c Hwf) as Hw. destruct (find_spec k c) as (c' & Hf & Hc & He).
    rewrite Hf in Hw. by rewrite (bind_ret_eq _ _ _ _ _ Hf).
  - pose proof (insert_wf k v c Hwf) as Hw. destruct (insert_spec k v c Hwf) as (c' & Hf & Hc & He).
    rewrite Hf in *. done.
  - destruct (erase_spec k c) as (c' & Hf & Hc & He). rewrite (bind_ret_eq _ _ _ _ _ Hf). simpl.
    destruct Hwf as [Hn Hp Hs]. split; [|done]. split; rewrite ?Hc, ?He; try done.
    + by apply without_nodup.
    + pose proof (length_without_le k (entries c)). unfold len in *. lia.
  - destruct Hwf as [Hn Hp Hs]. simpl. split; [|split; [done|apply view_empty]].
    assert (entries (UnsafeLRUCache.Make bimap_empty (UnsafeLRUCache.capacity_ c)) = []) as E
      by apply view_empty.
    split; rewrite ?E; simpl; [apply NoDup_nil_2|done|rewrite len_nil; lia].
Qed.

(** ** Recency *)

Definition more_recent (h : list (lru_op K V)) (e1 e2 : K * V) : Prop :=
  (age e2.1 h < age e1.1 h)%nat.

Lemma sorted_sublist {A} (R : A -> A -> Prop) (P : A -> Prop) `{forall x, Decision (P x)} l :
  StronglySorted R l -> StronglySorted R (filter P l).
Proof.
  induction 1 as [|x l Hs IH Hf]; [constructor|]. rewrite filter_cons.
  destruct (decide (P x)); [|done]. constructor; [done|].
  apply Forall_forall. intros y [_ Hy]%list_elem_of_filter. by eapply Forall_forall in Hf.
Qed.

Lemma sorted_snoc {A} (R : A -> A -> Prop) l x :
  StronglySorted R l -> Forall (fun y => R y x) l -> StronglySorted R (l ++ [x]).
Proof.
  induction 1 as [|y l Hs IH Hf]; intros Hx; simpl; [by repeat constructor|].
  apply Forall_cons in Hx as [Hyx Hx]. constructor; [by apply IH|].
  apply Forall_app. split; [done|by repeat constructor].
Qed.

Lemma sorted_weaken {A} (R R' : A -> A -> Prop) l :
  (forall x y, x ∈ l -> y ∈ l -> R x y -> R' x y) -> StronglySorted R l -> StronglySorted R' l.
Proof.
  intros H Hs. induction Hs as [|x l Hs IH Hf]; constructor.
  - apply IH. intros. apply H; set_solver.
  - apply Forall_forall. intros y Hy. apply H; [set_solver..|]. by eapply Forall_forall in Hf.
Qed.

Lemma sorted_tail {A} (R : A -> A -> Prop) l : StronglySorted R l -> StronglySorted R (tail l).
Proof. destruct 1; [constructor|done]. Qed.

(** Using a key moves its entry to the end, which is where the newest belongs. *)
Lemma use_sorted o k v h (l : list (K * V)) :
  uses k o = true -> (forall k', k' <> k -> uses k' o = false) ->
  StronglySorted (more_recent h) l ->
  StronglySorted (more_recent (o :: h)) (without k l ++ [(k, v)]).
Proof.
  intros Hk Hne Hs.
  assert (forall e, e ∈ without k l -> age e.1 (o :: h) = S (age e.1 h)) as Hage.
  { intros e [Hek _]%list_elem_of_filter. cbn [age]. by rewrite (Hne e.1 Hek). }
  apply sorted_snoc.
  - eapply sorted_weaken; [|by apply sorted_sublist, Hs].
    intros x y Hx Hy. unfold more_recent. rewrite !Hage by done. lia.
  - apply Forall_forall. intros e He. unfold more_recent. rewrite (Hage e He).
    cbn [age fst]. rewrite Hk. lia.
Qed.

Lemma idle_sorted o h (l : list (K * V)) :
  (forall e, e ∈ l -> uses e.1 o = false) ->
  StronglySorted (more_recent h) l -> StronglySorted (more_recent (o :: h)) l.
Proof.
  intros Hne. apply sorted_weaken. intros x y Hx Hy. unfold more_recent.
  cbn [age]. rewrite !Hne by done. lia.
Qed.

Lemma run_op_sorted o c h :
  wf_lru c -> StronglySorted (more_recent h) (entries c) ->
  StronglySorted (more_recent (o :: h)) (entries (run_op c o)).
Proof.
  intros Hwf Hs. destruct (run_op_spec o c Hwf) as (_ & _ & He).
  assert (forall k k' : K, k' <> k -> bool_decide (k' = k) = false) as Hne
    by (intros; by apply bool_decide_eq_false).
  destruct o as [k|k v|k|]; rewrite He.
  - destruct (assoc k (entries c)) as [v|] eqn:E.
    + apply use_sorted; [by apply bool_decide_eq_true|by apply Hne|done].
    + apply idle_sorted; [|done]. intros [k' v'] Hin. apply Hne; simpl; intros Heq; subst k'.
      apply assoc_None in E. apply E, list_elem_of_fmap. by exists (k, v').
  - unfold insert_entries. apply use_sorted; [by apply bool_decide_eq_true|by apply Hne|].
    destruct (_ <=? _); [by apply sorted_tail|done].
  - apply idle_sorted; [done|]. by apply sorted_sublist.
  - constructor.
Qed.

Lemma run_ops_sorted os c h :
  wf_lru c -> StronglySorted (more_recent h) (entries c) ->
  wf_lru (run_ops c os) /\ UnsafeLRUCache.capacity_ (run_ops c os) = UnsafeLRUCache.capacity_ c /\
  StronglySorted (more_recent (rev os ++ h)) (entries (run_ops c os)).
Proof.
  revert c h. induction os as [|o os IH]; intros c h Hwf Hs; [done|].
  destruct (run_op_spec o c Hwf) as (Hwf' & Hcap & _). simpl.
  destruct (IH (run_op c o) (o :: h) Hwf') as (H1 & H2 & H3); [by apply run_op_sorted|].
  split; [done|]. split; [by rewrite H2|]. by rewrite <- app_assoc.
Qed.

Lemma make_wf cap c :
  0 <= cap -> UnsafeLRUCache.make cap = Ret c ->
  wf_lru c /\ UnsafeLRUCache.capacity_ c = cap /\ entries c = [].
Proof.
  unfold UnsafeLRUCache.make. destruct (Z.eqb_spec cap 0); [done|]. intros Hc [= <-].
  assert (entries (UnsafeLRUCache.Make bimap_empty cap) = []) as E by apply view_empty.
  split; [|by split]. split; rewrite ?E; simpl; [apply NoDup_nil_2|lia|rewrite len_nil; lia].
Qed.

Lemma assoc_insert cap k v k' (l : list (K * V)) :
  assoc k' (insert_entries cap k v l)
  = if decide (k' = k) then Some v
    else assoc k' (if cap <=? len l then tail l else l).
Proof.
  unfold insert_entries. rewrite assoc_app. destruct (decide (k' = k)) as [->|Hne].
  - rewrite assoc_without_eq. simpl. by rewrite decide_True.
  - rewrite assoc_without_ne by done. destruct (assoc k' _); [done|]. simpl.
    by rewrite decide_False.
Qed.

(** Entries inserted one after the other, the value that was inserted last for a key,
    and what becomes of them: as long as they are no more than the capacity, only older
    entries make room for them. *)
Definition insert_all (cap : Z) (kvs : list (K * V)) (l : list (K * V)) : list (K * V) :=
  foldl (fun l kv => insert_entries cap kv.1 kv.2 l) l kvs.
Definition inserted (k : K) (kvs : list (K * V)) : option V := assoc k (reverse kvs).

Lemma insert_all_nodup cap kvs (l : list (K * V)) : NoDup l.*1 -> NoDup (insert_all cap kvs l).*1.
Proof.
  revert l. induction kvs as [|kv kvs IH]; intros l Hn; [done|]. by apply IH, insert_entries_nodup.
Qed.

Lemma without_app k (l1 l2 : list (K * V)) : without k (l1 ++ l2) = without k l1 ++ without k l2.
Proof. apply filter_app. Qed.

Lemma insert_all_split cap kvs (l : list (K * V)) : len kvs <= cap ->
  exists old new, insert_all cap kvs l = old ++ new /\ len new <= len kvs /\
    forall k, assoc k new = inserted k kvs.
Proof.
  induction kvs as [|[k v] kvs IH] using rev_ind; intros Hc; [exists l, []; by rewrite app_nil_r|].
  rewrite len_app in Hc. change (len [(k, v)]) with 1 in Hc.
  destruct IH as (old & new & He & Hl & Ha); [lia|].
  assert (exists old', (if cap <=? len (old ++ new) then tail (old ++ new) else old ++ new) = old' ++ new)
    as [old' Ho].
  { destruct (Z.leb_spec cap (len (old ++ new))) as [Hle|_]; [|by exists old].
    destruct old as [|e old]; [|by exists old]. unfold len in *. simpl in *. lia. }
  exists (without k old'), (without k new ++ [(k, v)]).
  unfold insert_all in *. rewrite foldl_app. cbn [foldl fst snd]. rewrite He. unfold insert_entries.
  rewrite Ho, without_app, <- app_assoc. split; [done|]. split.
  - rewrite !len_app. change (len [(k, v)]) with 1. pose proof (length_without_le k new). unfold len in *. lia.
  - intros k'. unfold inserted. rewrite reverse_app, assoc_app. simpl.
    destruct (decide (k' = k)) as [->|Hk]; [by rewrite assoc_without_eq|].
    rewrite assoc_without_ne, Ha by done. unfold inserted. by destruct (assoc k' (reverse kvs)).
Qed.

Lemma insert_all_inserted cap kvs (l : list (K * V)) k v : NoDup l.*1 -> len kvs <= cap ->
  inserted k kvs = Some v -> assoc k (insert_all cap kvs l) = Some v.
Proof.
  intros Hn Hc Hi. pose proof (insert_all_nodup cap kvs l Hn) as Hd.
  destruct (insert_all_split cap kvs l Hc) as (old & new & He & _ & Ha). rewrite He in *.
  rewrite assoc_app. rewrite <- Ha in Hi. destruct (assoc k old) as [v'|] eqn:Eo; [|done].
  rewrite fmap_app in Hd. apply NoDup_app in Hd as (_ & Hd & _).
  apply assoc_Some in Eo, Hi. destruct (Hd k).
  - apply list_elem_of_fmap. by exists (k, v').
  - apply list_elem_of_fmap. by exists (k, v).
Qed.
End operations.

(** ** Properties *)

(** C21: whatever sequence of [find], [insert], [erase] and [clear] is run on a new
    cache, its keys stay distinct, their number never exceeds the capacity, and the
    list of entries is in the order of last use; so the entry an [insert] at
    capacity drops, the first one, is the one whose last [find] or [insert] is the
    oldest of all. *)
Theorem lru_recency_order {K V} `{EqDecision K} {B : BimapOps K V} {BL : Bimap B} cap c os :
  0 <= cap -> UnsafeLRUCache.make cap = Ret c ->
  let c' := run_ops c os in
  NoDup (entries c').*1 /\ len (entries c') <= cap /\
  (forall i j ki vi kj vj, (i < j)%nat ->
     entries c' !! i = Some (ki, vi) -> entries c' !! j = Some (kj, vj) ->
     (age kj (rev os) < age ki (rev os))%nat) /\
  (forall k v, cap <= len (entries c') ->
     entries (run_op c' (OpInsert k v)) = without k (tail (entries c')) ++ [(k, v)]).
Proof.
  intros Hcap Hm c'. destruct (make_wf cap c Hcap Hm) as (Hwf & Hc & He).
  destruct (run_ops_sorted os c [] Hwf) as (Hwf' & Hc' & Hs); [rewrite He; constructor|].
  fold c' in Hwf', Hc', Hs. rewrite app_nil_r in Hs. pose proof Hwf' as [Hn _ Hl].
  split_and!; [done|lia| |].
  - clear - Hs. induction Hs as [|x l Hs IH Hf]; intros i j ki vi kj vj Hij Hi Hj; [done|].
    destruct j as [|j]; [lia|]. destruct i as [|i]; simpl in *.
    + injection Hi as ->. apply (proj1 (Forall_forall _ _) Hf (kj, vj)).
      by eapply list_elem_of_lookup_2.
    + eapply (IH i j); [lia|done..].
  - intros k v Hfull. destruct (run_op_spec (OpInsert k v) c' Hwf') as (_ & _ & Hi).
    rewrite Hi. unfold insert_entries. by replace (_ <=? _) with true by (symmetry; lia).
Qed.

Lemma lru_recency_order_witness :
  let c := UnsafeLRUCache.Make (B := list_bimap_ops) [] 2 in
  let os := [OpInsert 1 10; OpInsert 2 20; OpFind 1; OpInsert 3 30] in
  entries (B := list_bimap_ops) (run_ops c os) = [(1, 10); (3, 30)] /\
  (age 3%Z (rev os) < age 1%Z (rev os))%nat.
Proof.
  intros c os. split; [vm_compute; reflexivity|].
  destruct (lru_recency_order (B := list_bimap_ops) 2 c os) as (_ & _ & H & _).
  - lia.
  - reflexivity.
  - apply (H 0%nat 1%nat 1 10 3 30); [lia|vm_compute; reflexivity|vm_compute; reflexivity].
Defined.

(** [find] after [insert]: the inserted value is found, a key that is still
    there has its old value, and no key is lost unless the cache was full, when only
    the least recently used one is. *)
Theorem lru_find_after_insert {K V} `{EqDecision K} {B : BimapOps K V} {BL : Bimap B} c k v k' :
  wf_lru c ->
  let l := entries c in
  let l' := if UnsafeLRUCache.capacity_ c <=? len l then tail l else l in
  fst ((UnsafeLRUCache.insert k v ;; UnsafeLRUCache.find k') c)
  = Ret (if decide (k' = k) then Some v else assoc k' l').
Proof.
  intros Hwf l l'. destruct (insert_spec k v c Hwf) as (c1 & Hi & _ & He).
  rewrite (bind_ret_eq _ _ _ _ _ Hi). destruct (find_spec k' c1) as (c2 & -> & _). simpl.
  by rewrite He, assoc_insert.
Qed.

Lemma lru_find_after_insert_witness :
  let c := UnsafeLRUCache.Make (B := list_bimap_ops) [(1, 10); (2, 20)] 2 in
  fst ((UnsafeLRUCache.insert 3 30 ;; UnsafeLRUCache.find 1) c) = Ret None /\
  fst ((UnsafeLRUCache.insert 3 30 ;; UnsafeLRUCache.find 2) c) = Ret (Some 20).
Proof.
  intros c. assert (wf_lru c) as Hwf.
  { split; [|reflexivity|vm_compute; congruence].
    change (NoDup [1; 2]). apply (bool_decide_unpack _). vm_compute. exact I. }
  split; [apply (lru_find_after_insert c 3 30 1 Hwf)|apply (lru_find_after_insert c 3 30 2 Hwf)].
Defined.

(** [insert] makes room before it looks whether the key is there: inserting the
    most recent key of a full cache again drops the least recently used entry all
    the same, and leaves the cache one entry short of its capacity. *)
Theorem lru_reinsert_evicts {K V} `{EqDecision K} {B : BimapOps K V} {BL : Bimap B}
    c k0 v0 l k v v' :
  wf_lru c -> entries c = (k0, v0) :: l ++ [(k, v)] ->
  UnsafeLRUCache.capacity_ c = len (entries c) ->
  exists c', UnsafeLRUCache.insert k v' c = (Ret tt, c') /\ entries c' = l ++ [(k, v')] /\
    len (entries c') = UnsafeLRUCache.capacity_ c - 1.
Proof.
  intros Hwf He Hc. destruct (insert_spec k v' c Hwf) as (c' & Hi & _ & He').
  assert (NoDup (l ++ [(k, v)]).*1) as Hn.
  { destruct Hwf as [Hn _ _]. rewrite He in Hn. by apply NoDup_cons in Hn as [_ ?]. }
  assert (without k (l ++ [(k, v)]) = l) as Hw.
  { unfold without. rewrite filter_app, filter_cons_False by (simpl; tauto).
    rewrite filter_nil, app_nil_r. apply without_absent, assoc_None.
    rewrite fmap_app in Hn. apply NoDup_app in Hn as (_ & Hd & _).
    intros Hk. apply (Hd k Hk). by apply list_elem_of_singleton. }
  exists c'. split; [done|]. unfold insert_entries in He'.
  replace (_ <=? _) with true in He' by (symmetry; lia). rewrite He in He'; simpl in He'.
  rewrite Hw in He'. split; [done|]. rewrite He', Hc, He. unfold len. simpl.
  rewrite !length_app. simpl. lia.
Qed.

Lemma lru_reinsert_evicts_witness :
  let c := UnsafeLRUCache.Make (B := list_bimap_ops) [(1, 10); (2, 20)] 2 in
  exists c', UnsafeLRUCache.insert 2 21 c = (Ret tt, c') /\
    entries (B := list_bimap_ops) c' = [(2, 21)].
Proof.
  intros c. destruct (lru_reinsert_evicts (B := list_bimap_ops) c 1 10 [] 2 20 21)
    as (c' & H1 & H2 & _).
  - split; [|reflexivity|vm_compute; congruence].
    change (NoDup [1; 2]). apply (bool_decide_unpack _). vm_compute. exact I.
  - reflexivity.
  - reflexivity.
  - exists c'. split; [exact H1|exact H2].
Defined.
