(* ===== verification/ManifestCache.v ===== *)
(** * The manifest cache: [manifest_cache.h] and [manifest_cache.cc]

    Two levels: a map from namespaces to [SafeLRUCache]s that are shared objects
    (a thread goes on with the cache it looked up after the map has forgotten it),
    and in each cache manifests under [make_key(alba_id, object_name)].  [add] and
    [find] are two atomic steps each, since the map's mutex is released in between;
    both the composed operations and arbitrary interleavings of the steps are
    covered. *)

From S2P Require Import Prelude Llio AlbaCommon Manifest LruCache.

Local Open Scope Z_scope.
Local Open Scope alba_scope.

Definition make_key (alba_id object_name : bytes) : bytes := alba_id ++ object_name.

(** [shared_ptr<ManifestWithNamespaceId>]; the null pointer is [None]. *)
Abbreviation manifest_cache_entry := ManifestWithNamespaceId.

Section manifest_cache.
Context {B : BimapOps bytes manifest_cache_entry}.

Abbreviation manifest_cache := (SafeLRUCache.t bytes manifest_cache_entry).

(** [_caches] is the store of cache objects; [_level1] maps to references.  The
    second component of the code's pair, a mutex [find] locks around the already
    locked cache, guards nothing else. *)
Record ManifestCache := Make_ManifestCache {
  _manifest_cache_capacity : Z;
  _level1_mutex : bool;
  _level1 : gmap bytes positive;
  _caches : gmap positive manifest_cache }.

Definition getInstance : ManifestCache := Make_ManifestCache 10000 false ∅ ∅.

Definition with_level1 {A} (m : M ManifestCache A) : M ManifestCache A :=
  lock_guard _level1_mutex
    (fun held s => Make_ManifestCache (_manifest_cache_capacity s) held (_level1 s) (_caches s)) m.

Definition set_capacity (capacity : Z) : M ManifestCache unit :=
  with_level1 (modify (fun s =>
    Make_ManifestCache capacity (_level1_mutex s) (_level1 s) (_caches s))).

Definition set_caches (f : gmap positive manifest_cache -> gmap positive manifest_cache) :
    M ManifestCache unit :=
  modify (fun s =>
    Make_ManifestCache (_manifest_cache_capacity s) (_level1_mutex s) (_level1 s) (f (_caches s))).
Definition set_level1 (f : gmap bytes positive -> gmap bytes positive) : M ManifestCache unit :=
  modify (fun s =>
    Make_ManifestCache (_manifest_cache_capacity s) (_level1_mutex s) (f (_level1 s)) (_caches s)).

(** An operation of the cache object behind a reference. *)
Definition on_cache {A} (p : positive) (m : M manifest_cache A) : M ManifestCache A :=
  mc ← gets (fun s => _caches s !! p);
  match mc with
  | None => mout Undef
  | Some mc =>
      let '(o, mc') := m mc in
      set_caches (<[p := mc']>) ;; mout o
  end.

(** The first block of [add]: the namespace's cache, a fresh one if need be. *)
Definition lookup_or_create (namespace_ : bytes) : M ManifestCache positive :=
  with_level1 (
    s ← gets id;
    match _level1 s !! namespace_ with
    | Some p => mret p
    | None =>
        mc ← mout (SafeLRUCache.make (_manifest_cache_capacity s));
        let p := fresh (dom (_caches s)) in
        set_caches (<[p := mc]>) ;;
        set_level1 (<[namespace_ := p]>) ;;
        mret p
    end).
(** What follows it. *)
Definition add_to (p : positive) (alba_id : bytes) (mfp : manifest_cache_entry) :
    M ManifestCache unit :=
  on_cache p (SafeLRUCache.insert (make_key alba_id (name (manifest mfp))) mfp).
Definition add (namespace_ alba_id : bytes) (mfp : manifest_cache_entry) : M ManifestCache unit :=
  p ← lookup_or_create namespace_; add_to p alba_id mfp.

Definition lookup (namespace_ : bytes) : M ManifestCache (option positive) :=
  with_level1 (gets (fun s => _level1 s !! namespace_)).
Definition find_in (p : positive) (alba_id object_name : bytes) :
    M ManifestCache (option manifest_cache_entry) :=
  on_cache p (SafeLRUCache.find (make_key alba_id object_name)).
Definition find (namespace_ alba_id object_name : bytes) :
    M ManifestCache (option manifest_cache_entry) :=
  vp ← lookup namespace_;
  match vp with
  | None => mret None
  | Some p => find_in p alba_id object_name
  end.

Definition invalidate_namespace (namespace_ : bytes) : M ManifestCache unit :=
  with_level1 (set_level1 (delete namespace_)).

(** ** Specification *)

(** The atomic steps threads interleave. *)
Inductive mc_step :=
  | StepSetCapacity (capacity : Z)
  | StepLookupOrCreate (namespace_ : bytes)
  | StepAddTo (p : positive) (alba_id : bytes) (mfp : manifest_cache_entry)
  | StepLookup (namespace_ : bytes)
  | StepFindIn (p : positive) (alba_id object_name : bytes)
  | StepInvalidate (namespace_ : bytes).
Definition run_step (s : ManifestCache) (st : mc_step) : ManifestCache :=
  snd (match st with
       | StepSetCapacity c => set_capacity c s
       | StepLookupOrCreate ns => (lookup_or_create ns ;; mret tt) s
       | StepAddTo p a mfp => add_to p a mfp s
       | StepLookup ns => (lookup ns ;; mret tt) s
       | StepFindIn p a o => (find_in p a o ;; mret tt) s
       | StepInvalidate ns => invalidate_namespace ns s
       end).
Definition run_steps : ManifestCache -> list mc_step -> ManifestCache := foldl run_step.

Context {BL : Bimap B}.

(** Every cache is well formed, and no mutex is held between steps. *)
Definition wf_cache (mc : manifest_cache) : Prop :=
  wf_lru (SafeLRUCache._cache mc) /\ SafeLRUCache._mutex mc = false.
Record wf_manifest_cache (s : ManifestCache) : Prop := {
  wf_cap : 0 < _manifest_cache_capacity s;
  wf_unlocked : _level1_mutex s = false;
  wf_refs ns p : _level1 s !! ns = Some p -> is_Some (_caches s !! p);
  wf_inj ns1 ns2 p : _level1 s !! ns1 = Some p -> _level1 s !! ns2 = Some p -> ns1 = ns2;
  wf_caches p mc : _caches s !! p = Some mc -> wf_cache mc }.

Definition cache_entries (s : ManifestCache) (p : positive) : list (bytes * manifest_cache_entry) :=
  match _caches s !! p with
  | Some mc => entries (SafeLRUCache._cache mc)
  | None => []
  end.

(** What the namespace's cache holds, and how many entries it may. *)
Definition ns_entries (s : ManifestCache) (ns : bytes) : list (bytes * manifest_cache_entry) :=
  match _level1 s !! ns with Some p => cache_entries s p | None => [] end.
Definition cache_capacity (s : ManifestCache) (p : positive) : Z :=
  match _caches s !! p with
  | Some mc => UnsafeLRUCache.capacity_ (SafeLRUCache._cache mc)
  | None => 0
  end.
Definition room (s : ManifestCache) (ns : bytes) : Z :=
  match _level1 s !! ns with
  | Some p => cache_capacity s p
  | None => _manifest_cache_capacity s
  end.

(** Every entry is under a key made from an id of [n] bytes and its own name. *)
Definition keyed (n : nat) (s : ManifestCache) : Prop :=
  forall p k mfp, (k, mfp) ∈ cache_entries s p ->
    exists alba_id, length alba_id = n /\ k = make_key alba_id (name (manifest mfp)).
Definition step_keyed (n : nat) (st : mc_step) : Prop :=
  match st with StepAddTo _ alba_id _ => length alba_id = n | _ => True end.
(** Steps a thread can take: references come from earlier lookups. *)
Definition step_ok (s : ManifestCache) (st : mc_step) : Prop :=
  match st with
  | StepSetCapacity c => 0 < c
  | StepAddTo p _ _ | StepFindIn p _ _ => is_Some (_caches s !! p)
  | _ => True
  end.
Fixpoint steps_ok (s : ManifestCache) (sts : list mc_step) : Prop :=
  match sts with
  | [] => True
  | st :: sts => step_ok s st /\ steps_ok (run_step s st) sts
  end.
End manifest_cache.

(** A manifest to evaluate the theorems on. *)
Definition sample_manifest (n : string) : ManifestWithNamespaceId :=
  Make_ManifestWithNamespaceId
    (Make_Manifest (str n) [] [] (Make_EncodingScheme 1 0 8) NoCompression
       Encryption.NoEncryption Checksum.NoChecksum 0 [] 0 0 double_1) 1.

(** ** Facts *)

Section facts.
Context {B : BimapOps bytes manifest_cache_entry} {BL : Bimap B}.
Implicit Types s : ManifestCache.

Lemma safe_insert_spec k v mc :
  wf_cache mc -> exists mc', SafeLRUCache.insert k v mc = (Ret tt, mc') /\ wf_cache mc' /\
    UnsafeLRUCache.capacity_ (SafeLRUCache._cache mc') = UnsafeLRUCache.capacity_ (SafeLRUCache._cache mc) /\
    entries (SafeLRUCache._cache mc')
    = insert_entries (UnsafeLRUCache.capacity_ (SafeLRUCache._cache mc)) k v
        (entries (SafeLRUCache._cache mc)).
Proof.
  intros [Hwf Hm]. pose proof (insert_wf k v _ Hwf) as Hw.
  destruct (insert_spec k v _ Hwf) as (c' & Hi & Hcap & He). rewrite Hi in Hw.
  destruct mc as [c mu]; simpl in *; subst mu. eexists.
  unfold SafeLRUCache.insert, SafeLRUCache.guarded, lock_guard, zoom; simpl. rewrite Hi.
  split; [reflexivity|]. by split_and!.
Qed.

Lemma safe_find_spec k mc :
  wf_cache mc -> exists mc', SafeLRUCache.find k mc
    = (Ret (assoc k (entries (SafeLRUCache._cache mc))), mc') /\ wf_cache mc' /\
    (forall k' v, (k', v) ∈ entries (SafeLRUCache._cache mc') <->
                  (k', v) ∈ entries (SafeLRUCache._cache mc)).
Proof.
  intros [Hwf Hm]. pose proof (find_wf k _ Hwf) as Hw.
  destruct (find_spec k (SafeLRUCache._cache mc)) as (c' & Hi & _ & He). rewrite Hi in Hw.
  destruct mc as [c mu]; simpl in *; subst mu. eexists.
  unfold SafeLRUCache.find, SafeLRUCache.guarded, lock_guard, zoom; simpl. rewrite Hi.
  split; [reflexivity|]. split; [by split|]. simpl. intros k' v. rewrite He.
  destruct (assoc k (entries c)) as [v0|] eqn:E; [|done].
  rewrite elem_of_app, list_elem_of_singleton. unfold without. rewrite list_elem_of_filter.
  split.
  - intros [[_ ?]|[= -> ->]]; [done|by apply assoc_Some].
  - intros Hin. destruct (decide (k' = k)) as [->|]; [|by left].
    right. destruct Hwf as [Hn _ _]. f_equal.
    apply assoc_Some in E. clear - Hn Hin E. induction (entries c) as [|[k1 v1] l IH].
    { by apply not_elem_of_nil in Hin. }
    simpl in Hn. apply NoDup_cons in Hn as [Hk Hn].
    apply elem_of_cons in Hin as [Hin|Hin], E as [E|E]; simplify_eq/=.
    + done.
    + destruct Hk. apply list_elem_of_fmap. by exists (k1, v0).
    + destruct Hk. apply list_elem_of_fmap. by exists (k1, v).
    + by apply IH.
Qed.

(** The effect of each step, on a well-formed state. *)

Lemma on_cache_eq {A} p (m : M (SafeLRUCache.t bytes manifest_cache_entry) A) s mc o mc' :
  _caches s !! p = Some mc -> m mc = (o, mc') ->
  on_cache p m s = (o, Make_ManifestCache (_manifest_cache_capacity s) (_level1_mutex s) (_level1 s)
                         (<[p := mc']> (_caches s))).
Proof. intros Hp Hm. unfold on_cache. rewrite gets_bind, Hp, Hm. done. Qed.

Lemma update_cache_wf s p mc' :
  wf_manifest_cache s -> is_Some (_caches s !! p) -> wf_cache mc' ->
  wf_manifest_cache (Make_ManifestCache (_manifest_cache_capacity s) (_level1_mutex s) (_level1 s)
                       (<[p := mc']> (_caches s))).
Proof.
  intros [Hc Hu Hr Hi Hw] Hp Hmc. split; simpl; [done..| | |].
  - intros ns q Hq. destruct (decide (p = q)) as [->|]; [by rewrite lookup_insert_eq|].
    rewrite lookup_insert_ne by done. by eapply Hr.
  - done.
  - intros q mc. destruct (decide (p = q)) as [->|].
    + rewrite lookup_insert_eq. by intros [= <-].
    + rewrite lookup_insert_ne by done. apply Hw.
Qed.

Lemma add_to_spec p alba_id mfp s :
  wf_manifest_cache s -> is_Some (_caches s !! p) ->
  exists s', add_to p alba_id mfp s = (Ret tt, s') /\ wf_manifest_cache s' /\
    _level1 s' = _level1 s /\ dom (_caches s') = dom (_caches s) /\
    cache_entries s' p = insert_entries (cache_capacity s p) (make_key alba_id (name (manifest mfp))) mfp
                           (cache_entries s p) /\
    (forall q, q <> p -> cache_entries s' q = cache_entries s q) /\
    (forall q, cache_capacity s' q = cache_capacity s q).
Proof.
  intros Hwf Hs. pose proof Hs as [mc Hp].
  destruct (safe_insert_spec (make_key alba_id (name (manifest mfp))) mfp mc
    (wf_caches s Hwf p mc Hp)) as (mc' & Hi & Hw & Hcap & He).
  unfold add_to. rewrite (on_cache_eq p _ s mc _ _ Hp Hi). eexists. split; [reflexivity|].
  split; [by apply update_cache_wf|]. split; [done|]. simpl. split; [|split; [|split]].
  - by apply dom_insert_lookup_L.
  - unfold cache_entries, cache_capacity; simpl. rewrite lookup_insert_eq, Hp. exact He.
  - intros q Hq. unfold cache_entries; simpl. by rewrite lookup_insert_ne.
  - intros q. unfold cache_capacity; simpl. destruct (decide (p = q)) as [<-|].
    + by rewrite lookup_insert_eq, Hp.
    + by rewrite lookup_insert_ne.
Qed.

Lemma find_in_spec p alba_id object_name s :
  wf_manifest_cache s -> is_Some (_caches s !! p) ->
  exists s', find_in p alba_id object_name s
    = (Ret (assoc (make_key alba_id object_name) (cache_entries s p)), s') /\
    wf_manifest_cache s' /\ _level1 s' = _level1 s /\ dom (_caches s') = dom (_caches s) /\
    (forall q k v, (k, v) ∈ cache_entries s' q <-> (k, v) ∈ cache_entries s q).
Proof.
  intros Hwf Hs. pose proof Hs as [mc Hp].
  destruct (safe_find_spec (make_key alba_id object_name) mc (wf_caches s Hwf p mc Hp))
    as (mc' & Hi & Hw & He).
  unfold find_in. rewrite (on_cache_eq p _ s mc _ _ Hp Hi). unfold cache_entries at 1.
  rewrite Hp. eexists. split; [reflexivity|].
  split; [by apply update_cache_wf|]. split; [done|]. simpl. split.
  - by apply dom_insert_lookup_L.
  - intros q k v. unfold cache_entries; simpl. destruct (decide (p = q)) as [->|].
    + by rewrite lookup_insert_eq, Hp.
    + by rewrite lookup_insert_ne.
Qed.

Lemma lookup_spec ns s :
  wf_manifest_cache s -> lookup ns s = (Ret (_level1 s !! ns), s).
Proof.
  intros [_ Hu _ _ _]. unfold lookup, with_level1, lock_guard. rewrite Hu. simpl.
  rewrite <- Hu. by destruct s.
Qed.

Lemma invalidate_spec ns s :
  wf_manifest_cache s ->
  exists s', invalidate_namespace ns s = (Ret tt, s') /\ wf_manifest_cache s' /\
    _level1 s' = delete ns (_level1 s) /\ _caches s' = _caches s.
Proof.
  intros [Hc Hu Hr Hi Hw]. unfold invalidate_namespace, with_level1, lock_guard. rewrite Hu.
  eexists. split; [reflexivity|]. split; [|done]. split; simpl; try done.
  - intros n p [_ Hp]%lookup_delete_Some. by eapply Hr.
  - intros n1 n2 p [_ H1]%lookup_delete_Some [_ H2]%lookup_delete_Some. by eapply Hi.
Qed.

Lemma make_cache_wf cap :
  0 < cap -> exists mc, SafeLRUCache.make cap = Ret mc /\ wf_cache mc /\
    UnsafeLRUCache.capacity_ (SafeLRUCache._cache mc) = cap /\
    entries (SafeLRUCache._cache mc) = [].
Proof.
  intros Hc. unfold SafeLRUCache.make.
  destruct (UnsafeLRUCache.make cap) as [c|e| |] eqn:E;
    unfold UnsafeLRUCache.make in E; destruct (Z.eqb_spec cap 0); try lia; try done.
  destruct (make_wf cap c) as (Hw & Hcap & He); [lia| |].
  { unfold UnsafeLRUCache.make. by destruct (Z.eqb_spec cap 0). }
  eexists. split; [reflexivity|]. by split_and!.
Qed.

Lemma lookup_or_create_spec ns s :
  wf_manifest_cache s ->
  exists p s', lookup_or_create ns s = (Ret p, s') /\ wf_manifest_cache s' /\
    _level1 s' !! ns = Some p /\ (forall n, n <> ns -> _level1 s' !! n = _level1 s !! n) /\
    is_Some (_caches s' !! p) /\ dom (_caches s) ⊆ dom (_caches s') /\
    (_level1 s !! ns = None -> (p ∉ dom (_caches s)) /\ cache_entries s' p = []) /\
    (forall q, cache_entries s' q = cache_entries s q) /\
    cache_capacity s' p = room s ns.
Proof.
  intros Hwf. pose proof Hwf as [Hc Hu Hr Hi Hw].
  unfold lookup_or_create, with_level1, lock_guard. rewrite Hu. rewrite gets_bind. unfold id.
  cbn [_level1 _caches _manifest_cache_capacity].
  destruct (_level1 s !! ns) as [p|] eqn:E.
  - exists p, s. split; [unfold mret, M_ret; simpl; rewrite <- Hu; by destruct s|].
    pose proof (Hr _ _ E) as Hp. unfold room. rewrite E. split_and!; try done.
  - destruct (make_cache_wf (_manifest_cache_capacity s) Hc) as (mc & Hm & Hwm & Hcm & Hem).
    rewrite Hm. set (p := fresh (dom (_caches s))).
    assert (p ∉ dom (_caches s)) as Hp by apply is_fresh.
    assert (_caches s !! p = None) as Hpn by by apply not_elem_of_dom.
    eexists p, _. split; [reflexivity|]. split; [|split_and!]; simpl.
    + split; simpl; [done|done| | |].
      * intros n q. destruct (decide (n = ns)) as [->|].
        { rewrite lookup_insert_eq. intros [= <-]. by rewrite lookup_insert_eq. }
        rewrite lookup_insert_ne by done. intros Hq. destruct (decide (p = q)) as [->|].
        { by rewrite lookup_insert_eq. } rewrite lookup_insert_ne by done. by eapply Hr.
      * assert (forall n q, _level1 s !! n = Some q -> q <> p) as Hne.
        { intros n q Hq ->. destruct (Hr _ _ Hq) as [? ?]. congruence. }
        intros n1 n2 q. destruct (decide (n1 = ns)) as [->|], (decide (n2 = ns)) as [->|];
          rewrite ?lookup_insert_eq; rewrite ?lookup_insert_ne by done; intros H1 H2.
        { done. }
        { injection H1 as <-. by apply Hne in H2. }
        { injection H2 as <-. by apply Hne in H1. }
        by eapply Hi.
      * intros q mc'. destruct (decide (p = q)) as [->|].
        { rewrite lookup_insert_eq. by intros [= <-]. } rewrite lookup_insert_ne by done. apply Hw.
    + by rewrite lookup_insert_eq.
    + intros n Hn. by rewrite lookup_insert_ne.
    + by rewrite lookup_insert_eq.
    + rewrite dom_insert_L. set_solver.
    + intros _. split; [done|]. unfold cache_entries; simpl. by rewrite lookup_insert_eq.
    + intros q. unfold cache_entries; simpl. destruct (decide (p = q)) as [<-|].
      * by rewrite lookup_insert_eq, Hpn.
      * by rewrite lookup_insert_ne.
    + unfold cache_capacity, room; simpl. by rewrite lookup_insert_eq, E.
Qed.

Lemma set_capacity_spec cap s :
  wf_manifest_cache s -> 0 < cap ->
  exists s', set_capacity cap s = (Ret tt, s') /\ wf_manifest_cache s' /\
    _level1 s' = _level1 s /\ _caches s' = _caches s.
Proof.
  intros [Hc Hu Hr Hi Hw] Hp. unfold set_capacity, with_level1, lock_guard. rewrite Hu.
  eexists. split; [reflexivity|]. split; [|done]. by split.
Qed.

Lemma getInstance_wf : wf_manifest_cache getInstance.
Proof. split; simpl; try done. Qed.
End facts.

Section steps.
Context {B : BimapOps bytes manifest_cache_entry} {BL : Bimap B}.
Implicit Types s : ManifestCache.

Lemma insert_entries_elem cap (k : bytes) (v : manifest_cache_entry) l k' v' :
  (k', v') ∈ insert_entries cap k v l -> (k', v') = (k, v) \/ (k', v') ∈ l.
Proof.
  unfold insert_entries, without. intros [[_ Hin]%list_elem_of_filter|Hin]%elem_of_app.
  - right. destruct (_ <=? _); [|done]. destruct l; [done|]. by right.
  - left. by apply list_elem_of_singleton in Hin.
Qed.

(** A namespace that has its cache keeps it. *)
Lemma lookup_existing ns p s : wf_manifest_cache s -> _level1 s !! ns = Some p ->
  lookup_or_create ns s = (Ret p, s).
Proof.
  intros Hwf Hp. unfold lookup_or_create, with_level1, lock_guard. rewrite (wf_unlocked s Hwf).
  rewrite gets_bind. unfold id. cbn [_level1]. rewrite Hp. unfold mret, M_ret. f_equal.
  pose proof (wf_unlocked s Hwf) as Hu. destruct s. simpl in *. by subst.
Qed.

(** One step, on a well-formed state: what the map and the caches hold afterwards. *)
Lemma run_step_spec s st :
  wf_manifest_cache s -> step_ok s st ->
  wf_manifest_cache (run_step s st) /\ dom (_caches s) ⊆ dom (_caches (run_step s st)) /\
  (forall p k v, (k, v) ∈ cache_entries (run_step s st) p ->
     (k, v) ∈ cache_entries s p \/
     exists a, st = StepAddTo p a v /\ k = make_key a (name (manifest v))) /\
  (forall ns, (forall ns', st = StepLookupOrCreate ns' -> ns' <> ns) ->
     _level1 s !! ns = None -> _level1 (run_step s st) !! ns = None).
Proof.
  intros Hwf Hok. destruct st as [cap|ns|p a mfp|ns|p a o|ns]; simpl in Hok; unfold run_step.
  - destruct (set_capacity_spec cap s Hwf Hok) as (s' & -> & Hw & Hl & Hc); simpl.
    unfold cache_entries. rewrite Hl, Hc. split_and!; [done|done| |done]. intros. by left.
  - destruct (lookup_or_create_spec ns s Hwf) as (p & s' & Hr & Hw & Hl & Hne & _ & Hd & _ & He & _).
    rewrite (bind_ret_eq _ _ _ _ _ Hr). simpl. split_and!; [done|done| |].
    + intros q k v. rewrite He. by left.
    + intros n Hn. rewrite Hne; [done|]. intros ->. by eapply Hn.
  - destruct (add_to_spec p a mfp s Hwf Hok) as (s' & -> & Hw & Hl & Hd & He & Hq & _); simpl.
    split_and!; [done|by rewrite Hd| |by rewrite Hl].
    intros q k v. destruct (decide (q = p)) as [->|Hn]; [|rewrite Hq by done; by left].
    rewrite He. intros [[= -> ->]|?]%insert_entries_elem; [|by left]. right. by exists a.
  - rewrite (bind_ret_eq _ _ _ _ _ (lookup_spec ns s Hwf)). simpl.
    split_and!; try done. intros. by left.
  - destruct (find_in_spec p a o s Hwf Hok) as (s' & Hf & Hw & Hl & Hd & He).
    rewrite (bind_ret_eq _ _ _ _ _ Hf). simpl. split_and!; [done|by rewrite Hd| |by rewrite Hl].
    intros q k v. rewrite He. by left.
  - destruct (invalidate_spec ns s Hwf) as (s' & -> & Hw & Hl & Hc); simpl.
    unfold cache_entries. rewrite Hl, Hc. split_and!; [done|done|intros; by left|].
    intros n _ Hn. apply lookup_delete_None. by right.
Qed.

Lemma run_steps_wf s sts :
  wf_manifest_cache s -> steps_ok s sts -> wf_manifest_cache (run_steps s sts).
Proof.
  revert s. induction sts as [|st sts IH]; intros s Hwf Hok; [done|].
  destruct Hok as [H1 H2]. apply IH; [|done]. by apply run_step_spec.
Qed.

Lemma run_steps_keyed n s sts :
  wf_manifest_cache s -> steps_ok s sts -> Forall (step_keyed n) sts -> keyed n s ->
  keyed n (run_steps s sts).
Proof.
  revert s. induction sts as [|st sts IH]; intros s Hwf Hok Hk Hs; [done|].
  destruct Hok as [H1 H2]. apply Forall_cons in Hk as [Hk Hks].
  destruct (run_step_spec s st Hwf H1) as (Hw & _ & He & _). apply IH; [done..|].
  intros p k v Hin. destruct (He p k v Hin) as [?|(a & -> & ->)]; [by eapply Hs|].
  by exists a.
Qed.

Lemma run_steps_invalidated ns s sts :
  wf_manifest_cache s -> steps_ok s sts -> Forall (fun st => st <> StepLookupOrCreate ns) sts ->
  _level1 s !! ns = None ->
  _level1 (run_steps s sts) !! ns = None /\ dom (_caches s) ⊆ dom (_caches (run_steps s sts)).
Proof.
  revert s. induction sts as [|st sts IH]; intros s Hwf Hok Hk Hs; [done|].
  destruct Hok as [H1 H2]. apply Forall_cons in Hk as [Hk Hks].
  destruct (run_step_spec s st Hwf H1) as (Hw & Hd & _ & Hl).
  destruct (IH (run_step s st)) as [H3 H4]; [done..| |].
  - apply Hl; [|done]. intros ns' -> ->. done.
  - split; [done|]. simpl. by etransitivity.
Qed.

(** [add] as an operation on the caches seen through the map. *)
Lemma add_spec ns a mfp s : wf_manifest_cache s ->
  exists s', add ns a mfp s = (Ret tt, s') /\ wf_manifest_cache s' /\
    ns_entries s' ns = insert_entries (room s ns) (make_key a (name (manifest mfp))) mfp (ns_entries s ns) /\
    room s' ns = room s ns /\ forall n, n <> ns -> ns_entries s' n = ns_entries s n.
Proof.
  intros Hwf. unfold add, ns_entries.
  destruct (lookup_or_create_spec ns s Hwf) as (p & s1 & Hr & Hw1 & Hl1 & Hne & Hp & _ & Hnew & He1 & Hroom).
  rewrite (bind_ret_eq _ _ _ _ _ Hr).
  destruct (add_to_spec p a mfp s1 Hw1 Hp) as (s2 & -> & Hw2 & Hl2 & _ & He2 & Hq & Hcap).
  exists s2. split; [done|]. split; [done|]. rewrite Hl2. split; [|split].
  - rewrite Hl1, He2, Hroom. f_equal. destruct (_level1 s !! ns) as [p0|] eqn:E; [|by apply Hnew].
    rewrite (lookup_existing ns p0 s Hwf E) in Hr. by injection Hr as -> ->.
  - unfold room at 1. by rewrite Hl2, Hl1, Hcap.
  - intros n Hn. rewrite Hne by done. destruct (_level1 s !! n) as [q|] eqn:E; [|done].
    rewrite Hq, He1; [done|]. intros ->. apply Hn, (wf_inj s1 Hw1 _ _ p); [by rewrite Hne|done].
Qed.

Lemma cache_entries_nodup s p : wf_manifest_cache s -> NoDup (cache_entries s p).*1.
Proof.
  intros Hwf. unfold cache_entries. destruct (_caches s !! p) as [mc|] eqn:E; [|by apply NoDup_nil_2].
  destruct (wf_caches s Hwf p mc E) as [[Hn _ _] _]. exact Hn.
Qed.
Lemma ns_entries_nodup s ns : wf_manifest_cache s -> NoDup (ns_entries s ns).*1.
Proof.
  intros Hwf. unfold ns_entries. destruct (_level1 s !! ns); [by apply cache_entries_nodup|by apply NoDup_nil_2].
Qed.

Lemma find_eq ns a o s :
  wf_manifest_cache s ->
  fst (find ns a o s) = Ret (assoc (make_key a o) (ns_entries s ns)).
Proof.
  intros Hwf. unfold find, ns_entries. rewrite (bind_ret_eq _ _ _ _ _ (lookup_spec ns s Hwf)).
  destruct (_level1 s !! ns) as [p|] eqn:E; [|done].
  destruct (find_in_spec p a o s Hwf) as (s' & -> & _); [by eapply wf_refs|done].
Qed.

Lemma make_key_inj a1 o1 a2 o2 :
  length a1 = length a2 -> make_key a1 o1 = make_key a2 o2 -> a1 = a2 /\ o1 = o2.
Proof. intros Hl. apply app_inj_1, Hl. Qed.
End steps.

(** Keys are concatenations: an id and a name can be split in more than one way. *)
Lemma make_key_collision : make_key (str "ab") (str "c") = make_key (str "a") (str "bc").
Proof. reflexivity. Qed.

(** ** Properties *)

(** A manifest that was just added is found under its namespace, alba id and
    name, and no other namespace's cache is affected by the addition. *)
Theorem find_after_add {B : BimapOps bytes manifest_cache_entry} {BL : Bimap B}
    ns alba_id mfp s :
  wf_manifest_cache s ->
  exists s', add ns alba_id mfp s = (Ret tt, s') /\ wf_manifest_cache s' /\
    fst (find ns alba_id (name (manifest mfp)) s') = Ret (Some mfp) /\
    (forall ns' a o, ns' <> ns -> fst (find ns' a o s') = fst (find ns' a o s)).
Proof.
  intros Hwf. destruct (add_spec ns alba_id mfp s Hwf) as (s' & Ha & Hw & He & _ & Hne).
  exists s'. split; [done|]. split; [done|]. rewrite find_eq, He, assoc_insert, decide_True by done.
  split; [done|]. intros ns' a o Hn. by rewrite !find_eq, Hne.
Qed.

Lemma find_after_add_witness :
  exists s', add (B := list_bimap_ops) (str "ns") (str "alba") (sample_manifest "obj") getInstance
      = (Ret tt, s') /\
    fst (find (str "ns") (str "alba") (str "obj") s') = Ret (Some (sample_manifest "obj")).
Proof.
  destruct (find_after_add (B := list_bimap_ops) (str "ns") (str "alba") (sample_manifest "obj")
    getInstance getInstance_wf) as (s' & H1 & _ & H2 & _).
  exists s'. split; [exact H1|exact H2].
Defined.

(** When all alba ids have one length (they are UUIDs), then after any
    interleaving of the threads' atomic steps a lookup under an id of that length
    returns a manifest of exactly the object asked for, or nothing. *)
Theorem find_returns_named_object {B : BimapOps bytes manifest_cache_entry} {BL : Bimap B}
    n sts ns alba_id object_name mfp :
  steps_ok getInstance sts -> Forall (step_keyed n) sts -> length alba_id = n ->
  fst (find ns alba_id object_name (run_steps getInstance sts)) = Ret (Some mfp) ->
  name (manifest mfp) = object_name.
Proof.
  intros Hok Hk Hn. pose proof (run_steps_wf _ _ getInstance_wf Hok) as Hwf.
  assert (keyed n (run_steps getInstance sts)) as Hkeyed.
  { apply run_steps_keyed; [apply getInstance_wf|done..|].
    intros p k v. unfold cache_entries; simpl. rewrite lookup_empty. by intros ?%not_elem_of_nil. }
  rewrite find_eq by done. unfold ns_entries. destruct (_level1 _ !! ns) as [p|]; [|done].
  intros [= (a & Ha & Hkey)%assoc_Some%Hkeyed].
  apply make_key_inj in Hkey as [_ ?]; [done|lia].
Qed.

Lemma find_returns_named_object_witness :
  let sts := [StepLookupOrCreate (str "ns"); StepAddTo 1%positive (str "alba") (sample_manifest "obj")] in
  fst (find (B := list_bimap_ops) (str "ns") (str "alba") (str "obj") (run_steps getInstance sts))
  = Ret (Some (sample_manifest "obj")) /\
  name (manifest (sample_manifest "obj")) = str "obj".
Proof.
  intros sts.
  assert (fst (find (B := list_bimap_ops) (str "ns") (str "alba") (str "obj")
    (run_steps getInstance sts)) = Ret (Some (sample_manifest "obj"))) as Hf
    by (vm_compute; reflexivity).
  split; [exact Hf|].
  apply (find_returns_named_object (B := list_bimap_ops) 4 sts (str "ns") (str "alba") (str "obj")).
  - split; [exact I|]. split; [|exact I]. vm_compute. eexists. reflexivity.
  - repeat constructor.
  - reflexivity.
  - exact Hf.
Defined.

(** C23: once [invalidate_namespace] has returned, no lookup in the namespace finds
    anything until some [add] looks the namespace up again, whatever steps other
    threads take in between (additions to the forgotten cache included); and that
    [add] gets a new, empty cache, not one anybody held before. *)
Theorem invalidated_namespace_is_empty {B : BimapOps bytes manifest_cache_entry} {BL : Bimap B}
    s ns sts :
  wf_manifest_cache s ->
  let s0 := run_step s (StepInvalidate ns) in
  steps_ok s0 sts -> Forall (fun st => st <> StepLookupOrCreate ns) sts ->
  let s1 := run_steps s0 sts in
  (forall a o, fst (find ns a o s1) = Ret None) /\
  exists p s2, lookup_or_create ns s1 = (Ret p, s2) /\ _caches s !! p = None /\
    cache_entries s2 p = [].
Proof.
  intros Hwf s0 Hok Hsts s1. destruct (invalidate_spec ns s Hwf) as (s' & Hi & Hw & Hl & Hc).
  assert (s0 = s') as E0 by (unfold s0, run_step; by rewrite Hi).
  assert (_level1 s0 !! ns = None) as Hn0 by (by rewrite E0, Hl, lookup_delete_eq).
  rewrite <- E0 in Hw, Hc. destruct (run_steps_invalidated ns s0 sts Hw Hok Hsts Hn0) as [Hn1 Hd].
  pose proof (run_steps_wf s0 sts Hw Hok) as Hw1. fold s1 in Hn1, Hd, Hw1.
  split; [intros a o; rewrite find_eq by done; unfold ns_entries; by rewrite Hn1|].
  destruct (lookup_or_create_spec ns s1 Hw1) as (p & s2 & Hr & _ & _ & _ & _ & _ & Hf & _).
  destruct (Hf Hn1) as [Hp He]. exists p, s2. split; [done|]. split; [|done].
  apply not_elem_of_dom. rewrite <- Hc. intros Hin. by apply Hp, Hd.
Qed.

Lemma invalidated_namespace_is_empty_witness :
  let s := run_steps (B := list_bimap_ops) getInstance
    [StepLookupOrCreate (str "ns"); StepAddTo 1%positive (str "a") (sample_manifest "o")] in
  let late := [StepAddTo 1%positive (str "a") (sample_manifest "late")] in
  fst (find (str "ns") (str "a") (str "late")
    (run_steps (run_step s (StepInvalidate (str "ns"))) late)) = Ret None.
Proof.
  intros s late. apply (invalidated_namespace_is_empty (B := list_bimap_ops) s (str "ns") late).
  - apply run_steps_wf; [apply getInstance_wf|]. split; [exact I|]. split; [|exact I].
    vm_compute. eexists. reflexivity.
  - split; [|exact I]. vm_compute. eexists. reflexivity.
  - repeat constructor. discriminate.
Defined.
