(* ===== verification/Transport.v ===== *)
(** * Transports: [transport.h] and [transport.cc]

    The abstract class [Transport] as a class of operations, the frames on top of
    it ([read_message], [output]), and the transport kinds with their text form.
    [ReliableTransport] is what the protocol clients rely on: it relates the
    operations to the bytes sent and the bytes still to arrive.
    [script_transport], a peer with a prepared answer, is an instance. *)

From S2P Require Import Prelude Llio.

Local Open Scope Z_scope.
Local Open Scope alba_scope.

Inductive Kind := tcp | rdma.
#[export] Instance Kind_eq_dec : EqDecision Kind.
Proof. solve_decision. Defined.

Definition print_Kind (t : Kind) : bytes :=
  match t with tcp => str "TCP" | rdma => str "RDMA" end.

(** [is >> s]: leading white space is skipped, the word ends at the next one; no
    word at all sets [failbit]. *)
Definition is_space (b : byte) : bool :=
  let c := byte.unsigned b in (c =? 32) || ((9 <=? c) && (c <=? 13)).
Fixpoint skip_space (s : bytes) : bytes :=
  match s with b :: s' => if is_space b then skip_space s' else s | [] => [] end.
Fixpoint take_word (s : bytes) : bytes * bytes :=
  match s with
  | b :: s' => if is_space b then ([], s) else let '(w, r) := take_word s' in (b :: w, r)
  | [] => ([], [])
  end.
Definition read_word : M istream bytes := fun st =>
  if is_good st then
    let '(w, r) := take_word (skip_space (is_content st)) in
    (Ret w, Istream r (negb (bool_decide (w = []))))
  else (Ret [], st).
(** [t] keeps its value when the word is not a kind. *)
Definition parse_Kind (t : Kind) : M istream Kind :=
  s ← read_word;
  if bool_decide (s = str "TCP") then mret tcp
  else if bool_decide (s = str "RDMA") then mret rdma
  else modify (fun st => Istream (is_content st) false) ;; mret t.

(** The virtual functions.  [read_exact n] returns the bytes stored into the
    caller's buffer; both lengths are [int]s. *)
Class Transport (T : Type) := {
  expires_from_now : Z -> M T unit;
  write_exact : bytes -> M T unit;
  read_exact : Z -> M T bytes }.

(** [steady_clock::duration::max()], in nanoseconds. *)
Definition duration_max : Z := 2 ^ 63 - 1.

Section frames.
Context `{Transport T}.

(** [const int len] in the lambda converts the [uint32_t]. *)
Definition read_message : M T message.t :=
  mb ← message_buffer.from_reader (fun len => read_exact (s32 len));
  mret (message.make mb).

(** [output] takes the builder by reference: the frame's size is stored in it. *)
Definition output : M (T * message_builder.t) unit :=
  message_builder.output_using snd (fun b s => (s.1, b))
    (fun frame => zoom fst (fun t s => (t, s.2)) (write_exact frame)).
End frames.

(** ** The contract *)

(** [incoming t] is what the peer will have sent by the end, [outgoing t] what has
    been sent to it; a [live] transport completes every operation the peer's bytes
    suffice for, provided that the timeouts it is given are [patient] enough. *)
Class ReliableTransport (T : Type) `{Transport T} := {
  incoming : T -> bytes;
  outgoing : T -> bytes;
  live : T -> Prop;
  patient : Z -> Prop;
  patient_max : patient duration_max;
  expires_spec d t : live t -> patient d ->
    exists t', expires_from_now d t = (Ret tt, t') /\ live t' /\
      incoming t' = incoming t /\ outgoing t' = outgoing t;
  write_exact_spec bs t : live t ->
    exists t', write_exact bs t = (Ret tt, t') /\ live t' /\
      incoming t' = incoming t /\ outgoing t' = outgoing t ++ bs;
  read_exact_spec bs rest t : live t -> incoming t = bs ++ rest ->
    exists t', read_exact (len bs) t = (Ret bs, t') /\ live t' /\
      incoming t' = rest /\ outgoing t' = outgoing t }.

(** No read returns more than it was asked for, whatever the peer sends. *)
Class BoundedReads (T : Type) `{Transport T} := {
  read_exact_length n t bs t' : 0 <= n -> read_exact n t = (Ret bs, t') -> len bs <= n }.

(** A peer that has its answers ready. *)
Record script := Script { sc_incoming : bytes; sc_outgoing : bytes }.
#[export] Instance script_transport : Transport script := {
  expires_from_now _ := mret tt;
  write_exact bs := modify (fun t => Script (sc_incoming t) (sc_outgoing t ++ bs));
  read_exact n := fun t =>
    if n <=? len (sc_incoming t) then
      (Ret (take (Z.to_nat n) (sc_incoming t)),
       Script (drop (Z.to_nat n) (sc_incoming t)) (sc_outgoing t))
    else (Throw (ExnTransport (Transport_exception (str "eof"))), t) }.

(** The frame that carries [bs]. *)
Definition frame (bs : bytes) : bytes := le_split 4 (len bs) ++ bs.

(** ** Facts *)

#[export] Instance script_reliable : ReliableTransport script.
Proof.
  refine {| incoming := sc_incoming; outgoing := sc_outgoing; live := fun _ => True; patient := fun _ => True |}.
  - done.
  - intros d t _ _. by exists t.
  - intros bs t _. by eexists.
  - intros bs rest t _ E. simpl. rewrite E. pose proof (len_nonneg rest).
    replace (len bs <=? _) with true by (symmetry; rewrite len_app; lia).
    unfold len. rewrite Nat2Z.id, take_app_length, drop_app_length. by eexists.
Defined.

#[export] Instance script_bounded : BoundedReads script.
Proof.
  split. intros n t bs t' Hn. simpl. destruct (_ <=? _); [|done]. intros [= <- _].
  unfold len. rewrite length_take. lia.
Defined.

Section facts.
Context `{RT : ReliableTransport T}.

Lemma read_message_spec bs rest t :
  live t -> len bs < 2 ^ 31 -> incoming t = frame bs ++ rest ->
  exists t', read_message t
    = (Ret (message.make (message_buffer.fresh bs (len bs))), t') /\ live t' /\
    incoming t' = rest /\ outgoing t' = outgoing t.
Proof.
  intros Hl Hb Hi. unfold frame in Hi. rewrite <- app_assoc in Hi. pose proof (len_nonneg bs).
  destruct (read_exact_spec _ _ t Hl Hi) as (t1 & H1 & Hl1 & Hi1 & Ho1).
  destruct (read_exact_spec _ _ t1 Hl1 Hi1) as (t2 & H2 & Hl2 & Hi2 & Ho2).
  exists t2. split; [|split_and!; congruence].
  unfold read_message, message_buffer.from_reader, mbind, M_bind.
  rewrite len_le_split in H1. change (s32 4) with (Z.of_nat 4). rewrite H1.
  rewrite len_le_split. unfold mret, M_ret.
  cbv zeta. rewrite le_combine_split_small by (simpl; lia). rewrite s32_small by lia. simpl. by rewrite H2.
Qed.

Lemma output_spec t b :
  live t -> wf_builder b -> len (contents b) < 2 ^ 31 ->
  exists t' b', output (t, b) = (Ret tt, (t', b')) /\ live t' /\ wf_builder b' /\
    incoming t' = incoming t /\ outgoing t' = outgoing t ++ frame (contents b).
Proof.
  intros Hl Hwf Hsmall. destruct (framed_spec b Hwf) as (Hwf' & Hc & Hp & Hf).
  destruct (write_exact_spec (message_builder.as_string (message_builder.framed b)) t Hl)
    as (t' & Hw & Hl' & Hi & Ho).
  exists t', (message_builder.framed b). split; [|split_and!; try done].
  - unfold output, message_builder.output_using. rewrite modify_bind, gets_bind.
    unfold zoom; cbn [fst snd]. by rewrite Hw.
  - by rewrite Ho, Hf.
Qed.
End facts.

(** ** Properties *)

(** A transport kind is read back from its printed form, whatever white space
    surrounds it; any other word leaves the kind alone and fails the stream. *)
Theorem kind_roundtrip k t rest :
  parse_Kind t (Istream (str "  " ++ print_Kind k ++ str " " ++ rest) true)
  = (Ret k, Istream (str " " ++ rest) true) /\
  (forall s st, fst (read_word st) = Ret s -> s <> str "TCP" -> s <> str "RDMA" ->
     fst (parse_Kind t st) = Ret t /\ is_good (snd (parse_Kind t st)) = false).
Proof.
  split; [by destruct k|]. intros s st Hs H1 H2. unfold parse_Kind.
  destruct (read_word st) as [o st'] eqn:E. simpl in Hs. subst o.
  rewrite (bind_ret_eq _ _ _ _ _ E). by rewrite !bool_decide_eq_false_2.
Qed.

Lemma kind_roundtrip_witness :
  parse_Kind tcp (Istream (str "  RDMA x") true) = (Ret rdma, Istream (str " x") true) /\
  is_good (snd (parse_Kind rdma (Istream (str "tcp") true))) = false.
Proof.
  split; [apply (kind_roundtrip rdma tcp (str "x"))|].
  apply (proj2 (kind_roundtrip rdma rdma []) (str "tcp") (Istream (str "tcp") true));
    [reflexivity|discriminate|discriminate].
Defined.
