(* ===== verification/BooleanEnum.v ===== *)
(** * Two-valued enumerations: [boolean_enum.h]

    What the macro [BOOLEAN_ENUM(name)] defines: the enumeration (its underlying
    type is [bool]), its tests, its printer and its parser.  The name is the
    section's variable. *)

From S2P Require Import Prelude Llio Stuff Transport.

Local Open Scope Z_scope.
Local Open Scope alba_scope.

(** [is >> c] for a [char]: white space is skipped; no character fails the stream. *)
Definition read_char : M istream (option byte) := fun st =>
  if is_good st then
    match skip_space (is_content st) with
    | c :: r => (Ret (Some c), Istream r true)
    | [] => (Ret None, Istream [] false)
    end
  else (Ret None, st).

Inductive boolean_enum := F_ | T_.

Section boolean_enum.
Variable name : bytes.

Definition e_name : bytes := name ++ str "::".

Definition print_enum : printer boolean_enum := fun in_ =>
  match in_ with T_ => e_name ++ str "T" | F_ => e_name ++ str "F" end.

Definition is_T (in_ : boolean_enum) : bool := match in_ with T_ => true | F_ => false end.
Definition BooleanEnumTrue (in_ : boolean_enum) : bool := is_T in_.
Definition is_F (in_ : boolean_enum) : bool := match in_ with F_ => true | T_ => false end.
Definition BooleanEnumFalse (in_ : boolean_enum) : bool := is_F in_.

Definition set_badbit : M istream unit := modify (fun st => Istream (is_content st) false).

(** The loop over [e_name]; the result says whether to go on. *)
Fixpoint match_name (expected : bytes) : M istream bool :=
  match expected with
  | [] => mret true
  | e :: expected =>
      c ← read_char;
      if bool_decide (c = Some e) then match_name expected
      else set_badbit ;; mret false
  end.

(** [out] keeps its value when the text is no value of the enumeration. *)
Definition parse_enum (out : boolean_enum) : M istream boolean_enum :=
  ok ← match_name e_name;
  if ok : bool then
    c ← read_char;
    match c with
    | Some c =>
        if bool_decide (c = byte.of_Z 84) then mret T_
        else if bool_decide (c = byte.of_Z 70) then mret F_
        else set_badbit ;; mret out
    | None => set_badbit ;; mret out
    end
  else mret out.

(** ** Printing and parsing *)

Definition no_space (s : bytes) : Prop := Forall (fun c => is_space c = false) s.

Lemma read_char_cons c s : is_space c = false ->
  read_char (Istream (c :: s) true) = (Ret (Some c), Istream s true).
Proof. intros Hc. unfold read_char. cbn. by rewrite Hc. Qed.

Lemma match_name_app s rest : no_space s ->
  match_name s (Istream (s ++ rest) true) = (Ret true, Istream rest true).
Proof.
  induction 1 as [|c s Hc _ IH]; [done|]. cbn [match_name app].
  rewrite (bind_ret_eq _ _ _ _ _ (read_char_cons _ _ Hc)). by rewrite bool_decide_eq_true_2.
Qed.

(** What the printer of a boolean enumeration writes, its parser reads back, as long
    as the enumeration's name has no white space (it is an identifier). *)
Theorem boolean_enum_roundtrip b out rest : no_space name ->
  parse_enum out (Istream (print_enum b ++ rest) true) = (Ret b, Istream rest true).
Proof.
  intros Hn. unfold parse_enum.
  assert (no_space e_name) as He by (apply Forall_app; split; [done|repeat constructor]).
  assert (exists c, print_enum b = e_name ++ [c] /\ is_space c = false /\
            c = (if is_T b then byte.of_Z 84 else byte.of_Z 70)) as (c & -> & Hc & Hcb)
    by (destruct b; eexists; split_and!; reflexivity).
  rewrite <- app_assoc, (bind_ret_eq _ _ _ _ _ (match_name_app _ _ He)). cbn [app].
  rewrite (bind_ret_eq _ _ _ _ _ (read_char_cons _ _ Hc)). subst c. by destruct b.
Qed.
End boolean_enum.

Lemma boolean_enum_roundtrip_witness :
  parse_enum (str "consistent_read") F_
    (Istream (print_enum (str "consistent_read") T_ ++ str " tail") true)
  = (Ret T_, Istream (str " tail") true).
Proof.
  apply (boolean_enum_roundtrip (str "consistent_read") T_ F_ (str " tail")).
  repeat constructor.
Defined.

(** Any other text leaves the variable alone and the stream failed. *)
Lemma parse_enum_failure name out st :
  fst (match_name (e_name name) st) = Ret false ->
  parse_enum name out st = (Ret out, snd (match_name (e_name name) st)).
Proof.
  unfold parse_enum, mbind, M_bind. destruct (match_name (e_name name) st) as [o s]. by intros [= ->].
Qed.
