(* ===== verification/Io.v ===== *)
(** * Values on standard streams: [io.h] and [io.cc]

    [write_x] and [read_x] for the basic types and strings, and vectors of them,
    on [std::ostream] and [std::istream].  A variable that a reader may leave
    indeterminate is an [option]; using one is [Undef].  The format is the one of
    [llio]: [io_vector_roundtrip] is stated with [Llio]'s encoders. *)

From S2P Require Import Prelude Llio.

Local Open Scope Z_scope.
Local Open Scope alba_scope.

(** ** The code *)

(** The overloads of a type: [read_x] takes the variable's value before the call,
    [fresh] is what [T t;] leaves in a local one, [dflt] is [T()]. *)
Class Io (T : Type) := {
  write_x : T -> ostream -> ostream;
  read_x : option T -> M istream (option T);
  fresh : option T;
  dflt : T }.

(** Reading a variable. *)
Definition value {A} (x : option A) : M istream A :=
  match x with Some a => mret a | None => mout Undef end.

Definition write_bool (b : bool) : ostream -> ostream :=
  ostream_write [if b then Byte.x01 else Byte.x00].

(** [char c = is.get()]: at the end of the stream [c] is [char(-1)]. *)
Definition get : M istream byte :=
  bs ← istream_read 1;
  mret (match bs with b :: _ => b | [] => Byte.xff end).
Definition read_bool : M istream bool :=
  c ← get;
  match byte.unsigned c with
  | 1 => mret true
  | 0 => mret false
  | _ => mout (throw_deser (str "read_bool"))
  end.

#[export] Instance bool_Io : Io bool := {
  write_x := write_bool;
  read_x _ := b ← read_bool; mret (Some b);
  fresh := None;
  dflt := false }.

(** [is.read((char * )&i, n)]: too few bytes overwrite the low end of the variable. *)
Definition read_uint (n : nat) (i : option Z) : M istream (option Z) :=
  bs ← istream_read (Z.of_nat n);
  mret (if len bs =? Z.of_nat n then Some (le_combine bs)
        else (fun i => le_combine (bs ++ drop (length bs) (le_split n i))) <$> i).
Definition write_uint (n : nat) (i : Z) : ostream -> ostream := ostream_write (le_split n i).

Definition u32_Io : Io Z := {|
  write_x := write_uint 4; read_x := read_uint 4; fresh := None; dflt := 0 |}.
Definition u64_Io : Io Z := {|
  write_x := write_uint 8; read_x := read_uint 8; fresh := None; dflt := 0 |}.

Definition write_string (s : bytes) (os : ostream) : ostream :=
  ostream_write s (write_uint 4 (u32 (len s)) os).
Definition read_string (s : option bytes) : M istream (option bytes) :=
  size ← read_uint 4 None;
  size ← value size;
  data ← istream_read size;
  mret (if len data =? size then Some data else None).
#[export] Instance string_Io : Io bytes := {
  write_x := write_string; read_x := read_string; fresh := Some []; dflt := [] }.

Definition write_vector `{Io T} (v : list T) (os : ostream) : ostream :=
  foldl (fun os t => write_x t os) (write_uint 4 (u32 (len v)) os) (reverse v).
(** [v.resize(size)] keeps what fits; the loop is the one of [llio]'s vectors. *)
Definition read_vector `{Io T} (v : list T) : M istream (list T) :=
  size ← read_uint 4 None;
  size ← value size;
  for_down (down_from size)
    (fun i v => e ← read_x fresh; e ← value e; mret (<[i := e]> v))
    (resize (Z.to_nat size) dflt v).

Definition write_shared_ptr `{Io T} (xp : T) : ostream -> ostream := write_x xp.

(** ** The format *)

(** [enc] is the format of a type on the values that satisfy [valid]. *)
Class IoSpec (T : Type) `{Io T} (enc : T -> bytes) (valid : T -> Prop) : Prop := {
  write_x_spec t s : valid t -> write_x t (Ostream s true) = Ostream (s ++ enc t) true;
  read_x_spec t old rest : valid t ->
    read_x old (Istream (enc t ++ rest) true) = (Ret (Some t), Istream rest true) }.

Lemma ostream_write_good s bs : ostream_write bs (Ostream s true) = Ostream (s ++ bs) true.
Proof. done. Qed.

Lemma read_uint_app n i old rest : 0 <= i < 2 ^ (Z.of_nat n * 8) ->
  read_uint n old (Istream (le_split n i ++ rest) true) = (Ret (Some i), Istream rest true).
Proof.
  intros Hi. unfold read_uint. rewrite <- (len_le_split n i) at 1.
  rewrite (bind_ret_eq _ _ _ _ _ (istream_read_app _ _)), len_le_split, Z.eqb_refl.
  by rewrite le_combine_split_small.
Qed.

#[export] Instance bool_IoSpec : IoSpec bool enc_bool valid_any.
Proof.
  split; [done|]. intros b old rest _. cbn [read_x bool_Io]. unfold read_bool, get.
  rewrite (bind_ret_eq _ _ _ b (Istream rest true)); [done|].
  rewrite (bind_ret_eq _ _ _ (if b then Byte.x01 else Byte.x00) (Istream rest true)); [by destruct b|].
  change 1 with (len (enc_bool b)). by rewrite (bind_ret_eq _ _ _ _ _ (istream_read_app _ _)).
Qed.
#[export] Instance u32_IoSpec : IoSpec (H := u32_Io) Z (enc_int 4) (valid_int 32).
Proof. split; [done|]. intros i old rest Hi. by apply (read_uint_app 4). Qed.
#[export] Instance u64_IoSpec : IoSpec (H := u64_Io) Z (enc_int 8) (valid_int 64).
Proof. split; [done|]. intros i old rest Hi. by apply (read_uint_app 8). Qed.

Definition short_string (s : bytes) : Prop := len s < 2 ^ 32.
#[export] Instance string_IoSpec : IoSpec bytes enc_string short_string.
Proof.
  split.
  - intros s os Hs. unfold short_string in Hs. pose proof (len_nonneg s). cbn [write_x string_Io].
    unfold write_string, write_uint. rewrite !ostream_write_good, u32_small by lia.
    by rewrite <- app_assoc.
  - intros s old rest Hs. unfold short_string in Hs. pose proof (len_nonneg s). cbn [read_x string_Io].
    unfold read_string, enc_string. rewrite <- app_assoc.
    rewrite (bind_ret_eq _ _ _ _ _ (read_uint_app 4 (len s) None _ ltac:(simpl; lia))).
    cbn [value]. rewrite ret_bind, (bind_ret_eq _ _ _ _ _ (istream_read_app _ _)).
    by rewrite Z.eqb_refl.
Defined.

Section vectors.
Context `{IoSpec T enc valid}.

Lemma write_elements v s : Forall valid v ->
  foldl (fun os t => write_x t os) (Ostream s true) v = Ostream (s ++ concat (enc <$> v)) true.
Proof.
  intros Hv. revert s. induction Hv as [|t v Ht _ IH]; intros s; cbn; [by rewrite app_nil_r|].
  by rewrite write_x_spec, IH, app_assoc by done.
Qed.

(** The loop fills the vector from its end. *)
Lemma read_elements l acc l2 rest : Forall valid l -> length acc = length l ->
  for_down (length l) (fun i v => e ← read_x fresh; e ← value e; mret (<[i := e]> v)) (acc ++ l2)
    (Istream (concat (enc <$> reverse l) ++ rest) true)
  = (Ret (l ++ l2), Istream rest true).
Proof.
  intros Hl. revert acc l2. induction l as [|x l IH] using rev_ind; intros acc l2 Hacc.
  { by destruct acc. }
  rewrite length_app in *; simpl in Hacc |- *. rewrite Nat.add_1_r in *. cbn [for_down].
  apply Forall_app in Hl as [Hl Hx]. rewrite reverse_snoc. cbn [fmap list_fmap concat].
  rewrite <- app_assoc.
  rewrite (bind_ret_eq _ _ _ (<[length l := x]> (acc ++ l2))
             (Istream (concat (enc <$> reverse l) ++ rest) true)).
  2: { rewrite (bind_ret_eq _ _ _ _ _ (read_x_spec x fresh _ (Forall_inv Hx))). done. }
  destruct acc as [|y acc _] using rev_ind; [simpl in Hacc; lia|].
  rewrite length_app in Hacc; simpl in Hacc. assert (length acc = length l) as Hal by lia.
  rewrite <- !app_assoc, insert_app_r_alt, Hal, Nat.sub_diag by lia. simpl. by apply IH.
Qed.
End vectors.

(** What [write_x] puts on a stream for a vector (of booleans, integers or strings)
    is [llio]'s encoding of it, and [read_vector] takes exactly that off the stream and
    returns the vector, whatever the variable held before. *)
Theorem io_vector_roundtrip `{IoSpec T enc valid} (v w : list T) s rest :
  Forall valid v -> len v < 2 ^ 31 ->
  write_vector v (Ostream s true) = Ostream (s ++ enc_vector enc v) true /\
  read_vector w (Istream (enc_vector enc v ++ rest) true) = (Ret v, Istream rest true).
Proof.
  intros Hv Hl. pose proof (len_nonneg v). unfold enc_vector. split.
  - unfold write_vector, write_uint. rewrite u32_small, ostream_write_good by lia.
    rewrite write_elements by by apply Forall_reverse. by rewrite <- app_assoc.
  - unfold read_vector. rewrite <- app_assoc.
    rewrite (bind_ret_eq _ _ _ _ _ (read_uint_app 4 (len v) None _ ltac:(simpl; lia))).
    cbn [value]. rewrite ret_bind. unfold down_from.
    replace (Z.to_nat (s32 (len v - 1) + 1)) with (length v).
    2: { unfold len in *. destruct v; [done|]. rewrite s32_small; simpl in *; lia. }
    rewrite <- (app_nil_r (resize _ _ _)).
    rewrite (read_elements v _ [] rest Hv); [by rewrite app_nil_r|].
    unfold len. by rewrite length_resize, Nat2Z.id.
Qed.

Lemma io_vector_roundtrip_witness :
  write_vector [str "ab"; str ""; str "c"] (Ostream [] true)
  = Ostream (enc_vector enc_string [str "ab"; str ""; str "c"]) true /\
  read_vector [str "old"] (Istream (enc_vector enc_string [str "ab"; str ""; str "c"] ++ str "!") true)
  = (Ret [str "ab"; str ""; str "c"], Istream (str "!") true).
Proof.
  apply (io_vector_roundtrip [str "ab"; str ""; str "c"] [str "old"] [] (str "!")); [|done].
  repeat constructor; by vm_compute.
Defined.
