(* ===== verification/RdmaTransport.v ===== *)
(** * The RDMA transport: [rdma_transport.h] and [rdma_transport.cc]

    The loops of [write_exact] and [read_exact] around [rpoll], [rsend] and
    [rrecv], with their deadline, the constructor and the destructor.  The rsocket
    library and the clock are a parameter, the class [Rsockets]; [RsocketsSpec]
    states what they document.  [toy_net] is an instance. *)

From S2P Require Import Prelude Llio Stuff Transport.

Local Open Scope Z_scope.
Local Open Scope alba_scope.

Definition POLLIN : Z := 1.
Definition POLLOUT : Z := 4.

(** The calls, each returning its result and the environment's next state; time
    is in nanoseconds, poll timeouts are in milliseconds. *)
Class Rsockets (E : Type) := {
  now : E -> Z * E;
  errno : E -> Z;
  EINPROGRESS : Z;
  rpoll : Z -> Z -> Z -> E -> Z * E;
  rsend : Z -> bytes -> E -> Z * E;
  (** The result and the bytes stored. *)
  rrecv : Z -> Z -> E -> Z * bytes * E;
  rsocket : E -> Z * E;
  inet_pton : bytes -> Z;
  set_nonblock : Z -> E -> bool * E;
  rconnect : Z -> bytes -> Z -> E -> Z * E;
  rclose : Z -> E -> Z * E;
  lexical_cast_int : bytes -> option Z }.

Section rdma.
Context {E : Type} `{Rsockets E}.

Record RDMA_transport := Make_RDMA { _socket : Z; _deadline : Z; env : E }.

(** Calling into the environment. *)
Definition call {A} (f : E -> A * E) : M RDMA_transport A := fun t =>
  let '(a, e) := f (env t) in (Ret a, Make_RDMA (_socket t) (_deadline t) e).

Definition _build_msg (prefix : bytes) (e : E) : bytes := prefix ++ str " " ++ dec (errno e).
Definition throw_errno {A} (prefix : bytes) : M RDMA_transport A :=
  t ← gets id;
  mthrow (ExnTransport (Transport_exception (_build_msg prefix (env t)))).
Definition throw_transport {A} (what : bytes) : M RDMA_transport A :=
  mthrow (ExnTransport (Transport_exception what)).

(** [_deadline - steady_clock::now()]. *)
Definition time_left : M RDMA_transport Z :=
  n ← call now;
  t ← gets id;
  mret (_deadline t - n).
(** [duration_cast<milliseconds>(time_remaining).count()] passed as an [int]. *)
Definition to_millis (d : Z) : Z := s32 (Z.quot d 1000000).

Definition poll (events time_remaining : Z) (failed timed_out : bytes) : M RDMA_transport unit :=
  t ← gets id;
  rc ← call (rpoll (_socket t) events (to_millis time_remaining));
  if rc <? 0 then throw_errno failed
  else if rc =? 0 then throw_transport timed_out
  else mret tt.

(** One round of the writing loop and the test at its end; [fuel] bounds the
    number of rounds. *)
Fixpoint write_loop (fuel : nat) (buf : bytes) (off todo time_remaining : Z) :
    M RDMA_transport unit :=
  match fuel with
  | O => mout Undef
  | S fuel =>
      poll POLLOUT time_remaining (str "really_write.rpoll:") (str "really_write.rpoll timeout") ;;
      t ← gets id;
      sent ← call (rsend (_socket t) (take (Z.to_nat todo) (drop (Z.to_nat off) buf)));
      if sent <? 0 then throw_errno (str "really_write.send") else
      let off := off + sent in
      let todo := todo - sent in
      if 0 <? todo then
        time_remaining ← time_left;
        if 0 <? time_remaining then write_loop fuel buf off todo time_remaining else mret tt
      else mret tt
  end.

Definition rdma_write_exact (buf : bytes) : M RDMA_transport unit :=
  let len := s32 (len buf) in
  if len =? 0 then mret tt
  else if len <? 0 then throw_transport (str "really_write negative length")
  else
    time_remaining ← time_left;
    write_loop (Z.to_nat len) buf 0 len time_remaining.

(** [acc] is what has been stored into the caller's buffer. *)
Fixpoint read_loop (fuel : nat) (acc : bytes) (todo time_remaining : Z) : M RDMA_transport bytes :=
  match fuel with
  | O => mout Undef
  | S fuel =>
      poll POLLIN time_remaining (str "really_read.rpoll") (str "really_read.rpoll timeout") ;;
      t ← gets id;
      r ← call (rrecv (_socket t) todo);
      let '(read, data) := r in
      if read <=? 0 then throw_errno (str "really_read.rrecv= " ++ dec read) else
      let acc := acc ++ data in
      let todo := todo - read in
      if 0 <? todo then
        time_remaining ← time_left;
        if 0 <? time_remaining then read_loop fuel acc todo time_remaining else mret acc
      else mret acc
  end.

Definition rdma_read_exact (len : Z) : M RDMA_transport bytes :=
  if len =? 0 then mret []
  else if len <? 0 then throw_errno (str "really_read negative length")
  else
    time_remaining ← time_left;
    read_loop (Z.to_nat len) [] len time_remaining.

(** [now() + timeout] in a signed 64-bit count: an overflow is undefined. *)
Definition rdma_expires_from_now (timeout : Z) : M RDMA_transport unit :=
  n ← call now;
  if n + timeout <? 2 ^ 63 then
    modify (fun t => Make_RDMA (_socket t) (n + timeout) (env t))
  else mout Undef.

#[export] Instance rdma_Transport : Transport RDMA_transport := {
  expires_from_now := rdma_expires_from_now;
  write_exact := rdma_write_exact;
  read_exact := rdma_read_exact }.

(** The constructor: on success the socket is connected or still connecting. *)
Definition construct {A} (f : E -> A * E) : M E A := fun e => let '(a, e) := f e in (Ret a, e).
Definition fail_errno {A} (prefix : bytes) : M E A := fun e =>
  (Throw (ExnTransport (Transport_exception (_build_msg prefix e))), e).
Definition make_RDMA (ip port : bytes) (timeout : Z) : M E RDMA_transport :=
  socket ← construct rsocket;
  (guard 0 <=? socket orelse
     ExnTransport (Transport_exception (str "RDMA_transport::socket < 0?"))) ;;
  port_i ← (match lexical_cast_int port with
            | Some p => mret p
            | None => mthrow (ExnSystem (str "bad_lexical_cast"))
            end);
  (if inet_pton ip <? 0 then fail_errno (str "ip") else mret tt) ;;
  nb ← construct (set_nonblock socket);
  (if negb (nb : bool) then fail_errno (str "set_nonblock") else mret tt) ;;
  ok ← construct (rconnect socket ip port_i);
  (if ok <? 0 then
     er ← gets errno;
     if er =? EINPROGRESS then
       rc ← construct (rpoll socket POLLOUT (to_millis timeout));
       if rc <? 0 then fail_errno (str "connect.rpoll")
       else if rc =? 0 then mthrow (ExnTransport (Transport_exception (str "timeout")))
       else mret tt
     else fail_errno (str "connect")
   else mret tt) ;;
  e ← gets id;
  mret (Make_RDMA socket 0 e).

Definition destroy_RDMA (t : RDMA_transport) : E := snd (rclose (_socket t) (env t)).
End rdma.
Arguments RDMA_transport : clear implicits.

(** ** What the library documents *)

(** [pending e] is what the peer has sent or will send on the connection,
    [delivered e] what has been handed to the network. *)
Class RsocketsSpec (E : Type) `{Rsockets E} := {
  pending : E -> bytes;
  delivered : E -> bytes;
  now_spec e : pending (snd (now e)) = pending e /\ delivered (snd (now e)) = delivered e;
  rpoll_spec fd ev ms e :
    pending (snd (rpoll fd ev ms e)) = pending e /\
    delivered (snd (rpoll fd ev ms e)) = delivered e;
  rrecv_spec fd n e : 0 < n ->
    let '(r, data, e') := rrecv fd n e in
    delivered e' = delivered e /\
    (0 < r -> len data = r /\ r <= n /\ pending e = data ++ pending e');
  rsend_spec fd bs e : bs <> [] ->
    let '(r, e') := rsend fd bs e in
    pending e' = pending e /\
    (0 <= r -> 0 < r <= len bs /\ delivered e' = delivered e ++ take (Z.to_nat r) bs) }.

(** A network that delivers one byte per call, and a clock that advances by one
    per reading. *)
Record toy_net := Toy_net { tn_clock : Z; tn_in : bytes; tn_out : bytes }.
#[export] Instance toy_Rsockets : Rsockets toy_net := {
  now e := (tn_clock e, Toy_net (tn_clock e + 1) (tn_in e) (tn_out e));
  errno _ := 0;
  EINPROGRESS := 115;
  rpoll _ _ _ e := (1, e);
  rsend _ bs e := (1, Toy_net (tn_clock e) (tn_in e) (tn_out e ++ take 1 bs));
  rrecv _ _ e := (len (take 1 (tn_in e)), take 1 (tn_in e),
                  Toy_net (tn_clock e) (drop 1 (tn_in e)) (tn_out e));
  rsocket e := (3, e);
  inet_pton _ := 1;
  set_nonblock _ e := (true, e);
  rconnect _ _ _ e := (0, e);
  rclose _ e := (0, e);
  lexical_cast_int _ := Some 0 }.

(** The transfer stopped early because the deadline had passed. *)
Definition expired {E} `{Rsockets E} (t : RDMA_transport E) : Prop :=
  exists e, snd (now e) = env t /\ _deadline t <= fst (now e).

Definition same_target {E} (t t' : RDMA_transport E) : Prop :=
  _socket t' = _socket t /\ _deadline t' = _deadline t.

(** How a transfer of [todo] bytes can end: with an exception, or with bytes of the
    connection in their order, all of them unless the deadline has passed. *)
Definition read_result {E} `{RsocketsSpec E} (acc : bytes) (todo : Z) (t : RDMA_transport E)
    (o : outcome bytes) (t' : RDMA_transport E) : Prop :=
  match o with
  | Ret bs => exists data, bs = acc ++ data /\ len data <= todo /\
      pending (env t) = data ++ pending (env t') /\ delivered (env t') = delivered (env t) /\
      (len data = todo \/ expired t')
  | Throw (ExnTransport _) => True
  | _ => False
  end.
Definition write_result {E} `{RsocketsSpec E} (rest : bytes) (todo : Z) (t : RDMA_transport E)
    (o : outcome unit) (t' : RDMA_transport E) : Prop :=
  match o with
  | Ret _ => exists n, 0 < n <= todo /\ pending (env t') = pending (env t) /\
      delivered (env t') = delivered (env t) ++ take (Z.to_nat n) rest /\
      (n = todo \/ expired t')
  | Throw (ExnTransport _) => True
  | _ => False
  end.

(** ** Facts *)

#[export] Instance toy_RsocketsSpec : RsocketsSpec toy_net.
Proof.
  refine {| pending := tn_in; delivered := tn_out |}; try done.
  - intros fd n e Hn. simpl. split; [done|]. intros Hr.
    destruct e as [c i o]; simpl in *. destruct i as [|b i]; simpl in *; [done|].
    rewrite take_0, drop_0. change (len [b]) with 1. split_and!; [done|lia|done].
  - intros fd bs e Hne. simpl. split; [done|]. intros _. destruct bs as [|b bs]; [done|].
    rewrite len_cons. pose proof (len_nonneg bs). split; [lia|done].
Defined.

Section facts.
Context {E : Type} `{RsocketsSpec E}.
Implicit Types t : RDMA_transport E.

Lemma time_left_spec t :
  exists d t', time_left t = (Ret d, t') /\ same_target t t' /\
    pending (env t') = pending (env t) /\ delivered (env t') = delivered (env t) /\
    (d <= 0 -> expired t').
Proof.
  unfold time_left, call. pose proof (now_spec (env t)) as [Hp Hd].
  destruct (now (env t)) as [n e] eqn:En. do 2 eexists.
  split; [unfold mbind, M_bind, gets, id, mret, M_ret; rewrite En; reflexivity|].
  split; [done|]. simpl in *. split; [done|]. split; [done|]. intros Hle.
  exists (env t). rewrite En. split; [done|simpl in *; lia].
Qed.

Lemma poll_spec ev d f1 f2 t :
  exists o t', poll ev d f1 f2 t = (o, t') /\ same_target t t' /\
    pending (env t') = pending (env t) /\ delivered (env t') = delivered (env t) /\
    (o = Ret tt \/ exists what, o = Throw (ExnTransport (Transport_exception what))).
Proof.
  unfold poll. rewrite gets_bind. unfold id, call, mbind, M_bind.
  pose proof (rpoll_spec (_socket t) ev (to_millis d) (env t)) as [Hp Hd].
  destruct (rpoll _ _ _ _) as [rc e]; simpl in *.
  destruct (rc <? 0), (rc =? 0); (do 2 eexists; split; [reflexivity|]); (split; [done|]);
    (split; [done|]); (split; [done|]); first [left; reflexivity|right; eexists; reflexivity].
Qed.

Lemma throw_errno_eq {A} prefix t :
  throw_errno (A := A) prefix t
  = (Throw (ExnTransport (Transport_exception (_build_msg prefix (env t)))), t).
Proof. done. Qed.

(** The loops end: every round transfers at least one byte. *)
Lemma read_loop_spec fuel acc todo d t :
  0 < todo <= Z.of_nat fuel ->
  exists o t', read_loop fuel acc todo d t = (o, t') /\ same_target t t' /\
    read_result acc todo t o t'.
Proof.
  revert acc todo d t. induction fuel as [|fuel IH]; intros acc todo d t Hf; [lia|]. simpl.
  destruct (poll_spec POLLIN d (str "really_read.rpoll") (str "really_read.rpoll timeout") t)
    as (o & t1 & Hp & [Hs1 Hd1] & Hpe1 & Hde1 & Ho).
  destruct Ho as [->|[what ->]].
  2: { rewrite (bind_throw_eq _ _ _ _ _ Hp). by do 2 eexists. }
  rewrite (bind_ret_eq _ _ _ _ _ Hp), gets_bind. unfold id.
  pose proof (rrecv_spec (_socket t1) todo (env t1) ltac:(lia)) as Hr.
  destruct (rrecv (_socket t1) todo (env t1)) as [[r data] e2] eqn:Er.
  destruct Hr as [Hde2 Hpos]. set (t2 := Make_RDMA (_socket t1) (_deadline t1) e2).
  rewrite (bind_ret_eq (call _) _ _ (r, data) t2) by (unfold call; by rewrite Er). cbn iota beta.
  destruct (Z.leb_spec r 0) as [Hle|Hlt].
  { rewrite throw_errno_eq. by do 2 eexists. }
  destruct (Hpos Hlt) as (Hl & Hrn & Hpe2). cbv zeta.
  assert (same_target t t2) as Hst by by split.
  assert (pending (env t) = data ++ pending e2) as Hpt by congruence.
  assert (delivered e2 = delivered (env t)) as Hdt by congruence.
  destruct (Z.ltb_spec 0 (todo - r)) as [Hmore|Hdone].
  2: { do 2 eexists. split; [reflexivity|]. split; [done|]. exists data.
    split_and!; try done; [lia|]. left. lia. }
  destruct (time_left_spec t2) as (d3 & t3 & Htl & [Hs3 Hd3] & Hpe3 & Hde3 & Hex).
  rewrite (bind_ret_eq _ _ _ _ _ Htl).
  assert (same_target t t3) as Hst3 by (destruct Hst; split; congruence). simpl in Hpe3, Hde3.
  destruct (Z.ltb_spec 0 d3) as [Hgo|Hstop].
  - destruct (IH (acc ++ data) (todo - r) d3 t3 ltac:(lia)) as (o & t' & -> & [Hs' Hd'] & Hres).
    do 2 eexists. split; [reflexivity|]. split; [destruct Hst3; split; congruence|].
    destruct o as [bs|[]| |]; try done. destruct Hres as (dt & -> & Hln & Hpd & Hdd & Hor).
    exists (data ++ dt). rewrite len_app. split_and!; [by rewrite app_assoc|lia| | |].
    + by rewrite <- app_assoc, <- Hpd, Hpe3.
    + congruence.
    + destruct Hor; [left; lia|by right].
  - do 2 eexists. split; [reflexivity|]. split; [done|]. exists data.
    split_and!; [done|lia|congruence|congruence|]. right. by apply Hex.
Qed.

Lemma write_loop_spec fuel buf off todo d t :
  0 < todo <= Z.of_nat fuel -> 0 <= off -> off + todo = len buf ->
  exists o t', write_loop fuel buf off todo d t = (o, t') /\ same_target t t' /\
    write_result (drop (Z.to_nat off) buf) todo t o t'.
Proof.
  revert off todo d t. induction fuel as [|fuel IH]; intros off todo d t Hf Ho Hb; [lia|]. simpl.
  destruct (poll_spec POLLOUT d (str "really_write.rpoll:") (str "really_write.rpoll timeout") t)
    as (o & t1 & Hp & [Hs1 Hd1] & Hpe1 & Hde1 & Hor).
  destruct Hor as [->|[what ->]].
  2: { rewrite (bind_throw_eq _ _ _ _ _ Hp). by do 2 eexists. }
  rewrite (bind_ret_eq _ _ _ _ _ Hp), gets_bind. unfold id.
  set (rest := drop (Z.to_nat off) buf). set (chunk := take (Z.to_nat todo) rest).
  assert (len rest = todo) as Hlr by (unfold rest, len in *; rewrite length_drop; lia).
  assert (chunk = rest) as Hch by (unfold chunk; apply take_ge; unfold len in Hlr; lia).
  assert (chunk <> []) as Hne by (rewrite Hch; intros E0; rewrite E0 in Hlr; rewrite len_nil in Hlr; lia).
  pose proof (rsend_spec (_socket t1) chunk (env t1) Hne) as Hr.
  destruct (rsend (_socket t1) chunk (env t1)) as [r e2] eqn:Er.
  destruct Hr as [Hpe2 Hpos]. set (t2 := Make_RDMA (_socket t1) (_deadline t1) e2).
  rewrite (bind_ret_eq (call _) _ _ r t2) by (unfold call; by rewrite Er).
  destruct (Z.ltb_spec r 0) as [Hle|Hge].
  { rewrite throw_errno_eq. by do 2 eexists. }
  destruct (Hpos Hge) as (Hrn & Hde2). cbv zeta. rewrite Hch in Hrn, Hde2.
  assert (same_target t t2) as Hst by by split.
  assert (pending e2 = pending (env t)) as Hpt by congruence.
  assert (delivered e2 = delivered (env t) ++ take (Z.to_nat r) rest) as Hdt by congruence.
  destruct (Z.ltb_spec 0 (todo - r)) as [Hmore|Hdone].
  2: { do 2 eexists. split; [reflexivity|]. split; [done|]. exists r.
    split_and!; try done; try lia. }
  destruct (time_left_spec t2) as (d3 & t3 & Htl & [Hs3 Hd3] & Hpe3 & Hde3 & Hex).
  rewrite (bind_ret_eq _ _ _ _ _ Htl).
  assert (same_target t t3) as Hst3 by (destruct Hst; split; congruence). simpl in Hpe3, Hde3.
  destruct (Z.ltb_spec 0 d3) as [Hgo|Hstop].
  - destruct (IH (off + r) (todo - r) d3 t3 ltac:(lia) ltac:(lia) ltac:(lia))
      as (o & t' & -> & [Hs' Hd'] & Hres).
    do 2 eexists. split; [reflexivity|]. split; [destruct Hst3; split; congruence|].
    destruct o as [[]|[]| |]; try done. destruct Hres as (n & Hn & Hpd & Hdd & Hor).
    exists (r + n). split_and!; try lia; [congruence| |].
    + rewrite Hdd, Hde3, Hdt, <- app_assoc. f_equal. unfold rest.
      replace (Z.to_nat (off + r)) with (Z.to_nat off + Z.to_nat r)%nat by lia.
      rewrite <- drop_drop, Z2Nat.inj_add by lia. by rewrite <- take_take_drop.
    + destruct Hor; [left; lia|by right].
  - do 2 eexists. split; [reflexivity|]. split; [done|]. exists r.
    split_and!; try lia; [congruence|congruence|]. right. by apply Hex.
Qed.
Lemma rdma_read_length n t bs t' : 0 <= n -> rdma_read_exact n t = (Ret bs, t') -> len bs <= n.
Proof.
  intros Hn. unfold rdma_read_exact. destruct (Z.eqb_spec n 0) as [->|Hn0]; [by intros [= <- _]|].
  replace (n <? 0) with false by (symmetry; lia).
  destruct (time_left_spec t) as (d & t1 & Htl & _). rewrite (bind_ret_eq _ _ _ _ _ Htl).
  destruct (read_loop_spec (Z.to_nat n) [] n d t1) as (o & t2 & -> & _ & Hr); [lia|].
  intros [= -> ->]. destruct Hr as (data & -> & Hl & _). done.
Qed.
End facts.

(** [expires_from_now(duration::max())], as the clients call it, overflows. *)
Lemma expires_max_overflows {E} `{Rsockets E} (t : RDMA_transport E) :
  0 < fst (now (env t)) -> fst (expires_from_now duration_max t) = Undef.
Proof.
  intros Hn. simpl. unfold rdma_expires_from_now, call, mbind, M_bind.
  destruct (now (env t)) as [n e]; simpl in *. unfold duration_max.
  by replace (_ <? _) with false by (symmetry; lia).
Qed.

(** So this transport cannot keep the contract the clients are proved against, once the
    clock has started: they end every call with that timeout. *)
Lemma rdma_unreliable {E} `{Rsockets E} {RT : ReliableTransport (RDMA_transport E)} (t : RDMA_transport E) :
  live t -> fst (now (env t)) <= 0.
Proof.
  intros Hl. destruct (expires_spec duration_max t Hl patient_max) as (t' & He & _).
  destruct (Z.le_gt_cases (fst (now (env t))) 0) as [|Hn]; [done|].
  pose proof (expires_max_overflows t Hn) as Hu. by rewrite He in Hu.
Qed.

(** ** Properties *)



(** C40: when the deadline passes in the middle of a read, the loop's own test ends
    it and [read_exact] returns as if the buffer were full: a read of [n] bytes
    succeeds with the fewer bytes that came. *)
Theorem rdma_short_read_succeeds {E} `{Rsockets E} (t : RDMA_transport E) n ms rc data r :
  0 < n -> fst (now (env t)) = ms ->
  let e1 := snd (now (env t)) in
  fst (rpoll (_socket t) POLLIN (to_millis (_deadline t - ms)) e1) = rc -> 0 < rc ->
  let e2 := snd (rpoll (_socket t) POLLIN (to_millis (_deadline t - ms)) e1) in
  fst (rrecv (_socket t) n e2) = (r, data) -> 0 < r < n ->
  _deadline t <= fst (now (snd (rrecv (_socket t) n e2))) ->
  fst (read_exact n t) = Ret data.
Proof.
  intros Hn <- e1 Hrc Hrc0 e2 Hr Hr0 Hdl. simpl. unfold rdma_read_exact.
  replace (n =? 0) with false by (symmetry; lia). replace (n <? 0) with false by (symmetry; lia).
  destruct (Z.to_nat n) as [|fuel] eqn:En; [lia|].
  unfold time_left, call. subst e2 e1.
  destruct t as [fd dl e]; simpl in *. unfold mbind, M_bind, gets, id, mret, M_ret; simpl.
  destruct (now e) as [n1 e1]; simpl in *.
  unfold poll, call, gets, id, mbind, M_bind; simpl.
  destruct (rpoll _ _ _ _) as [rc' e2]; simpl in *. subst rc'.
  replace (rc <? 0) with false by (symmetry; lia). replace (rc =? 0) with false by (symmetry; lia).
  unfold mret, M_ret. simpl. destruct (rrecv _ _ _) as [[r' data'] e3]; simpl in *.
  injection Hr as -> ->. replace (r <=? 0) with false by (symmetry; lia).
  replace (0 <? n - r) with true by (symmetry; lia). unfold time_left, call, gets, id, mbind, M_bind; simpl.
  destruct (now e3) as [n3 e4]; simpl in *.
  by replace (0 <? dl - n3) with false by (symmetry; lia).
Qed.

Lemma rdma_short_read_succeeds_witness :
  fst (read_exact 4 (Make_RDMA 3 8 (Toy_net 7 (str "abcdef") []))) = Ret (str "a").
Proof.
  apply (rdma_short_read_succeeds (Make_RDMA 3 8 (Toy_net 7 (str "abcdef") [])) 4 7 1 (str "a") 1);
    try reflexivity; simpl; lia.
Defined.
