(* ===== verification/TcpTransport.v ===== *)
(** * The TCP transport: [tcp_transport.h] and [tcp_transport.cc]

    Asynchronous operations of Boost.Asio driven by a loop of [run_one], next to a
    deadline timer whose handler closes the socket and re-arms itself.  Asio is a
    parameter: the class [Asio] holds the calls, an event is what one [run_one]
    executes, and [AsioSpec] states what is documented.  The loop waits for as many
    events as it takes; [fuel] bounds their number. *)

From S2P Require Import Prelude Llio Transport.

Local Open Scope Z_scope.
Local Open Scope alba_scope.

(** One call of [run_one]: the completion handler of the pending operation with its
    error code, length and (for a read) the bytes stored; the timer's handler; or
    nothing to run. *)
Inductive event := EvHandler (ec len2 : Z) (data : bytes) | EvTimer | EvNone.

Definition would_block : Z := 11.
Definition error_eof : Z := 2.
Definition operation_aborted : Z := 125.

(** Times in milliseconds; [None] is [pos_infin]. *)
Class Asio (E : Type) := {
  timer_expires_at : E -> option Z;
  set_expires_at : option Z -> E -> E;
  timer_now : E -> Z * E;
  async_wait : E -> E;
  socket_close : E -> E;
  socket_is_open : E -> bool;
  set_no_delay : E -> E;
  async_connect : bytes -> Z -> E -> E;
  async_write : bytes -> E -> E;
  async_read : Z -> E -> E;
  run_one : E -> event * E;
  stoi : bytes -> option Z;
  address_from_string : bytes -> bool;
  error_what : Z -> bytes }.

Section tcp.
Context {E : Type} `{Asio E} (fuel : nat).

Record TCP_transport := Make_TCP { _timeout : Z; io : E }.
Definition do_io (f : E -> E) : M TCP_transport unit :=
  modify (fun t => Make_TCP (_timeout t) (f (io t))).
Definition call_io {A} (f : E -> A * E) : M TCP_transport A := fun t =>
  let '(a, e) := f (io t) in (Ret a, Make_TCP (_timeout t) e).
Definition system_error {A} (ec : Z) : M TCP_transport A := mthrow (ExnSystem (error_what ec)).

(** [duration_cast<milliseconds>(t).count()]. *)
Definition _convert (t : Z) : Z := Z.quot t 1000000.

Definition timer_expires_from_now : M TCP_transport unit :=
  t ← gets id;
  n ← call_io timer_now;
  do_io (set_expires_at (Some (n + _timeout t))).

Definition _check_deadline : M TCP_transport unit :=
  n ← call_io timer_now;
  t ← gets id;
  (when match timer_expires_at (io t) with Some d => d <=? n | None => false end
   do (do_io socket_close ;; do_io (set_expires_at None))) ;;
  do_io async_wait.

Definition tcp_expires_from_now (timeout : Z) : M TCP_transport unit :=
  modify (fun t => Make_TCP (_convert timeout) (io t)).

(** [do _io_service.run_one(); while (ec == would_block)], with the completion
    handler's rule that fewer bytes than asked for are the end of the file. *)
Fixpoint wait_io (n : nat) (len : Z) (ec : Z) (data : bytes) : M TCP_transport (Z * bytes) :=
  match n with
  | O => mout Undef
  | S n =>
      ev ← call_io run_one;
      '(ec, data) ← (match ev with
                     | EvHandler x len2 d =>
                         mret (if (x =? 0) && (len2 <? len) then error_eof else x, d)
                     | EvTimer => _check_deadline ;; mret (ec, data)
                     | EvNone => mret (ec, data)
                     end);
      if ec =? would_block then wait_io n len ec data else mret (ec, data)
  end.

Definition tcp_write_exact (buf : bytes) : M TCP_transport unit :=
  timer_expires_from_now ;;
  do_io (async_write buf) ;;
  r ← wait_io fuel (len buf) would_block [];
  if negb (r.1 =? 0) then system_error r.1 else mret tt.

Definition tcp_read_exact (n : Z) : M TCP_transport bytes :=
  timer_expires_from_now ;;
  do_io (async_read n) ;;
  r ← wait_io fuel n would_block [];
  if negb (r.1 =? 0) then system_error r.1 else mret r.2.

#[export] Instance tcp_Transport : Transport TCP_transport := {
  expires_from_now := tcp_expires_from_now;
  write_exact := tcp_write_exact;
  read_exact := tcp_read_exact }.

(** The constructor; [stoi] and [from_string] throw on malformed text. *)
Definition connect (ip port : bytes) : M TCP_transport unit :=
  timer_expires_from_now ;;
  _check_deadline ;;
  port_as_int ← (match stoi port with
                 | Some p => mret p
                 | None => mthrow (ExnSystem (str "stoi"))
                 end);
  (guard address_from_string ip orelse ExnSystem (str "Invalid argument")) ;;
  do_io (async_connect ip port_as_int) ;;
  r ← wait_io fuel 0 would_block [];
  t ← gets id;
  (if negb (r.1 =? 0) || negb (socket_is_open (io t)) then
     system_error (if negb (r.1 =? 0) then r.1 else operation_aborted)
   else mret tt) ;;
  do_io set_no_delay ;;
  do_io (set_expires_at None).
Definition make_TCP (ip port : bytes) (timeout : Z) (e : E) : outcome TCP_transport * E :=
  let '(o, t) := connect ip port (Make_TCP (_convert timeout) e) in
  match o with
  | Ret _ => (Ret t, io t)
  | Throw x => (Throw x, io t) | Abort => (Abort, io t) | Undef => (Undef, io t)
  end.

Definition destroy_TCP (t : TCP_transport) : E := socket_close (io t).
End tcp.
Arguments TCP_transport : clear implicits.

(** ** What Asio documents *)

(** [reading e] is the size of the pending read, [writing e] the buffer of the
    pending write; [tcp_in] and [tcp_out] the bytes still to be read and those
    written.  Every pending operation completes within [rounds e] events, at most
    [max_rounds]: closing the socket, as the timer's handler does, cancels it. *)
Class AsioSpec (E : Type) `{Asio E} := {
  reading : E -> option Z;
  writing : E -> option bytes;
  tcp_in : E -> bytes;
  tcp_out : E -> bytes;
  rounds : E -> nat;
  max_rounds : nat;
  (** What the calls besides [async_read], [async_write] and [run_one] leave alone. *)
  frame_of e := (reading e, writing e, tcp_in e, tcp_out e, rounds e);
  frame_set d e : frame_of (set_expires_at d e) = frame_of e;
  frame_now e : frame_of (snd (timer_now e)) = frame_of e;
  frame_wait e : frame_of (async_wait e) = frame_of e;
  frame_close e : frame_of (socket_close e) = frame_of e;
  async_read_spec n e : 0 <= n ->
    reading (async_read n e) = Some n /\ tcp_in (async_read n e) = tcp_in e /\
    tcp_out (async_read n e) = tcp_out e /\ (rounds (async_read n e) <= max_rounds)%nat;
  async_write_spec bs e :
    writing (async_write bs e) = Some bs /\ tcp_in (async_write bs e) = tcp_in e /\
    tcp_out (async_write bs e) = tcp_out e /\ (rounds (async_write bs e) <= max_rounds)%nat;
  run_one_read n e : 0 <= n -> reading e = Some n ->
    match run_one e with
    | (EvHandler ec len2 data, e') =>
        ec <> would_block /\ tcp_out e' = tcp_out e /\
        (ec = 0 -> len data = len2 /\ len2 <= n /\ tcp_in e = data ++ tcp_in e')
    | (_, e') => reading e' = Some n /\ tcp_in e' = tcp_in e /\ tcp_out e' = tcp_out e /\
                 (rounds e' < rounds e)%nat
    end;
  run_one_write bs e : writing e = Some bs ->
    match run_one e with
    | (EvHandler ec len2 _, e') =>
        ec <> would_block /\ tcp_in e' = tcp_in e /\
        (ec = 0 -> 0 <= len2 <= len bs /\ tcp_out e' = tcp_out e ++ take (Z.to_nat len2) bs)
    | (_, e') => writing e' = Some bs /\ tcp_in e' = tcp_in e /\ tcp_out e' = tcp_out e /\
                 (rounds e' < rounds e)%nat
    end }.

(** A connection to a peer that responds: while [responsive] holds, an operation the
    peer's bytes suffice for completes in full, and until then the clock reads less than
    [done_by], at most [latency] milliseconds after the clock was last read before the
    operation began. *)
Class AsioResponsive (E : Type) `{AsioSpec E} := {
  responsive : E -> Prop;
  latency : Z;
  clock : E -> Z;
  done_by : E -> Z;
  latency_small : latency < 9223372036854;
  same_run e e' := responsive e' /\ done_by e' = done_by e /\ timer_expires_at e' = timer_expires_at e;
  set_expires_responsive d e : responsive e ->
    responsive (set_expires_at d e) /\ clock (set_expires_at d e) = clock e /\
    timer_expires_at (set_expires_at d e) = d;
  timer_now_responsive e : responsive e ->
    same_run e (snd (timer_now e)) /\ clock (snd (timer_now e)) = fst (timer_now e);
  async_wait_responsive e : responsive e -> same_run e (async_wait e);
  async_read_responsive n e : responsive e -> 0 <= n <= len (tcp_in e) ->
    responsive (async_read n e) /\ done_by (async_read n e) <= clock e + latency /\
    timer_expires_at (async_read n e) = timer_expires_at e;
  async_write_responsive bs e : responsive e ->
    responsive (async_write bs e) /\ done_by (async_write bs e) <= clock e + latency /\
    timer_expires_at (async_write bs e) = timer_expires_at e;
  (** A pending operation on [n] bytes. *)
  operation n e := (reading e = Some n /\ 0 <= n <= len (tcp_in e)) \/ (exists bs, writing e = Some bs /\ n = len bs);
  run_one_responsive n e : responsive e -> operation n e ->
    match run_one e with
    | (EvHandler ec len2 _, e') => ec = 0 /\ len2 = n /\ responsive e'
    | (EvTimer, e') => same_run e e' /\ fst (timer_now e') < done_by e'
    | (EvNone, e') => same_run e e'
    end }.

(** A socket that completes what it can at once, after one timer event. *)
Record toy_io := Toy_io {
  ti_timer : option Z; ti_in : bytes; ti_out : bytes;
  ti_read : option Z; ti_write : option bytes; ti_rounds : nat }.
Definition toy_run (e : toy_io) : event * toy_io :=
  match ti_rounds e with
  | S k => (EvTimer, Toy_io (ti_timer e) (ti_in e) (ti_out e) (ti_read e) (ti_write e) k)
  | O =>
      match ti_read e, ti_write e with
      | Some n, None =>
          let d := take (Z.to_nat n) (ti_in e) in
          (EvHandler 0 (len d) d,
           Toy_io (ti_timer e) (drop (Z.to_nat n) (ti_in e)) (ti_out e) None None 0)
      | None, Some bs =>
          (EvHandler 0 (len bs) [], Toy_io (ti_timer e) (ti_in e) (ti_out e ++ bs) None None 0)
      | _, _ => (EvHandler operation_aborted 0 [], e)
      end
  end.
#[export] Instance toy_Asio : Asio toy_io := {
  timer_expires_at := ti_timer;
  set_expires_at d e := Toy_io d (ti_in e) (ti_out e) (ti_read e) (ti_write e) (ti_rounds e);
  timer_now e := (0, e);
  async_wait e := e;
  socket_close e := e;
  socket_is_open _ := true;
  set_no_delay e := e;
  async_connect _ _ e := e;
  async_write bs e := Toy_io (ti_timer e) (ti_in e) (ti_out e) None (Some bs) 1;
  async_read n e := Toy_io (ti_timer e) (ti_in e) (ti_out e) (Some n) None 1;
  run_one := toy_run;
  stoi _ := Some 0;
  address_from_string _ := true;
  error_what _ := [] }.

(** ** Facts *)

#[export] Instance toy_AsioSpec : AsioSpec toy_io.
Proof.
  refine {| reading := ti_read; writing := ti_write; tcp_in := ti_in; tcp_out := ti_out;
            rounds := ti_rounds; max_rounds := 1 |}; try done.
  - intros n [tm i o r w k] Hn Hr; simpl in *. subst r. unfold toy_run; simpl.
    destruct k as [|k]; simpl; [|split_and!; done || lia].
    destruct w; simpl; [done|]. split_and!; [done|done|]. intros _. rewrite take_drop.
    split_and!; [done| |done]. unfold len. rewrite length_take. lia.
  - intros bs [tm i o r w k] Hr; simpl in *. subst w. unfold toy_run; simpl.
    destruct k as [|k]; simpl; [|split_and!; done || lia].
    destruct r; simpl; [done|]. split_and!; [done|done|]. intros _. pose proof (len_nonneg bs).
    split; [lia|]. unfold len. by rewrite Nat2Z.id, firstn_all.
Defined.

#[export] Instance toy_AsioResponsive : AsioResponsive toy_io.
Proof.
  refine {| responsive e := ti_read e = None \/ ti_write e = None; latency := 1;
            clock _ := 0; done_by _ := 1 |}; try done.
  - intros n e _ _. by split; [right|].
  - intros bs e _. by split; [left|].
  - intros n [tm i o r w k] Hr Hop; simpl in *. unfold toy_run; simpl.
    destruct k as [|k]; [|by split]. destruct Hop as [[-> Hn]|(bs & -> & ->)].
    + destruct Hr as [|Hw]; [done|]. simpl in Hw. subst w. split; [done|].
      split; [|by left]. unfold len in *. rewrite length_take. lia.
    + destruct Hr as [Hr|]; [|done]. simpl in Hr. subst r. split; [done|]. split; [done|by left].
Defined.

Section facts.
Context {E : Type} `{AsioSpec E}.
Implicit Types t : TCP_transport E.

(** What the transport's own calls leave alone. *)
Definition same_io t t' : Prop := frame_of (io t') = frame_of (io t).

Lemma timer_spec t : exists t', timer_expires_from_now t = (Ret tt, t') /\ same_io t t'.
Proof.
  unfold timer_expires_from_now, call_io. rewrite gets_bind. unfold id, mbind, M_bind.
  pose proof (frame_now (io t)) as Hn. destruct (timer_now (io t)) as [n e].
  eexists. split; [reflexivity|]. unfold same_io; simpl. by rewrite frame_set.
Qed.

Lemma check_deadline_spec t : exists t', _check_deadline t = (Ret tt, t') /\ same_io t t'.
Proof.
  unfold _check_deadline, call_io, gets, id, mbind, M_bind.
  pose proof (frame_now (io t)) as Hn. destruct (timer_now (io t)) as [n e]; simpl in *.
  destruct (match timer_expires_at e with Some d => d <=? n | None => false end);
    (eexists; split; [reflexivity|]); unfold same_io; simpl;
    by rewrite frame_wait, ?frame_set, ?frame_close.
Qed.

Lemma frame_of_eq e e' :
  frame_of e' = frame_of e ->
  reading e' = reading e /\ writing e' = writing e /\ tcp_in e' = tcp_in e /\
  tcp_out e' = tcp_out e /\ rounds e' = rounds e.
Proof. unfold frame_of. by intros [= -> -> -> -> ->]. Qed.

(** The loop ends with the pending read's completion, however often the timer's
    handler runs before. *)
Lemma wait_read n fuel data t :
  0 <= n -> reading (io t) = Some n -> (rounds (io t) < fuel)%nat ->
  exists ec d t', wait_io fuel n would_block data t = (Ret (ec, d), t') /\
    tcp_out (io t') = tcp_out (io t) /\
    (ec = 0 -> len d = n /\ tcp_in (io t) = d ++ tcp_in (io t')).
Proof.
  intros Hn. revert data t. induction fuel as [|fuel IH]; intros data t Hr Hf; [lia|]. simpl.
  pose proof (run_one_read n (io t) Hn Hr) as Hrun. unfold call_io at 1, mbind at 1, M_bind at 1.
  destruct (run_one (io t)) as [[ec len2 d| |] e'] eqn:Ee; cbn iota beta.
  - destruct Hrun as (Hne & Ho & Hok). unfold mbind at 1, M_bind at 1. unfold mret at 1, M_ret at 1.
    destruct (Z.eqb_spec ec 0) as [->|Hec]; simpl.
    + destruct (Hok eq_refl) as (Hl & Hle & Hi). destruct (Z.ltb_spec len2 n) as [Hlt|Hge]; simpl.
      * do 3 eexists. split; [reflexivity|]. split; [done|]. by intros ?.
      * do 3 eexists. split; [reflexivity|]. split; [done|]. intros _. split; [lia|done].
    + rewrite (proj2 (Z.eqb_neq ec would_block) Hne).
      do 3 eexists. split; [reflexivity|]. split; [done|]. by intros ?.
  - destruct Hrun as (Hr' & Hi & Ho & Hlt).
    destruct (check_deadline_spec (Make_TCP (_timeout t) e')) as (t2 & Hc & Hs).
    rewrite (bind_ret_eq (_check_deadline ;; _) _ _ (would_block, data) t2).
    2: { by rewrite (bind_ret_eq _ _ _ _ _ Hc). }
    apply frame_of_eq in Hs as (Hr2 & _ & Hi2 & Ho2 & Hk2). simpl in *.
    destruct (IH data t2) as (ec & d & t' & He & Ho' & Hok); [congruence|lia|].
    exists ec, d, t'. split; [exact He|]. split; [congruence|]. intros Hec.
    destruct (Hok Hec). split; [done|congruence].
  - destruct Hrun as (Hr' & Hi & Ho & Hlt).
    destruct (IH data (Make_TCP (_timeout t) e')) as (ec & d & t' & He & Ho' & Hok); [done|simpl; lia|].
    exists ec, d, t'. split; [exact He|]. simpl in *. split; [congruence|]. intros Hec.
    destruct (Hok Hec). split; [done|congruence].
Qed.

Lemma wait_write bs fuel data t :
  writing (io t) = Some bs -> (rounds (io t) < fuel)%nat ->
  exists ec d t', wait_io fuel (len bs) would_block data t = (Ret (ec, d), t') /\
    tcp_in (io t') = tcp_in (io t) /\
    (ec = 0 -> tcp_out (io t') = tcp_out (io t) ++ bs).
Proof.
  revert data t. induction fuel as [|fuel IH]; intros data t Hr Hf; [lia|]. simpl.
  pose proof (run_one_write bs (io t) Hr) as Hrun. unfold call_io at 1, mbind at 1, M_bind at 1.
  destruct (run_one (io t)) as [[ec len2 d| |] e'] eqn:Ee; cbn iota beta.
  - destruct Hrun as (Hne & Ho & Hok). unfold mbind at 1, M_bind at 1. unfold mret at 1, M_ret at 1.
    destruct (Z.eqb_spec ec 0) as [->|Hec]; simpl.
    + destruct (Hok eq_refl) as (Hle & Hi). destruct (Z.ltb_spec len2 (len bs)) as [Hlt|Hge]; simpl.
      * do 3 eexists. split; [reflexivity|]. split; [done|]. by intros ?.
      * do 3 eexists. split; [reflexivity|]. split; [done|]. intros _. simpl. rewrite Hi.
        by rewrite take_ge by (unfold len in *; lia).
    + rewrite (proj2 (Z.eqb_neq ec would_block) Hne).
      do 3 eexists. split; [reflexivity|]. split; [done|]. by intros ?.
  - destruct Hrun as (Hr' & Hi & Ho & Hlt).
    destruct (check_deadline_spec (Make_TCP (_timeout t) e')) as (t2 & Hc & Hs).
    rewrite (bind_ret_eq (_check_deadline ;; _) _ _ (would_block, data) t2).
    2: { by rewrite (bind_ret_eq _ _ _ _ _ Hc). }
    apply frame_of_eq in Hs as (_ & Hr2 & Hi2 & Ho2 & Hk2). simpl in *.
    destruct (IH data t2) as (ec & d & t' & He & Ho' & Hok); [congruence|lia|].
    exists ec, d, t'. split; [exact He|]. split; [congruence|]. intros Hec.
    rewrite (Hok Hec). congruence.
  - destruct Hrun as (Hr' & Hi & Ho & Hlt).
    destruct (IH data (Make_TCP (_timeout t) e')) as (ec & d & t' & He & Ho' & Hok); [done|simpl; lia|].
    exists ec, d, t'. split; [exact He|]. simpl in *. split; [congruence|]. intros Hec.
    rewrite (Hok Hec). congruence.
Qed.

(** However few events are allowed for. *)
Lemma wait_read_length n fuel data t d t' :
  0 <= n -> reading (io t) = Some n -> len data <= n ->
  wait_io fuel n would_block data t = (Ret (0, d), t') -> len d <= n.
Proof.
  intros Hn. revert data t. induction fuel as [|fuel IH]; intros data t Hr Hd; [done|]. simpl.
  pose proof (run_one_read n (io t) Hn Hr) as Hrun. unfold call_io at 1, mbind at 1, M_bind at 1.
  destruct (run_one (io t)) as [[ec len2 d'| |] e'] eqn:Ee; cbn iota beta.
  - destruct Hrun as (Hne & _ & Hok). unfold mbind at 1, M_bind at 1. unfold mret at 1, M_ret at 1.
    destruct (Z.eqb_spec ec 0) as [->|Hec]; simpl.
    + destruct (Hok eq_refl) as (Hl & Hle & _). destruct (len2 <? n); simpl; intros [= <- _]. lia.
    + rewrite (proj2 (Z.eqb_neq ec would_block) Hne). by intros [= -> _ _].
  - destruct Hrun as (Hr' & _). destruct (check_deadline_spec (Make_TCP (_timeout t) e')) as (t2 & Hc & Hs).
    rewrite (bind_ret_eq (_check_deadline ;; _) _ _ (would_block, data) t2).
    2: { by rewrite (bind_ret_eq _ _ _ _ _ Hc). }
    apply frame_of_eq in Hs as (Hr2 & _). simpl in *. apply IH; [congruence|done].
  - destruct Hrun as (Hr' & _). by apply IH.
Qed.

Lemma tcp_read_length fuel n t d t' :
  0 <= n -> tcp_read_exact fuel n t = (Ret d, t') -> len d <= n.
Proof.
  intros Hn. destruct (timer_spec t) as (t1 & Ht & _). unfold tcp_read_exact.
  rewrite (bind_ret_eq _ _ _ _ _ Ht). unfold do_io. rewrite modify_bind.
  destruct (async_read_spec n (io t1) Hn) as (Hr & _). unfold mbind, M_bind.
  destruct (wait_io fuel n would_block [] _) as [[[ec d']|e| |] t2] eqn:Ew; try done. simpl.
  destruct (Z.eqb_spec ec 0) as [->|Hec]; simpl; [|done]. intros [= -> ->].
  eapply (wait_read_length n fuel [] (Make_TCP _ _)); [exact Hn|exact Hr|by rewrite len_nil|exact Ew].
Qed.
End facts.

(** ** On a responsive connection *)

Section responsive.
Context {E : Type} `{AsioResponsive E}.
Implicit Types t : TCP_transport E.

(** Between operations, with a timeout above the latency. *)
Definition tcp_live t : Prop := responsive (io t) /\ latency < _timeout t.
(** The pending operation will be done before the deadline. *)
Definition in_time n t : Prop :=
  responsive (io t) /\ operation n (io t) /\ exists d, timer_expires_at (io t) = Some d /\ done_by (io t) <= d.

Lemma operation_frame n e e' : frame_of e' = frame_of e -> operation n e -> operation n e'.
Proof. intros (Hr & Hw & Hi & _ & _)%frame_of_eq. unfold operation. by rewrite Hr, Hw, Hi. Qed.

(** The deadline is [_timeout] after the clock's reading. *)
Lemma timer_live t : tcp_live t -> exists t', timer_expires_from_now t = (Ret tt, t') /\
  same_io t t' /\ tcp_live t' /\ _timeout t' = _timeout t /\
  timer_expires_at (io t') = Some (clock (io t') + _timeout t).
Proof.
  intros [Hr Hl]. destruct (timer_now_responsive (io t) Hr) as [(Hr1 & _) Hc].
  pose proof (frame_now (io t)) as Hf. unfold timer_expires_from_now, call_io. rewrite gets_bind. unfold id, mbind, M_bind.
  destruct (timer_now (io t)) as [n e]. cbn [fst snd] in *.
  destruct (set_expires_responsive (Some (n + _timeout t)) e Hr1) as (Hr2 & Hc2 & Ht).
  eexists. split; [reflexivity|]. unfold same_io; cbn [io _timeout].
  split; [by rewrite frame_set|]. split; [by split|]. split; [done|]. by rewrite Hc2, Hc.
Qed.

(** Its handler leaves the socket open. *)
Lemma check_deadline_live n t : in_time n t -> fst (timer_now (io t)) < done_by (io t) ->
  exists t', _check_deadline t = (Ret tt, t') /\ same_io t t' /\ in_time n t' /\ _timeout t' = _timeout t.
Proof.
  intros (Hr & Hop & d & Hd & Hle) Hn. destruct (timer_now_responsive (io t) Hr) as [(Hr1 & Hb1 & Ht1) _].
  pose proof (frame_now (io t)) as Hf. unfold _check_deadline, call_io, gets, id, mbind, M_bind.
  destruct (timer_now (io t)) as [n0 e]. cbn [fst snd io] in *. rewrite Ht1, Hd.
  replace (d <=? n0) with false by (symmetry; lia).
  destruct (async_wait_responsive e Hr1) as (Hr2 & Hb2 & Ht2). pose proof (frame_wait e) as Hf2.
  eexists. split; [reflexivity|]. unfold same_io; cbn [io _timeout].
  assert (frame_of (async_wait e) = frame_of (io t)) as Hs by (etransitivity; [exact Hf2|exact Hf]).
  split; [exact Hs|]. split; [|done]. split; [done|]. split; [exact (operation_frame _ _ _ Hs Hop)|].
  exists d. simpl. rewrite Ht2, Hb2, Ht1, Hb1. by split.
Qed.

(** The loop ends with the operation's success. *)
Lemma wait_live n fuel data t : in_time n t -> (rounds (io t) < fuel)%nat ->
  exists d t', wait_io fuel n would_block data t = (Ret (0, d), t') /\ responsive (io t') /\ _timeout t' = _timeout t.
Proof.
  revert data t. induction fuel as [|fuel IH]; intros data t (Hr & Hop & d & Hd & Hle) Hf; [lia|]. simpl.
  assert (match run_one (io t) with
          | (EvHandler _ _ _, _) => True
          | (_, e') => operation n e' /\ (rounds e' < rounds (io t))%nat
          end) as Hnext.
  { destruct Hop as [[Hrd Hn]|(bs & Hw & Hn)].
    - pose proof (run_one_read n (io t) ltac:(lia) Hrd) as Hrun. destruct (run_one (io t)) as [[| |] e']; [done| |];
        destruct Hrun as (Hr' & Hi & _ & Hlt); (split; [left; by rewrite Hi|done]).
    - pose proof (run_one_write bs (io t) Hw) as Hrun. destruct (run_one (io t)) as [[| |] e']; [done| |];
        destruct Hrun as (Hw' & _ & _ & Hlt); (split; [right; by exists bs|done]). }
  pose proof (run_one_responsive n (io t) Hr Hop) as Hrun. unfold call_io at 1, mbind at 1, M_bind at 1.
  destruct (run_one (io t)) as [[ec len2 dt| |] e'] eqn:Ee; cbn iota beta.
  - destruct Hrun as (-> & -> & Hr'). unfold mbind at 1, M_bind at 1. unfold mret at 1, M_ret at 1.
    rewrite Z.ltb_irrefl. simpl. by do 2 eexists.
  - destruct Hrun as [(Hr' & Hb' & Ht') Hlt], Hnext as [Hop' Hrd'].
    destruct (check_deadline_live n (Make_TCP (_timeout t) e')) as (t2 & Hc & Hs & Hin & Hto).
    { split; [done|]. split; [done|]. exists d. simpl. split; [congruence|lia]. } { done. }
    rewrite (bind_ret_eq (_check_deadline ;; _) _ _ (would_block, data) t2).
    2: { by rewrite (bind_ret_eq _ _ _ _ _ Hc). }
    apply frame_of_eq in Hs as (_ & _ & _ & _ & Hk2). simpl in *.
    destruct (IH data t2 Hin) as (d' & t' & He & Hr2 & Hto'); [lia|]. exists d', t'. split; [exact He|]. split; [done|congruence].
  - destruct Hrun as (Hr' & Hb' & Ht'), Hnext as [Hop' Hrd'].
    destruct (IH data (Make_TCP (_timeout t) e')) as (d' & t' & He & Hr2 & Hto'); [|simpl; lia|by exists d', t'].
    split; [done|]. split; [done|]. exists d. simpl. split; [congruence|lia].
Qed.

(** The transfers end, with success on a live transport. *)
Lemma tcp_read_ends fuel n t : 0 <= n -> (max_rounds < fuel)%nat ->
  exists o t', tcp_read_exact fuel n t = (o, t') /\ tcp_out (io t') = tcp_out (io t) /\
    ((exists d, o = Ret d /\ len d = n /\ tcp_in (io t) = d ++ tcp_in (io t')) \/
     (exists what, o = Throw (ExnSystem what))) /\
    (tcp_live t -> n <= len (tcp_in (io t)) -> tcp_live t' /\ exists d, o = Ret d).
Proof.
  intros Hn Hf. destruct (timer_spec t) as (t1 & Ht & Hs). unfold tcp_read_exact. rewrite (bind_ret_eq _ _ _ _ _ Ht).
  apply frame_of_eq in Hs as (_ & _ & Hi & Ho & _). unfold do_io at 1. rewrite modify_bind.
  destruct (async_read_spec n (io t1) Hn) as (Hr & Hi1 & Ho1 & Hk).
  destruct (wait_read n fuel [] (Make_TCP (_timeout t1) (async_read n (io t1))) Hn Hr (Nat.le_lt_trans _ _ _ Hk Hf))
    as (ec & d & t' & Hw & Ho2 & Hok).
  rewrite (bind_ret_eq _ _ _ _ _ Hw). cbn [fst snd io _timeout] in *.
  exists (if negb (ec =? 0) then Throw (ExnSystem (error_what ec)) else Ret d), t'.
  split; [by destruct (negb _)|]. split; [congruence|]. split.
  - destruct (Z.eqb_spec ec 0) as [->|Hne]; simpl; [|right; by eexists].
    destruct (Hok eq_refl) as [Hl Hd]. left. exists d. split_and!; [done|done|congruence].
  - intros Hlive Hin. destruct (timer_live t Hlive) as (t1' & Ht' & _ & [Hr1 Hl1] & Hto & Hat).
    rewrite Ht in Ht'. injection Ht' as <-.
    destruct (async_read_responsive n (io t1) Hr1) as (Hr2 & Hb & Hat2); [rewrite Hi; lia|].
    destruct (wait_live n fuel [] (Make_TCP (_timeout t1) (async_read n (io t1)))) as (d' & t2 & Hw2 & Hr3 & Hto3).
    + split; [done|]. split; [left; simpl; rewrite Hi1, Hi; by split|]. eexists. simpl. rewrite Hat2. split; [exact Hat|lia].
    + simpl. lia.
    + rewrite Hw in Hw2. injection Hw2 as -> -> ->. split; [|by exists d'].
      split; [done|]. rewrite Hto3. exact Hl1.
Qed.

Lemma tcp_write_ends fuel bs t : (max_rounds < fuel)%nat ->
  exists o t', tcp_write_exact fuel bs t = (o, t') /\ tcp_in (io t') = tcp_in (io t) /\
    ((o = Ret tt /\ tcp_out (io t') = tcp_out (io t) ++ bs) \/ (exists what, o = Throw (ExnSystem what))) /\
    (tcp_live t -> tcp_live t' /\ o = Ret tt).
Proof.
  intros Hf. destruct (timer_spec t) as (t1 & Ht & Hs). unfold tcp_write_exact. rewrite (bind_ret_eq _ _ _ _ _ Ht).
  apply frame_of_eq in Hs as (_ & _ & Hi & Ho & _). unfold do_io at 1. rewrite modify_bind.
  destruct (async_write_spec bs (io t1)) as (Hr & Hi1 & Ho1 & Hk).
  destruct (wait_write bs fuel [] (Make_TCP (_timeout t1) (async_write bs (io t1))) Hr (Nat.le_lt_trans _ _ _ Hk Hf))
    as (ec & d & t' & Hw & Ho2 & Hok).
  rewrite (bind_ret_eq _ _ _ _ _ Hw). cbn [fst snd io _timeout] in *.
  exists (if negb (ec =? 0) then Throw (ExnSystem (error_what ec)) else Ret tt), t'.
  split; [by destruct (negb _)|]. split; [congruence|]. split.
  - destruct (Z.eqb_spec ec 0) as [->|Hne]; simpl; [|right; by eexists].
    left. split; [done|]. rewrite (Hok eq_refl). congruence.
  - intros Hlive. destruct (timer_live t Hlive) as (t1' & Ht' & _ & [Hr1 Hl1] & Hto & Hat).
    rewrite Ht in Ht'. injection Ht' as <-.
    destruct (async_write_responsive bs (io t1) Hr1) as (Hr2 & Hb & Hat2).
    destruct (wait_live (len bs) fuel [] (Make_TCP (_timeout t1) (async_write bs (io t1)))) as (d' & t2 & Hw2 & Hr3 & Hto3).
    + split; [done|]. split; [right; by exists bs|]. eexists. simpl. rewrite Hat2. split; [exact Hat|lia].
    + simpl. lia.
    + rewrite Hw in Hw2. injection Hw2 as -> -> ->. split; [|done]. split; [done|]. rewrite Hto3. exact Hl1.
Qed.

(** So the TCP transport keeps the contract the clients are proved against; a timeout is
    patient when its whole milliseconds are more than the latency. *)
Definition tcp_reliable (fuel : nat) (Hf : (max_rounds < fuel)%nat) :
  ReliableTransport (H := tcp_Transport fuel) (TCP_transport E).
Proof.
  refine {| incoming t := tcp_in (io t); outgoing t := tcp_out (io t); live := tcp_live;
            patient d := latency < _convert d |}.
  - exact latency_small.
  - intros d t [Hr Hl] Hd. eexists. by split.
  - intros bs t Hl. destruct (tcp_write_ends fuel bs t Hf) as (o & t' & Hw & Hi & Hor & Hlive).
    destruct (Hlive Hl) as [Hl' ->]. exists t'. split; [exact Hw|]. split; [done|]. split; [done|].
    by destruct Hor as [[_ Ho]|[what [=]]].
  - intros bs rest t Hl Hin.
    destruct (tcp_read_ends fuel (len bs) t (len_nonneg bs) Hf) as (o & t' & Hr & Ho & Hor & Hlive).
    destruct (Hlive Hl) as [Hl' [d ->]]. { rewrite Hin, len_app. pose proof (len_nonneg rest). lia. }
    destruct Hor as [(d' & [= ->] & Hd & Hi)|[what [=]]]. rewrite Hin in Hi.
    apply app_inj_1 in Hi as [<- Hrest]; [|unfold len in Hd; lia]. exists t'. by split_and!.
Defined.
End responsive.

(** ** Property *)


