(* ===== verification/GenericClient.v ===== *)
(** * The proxy client: [proxy_client.h], [generic_proxy_client.h] and
    [generic_proxy_client.cc]

    Each method writes a request into the client's [message_builder], sends it as a
    frame, reads the answer's frame and checks the status ([call]).  The client is
    generic in the transport; its theorems use only [ReliableTransport].  The two
    methods that do not check the status are modelled as they are. *)

From S2P Require Import Prelude Llio Stuff AlbaCommon Checksum OsdInfo Manifest Sequences ProxyProtocol Transport.

Local Open Scope Z_scope.
Local Open Scope alba_scope.

Record RoraConfig := Make_RoraConfig {
  manifest_cache_size : Z; use_null_io : bool; asd_connection_pool_size : Z;
  asd_partial_read_timeout_milliseconds : Z }.
Definition default_RoraConfig : RoraConfig := Make_RoraConfig 10000 false 5 25.
Definition print_RoraConfig : printer RoraConfig := fun cfg =>
  str "RoraConfig{" ++ str " manifest_cache_size= " ++ dec (manifest_cache_size cfg)
    ++ str ", asd_connection_pool_size= " ++ dec (asd_connection_pool_size cfg) ++ str " }".

Record RoraCounter := Make_RoraCounter { fast_path : Z; slow_path : Z }.
Definition new_RoraCounter : RoraCounter := Make_RoraCounter 0 0.

Section client.
Context {T : Type} `{Transport T}.

Record GenericProxy_client := Make_GenericProxy_client {
  _status : Status; _transport : T; _timeout : Z; _mb : message_builder.t }.

Definition on_transport {A} (m : M T A) : M GenericProxy_client A :=
  zoom _transport (fun t c => Make_GenericProxy_client (_status c) t (_timeout c) (_mb c)) m.
Definition on_mb (w : writer) : M GenericProxy_client unit :=
  zoom _mb (fun mb c => Make_GenericProxy_client (_status c) (_transport c) (_timeout c) mb) w.
Definition set_status (st : Status) : M GenericProxy_client unit :=
  modify (fun c => Make_GenericProxy_client st (_transport c) (_timeout c) (_mb c)).

Definition _expires_from_now (timeout : Z) : M GenericProxy_client unit :=
  on_transport (expires_from_now timeout).
(** An exception from the transport leaves the builder as it is, the request in it. *)
Definition _output : M GenericProxy_client unit :=
  zoom (fun c => (_transport c, _mb c))
    (fun p c => Make_GenericProxy_client (_status c) p.1 (_timeout c) p.2) output ;;
  on_mb message_builder.reset.
Definition _input : M GenericProxy_client message.t := on_transport read_message.

Definition check_status : M GenericProxy_client unit :=
  on_transport (expires_from_now duration_max) ;;
  c ← gets id;
  guard is_ok (_status c)
    orelse ExnProxy (Proxy_exception (_return_code (_status c)) (_what (_status c))).

(** The magic number and the protocol version open the connection. *)
Definition init_ : M GenericProxy_client unit :=
  c ← gets id;
  on_transport (expires_from_now (_timeout c)) ;;
  on_transport (write_exact (le_split 4 1148837403)) ;;
  on_transport (write_exact (le_split 4 1)) ;;
  on_transport (expires_from_now duration_max).
(** [_status] is indeterminate before the first response. *)
Definition make_GenericProxy_client (timeout : Z) (transport : T) :
    outcome unit * GenericProxy_client :=
  init_ (Make_GenericProxy_client (Make_Status 0 []) transport timeout message_builder.make).

(** [_expires_from_now(_timeout); write_...(_mb, ...); _output(); message response =
    _input(); read_...(response, _status, ...)].  When the response cannot be read
    [_status] is left as it was; it is written before it is next looked at. *)
Definition exchange {A} (w : writer) (r : Status -> reader (Status * A)) :
    M GenericProxy_client A :=
  c ← gets id;
  _expires_from_now (_timeout c) ;;
  on_mb w ;;
  _output ;;
  response ← _input;
  c ← gets id;
  sa ← mout (fst (r (_status c) response));
  set_status sa.1 ;;
  mret sa.2.

(** A response without a result. *)
Definition no_result (r : Status -> reader Status) (st : Status) : reader (Status * unit) :=
  st ← r st; mret (st, tt).

(** The exchange followed by [check_status(__PRETTY_FUNCTION__)]; past it the status
    is OK, so that a result that was not read is not looked at. *)
Definition call {A} (w : writer) (r : Status -> reader (Status * option A)) :
    M GenericProxy_client A :=
  a ← exchange w r;
  check_status ;;
  match a with Some a => mret a | None => mout Undef end.
Definition call_unit (w : writer) (r : Status -> reader Status) : M GenericProxy_client unit :=
  exchange w (no_result r) ;;
  check_status.

(** ** The methods *)

Definition namespace_exists (name : bytes) : M GenericProxy_client bool :=
  call (write_namespace_exists_request name) read_namespace_exists_response.
Definition create_namespace (name : bytes) (preset_name : option bytes) :
    M GenericProxy_client unit :=
  call_unit (write_create_namespace_request name preset_name) read_create_namespace_response.
Definition delete_namespace (name : bytes) : M GenericProxy_client unit :=
  call_unit (write_delete_namespace_request name) read_delete_namespace_response.
Definition list_namespaces (first : bytes) (finc : bool) (last : option bytes) (linc : bool)
    (max : Z) (reverse : bool) : M GenericProxy_client (list bytes * bool) :=
  call (write_list_namespaces_request first finc last linc max reverse)
    read_list_namespaces_response.
Definition write_object_fs (namespace_ object_name input_file : bytes) (allow_overwrite : bool)
    (checksum : option Checksum) : M GenericProxy_client unit :=
  call_unit
    (write_write_object_fs_request namespace_ object_name input_file allow_overwrite checksum)
    read_write_object_fs_response.
Definition read_object_fs (namespace_ object_name dest_file : bytes)
    (consistent_read should_cache : bool) : M GenericProxy_client unit :=
  call_unit
    (write_read_object_fs_request namespace_ object_name dest_file consistent_read should_cache)
    read_read_object_fs_response.
Definition delete_object (namespace_ object_name : bytes) (may_not_exist : bool) :
    M GenericProxy_client unit :=
  call_unit (write_delete_object_request namespace_ object_name may_not_exist)
    read_delete_object_response.
Definition list_objects (namespace_ first : bytes) (finc : bool) (last : option bytes)
    (linc : bool) (max : Z) (reverse : bool) : M GenericProxy_client (list bytes * bool) :=
  call (write_list_objects_request namespace_ first finc last linc max reverse)
    read_list_objects_response.
Definition update_session (args : list (bytes * option bytes)) :
    M GenericProxy_client (list (bytes * bytes)) :=
  call (write_update_session_request args) read_update_session_response.
Definition get_object_info (namespace_ object_name : bytes) (consistent_read should_cache : bool) :
    M GenericProxy_client (Z * Checksum) :=
  call (write_get_object_info_request namespace_ object_name consistent_read should_cache)
    read_get_object_info_response.
Definition invalidate_cache (namespace_ : bytes) : M GenericProxy_client unit :=
  call_unit (write_invalidate_cache_request namespace_) read_invalidate_cache_response.
Definition drop_cache (namespace_ : bytes) : M GenericProxy_client unit :=
  call_unit (write_drop_cache_request namespace_) read_drop_cache_response.
Definition get_proxy_version : M GenericProxy_client (Z * Z * Z * bytes) :=
  call write_get_proxy_version_request read_get_proxy_version_response.
Definition ping (delay : Z) : M GenericProxy_client Z :=
  call (write_ping_request delay) read_ping_response.
Definition has_local_fragment_cache : M GenericProxy_client bool :=
  call write_has_local_fragment_cache_request read_has_local_fragment_cache_response.
Definition get_fragment_encryption_key (alba_id : bytes) (namespace_id : namespace_t) :
    M GenericProxy_client (option bytes) :=
  call (write_get_fragment_encryption_key_request alba_id namespace_id)
    read_get_fragment_encryption_key_response.

(** No [check_status]: after an error response [result] is what the caller passed. *)
Definition osd_info (result : osd_map_t) : M GenericProxy_client osd_map_t :=
  r ← exchange write_osd_info_request read_osd_info_response;
  mret (match r with Some m => m ∪ result | None => result end).
Definition osd_info2 (result : osd_maps_t) : M GenericProxy_client osd_maps_t :=
  r ← exchange write_osd_info2_request read_osd_info2_response;
  mret (default result r).

Section with_snappy.
Context `{Snappy}.

Definition write_object_fs2 (namespace_ object_name input_file : bytes) (allow_overwrite : bool)
    (checksum : option Checksum) : M GenericProxy_client ManifestWithNamespaceId :=
  call (write_write_object_fs2_request namespace_ object_name input_file allow_overwrite checksum)
    read_write_object_fs2_response.
Definition apply_sequence_ (namespace_ : bytes) (write_barrier : bool) (asserts : list Assert)
    (updates : list Update) : M GenericProxy_client (list object_info) :=
  call (write_apply_sequence_request namespace_ write_barrier asserts updates)
    read_apply_sequence_response.
Definition apply_sequence (namespace_ : bytes) (write_barrier : bool) (asserts : list Assert)
    (updates : list Update) : M GenericProxy_client unit :=
  object_infos ← apply_sequence_ namespace_ write_barrier asserts updates;
  mret tt.
(** The overload that takes a [Sequence]. *)
Definition apply_Sequence (namespace_ : bytes) (write_barrier : bool) (seq : Sequence.t) :
    M GenericProxy_client unit :=
  apply_sequence namespace_ write_barrier (Sequence._asserts seq) (Sequence._updates seq).

(** Reading slices: the client, the memory of the buffers, and the counter. *)
Abbreviation slices_state := (GenericProxy_client * mem * RoraCounter)%type.
Definition on_client {A} (m : M GenericProxy_client A) : M slices_state A :=
  zoom (fun s => s.1.1) (fun c s => (c, s.1.2, s.2)) m.
Definition on_response {A} (response : message.t) (r : mreader A) : M slices_state A := fun s =>
  let '(o, (_, mm)) := r (response, s.1.2) in (o, (s.1.1, mm, s.2)).
Definition count_slow (n : Z) : M slices_state unit :=
  modify (fun s => (s.1, Make_RoraCounter (fast_path s.2) (u64 (slow_path s.2 + n)))).

Definition read_objects_slices (namespace_ : bytes) (slices : list ObjectSlices)
    (consistent_read : bool) : M slices_state unit :=
  if len slices =? 0 then mret tt else
  c ← on_client (gets id);
  on_client (_expires_from_now (_timeout c)) ;;
  on_client (on_mb (write_read_objects_slices_request namespace_ slices consistent_read)) ;;
  on_client _output ;;
  response ← on_client _input;
  st ← on_response response (read_read_objects_slices_response slices (_status c));
  on_client (set_status st) ;;
  count_slow (len slices) ;;
  on_client check_status.
(** Returns the object infos read. *)
Definition read_objects_slices2 (namespace_ : bytes) (slices : list ObjectSlices)
    (consistent_read : bool) : M slices_state (list object_info) :=
  if len slices =? 0 then mret [] else
  c ← on_client (gets id);
  on_client (_expires_from_now (_timeout c)) ;;
  on_client (on_mb (write_read_objects_slices2_request namespace_ slices consistent_read)) ;;
  on_client _output ;;
  response ← on_client _input;
  r ← on_response response (read_read_objects_slices2_response slices (_status c));
  on_client (set_status r.1) ;;
  count_slow (len slices) ;;
  on_client check_status ;;
  mret r.2.
End with_snappy.
End client.
Arguments GenericProxy_client : clear implicits.

(** Between calls: the timeout is patient, the transport works, the builder holds no
    request. *)
Definition idle {T} `{ReliableTransport T} (c : GenericProxy_client T) : Prop :=
  patient (T := T) (_timeout c) /\ live (_transport c) /\ wf_builder (_mb c) /\ message_builder._pos (_mb c) = 4.
(** [c'] is [c] after a request [req] has been sent and a response taken in. *)
Definition exchanged {T} `{ReliableTransport T} (req rest : bytes)
    (c c' : GenericProxy_client T) : Prop :=
  idle c' /\ _timeout c' = _timeout c /\ incoming (_transport c') = rest /\
  outgoing (_transport c') = outgoing (_transport c) ++ frame req.

(** ** Facts *)

Section facts.
Context `{RT : ReliableTransport T}.
Implicit Types c : GenericProxy_client T.

Lemma zoom_eq {ST U A} (get : ST -> U) (set : U -> ST -> ST) (m : M U A) s o u :
  m (get s) = (o, u) -> zoom get set m s = (o, set u s).
Proof. unfold zoom. by intros ->. Qed.

(** Sending the request and taking in the response's frame. *)
Lemma send_receive_spec w req resp rest c :
  idle c -> appends w req -> len req < 2 ^ 31 - 4 -> len resp < 2 ^ 31 ->
  incoming (_transport c) = frame resp ++ rest ->
  exists c', (_expires_from_now (_timeout c) ;; on_mb w ;; _output ;; _input) c
    = (Ret (message.make (message_buffer.fresh resp (len resp))), c') /\
    exchanged req rest c c' /\ _status c' = _status c.
Proof.
  intros (Hpt & Hl & Hwf & Hp) Hw Hreq Hresp Hin.
  destruct (expires_spec (_timeout c) _ Hl Hpt) as (t1 & He & Hl1 & Hi1 & Ho1).
  unfold _expires_from_now, on_transport.
  rewrite (bind_ret_eq _ _ _ _ _ (zoom_eq _ _ _ _ _ _ He)).
  assert (message_builder._pos (_mb c) + len req < 2 ^ 31) as Hfit by (rewrite Hp; lia).
  destruct (Hw (_mb c) Hwf Hfit) as (b1 & Hb & Hwf1 & Hp1 & Hc1).
  unfold on_mb at 1. erewrite bind_ret_eq; [|by apply zoom_eq].
  assert (contents (_mb c) = []) as Hc0.
  { pose proof (len_contents _ Hwf) as Hlc. rewrite Hp in Hlc.
    destruct (contents (_mb c)); [done|]. rewrite len_cons in Hlc.
    pose proof (len_nonneg l). lia. }
  rewrite Hc0, app_nil_l in Hc1. unfold _output.
  assert (len (contents b1) < 2 ^ 31) as Hs by (rewrite Hc1; lia).
  destruct (output_spec t1 b1 Hl1 Hwf1 Hs) as (t2 & b2 & Hout & Hl2 & Hwf2 & Hi2 & Ho2).
  destruct (reset_spec b2 Hwf2) as (b3 & Hr & Hwf3 & Hp3 & _).
  erewrite bind_ret_eq; cycle 1.
  { erewrite bind_ret_eq; [|by apply zoom_eq]. unfold on_mb. by apply zoom_eq. }
  unfold _input, on_transport.
  destruct (read_message_spec resp rest t2 Hl2 Hresp) as (t3 & Hm & Hl3 & Hi3 & Ho3).
  { cbn [_transport] in *. congruence. }
  eexists. split; [by apply zoom_eq|]. simpl. split; [|done].
  split; [by split_and!|]. split; [done|]. split; [done|]. simpl.
  by rewrite Ho3, Ho2, Hc1, Ho1.
Qed.

Lemma exchange_spec {A} w (r : Status -> reader (Status * A)) req resp rest c st a :
  idle c -> appends w req -> len req < 2 ^ 31 - 4 -> len resp < 2 ^ 31 ->
  incoming (_transport c) = frame resp ++ rest ->
  parses (r (_status c)) resp (st, a) ->
  exists c', exchange w r c = (Ret a, c') /\ exchanged req rest c c' /\ _status c' = st.
Proof.
  intros Hi Hw Hreq Hresp Hin Hr.
  destruct (send_receive_spec w req resp rest c Hi Hw Hreq Hresp Hin) as (c1 & Hsr & Hex & Hst).
  destruct (message_make_spec resp Hresp) as (Hwf & Hrem & _).
  assert (fst (r (_status c1) (message.make (message_buffer.fresh resp (len resp)))) = Ret (st, a))
    as Hread by (rewrite Hst, (Hr _ [] Hwf); [done|by rewrite app_nil_r]).
  eexists. split.
  - unfold exchange. rewrite gets_bind. unfold id at 1.
    revert Hsr. unfold mbind, M_bind, gets, id.
    destruct (_expires_from_now (_timeout c) c) as [[[]| | |] ca]; try done.
    destruct (on_mb w ca) as [[[]| | |] cb]; try done.
    destruct (_output cb) as [[[]| | |] cd]; try done.
    intros ->. unfold mout. rewrite Hread. reflexivity.
  - split; [|done]. destruct Hex as ((H0 & H1 & H2 & H3) & H4 & H5 & H6). by split_and!.
Qed.

Lemma check_status_spec req rest c c1 :
  exchanged req rest c c1 ->
  exists c', check_status c1
    = (if is_ok (_status c1) then Ret tt
       else Throw (ExnProxy (Proxy_exception (_return_code (_status c1)) (_what (_status c1)))), c') /\
    exchanged req rest c c' /\ _status c' = _status c1.
Proof.
  intros ((Hpt & Hl & Hwf & Hp) & Ht & Hi & Ho).
  destruct (expires_spec duration_max _ Hl patient_max) as (t & He & Hl1 & Hi1 & Ho1).
  eexists. split; [|split].
  - unfold check_status, on_transport.
    rewrite (bind_ret_eq _ _ _ _ _ (zoom_eq _ _ _ _ _ _ He)), gets_bind. unfold id; simpl.
    by destruct (is_ok (_status c1)).
  - split; [by split_and!|]. simpl. split_and!; congruence.
  - done.
Qed.

(** What the two kinds of calls do with a successful and with an error response. *)
Lemma call_ok {A} w (r : reader A) req resp rest c a :
  idle c -> appends w req -> len req < 2 ^ 31 - 4 ->
  len (enc_status 0 [] ++ resp) < 2 ^ 31 ->
  incoming (_transport c) = frame (enc_status 0 [] ++ resp) ++ rest -> parses r resp a ->
  exists c', call w (fun st => respond st r) c = (Ret a, c') /\ exchanged req rest c c'.
Proof.
  intros Hi Hw Hreq Hresp Hin Hr.
  destruct (exchange_spec w (fun st => respond st r) req _ rest c _ _ Hi Hw Hreq Hresp Hin
    (respond_ok _ r resp a Hr)) as (c1 & He & Hex & Hst).
  destruct (check_status_spec req rest c c1 Hex) as (c2 & Hc & Hex2 & _).
  exists c2. split; [|done]. unfold call. rewrite (bind_ret_eq _ _ _ _ _ He).
  rewrite Hst in Hc. by rewrite (bind_ret_eq _ _ _ _ _ Hc).
Qed.

Lemma call_error {A} w (r : reader A) req rc what rest c :
  idle c -> appends w req -> len req < 2 ^ 31 - 4 ->
  len (enc_status rc what) < 2 ^ 31 -> valid_int 32 rc -> rc <> 0 ->
  incoming (_transport c) = frame (enc_status rc what) ++ rest ->
  exists c', call w (fun st => respond st r) c
    = (Throw (ExnProxy (Proxy_exception rc what)), c') /\ exchanged req rest c c'.
Proof.
  intros Hi Hw Hreq Hresp Hrc Hne Hin.
  destruct (exchange_spec w (fun st => respond st r) req _ rest c _ _ Hi Hw Hreq Hresp Hin
    (respond_error _ r rc what Hrc Hne)) as (c1 & He & Hex & Hst).
  destruct (check_status_spec req rest c c1 Hex) as (c2 & Hc & Hex2 & _).
  exists c2. split; [|done]. unfold call. rewrite (bind_ret_eq _ _ _ _ _ He).
  rewrite Hst in Hc. unfold is_ok, return_code.OK in Hc; simpl in Hc.
  rewrite (proj2 (Z.eqb_neq rc 0) Hne) in Hc. by rewrite (bind_throw_eq _ _ _ _ _ Hc).
Qed.

Lemma call_unit_spec w req rc what rest c :
  idle c -> appends w req -> len req < 2 ^ 31 - 4 ->
  len (enc_status rc what) < 2 ^ 31 -> valid_int 32 rc ->
  incoming (_transport c) = frame (enc_status rc what) ++ rest ->
  exists c', call_unit w read_status c
    = (if rc =? 0 then Ret tt else Throw (ExnProxy (Proxy_exception rc what)), c') /\
    exchanged req rest c c'.
Proof.
  intros Hi Hw Hreq Hresp Hrc Hin.
  assert (parses (no_result read_status (_status c)) (enc_status rc what)
    (Make_Status rc (if rc =? 0 then _what (_status c) else what), tt)) as Hr.
  { by apply (parses_bind_ret _ (fun st => (st, tt))), read_status_parses. }
  destruct (exchange_spec w (no_result read_status) req _ rest c _ _ Hi Hw Hreq Hresp Hin Hr)
    as (c1 & He & Hex & Hst).
  destruct (check_status_spec req rest c c1 Hex) as (c2 & Hc & Hex2 & _).
  exists c2. split; [|done]. unfold call_unit. rewrite (bind_ret_eq _ _ _ _ _ He), Hc, Hst.
  unfold is_ok, return_code.OK; simpl. by destruct (rc =? 0).
Qed.
End facts.

Lemma make_client_idle timeout (t : script) :
  idle (Make_GenericProxy_client (Make_Status 0 []) t timeout message_builder.make).
Proof. split; [exact I|]. split; [exact I|]. split; [apply wf_make|done]. Qed.

(** ** Properties *)

(** [osd_info] and [osd_info2] do not look at the status: an error response is
    reported to nobody, and the caller's map stays as it was. *)
Theorem osd_info_swallows_errors `{RT : ReliableTransport T} (c : GenericProxy_client T)
    rc what rest m ms :
  idle c -> len (enc_status rc what) < 2 ^ 31 -> valid_int 32 rc -> rc <> 0 ->
  incoming (_transport c) = frame (enc_status rc what) ++ rest ->
  fst (osd_info m c) = Ret m /\ fst (osd_info2 ms c) = Ret ms.
Proof.
  intros Hi Her Hrc Hne Hin. split.
  - destruct (exchange_spec write_osd_info_request read_osd_info_response
      (enc_request ReqOsdInfo) _ rest c _ None Hi (write_request_appends ReqOsdInfo I)
      ltac:(reflexivity) Her Hin (respond_error _ _ rc what Hrc Hne)) as (c' & He & _).
    unfold osd_info. by rewrite (bind_ret_eq _ _ _ _ _ He).
  - destruct (exchange_spec write_osd_info2_request read_osd_info2_response
      (enc_request ReqOsdInfo2) _ rest c _ None Hi (write_request_appends ReqOsdInfo2 I)
      ltac:(reflexivity) Her Hin (respond_error _ _ rc what Hrc Hne)) as (c' & He & _).
    unfold osd_info2. by rewrite (bind_ret_eq _ _ _ _ _ He).
Qed.

Lemma osd_info_swallows_errors_witness :
  let c := Make_GenericProxy_client (Make_Status 0 [])
    (Script (frame (enc_status 1 (str "no"))) []) 1000 message_builder.make in
  fst (osd_info2 [] c) = Ret [].
Proof.
  intros c. refine (proj2 (osd_info_swallows_errors c 1 (str "no") [] ∅ [] _ _ _ _ _)).
  - apply make_client_idle.
  - reflexivity.
  - split; vm_compute; congruence.
  - discriminate.
  - symmetry. apply app_nil_r.
Defined.
