(* ===== verification/ProxyCalls.v ===== *)
(** * Every call of the proxy client

    The methods of [GenericProxy_client] ([GenericClient]) as data: what a method sends,
    what the proxy's answer to it looks like on the wire, and what the method makes of
    it.  One theorem, [method_call], is about all of them.  The two methods that read
    slices into memory are in [SlowPath]. *)

From S2P Require Import Prelude Llio Stuff AlbaCommon Checksum OsdInfo Manifest Sequences ProxyProtocol.
From S2P Require Import Transport TcpTransport GenericClient.

Local Open Scope Z_scope.
Local Open Scope alba_scope.

Inductive method : Type -> Type :=
  | MNamespaceExists (name : bytes) : method bool
  | MCreateNamespace (name : bytes) (preset_name : option bytes) : method unit
  | MDeleteNamespace (name : bytes) : method unit
  | MListNamespaces (first : bytes) (finc : bool) (last : option bytes) (linc : bool) (max : Z)
      (reverse : bool) : method (list bytes * bool)
  | MWriteObjectFs (namespace_ object_name input_file : bytes) (allow_overwrite : bool)
      (checksum : option Checksum) : method unit
  | MWriteObjectFs2 (namespace_ object_name input_file : bytes) (allow_overwrite : bool)
      (checksum : option Checksum) : method ManifestWithNamespaceId
  | MReadObjectFs (namespace_ object_name dest_file : bytes) (consistent_read should_cache : bool) :
      method unit
  | MDeleteObject (namespace_ object_name : bytes) (may_not_exist : bool) : method unit
  | MListObjects (namespace_ first : bytes) (finc : bool) (last : option bytes) (linc : bool)
      (max : Z) (reverse : bool) : method (list bytes * bool)
  | MGetObjectInfo (namespace_ object_name : bytes) (consistent_read should_cache : bool) :
      method (Z * Checksum)
  | MApplySequence (namespace_ : bytes) (write_barrier : bool) (asserts : list Assert)
      (updates : list Update) : method (list object_info)
  | MUpdateSession (args : list (bytes * option bytes)) : method (list (bytes * bytes))
  | MInvalidateCache (namespace_ : bytes) : method unit
  | MDropCache (namespace_ : bytes) : method unit
  | MGetProxyVersion : method (Z * Z * Z * bytes)
  | MPing (delay : Z) : method Z
  | MOsdInfo (result : osd_map_t) : method osd_map_t
  | MOsdInfo2 (result : osd_maps_t) : method osd_maps_t
  | MHasLocalFragmentCache : method bool
  | MGetFragmentEncryptionKey (alba_id : bytes) (namespace_id : namespace_t) : method (option bytes).

Definition request_of {A} (m : method A) : request :=
  match m with
  | MNamespaceExists n => NamespaceExists n
  | MCreateNamespace n p => CreateNamespace n p
  | MDeleteNamespace n => DeleteNamespace n
  | MListNamespaces f fi l li mx rv => ListNamespaces f fi l li mx rv
  | MWriteObjectFs ns n i ao cs => WriteObjectFs ns n i ao cs
  | MWriteObjectFs2 ns n i ao cs => WriteObjectFs2 ns n i ao cs
  | MReadObjectFs ns n d cr sc => ReadObjectFs ns n d cr sc
  | MDeleteObject ns n mne => DeleteObject ns n mne
  | MListObjects ns f fi l li mx rv => ListObjects ns f fi l li mx rv
  | MGetObjectInfo ns n cr sc => GetObjectInfo ns n cr sc
  | MApplySequence ns wb a u => ApplySequence ns wb a u
  | MUpdateSession args => UpdateSession args
  | MInvalidateCache ns => InvalidateCache ns
  | MDropCache ns => DropCache ns
  | MGetProxyVersion => GetProxyVersion
  | MPing d => Ping d
  | MOsdInfo _ => ReqOsdInfo
  | MOsdInfo2 _ => ReqOsdInfo2
  | MHasLocalFragmentCache => HasLocalFragmentCache
  | MGetFragmentEncryptionKey a ns => GetFragmentEncryptionKey a ns
  end.

Section methods.
Context {T : Type} `{Transport T} `{Snappy}.

Definition run_method {A} (m : method A) : M (GenericProxy_client T) A :=
  match m with
  | MNamespaceExists n => namespace_exists n
  | MCreateNamespace n p => create_namespace n p
  | MDeleteNamespace n => delete_namespace n
  | MListNamespaces f fi l li mx rv => list_namespaces f fi l li mx rv
  | MWriteObjectFs ns n i ao cs => write_object_fs ns n i ao cs
  | MWriteObjectFs2 ns n i ao cs => write_object_fs2 ns n i ao cs
  | MReadObjectFs ns n d cr sc => read_object_fs ns n d cr sc
  | MDeleteObject ns n mne => delete_object ns n mne
  | MListObjects ns f fi l li mx rv => list_objects ns f fi l li mx rv
  | MGetObjectInfo ns n cr sc => get_object_info ns n cr sc
  | MApplySequence ns wb a u => apply_sequence_ ns wb a u
  | MUpdateSession args => update_session args
  | MInvalidateCache ns => invalidate_cache ns
  | MDropCache ns => drop_cache ns
  | MGetProxyVersion => get_proxy_version
  | MPing d => ping d
  | MOsdInfo r => osd_info r
  | MOsdInfo2 r => osd_info2 r
  | MHasLocalFragmentCache => has_local_fragment_cache
  | MGetFragmentEncryptionKey a ns => get_fragment_encryption_key a ns
  end.

(** Lists of names with the flag that there are more. *)
Definition names_answer (bs : bytes) (r : list bytes * bool) : Prop :=
  bs = enc_vector enc_string r.1 ++ enc_bool r.2 /\ len r.1 < 2 ^ 31.
Definition nothing (bs : bytes) (_ : unit) : Prop := bs = [].
(** What follows the status of a successful answer, and the result it stands for. *)
Definition answers {A} (m : method A) : bytes -> A -> Prop :=
  match m in method A return bytes -> A -> Prop with
  | MNamespaceExists _ | MHasLocalFragmentCache => fun bs b => bs = enc_bool b
  | MCreateNamespace _ _ | MDeleteNamespace _ | MWriteObjectFs _ _ _ _ _ | MReadObjectFs _ _ _ _ _
  | MDeleteObject _ _ _ | MInvalidateCache _ | MDropCache _ => nothing
  | MListNamespaces _ _ _ _ _ _ | MListObjects _ _ _ _ _ _ _ => names_answer
  | MWriteObjectFs2 _ _ _ _ _ => fun bs mf =>
      exists wm extra c ns, bs = enc_Manifest (wire_version wm) c ++ enc_x_uint64 ns /\
        mf = Make_ManifestWithNamespaceId (read_Manifest wm) ns /\ valid_Manifest wm /\
        len (enc_body wm ++ extra) < 2 ^ 31 /\ valid_int 64 ns /\ snappy_Uncompress c = enc_body wm ++ extra
  | MGetObjectInfo _ _ _ _ => fun bs r =>
      bs = enc_int 8 r.1 ++ enc_checksum r.2 /\ valid_int 64 r.1 /\ valid_checksum r.2
  | MApplySequence _ _ _ _ => fun bs infos =>
      exists wis, bs = enc_infos wis /\ infos = omap read_info wis /\ Forall valid_info wis /\ len wis < 2 ^ 31
  | MUpdateSession _ => fun bs kvs =>
      bs = enc_vector (enc_pair enc_string enc_string) kvs /\ len kvs < 2 ^ 31
  | MGetProxyVersion => fun bs '(major, minor, patch, hash) =>
      bs = enc_int 4 major ++ enc_int 4 minor ++ enc_int 4 patch ++ enc_string hash /\
      valid_s32 major /\ valid_s32 minor /\ valid_s32 patch
  | MPing _ => fun bs t => bs = enc_int 8 t /\ valid_int 64 t
  | MOsdInfo result => fun bs r =>
      exists os, bs = enc_osds os /\ r = read_osds os ∪ result /\ Forall valid_osd os /\ len os < 2 ^ 32
  | MOsdInfo2 _ => fun bs r =>
      exists levels : list (bytes * list wire_osd),
        bs = enc_vector (enc_pair enc_string enc_osds) levels /\
        r = (fun l => (l.1, read_osds l.2)) <$> levels /\
        Forall (fun l => Forall valid_osd l.2 /\ len l.2 < 2 ^ 32) levels /\ len levels < 2 ^ 31
  | MGetFragmentEncryptionKey _ _ => fun bs k => bs = enc_optional enc_string k
  end.

(** What an error answer comes to: the two methods that do not check the status return
    what they were given. *)
Definition on_error {A} (m : method A) (rc : Z) (what : bytes) : outcome A :=
  match m in method A return outcome A with
  | MOsdInfo result => Ret result
  | MOsdInfo2 result => Ret result
  | _ => Throw (ExnProxy (Proxy_exception rc what))
  end.
End methods.

(** ** Facts *)

Section facts.
Context `{RT : ReliableTransport T} `{Snappy}.
Implicit Types c : GenericProxy_client T.

Lemma names_parse bs r : names_answer bs r ->
  parses (namespaces ← from_vector [] from_string; has_more ← from_bool; mret (namespaces, has_more)) bs r.
Proof.
  destruct r as [names more]. intros [-> Hl]. eapply parses_bind.
  - apply (from_vector_decodes [] from_string enc_string valid_any _). split; [by apply Forall_forall|done].
  - by apply parses_bind_ret, from_bool_decodes.
Qed.

Lemma osd_maps_parse (levels : list (bytes * list wire_osd)) :
  Forall (fun l => Forall valid_osd l.2 /\ len l.2 < 2 ^ 32) levels -> len levels < 2 ^ 31 ->
  parses (n ← from_u32;
    for_down (down_from n)
      (fun i result => alba_id ← from_string; infos ← _read_osd_infos ∅; mret (<[i := (alba_id, infos)]> result))
      (replicate (Z.to_nat n) ([], ∅)))
    (enc_vector (enc_pair enc_string enc_osds) levels) ((fun l => (l.1, read_osds l.2)) <$> levels).
Proof.
  intros Hv Hl. apply (fill_vector_parses _ (fun l => (l.1, read_osds l.2))); [|done].
  intros i acc [al os] Hin. rewrite Forall_forall in Hv. destruct (Hv _ Hin) as [Hos Hlen].
  unfold enc_pair. cbn [fst snd]. eapply parses_bind; [by apply from_string_decodes|].
  apply (parses_bind_ret _ (fun infos => <[i := (al, infos)]> acc)). by apply read_osd_infos_parses.
Qed.

Lemma manifest_parse wm extra k ns : valid_Manifest wm -> len (enc_body wm ++ extra) < 2 ^ 31 ->
  valid_int 64 ns -> snappy_Uncompress k = enc_body wm ++ extra ->
  parses from_ManifestWithNamespaceId (enc_Manifest (wire_version wm) k ++ enc_x_uint64 ns)
    (Make_ManifestWithNamespaceId (read_Manifest wm) ns).
Proof.
  intros Hv Hl Hns Hk msg rest Hwf E.
  assert (wire_version wm = 1 \/ wire_version wm = 2) as Hver by (destruct wm; auto).
  pose proof (from2_ManifestWithNamespaceId_spec msg false _ k ns rest Hver Hns Hwf E) as Hm.
  rewrite Hk, body_result_spec in Hm by done. unfold from_ManifestWithNamespaceId. by rewrite Hm.
Qed.

Lemma run_ok {A} (m : method A) c body a rest :
  idle c -> valid_request (request_of m) -> len (enc_request (request_of m)) < 2 ^ 31 - 4 ->
  answers m body a -> len (enc_status 0 [] ++ body) < 2 ^ 31 ->
  incoming (_transport c) = frame (enc_status 0 [] ++ body) ++ rest ->
  exists c', run_method m c = (Ret a, c') /\ exchanged (enc_request (request_of m)) rest c c'.
Proof.
  intros Hi Hv Hreq Ha Hl Hin.
  pose proof (write_request_appends (request_of m) Hv) as Hw.
  assert (forall B (r : reader B) (b : B), parses r body b ->
    exists c', call (write_request (request_of m)) (fun st => respond st r) c = (Ret b, c') /\
      exchanged (enc_request (request_of m)) rest c c') as Hcall.
  { intros B r b Hr. by apply (call_ok _ r _ body). }
  assert (forall B (r : reader B) (b : B) (k : option B -> M (GenericProxy_client T) A) x, parses r body b ->
    (forall c', k (Some b) c' = (Ret x, c')) ->
    exists c', (exchange (write_request (request_of m)) (fun st => respond st r) ≫= k) c = (Ret x, c') /\
      exchanged (enc_request (request_of m)) rest c c') as Hex.
  { intros B r b k x Hr Hk. destruct (exchange_spec _ (fun st => respond st r) _ _ rest c _ _ Hi Hw Hreq Hl Hin
      (respond_ok _ r body b Hr)) as (c' & He & Hx & _). exists c'. by rewrite (bind_ret_eq _ _ _ _ _ He), Hk. }
  assert (A = unit -> body = [] -> exists c', call_unit (write_request (request_of m)) read_status c = (Ret tt, c') /\
      exchanged (enc_request (request_of m)) rest c c') as Hunit.
  { intros _ ->. rewrite app_nil_r in *.
    by apply (call_unit_spec _ _ 0 [] rest c Hi Hw Hreq Hl ltac:(by vm_compute)). }
  destruct m; cbn [answers] in Ha; cbn [run_method];
    try (destruct a; by apply Hunit); try (apply Hcall; subst body; by apply from_bool_decodes);
    try (by apply Hcall, names_parse).
  - destruct Ha as (wm & extra & k & ns & -> & -> & ? & ? & ? & ?). by apply Hcall, (manifest_parse wm extra).
  - destruct a as [n cs], Ha as (-> & Hn & Hcs). apply Hcall.
    eapply parses_bind; [by apply from_u64_decodes|]. by apply (parses_bind_ret _ (pair n)), from_checksum_decodes.
  - destruct Ha as (wis & -> & -> & Hw' & Hl'). by apply Hcall, read_object_infos_parses.
  - destruct Ha as [-> Hl']. apply Hcall.
    apply (from_vector_decodes _ _ _ (valid_pair valid_any valid_any)
      (from_pair_decodes _ _ _ _ _ _ from_string_decodes from_string_decodes)).
    split; [|done]. apply Forall_true. by intros [].
  - destruct a as [[[ma mi] pa] hash], Ha as (-> & ? & ? & ?). apply Hcall.
    do 3 (eapply parses_bind; [by apply from_i32_decodes|]).
    by apply (parses_bind_ret _ (fun h => (ma, mi, pa, h))), from_string_decodes.
  - destruct Ha as [-> Ht]. by apply Hcall, from_double_decodes.
  - destruct Ha as (os & -> & -> & Ho & Hlo). by apply (Hex _ (_read_osd_infos ∅) (read_osds os)); [by apply read_osd_infos_parses|].
  - destruct Ha as (ls & -> & -> & Ho & Hlo). eapply Hex; [by apply osd_maps_parse|done].
  - subst body. apply Hcall. by apply (from_optional_decodes _ _ _ from_string_decodes); destruct a.
Qed.

Lemma run_error {A} (m : method A) c rc what rest :
  idle c -> valid_request (request_of m) -> len (enc_request (request_of m)) < 2 ^ 31 - 4 ->
  len (enc_status rc what) < 2 ^ 31 -> valid_int 32 rc -> rc <> 0 ->
  incoming (_transport c) = frame (enc_status rc what) ++ rest ->
  exists c', run_method m c = (on_error m rc what, c') /\ exchanged (enc_request (request_of m)) rest c c'.
Proof.
  intros Hi Hv Hreq Hl Hrc Hne Hin. pose proof (write_request_appends (request_of m) Hv) as Hw.
  assert (forall B (r : reader B), exists c', call (write_request (request_of m)) (fun st => respond st r) c
      = (Throw (ExnProxy (Proxy_exception rc what)), c') /\ exchanged (enc_request (request_of m)) rest c c') as Hcall.
  { intros B r. by apply (call_error _ r). }
  assert (forall B (r : reader B) (k : option B -> M (GenericProxy_client T) A) x, (forall c', k None c' = (Ret x, c')) ->
    exists c', (exchange (write_request (request_of m)) (fun st => respond st r) ≫= k) c = (Ret x, c') /\
      exchanged (enc_request (request_of m)) rest c c') as Hex.
  { intros B r k x Hk. destruct (exchange_spec _ (fun st => respond st r) _ _ rest c _ _ Hi Hw Hreq Hl Hin
      (respond_error _ r rc what Hrc Hne)) as (c' & He & Hx & _). exists c'. by rewrite (bind_ret_eq _ _ _ _ _ He), Hk. }
  assert (exists c', call_unit (write_request (request_of m)) read_status c
      = (Throw (ExnProxy (Proxy_exception rc what)), c') /\ exchanged (enc_request (request_of m)) rest c c') as Hunit.
  { destruct (call_unit_spec _ _ rc what rest c Hi Hw Hreq Hl Hrc Hin) as (c' & Hc & Hx). exists c'.
    by rewrite (proj2 (Z.eqb_neq rc 0) Hne) in Hc. }
  destruct m; cbn [run_method on_error]; try exact Hunit; try apply Hcall; by apply Hex.
Qed.
End facts.

(** ** Property *)

(** C26: The life of a call, for every method of the proxy client but the two that read
    slices, over any working transport.  The request's frame goes out and nothing else,
    the answer's frame is taken in and nothing beyond it, and the client is ready for
    the next call.  A successful answer's result is returned; an error answer raises
    [proxy_exception] with the server's code and message, except that [osd_info] and
    [osd_info2] return what they were given. *)
Theorem method_call `{RT : ReliableTransport T} `{Snappy} {A} (m : method A)
    (c : GenericProxy_client T) body a rc what rest :
  let req := enc_request (request_of m) in
  idle c -> valid_request (request_of m) -> len req < 2 ^ 31 - 4 ->
  (answers m body a -> len (enc_status 0 [] ++ body) < 2 ^ 31 ->
   incoming (_transport c) = frame (enc_status 0 [] ++ body) ++ rest ->
   exists c', run_method m c = (Ret a, c') /\ exchanged req rest c c') /\
  (valid_int 32 rc -> rc <> 0 -> len (enc_status rc what) < 2 ^ 31 ->
   incoming (_transport c) = frame (enc_status rc what) ++ rest ->
   exists c', run_method m c = (on_error m rc what, c') /\ exchanged req rest c c').
Proof.
  intros req Hi Hv Hreq. split; intros; [by apply (run_ok m c body)|by apply run_error].
Qed.

(** Three calls on one TCP connection: a list of namespaces, an error, the OSDs. *)
Lemma method_call_witness :
  let names := enc_vector enc_string [str "ns1"; str "ns2"] ++ enc_bool false in
  let m1 := MListNamespaces [] true None true (-1) false in
  let m2 := MDeleteObject (str "ns1") (str "object") false in
  let m3 := MOsdInfo2 [] in
  let osds := enc_vector (enc_pair enc_string enc_osds) [(str "alba", [])] in
  let c := Make_GenericProxy_client (Make_Status 0 [])
    (Make_TCP 5 (Toy_io None
       (frame (enc_status 0 [] ++ names) ++ frame (enc_status 9 (str "no")) ++ frame (enc_status 0 [] ++ osds))
       [] None None 0))
    (5 * 10 ^ 6) message_builder.make in
  let sent m := frame (enc_request m) in
  exists c1 c2 c3, run_method (H := tcp_Transport 2) (H0 := fun bs => bs) m1 c = (Ret ([str "ns1"; str "ns2"], false), c1) /\
    run_method (H := tcp_Transport 2) (H0 := fun bs => bs) m2 c1 = (Throw (ExnProxy (Proxy_exception 9 (str "no"))), c2) /\
    run_method (H := tcp_Transport 2) (H0 := fun bs => bs) m3 c2 = (Ret [(str "alba", ∅)], c3) /\
    tcp_out (io (_transport c3)) = sent (request_of m1) ++ sent (request_of m2) ++ sent (request_of m3).
Proof.
  intros names m1 m2 m3 osds c sent.
  pose (RT := tcp_reliable (E := toy_io) 2 (Nat.lt_succ_diag_r 1)).
  assert (idle (H0 := RT) c) as Hi.
  { split; [reflexivity|]. split; [split; [by left|reflexivity]|]. split; [exact wf_make|reflexivity]. }
  destruct (proj1 (method_call (RT := RT) (H0 := fun bs => bs) m1 c names ([str "ns1"; str "ns2"], false) 1 []
    (frame (enc_status 9 (str "no")) ++ frame (enc_status 0 [] ++ osds))
    Hi I ltac:(reflexivity))) as (c1 & H1 & Hi1 & _ & Hin1 & Ho1).
  { by split. } { reflexivity. } { reflexivity. }
  destruct (proj2 (method_call (RT := RT) (H0 := fun bs => bs) m2 c1 [] tt 9 (str "no") (frame (enc_status 0 [] ++ osds))
    Hi1 I ltac:(reflexivity))) as (c2 & H2 & Hi2 & _ & Hin2 & Ho2).
  { split; vm_compute; congruence. } { discriminate. } { reflexivity. } { exact Hin1. }
  destruct (proj1 (method_call (RT := RT) (H0 := fun bs => bs) m3 c2 osds [(str "alba", ∅)] 1 [] [] Hi2 I ltac:(reflexivity)))
    as (c3 & H3 & _ & _ & _ & Ho3).
  { exists [(str "alba", [])]. repeat split. repeat constructor. } { reflexivity. } { rewrite app_nil_r. exact Hin2. }
  exists c1, c2, c3. split; [exact H1|]. split; [exact H2|]. split; [exact H3|].
  change (@outgoing _ _ RT (_transport c3) = sent (request_of m1) ++ sent (request_of m2) ++ sent (request_of m3)).
  rewrite Ho3, Ho2, Ho1. reflexivity.
Defined.
