(* ===== verification/AsdClient.v ===== *)
(** * The ASD client: [asd_client.h] and [asd_client.cc]

    One connection to an ASD: the prologue handshake and the three requests.
    Slices are read from the connection straight into the caller's memory.  Like
    the proxy client it is generic in the transport. *)

From S2P Require Import Prelude Llio AlbaCommon Transport AsdProtocol ProxyProtocol.

Local Open Scope Z_scope.
Local Open Scope alba_scope.

Section client.
Context {T : Type} `{Transport T}.

Record Asd_client := Make_Asd_client {
  _status : AsdStatus; _transport : T; _timeout : Z; _mb : message_builder.t }.

Definition on_transport {A} (m : M T A) : M Asd_client A :=
  zoom _transport (fun t c => Make_Asd_client (_status c) t (_timeout c) (_mb c)) m.
Definition on_mb (w : writer) : M Asd_client unit :=
  zoom _mb (fun mb c => Make_Asd_client (_status c) (_transport c) (_timeout c) mb) w.
Definition set_status (st : AsdStatus) : M Asd_client unit :=
  modify (fun c => Make_Asd_client st (_transport c) (_timeout c) (_mb c)).

(** [function_name] is the method's name ([__PRETTY_FUNCTION__] adds its signature). *)
Definition check_status (function_name : bytes) : M Asd_client unit :=
  c ← gets id;
  guard asd_is_ok (_status c)
    orelse ExnAsd (Asd_exception (asd_rc (_status c)) function_name).

(** [read_exact] of four bytes into a [uint32_t]: using bytes that did not arrive
    is undefined. *)
Definition read_u32 : M Asd_client Z :=
  bs ← on_transport (read_exact 4);
  (if len bs =? 4 then mret tt else mout Undef) ;;
  mret (le_combine bs).

(** The prologue is written without the size the builder reserves room for. *)
Definition prologue (long_id : option bytes) : outcome bytes := built (make_prologue long_id).
Definition init_ (long_id : option bytes) : M Asd_client unit :=
  c ← gets id;
  on_transport (expires_from_now (_timeout c)) ;;
  p ← mout (prologue long_id);
  on_transport (write_exact p) ;;
  rc ← read_u32;
  (guard rc =? 0 orelse ExnAsd (Asd_exception rc (str "error during asd prologue"))) ;;
  length ← read_u32;
  buf ← on_transport (read_exact (s32 length));
  let long_id2 := buf ++ replicate (Z.to_nat (length - len buf)) Byte.x00 in
  (guard match long_id with Some l => bool_decide (l = long_id2) | None => true end
     orelse ExnAsd (Asd_exception 0xff (str "wrong asd on the other side"))) ;;
  on_transport (expires_from_now duration_max).
Definition make_Asd_client (timeout : Z) (transport : T) (long_id : option bytes) :
    outcome unit * Asd_client :=
  init_ long_id (Make_Asd_client (Make_AsdStatus 0) transport timeout message_builder.make).

(** Sending a request and taking in the response's frame. *)
Definition send_receive (w : writer) : M Asd_client message.t :=
  c ← gets id;
  on_transport (expires_from_now (_timeout c)) ;;
  on_mb w ;;
  zoom (fun c => (_transport c, _mb c))
    (fun p c => Make_Asd_client (_status c) p.1 (_timeout c) p.2) output ;;
  on_mb message_builder.reset ;;
  on_transport read_message.

(** The client and the memory its slices point into. *)
Abbreviation asd_state := (Asd_client * mem)%type.
Definition on_client {A} (m : M Asd_client A) : M asd_state A :=
  zoom fst (fun c s => (c, s.2)) m.
Definition read_slice (s : slice) : M asd_state unit :=
  bs ← on_client (on_transport (read_exact (s32 (slice_length s))));
  modify (fun st => (st.1, mem_write (target s) bs st.2)).

(** [success] is read and not looked at. *)
Definition partial_get (key : bytes) (slices : list slice) : M asd_state unit :=
  response ← on_client (send_receive (write_partial_get_request key slices));
  r ← mout (fst (read_partial_get_response false response));
  on_client (set_status r.1) ;;
  on_client (check_status (str "partial_get")) ;;
  for_each read_slice slices ;;
  on_client (on_transport (expires_from_now duration_max)).

Definition set_slowness (slowness : slowness_t) : M Asd_client unit :=
  response ← send_receive (write_set_slowness_request slowness);
  st ← mout (fst (read_set_slowness_response response));
  set_status st ;;
  check_status (str "set_slowness") ;;
  on_transport (expires_from_now duration_max).

Definition get_version : M Asd_client (Z * Z * Z * bytes) :=
  response ← send_receive write_get_version_request;
  r ← mout (fst (read_get_version_response response));
  set_status r.1 ;;
  check_status (str "get_version") ;;
  on_transport (expires_from_now duration_max) ;;
  match r.2 with Some v => mret v | None => mout Undef end.
End client.
Arguments Asd_client : clear implicits.

(** Between calls. *)
Definition asd_idle {T} `{ReliableTransport T} (c : Asd_client T) : Prop :=
  patient (T := T) (_timeout c) /\ live (_transport c) /\ wf_builder (_mb c) /\ message_builder._pos (_mb c) = 4.

(** The slices' data written one after the other. *)
Definition write_targets (slices : list slice) (datas : list bytes) (mm : mem) : mem :=
  foldl (fun mm p => mem_write (target p.1) p.2 mm) mm (zip slices datas).

(** ** Facts *)

Section facts.
Context `{RT : ReliableTransport T}.
Implicit Types c : Asd_client T.

Lemma zoom_ret {ST U A} (get : ST -> U) (set : U -> ST -> ST) (m : M U A) s o u :
  m (get s) = (o, u) -> zoom get set m s = (o, set u s).
Proof. unfold zoom. by intros ->. Qed.

Lemma asd_send_receive_spec w req resp rest c :
  asd_idle c -> appends w req -> len req < 2 ^ 31 - 4 -> len resp < 2 ^ 31 ->
  incoming (_transport c) = frame resp ++ rest ->
  exists c', send_receive w c = (Ret (message.make (message_buffer.fresh resp (len resp))), c') /\
    asd_idle c' /\ incoming (_transport c') = rest /\
    outgoing (_transport c') = outgoing (_transport c) ++ frame req.
Proof.
  intros (Hpt & Hl & Hwf & Hp) Hw Hreq Hresp Hin. unfold send_receive. rewrite gets_bind. unfold id.
  destruct (expires_spec (_timeout c) _ Hl Hpt) as (t1 & He & Hl1 & Hi1 & Ho1). unfold on_transport.
  rewrite (bind_ret_eq _ _ _ _ _ (zoom_ret _ _ _ _ _ _ He)).
  assert (message_builder._pos (_mb c) + len req < 2 ^ 31) as Hfit by (rewrite Hp; lia).
  destruct (Hw (_mb c) Hwf Hfit) as (b1 & Hb & Hwf1 & Hp1 & Hc1).
  unfold on_mb at 1. erewrite bind_ret_eq; [|by apply zoom_ret].
  assert (contents (_mb c) = []) as Hc0.
  { pose proof (len_contents _ Hwf) as Hlc. rewrite Hp in Hlc.
    destruct (contents (_mb c)) as [|b l]; [done|]. rewrite len_cons in Hlc.
    pose proof (len_nonneg l). lia. }
  rewrite Hc0, app_nil_l in Hc1.
  assert (len (contents b1) < 2 ^ 31) as Hs by (rewrite Hc1; lia).
  destruct (output_spec t1 b1 Hl1 Hwf1 Hs) as (t2 & b2 & Hout & Hl2 & Hwf2 & Hi2 & Ho2).
  destruct (reset_spec b2 Hwf2) as (b3 & Hr & Hwf3 & Hp3 & _).
  erewrite bind_ret_eq; [|by apply zoom_ret].
  unfold on_mb. erewrite bind_ret_eq; [|by apply zoom_ret].
  destruct (read_message_spec resp rest t2 Hl2 Hresp) as (t3 & Hm & Hl3 & Hi3 & Ho3).
  { congruence. }
  eexists. split; [by apply zoom_ret|]. simpl. split; [by split_and!|]. split; [done|].
  by rewrite Ho3, Ho2, Hc1, Ho1.
Qed.

Lemma read_slices_spec slices datas rest c (mm : mem) :
  live (_transport c) -> Forall valid_slice slices ->
  Forall2 (fun s d => len d = slice_length s /\ len d < 2 ^ 31) slices datas ->
  incoming (_transport c) = concat datas ++ rest ->
  exists c', for_each read_slice slices (c, mm)
    = (Ret tt, (c', write_targets slices datas mm)) /\
    live (_transport c') /\ incoming (_transport c') = rest /\
    outgoing (_transport c') = outgoing (_transport c) /\ _mb c' = _mb c /\ _timeout c' = _timeout c.
Proof.
  intros Hl Hv HF. revert c mm Hl. unfold write_targets.
  induction HF as [|s d slices datas [Hd Hds] HF IH]; intros c mm Hl Hin.
  { exists c. by split_and!. }
  simpl in Hin. rewrite <- app_assoc in Hin. apply Forall_cons in Hv as [_ Hv].
  destruct (read_exact_spec d _ _ Hl Hin) as (t1 & Hr & Hl1 & Hi1 & Ho1).
  simpl. pose proof (len_nonneg d).
  erewrite bind_ret_eq; cycle 1.
  { unfold read_slice. erewrite bind_ret_eq; [reflexivity|].
    unfold on_client, on_transport. apply zoom_ret, zoom_ret. cbn [fst].
    rewrite <- Hd, s32_small by lia. exact Hr. }
  destruct (IH Hv (Make_Asd_client (_status c) t1 (_timeout c) (_mb c)) (mem_write (target s) d mm))
    as (c' & He & Hl' & Hi' & Ho' & Hb' & Ht'); [done|done|].
  exists c'. split; [exact He|]. simpl in *. split_and!; congruence.
Qed.

Lemma read_u32_spec v rest c :
  live (_transport c) -> valid_int 32 v -> incoming (_transport c) = le_split 4 v ++ rest ->
  exists t, read_u32 c = (Ret v, Make_Asd_client (_status c) t (_timeout c) (_mb c)) /\
    live t /\ incoming t = rest /\ outgoing t = outgoing (_transport c).
Proof.
  intros Hl Hv Hin. destruct (read_exact_spec _ _ _ Hl Hin) as (t1 & Hr & Hl1 & Hi1 & Ho1).
  rewrite len_le_split in Hr. exists t1. split; [|by split_and!].
  unfold read_u32, on_transport. change 4 with (Z.of_nat 4).
  rewrite (bind_ret_eq _ _ _ _ _ (zoom_ret _ _ _ _ _ _ Hr)). rewrite len_le_split.
  rewrite le_combine_split_small by (unfold valid_int in Hv; simpl; lia). done.
Qed.

Lemma prologue_spec long_id :
  len (enc_prologue long_id) < 2 ^ 31 - 4 -> prologue long_id = Ret (enc_prologue long_id).
Proof. apply built_spec, make_prologue_appends. Qed.

Lemma id_matches (long_id : option bytes) answer :
  match long_id with Some l => bool_decide (l = answer) | None => true end
  = if decide (long_id = None \/ long_id = Some answer) then true else false.
Proof.
  destruct long_id as [l|]; repeat case_decide; try done; try naive_solver.
  all: case_bool_decide; naive_solver.
Qed.
End facts.

Lemma partial_get_spec `{RT : ReliableTransport T} (c : Asd_client T) mm
    key slices datas (success : bool) rest :
  let req := enc_asd_request (PartialGet key slices) in
  asd_idle c -> Forall valid_slice slices -> len req < 2 ^ 31 - 4 ->
  Forall2 (fun s d => len d = slice_length s /\ len d < 2 ^ 31) slices datas ->
  incoming (_transport c) = frame (enc_int 4 0 ++ enc_bool success) ++ concat datas ++ rest ->
  exists c', partial_get key slices (c, mm) = (Ret tt, (c', write_targets slices datas mm)) /\
    asd_idle c' /\ incoming (_transport c') = rest /\
    outgoing (_transport c') = outgoing (_transport c) ++ frame req.
Proof.
  intros req Hi Hv Hreq HF Hin.
  assert (len (enc_int 4 0 ++ enc_bool success) < 2 ^ 31) as Hresp by by destruct success.
  destruct (asd_send_receive_spec (write_partial_get_request key slices) req _ _ c Hi
    (write_asd_request_appends (PartialGet key slices)) Hreq Hresp Hin)
    as (c1 & Hs & (Hpt1 & Hl1 & Hw1 & Hp1) & Hi1 & Ho1).
  unfold partial_get, on_client.
  rewrite (bind_ret_eq _ _ _ _ _ (zoom_ret fst _ _ (c, mm) _ _ Hs)).
  destruct (message_make_spec _ Hresp) as (Hwf & Hrem & _).
  assert (fst (read_partial_get_response false (message.make (message_buffer.fresh
    (enc_int 4 0 ++ enc_bool success) (len (enc_int 4 0 ++ enc_bool success)))))
    = Ret (Make_AsdStatus 0, success)) as Hread.
  { rewrite (read_partial_get_ok false success _ [] Hwf); [done|by rewrite app_nil_r]. }
  erewrite bind_ret_eq; [|unfold mout; rewrite Hread; reflexivity].
  erewrite bind_ret_eq; [|by apply zoom_ret]. erewrite bind_ret_eq; [|by apply zoom_ret].
  destruct (read_slices_spec slices datas rest
    (Make_Asd_client (Make_AsdStatus 0) (_transport c1) (_timeout c1) (_mb c1)) mm Hl1 Hv HF Hi1)
    as (c2 & Hr & Hl2 & Hi2 & Ho2 & Hb2 & Ht2).
  cbn [fst snd] in *. rewrite (bind_ret_eq _ _ _ _ _ Hr).
  destruct (expires_spec duration_max _ Hl2 patient_max) as (t3 & He & Hl3 & Hi3 & Ho3).
  eexists. split.
  { unfold zoom at 1. cbn [fst snd]. unfold on_transport. erewrite zoom_ret; [reflexivity|exact He]. } simpl in *.
  rewrite Hi3, Ho3, Ho2, Hi2. split_and!; try done. split_and!; simpl; [by rewrite Ht2|done|congruence..].
Qed.

(** ** Properties *)

(** C22: [partial_get] on a working connection sends one request and, when the
    status is OK, fills the slices' buffers, in order, with the bytes that follow the
    response.  It does so whatever the response's success flag says: for a key the
    ASD does not have (flag [false], and no data behind the response) it takes the
    next bytes that arrive on the connection for the slices' data. *)
Theorem partial_get_fills_slices `{RT : ReliableTransport T} (c : Asd_client T) mm
    key slices datas (success : bool) rest :
  let req := enc_asd_request (PartialGet key slices) in
  asd_idle c -> Forall valid_slice slices -> len req < 2 ^ 31 - 4 ->
  Forall2 (fun s d => len d = slice_length s /\ len d < 2 ^ 31) slices datas ->
  incoming (_transport c) = frame (enc_int 4 0 ++ enc_bool success) ++ concat datas ++ rest ->
  exists c', partial_get key slices (c, mm) = (Ret tt, (c', write_targets slices datas mm)) /\
    asd_idle c' /\ incoming (_transport c') = rest /\
    outgoing (_transport c') = outgoing (_transport c) ++ frame req.
Proof. apply partial_get_spec. Qed.

Lemma partial_get_fills_slices_witness :
  let slices := [Make_slice 10 2 4096; Make_slice 0 1 8192] in
  let c := Make_Asd_client (Make_AsdStatus 0)
    (Script (frame (enc_int 4 0 ++ enc_bool false) ++ str "xyz") []) 1000 message_builder.make in
  exists c', partial_get (str "key") slices (c, ∅)
    = (Ret tt, (c', write_targets slices [str "xy"; str "z"] ∅)) /\
    write_targets slices [str "xy"; str "z"] ∅ !! 4097 = Some Byte.x79.
Proof.
  intros slices c.
  destruct (partial_get_fills_slices c ∅ (str "key") slices [str "xy"; str "z"] false [])
    as (c' & H & _).
  - split; [exact I|]. split; [exact I|]. split; [apply wf_make|reflexivity].
  - repeat constructor; simpl; lia.
  - reflexivity.
  - repeat constructor.
  - reflexivity.
  - exists c'. split; [exact H|reflexivity].
Defined.


