(* ===== verification/TransportHelper.v ===== *)
(** * Choosing a transport: [transport_helper.h] and [transport_helper.cc]

    [std::unique_ptr<Transport>] is a sum of the two implementations whose virtual
    calls dispatch on the constructor, and [make_transport] the factory.  What a
    client needs of the outside world, the clock, the factory and the destructor,
    is the interface [World]; [network_world] implements it with the TCP and RDMA
    transports, [scripted_world] with peers that have their answers ready. *)

From S2P Require Import Prelude Llio Transport RdmaTransport TcpTransport.

Local Open Scope Z_scope.
Local Open Scope alba_scope.

(** [steady_now] is in nanoseconds. *)
Class World (T W : Type) := {
  steady_now : W -> Z * W;
  make_transport : Kind -> bytes -> bytes -> Z -> W -> outcome T * W;
  close_transport : T -> W -> W }.

(** ** The two transports *)

Section transports.
Context {E1 E2 : Type} {A : Asio E1} {R : Rsockets E2} (fuel : nat).

Inductive any_transport := ATcp (t : TCP_transport E1) | ARdma (t : RDMA_transport E2).

(** A virtual call. *)
Definition dispatch {X} (m1 : M (TCP_transport E1) X) (m2 : M (RDMA_transport E2) X) :
    M any_transport X := fun t =>
  match t with
  | ATcp t => let '(o, t) := m1 t in (o, ATcp t)
  | ARdma t => let '(o, t) := m2 t in (o, ARdma t)
  end.
#[export] Instance any_Transport : Transport any_transport := {
  expires_from_now d := dispatch (tcp_expires_from_now d) (rdma_expires_from_now d);
  write_exact bs := dispatch (tcp_write_exact fuel bs) (rdma_write_exact bs);
  read_exact n := dispatch (tcp_read_exact fuel n) (rdma_read_exact n) }.

(** The environment connections are made in; a connection carries its own from then
    on, and [closed] records how those of the destroyed ones were left. *)
Record network := Network { tcp_env : E1; rdma_env : E2; closed : list (E1 + E2) }.

Definition outcome_map {X Y} (f : X -> Y) (o : outcome X) : outcome Y :=
  match o with Ret x => Ret (f x) | Throw e => Throw e | Abort => Abort | Undef => Undef end.

(** [switch (k)]; the enumeration has no third value. *)
Definition make_any_transport (k : Kind) (ip port : bytes) (timeout : Z) (w : network) :
    outcome any_transport * network :=
  match k with
  | tcp => let '(o, e) := make_TCP fuel ip port timeout (tcp_env w) in
           (outcome_map ATcp o, Network e (rdma_env w) (closed w))
  | rdma => let '(o, e) := make_RDMA ip port timeout (rdma_env w) in
            (outcome_map ARdma o, Network (tcp_env w) e (closed w))
  end.
(** [~Transport()] is virtual. *)
Definition close_any_transport (t : any_transport) (w : network) : network :=
  Network (tcp_env w) (rdma_env w)
    ((match t with ATcp t => inl (destroy_TCP t) | ARdma t => inr (destroy_RDMA t) end)
       :: closed w).

#[export] Instance network_world : World any_transport network := {
  steady_now w := let '(n, e) := now (rdma_env w) in (n, Network (tcp_env w) e (closed w));
  make_transport := make_any_transport;
  close_transport := close_any_transport }.

#[export] Instance any_bounded `{!AsioSpec E1} `{!RsocketsSpec E2} : BoundedReads any_transport.
Proof.
  split. intros n [t|t] bs t' Hn; cbn [read_exact any_Transport dispatch].
  - destruct (tcp_read_exact fuel n t) as [o t2] eqn:E. intros [= -> _]. by eapply tcp_read_length.
  - destruct (rdma_read_exact n t) as [o t2] eqn:E. intros [= -> _]. by eapply rdma_read_length.
Qed.
End transports.
Arguments any_transport : clear implicits.

(** ** A world of scripted peers *)

(** The answers of the peers to come, and the transports destroyed. *)
Record scripted := Scripted {
  sw_clock : Z; sw_peers : list (option script); sw_closed : list script }.
#[export] Instance scripted_world : World script scripted := {
  steady_now w := (sw_clock w, w);
  make_transport _ _ _ _ w :=
    match sw_peers w with
    | Some t :: ps => (Ret t, Scripted (sw_clock w) ps (sw_closed w))
    | None :: ps => (Throw (ExnTransport (Transport_exception (str "connect"))),
                     Scripted (sw_clock w) ps (sw_closed w))
    | [] => (Throw (ExnTransport (Transport_exception (str "connect"))), w)
    end;
  close_transport t w := Scripted (sw_clock w) (sw_peers w) (t :: sw_closed w) }.

(** ** The contract *)

(** [destroyed w] is what has been destroyed so far; nothing but the destructor
    destroys. *)
Class WorldSpec (T W : Type) `{World T W} := {
  destroyed : W -> list T;
  destroyed_now w : destroyed (snd (steady_now w)) = destroyed w;
  destroyed_close t w : destroyed (close_transport t w) = t :: destroyed w }.
#[export] Instance scripted_spec : WorldSpec script scripted.
Proof. by refine {| destroyed := sw_closed |}. Defined.
