(* ===== verification/ConnectionPool.v ===== *)
(** * Connection pools: [asd_access.h] and [asd_access.cc]

    A pool keeps idle connections to one ASD: at most [capacity_], the one released
    last in front.  Its methods are sequences of a critical section under the pool's
    mutex and of actions outside it (connecting, destroying), modelled as such, so
    that the theorems hold for any interleaving of the sections.
    [ConnectionPools] maps long ids to pools. *)

From S2P Require Import Prelude Llio Stuff OsdInfo Transport TransportHelper AsdClient.

Local Open Scope Z_scope.
Local Open Scope alba_scope.

Section pool.
Context {T W : Type} `{Transport T} `{World T W}.

(** [connections_] is the intrusive list, front first; [_failure_time] is in
    nanoseconds of the steady clock. *)
Record ConnectionPool := Make_ConnectionPool {
  _mutex : bool;
  connections_ : list (Asd_client T);
  config_ : OsdInfo;
  capacity_ : Z;
  timeout_ : Z;
  _fast_path_failures : Z;
  _failure_time : Z }.
Definition new_ConnectionPool (config : OsdInfo) (capacity timeout : Z) : ConnectionPool :=
  Make_ConnectionPool false [] config capacity timeout 0 0.

(** A pool and the world around it. *)
Abbreviation pool_state := (ConnectionPool * W)%type.

Definition set_connections (cs : list (Asd_client T)) : M pool_state unit :=
  modify (fun s => (Make_ConnectionPool (_mutex s.1) cs (config_ s.1) (capacity_ s.1)
    (timeout_ s.1) (_fast_path_failures s.1) (_failure_time s.1), s.2)).
Definition set_capacity_ (cap : Z) : M pool_state unit :=
  modify (fun s => (Make_ConnectionPool (_mutex s.1) (connections_ s.1) (config_ s.1) cap
    (timeout_ s.1) (_fast_path_failures s.1) (_failure_time s.1), s.2)).
Definition set_failures (n t : Z) : M pool_state unit :=
  modify (fun s => (Make_ConnectionPool (_mutex s.1) (connections_ s.1) (config_ s.1)
    (capacity_ s.1) (timeout_ s.1) n t, s.2)).
(** [LOCK()]. *)
Definition LOCK {A} (m : M pool_state A) : M pool_state A :=
  lock_guard (fun s => _mutex s.1)
    (fun held s => (Make_ConnectionPool held (connections_ s.1) (config_ s.1) (capacity_ s.1)
      (timeout_ s.1) (_fast_path_failures s.1) (_failure_time s.1), s.2)) m.
Definition in_world {A} (m : W -> outcome A * W) : M pool_state A :=
  zoom snd (fun w s => (s.1, w)) m.
Definition steady_clock_now : M pool_state Z :=
  in_world (fun w => let '(n, w) := steady_now w in (Ret n, w)).

(** The destructor of an [Asd_client] destroys its transport. *)
Definition destroy_client (c : Asd_client T) : M pool_state unit :=
  in_world (fun w => (Ret tt, close_transport (_transport c) w)).

Definition pop_ (conns : list (Asd_client T)) : option (Asd_client T) * list (Asd_client T) :=
  match conns with [] => (None, []) | c :: conns => (Some c, conns) end.
(** [pop_] until the list is empty, each popped [unique_ptr] going out of scope. *)
Definition clear_ (conns : list (Asd_client T)) : M pool_state unit :=
  for_each destroy_client conns.
Definition destroy_ConnectionPool : M pool_state unit :=
  cs ← gets (fun s => connections_ s.1);
  clear_ cs ;; set_connections [].

(** An exception in the client's constructor destroys the transport it was given. *)
Definition new_client (timeout : Z) (transport : T) (long_id : bytes) (w : W) :
    outcome (Asd_client T) * W :=
  match make_Asd_client timeout transport (Some long_id) with
  | (Ret _, c) => (Ret c, w)
  | (Throw e, c) => (Throw e, close_transport (_transport c) w)
  | (Abort, _) => (Abort, w)
  | (Undef, _) => (Undef, w)
  end.
(** [ips[0]] of an empty vector is undefined. *)
Definition make_one_ : M pool_state (Asd_client T) :=
  p ← gets fst;
  match ips (config_ p) with
  | [] => mout Undef
  | ip :: _ =>
      transport ← in_world (make_transport (if use_rdma (config_ p) then rdma else tcp)
                              ip (dec (port (config_ p))) (timeout_ p));
      in_world (new_client (timeout_ p) transport (long_id (config_ p)))
  end.

(** [_fast_path_failures++] on an [int]. *)
Definition report_failure : M pool_state unit :=
  t ← steady_clock_now;
  p ← gets fst;
  if _fast_path_failures p =? 2 ^ 31 - 1 then mout Undef
  else set_failures (_fast_path_failures p + 1) t.

(** The critical section of [release_connection]; the result tells whether the list
    took the connection over. *)
Definition release_section (conn : option (Asd_client T)) : M pool_state bool :=
  LOCK (match conn with
        | Some c =>
            p ← gets fst;
            set_failures 0 (_failure_time p) ;;
            if len (connections_ p) <? capacity_ p then
              set_connections (c :: connections_ p) ;; mret true
            else mret false
        | None => report_failure ;; mret true
        end).
Definition release_connection (conn : option (Asd_client T)) : M pool_state unit :=
  taken ← release_section conn;
  match conn with
  | Some c => if taken : bool then mret tt else destroy_client c
  | None => mret tt
  end.

(** The critical section of [get_connection]: [None] is the early return of the null
    pointer, [Some conn] what [pop_] gave. *)
Definition get_section : M pool_state (option (option (Asd_client T))) :=
  LOCK (p ← gets fst;
        backing_off ← (if 15 <=? _fast_path_failures p then
                         t ← steady_clock_now;
                         mret (Z.quot (t - _failure_time p) (10 ^ 9) <? 120)
                       else mret false);
        if backing_off : bool then mret None else
        set_connections (snd (pop_ (connections_ p))) ;;
        mret (Some (fst (pop_ (connections_ p))))).
Definition get_connection : M pool_state (option (Asd_client T)) :=
  r ← get_section;
  match r with
  | None => mret None
  | Some (Some conn) => mret (Some conn)
  | Some None =>
      try_catch (c ← make_one_; mret (Some c))
        (fun e => if is_std_exception e then mret None else mthrow e)
  end.

Definition size : M pool_state Z := LOCK (gets (fun s => len (connections_ s.1))).
Definition capacity : M pool_state Z := LOCK (gets (fun s => capacity_ s.1)).

(** [n] times: take the front of [conns] and push it on the front of [tmp]. *)
Fixpoint move_front (n : nat) (conns tmp : list (Asd_client T)) :
    M pool_state (list (Asd_client T) * list (Asd_client T)) :=
  match n, conns with
  | O, _ => mret (conns, tmp)
  | S n, c :: conns => move_front n conns (c :: tmp)
  | S _, [] => mout Undef
  end.
(** The critical section of [capacity(cap)]: what it leaves in [tmp]. *)
Definition capacity_section (cap : Z) : M pool_state (list (Asd_client T)) :=
  LOCK (set_capacity_ cap ;;
        p ← gets fst;
        if capacity_ p <? len (connections_ p) then
          ct ← move_front (Z.to_nat (capacity_ p)) (connections_ p) [];
          set_connections ct.2 ;; mret ct.1
        else mret []).
Definition change_capacity (cap : Z) : M pool_state unit :=
  tmp ← capacity_section cap;
  clear_ tmp.

(** ** The map of pools *)

(** [std::map<std::string, std::unique_ptr<ConnectionPool>>]; pools are never
    removed, so the key stands for the [ConnectionPool *]. *)
Record ConnectionPools := Make_ConnectionPools {
  pools_mutex : bool; connection_pools_ : gmap bytes ConnectionPool }.

Definition get_connection_pool (osd_info : OsdInfo) (connection_pool_size timeout : Z) :
    M ConnectionPools (option bytes) :=
  if negb (kind_asd osd_info) then mret None else
  lock_guard pools_mutex (fun held s => Make_ConnectionPools held (connection_pools_ s))
    (s ← gets id;
     match connection_pools_ s !! long_id osd_info with
     | Some _ => mret (Some (long_id osd_info))
     | None =>
         modify (fun s => Make_ConnectionPools (pools_mutex s)
           (<[long_id osd_info :=
                new_ConnectionPool osd_info (u64 connection_pool_size) timeout]>
              (connection_pools_ s))) ;;
         mret (Some (long_id osd_info))
     end).

(** ** Interleavings *)

(** A critical section, or the destruction of what one has left over, by any
    thread.  [handed] and [loose] are what [get_connection] gave out and what is
    going to be destroyed. *)
Inductive pool_step :=
  | StepGet | StepRelease (conn : option (Asd_client T)) | StepCapacity (cap : Z)
  | StepDestroy (k : nat).
Record pool_run := Pool_run {
  run_state : pool_state; handed : list (Asd_client T); loose : list (Asd_client T) }.
Definition in_state {A} (m : M pool_state A) : M pool_run A :=
  zoom run_state (fun s r => Pool_run s (handed r) (loose r)) m.
Definition hand_out (cs : list (Asd_client T)) : M pool_run unit :=
  modify (fun r => Pool_run (run_state r) (cs ++ handed r) (loose r)).
Definition drop_off (cs : list (Asd_client T)) : M pool_run unit :=
  modify (fun r => Pool_run (run_state r) (handed r) (cs ++ loose r)).
Definition destroy_loose (k : nat) : M pool_run unit :=
  r ← gets id;
  match loose r !! k with
  | Some c => in_state (destroy_client c) ;;
              modify (fun r => Pool_run (run_state r) (handed r) (delete k (loose r)))
  | None => mret tt
  end.
Definition run_pool_step (st : pool_step) : M pool_run unit :=
  match st with
  | StepGet => r ← in_state get_section;
               hand_out (match r with Some (Some c) => [c] | _ => [] end)
  | StepRelease conn => taken ← in_state (release_section conn);
                        drop_off (match conn with
                                  | Some c => if taken : bool then [] else [c] | None => [] end)
  | StepCapacity cap => tmp ← in_state (capacity_section cap); drop_off tmp
  | StepDestroy k => destroy_loose k
  end.
Definition run_pool_steps (sts : list pool_step) : M pool_run unit := for_each run_pool_step sts.

(** The connections handed in by a run. *)
Definition released (sts : list pool_step) : list (Asd_client T) :=
  omap (fun st => match st with StepRelease conn => conn | _ => None end) sts.
Definition pool_step_ok (st : pool_step) : Prop :=
  match st with StepCapacity cap => 0 <= cap | _ => True end.

(** The invariant of a pool no thread is inside of, after at most [n] failures. *)
Record wf_pool (n : Z) (p : ConnectionPool) : Prop := {
  wf_pool_free : _mutex p = false;
  wf_pool_size : len (connections_ p) <= capacity_ p;
  wf_pool_failures : 0 <= _fast_path_failures p <= n }.

(** No connection is asked for: 15 failures, and the last one less than 120 s ago. *)
Definition backing_off (p : ConnectionPool) (w : W) : bool :=
  (15 <=? _fast_path_failures p)
  && (Z.quot (fst (steady_now w) - _failure_time p) (10 ^ 9) <? 120).
(** The world after [get_connection] has looked at the clock, if it has. *)
Definition after_clock (p : ConnectionPool) (w : W) : W :=
  if 15 <=? _fast_path_failures p then snd (steady_now w) else w.
Definition with_connections (cs : list (Asd_client T)) (p : ConnectionPool) : ConnectionPool :=
  Make_ConnectionPool (_mutex p) cs (config_ p) (capacity_ p) (timeout_ p)
    (_fast_path_failures p) (_failure_time p).
(** Every transport a run knows of: idle, handed out, to be destroyed, destroyed. *)
Definition balance `{!WorldSpec T W} (r : pool_run) : list T :=
  (_transport <$> connections_ (run_state r).1 ++ handed r ++ loose r)
    ++ destroyed (run_state r).2.
End pool.
Arguments ConnectionPool : clear implicits.
Arguments ConnectionPools : clear implicits.
Arguments pool_step : clear implicits.
Arguments pool_run : clear implicits.

(** ** Facts *)

Section facts.
Context {T W : Type} `{Transport T} `{WorldSpec T W}.
Implicit Types (p : ConnectionPool T) (w : W) (r : pool_run T W).

Lemma move_front_spec n (conns tmp : list (Asd_client T)) (s : ConnectionPool T * W) :
  (n <= length conns)%nat ->
  move_front n conns tmp s = (Ret (drop n conns, rev (take n conns) ++ tmp), s).
Proof.
  revert conns tmp. induction n as [|n IH]; intros conns tmp Hn; [done|].
  destruct conns as [|c conns]; simpl in *; [lia|]. rewrite IH by lia. by rewrite <- app_assoc.
Qed.

Lemma get_section_spec p w :
  _mutex p = false ->
  get_section (p, w)
  = (Ret (if backing_off p w then None else Some (head (connections_ p))),
     (if backing_off p w then p else with_connections (tail (connections_ p)) p,
      after_clock p w)).
Proof.
  destruct p as [m cs cfg cap tmo f ft]; simpl. intros ->. unfold get_section, backing_off, after_clock.
  unfold LOCK, lock_guard; simpl. rewrite gets_bind. simpl.
  destruct (15 <=? f); simpl.
  - unfold steady_clock_now, in_world, zoom, mbind, M_bind; simpl.
    destruct (steady_now w) as [n w']; simpl.
    destruct (_ <? 120); simpl; [done|]. by destruct cs.
  - unfold mbind, M_bind; simpl. by destruct cs.
Qed.

Lemma release_section_spec c p w :
  _mutex p = false ->
  release_section (Some c) (p, w)
  = (Ret (len (connections_ p) <? capacity_ p),
     (Make_ConnectionPool false
        (if len (connections_ p) <? capacity_ p then c :: connections_ p else connections_ p)
        (config_ p) (capacity_ p) (timeout_ p) 0 (_failure_time p), w)).
Proof.
  destruct p as [m cs cfg cap tmo f ft]; simpl. intros ->. unfold release_section, LOCK, lock_guard.
  simpl. unfold mbind, M_bind; simpl. by destruct (len cs <? cap).
Qed.

Lemma release_null_spec p w :
  _mutex p = false -> _fast_path_failures p <> 2 ^ 31 - 1 ->
  release_section None (p, w)
  = (Ret true,
     (Make_ConnectionPool false (connections_ p) (config_ p) (capacity_ p) (timeout_ p)
        (_fast_path_failures p + 1) (fst (steady_now w)), snd (steady_now w))).
Proof.
  destruct p as [m cs cfg cap tmo f ft]; simpl. intros -> Hf.
  unfold release_section, report_failure, LOCK, lock_guard. simpl.
  unfold steady_clock_now, in_world, zoom, mbind, M_bind; simpl.
  destruct (steady_now w) as [n w']; simpl.
  by rewrite (proj2 (Z.eqb_neq _ _) Hf).
Qed.

Lemma capacity_section_spec cap p w :
  _mutex p = false -> 0 <= cap ->
  capacity_section cap (p, w)
  = (Ret (if cap <? len (connections_ p) then drop (Z.to_nat cap) (connections_ p) else []),
     (Make_ConnectionPool false
        (if cap <? len (connections_ p) then rev (take (Z.to_nat cap) (connections_ p))
         else connections_ p)
        (config_ p) cap (timeout_ p) (_fast_path_failures p) (_failure_time p), w)).
Proof.
  destruct p as [m cs cfg cap0 tmo f ft]; simpl. intros -> Hc.
  unfold capacity_section, LOCK, lock_guard. simpl. unfold mbind, M_bind; simpl.
  destruct (Z.ltb_spec cap (len cs)) as [Hlt|Hge]; simpl; [|done].
  rewrite move_front_spec by (unfold len in Hlt; lia). simpl. by rewrite app_nil_r.
Qed.

(** One step keeps the invariant and loses no connection. *)
Lemma pool_step_spec n st r :
  pool_step_ok st -> wf_pool n (run_state r).1 -> n < 2 ^ 31 - 1 ->
  exists r', run_pool_step st r = (Ret tt, r') /\ wf_pool (n + 1) (run_state r').1 /\
    balance r' ≡ₚ (_transport <$> released [st]) ++ balance r.
Proof.
  destruct r as [[p w] h l]; simpl. intros Hok [Hm Hsz Hf] Hn.
  destruct st as [|[c|]|cap|k]; simpl in Hok.
  - unfold run_pool_step, in_state, zoom, mbind, M_bind; simpl. rewrite get_section_spec by done.
    eexists. split; [reflexivity|]. unfold hand_out, balance; simpl.
    assert (destroyed (after_clock p w) = destroyed w) as ->
      by (unfold after_clock; case_if; by rewrite ?destroyed_now).
    destruct (backing_off p w), (connections_ p) as [|c cs] eqn:E; simpl;
      (split; [by constructor; rewrite ?E; simpl in *; try done; len_lia|]);
      rewrite ?E; simpl; try done.
    by rewrite <- !Permutation_middle.
  - unfold run_pool_step, in_state, zoom, mbind, M_bind; simpl. rewrite release_section_spec by done.
    eexists. split; [reflexivity|]. unfold drop_off, balance; simpl.
    destruct (Z.ltb_spec (len (connections_ p)) (capacity_ p)); simpl;
      (split; [by constructor; simpl; try done; len_lia|]); [done|].
    by rewrite <- !Permutation_middle.
  - unfold run_pool_step, in_state, zoom, mbind, M_bind; simpl. rewrite release_null_spec by (done || lia).
    eexists. split; [reflexivity|]. unfold drop_off, balance; simpl.
    split; [constructor; simpl; (done || lia)|]. by rewrite destroyed_now.
  - unfold run_pool_step, in_state, zoom, mbind, M_bind; simpl.
    rewrite capacity_section_spec by done.
    eexists. split; [reflexivity|]. unfold drop_off, balance; simpl.
    destruct (Z.ltb_spec cap (len (connections_ p))) as [Hlt|Hge]; simpl.
    + split; [constructor; simpl; [done| |lia]; unfold len in *; rewrite length_rev, length_take; lia|].
      apply Permutation_app_tail, fmap_Permutation.
      rewrite <- Permutation_rev, (Permutation_app_swap_app h), app_assoc.
      by rewrite take_drop.
    + split; [constructor; simpl; (done || lia)|done].
  - unfold run_pool_step, destroy_loose; rewrite gets_bind; unfold id; simpl.
    destruct (l !! k) as [c|] eqn:E.
    + eexists. split; [reflexivity|]. unfold balance; simpl. split; [constructor; simpl; (done || lia)|].
      rewrite destroyed_close. rewrite !fmap_app. rewrite (delete_Permutation l k c E) at 2.
      rewrite fmap_cons, <- !app_assoc, <- app_comm_cons. by rewrite <- !Permutation_middle.
    + eexists. split; [reflexivity|]. split; [constructor; simpl; (done || lia)|done].
Qed.

Lemma run_pool_steps_spec sts n r :
  Forall pool_step_ok sts -> wf_pool n (run_state r).1 -> n + len sts < 2 ^ 31 ->
  exists r', run_pool_steps sts r = (Ret tt, r') /\ wf_pool (n + len sts) (run_state r').1 /\
    balance r' ≡ₚ (_transport <$> released sts) ++ balance r.
Proof.
  revert n r. induction sts as [|st sts IH]; intros n r Hok Hwf Hn.
  { exists r. rewrite len_nil, Z.add_0_r. by split_and!. }
  apply Forall_cons in Hok as [Hst Hok]. rewrite len_cons in *. pose proof (len_nonneg sts).
  destruct (pool_step_spec n st r Hst Hwf ltac:(lia)) as (r1 & H1' & Hwf1 & Hb1).
  destruct (IH (n + 1) r1 Hok Hwf1 ltac:(lia)) as (r2 & H2' & Hwf2 & Hb2).
  exists r2. split; [|split].
  - unfold run_pool_steps in *. simpl. by rewrite (bind_ret_eq _ _ _ _ _ H1').
  - by replace (n + (1 + len sts)) with (n + 1 + len sts) by lia.
  - rewrite Hb2, Hb1. unfold released. simpl. destruct st as [|[c|]| |]; simpl; try done.
    by rewrite Permutation_middle.
Qed.

(** [make_one_] leaves the pool alone. *)
Lemma make_one_state p w : exists o w', make_one_ (p, w) = (o, (p, w')).
Proof.
  unfold make_one_. rewrite gets_bind. simpl. destruct (ips (config_ p)) as [|ip l].
  { by do 2 eexists. }
  unfold in_world, zoom, mbind, M_bind; simpl. destruct (make_transport _ _ _ _ w) as [o w1].
  destruct o as [t|e| |]; [|by do 2 eexists..]. simpl.
  destruct (new_client _ _ _ w1) as [o w2]. by do 2 eexists.
Qed.
End facts.

(** ** Properties *)

(** C12: a pool under any interleaving of its operations' critical sections: no
    section blocks or throws, the pool never holds more connections than its current
    capacity (shrunk capacities included), and no connection is lost or duplicated:
    everything that was released is idle in the pool, has been handed out, waits for
    its destruction or has been destroyed, once. *)
Theorem pool_conserves_connections {T W} `{Transport T} `{WorldSpec T W}
    config cap timeout (w : W) (sts : list (pool_step T)) :
  0 <= cap -> Forall pool_step_ok sts -> len sts < 2 ^ 31 ->
  exists r, run_pool_steps sts (Pool_run (new_ConnectionPool config cap timeout, w) [] [])
    = (Ret tt, r) /\
  let p := (run_state r).1 in
  _mutex p = false /\ len (connections_ p) <= capacity_ p /\
  (_transport <$> connections_ p ++ handed r ++ loose r) ++ destroyed (run_state r).2
  ≡ₚ (_transport <$> released sts) ++ destroyed w.
Proof.
  intros Hc Hok Hn.
  destruct (run_pool_steps_spec sts 0 (Pool_run (new_ConnectionPool config cap timeout, w) [] []) Hok)
    as (r & Hr & [Hm Hs _] & Hb); [by constructor|done|].
  exists r. by split_and!.
Qed.

Lemma pool_conserves_connections_witness :
  let c n := Make_Asd_client (AsdProtocol.Make_AsdStatus 0) (Script (str n) []) 25
    message_builder.make in
  let sts := [StepRelease (Some (c "a")); StepRelease (Some (c "b")); StepRelease (Some (c "c"));
              StepCapacity 1; StepRelease None; StepGet; StepDestroy 0] in
  exists r, run_pool_steps sts
      (Pool_run (new_ConnectionPool default_OsdInfo 2 25, Scripted 0 [] []) [] []) = (Ret tt, r) /\
    handed r = [c "b"] /\ loose r = [c "c"] /\
    len (connections_ (run_state r).1) <= capacity_ (run_state r).1.
Proof.
  intros c sts.
  destruct (pool_conserves_connections default_OsdInfo 2 25 (Scripted 0 [] []) sts)
    as (r & Hr & _ & Hs & _); [lia|repeat constructor; simpl; lia|reflexivity|].
  exists r. vm_compute in Hr. injection Hr as <-. split_and!; [reflexivity..|exact Hs].
Defined.



(** One pool per ASD: after [get_connection_pool] the ASD's long id names a pool,
    the one that was there if there was one, with the configuration it was created
    with whatever has changed in the information since; no other pool is touched, and
    an OSD that is no ASD has none. *)
Theorem get_connection_pool_spec {T} (pools : ConnectionPools T) info n timeout :
  pools_mutex pools = false ->
  exists pools', get_connection_pool info n timeout pools
    = (Ret (if kind_asd info then Some (long_id info) else None), pools') /\
  pools_mutex pools' = false /\
  (forall id, connection_pools_ pools' !! id
   = if decide (kind_asd info /\ id = long_id info) then
       Some (default (new_ConnectionPool info (u64 n) timeout) (connection_pools_ pools !! id))
     else connection_pools_ pools !! id).
Proof.
  destruct pools as [m ps]; simpl. intros ->. unfold get_connection_pool.
  destruct (kind_asd info) eqn:Ek; cbn [negb].
  2: { eexists. split; [done|]. split; [done|]. intros i. rewrite decide_False; [done|naive_solver]. }
  unfold lock_guard; cbn [pools_mutex connection_pools_]. rewrite gets_bind. unfold id. cbn [pools_mutex connection_pools_].
  destruct (ps !! long_id info) as [p|] eqn:Ep; (eexists; split; [reflexivity|]);
    (split; [done|]); intros i; cbn [connection_pools_]; case_decide as Hi;
    rewrite ?(proj2 Hi), ?Ep; try done.
  - by rewrite lookup_insert_eq.
  - rewrite lookup_insert_ne; [done|naive_solver].
Qed.

Lemma get_connection_pool_spec_witness :
  let cfg := Make_OsdInfo true (str "asd") [] 8000 false false [] in
  exists pools', get_connection_pool (T := script) cfg 5 25 (Make_ConnectionPools false ∅)
    = (Ret (Some (str "asd")), pools') /\
    capacity_ <$> connection_pools_ pools' !! str "asd" = Some 5.
Proof.
  intros cfg.
  destruct (get_connection_pool_spec (T := script) (Make_ConnectionPools false ∅) cfg 5 25 eq_refl)
    as (pools' & H & _ & Hl).
  exists pools'. split; [exact H|]. rewrite Hl. reflexivity.
Defined.
