(* ===== verification/RoraLocation.v ===== *)
(** * Where slices are: [get_location] and the resolution of slices in
    [rora_proxy_client.cc]

    A slice of an object becomes a list of locations, stretches of fragments on
    OSDs with the address their bytes go to: chunk by chunk and fragment by fragment
    ([_resolve_slice_one_level]), from the manifests in the cache
    ([_resolve_one_level]), and through the levels of fragment caches, where a
    fragment of one level is an object of the next ([_resolve_one_many_levels]). *)

From S2P Require Import Prelude Llio AlbaCommon Encryption Manifest ProxyProtocol LruCache ManifestCache.

Local Open Scope Z_scope.
Local Open Scope alba_scope.

Section location.
Context {ST : Type}.

(** [while (total <= pos)]: the chunk after [chunk_index] is added.  Running past the
    last chunk is undefined. *)
Fixpoint find_chunk (sizes : list Z) (chunk_index total pos : Z) : outcome (Z * Z) :=
  if total <=? pos then
    match sizes with
    | [] => Undef
    | chunk_size :: it => find_chunk it (chunk_index + 1) (u64 (total + chunk_size)) pos
    end
  else Ret (chunk_index, total).

(** Division by zero is undefined, and so is dereferencing a null fragment. *)
Definition get_location (mf : ManifestWithNamespaceId) (pos len : Z) : M ST Location :=
  ct ← mout (find_chunk (chunk_sizes (manifest mf)) (-1) 0 pos);
  let chunk_index := ct.1 in
  chunk_fragments ← mout (vec_at (fragments (manifest mf)) (Z.to_nat chunk_index));
  chunk_size ← mout (vec_at (chunk_sizes (manifest mf)) (Z.to_nat chunk_index));
  let total := u64 (ct.2 - chunk_size) in
  let k := k (encoding_scheme (manifest mf)) in
  (if k =? 0 then mout Undef else mret tt) ;;
  let fragment_length := chunk_size / k in
  let pos_in_chunk := u32 (pos - total) in
  (if fragment_length =? 0 then mout Undef else mret tt) ;;
  let fragment_index := pos_in_chunk / fragment_length in
  fragment_ptr ← mout (vec_at chunk_fragments (Z.to_nat fragment_index));
  fragment ← (match fragment_ptr with Some f => mret f | None => mout Undef end);
  let total := u64 (total + u32 (fragment_length * fragment_index)) in
  let pos_in_fragment := u32 (pos - total) in
  mret (Make_Location (namespace_id mf) (object_id (manifest mf)) chunk_index fragment_index
          pos_in_fragment (Z.min len (u32 (fragment_length - pos_in_fragment)))
          (frag_loc fragment)
          (negb (bool_decide (get_compressor (compression (manifest mf)) = NO_COMPRESSION)))
          (encrypt_info (manifest mf)) (frag_ctr fragment)).

(** [while (length > 0)]. *)
Fixpoint resolve_loop (fuel : nat) (mf : ManifestWithNamespaceId) (offset length target : Z)
    (results : list (Z * Location)) : M ST (list (Z * Location)) :=
  if 0 <? length then
    match fuel with
    | O => mout Undef
    | S fuel =>
        l ← get_location mf offset length;
        resolve_loop fuel mf (u64 (offset + loc_length l)) (u32 (length - loc_length l))
          (target + loc_length l) (results ++ [(target, l)])
    end
  else mret results.
(** Every location covers at least one byte ([resolve_loop_fuel]). *)
Definition _resolve_slice_one_level (results : list (Z * Location))
    (mf : ManifestWithNamespaceId) (offset length target : Z) : M ST (list (Z * Location)) :=
  resolve_loop (Z.to_nat length) mf offset length target results.

Fixpoint resolve_slices (mf : ManifestWithNamespaceId) (slices : list SliceDescriptor)
    (results : list (Z * Location)) : M ST (list (Z * Location)) :=
  match slices with
  | [] => mret results
  | slice :: slices =>
      results ← _resolve_slice_one_level results mf (offset slice) (sd_size slice) (buf slice);
      resolve_slices mf slices results
  end.
End location.

(** The object name of a fragment in the next level's fragment cache. *)
Definition fragment_cache_object_name (l : Location) : outcome bytes :=
  built (to_string (loc_object_id l) ;; to_u32 (loc_chunk_id l) ;; to_u32 (loc_fragment_id l)).

(** The loop over the locations of a level that is not the last. *)
Fixpoint resolve_deeper {ST} (resolve : ObjectSlices -> M ST (option (list (Z * Location))))
    (ls final_level : list (Z * Location)) : M ST (option (list (Z * Location))) :=
  match ls with
  | [] => mret (Some final_level)
  | (target, l) :: ls =>
      name ← mout (fragment_cache_object_name l);
      locations ← resolve
        (Make_ObjectSlices name [Make_SliceDescriptor target (loc_offset l) (loc_length l)]);
      match locations with
      | None => mret None
      | Some locations => resolve_deeper resolve ls (final_level ++ locations)
      end
  end.

Section levels.
Context {B : BimapOps bytes manifest_cache_entry}.

Definition _resolve_one_level (alba_id : alba_id_t) (namespace_ : bytes)
    (obj_slices : ObjectSlices) : M ManifestCache (option (list (Z * Location))) :=
  mf ← ManifestCache.find namespace_ alba_id (object_name obj_slices);
  match mf with
  | None => mret None
  | Some mf => results ← resolve_slices mf (slices obj_slices) []; mret (Some results)
  end.

(** [alba_levels[alba_level_num]] and what follows it is the argument. *)
Fixpoint _resolve_one_many_levels (alba_levels : list alba_id_t) (namespace_ : bytes)
    (obj_slices : ObjectSlices) : M ManifestCache (option (list (Z * Location))) :=
  match alba_levels with
  | [] => mout Undef
  | alba_id :: deeper =>
      locations ← _resolve_one_level alba_id namespace_ obj_slices;
      match locations, deeper with
      | None, _ => mret None
      | Some locations, [] => mret (Some locations)
      | Some locations, _ =>
          resolve_deeper (_resolve_one_many_levels deeper namespace_) locations []
      end
  end.
End levels.

(** ** What resolving is for *)

Definition sum_sizes (l : list Z) : Z := foldr Z.add 0 l.

(** [fd i j] is the content of fragment [j] of chunk [i]: a [k]-th of its chunk, for
    the first [k] fragments, which the manifest has to know. *)
Record describes (m : Manifest) (fd : nat -> nat -> bytes) : Prop := {
  desc_k : 0 < k (encoding_scheme m);
  desc_sizes : Forall (fun cs => 0 <= cs < 2 ^ 32 /\ (k (encoding_scheme m) | cs)) (chunk_sizes m);
  desc_total : sum_sizes (chunk_sizes m) < 2 ^ 64;
  desc_fragments : forall i cs j, chunk_sizes m !! i = Some cs ->
    (Z.of_nat j < k (encoding_scheme m)) ->
    exists row f, fragments m !! i = Some row /\ row !! j = Some (Some f) /\
      len (fd i j) = cs / k (encoding_scheme m) }.
Definition chunk_data (m : Manifest) (fd : nat -> nat -> bytes) (i : nat) : bytes :=
  concat (fd i <$> seq 0 (Z.to_nat (k (encoding_scheme m)))).
(** The object: its chunks, each its first [k] fragments. *)
Definition object_data (m : Manifest) (fd : nat -> nat -> bytes) : bytes :=
  concat (chunk_data m fd <$> seq 0 (length (chunk_sizes m))).

(** [n] bytes at [o]. *)
Definition stretch (o n : Z) (bs : bytes) : bytes := take (Z.to_nat n) (drop (Z.to_nat o) bs).
(** What is read for a location, and where the reads of a list of locations leave
    the memory. *)
Definition location_data (fd : nat -> nat -> bytes) (l : Location) : bytes :=
  stretch (loc_offset l) (loc_length l) (fd (Z.to_nat (loc_chunk_id l)) (Z.to_nat (loc_fragment_id l))).
Definition read_locations (data : Location -> bytes) (ls : list (Z * Location)) (mm : mem) : mem :=
  foldl (fun mm p => mem_write p.1 (data p.2) mm) mm ls.
(** A location names a fragment of the manifest, by its place, and lies within it. *)
Definition located (mf : ManifestWithNamespaceId) (fd : nat -> nat -> bytes) (l : Location) : Prop :=
  exists row f,
    fragments (manifest mf) !! Z.to_nat (loc_chunk_id l) = Some row /\
    row !! Z.to_nat (loc_fragment_id l) = Some (Some f) /\
    0 <= loc_chunk_id l /\ 0 <= loc_fragment_id l < k (encoding_scheme (manifest mf)) /\
    loc_fragment_location l = frag_loc f /\ loc_ctr l = frag_ctr f /\
    loc_namespace_id l = namespace_id mf /\ loc_object_id l = object_id (manifest mf) /\
    loc_encrypt_info l = encrypt_info (manifest mf) /\
    loc_uses_compression l
    = negb (bool_decide (get_compressor (compression (manifest mf)) = NO_COMPRESSION)) /\
    0 <= loc_offset l /\ 0 < loc_length l < 2 ^ 32 /\
    loc_offset l + loc_length l
      <= len (fd (Z.to_nat (loc_chunk_id l)) (Z.to_nat (loc_fragment_id l))).

(** What the manifest cache has for a name, without its recency side effect. *)
Definition cached {B : BimapOps bytes manifest_cache_entry} {BL : Bimap B} (s : ManifestCache)
    (ns alba_id name : bytes) : option ManifestWithNamespaceId :=
  assoc (make_key alba_id name) (ns_entries s ns).

(** The manifests a lookup gives. *)
Definition knows (find : bytes -> bytes -> option ManifestWithNamespaceId) (alba_id name : bytes)
    (mf : ManifestWithNamespaceId) : Prop := find alba_id name = Some mf.

(** The manifests that are [known] are true: [name] is an object of the first level whose
    content is [data].  At the last level [osd] is what the OSDs hold for a location;
    above it a location's fragment is an object of the next level, padded there. *)
Fixpoint coherent (osd : Location -> bytes) (known : bytes -> bytes -> ManifestWithNamespaceId -> Prop)
    (alba_levels : list alba_id_t) (name data : bytes) : Prop :=
  match alba_levels with
  | [] => False
  | alba_id :: deeper =>
      forall mf, known alba_id name mf ->
      exists fd, describes (manifest mf) fd /\ object_data (manifest mf) fd = data /\
      forall l, located mf fd l ->
        match deeper with
        | [] => osd l = location_data fd l
        | _ => exists nm tail,
            fragment_cache_object_name l = Ret nm /\
            coherent osd known deeper nm
              (fd (Z.to_nat (loc_chunk_id l)) (Z.to_nat (loc_fragment_id l)) ++ tail)
        end
  end.

(** The object's manifest is in the cache, and so are, level by level, those of all
    its data fragments. *)
Fixpoint available (find : bytes -> bytes -> option ManifestWithNamespaceId)
    (alba_levels : list alba_id_t) (name : bytes) : Prop :=
  match alba_levels with
  | [] => False
  | alba_id :: deeper =>
      exists mf, find alba_id name = Some mf /\
      match deeper with
      | [] => True
      | _ => forall fd l nm, located mf fd l -> fragment_cache_object_name l = Ret nm ->
               available find deeper nm
      end
  end.

(** Locations that follow each other from address [t] on and together hold [bs]; each of
    them satisfies [P]. *)
Inductive tiled (osd : Location -> bytes) (P : Location -> Prop) :
    list (Z * Location) -> Z -> bytes -> Prop :=
  | tiled_nil t : tiled osd P [] t []
  | tiled_cons t l ls rest : P l -> 0 < loc_length l -> len (osd l) = loc_length l ->
      tiled osd P ls (t + loc_length l) rest -> tiled osd P ((t, l) :: ls) t (osd l ++ rest).
(** Slice by slice. *)
Fixpoint tiled_slices (osd : Location -> bytes) (P : Location -> Prop) (data : bytes)
    (sds : list SliceDescriptor) (ls : list (Z * Location)) : Prop :=
  match sds with
  | [] => ls = []
  | sd :: sds => exists l1 l2, ls = l1 ++ l2 /\
      tiled osd P l1 (buf sd) (stretch (offset sd) (sd_size sd) data) /\
      tiled_slices osd P data sds l2
  end.

(** The outcome of resolving: locations whose reads do [write], or nothing, and then a
    manifest was [missing]. *)
Definition resolved (osd : Location -> bytes) (missing : Prop) (write : mem -> mem)
    (r : option (list (Z * Location))) : Prop :=
  match r with
  | Some ls => forall mm, read_locations osd ls mm = write mm
  | None => missing
  end.
(** The same, in terms of tiles. *)
Definition resolved_tiles (osd : Location -> bytes) (P : Location -> Prop) (missing : Prop)
    (data : bytes) (sds : list SliceDescriptor) (r : option (list (Z * Location))) : Prop :=
  match r with
  | Some ls => tiled_slices osd P data sds ls
  | None => missing
  end.
Definition same_cached {B : BimapOps bytes manifest_cache_entry} {BL : Bimap B}
    (s s' : ManifestCache) : Prop :=
  wf_manifest_cache s' /\
  forall ns alba_id name, cached s' ns alba_id name = cached s ns alba_id name.

(** Slices as stretches of an object, and where they leave the memory. *)
Definition slice_inside (data : bytes) (sd : SliceDescriptor) : Prop :=
  0 <= offset sd /\ 0 <= sd_size sd < 2 ^ 32 /\ offset sd + sd_size sd <= len data.
Definition read_slices (data : bytes) (sds : list SliceDescriptor) (mm : mem) : mem :=
  foldl (fun mm sd => mem_write (buf sd) (stretch (offset sd) (sd_size sd) data) mm) mm sds.

(** A manifest of two chunks of two fragments, for the examples. *)
Definition two_chunks : ManifestWithNamespaceId :=
  let f osd := Some (Make_Fragment (Some osd, 0) None 0 None None) in
  Make_ManifestWithNamespaceId
    (Make_Manifest (str "obj") (str "oid") [4; 2] (Make_EncodingScheme 2 1 8) NoCompression
       NoEncryption Checksum.NoChecksum 5 [[f 10; f 11; f 12]; [f 13; f 14; f 15]] 0 0 double_1) 1.
Definition two_chunks_data (i j : nat) : bytes :=
  match i, j with
  | O, O => str "ab" | O, _ => str "cd" | _, O => str "e" | _, _ => str "f"
  end.

(** ** Facts *)

Lemma stretch_0 n bs : stretch 0 n bs = take (Z.to_nat n) bs.
Proof. done. Qed.

Lemma len_stretch o n bs : 0 <= o -> 0 <= n -> o + n <= len bs -> len (stretch o n bs) = n.
Proof. intros. unfold stretch, len in *. rewrite length_take, length_drop. lia. Qed.

Lemma stretch_split o n1 n2 bs :
  0 <= o -> 0 <= n1 -> 0 <= n2 -> stretch o (n1 + n2) bs = stretch o n1 bs ++ stretch (o + n1) n2 bs.
Proof.
  intros. unfold stretch. rewrite !Z2Nat.inj_add by lia.
  by rewrite <- drop_drop, <- take_take_drop.
Qed.

(** A stretch of a concatenation that lies within one of its pieces. *)
Lemma stretch_concat j (ls : list bytes) x o n :
  ls !! j = Some x -> 0 <= o -> 0 <= n -> o + n <= len x ->
  stretch (len (concat (take j ls)) + o) n (concat ls) = stretch o n x.
Proof.
  intros Hj Ho Hn Hle. pose proof (len_nonneg (concat (take j ls))).
  rewrite <- (take_drop_middle ls j x Hj) at 2. rewrite concat_app. simpl. unfold stretch, len in *.
  rewrite Z2Nat.inj_add, Nat2Z.id by lia. rewrite <- drop_drop, drop_app_length.
  rewrite drop_app_le by lia. apply take_app_le. rewrite length_drop. lia.
Qed.

Lemma mem_write_app p a b mm : mem_write p (a ++ b) mm = mem_write (p + len a) b (mem_write p a mm).
Proof.
  revert p mm. induction a as [|x a IH]; intros p mm; simpl.
  - by rewrite len_nil, Z.add_0_r.
  - rewrite IH, len_cons. f_equal. lia.
Qed.

Lemma sum_sizes_app a b : sum_sizes (a ++ b) = sum_sizes a + sum_sizes b.
Proof. induction a as [|x a IH]; simpl; [done|]. unfold sum_sizes in *. simpl. lia. Qed.

Lemma sum_sizes_nonneg l : Forall (fun cs => 0 <= cs) l -> 0 <= sum_sizes l.
Proof. induction 1; simpl; lia. Qed.

Section arithmetic.
Context (pos base fl : Z).
Hypothesis Hfl : 0 < fl < 2 ^ 32.

(** [pos_in_fragment], for any [total]: the subtractions that wrap around are undone
    by the narrowing assignments. *)
Lemma pos_in_fragment_spec :
  let pos_in_chunk := u32 (pos - base) in
  u32 (pos - u64 (base + u32 (fl * (pos_in_chunk / fl)))) = pos_in_chunk mod fl.
Proof.
  intros pic. pose proof (Z.div_mod pic fl ltac:(lia)) as Hd.
  pose proof (Z.mod_pos_bound pic fl ltac:(lia)) as Hm.
  assert (0 <= pic < 2 ^ 32) as Hp by apply u32_range.
  assert (0 <= fl * (pic / fl) < 2 ^ 32) as Hb.
  { split; [apply Z.mul_nonneg_nonneg; [lia|apply Z.div_pos; lia]|nia]. }
  rewrite (u32_small (fl * (pic / fl))) by done.
  set (x := base + fl * (pic / fl)). pose proof (Z.div_mod x (2 ^ 64) ltac:(lia)) as Hx.
  pose proof (Z.div_mod (pos - base) (2 ^ 32) ltac:(lia)) as Hq.
  symmetry. apply (Z.mod_unique_pos _ _ ((pos - base) / 2 ^ 32 + 2 ^ 32 * (x / 2 ^ 64))); [lia|].
  unfold u64, pic, u32 in *. subst x. lia.
Qed.
End arithmetic.

Lemma find_chunk_spec sizes ci total pos :
  0 <= total <= pos -> pos < total + sum_sizes sizes -> total + sum_sizes sizes < 2 ^ 64 ->
  Forall (fun cs => 0 <= cs) sizes ->
  exists i cs, sizes !! i = Some cs /\
    find_chunk sizes ci total pos = Ret (ci + 1 + Z.of_nat i, total + sum_sizes (take (S i) sizes)) /\
    total + sum_sizes (take i sizes) <= pos < total + sum_sizes (take i sizes) + cs.
Proof.
  revert ci total. induction sizes as [|cs sizes IH]; intros ci total Ht Hp Hs HF; simpl in *; [lia|].
  apply Forall_cons in HF as [Hcs HF]. pose proof (sum_sizes_nonneg _ HF) as Hn.
  unfold sum_sizes in *. replace (total <=? pos) with true by (symmetry; lia).
  rewrite u64_small by lia. destruct (Z.le_gt_cases (total + cs) pos) as [Hle|Hgt].
  - destruct (IH (ci + 1) (total + cs)) as (i & c & Hi & Hf & Hb); [lia..|done|].
    exists (S i), c. split; [done|]. rewrite Hf. simpl in *. split; [do 2 f_equal; lia|lia].
  - exists 0%nat, cs. split; [done|]. split; [|simpl; lia]. simpl.
    destruct sizes; simpl; replace (total + cs <=? pos) with false by (symmetry; lia);
      do 2 f_equal; lia.
Qed.

(** A location that was found is not empty, whatever the manifest. *)
Lemma get_location_length {ST} mf pos n (s : ST) l s' :
  Forall (fun cs => 0 <= cs < 2 ^ 32) (chunk_sizes (manifest mf)) ->
  0 <= k (encoding_scheme (manifest mf)) -> 0 < n ->
  get_location mf pos n s = (Ret l, s') -> s' = s /\ 0 < loc_length l <= n.
Proof.
  intros HF Hk Hn. unfold get_location, mbind, M_bind, mout.
  destruct (find_chunk _ _ _ _) as [[ci total]|e| |]; try done; cbn [fst snd].
  destruct (vec_at (fragments _) _) as [row|e| |]; try done.
  destruct (vec_at (chunk_sizes _) _) as [cs|e| |] eqn:Ecs; try done.
  assert (0 <= cs < 2 ^ 32) as Hcs.
  { unfold vec_at in Ecs. destruct (_ !! _) as [c|] eqn:E; [|done]. injection Ecs as ->.
    by apply (Forall_lookup_1 _ _ _ _ HF E). }
  destruct (Z.eqb_spec (k (encoding_scheme (manifest mf))) 0) as [?|Hk0]; try done; cbn [mret M_ret].
  destruct (Z.eqb_spec (cs / k (encoding_scheme (manifest mf))) 0) as [?|Hfl0]; try done.
  set (fl := cs / k (encoding_scheme (manifest mf))) in *. cbn [mret M_ret].
  assert (0 < fl < 2 ^ 32) as Hfl.
  { assert (0 <= fl) by (apply Z.div_pos; lia).
    assert (fl <= cs) by (apply Z.div_le_upper_bound; [lia|nia]). lia. }
  destruct (vec_at row _) as [[f|]|e| |]; try done. unfold mret, M_ret. intros [= <- <-].
  split; [done|]. cbn [loc_length]. rewrite (pos_in_fragment_spec pos _ fl Hfl).
  pose proof (Z.mod_pos_bound (u32 (pos - u64 (total - cs))) fl ltac:(lia)).
  rewrite u32_small by lia. lia.
Qed.

(** The loop's fuel is never used up. *)
Lemma resolve_loop_fuel {ST} mf (fuel : nat) offset n target results (s : ST) :
  Forall (fun cs => 0 <= cs < 2 ^ 32) (chunk_sizes (manifest mf)) ->
  0 <= k (encoding_scheme (manifest mf)) -> 0 <= n < 2 ^ 32 ->
  (Z.to_nat n <= fuel)%nat ->
  resolve_loop fuel mf offset n target results s
  = resolve_loop (Z.to_nat n) mf offset n target results s.
Proof.
  intros HF Hk. revert offset n target results.
  assert (forall a b offset n target results, 0 <= n < 2 ^ 32 ->
    (Z.to_nat n <= a)%nat -> (Z.to_nat n <= b)%nat ->
    resolve_loop a mf offset n target results s = resolve_loop b mf offset n target results s) as H.
  2: { intros. by apply H. }
  induction a as [|a IH]; intros b offset n target results Hn Ha Hb.
  { assert (n = 0) as -> by lia. by destruct b. }
  destruct b as [|b]; [assert (n = 0) as -> by lia; done|]. simpl.
  destruct (Z.ltb_spec 0 n) as [Hpos|]; [|done]. unfold mbind, M_bind.
  destruct (get_location mf offset n s) as [o s'] eqn:E. destruct o as [l|e| |]; try done.
  apply get_location_length in E as [-> Hl]; [|done..].
  rewrite u32_small by lia. apply IH; lia.
Qed.

Lemma located_bounds mf fd l : located mf fd l ->
  0 < loc_length l < 2 ^ 32 /\ 0 <= loc_offset l /\
  loc_offset l + loc_length l
    <= len (fd (Z.to_nat (loc_chunk_id l)) (Z.to_nat (loc_fragment_id l))).
Proof. by intros (row & f & _ & _ & _ & _ & _ & _ & _ & _ & _ & _ & ? & ? & ?). Qed.

Section described.
Context (mf : ManifestWithNamespaceId) (fd : nat -> nat -> bytes).
Hypothesis Hd : describes (manifest mf) fd.
Local Abbreviation kk := (k (encoding_scheme (manifest mf))).
Local Abbreviation sizes := (chunk_sizes (manifest mf)).

Lemma chunk_pieces i cs : sizes !! i = Some cs -> forall n, Z.of_nat n <= kk ->
  len (concat (fd i <$> seq 0 n)) = Z.of_nat n * (cs / kk).
Proof.
  intros Hi. induction n as [|n IH]; intros Hn; [done|].
  rewrite seq_S, fmap_app, concat_app, len_app, IH by lia. simpl. rewrite app_nil_r.
  destruct (desc_fragments _ _ Hd i cs n Hi ltac:(lia)) as (row & f & _ & _ & ->). lia.
Qed.

Lemma take_fmap_seq {A} (f : nat -> A) n m :
  (n <= m)%nat -> take n (f <$> seq 0 m) = f <$> seq 0 n.
Proof.
  intros. rewrite <- fmap_take. f_equal. replace m with (n + (m - n))%nat by lia.
  rewrite seq_app. rewrite take_app_length'; [done|by rewrite length_seq].
Qed.

Lemma chunk_size_bounds i cs : sizes !! i = Some cs -> 0 <= cs < 2 ^ 32 /\ cs = kk * (cs / kk).
Proof.
  intros Hi. destruct (Forall_lookup_1 _ _ _ _ (desc_sizes _ _ Hd) Hi) as [Hc Hdiv].
  split; [done|]. apply Z_div_exact_full_2; [pose proof (desc_k _ _ Hd); lia|].
  by apply Z.mod_divide; [pose proof (desc_k _ _ Hd); lia|].
Qed.

Lemma len_chunk_data i cs : sizes !! i = Some cs -> len (chunk_data (manifest mf) fd i) = cs.
Proof.
  intros Hi. pose proof (desc_k _ _ Hd). unfold chunk_data.
  rewrite (chunk_pieces i cs Hi) by lia. rewrite Z2Nat.id by lia.
  symmetry. apply (chunk_size_bounds i cs Hi).
Qed.

Lemma chunks_before i : (i <= length sizes)%nat ->
  len (concat (take i (chunk_data (manifest mf) fd <$> seq 0 (length sizes))))
  = sum_sizes (take i sizes).
Proof.
  intros Hi. rewrite take_fmap_seq by done. induction i as [|i IH]; [done|].
  rewrite seq_S, fmap_app, concat_app, len_app, IH by lia. simpl. rewrite app_nil_r.
  destruct (lookup_lt_is_Some_2 sizes i ltac:(lia)) as [cs Hcs].
  rewrite (len_chunk_data i cs Hcs), (take_S_r _ _ _ Hcs), sum_sizes_app. simpl. lia.
Qed.

Lemma len_object_data : len (object_data (manifest mf) fd) = sum_sizes sizes.
Proof.
  pose proof (chunks_before (length sizes) (Nat.le_refl _)) as H.
  rewrite take_ge, take_ge in H by (by rewrite ?length_fmap, ?length_seq). done.
Qed.

(** The place of byte [pos]. *)
Lemma stretch_object i cs pos n :
  sizes !! i = Some cs ->
  let base := sum_sizes (take i sizes) in let fl := cs / kk in
  let fi := (pos - base) / fl in let pif := (pos - base) mod fl in
  base <= pos < base + cs -> 0 <= n -> pif + n <= fl ->
  0 <= fi < kk /\ 0 <= pif < fl /\ len (fd i (Z.to_nat fi)) = fl /\
  stretch pos n (object_data (manifest mf) fd) = stretch pif n (fd i (Z.to_nat fi)).
Proof.
  intros Hi base fl fi pif Hp Hn Hle. pose proof (desc_k _ _ Hd) as Hk.
  destruct (chunk_size_bounds i cs Hi) as [Hcs Hkf]. fold fl in Hkf.
  assert (0 < fl) as Hfl by nia.
  pose proof (Z.div_mod (pos - base) fl ltac:(lia)) as Hdm. fold fi pif in Hdm.
  pose proof (Z.mod_pos_bound (pos - base) fl Hfl) as Hpif. fold pif in Hpif.
  assert (0 <= fi < kk) as Hfi by (split; [apply Z.div_pos; lia|apply Z.div_lt_upper_bound; lia]).
  destruct (desc_fragments _ _ Hd i cs (Z.to_nat fi) Hi ltac:(lia)) as (row & f & _ & _ & Hl).
  split; [done|]. split; [done|]. split; [done|].
  pose proof (lookup_lt_Some _ _ _ Hi) as Hlt.
  unfold object_data. replace pos with (base + (pos - base)) by lia.
  assert ((chunk_data (manifest mf) fd <$> seq 0 (length sizes)) !! i
    = Some (chunk_data (manifest mf) fd i)) as Hci.
  { rewrite list_lookup_fmap, lookup_seq_lt by done. done. }
  unfold base at 1. rewrite <- chunks_before by lia.
  rewrite (stretch_concat i _ _ (pos - base) n Hci) by (rewrite ?(len_chunk_data i cs Hi); nia).
  assert ((fd i <$> seq 0 (Z.to_nat kk)) !! Z.to_nat fi = Some (fd i (Z.to_nat fi))) as Hfi'.
  { rewrite list_lookup_fmap, lookup_seq_lt by lia. done. }
  assert (len (concat (take (Z.to_nat fi) (fd i <$> seq 0 (Z.to_nat kk)))) = fi * fl) as Hb.
  { rewrite take_fmap_seq by lia. rewrite (chunk_pieces i cs Hi) by lia. fold fl. lia. }
  replace (pos - base) with (fi * fl + pif) by lia. rewrite <- Hb at 1.
  unfold chunk_data. rewrite (stretch_concat _ _ _ pif n Hfi') by (rewrite ?Hl; fold fl; lia).
  done.
Qed.

Lemma get_location_spec {ST} pos n (s : ST) :
  0 <= pos < sum_sizes sizes -> 0 < n < 2 ^ 32 ->
  exists l, get_location mf pos n s = (Ret l, s) /\ located mf fd l /\
    loc_length l <= n /\
    location_data fd l = stretch pos (loc_length l) (object_data (manifest mf) fd).
Proof.
  intros Hpos Hn. pose proof (desc_k _ _ Hd) as Hk.
  assert (Forall (fun cs => 0 <= cs) sizes) as Hsz.
  { eapply Forall_impl; [apply (desc_sizes _ _ Hd)|]. intros cs [Hcs _]. lia. }
  pose proof (desc_total _ _ Hd) as Htot.
  destruct (find_chunk_spec sizes (-1) 0 pos) as (i & cs & Hi & Hf & Hb); [lia..|done|].
  pose proof (take_S_r _ _ _ Hi) as HS. rewrite HS, sum_sizes_app in Hf. simpl in Hf, Hb.
  rewrite Z.add_0_r in Hf. replace (-1 + 1 + Z.of_nat i) with (Z.of_nat i) in Hf by lia.
  destruct (chunk_size_bounds i cs Hi) as [Hcs Hkf].
  set (base := sum_sizes (take i sizes)) in *. set (fl := cs / kk) in *.
  assert (0 <= base) as Hbase by by apply sum_sizes_nonneg, Forall_take.
  set (fi := (pos - base) / fl). set (pif := (pos - base) mod fl).
  assert (0 < fl) as Hfl by nia. assert (fl < 2 ^ 32) as Hfl32 by nia.
  pose proof (Z.mod_pos_bound (pos - base) fl Hfl) as Hpif.
  destruct (stretch_object i cs pos (Z.min n (fl - pif)) Hi) as (Hfi & _ & Hlf & Hst);
    [done|lia|fold base fl; fold pif; lia|].
  fold base fl in Hfi, Hlf, Hst. fold fi in Hfi, Hlf, Hst. fold pif in Hst.
  destruct (desc_fragments _ _ Hd i cs (Z.to_nat fi) Hi ltac:(lia)) as (row & f & Hrow & Hfr & _).
  unfold get_location, mbind, M_bind, mout. rewrite Hf. cbn [fst snd].
  rewrite Nat2Z.id, Z.add_0_l.
  unfold vec_at. rewrite Hrow, Hi.
  replace (kk =? 0) with false by (symmetry; lia). cbn [mret M_ret].
  replace (cs / kk =? 0) with false by (symmetry; fold fl; lia). fold fl. cbn [mret M_ret].
  assert (u64 (base + cs - cs) = base) as -> by (rewrite u64_small; nia).
  rewrite (pos_in_fragment_spec pos base fl) by lia.
  assert (u32 (pos - base) = pos - base) as -> by (apply u32_small; lia).
  fold fi pif. rewrite Hfr. unfold mret, M_ret.
  rewrite (u32_small (fl - pif)) by lia.
  eexists. split; [reflexivity|]. unfold located, location_data; simpl.
  rewrite Nat2Z.id.
  split; [|split; [lia|by rewrite Hst]].
  exists row, f. split_and!; try done; try lia.
Qed.

(** The loop: what it adds tiles the slice. *)
Lemma resolve_loop_tiles {ST} fuel pos n target results (s : ST) :
  0 <= pos -> 0 <= n < 2 ^ 32 -> pos + n <= sum_sizes sizes -> (Z.to_nat n <= fuel)%nat ->
  exists ls, resolve_loop fuel mf pos n target results s = (Ret (results ++ ls), s) /\
    tiled (location_data fd) (located mf fd) ls target (stretch pos n (object_data (manifest mf) fd)).
Proof.
  pose proof (desc_total _ _ Hd) as Htot.
  revert pos n target results. induction fuel as [|fuel IH]; intros pos n target results Hp Hn Hs Hf.
  { assert (n = 0) as -> by lia. exists []. rewrite app_nil_r. split; [done|constructor]. }
  simpl. destruct (Z.ltb_spec 0 n) as [Hpos|].
  2: { assert (n = 0) as -> by lia. exists []. rewrite app_nil_r. split; [done|constructor]. }
  destruct (get_location_spec pos n s) as (l & Hl & Hloc & Hle & Hdata); [lia..|].
  destruct (located_bounds _ _ _ Hloc) as (Hlpos & Hlo & Hlin).
  rewrite (bind_ret_eq _ _ _ _ _ Hl). rewrite u64_small, u32_small by lia.
  destruct (IH (pos + loc_length l) (n - loc_length l) (target + loc_length l)
    (results ++ [(target, l)])) as (ls & He & Ht); [lia..|].
  exists ((target, l) :: ls). split; [by rewrite He, <- app_assoc|].
  replace n with (loc_length l + (n - loc_length l)) by lia.
  rewrite stretch_split, <- Hdata by lia. constructor; [done|lia| |done].
  apply len_stretch; lia.
Qed.
End described.

Lemma read_locations_app data l1 l2 mm :
  read_locations data (l1 ++ l2) mm = read_locations data l2 (read_locations data l1 mm).
Proof. unfold read_locations. apply foldl_app. Qed.

(** ** Tiles *)

Lemma tiled_read osd P ls t bs mm : tiled osd P ls t bs -> read_locations osd ls mm = mem_write t bs mm.
Proof.
  intros Ht. revert mm. induction Ht as [t|t l ls rest Hl Hpos Hlen _ IH]; intros mm; [done|].
  unfold read_locations in *. simpl. by rewrite IH, mem_write_app, Hlen.
Qed.

Lemma tiled_slices_read osd P data sds ls mm :
  tiled_slices osd P data sds ls -> read_locations osd ls mm = read_slices data sds mm.
Proof.
  revert ls mm. induction sds as [|sd sds IH]; intros ls mm; [by intros ->|].
  intros (l1 & l2 & -> & H1 & H2). rewrite read_locations_app, (tiled_read _ _ _ _ _ _ H1). by apply IH.
Qed.

Lemma tiled_app osd P l1 l2 t bs1 bs2 :
  tiled osd P l1 t bs1 -> tiled osd P l2 (t + len bs1) bs2 -> tiled osd P (l1 ++ l2) t (bs1 ++ bs2).
Proof.
  induction 1 as [t|t l ls rest Hl Hpos Hlen _ IH]; simpl.
  - by rewrite len_nil, Z.add_0_r.
  - rewrite len_app, Hlen, Z.add_assoc, <- app_assoc. intros H2. constructor; auto.
Qed.

Lemma tiled_forall osd P ls t bs : tiled osd P ls t bs -> Forall (fun p => P p.2) ls.
Proof. induction 1; by constructor. Qed.
Lemma tiled_slices_forall osd P data sds ls :
  tiled_slices osd P data sds ls -> Forall (fun p => P p.2) ls.
Proof.
  revert ls. induction sds as [|sd sds IH]; intros ls; [by intros ->|].
  intros (l1 & l2 & -> & H1 & H2). apply Forall_app_2; [by eapply tiled_forall|auto].
Qed.

(** Every tile replaced with tiles of its own. *)
Lemma tiled_refine osd P d Q ls mores t bs :
  tiled d Q ls t bs -> Forall2 (fun p more => tiled osd P more p.1 (d p.2)) ls mores ->
  tiled osd P (concat mores) t bs.
Proof.
  intros Ht. revert mores. induction Ht as [t|t l ls rest Hl Hpos Hlen _ IH]; intros mores HF.
  - apply Forall2_nil_inv_l in HF as ->. constructor.
  - apply Forall2_cons_inv_l in HF as (more & mores' & H1 & H2 & ->). simpl.
    apply tiled_app; [done|]. rewrite Hlen. auto.
Qed.
Lemma tiled_slices_refine osd P d Q data sds ls mores :
  tiled_slices d Q data sds ls -> Forall2 (fun p more => tiled osd P more p.1 (d p.2)) ls mores ->
  tiled_slices osd P data sds (concat mores).
Proof.
  revert ls mores. induction sds as [|sd sds IH]; intros ls mores.
  - intros ->. by intros ->%Forall2_nil_inv_l.
  - intros (l1 & l2 & -> & H1 & H2) (m1 & m2 & HF1 & HF2 & ->)%Forall2_app_inv_l.
    exists (concat m1), (concat m2). rewrite concat_app. split; [done|]. split; [by eapply tiled_refine|eauto].
Qed.

Lemma tiled_slices_one osd P data sd ls : tiled_slices osd P data [sd] ls ->
  tiled osd P ls (buf sd) (stretch (offset sd) (sd_size sd) data).
Proof. intros (l1 & l2 & -> & H1 & ->). by rewrite app_nil_r. Qed.

Lemma tile_one osd (P : Location -> Prop) t l : P l -> 0 < loc_length l -> len (osd l) = loc_length l ->
  tiled osd P [(t, l)] t (osd l).
Proof. intros Hp Hl He. rewrite <- (app_nil_r (osd l)). constructor; [done..|]. constructor. Qed.

Lemma located_data_length mf fd l : located mf fd l -> len (location_data fd l) = loc_length l.
Proof. intros Hl. destruct (located_bounds _ _ _ Hl) as (? & ? & ?). apply len_stretch; lia. Qed.

Lemma resolve_slices_tiles {ST} mf fd sds results (s : ST) :
  describes (manifest mf) fd -> Forall (slice_inside (object_data (manifest mf) fd)) sds ->
  exists ls, resolve_slices mf sds results s = (Ret (results ++ ls), s) /\
    tiled_slices (location_data fd) (located mf fd) (object_data (manifest mf) fd) sds ls.
Proof.
  intros Hd. revert results. induction sds as [|sd sds IH]; intros results HF.
  { exists []. by rewrite app_nil_r. }
  apply Forall_cons in HF as [(Ho & Hn & Hle) HF]. rewrite len_object_data in Hle by done.
  destruct (resolve_loop_tiles mf fd Hd (Z.to_nat (sd_size sd)) (offset sd) (sd_size sd) (buf sd)
    results s Ho Hn Hle (Nat.le_refl _)) as (l1 & H1 & Ht1).
  destruct (IH (results ++ l1) HF) as (l2 & H2 & Ht2).
  exists (l1 ++ l2). split; [|by exists l1, l2]. simpl. unfold _resolve_slice_one_level.
  by rewrite (bind_ret_eq _ _ _ _ _ H1), H2, app_assoc.
Qed.

Lemma coherent_mono osd (known known' : bytes -> bytes -> ManifestWithNamespaceId -> Prop) levels name data :
  (forall a o mf, known' a o mf -> known a o mf) ->
  coherent osd known levels name data -> coherent osd known' levels name data.
Proof.
  intros Hk. revert name data. induction levels as [|alba_id deeper IH]; intros name data; [done|].
  simpl. intros Hco mf Hmf. destruct (Hco mf (Hk _ _ _ Hmf)) as (fd & Hd & Ho & Hl).
  exists fd. split; [done|]. split; [done|]. intros l Hloc. specialize (Hl l Hloc).
  destruct deeper as [|? deeper]; [done|]. destruct Hl as (nm & tail & Hnm & Hc).
  exists nm, tail. split; [done|]. by apply IH.
Qed.

Section levels_facts.
Context {B : BimapOps bytes manifest_cache_entry} {BL : Bimap B}.
Implicit Types s : ManifestCache.

Lemma elem_of_assoc (l : list (bytes * manifest_cache_entry)) key v :
  NoDup l.*1 -> (key, v) ∈ l -> assoc key l = Some v.
Proof.
  induction l as [|[k' v'] l IH]; [by intros _ ?%not_elem_of_nil|].
  simpl. intros [Hk Hnd]%NoDup_cons Hin. apply elem_of_cons in Hin as [[= -> ->]|Hin].
  { by rewrite decide_True. }
  rewrite decide_False; [by apply IH|]. intros ->. destruct Hk.
  by apply (list_elem_of_fmap_2' fst _ (k', v)).
Qed.

Lemma assoc_elem_of (l1 l2 : list (bytes * manifest_cache_entry)) key :
  NoDup l1.*1 -> NoDup l2.*1 -> (forall k v, (k, v) ∈ l1 <-> (k, v) ∈ l2) ->
  assoc key l1 = assoc key l2.
Proof.
  intros H1 H2 Hiff. destruct (assoc key l1) as [v|] eqn:E1.
  - apply assoc_Some, Hiff in E1. symmetry. by apply elem_of_assoc.
  - destruct (assoc key l2) as [v2|] eqn:E2; [|done].
    apply assoc_Some, Hiff, elem_of_assoc in E2; [congruence|done].
Qed.

(** Looking up changes the recency order and nothing a later lookup sees. *)
Lemma find_cached ns a o s :
  wf_manifest_cache s ->
  exists s', ManifestCache.find ns a o s = (Ret (cached s ns a o), s') /\ wf_manifest_cache s' /\
    forall ns' a' o', cached s' ns' a' o' = cached s ns' a' o'.
Proof.
  intros Hwf. unfold ManifestCache.find. rewrite (bind_ret_eq _ _ _ _ _ (lookup_spec ns s Hwf)).
  unfold cached, ns_entries at 1. destruct (_level1 s !! ns) as [p|] eqn:E; [|by exists s].
  destruct (find_in_spec p a o s Hwf) as (s' & Hf & Hwf' & Hl & _ & He); [by eapply wf_refs|].
  exists s'. split; [done|]. split; [done|]. intros ns' a' o'. unfold cached, ns_entries. rewrite Hl.
  destruct (_level1 s !! ns') as [q|]; [|done].
  apply assoc_elem_of; [by apply cache_entries_nodup..|]. intros k v. apply He.
Qed.

Lemma same_cached_trans s1 s2 s3 : same_cached s1 s2 -> same_cached s2 s3 -> same_cached s1 s3.
Proof. intros [_ H1] [Hw H2]. split; [done|]. intros. by rewrite H2. Qed.

Lemma stretch_app_le o n a b : 0 <= o -> o + n <= len a -> stretch o n (a ++ b) = stretch o n a.
Proof.
  intros. unfold stretch, len in *. destruct (Z.le_gt_cases 0 n).
  - rewrite drop_app_le by lia. apply take_app_le. rewrite length_drop. lia.
  - by replace (Z.to_nat n) with 0%nat by lia.
Qed.

(** One level down: every location's fragment is resolved as an object. *)
Lemma resolve_deeper_tiles osd P (F : bytes -> bytes -> option ManifestWithNamespaceId) ns fd
    (resolve : ObjectSlices -> M ManifestCache (option (list (Z * Location)))) missing mf ls acc s :
  wf_manifest_cache s -> (forall a o, cached s ns a o = F a o) ->
  Forall (fun p => located mf fd p.2) ls ->
  (forall l s, located mf fd l -> wf_manifest_cache s -> (forall a o, cached s ns a o = F a o) ->
   exists nm, fragment_cache_object_name l = Ret nm /\
   forall target, exists r s', resolve (Make_ObjectSlices nm
       [Make_SliceDescriptor target (loc_offset l) (loc_length l)]) s = (Ret r, s') /\
     same_cached s s' /\
     match r with Some more => tiled osd P more target (location_data fd l) | None => missing nm end) ->
  exists r s', resolve_deeper resolve ls acc s = (Ret r, s') /\ same_cached s s' /\
    match r with
    | Some out => exists mores, out = acc ++ concat mores /\
        Forall2 (fun p more => tiled osd P more p.1 (location_data fd p.2)) ls mores
    | None => exists l nm, located mf fd l /\ fragment_cache_object_name l = Ret nm /\ missing nm
    end.
Proof.
  intros Hwf HF Hls Hres. revert acc s Hwf HF.
  induction Hls as [|[target l] ls Hl Hls IH]; intros acc s Hwf HF.
  { exists (Some acc), s. split; [done|]. split; [done|]. exists []. by rewrite app_nil_r. }
  destruct (Hres l s Hl Hwf HF) as (nm & Hnm & Hr). destruct (Hr target) as (r & s1 & H1 & Hs1 & Hm).
  simpl. rewrite (bind_ret_eq (mout _) _ s nm s) by (unfold mout; by rewrite Hnm).
  rewrite (bind_ret_eq _ _ _ _ _ H1). destruct r as [locs|].
  2: { exists None, s1. split; [done|]. split; [done|]. by exists l, nm. }
  destruct (IH (acc ++ locs) s1) as (r & s2 & H2 & Hs2 & Hm2).
  { apply Hs1. } { intros. rewrite (proj2 Hs1). apply HF. }
  exists r, s2. split; [done|]. split; [by eapply same_cached_trans|].
  destruct r as [out|]; [|done]. destruct Hm2 as (mores & -> & Hm2).
  exists (locs :: mores). split; [by rewrite <- app_assoc|]. by constructor.
Qed.

Lemma resolve_one_level_tiles ns alba_id name sds s :
  wf_manifest_cache s ->
  exists s', same_cached s s' /\
  match cached s ns alba_id name with
  | None => _resolve_one_level alba_id ns (Make_ObjectSlices name sds) s = (Ret None, s')
  | Some mf => forall fd, describes (manifest mf) fd ->
      Forall (slice_inside (object_data (manifest mf) fd)) sds ->
      exists ls, _resolve_one_level alba_id ns (Make_ObjectSlices name sds) s = (Ret (Some ls), s') /\
        tiled_slices (location_data fd) (located mf fd) (object_data (manifest mf) fd) sds ls
  end.
Proof.
  intros Hwf. destruct (find_cached ns alba_id name s Hwf) as (s' & Hf & Hs).
  exists s'. split; [done|]. unfold _resolve_one_level. simpl.
  destruct (cached s ns alba_id name) as [mf|].
  - intros fd Hd HF. destruct (resolve_slices_tiles mf fd sds [] s' Hd HF) as (ls & Hr & Ht).
    exists ls. split; [|done]. rewrite (bind_ret_eq _ _ _ _ _ Hf). by rewrite (bind_ret_eq _ _ _ _ _ Hr).
  - by rewrite (bind_ret_eq _ _ _ _ _ Hf).
Qed.

(** [P] is what is known of the locations in cached manifests. *)
Lemma resolve_many_levels_tiles osd P F ns levels name data sds s :
  wf_manifest_cache s -> (forall a o, cached s ns a o = F a o) ->
  (forall a o mf fd l, F a o = Some mf -> describes (manifest mf) fd -> located mf fd l -> P l) ->
  coherent osd (knows F) levels name data -> Forall (slice_inside data) sds ->
  exists r s', _resolve_one_many_levels levels ns (Make_ObjectSlices name sds) s = (Ret r, s') /\
    same_cached s s' /\ resolved_tiles osd P (~ available F levels name) data sds r.
Proof.
  intros Hwf HF HP. revert name data sds s Hwf HF.
  induction levels as [|alba_id deeper IH]; intros name data sds s Hwf HF; [done|].
  intros Hco Hsds. simpl in Hco. destruct (resolve_one_level_tiles ns alba_id name sds s Hwf)
    as (s1 & Hs1 & H1). rewrite HF in H1. simpl.
  destruct (F alba_id name) as [mf|] eqn:EF.
  2: { exists None, s1. rewrite (bind_ret_eq _ _ _ _ _ H1). split; [done|]. split; [done|].
    intros (mf & Hmf & _). congruence. }
  destruct (Hco mf EF) as (fd & Hd & <- & Hl).
  destruct (H1 fd Hd Hsds) as (ls & Hr & Ht). rewrite (bind_ret_eq _ _ _ _ _ Hr).
  pose proof (tiled_slices_forall _ _ _ _ _ Ht) as Hls.
  destruct deeper as [|alba2 deeper].
  - exists (Some ls), s1. split; [done|]. split; [done|].
    assert (ls = concat ((fun p => [p]) <$> ls)) as -> by (clear; induction ls; cbn; f_equal; done).
    eapply tiled_slices_refine; [exact Ht|]. apply Forall2_fmap_r, Forall_Forall2_diag.
    eapply Forall_impl; [exact Hls|]. intros [t l] Hloc. cbn [fst snd] in *.
    rewrite <- (Hl l Hloc). apply tile_one; [by eapply HP|by destruct (located_bounds _ _ _ Hloc) as [[] _]|].
    by rewrite (Hl l Hloc), (located_data_length mf).
  - destruct (resolve_deeper_tiles osd P F ns fd (_resolve_one_many_levels (alba2 :: deeper) ns)
      (fun nm => ~ available F (alba2 :: deeper) nm) mf ls [] s1) as (r & s2 & H2 & Hs2 & Hr2); [apply Hs1| |done| |].
    { intros. rewrite (proj2 Hs1). apply HF. }
    2: { exists r, s2. split; [exact H2|]. split; [by eapply same_cached_trans|].
      destruct r as [out|].
      - destruct Hr2 as (mores & -> & Hmore). by eapply tiled_slices_refine.
      - destruct Hr2 as (l & nm & Hloc & Hnm & Hno). intros (mf' & Hmf' & Hav). apply Hno.
        assert (mf' = mf) as -> by congruence. by eapply Hav. }
    intros l s2 Hloc Hwf2 HF2. destruct (Hl l Hloc) as (nm & tail & Hnm & Hdeep).
    exists nm. split; [done|]. intros target. destruct (located_bounds _ _ _ Hloc) as (Hp & Ho & Hle).
    destruct (IH nm _ [Make_SliceDescriptor target (loc_offset l) (loc_length l)] s2 Hwf2 HF2 Hdeep)
      as (r & s3 & H3 & Hs3 & Hr3).
    { constructor; [|done]. unfold slice_inside; simpl. rewrite len_app.
      pose proof (len_nonneg tail). lia. }
    exists r, s3. split; [exact H3|]. split; [done|]. destruct r as [more|]; [|done].
    apply tiled_slices_one in Hr3. cbn [buf offset sd_size] in Hr3.
    unfold location_data. by rewrite stretch_app_le in Hr3.
Qed.

Lemma resolve_many_levels_spec osd F ns levels name data sds s :
  wf_manifest_cache s -> (forall a o, cached s ns a o = F a o) ->
  coherent osd (knows F) levels name data -> Forall (slice_inside data) sds ->
  exists r s', _resolve_one_many_levels levels ns (Make_ObjectSlices name sds) s = (Ret r, s') /\
    same_cached s s' /\ resolved osd (~ available F levels name) (read_slices data sds) r.
Proof.
  intros Hwf HF Hco Hsds.
  destruct (resolve_many_levels_tiles osd (fun _ => True) F ns levels name data sds s Hwf HF
    (fun _ _ _ _ _ _ _ _ => I) Hco Hsds) as (r & s' & Hr & Hs & Ht).
  exists r, s'. split; [done|]. split; [done|]. destruct r as [ls|]; [|done].
  intros mm. by eapply tiled_slices_read.
Qed.
End levels_facts.
Lemma two_chunks_described : describes (manifest two_chunks) two_chunks_data.
Proof.
  split; simpl; [lia| |lia|].
  - repeat constructor; try lia; [by exists 2|by exists 1].
  - intros [|[|i]] cs j Hi Hj; simplify_eq/=; (destruct j as [|[|j]]; [| |lia]);
      do 2 eexists; split_and!; reflexivity.
Qed.

(** ** Properties *)

(** C7: resolving the slices of an object through any number of levels of fragment
    caches: if the manifests in the cache are true, the result is a list of locations
    whose reads, on the OSDs of the last level, leave in memory exactly the slices of
    the object; or nothing, and then not every manifest under the object is in the
    cache.  The cache finds afterwards what it found before. *)
Theorem resolve_levels_reads_slices {B : BimapOps bytes manifest_cache_entry} {BL : Bimap B}
    osd ns levels data obj_slices (s : ManifestCache) :
  wf_manifest_cache s ->
  coherent osd (knows (cached s ns)) levels (object_name obj_slices) data ->
  Forall (slice_inside data) (slices obj_slices) ->
  exists r s', _resolve_one_many_levels levels ns obj_slices s = (Ret r, s') /\
    same_cached s s' /\
    resolved osd (~ available (cached s ns) levels (object_name obj_slices))
      (read_slices data (slices obj_slices)) r.
Proof. intros Hwf Hco Hs. destruct obj_slices. by apply resolve_many_levels_spec. Qed.

Lemma resolve_levels_reads_slices_witness :
  let s := run_steps (B := list_bimap_ops) getInstance
    [StepLookupOrCreate (str "ns"); StepAddTo 1%positive (str "alba") two_chunks] in
  exists ls s', _resolve_one_many_levels [str "alba"] (str "ns")
      (Make_ObjectSlices (str "obj") [Make_SliceDescriptor 100 1 4]) s = (Ret (Some ls), s') /\
    read_locations (location_data two_chunks_data) ls ∅ = mem_write 100 (str "bcde") ∅.
Proof.
  intros s.
  destruct (resolve_levels_reads_slices (location_data two_chunks_data) (str "ns") [str "alba"]
    (object_data (manifest two_chunks) two_chunks_data)
    (Make_ObjectSlices (str "obj") [Make_SliceDescriptor 100 1 4]) s) as (r & s' & H & _ & Hr).
  - apply run_steps_wf; [apply getInstance_wf|]. split; [exact I|]. split; [|exact I].
    by eexists.
  - intros mf Hmf. assert (mf = two_chunks) as -> by (vm_compute in Hmf; by injection Hmf as <-).
    exists two_chunks_data. split; [apply two_chunks_described|]. by split.
  - constructor; [|constructor]. repeat split; vm_compute; congruence.
  - destruct r as [ls|].
    + exists ls, s'. split; [exact H|]. rewrite (Hr ∅). reflexivity.
    + exfalso. apply (f_equal fst) in H. vm_compute in H. discriminate H.
Defined.

(** C8: resolving a slice inside an object terminates and tiles it: the locations
    name fragments of the manifest, each lies within its fragment, and reading every
    location into its own address leaves in memory exactly the slice's bytes of the
    object at the slice's address.  This holds across chunk and fragment borders and
    with the code's 32-bit and 64-bit arithmetic. *)
Theorem resolve_slice_reads_slice {ST} (mf : ManifestWithNamespaceId) fd offset n target (s : ST) :
  describes (manifest mf) fd -> 0 <= offset -> 0 <= n < 2 ^ 32 ->
  offset + n <= sum_sizes (chunk_sizes (manifest mf)) ->
  exists ls, _resolve_slice_one_level [] mf offset n target s = (Ret ls, s) /\
    Forall (fun p => located mf fd p.2) ls /\
    forall mm, read_locations (location_data fd) ls mm
      = mem_write target (stretch offset n (object_data (manifest mf) fd)) mm.
Proof.
  intros Hd Ho Hn Hs. destruct (resolve_loop_tiles mf fd Hd (Z.to_nat n) offset n target [] s)
    as (ls & He & Ht); [done..|]. exists ls. split; [done|]. split; [by eapply tiled_forall|].
  intros mm. by eapply tiled_read.
Qed.

Lemma resolve_slice_reads_slice_witness :
  exists ls, _resolve_slice_one_level [] two_chunks 1 4 100 tt = (Ret ls, tt) /\
    (loc_fragment_location ∘ snd <$> ls) = [(Some 10, 0); (Some 11, 0); (Some 13, 0)] /\
    read_locations (location_data two_chunks_data) ls ∅ = mem_write 100 (str "bcde") ∅.
Proof.
  destruct (resolve_slice_reads_slice two_chunks two_chunks_data 1 4 100 tt two_chunks_described)
    as (ls & H & _ & Hm); [lia..|simpl; lia|].
  exists ls. split; [exact H|]. split; [|rewrite (Hm ∅); reflexivity].
  vm_compute in H. injection H as <-. reflexivity.
Defined.
