(* ===== verification/OsdAccess.v ===== *)
(** * Access to the OSDs: [osd_access.h] and [osd_access.cc]

    The singleton keeps what the proxy last told about the OSDs of every level and a
    pool of connections per ASD.  [update] asks the proxy again; concurrent callers
    are meant to wait for the one that does, which the step relation [update_step]
    models atomic action by atomic action.  [read_osds_slices] reads slices straight
    from the ASDs. *)

From S2P Require Import Prelude Llio Stuff AlbaCommon OsdInfo ProxyProtocol Transport TransportHelper.
From S2P Require Import AsdProtocol AsdClient ConnectionPool.

Local Open Scope Z_scope.
Local Open Scope alba_scope.

Record asd_slice := Make_asd_slice {
  as_key : bytes; as_offset : Z; as_len : Z; as_target : Z }.
Definition print_asd_slice : printer asd_slice := fun s =>
  str "asd_slice{ _" ++ str ", " ++ dec (as_offset s) ++ str ", " ++ dec (as_len s) ++ str ", _"
    ++ str "}".

Section access.
Context {T W : Type} `{Transport T} `{World T W}.

Record OsdAccess := Make_OsdAccess {
  _connection_pool_size : Z;
  _timeout : Z;
  _osd_maps_mutex : bool;
  _osd_maps : osd_maps_t;
  _alba_levels : list alba_id_t;
  asd_connection_pools : ConnectionPools T;
  _filling : bool;
  _filling_mutex : bool }.
Definition new_OsdAccess (connection_pool_size timeout : Z) : OsdAccess :=
  Make_OsdAccess connection_pool_size timeout false [] [] (Make_ConnectionPools false ∅) false false.

(** The static instance; later calls' arguments are ignored. *)
Definition getInstance (connection_pool_size timeout : Z) : M (option OsdAccess) OsdAccess :=
  fun instance =>
    let a := default (new_OsdAccess connection_pool_size timeout) instance in (Ret a, Some a).

Definition set_maps (maps : osd_maps_t) (levels : list alba_id_t) (a : OsdAccess) : OsdAccess :=
  Make_OsdAccess (_connection_pool_size a) (_timeout a) (_osd_maps_mutex a) maps levels
    (asd_connection_pools a) (_filling a) (_filling_mutex a).
Definition set_filling (b : bool) (a : OsdAccess) : OsdAccess :=
  Make_OsdAccess (_connection_pool_size a) (_timeout a) (_osd_maps_mutex a) (_osd_maps a)
    (_alba_levels a) (asd_connection_pools a) b (_filling_mutex a).
Definition set_maps_mutex (b : bool) (a : OsdAccess) : OsdAccess :=
  Make_OsdAccess (_connection_pool_size a) (_timeout a) b (_osd_maps a)
    (_alba_levels a) (asd_connection_pools a) (_filling a) (_filling_mutex a).
Definition set_filling_mutex (b : bool) (a : OsdAccess) : OsdAccess :=
  Make_OsdAccess (_connection_pool_size a) (_timeout a) (_osd_maps_mutex a) (_osd_maps a)
    (_alba_levels a) (asd_connection_pools a) (_filling a) b.
Definition set_pools (p : ConnectionPools T) (a : OsdAccess) : OsdAccess :=
  Make_OsdAccess (_connection_pool_size a) (_timeout a) (_osd_maps_mutex a) (_osd_maps a)
    (_alba_levels a) p (_filling a) (_filling_mutex a).

(** ** What is known of the OSDs *)

(** [_osd_maps[_osd_maps.size() - 1]]; with no level at all this is undefined. *)
Definition last_map : M OsdAccess osd_map_t :=
  maps ← gets _osd_maps;
  match last maps with Some p => mret (snd p) | None => mout Undef end.
Definition osd_is_unknown (osd : osd_t) : M OsdAccess bool :=
  lock_guard _osd_maps_mutex set_maps_mutex
    (map ← last_map; mret (bool_decide (map !! osd = None))).
Definition _find_osd (osd : osd_t) : M OsdAccess (option info_caps) :=
  lock_guard _osd_maps_mutex set_maps_mutex (map ← last_map; mret (map !! osd)).

(** [client.osd_info2] is a virtual call. *)
Section update.
Context {C : Type} (osd_info2 : osd_maps_t -> M C osd_maps_t).
Abbreviation client_state := (OsdAccess * C)%type.

(** The [try] block: both vectors are replaced together, after the call. *)
Definition fill : M client_state unit :=
  lock_guard (fun s => _osd_maps_mutex s.1) (fun b s => (set_maps_mutex b s.1, s.2))
    (infos ← zoom snd (fun c s => (s.1, c)) (osd_info2 []);
     modify (fun s => (set_maps infos (fst <$> infos) s.1, s.2))).

(** Waiting on the condition is for another thread to end; in a run of one thread
    the flag is clear whenever [update] is entered. *)
Definition update : M client_state bool :=
  filling ← gets (fun s => _filling s.1);
  lock_guard (fun s => _filling_mutex s.1) (fun b s => (set_filling_mutex b s.1, s.2))
    (if negb filling then
       filling ← gets (fun s => _filling s.1);
       if negb filling then
         modify (fun s => (set_filling true s.1, s.2)) ;;
         result ← try_catch (fill ;; mret true)
           (fun e => if is_std_exception e then mret false else mthrow e);
         modify (fun s => (set_filling false s.1, s.2)) ;;
         mret result
       else mret true
     else
       filling ← gets (fun s => _filling s.1);
       if filling : bool then mout Undef else mret true).

Definition get_alba_levels : M client_state (list alba_id_t) :=
  levels ← gets (fun s => _alba_levels s.1);
  (if len levels =? 0 then
     ok ← update;
     guard (ok : bool) orelse ExnOsdAccess (Osd_access_exception (u32 (-1))
       (str "initial update of osd infos in osd_access failed"))
   else mret tt) ;;
  gets (fun s => _alba_levels s.1).
End update.

(** ** Reading *)

(** The access object, the network and the memory slices are read into. *)
Abbreviation read_state := (OsdAccess * W * mem)%type.
Definition on_access {A} (m : M OsdAccess A) : M read_state A :=
  zoom (fun s => s.1.1) (fun a s => (a, s.1.2, s.2)) m.
Definition on_pools {A} (m : M (ConnectionPools T) A) : M read_state A :=
  on_access (zoom asd_connection_pools set_pools m).
(** A method of the pool behind a [ConnectionPool *]. *)
Definition on_pool {A} (p : bytes) (m : M (ConnectionPool T * W) A) : M read_state A := fun s =>
  let pools := asd_connection_pools s.1.1 in
  match connection_pools_ pools !! p with
  | None => (Undef, s)
  | Some pool =>
      let '(o, (pool, w)) := m (pool, s.1.2) in
      (o, (set_pools (Make_ConnectionPools (pools_mutex pools)
                        (<[p := pool]> (connection_pools_ pools))) s.1.1, w, s.2))
  end.

(** One [partial_get] per slice. *)
Definition get_slices (slices : list asd_slice) : M (Asd_client T * mem) unit :=
  for_each (fun s => partial_get (as_key s) [Make_slice (as_offset s) (as_len s) (as_target s)])
    slices.

(** The [try] block and its handler.  On every way out but the first the connection
    is destroyed with its [unique_ptr]; the failure is reported without the lock. *)
Definition use_connection (p : bytes) (c : Asd_client T) (slices : list asd_slice) :
    M read_state Z := fun s =>
  let '(o, (c, mm)) := get_slices slices (c, s.2) in
  match o with
  | Ret _ => (on_pool p (release_connection (Some c)) ;; mret 0) (s.1, mm)
  | Throw e =>
      if is_std_exception e then
        (on_pool p (report_failure ;; destroy_client c) ;; mret (-1)) (s.1, mm)
      else (on_pool p (destroy_client c) ;; mthrow e) (s.1, mm)
  | Abort => (Abort, (s.1, mm))
  | Undef => (Undef, (s.1, mm))
  end.

Definition _read_osd_slices_asd_direct_path (osd : osd_t) (slices : list asd_slice) :
    M read_state Z :=
  maybe_ic ← on_access (_find_osd osd);
  match maybe_ic with
  | None => mret (-1)
  | Some ic =>
      a ← gets (fun s => s.1.1);
      p ← on_pools (get_connection_pool (fst ic) (_connection_pool_size a) (_timeout a));
      match p with
      | None => mret (-1)
      | Some p =>
          connection ← on_pool p get_connection;
          match connection with
          | Some c => use_connection p c slices
          | None => mret (-2)
          end
      end
  end.

(** [per_osd] in the order of its keys; the first failure ends the loop. *)
Fixpoint read_osds_slices (per_osd : list (osd_t * list asd_slice)) : M read_state Z :=
  match per_osd with
  | [] => mret 0
  | (osd, osd_slices) :: per_osd =>
      rc ← _read_osd_slices_asd_direct_path osd osd_slices;
      if negb (rc =? 0) then mret rc else read_osds_slices per_osd
  end.
End access.
Arguments OsdAccess : clear implicits.

(** ** Concurrent updates *)

(** Where a thread is in [update]. *)
Inductive update_pc :=
  | Start
  | LockFill | CheckFill | SetFilling | Filling | ClearFilling (r : bool) | NotifyAll (r : bool)
  | LockWait | WaitTest | Asleep
  | Unlock (r : bool) | UnlockEscaping
  | Finished (r : option bool).

(** The flag, the holder of [_filling_mutex], the threads, and whether an exception
    that is no [std::exception] has left [update]. *)
Record updates := Updates {
  u_filling : bool; u_mutex : option nat; u_pcs : list update_pc; u_escaped : bool }.

Definition wake (pc : update_pc) : update_pc := match pc with Asleep => LockWait | _ => pc end.

Inductive update_step : updates -> updates -> Prop :=
  | Load_clear m pcs e t : pcs !! t = Some Start ->
      update_step (Updates false m pcs e) (Updates false m (<[t := LockFill]> pcs) e)
  | Load_set m pcs e t : pcs !! t = Some Start ->
      update_step (Updates true m pcs e) (Updates true m (<[t := LockWait]> pcs) e)
  | Lock_fill f pcs e t : pcs !! t = Some LockFill ->
      update_step (Updates f None pcs e) (Updates f (Some t) (<[t := CheckFill]> pcs) e)
  | Check_clear m pcs e t : pcs !! t = Some CheckFill ->
      update_step (Updates false m pcs e) (Updates false m (<[t := SetFilling]> pcs) e)
  | Check_set m pcs e t : pcs !! t = Some CheckFill ->
      update_step (Updates true m pcs e) (Updates true m (<[t := Unlock true]> pcs) e)
  | Store_filling f m pcs e t : pcs !! t = Some SetFilling ->
      update_step (Updates f m pcs e) (Updates true m (<[t := Filling]> pcs) e)
  | Fill_caught f m pcs e t r : pcs !! t = Some Filling ->
      update_step (Updates f m pcs e) (Updates f m (<[t := ClearFilling r]> pcs) e)
  | Fill_escapes f m pcs e t : pcs !! t = Some Filling ->
      update_step (Updates f m pcs e) (Updates f m (<[t := UnlockEscaping]> pcs) true)
  | Store_clear f m pcs e t r : pcs !! t = Some (ClearFilling r) ->
      update_step (Updates f m pcs e) (Updates false m (<[t := NotifyAll r]> pcs) e)
  | Notify f m pcs e t r : pcs !! t = Some (NotifyAll r) ->
      update_step (Updates f m pcs e) (Updates f m (<[t := Unlock r]> (wake <$> pcs)) e)
  | Lock_wait f pcs e t : pcs !! t = Some LockWait ->
      update_step (Updates f None pcs e) (Updates f (Some t) (<[t := WaitTest]> pcs) e)
  | Wait_done m pcs e t : pcs !! t = Some WaitTest ->
      update_step (Updates false m pcs e) (Updates false m (<[t := Unlock true]> pcs) e)
  | Wait_sleep m pcs e t : pcs !! t = Some WaitTest ->
      update_step (Updates true m pcs e) (Updates true None (<[t := Asleep]> pcs) e)
  | Spurious f m pcs e t : pcs !! t = Some Asleep ->
      update_step (Updates f m pcs e) (Updates f m (<[t := LockWait]> pcs) e)
  | Unlock_mutex f m pcs e t r : pcs !! t = Some (Unlock r) ->
      update_step (Updates f m pcs e) (Updates f None (<[t := Finished (Some r)]> pcs) e)
  | Unlock_escaping f m pcs e t : pcs !! t = Some UnlockEscaping ->
      update_step (Updates f m pcs e) (Updates f None (<[t := Finished None]> pcs) e).

(** [n] threads enter [update]. *)
Definition updates_start (n : nat) : updates := Updates false None (replicate n Start) false.

(** Inside the critical section of [_filling_mutex]; and between setting and clearing
    the flag. *)
Definition holds_mutex (pc : update_pc) : bool :=
  match pc with
  | CheckFill | SetFilling | Filling | ClearFilling _ | NotifyAll _ | WaitTest
  | Unlock _ | UnlockEscaping => true
  | _ => false
  end.
Definition is_filling (pc : update_pc) : bool :=
  match pc with Filling | ClearFilling _ => true | _ => false end.
Definition is_finished (pc : update_pc) : bool :=
  match pc with Finished _ => true | _ => false end.
(** Atomic actions left, when nobody sleeps. *)
Definition actions_left (pc : update_pc) : nat :=
  match pc with
  | Start => 8 | LockFill => 7 | CheckFill => 6 | SetFilling => 5 | Filling => 4
  | ClearFilling _ => 3 | NotifyAll _ => 2 | LockWait => 3 | WaitTest => 2 | Asleep => 0
  | Unlock _ | UnlockEscaping => 1 | Finished _ => 0
  end.

(** The invariant: the holder of the mutex is the one thread that is inside; and
    until something escapes, the flag is set exactly while a thread inside fills. *)
Record wf_updates (u : updates) : Prop := {
  wu_holder t pc : u_pcs u !! t = Some pc -> (holds_mutex pc = true <-> u_mutex u = Some t);
  wu_thread t : u_mutex u = Some t -> is_Some (u_pcs u !! t);
  wu_awake t pc : u_escaped u = false -> u_pcs u !! t = Some pc ->
    pc <> Asleep /\ pc <> UnlockEscaping /\ (is_filling pc = true -> u_filling u = true);
  wu_filling : u_escaped u = false -> u_filling u = true ->
    exists t pc, u_pcs u !! t = Some pc /\ is_filling pc = true }.

(** The slices of one OSD, against a connection that has the answers: each request
    is answered with success and the slice's bytes. *)
Definition answer (d : bytes) : bytes := Transport.frame (enc_int 4 0 ++ enc_bool true) ++ d.
Definition asd_slice_ok (s : asd_slice) (d : bytes) : Prop :=
  valid_int 32 (as_offset s) /\ valid_int 32 (as_len s) /\ len d = as_len s /\
  as_len s < 2 ^ 31 /\ len (as_key s) < 2 ^ 30.
Definition write_asd_slices (slices : list asd_slice) (datas : list bytes) (mm : mem) : mem :=
  foldl (fun mm p => mem_write (as_target p.1) p.2 mm) mm (zip slices datas).

(** ** Facts *)

Lemma filling_holds pc : is_filling pc = true -> holds_mutex pc = true.
Proof. by destruct pc. Qed.

(** A thread moves without entering or leaving the critical section, and without
    touching the flag unless it is the one that fills. *)
Lemma move_wf f f' m pcs e e' t pc pc' :
  wf_updates (Updates f m pcs e) -> pcs !! t = Some pc ->
  (e' = false -> e = false) ->
  holds_mutex pc' = holds_mutex pc ->
  (e' = false -> pc' <> Asleep /\ pc' <> UnlockEscaping) ->
  (f' = f /\ is_filling pc' = is_filling pc \/ e' = true \/
   holds_mutex pc = true /\ f' = is_filling pc') ->
  wf_updates (Updates f' m (<[t := pc']> pcs) e').
Proof.
  intros [Hh Ht Ha Hf] Hpc He Hhm Hns Hfl; simpl in *.
  pose proof (lookup_lt_Some _ _ _ Hpc) as Hlt. split; simpl.
  - intros t' q. rewrite list_lookup_insert_Some. intros [(<- & <- & _)|[Hne Hq]]; [|by apply Hh].
    rewrite Hhm. by apply Hh.
  - intros t' Hm. destruct (decide (t = t')) as [<-|].
    + rewrite list_lookup_insert_eq by done. by eexists.
    + rewrite list_lookup_insert_ne by done. by apply Ht.
  - intros t' q He'. rewrite list_lookup_insert_Some. intros [(<- & <- & _)|[Hne Hq]].
    + destruct (Hns He') as [? ?]. split_and!; [done|done|]. intros Hq.
      destruct Hfl as [[-> E]|[?|[_ ->]]]; [|congruence|done].
      rewrite Hq in E. by apply (Ha t pc (He He') Hpc).
    + destruct (Ha t' q (He He') Hq) as (? & ? & Hq'). split_and!; [done|done|]. intros Hqf.
      destruct Hfl as [[-> _]|[?|[Hhold _]]]; [by apply Hq'|congruence|].
      apply filling_holds in Hqf. apply (Hh t' q Hq) in Hqf. apply (Hh t pc Hpc) in Hhold. congruence.
  - intros He' Hf'. destruct Hfl as [[-> E]|[?|[Hhold ->]]]; [|congruence|].
    + destruct (Hf (He He') Hf') as (t' & q & Hq & Hqf). destruct (decide (t = t')) as [<-|].
      * exists t, pc'. rewrite list_lookup_insert_eq by done. split; [done|]. congruence.
      * exists t', q. by rewrite list_lookup_insert_ne.
    + exists t, pc'. by rewrite list_lookup_insert_eq.
Qed.

(** A thread enters the critical section, which is free, or leaves it. *)
Lemma enter_wf f pcs e t pc pc' :
  wf_updates (Updates f None pcs e) -> pcs !! t = Some pc -> is_filling pc = false ->
  holds_mutex pc' = true -> is_filling pc' = false -> pc' <> UnlockEscaping ->
  wf_updates (Updates f (Some t) (<[t := pc']> pcs) e).
Proof.
  intros [Hh Ht Ha Hf] Hpc Hpf Hh' Hf' Hne'; simpl in *.
  pose proof (lookup_lt_Some _ _ _ Hpc) as Hlt. split; simpl.
  - intros t' q. rewrite list_lookup_insert_Some. intros [(<- & <- & _)|[Hne Hq]]; [by rewrite Hh'|].
    rewrite (Hh t' q Hq). naive_solver.
  - intros t' [= <-]. rewrite list_lookup_insert_eq by done. by eexists.
  - intros t' q He. rewrite list_lookup_insert_Some. intros [(<- & <- & _)|[Hne Hq]]; [|by eapply Ha].
    split_and!; [by intros ->|done|congruence].
  - intros He Hff. destruct (Hf He Hff) as (t' & q & Hq & Hqf).
    apply filling_holds, (Hh t' q Hq) in Hqf. done.
Qed.

Lemma leave_wf f m pcs e t pc pc' :
  wf_updates (Updates f m pcs e) -> pcs !! t = Some pc -> holds_mutex pc = true ->
  is_filling pc = false -> holds_mutex pc' = false -> (e = false -> pc' <> Asleep) ->
  wf_updates (Updates f None (<[t := pc']> pcs) e).
Proof.
  intros [Hh Ht Ha Hf] Hpc Hpf Hfl Hh' Hne'; simpl in *.
  pose proof (lookup_lt_Some _ _ _ Hpc) as Hlt. assert (m = Some t) as -> by by apply (Hh t pc). split; simpl.
  - intros t' q. rewrite list_lookup_insert_Some. intros [(<- & <- & _)|[Hne Hq]]; [by rewrite Hh'|].
    rewrite (Hh t' q Hq). naive_solver.
  - done.
  - intros t' q He. rewrite list_lookup_insert_Some. intros [(<- & <- & _)|[Hne Hq]]; [|by eapply Ha].
    split_and!; [by apply Hne'|by intros ->|]. intros Hq. apply filling_holds in Hq. congruence.
  - intros He Hff. destruct (Hf He Hff) as (t' & q & Hq & Hqf).
    destruct (decide (t = t')) as [<-|]; [congruence|].
    exists t', q. by rewrite list_lookup_insert_ne.
Qed.

Lemma wake_wf f m pcs e :
  wf_updates (Updates f m pcs e) -> wf_updates (Updates f m (wake <$> pcs) e).
Proof.
  intros [Hh Ht Ha Hf]; simpl in *. split; simpl.
  - intros t pc. rewrite list_lookup_fmap. destruct (pcs !! t) as [q|] eqn:E; [|done].
    intros [= <-]. rewrite <- (Hh t q E). by destruct q.
  - intros t Hm. rewrite list_lookup_fmap. by apply fmap_is_Some, Ht.
  - intros t pc He. rewrite list_lookup_fmap. destruct (pcs !! t) as [q|] eqn:E; [|done].
    intros [= <-]. destruct (Ha t q He E) as (? & ? & ?). by destruct q.
  - intros He Hff. destruct (Hf He Hff) as (t & q & Hq & Hqf). exists t, (wake q).
    rewrite list_lookup_fmap, Hq. split; [done|]. by destruct q.
Qed.

Lemma update_step_wf u u' : update_step u u' -> wf_updates u -> wf_updates u'.
Proof.
  intros Hs Hwf. destruct Hs as [m pcs e t Hpc|m pcs e t Hpc|f pcs e t Hpc|m pcs e t Hpc|m pcs e t Hpc
    |f m pcs e t Hpc|f m pcs e t r Hpc|f m pcs e t Hpc|f m pcs e t r Hpc|f m pcs e t r Hpc
    |f pcs e t Hpc|m pcs e t Hpc|m pcs e t Hpc|f m pcs e t Hpc|f m pcs e t r Hpc|f m pcs e t Hpc].
  all: try (eapply enter_wf; by eauto).
  all: try (eapply leave_wf; by eauto).
  all: try (eapply move_wf; by eauto).
  all: try (eapply move_wf; by naive_solver).
  - eapply (move_wf f f m _ e e t (NotifyAll r)); [by apply wake_wf| |done..|by left].
    by rewrite list_lookup_fmap, Hpc.
  - eapply leave_wf; [done..|]. intros ->. exfalso. destruct Hwf as [Hh Ht Ha Hf]; simpl in *.
    destruct (Hf eq_refl eq_refl) as (t' & q & Hq & Hqf).
    pose proof (proj1 (Hh t' q Hq) (filling_holds q Hqf)) as H1.
    pose proof (proj1 (Hh t WaitTest Hpc) eq_refl) as H2.
    assert (t' = t) as -> by congruence. rewrite Hpc in Hq. by injection Hq as <-.
Qed.

Lemma updates_start_wf n : wf_updates (updates_start n).
Proof.
  split; simpl; try done.
  - intros t pc Hpc. apply lookup_replicate in Hpc as [-> _]. done.
  - intros t pc _ Hpc. apply lookup_replicate in Hpc as [-> _]. done.
Qed.

Lemma escaped_stays u u' : update_step u u' -> u_escaped u' = false -> u_escaped u = false.
Proof. by destruct 1. Qed.

Lemma sum_list_with_insert {A} (f : A -> nat) l i x y :
  l !! i = Some x -> (sum_list_with f (<[i := y]> l) + f x = sum_list_with f l + f y)%nat.
Proof.
  revert i. induction l as [|a l IH]; intros [|i] Hi; simplify_eq/=; [lia|].
  specialize (IH i Hi). lia.
Qed.

(** Every atomic action brings the end nearer. *)
Lemma update_step_decreases u u' :
  update_step u u' -> wf_updates u -> u_escaped u = false ->
  (sum_list_with actions_left (u_pcs u') < sum_list_with actions_left (u_pcs u))%nat.
Proof.
  intros Hs Hwf He. destruct Hs as [m pcs e t Hpc|m pcs e t Hpc|f pcs e t Hpc|m pcs e t Hpc|m pcs e t Hpc
    |f m pcs e t Hpc|f m pcs e t r Hpc|f m pcs e t Hpc|f m pcs e t r Hpc|f m pcs e t r Hpc
    |f pcs e t Hpc|m pcs e t Hpc|m pcs e t Hpc|f m pcs e t Hpc|f m pcs e t r Hpc|f m pcs e t Hpc]; simpl in *.
  10: { assert (wake <$> pcs = pcs) as ->.
    { rewrite <- (list_fmap_id pcs) at 2. apply list_fmap_ext. intros i pc Hi.
      destruct (wu_awake _ Hwf i pc He Hi). by destruct pc. }
    pose proof (sum_list_with_insert actions_left pcs t _ (Unlock r) Hpc). simpl in *. lia. }
  13: { by destruct (wu_awake _ Hwf t Asleep He Hpc). }
  all: match goal with |- (sum_list_with _ (<[_ := ?y]> _) < _)%nat =>
    pose proof (sum_list_with_insert actions_left pcs t _ y Hpc) end; simpl in *; lia.
Qed.

(** As long as a thread has not finished, some thread can act. *)
Lemma update_progress u t pc :
  wf_updates u -> u_escaped u = false -> u_pcs u !! t = Some pc -> is_finished pc = false ->
  exists u', update_step u u'.
Proof.
  destruct u as [f m pcs e]; simpl. intros Hwf -> Hpc Hnf.
  destruct m as [h|].
  - destruct (wu_thread _ Hwf h eq_refl) as [q Hq]; simpl in Hq.
    pose proof (proj2 (wu_holder _ Hwf h q Hq) eq_refl) as Hh.
    destruct q as [| | | | |r|r| | | |r| |r]; try discriminate Hh.
    + destruct f; eexists; [exact (Check_set _ _ _ _ Hq)|exact (Check_clear _ _ _ _ Hq)].
    + eexists. exact (Store_filling _ _ _ _ _ Hq).
    + eexists. exact (Fill_caught _ _ _ _ _ true Hq).
    + eexists. exact (Store_clear _ _ _ _ _ _ Hq).
    + eexists. exact (Notify _ _ _ _ _ _ Hq).
    + destruct f; eexists; [exact (Wait_sleep _ _ _ _ Hq)|exact (Wait_done _ _ _ _ Hq)].
    + eexists. exact (Unlock_mutex _ _ _ _ _ _ Hq).
    + eexists. exact (Unlock_escaping _ _ _ _ _ Hq).
  - pose proof (wu_holder _ Hwf t pc Hpc) as Hh; simpl in Hh.
    destruct (wu_awake _ Hwf t pc eq_refl Hpc) as (Ha & _).
    destruct pc as [| | | | |r|r| | | |r| |r]; try discriminate (proj1 Hh eq_refl); try done.
    + destruct f; eexists; [exact (Load_set _ _ _ _ Hpc)|exact (Load_clear _ _ _ _ Hpc)].
    + eexists. exact (Lock_fill _ _ _ _ Hpc).
    + eexists. exact (Lock_wait _ _ _ _ Hpc).
Qed.

Lemma updates_run n k u :
  nsteps update_step k (updates_start n) u -> wf_updates u /\
  (u_escaped u = false -> k + sum_list_with actions_left (u_pcs u) <= 8 * n)%nat.
Proof.
  revert u. induction k as [|k IH]; intros u Hn.
  - inversion Hn; subst. split; [apply updates_start_wf|]. intros _. simpl.
    clear Hn. induction n as [|n IHn]; simpl in *; lia.
  - apply nsteps_inv_r in Hn as (u1 & Hn & Hs). destruct (IH u1 Hn) as [Hwf Hle].
    split; [by eapply update_step_wf|]. intros He. pose proof (escaped_stays _ _ Hs He) as He1.
    pose proof (update_step_decreases _ _ Hs Hwf He1). specialize (Hle He1). lia.
Qed.

Section reading.
Context `{RT : ReliableTransport T} {W : Type} {WW : World T W}.

Lemma get_slices_spec slices datas rest (c : Asd_client T) mm :
  asd_idle c -> Forall2 asd_slice_ok slices datas ->
  incoming (AsdClient._transport c) = concat (answer <$> datas) ++ rest ->
  exists c', get_slices slices (c, mm) = (Ret tt, (c', write_asd_slices slices datas mm)) /\
    asd_idle c' /\ incoming (AsdClient._transport c') = rest.
Proof.
  intros Hi HF. revert c mm Hi. unfold write_asd_slices.
  induction HF as [|s d slices datas (Ho & Hl & Hd & Hs & Hk) HF IH]; intros c mm Hi Hin.
  { exists c. by split_and!. }
  change (concat (answer <$> d :: datas)) with (answer d ++ concat (answer <$> datas)) in Hin.
  unfold answer at 1 in Hin. rewrite <- !app_assoc in Hin.
  destruct (partial_get_spec c mm (as_key s) [Make_slice (as_offset s) (as_len s) (as_target s)]
    [d] true (concat (answer <$> datas) ++ rest)) as (c1 & H1 & Hi1 & Hin1 & _).
  - done.
  - constructor; [by split|constructor].
  - unfold enc_asd_request, enc_string, enc_slice, enc_int, len in *. cbn [concat fmap list_fmap].
    repeat (rewrite length_app || rewrite length_le_split). cbn [length]. lia.
  - constructor; [simpl; lia|constructor].
  - rewrite Hin. cbn [concat]. by rewrite app_nil_r.
  - destruct (IH c1 (mem_write (as_target s) d mm) Hi1 Hin1) as (c' & H2 & Hi2 & Hin2).
    exists c'. split; [|done]. unfold get_slices in *. simpl.
    by rewrite (bind_ret_eq _ _ _ _ _ H1).
Qed.

(** Operations on a pool that is there and free. *)
Lemma on_pool_eq {A} key (m : M (ConnectionPool T * W) A) pool o pool' w' a w mm :
  connection_pools_ (asd_connection_pools a) !! key = Some pool ->
  m (pool, w) = (o, (pool', w')) ->
  on_pool key m (a, w, mm)
  = (o, (set_pools (Make_ConnectionPools (pools_mutex (asd_connection_pools a))
           (<[key := pool']> (connection_pools_ (asd_connection_pools a)))) a, w', mm)).
Proof. intros Hp Hm. unfold on_pool. simpl. by rewrite Hp, Hm. Qed.

Lemma find_osd_spec osd (a : OsdAccess T) id map (w : W) (mm : mem) :
  _osd_maps_mutex a = false -> last (_osd_maps a) = Some (id, map) ->
  on_access (_find_osd osd) (a, w, mm) = (Ret (map !! osd), (a, w, mm)).
Proof.
  intros Hm Hl. unfold on_access, zoom, _find_osd, lock_guard. simpl. rewrite Hm.
  unfold last_map. destruct a; simpl in *. subst. unfold mbind, M_bind. simpl. by rewrite Hl.
Qed.

Lemma get_pool_known info n timeout (pools : ConnectionPools T) pool :
  kind_asd info = true -> pools_mutex pools = false ->
  connection_pools_ pools !! long_id info = Some pool ->
  get_connection_pool info n timeout pools = (Ret (Some (long_id info)), pools).
Proof.
  intros Hk Hm Hp. destruct pools as [m ps]; simpl in *. subst. unfold get_connection_pool.
  rewrite Hk. cbn [negb]. unfold lock_guard. cbn [pools_mutex connection_pools_].
  rewrite gets_bind. unfold id. cbn [connection_pools_]. by rewrite Hp.
Qed.

Lemma get_idle_connection c cs (pool : ConnectionPool T) (w : W) :
  _mutex pool = false -> backing_off pool w = false -> connections_ pool = c :: cs ->
  get_connection (pool, w) = (Ret (Some c), (with_connections cs pool, after_clock pool w)).
Proof.
  intros Hm Hb Hc. unfold get_connection. erewrite bind_ret_eq by (by apply get_section_spec).
  by rewrite Hb, Hc.
Qed.

Lemma release_with_room c (pool : ConnectionPool T) (w : W) :
  _mutex pool = false -> len (connections_ pool) < capacity_ pool ->
  release_connection (Some c) (pool, w)
  = (Ret tt, (Make_ConnectionPool false (c :: connections_ pool) (config_ pool) (capacity_ pool)
                (timeout_ pool) 0 (_failure_time pool), w)).
Proof.
  intros Hm Hl. unfold release_connection. erewrite bind_ret_eq by (by apply release_section_spec).
  by replace (_ <? _) with true by (symmetry; lia).
Qed.
End reading.

(** What the direct path needs of the state: the OSD is known, its pool is there, free
    and not backing off, and its first connection has the answers. *)
Record ready `{RT : ReliableTransport T} {W} {WW : World T W} (a : OsdAccess T) (w : W)
    (osd : osd_t) (key : bytes) (slices : list asd_slice) (datas : list bytes)
    (pool : ConnectionPool T) (c : Asd_client T) (cs : list (Asd_client T)) (rest : bytes) : Prop := {
  rd_known : exists id map info caps, last (_osd_maps a) = Some (id, map) /\
    map !! osd = Some (info, caps) /\ kind_asd info = true /\ long_id info = key;
  rd_pool : connection_pools_ (asd_connection_pools a) !! key = Some pool;
  rd_free : _mutex pool = false;
  rd_ready : backing_off pool w = false;
  rd_idle : connections_ pool = c :: cs;
  rd_room : len (c :: cs) <= capacity_ pool;
  rd_connection : asd_idle c;
  rd_slices : Forall2 asd_slice_ok slices datas;
  rd_answers : incoming (AsdClient._transport c) = concat (answer <$> datas) ++ rest }.

(** The pool afterwards: the connection is back in front, without failures. *)
Definition served {T} (pool : ConnectionPool T) (c : Asd_client T) (cs : list (Asd_client T)) :
    ConnectionPool T :=
  Make_ConnectionPool false (c :: cs) (config_ pool) (capacity_ pool) (timeout_ pool) 0
    (_failure_time pool).

Lemma direct_path_spec `{RT : ReliableTransport T} {W} {WW : World T W}
    (a : OsdAccess T) (w : W) mm osd key slices datas rest pool c cs :
  _osd_maps_mutex a = false -> pools_mutex (asd_connection_pools a) = false ->
  ready a w osd key slices datas pool c cs rest ->
  exists c', asd_idle c' /\ incoming (AsdClient._transport c') = rest /\
    _read_osd_slices_asd_direct_path osd slices (a, w, mm)
    = (Ret 0, (set_pools (Make_ConnectionPools false
                 (<[key := served pool c' cs]> (connection_pools_ (asd_connection_pools a)))) a,
               after_clock pool w, write_asd_slices slices datas mm)).
Proof.
  intros Hm Hpm [(id & map & info & caps & Hl & Ho & Hk & <-) Hp Hf Hb Hc Hcap Hi HF Hin].
  destruct (get_slices_spec slices datas rest c mm Hi HF Hin) as (c' & Hg & Hi' & Hin').
  set (pool1 := with_connections cs pool).
  set (a1 := set_pools (Make_ConnectionPools false
    (<[long_id info := pool1]> (connection_pools_ (asd_connection_pools a)))) a).
  assert (connection_pools_ (asd_connection_pools a1) !! long_id info = Some pool1) as Hp1
    by apply lookup_insert_eq.
  assert (len cs < capacity_ pool) as Hroom by (rewrite len_cons in Hcap; lia).
  exists c'. split; [done|]. split; [done|].
  unfold _read_osd_slices_asd_direct_path.
  rewrite (bind_ret_eq _ _ _ _ _ (find_osd_spec osd a id map w mm Hm Hl)), Ho. cbn [fst].
  rewrite gets_bind. cbn [fst].
  rewrite (bind_ret_eq (on_pools _) _ _ (Some (long_id info)) (a, w, mm)).
  2: { unfold on_pools, on_access, zoom. cbn [fst snd].
    rewrite (get_pool_known info _ _ _ pool Hk Hpm Hp). by destruct a as [??????? ?]; simpl in *. }
  rewrite (bind_ret_eq _ _ _ _ _ (on_pool_eq _ _ _ _ _ _ a w mm Hp
    (get_idle_connection c cs pool w Hf Hb Hc))). cbn iota beta. rewrite Hpm.
  fold pool1 a1. unfold use_connection. cbn [snd fst]. rewrite Hg.
  rewrite (bind_ret_eq _ _ _ _ _ (on_pool_eq _ _ _ _ _ _ a1 _ _ Hp1
    (release_with_room c' pool1 (after_clock pool w) Hf Hroom))).
  cbn [mret M_ret]. unfold a1, set_pools. cbn [asd_connection_pools pools_mutex connection_pools_].
  rewrite insert_insert_eq. reflexivity.
Qed.

(** Without any level, the last map is out of range. *)
Lemma no_levels_undefined {T} (osd : osd_t) (a : OsdAccess T) :
  _osd_maps_mutex a = false -> _osd_maps a = [] -> fst (osd_is_unknown osd a) = Undef.
Proof. destruct a as [? ? mm maps ? ? ? ?]; simpl. by intros -> ->. Qed.

(** The moves of one thread: from [pc] to [pc'], the others staying where they are. *)
Lemma thread_moves (P : list update_pc -> updates) (Q : list update_pc -> updates) pcs (t : nat) pc pc' u :
  (t < length pcs)%nat ->
  (forall pcs, pcs !! t = Some pc -> update_step (P pcs) (Q (<[t := pc']> pcs))) ->
  rtc update_step (Q (<[t := pc']> pcs)) u -> rtc update_step (P (<[t := pc]> pcs)) u.
Proof.
  intros Ht Hs Hr. eapply rtc_l; [apply Hs; by rewrite list_lookup_insert_eq|].
  by rewrite list_insert_insert_eq.
Qed.

Section as_a_run.
Context (pcs : list update_pc) (e : bool) (t : nat).
Hypothesis (Ht : pcs !! t = Some Start).
Let Hlt : (t < length pcs)%nat := lookup_lt_Some _ _ _ Ht.

(** Up to the filling. *)
Lemma run_to_filling u :
  rtc update_step (Updates true (Some t) (<[t := Filling]> pcs) e) u ->
  rtc update_step (Updates false None pcs e) u.
Proof.
  intros Hr. rewrite <- (list_insert_id pcs t Start Ht).
  apply (thread_moves (fun pcs => Updates false None pcs e) (fun pcs => Updates false None pcs e) _ _ _ LockFill); [done|intros; by constructor|].
  apply (thread_moves (fun pcs => Updates false None pcs e) (fun pcs => Updates false (Some t) pcs e) _ _ _ CheckFill); [done|intros; by constructor|].
  apply (thread_moves (fun pcs => Updates false (Some t) pcs e) (fun pcs => Updates false (Some t) pcs e) _ _ _ SetFilling); [done|intros; by constructor|].
  by apply (thread_moves (fun pcs => Updates false (Some t) pcs e) (fun pcs => Updates true (Some t) pcs e) _ _ _ Filling); [|intros; constructor|].
Qed.

(** From there, when the result is caught. *)
Lemma run_to_end r :
  rtc update_step (Updates true (Some t) (<[t := Filling]> pcs) e)
    (Updates false None (<[t := Finished (Some r)]> (wake <$> pcs)) e).
Proof.
  apply (thread_moves (fun pcs => Updates true (Some t) pcs e) (fun pcs => Updates true (Some t) pcs e) _ _ _ (ClearFilling r)); [done|intros; by constructor|].
  apply (thread_moves (fun pcs => Updates true (Some t) pcs e) (fun pcs => Updates false (Some t) pcs e) _ _ _ (NotifyAll r)); [done|intros; by constructor|].
  eapply rtc_l; [apply (Notify _ _ _ _ t r); by rewrite list_lookup_insert_eq|].
  rewrite list_fmap_insert, list_insert_insert_eq.
  eapply rtc_l; [apply (Unlock_mutex _ _ _ _ t r); by rewrite list_lookup_insert_eq by (by rewrite length_fmap)|].
  rewrite list_insert_insert_eq. constructor.
Qed.

(** And when it escapes. *)
Lemma run_escaping :
  rtc update_step (Updates true (Some t) (<[t := Filling]> pcs) e)
    (Updates true None (<[t := Finished None]> pcs) true).
Proof.
  apply (thread_moves (fun pcs => Updates true (Some t) pcs e) (fun pcs => Updates true (Some t) pcs true) _ _ _ UnlockEscaping); [done|intros; by constructor|].
  apply (thread_moves (fun pcs => Updates true (Some t) pcs true) (fun pcs => Updates true None pcs true) _ _ _ (Finished None)); [done|intros; by constructor|].
  constructor.
Qed.
End as_a_run.

(** [update] without interruption. *)
Lemma update_spec {T C} (osd_info2 : osd_maps_t -> M C osd_maps_t) (a : OsdAccess T) (client : C) :
  _filling a = false -> _filling_mutex a = false -> _osd_maps_mutex a = false ->
  update osd_info2 (a, client) =
  match osd_info2 [] client with
  | (Ret infos, client') => (Ret true, (set_maps infos (fst <$> infos) a, client'))
  | (Throw e, client') =>
      if is_std_exception e then (Ret false, (a, client'))
      else (Throw e, (set_filling true a, client'))
  | (Abort, client') => (Abort, (set_filling true a, client'))
  | (Undef, client') => (Undef, (set_filling true a, client'))
  end.
Proof.
  destruct a as [sz tmo mm maps levels pools f fm]; simpl. intros -> -> ->.
  unfold update, fill, lock_guard, try_catch, zoom, mbind, M_bind; simpl.
  destruct (osd_info2 [] client) as [[infos|e| |] client']; simpl; try done.
  by destruct (is_std_exception e).
Qed.

(** ** Properties *)



(** C31: a call of [update] that finds nobody filling asks the proxy once.  On an
    answer both the OSD maps and the list of levels are replaced; on a
    [std::exception] both stay as they were and the result is [false]; any other
    exception passes through and leaves the flag set, so that every later call will
    wait for a filling that nobody does. *)
Theorem update_all_or_nothing {T C} (osd_info2 : osd_maps_t -> M C osd_maps_t)
    (a : OsdAccess T) (client : C) :
  _filling a = false -> _filling_mutex a = false -> _osd_maps_mutex a = false ->
  update osd_info2 (a, client) =
  match osd_info2 [] client with
  | (Ret infos, client') => (Ret true, (set_maps infos (fst <$> infos) a, client'))
  | (Throw e, client') =>
      if is_std_exception e then (Ret false, (a, client'))
      else (Throw e, (set_filling true a, client'))
  | (Abort, client') => (Abort, (set_filling true a, client'))
  | (Undef, client') => (Undef, (set_filling true a, client'))
  end.
Proof. apply update_spec. Qed.

Lemma update_all_or_nothing_witness :
  let a := new_OsdAccess (T := script) 5 25 in
  fst (update (fun _ => mret [(str "alba", ∅)]) (a, tt)) = Ret true /\
  fst (snd (update (fun _ => mthrow (ExnSystem [])) (a, tt))) = a.
Proof.
  intros a. split.
  - rewrite (update_all_or_nothing _ a tt); reflexivity.
  - rewrite (update_all_or_nothing _ a tt); reflexivity.
Defined.

(** C14: The function [update] implements the step relation of the concurrent updates:
    what it does without interruption is a run of the thread that calls it, among any
    other threads, from the entry to the result, with the flag ending as the function
    leaves it.  When an exception escapes, the run ends with the flag set for good. *)
Theorem update_is_a_run {T C} (osd_info2 : osd_maps_t -> M C osd_maps_t) (a : OsdAccess T) (c : C)
    pcs e t :
  _filling a = false -> _filling_mutex a = false -> _osd_maps_mutex a = false ->
  pcs !! t = Some Start ->
  match update osd_info2 (a, c) with
  | (Ret r, (a', _)) =>
      rtc update_step (Updates (_filling a) None pcs e)
        (Updates (_filling a') None (<[t := Finished (Some r)]> (wake <$> pcs)) e)
  | (Throw _, (a', _)) =>
      rtc update_step (Updates (_filling a) None pcs e)
        (Updates (_filling a') None (<[t := Finished None]> pcs) true)
  | _ => True
  end.
Proof.
  intros Hf Hfm Hm Ht. rewrite update_spec, Hf by done.
  destruct (osd_info2 [] c) as [[infos|x| |] c']; [| |done..].
  - cbn [_filling set_maps]. rewrite Hf.
    by apply (run_to_filling _ _ _ Ht), run_to_end.
  - destruct (is_std_exception x); [rewrite Hf|]; apply (run_to_filling _ _ _ Ht);
      [by apply run_to_end|by apply run_escaping].
Qed.

Lemma update_is_a_run_witness :
  rtc update_step (Updates false None [Asleep; Start] true)
    (Updates false None [LockWait; Finished (Some true)] true) /\
  rtc update_step (Updates false None [Start; Start] false)
    (Updates true None [Start; Finished None] true).
Proof.
  split.
  - exact (update_is_a_run (fun _ => mret [(str "alba", ∅)]) (new_OsdAccess (T := script) 5 25) tt
      [Asleep; Start] true 1 eq_refl eq_refl eq_refl eq_refl).
  - exact (update_is_a_run (fun _ => mthrow (ExnInt 0)) (new_OsdAccess (T := script) 5 25) tt
      [Start; Start] false 1 eq_refl eq_refl eq_refl eq_refl).
Defined.


(** C13: [n] threads in [update], in any interleaving of their atomic actions and as
    long as no exception other than a [std::exception] leaves it: at most one thread
    is inside the critical section and so at most one asks the proxy at a time; no
    thread ever sleeps on the condition variable, so that no wake-up can be missed;
    until all have returned some thread can act; and all have returned after at most
    [8 * n] actions. *)
Theorem concurrent_updates_finish n k u :
  nsteps update_step k (updates_start n) u -> u_escaped u = false ->
  (forall t1 t2 pc1 pc2, u_pcs u !! t1 = Some pc1 -> u_pcs u !! t2 = Some pc2 ->
     holds_mutex pc1 = true -> holds_mutex pc2 = true -> t1 = t2) /\
  (Asleep ∉ u_pcs u) /\
  (Forall (fun pc => is_finished pc = true) (u_pcs u) \/ exists u', update_step u u') /\
  (k <= 8 * n)%nat.
Proof.
  intros Hn He. destruct (updates_run n k u Hn) as [Hwf Hle]. split_and!.
  - intros t1 t2 pc1 pc2 H1 H2 Hh1 Hh2.
    apply (wu_holder _ Hwf t1 pc1 H1) in Hh1. apply (wu_holder _ Hwf t2 pc2 H2) in Hh2. congruence.
  - intros [t Ht]%list_elem_of_lookup. by destruct (wu_awake _ Hwf t Asleep He Ht).
  - destruct (decide (Forall (fun pc => is_finished pc = true) (u_pcs u))) as [?|Hnot]; [by left|right].
    apply not_Forall_Exists in Hnot; [|apply _]. apply Exists_exists in Hnot as (pc & Hin & Hnf).
    apply list_elem_of_lookup in Hin as [t Ht]. apply (update_progress u t pc); try done.
    by apply not_true_is_false.
  - specialize (Hle He). lia.
Qed.

Lemma concurrent_updates_finish_witness :
  exists u, nsteps update_step 3 (updates_start 2) u /\
    u_pcs u = [CheckFill; LockFill] /\ exists u', update_step u u'.
Proof.
  assert (nsteps update_step 3 (updates_start 2) (Updates false (Some 0%nat) [CheckFill; LockFill] false))
    as Hn.
  { eapply nsteps_l; [by apply (Load_clear None [Start; Start] false 0)|].
    eapply nsteps_l; [by apply (Load_clear None [LockFill; Start] false 1)|].
    eapply nsteps_l; [by apply (Lock_fill false [LockFill; LockFill] false 0)|]. constructor. }
  exists (Updates false (Some 0%nat) [CheckFill; LockFill] false). split; [exact Hn|].
  split; [reflexivity|].
  destruct (concurrent_updates_finish 2 3 _ Hn eq_refl) as (_ & _ & [HF|Hs] & _); [|exact Hs].
  exfalso. inversion HF. discriminate.
Defined.

(** A thread that finds the flag set reports success when the filling it has waited
    for has failed. *)
Lemma waiter_reports_success :
  rtc update_step (updates_start 2)
    (Updates false None [Finished (Some false); Finished (Some true)] false).
Proof.
  eapply rtc_l; [by apply (Load_clear None [Start; Start] false 0)|].
  eapply rtc_l; [by apply (Lock_fill false [LockFill; Start] false 0)|].
  eapply rtc_l; [by apply (Check_clear (Some 0%nat) [CheckFill; Start] false 0)|].
  eapply rtc_l; [by apply (Store_filling false (Some 0%nat) [SetFilling; Start] false 0)|].
  eapply rtc_l; [by apply (Load_set (Some 0%nat) [Filling; Start] false 1)|].
  eapply rtc_l; [by apply (Fill_caught true (Some 0%nat) [Filling; LockWait] false 0 false)|].
  eapply rtc_l; [by apply (Store_clear true (Some 0%nat) [ClearFilling false; LockWait] false 0 false)|].
  eapply rtc_l; [by apply (Notify false (Some 0%nat) [NotifyAll false; LockWait] false 0 false)|].
  eapply rtc_l; [by apply (Unlock_mutex false (Some 0%nat) [Unlock false; LockWait] false 0 false)|].
  eapply rtc_l; [by apply (Lock_wait false [Finished (Some false); LockWait] false 1)|].
  eapply rtc_l; [by apply (Wait_done (Some 1%nat) [Finished (Some false); WaitTest] false 1)|].
  eapply rtc_l; [by apply (Unlock_mutex false (Some 1%nat) [Finished (Some false); Unlock true] false 1 true)|].
  constructor.
Qed.
