(* ===== verification/ProxyClient.v ===== *)
(** * What the RORA client needs of the proxy client

    [RoraProxy_client] owns a [GenericProxy_client], its delegate.  The class below is
    that client's interface, so that the RORA client is modelled and its theorems are
    proved against it; [generic_Delegate] is the implementation, over any transport. *)

From S2P Require Import Prelude Llio Stuff AlbaCommon Checksum OsdInfo Manifest Sequences.
From S2P Require Import ProxyProtocol Transport TransportHelper GenericClient.

Local Open Scope Z_scope.
Local Open Scope alba_scope.

Class Delegate (C : Type) := {
  d_namespace_exists : bytes -> M C bool;
  d_create_namespace : bytes -> option bytes -> M C unit;
  d_delete_namespace : bytes -> M C unit;
  d_list_namespaces : bytes -> bool -> option bytes -> bool -> Z -> bool -> M C (list bytes * bool);
  d_read_object_fs : bytes -> bytes -> bytes -> bool -> bool -> M C unit;
  d_delete_object : bytes -> bytes -> bool -> M C unit;
  d_list_objects : bytes -> bytes -> bool -> option bytes -> bool -> Z -> bool ->
    M C (list bytes * bool);
  (** The client, the memory of the buffers and the counter. *)
  d_read_objects_slices2 : bytes -> list ObjectSlices -> bool ->
    M (C * mem * RoraCounter) (list object_info);
  d_get_object_info : bytes -> bytes -> bool -> bool -> M C (Z * Checksum);
  d_apply_sequence_ : bytes -> bool -> list Assert -> list Update -> M C (list object_info);
  d_update_session : list (bytes * option bytes) -> M C (list (bytes * bytes));
  d_invalidate_cache : bytes -> M C unit;
  d_drop_cache : bytes -> M C unit;
  d_get_proxy_version : M C (Z * Z * Z * bytes);
  d_ping : Z -> M C Z;
  d_osd_info : osd_map_t -> M C osd_map_t;
  d_osd_info2 : osd_maps_t -> M C osd_maps_t;
  d_has_local_fragment_cache : M C bool;
  d_get_fragment_encryption_key : bytes -> namespace_t -> M C (option bytes) }.

#[export] Instance generic_Delegate {T} `{Transport T} `{Snappy} : Delegate (GenericProxy_client T) := {
  d_namespace_exists := namespace_exists;
  d_create_namespace := create_namespace;
  d_delete_namespace := delete_namespace;
  d_list_namespaces := list_namespaces;
  d_read_object_fs := read_object_fs;
  d_delete_object := delete_object;
  d_list_objects := list_objects;
  d_read_objects_slices2 := read_objects_slices2;
  d_get_object_info := get_object_info;
  d_apply_sequence_ := apply_sequence_;
  d_update_session := update_session;
  d_invalidate_cache := invalidate_cache;
  d_drop_cache := drop_cache;
  d_get_proxy_version := get_proxy_version;
  d_ping := ping;
  d_osd_info := osd_info;
  d_osd_info2 := osd_info2;
  d_has_local_fragment_cache := has_local_fragment_cache;
  d_get_fragment_encryption_key := get_fragment_encryption_key }.

(** The connected client, or what its constructor threw; a transport that cannot be
    used is destroyed with the client. *)
Definition _make_proxy_client {T W} `{Transport T} `{World T W} (ip port : bytes) (timeout : Z)
    (transport : Kind) : M W (GenericProxy_client T) := fun w =>
  match make_transport transport ip port timeout w with
  | (Ret t, w) =>
      match make_GenericProxy_client timeout t with
      | (Ret _, c) => (Ret c, w)
      | (Throw e, c) => (Throw e, close_transport (_transport c) w)
      | (Abort, _) => (Abort, w)
      | (Undef, _) => (Undef, w)
      end
  | (Throw e, w) => (Throw e, w)
  | (Abort, w) => (Abort, w)
  | (Undef, w) => (Undef, w)
  end.
