(* ===== verification/RoraClient.v ===== *)
(** * The RORA client: [rora_proxy_client.h] and [rora_proxy_client.cc]

    Reads go past the proxy where that is possible: slices whose manifests are cached
    are read from the ASDs and decrypted in place, the rest, or everything when the
    fast path fails, is read through the proxy, and what the proxy tells about the
    objects on the way is put into the manifest cache.  All other calls go to the
    delegate.  Where slices are is in [RoraLocation], reading them in [OsdAccess]. *)

From S2P Require Import Prelude Llio Stuff AlbaCommon Checksum Encryption OsdInfo Manifest Sequences.
From S2P Require Import ProxyProtocol LruCache ManifestCache Transport TransportHelper GenericClient.
From S2P Require Import ConnectionPool OsdAccess RoraLocation ProxyClient.

Local Open Scope Z_scope.
Local Open Scope alba_scope.

(** libgcrypt's message digests: result codes and SHA-256. *)
Class Digest := {
  gcry_md_open : Z;
  gcry_md_final : Z;
  sha256 : bytes -> bytes;
  gcrypt_initialized : bool }.

Section rora.
Context {C : Type} `{Delegate C}.
Context {T W : Type} `{Transport T} `{World T W}.
Context {B : BimapOps bytes manifest_cache_entry} `{Gcrypt} `{Digest}.

Record RoraProxy_client := Make_RoraProxy_client {
  _delegate : C;
  _use_null_io : bool;
  _has_local_fragment_cache : bool;
  _fast_path_failures : Z;
  _failure_time : Z;
  _asd_connection_pool_size : Z;
  _asd_partial_read_timeout : Z;
  _fkb : message_builder.t;
  _ser_version : option Z;
  _enc_keys : gmap bytes bytes }.

(** ** The constructor *)

(** A session value's first byte; an empty string's data is its terminator. *)
Definition session_version (kvs : list (bytes * bytes)) : option Z :=
  foldl (fun v kv =>
    if bool_decide (kv.1 = str "manifest_ser")
    then Some (byte.unsigned (default Byte.x00 (head kv.2))) else v) None kvs.

(** [catch (proxy_exception &e)]: an old proxy does not know the call. *)
Definition unless_unknown {ST A} (m : M ST A) (a : A) : M ST A :=
  try_catch m (fun e =>
    match e with
    | ExnProxy pe =>
        if pe_return_code pe =? return_code.UNKNOWN_OPERATION then mret a else mthrow e
    | _ => mthrow e
    end).

Definition in_delegate0 {A} (m : M C A) : M (ManifestCache * C) A :=
  zoom snd (fun c s => (s.1, c)) m.
Definition new_RoraProxy_client (cfg : RoraConfig) : M (ManifestCache * C) RoraProxy_client :=
  (if gcrypt_initialized then mret tt else mout Abort) ;;
  zoom fst (fun mc s => (mc, s.2)) (set_capacity (manifest_cache_size cfg)) ;;
  local_cache ← in_delegate0 (unless_unknown d_has_local_fragment_cache false);
  ser_version ← in_delegate0 (unless_unknown
    (kvs ← d_update_session [(str "manifest_ser", Some [Byte.x02])]; mret (session_version kvs))
    (Some 1));
  s ← gets id;
  mret (Make_RoraProxy_client s.2 (use_null_io cfg) local_cache 0 0
          (asd_connection_pool_size cfg) (asd_partial_read_timeout_milliseconds cfg * 10 ^ 6)
          message_builder.make ser_version ∅).

(** ** The state a call works on *)

(** The client, the two singletons, the network, the memory of the buffers and the
    counter that is passed along. *)
Record rora_state := Make_rora_state {
  client : RoraProxy_client;
  manifests : ManifestCache;
  access : option (OsdAccess T);
  world : W;
  memory : mem;
  cntr : RoraCounter }.

Definition set_client (c : RoraProxy_client) (s : rora_state) : rora_state :=
  Make_rora_state c (manifests s) (access s) (world s) (memory s) (cntr s).
Definition set_delegate (d : C) (c : RoraProxy_client) : RoraProxy_client :=
  Make_RoraProxy_client d (_use_null_io c) (_has_local_fragment_cache c) (_fast_path_failures c)
    (_failure_time c) (_asd_connection_pool_size c) (_asd_partial_read_timeout c) (_fkb c)
    (_ser_version c) (_enc_keys c).
Definition set_failures (n t : Z) (c : RoraProxy_client) : RoraProxy_client :=
  Make_RoraProxy_client (_delegate c) (_use_null_io c) (_has_local_fragment_cache c) n t
    (_asd_connection_pool_size c) (_asd_partial_read_timeout c) (_fkb c) (_ser_version c)
    (_enc_keys c).
Definition set_fkb (b : message_builder.t) (c : RoraProxy_client) : RoraProxy_client :=
  Make_RoraProxy_client (_delegate c) (_use_null_io c) (_has_local_fragment_cache c)
    (_fast_path_failures c) (_failure_time c) (_asd_connection_pool_size c)
    (_asd_partial_read_timeout c) b (_ser_version c) (_enc_keys c).
Definition set_enc_keys (ks : gmap bytes bytes) (c : RoraProxy_client) : RoraProxy_client :=
  Make_RoraProxy_client (_delegate c) (_use_null_io c) (_has_local_fragment_cache c)
    (_fast_path_failures c) (_failure_time c) (_asd_connection_pool_size c)
    (_asd_partial_read_timeout c) (_fkb c) (_ser_version c) ks.

Definition in_client {A} (m : M RoraProxy_client A) : M rora_state A := zoom client set_client m.
Definition in_delegate {A} (m : M C A) : M RoraProxy_client A := zoom _delegate set_delegate m.
Definition in_manifests {A} (m : M ManifestCache A) : M rora_state A :=
  zoom manifests (fun mc s => Make_rora_state (client s) mc (access s) (world s) (memory s) (cntr s)) m.
(** [OsdAccess::getInstance(_asd_connection_pool_size, _asd_partial_read_timeout)]. *)
Definition instance (s : rora_state) : OsdAccess T :=
  default (new_OsdAccess (_asd_connection_pool_size (client s))
             (_asd_partial_read_timeout (client s))) (access s).
(** A method of the singleton that takes [*this], whose [osd_info2] is the
    delegate's. *)
Definition in_access {A} (m : M (OsdAccess T * C) A) : M rora_state A :=
  zoom (fun s => (instance s, _delegate (client s)))
    (fun p s => Make_rora_state (set_delegate p.2 (client s)) (manifests s) (Some p.1) (world s)
                  (memory s) (cntr s)) m.
Definition in_reading {A} (m : M (OsdAccess T * W * mem) A) : M rora_state A :=
  zoom (fun s => (instance s, world s, memory s))
    (fun p s => Make_rora_state (client s) (manifests s) (Some p.1.1) p.1.2 p.2 (cntr s)) m.
Definition steady_clock_now : M rora_state Z := fun s =>
  let '(n, w) := steady_now (world s) in
  (Ret n, Make_rora_state (client s) (manifests s) (access s) w (memory s) (cntr s)).

(** ** Keys *)

(** The key of a fragment in its ASD.  An exception leaves the builder as it is. *)
Definition fragment_key_writer (namespace_id : namespace_t) (object_id : bytes)
    (version_id chunk_id fragment_id : Z) : writer :=
  message_builder.add_raw (str "p") ;;
  to_u32 0 ;;
  message_builder.add_raw (str "n") ;;
  to_be_x_uint64 namespace_id ;;
  message_builder.add_raw (str "o") ;;
  to_string object_id ;;
  to_u32 chunk_id ;;
  to_u32 fragment_id ;;
  to_u32 version_id.
Definition _fragment_key (namespace_id : namespace_t) (object_id : bytes)
    (version_id chunk_id fragment_id : Z) : M RoraProxy_client bytes :=
  zoom _fkb set_fkb
    (fragment_key_writer namespace_id object_id version_id chunk_id fragment_id ;;
     r ← gets message_builder.as_string_no_size;
     message_builder.reset ;;
     mret r).

(** [*get_fragment_encryption_key(...)] of [boost::none] is undefined.  A key that
    hashes to something else is kept under its own hash, unless that is taken, and
    refused. *)
Definition get_encryption_key (alba_id : alba_id_t) (namespace_id : namespace_t)
    (key_identification : bytes) : M RoraProxy_client bytes :=
  c ← gets id;
  match _enc_keys c !! key_identification with
  | Some enc_key => mret enc_key
  | None =>
      k ← in_delegate (d_get_fragment_encryption_key alba_id namespace_id);
      enc_key ← (match k with Some k => mret k | None => mout Undef end);
      (guard gcry_md_open =? 0 orelse ExnInt 0) ;;
      (guard gcry_md_final =? 0 orelse ExnInt 0) ;;
      let key_identification2 := sha256 enc_key in
      if bool_decide (key_identification = key_identification2) then
        modify (fun c => set_enc_keys (<[key_identification := enc_key]> (_enc_keys c)) c) ;;
        mret enc_key
      else
        modify (fun c => set_enc_keys
          (_enc_keys c ∪ {[ key_identification2 := enc_key ]}) c) ;;
        mthrow (ExnInt 0)
  end.

(** ** The fast path *)

(** [std::map<osd_t, std::vector<asd_slice>>], ascending. *)
Fixpoint push_slice (osd_id : osd_t) (slice : asd_slice) (per_osd : list (osd_t * list asd_slice)) :
    list (osd_t * list asd_slice) :=
  match per_osd with
  | [] => [(osd_id, [slice])]
  | (o, slices) :: rest =>
      if osd_id <? o then (osd_id, [slice]) :: per_osd
      else if osd_id =? o then (o, slices ++ [slice]) :: rest
      else (o, slices) :: push_slice osd_id slice rest
  end.

(** Dereferencing a location without OSD is undefined. *)
Fixpoint group_per_osd (locations : list (Z * Location)) (per_osd : list (osd_t * list asd_slice)) :
    M RoraProxy_client (list (osd_t * list asd_slice)) :=
  match locations with
  | [] => mret per_osd
  | (target, l) :: locations =>
      osd_id ← (match fst (loc_fragment_location l) with
                | Some o => mret o | None => mout Undef end);
      key ← _fragment_key (loc_namespace_id l) (loc_object_id l) (snd (loc_fragment_location l))
              (loc_chunk_id l) (loc_fragment_id l);
      group_per_osd locations
        (push_slice osd_id (Make_asd_slice key (loc_offset l) (loc_length l) target) per_osd)
  end.

(** The loop stops at the first unknown OSD. *)
Fixpoint all_known (per_osd : list (osd_t * list asd_slice)) : M (OsdAccess T) bool :=
  match per_osd with
  | [] => mret true
  | (osd, _) :: per_osd =>
      unknown ← osd_is_unknown osd;
      if unknown : bool then mret false else all_known per_osd
  end.
Definition _maybe_update_osd_infos (per_osd : list (osd_t * list asd_slice)) : M rora_state unit :=
  ok ← in_access (zoom fst (fun a s => (a, s.2)) (all_known per_osd));
  if negb ok then in_access (update d_osd_info2) ;; mret tt else mret tt.

Definition _short_path (locations : list (Z * Location)) : M rora_state Z :=
  per_osd ← in_client (group_per_osd locations []);
  _maybe_update_osd_infos per_osd ;;
  null_io ← gets (fun s => _use_null_io (client s));
  if null_io : bool then mret 0 else in_reading (read_osds_slices per_osd).

(** [len] bytes of memory; what was never written is indeterminate and zero here. *)
Definition mem_read (p len : Z) (mm : mem) : bytes :=
  (fun i => default Byte.x00 (mm !! (p + Z.of_nat i))) <$> seq 0 (Z.to_nat len).
(** [encrypt_info->partial_decrypt(buf, l.length, enc_key, *l.ctr, l.offset)]. *)
Definition decrypt_in_place (e : Encrypted) (enc_key ctr : bytes) (buf len offset : Z) :
    M rora_state bool := fun s =>
  let '(o, d) := partial_decrypt e enc_key ctr offset (Decrypt_state (mem_read buf len (memory s)) 0) in
  (o, Make_rora_state (client s) (manifests s) (access s) (world s)
        (mem_write buf (ds_buf d) (memory s)) (cntr s)).
Definition decrypt_location (alba_levels : list alba_id_t) (s : Z * Location) : M rora_state unit :=
  let '(buf, l) := s in
  match loc_encrypt_info l with
  | NoEncryption => mret tt
  | IsEncrypted e =>
      ctr ← (match loc_ctr l with Some ctr => mret ctr | None => mthrow (ExnInt 0) end);
      alba_id ← (match last alba_levels with Some a => mret a | None => mout Undef end);
      enc_key ← in_client (get_encryption_key alba_id (loc_namespace_id l) (key_identification e));
      ok ← decrypt_in_place e enc_key ctr buf (loc_length l) (loc_offset l);
      guard (ok : bool) orelse ExnInt 0
  end.

(** What the fast path cannot read. *)
Definition needs_proxy (l : Location) : bool :=
  bool_decide (fst (loc_fragment_location l) = None)
  || loc_uses_compression l
  || negb (supports_partial_decrypt (loc_encrypt_info l)).

(** Which slices go which way: the locations to read directly, and the rest. *)
Fixpoint split_slices (alba_levels : list alba_id_t) (namespace_ : bytes)
    (slices : list ObjectSlices) (short_path : list (Z * Location))
    (via_proxy : list ObjectSlices) :
    M ManifestCache (list (Z * Location) * list ObjectSlices) :=
  match slices with
  | [] => mret (short_path, via_proxy)
  | object_slices :: slices =>
      locations ← _resolve_one_many_levels alba_levels namespace_ object_slices;
      match locations with
      | Some locations =>
          if existsb (fun bl => needs_proxy bl.2) locations
          then split_slices alba_levels namespace_ slices short_path (via_proxy ++ [object_slices])
          else split_slices alba_levels namespace_ slices (short_path ++ locations) via_proxy
      | None => split_slices alba_levels namespace_ slices short_path (via_proxy ++ [object_slices])
      end
  end.

(** [_short_path] and the decryption, whose exceptions of any type become -1. *)
Definition read_directly (alba_levels : list alba_id_t) (short_path : list (Z * Location)) :
    M rora_state Z :=
  result_front ← _short_path short_path;
  if result_front =? 0 then
    try_catch (for_each (decrypt_location alba_levels) short_path ;; mret 0) (fun _ => mret (-1))
  else mret result_front.

(** The bookkeeping after the fast path. *)
Definition account (result_front : Z) (n : Z) : M rora_state unit :=
  if negb (result_front =? 0) then
    t ← steady_clock_now;
    in_client (modify (fun c =>
      set_failures (if result_front =? -2 then _fast_path_failures c else _fast_path_failures c + 1)
        t c))
  else
    in_client (modify (fun c => set_failures 0 (_failure_time c) c)) ;;
    modify (fun s => Make_rora_state (client s) (manifests s) (access s) (world s) (memory s)
      (Make_RoraCounter (u64 (fast_path (cntr s) + n)) (slow_path (cntr s)))).

(** ** The slow path *)

(** [get_alba_levels(...).at(0)] throws [std::out_of_range] when there is none. *)
Definition process_info (namespace_ : bytes) (info : object_info) : M rora_state unit :=
  let '(_, alba_id, mf) := info in
  alba_id ← (if bool_decide (alba_id = []) then
               levels ← in_access (get_alba_levels d_osd_info2);
               match levels with
               | a :: _ => mret a
               | [] => mthrow (ExnSystem (str "out_of_range"))
               end
             else mret alba_id);
  in_manifests (ManifestCache.add namespace_ alba_id mf).
Definition _process (object_infos : list object_info) (namespace_ : bytes) : M rora_state unit :=
  for_each (process_info namespace_) object_infos.

Definition _slow_path (namespace_ : bytes) (slices : list ObjectSlices) (consistent_read : bool) :
    M rora_state (list object_info) :=
  zoom (fun s => (_delegate (client s), memory s, cntr s))
    (fun p s => Make_rora_state (set_delegate p.1.1 (client s)) (manifests s) (access s) (world s)
                  p.1.2 p.2)
    (d_read_objects_slices2 namespace_ slices consistent_read).
Definition read_via_proxy (namespace_ : bytes) (slices : list ObjectSlices) (consistent_read : bool) :
    M rora_state unit :=
  object_infos ← _slow_path namespace_ slices consistent_read;
  _process object_infos namespace_.

(** ** Reading *)

(** Consistent reads past a fragment cache, and a client that has seen more than 100
    failures with the last one at most two minutes old, use the proxy. *)
Definition choose_path (consistent_read : bool) : M rora_state bool :=
  c ← gets client;
  let use_slow_path := consistent_read && _has_local_fragment_cache c in
  if 100 <? _fast_path_failures c then
    t ← steady_clock_now;
    if 120 <? Z.quot (t - _failure_time c) (10 ^ 9) then
      in_client (modify (fun c => set_failures 0 (_failure_time c) c)) ;;
      mret use_slow_path
    else mret true
  else mret use_slow_path.

Definition read_objects_slices (namespace_ : bytes) (slices : list ObjectSlices)
    (consistent_read : bool) : M rora_state unit :=
  use_slow_path ← choose_path consistent_read;
  if use_slow_path : bool then read_via_proxy namespace_ slices consistent_read else
  alba_levels ← in_access (get_alba_levels d_osd_info2);
  sv ← in_manifests (split_slices alba_levels namespace_ slices [] []);
  result_front ← read_directly alba_levels sv.1;
  account result_front (len sv.1) ;;
  let via_proxy := if result_front =? 0 then sv.2 else slices in
  if 0 <? len via_proxy then read_via_proxy namespace_ via_proxy consistent_read else mret tt.

(** ** The other calls *)

Definition delegate_call {A} (m : M C A) : M rora_state A := in_client (in_delegate m).
Definition namespace_exists (name : bytes) : M rora_state bool :=
  delegate_call (d_namespace_exists name).
Definition create_namespace (name : bytes) (preset_name : option bytes) : M rora_state unit :=
  delegate_call (d_create_namespace name preset_name).
Definition delete_namespace (name : bytes) : M rora_state unit :=
  delegate_call (d_delete_namespace name).
Definition list_namespaces (first : bytes) (finc : bool) (last : option bytes) (linc : bool)
    (max : Z) (reverse : bool) : M rora_state (list bytes * bool) :=
  delegate_call (d_list_namespaces first finc last linc max reverse).
Definition read_object_fs (namespace_ object_name dest_file : bytes)
    (consistent_read should_cache : bool) : M rora_state unit :=
  delegate_call (d_read_object_fs namespace_ object_name dest_file consistent_read should_cache).
Definition delete_object (namespace_ object_name : bytes) (may_not_exist : bool) :
    M rora_state unit :=
  delegate_call (d_delete_object namespace_ object_name may_not_exist).
Definition list_objects (namespace_ first : bytes) (finc : bool) (last : option bytes)
    (linc : bool) (max : Z) (reverse : bool) : M rora_state (list bytes * bool) :=
  delegate_call (d_list_objects namespace_ first finc last linc max reverse).
Definition get_object_info (namespace_ object_name : bytes) (consistent_read should_cache : bool) :
    M rora_state (Z * Checksum) :=
  delegate_call (d_get_object_info namespace_ object_name consistent_read should_cache).
Definition drop_cache (namespace_ : bytes) : M rora_state unit :=
  delegate_call (d_drop_cache namespace_).
Definition get_proxy_version : M rora_state (Z * Z * Z * bytes) := delegate_call d_get_proxy_version.
Definition ping (delay : Z) : M rora_state Z := delegate_call (d_ping delay).
Definition osd_info (result : osd_map_t) : M rora_state osd_map_t :=
  delegate_call (d_osd_info result).
Definition osd_info2 (result : osd_maps_t) : M rora_state osd_maps_t :=
  delegate_call (d_osd_info2 result).
Definition get_fragment_encryption_key (alba_id : bytes) (namespace_id : namespace_t) :
    M rora_state (option bytes) :=
  delegate_call (d_get_fragment_encryption_key alba_id namespace_id).

Definition apply_sequence (namespace_ : bytes) (write_barrier : bool) (asserts : list Assert)
    (updates : list Update) : M rora_state unit :=
  object_infos ← delegate_call (d_apply_sequence_ namespace_ write_barrier asserts updates);
  _process object_infos namespace_.
Definition write_object_fs (namespace_ object_name input_file : bytes) (allow_overwrite : bool)
    (checksum : option Checksum) : M rora_state unit :=
  apply_sequence namespace_ false
    (if negb allow_overwrite then [AssertObjectDoesNotExist object_name] else [])
    [UpdateUploadObjectFromFile object_name input_file checksum].
Definition invalidate_cache (namespace_ : bytes) : M rora_state unit :=
  in_manifests (invalidate_namespace namespace_) ;;
  delegate_call (d_invalidate_cache namespace_).
End rora.
Arguments RoraProxy_client C : clear implicits.
Arguments rora_state C T W {B}.

(** The factory: a plain client, or one that owns it.  When the second constructor
    throws the plain client is destroyed with its transport. *)
Definition make_proxy_client {T W} `{Transport T} `{World T W} `{Snappy}
    {B : BimapOps bytes manifest_cache_entry} `{Digest} (ip port : bytes) (timeout : Z)
    (transport : Kind) (rora_config : option RoraConfig) :
    M (ManifestCache * W) (GenericProxy_client T + RoraProxy_client (GenericProxy_client T)) :=
  fun s =>
  match _make_proxy_client ip port timeout transport s.2 with
  | (Ret inner_client, w) =>
      match rora_config with
      | None => (Ret (inl inner_client), (s.1, w))
      | Some cfg =>
          match new_RoraProxy_client cfg (s.1, inner_client) with
          | (Ret c, (mc, _)) => (Ret (inr c), (mc, w))
          | (Throw e, (mc, inner)) =>
              (Throw e, (mc, close_transport (GenericClient._transport inner) w))
          | (Abort, (mc, _)) => (Abort, (mc, w))
          | (Undef, (mc, _)) => (Undef, (mc, w))
          end
      end
  | (Throw e, w) => (Throw e, (s.1, w))
  | (Abort, w) => (Abort, (s.1, w))
  | (Undef, w) => (Undef, (s.1, w))
  end.

(** ** Specification *)

(** The layout of a fragment's key. *)
Definition enc_fragment_key (namespace_id : namespace_t) (object_id : bytes)
    (version_id chunk_id fragment_id : Z) : bytes :=
  str "p" ++ enc_int 4 0 ++ str "n" ++ enc_be_x_uint64 namespace_id ++ str "o"
    ++ enc_string object_id ++ enc_int 4 chunk_id ++ enc_int 4 fragment_id ++ enc_int 4 version_id.

(** Every key is kept under its own hash. *)
Definition keys_authentic `{Digest} {C} (c : RoraProxy_client C) : Prop :=
  forall key_identification enc_key,
    _enc_keys c !! key_identification = Some enc_key -> sha256 enc_key = key_identification.

(** The slice's addresses hold its bytes of the object. *)
Definition filled (mm : mem) (sd : SliceDescriptor) (data : bytes) : Prop :=
  forall i, 0 <= i < sd_size sd -> mm !! (buf sd + i) = data !! Z.to_nat (offset sd + i).
(** A proxy that, when it answers a read, answers it with the objects' contents. *)
Class TruthfulDelegate (C : Type) `{Delegate C} := {
  content : bytes -> bytes -> bytes;
  read_truthful ns slices cr d mm cn infos d' mm' cn' :
    d_read_objects_slices2 ns slices cr (d, mm, cn) = (Ret infos, (d', mm', cn')) ->
    forall os sd, os ∈ slices -> sd ∈ ProxyProtocol.slices os ->
    filled mm' sd (content ns (object_name os)) }.

(** A proxy whose objects are eight bytes long and which answers single slices. *)
Definition toy_content : bytes := str "aaaaaaaa".
Definition toy_read {C} (data : bytes) (slices : list ObjectSlices) (s : C * mem * RoraCounter) :
    outcome (list object_info) * (C * mem * RoraCounter) :=
  match slices with
  | [Make_ObjectSlices _ [sd]] =>
      if (0 <=? offset sd) && (0 <=? sd_size sd) && (offset sd + sd_size sd <=? len data)
      then (Ret [], (s.1.1, mem_write (buf sd) (stretch (offset sd) (sd_size sd) data) s.1.2, s.2))
      else (Throw (ExnSystem []), s)
  | _ => (Throw (ExnSystem []), s)
  end.
#[export] Instance toy_Delegate : Delegate unit := {
  d_namespace_exists _ := mret true;
  d_create_namespace _ _ := mret tt;
  d_delete_namespace _ := mret tt;
  d_list_namespaces _ _ _ _ _ _ := mret ([], false);
  d_read_object_fs _ _ _ _ _ := mret tt;
  d_delete_object _ _ _ := mret tt;
  d_list_objects _ _ _ _ _ _ _ := mret ([], false);
  d_read_objects_slices2 _ slices _ := toy_read toy_content slices;
  d_get_object_info _ _ _ _ := mret (0, NoChecksum);
  d_apply_sequence_ _ _ _ _ := mret [];
  d_update_session _ := mret [];
  d_invalidate_cache _ := mret tt;
  d_drop_cache _ := mret tt;
  d_get_proxy_version := mret (1, 0, 0, []);
  d_ping d := mret d;
  d_osd_info m := mret m;
  d_osd_info2 _ := mret [(str "alba", ∅)];
  d_has_local_fragment_cache := mret false;
  d_get_fragment_encryption_key _ _ := mret (Some (str "key")) }.
#[export] Instance toy_Digest : Digest := {
  gcry_md_open := 0; gcry_md_final := 0; sha256 := @rev byte; gcrypt_initialized := true }.
Definition toy_client : RoraProxy_client unit :=
  Make_RoraProxy_client tt false false 0 0 5 25 message_builder.make None ∅.
(** The manifest of [two_chunks] is cached, its OSDs are unknown to the proxy. *)
Definition toy_state : rora_state unit script scripted :=
  Make_rora_state toy_client
    (run_steps ManifestCache.getInstance
       [StepLookupOrCreate (str "ns"); StepAddTo 1%positive (str "alba") two_chunks])
    None (Scripted 0 [] []) ∅ new_RoraCounter.

(** Computations that leave a part of the state alone, on every way out. *)
Definition keeps {ST A X} (f : ST -> X) (m : M ST A) : Prop := forall s, f (snd (m s)) = f s.

(** ** Facts *)

Lemma keeps_ret {ST A X} (f : ST -> X) (a : A) : keeps f (mret a : M ST A).
Proof. done. Qed.
Lemma keeps_mout {ST A X} (f : ST -> X) (o : outcome A) : keeps f (mout o : M ST A).
Proof. done. Qed.
Lemma keeps_gets {ST A X} (f : ST -> X) (g : ST -> A) : keeps f (gets g).
Proof. done. Qed.
Lemma keeps_modify {ST X} (f : ST -> X) (g : ST -> ST) :
  (forall s, f (g s) = f s) -> keeps f (modify g).
Proof. intros Hg s. apply Hg. Qed.
Lemma keeps_bind {ST A D X} (f : ST -> X) (m : M ST A) (k : A -> M ST D) :
  keeps f m -> (forall a, keeps f (k a)) -> keeps f (m ≫= k).
Proof.
  intros Hm Hk s. unfold mbind, M_bind. specialize (Hm s).
  destruct (m s) as [[a|e| |] s']; simpl in *; try done. by rewrite Hk.
Qed.
Lemma keeps_try {ST A X} (f : ST -> X) (m : M ST A) (h : exn -> M ST A) :
  keeps f m -> (forall e, keeps f (h e)) -> keeps f (try_catch m h).
Proof.
  intros Hm Hh s. unfold try_catch. specialize (Hm s).
  destruct (m s) as [[a|e| |] s']; simpl in *; try done. by rewrite Hh.
Qed.
Lemma keeps_for_each {ST A X} (f : ST -> X) (g : A -> M ST unit) (l : list A) :
  (forall a, keeps f (g a)) -> keeps f (for_each g l).
Proof. intros Hg. induction l; simpl; [done|]. by apply keeps_bind. Qed.
Lemma keeps_zoom {ST U A X} (f : ST -> X) (get : ST -> U) (set : U -> ST -> ST) (m : M U A) :
  (forall u s, f (set u s) = f s) -> keeps f (zoom get set m).
Proof. intros Hs s. unfold zoom. specialize (Hs (snd (m (get s))) s). by destruct (m (get s)). Qed.
Lemma keeps_zoom_inner {ST U A X} (f : ST -> X) (g : U -> X) (get : ST -> U) (set : U -> ST -> ST) (m : M U A) :
  (forall s, g (get s) = f s) -> (forall u s, f (set u s) = g u) -> keeps g m ->
  keeps f (zoom get set m).
Proof.
  intros Hg Hs Hm s. unfold zoom. specialize (Hm (get s)). destruct (m (get s)) as [o u]; simpl in *.
  by rewrite Hs, Hm.
Qed.

Create HintDb keeps.
#[export] Hint Resolve keeps_ret keeps_mout keeps_gets keeps_bind keeps_try keeps_for_each : keeps.

Lemma toy_read_filled {C} data slices (s s' : C * mem * RoraCounter) infos :
  toy_read data slices s = (Ret infos, s') ->
  infos = [] /\ forall os sd, os ∈ slices -> sd ∈ ProxyProtocol.slices os -> filled s'.1.2 sd data.
Proof.
  unfold toy_read. destruct slices as [|[nm [|sd0 [|? ?]]] [|? ?]]; try done.
  destruct ((0 <=? offset sd0) && (0 <=? sd_size sd0) && (offset sd0 + sd_size sd0 <=? len data)) eqn:E; [|done].
  intros [= <- <-]. split; [done|]. cbn [fst snd].
  intros os sd ->%list_elem_of_singleton Hsd. simpl in Hsd. apply list_elem_of_singleton in Hsd as ->.
  intros i Hi. assert (0 <= offset sd0 /\ offset sd0 + sd_size sd0 <= len data) as [Ho Hle] by lia.
  destruct (stretch (offset sd0) (sd_size sd0) data !! Z.to_nat i) as [b|] eqn:Eb.
  - replace i with (Z.of_nat (Z.to_nat i)) at 1 by lia.
    rewrite (mem_write_inside _ _ _ _ _ Eb). rewrite <- Eb. unfold stretch.
    rewrite lookup_take_lt, lookup_drop by lia. f_equal. lia.
  - apply lookup_ge_None in Eb. pose proof (len_stretch (offset sd0) (sd_size sd0) data) as Hl.
    unfold len in *. lia.
Qed.

#[export] Instance toy_Truthful : TruthfulDelegate unit.
Proof.
  refine {| content _ _ := toy_content |}.
  intros ns slices cr d mm cn infos d' mm' cn' Hr. by apply toy_read_filled in Hr as [_ Hr].
Defined.

Section facts.
Context {C : Type} `{Delegate C}.
Context {T W : Type} `{Transport T} `{World T W}.
Context {B : BimapOps bytes manifest_cache_entry} `{Gcrypt} `{Digest}.
Implicit Types s : rora_state C T W.

(** The failure count of a state. *)
Definition failures (s : rora_state C T W) : Z := _fast_path_failures (client s).

Lemma in_access_failures {A} (m : M (OsdAccess T * C) A) : keeps failures (in_access m).
Proof. by apply keeps_zoom. Qed.
Lemma in_access_memory {A} (m : M (OsdAccess T * C) A) : keeps memory (in_access (W := W) m).
Proof. by apply keeps_zoom. Qed.
Lemma in_manifests_keeps {A X} (f : rora_state C T W -> X) (m : M ManifestCache A) :
  (forall mc s, f (Make_rora_state (client s) mc (access s) (world s) (memory s) (cntr s)) = f s) ->
  keeps f (in_manifests m).
Proof. apply keeps_zoom. Qed.

Lemma process_keeps {X} (f : rora_state C T W -> X) infos ns :
  (forall A (m : M (OsdAccess T * C) A), keeps f (in_access m)) ->
  (forall A (m : M ManifestCache A), keeps f (in_manifests m)) ->
  keeps f (_process infos ns).
Proof.
  intros Ha Hm. apply keeps_for_each. intros [[n a] mf]. unfold process_info.
  apply keeps_bind; [|intros; apply Hm]. destruct (bool_decide (a = [])); [|done].
  apply keeps_bind; [apply Ha|]. by intros [].
Qed.

Lemma in_client_failures {A} (m : M (RoraProxy_client C) A) :
  keeps _fast_path_failures m -> keeps failures (in_client m).
Proof. by apply keeps_zoom_inner. Qed.

Lemma fragment_key_failures ns oid v c f :
  keeps _fast_path_failures (_fragment_key (C := C) ns oid v c f).
Proof. by apply keeps_zoom. Qed.

Lemma group_failures ls per_osd : keeps _fast_path_failures (group_per_osd (C := C) ls per_osd).
Proof.
  revert per_osd. induction ls as [|[target l] ls IH]; intros per_osd; simpl; [done|].
  apply keeps_bind; [by destruct (fst _)|]. intros o.
  apply keeps_bind; [apply fragment_key_failures|]. auto.
Qed.

Lemma encryption_key_keeps {X} (f : RoraProxy_client C -> X) a n k :
  (forall ks c, f (set_enc_keys ks c) = f c) -> (forall d c, f (set_delegate d c) = f c) ->
  keeps f (get_encryption_key a n k).
Proof.
  intros Hks Hd. unfold get_encryption_key. apply keeps_bind; [done|]. intros c.
  destruct (_enc_keys c !! k); [done|].
  apply keeps_bind; [by apply keeps_zoom|]. intros o.
  apply keeps_bind; [by destruct o|]. intros key.
  apply keeps_bind; [by destruct (_ =? _)|]. intros _.
  apply keeps_bind; [by destruct (_ =? _)|]. intros _.
  destruct (bool_decide _); (apply keeps_bind; [by apply keeps_modify|done]).
Qed.
Lemma encryption_key_failures a n k : keeps _fast_path_failures (get_encryption_key (C := C) a n k).
Proof. by apply encryption_key_keeps. Qed.

Lemma read_directly_failures levels ls : keeps failures (read_directly levels ls).
Proof.
  unfold read_directly, _short_path, _maybe_update_osd_infos. apply keeps_bind.
  - apply keeps_bind; [apply in_client_failures, group_failures|]. intros per_osd.
    apply keeps_bind.
    + apply keeps_bind; [apply in_access_failures|]. intros ok.
      destruct (negb ok); [|done]. apply keeps_bind; [apply in_access_failures|done].
    + intros _. apply keeps_bind; [done|]. intros b. destruct b; [done|]. by apply keeps_zoom.
  - intros rc. destruct (rc =? 0); [|done]. apply keeps_try; [|done].
    apply keeps_bind; [|done]. apply keeps_for_each. intros [p l]. simpl.
    destruct (loc_encrypt_info l) as [|e]; [done|].
    apply keeps_bind; [by destruct (loc_ctr l)|]. intros ctr.
    apply keeps_bind; [by destruct (last levels)|]. intros a.
    apply keeps_bind; [apply in_client_failures, encryption_key_failures|]. intros key.
    apply keeps_bind; [|by intros []]. intros s. unfold decrypt_in_place.
    by destruct (partial_decrypt _ _ _ _ _).
Qed.

Lemma via_proxy_failures ns slices cr : keeps failures (read_via_proxy ns slices cr).
Proof.
  apply keeps_bind; [by apply keeps_zoom|]. intros infos. apply process_keeps.
  - intros. apply in_access_failures.
  - intros. by apply in_manifests_keeps.
Qed.

Lemma le_split_inj n a b :
  0 <= a < 2 ^ (Z.of_nat n * 8) -> 0 <= b < 2 ^ (Z.of_nat n * 8) ->
  le_split n a = le_split n b -> a = b.
Proof. intros Ha Hb E. rewrite <- (le_combine_split_small n a Ha), E. by apply le_combine_split_small. Qed.

Lemma enc_fragment_key_inj ns oid v ch f ns' oid' v' ch' f' :
  valid_int 64 ns -> valid_int 32 v -> valid_int 32 ch -> valid_int 32 f -> len oid < 2 ^ 30 ->
  valid_int 64 ns' -> valid_int 32 v' -> valid_int 32 ch' -> valid_int 32 f' -> len oid' < 2 ^ 30 ->
  enc_fragment_key ns oid v ch f = enc_fragment_key ns' oid' v' ch' f' ->
  ns = ns' /\ oid = oid' /\ v = v' /\ ch = ch' /\ f = f'.
Proof.
  intros Hn Hv Hc Hf Ho Hn' Hv' Hc' Hf' Ho' E. unfold enc_fragment_key, enc_int, enc_string in E.
  do 3 apply app_inv_head in E. apply enc_be_x_uint64_inj in E as [<- E]; [|done..].
  apply app_inv_head in E. rewrite <- !app_assoc in E.
  pose proof (len_nonneg oid). pose proof (len_nonneg oid').
  apply app_inj_1 in E as [El E]; [|by rewrite !length_le_split].
  apply le_split_inj in El; [|simpl; lia..].
  apply app_inj_1 in E as [<- E]; [|unfold len in El; lia].
  apply app_inj_1 in E as [Ec E]; [|by rewrite !length_le_split].
  apply app_inj_1 in E as [Ef Ev]; [|by rewrite !length_le_split].
  apply le_split_inj in Ec, Ef, Ev; try done.
Qed.

Lemma via_proxy_memory infos ns : keeps memory (_process (C := C) (T := T) (W := W) infos ns).
Proof. apply process_keeps; [intros; apply in_access_memory|intros; by apply in_manifests_keeps]. Qed.

(** Reading directly is only chosen with at most 100 failures. *)
Lemma choose_path_spec cr s :
  exists b s', choose_path cr s = (Ret b, s') /\
    (b = false -> failures s' <= 100) /\ (failures s' = failures s \/ failures s' = 0).
Proof.
  unfold choose_path. rewrite gets_bind. destruct (Z.ltb_spec 100 (_fast_path_failures (client s))) as [Hlt|Hge].
  - unfold steady_clock_now, mbind, M_bind. destruct (steady_now (world s)) as [n w].
    destruct (120 <? _); simpl.
    + do 2 eexists. split; [reflexivity|]. unfold failures; simpl. split; [lia|by right].
    + do 2 eexists. split; [reflexivity|]. unfold failures; simpl. split; [done|by left].
  - do 2 eexists. split; [reflexivity|]. unfold failures. split; [done|by left].
Qed.

Lemma account_spec rc n s :
  exists s', account rc n s = (Ret tt, s') /\ memory s' = memory s /\
    failures s' = (if rc =? 0 then 0 else if rc =? -2 then failures s else failures s + 1).
Proof.
  unfold account. destruct (rc =? 0); simpl.
  - by eexists.
  - unfold steady_clock_now, mbind, M_bind. destruct (steady_now (world s)) as [t w].
    eexists. split; [reflexivity|]. by destruct (rc =? -2).
Qed.

Lemma read_via_proxy_filled {TD : TruthfulDelegate C} ns slices cr s s' os sd :
  read_via_proxy ns slices cr s = (Ret tt, s') -> os ∈ slices -> sd ∈ ProxyProtocol.slices os ->
  filled (memory s') sd (content ns (object_name os)).
Proof.
  unfold read_via_proxy, _slow_path, zoom, mbind, M_bind. intros Hr Hos Hsd.
  destruct (d_read_objects_slices2 _ _ _ _) as [[infos|e| |] [[d mm] cn]] eqn:Ed; try done.
  cbn [fst snd] in Hr. apply (f_equal (memory ∘ snd)) in Hr. simpl in Hr.
  rewrite via_proxy_memory in Hr. simpl in Hr. rewrite <- Hr. by eapply read_truthful.
Qed.

Lemma fragment_key_appends ns oid v c f :
  valid_int 64 ns -> valid_int 32 v -> valid_int 32 c -> valid_int 32 f ->
  appends (fragment_key_writer ns oid v c f) (enc_fragment_key ns oid v c f).
Proof.
  intros. unfold fragment_key_writer, enc_fragment_key.
  appends_step. appends_step. appends_step.
  apply appends_bind; [by apply to_be_x_uint64_appends|].
  do 4 appends_step. apply to_u32_encodes.
Qed.
Lemma fragment_key_spec (c : RoraProxy_client C) ns oid v ch f :
  valid_int 64 ns -> valid_int 32 v -> valid_int 32 ch -> valid_int 32 f -> len oid < 2 ^ 30 ->
  wf_builder (_fkb c) -> message_builder._pos (_fkb c) = 4 ->
  exists fkb, _fragment_key ns oid v ch f c = (Ret (enc_fragment_key ns oid v ch f), set_fkb fkb c) /\
    wf_builder fkb /\ message_builder._pos fkb = 4.
Proof.
  intros Hn Hv Hc Hf Ho Hwf Hp.
  destruct (fragment_key_appends ns oid v ch f Hn Hv Hc Hf (_fkb c) Hwf) as (b1 & Hw & Hwf1 & _ & Hc1).
  { rewrite Hp. unfold enc_fragment_key, enc_be_x_uint64, enc_string, enc_int, len in *.
    destruct (ns <? max_int32);
      repeat (rewrite length_app || rewrite length_rev || rewrite length_le_split); simpl; lia. }
  destruct (reset_spec b1 Hwf1) as (b2 & Hr & Hwf2 & Hp2 & _).
  exists b2. split; [|done]. unfold _fragment_key, zoom.
  rewrite (bind_ret_eq _ _ _ _ _ Hw), gets_bind, (bind_ret_eq _ _ _ _ _ Hr).
  assert (contents (_fkb c) = []) as Hc0.
  { pose proof (len_contents _ Hwf) as Hl. rewrite Hp in Hl.
    destruct (contents (_fkb c)) as [|x l]; [done|]. rewrite len_cons in Hl.
    pose proof (len_nonneg l). lia. }
  rewrite Hc0 in Hc1. unfold contents in Hc1. by rewrite Hc1.
Qed.
End facts.

(** Without a local fragment cache, whether the caller wants a consistent read plays no
    part in the choice of the path. *)
Lemma consistent_read_uses_cache {C} {T W} `{World T W} {B : BimapOps bytes manifest_cache_entry}
    cr (s : rora_state C T W) :
  _has_local_fragment_cache (client s) = false -> choose_path cr s = choose_path false s.
Proof. intros Hl. unfold choose_path. rewrite !gets_bind, Hl. by destruct cr. Qed.

(** Keys are only taken in under their own hash. *)
Lemma get_encryption_key_spec {C} `{Delegate C} `{Digest} (c c' : RoraProxy_client C)
    alba_id ns key_identification o :
  keys_authentic c -> get_encryption_key alba_id ns key_identification c = (o, c') ->
  keys_authentic c' /\ forall enc_key, o = Ret enc_key -> sha256 enc_key = key_identification.
Proof.
  intros Hk. unfold get_encryption_key. rewrite gets_bind. unfold id.
  destruct (_enc_keys c !! key_identification) as [key|] eqn:E.
  { intros [= <- <-]. split; [done|]. intros ? [= <-]. by apply Hk. }
  unfold in_delegate, zoom, mbind, M_bind.
  destruct (d_get_fragment_encryption_key alba_id ns (_delegate c)) as [[[key|]|e| |] d];
    try (intros [= <- <-]; by split).
  destruct (gcry_md_open =? 0), (gcry_md_final =? 0); try (intros [= <- <-]; by split).
  cbn [mret M_ret]. destruct (bool_decide_reflect (key_identification = sha256 key)) as [->|Hne];
    intros [= <- <-]; (split; [|naive_solver]); intros id k; simpl.
  - intros [[<- <-]|[_ ?]]%lookup_insert_Some; [done|by apply Hk].
  - intros [?|[_ [<- <-]%lookup_singleton_Some]]%lookup_union_Some_raw; [by apply Hk|done].
Qed.

(** ** Properties *)





(** The key of a fragment: its bytes are the documented layout, the client's key
    builder is ready for the next one, and no two fragments, versions, objects or
    namespaces share a key. *)
Theorem fragment_key_identifies {C} (c : RoraProxy_client C) ns oid v ch f :
  valid_int 64 ns -> valid_int 32 v -> valid_int 32 ch -> valid_int 32 f -> len oid < 2 ^ 30 ->
  wf_builder (_fkb c) -> message_builder._pos (_fkb c) = 4 ->
  (exists fkb, _fragment_key ns oid v ch f c
     = (Ret (enc_fragment_key ns oid v ch f), set_fkb fkb c) /\
     wf_builder fkb /\ message_builder._pos fkb = 4) /\
  (forall ns' oid' v' ch' f', valid_int 64 ns' -> valid_int 32 v' -> valid_int 32 ch' ->
     valid_int 32 f' -> len oid' < 2 ^ 30 ->
     enc_fragment_key ns oid v ch f = enc_fragment_key ns' oid' v' ch' f' ->
     ns = ns' /\ oid = oid' /\ v = v' /\ ch = ch' /\ f = f').
Proof.
  intros. split; [by apply fragment_key_spec|]. intros. by eapply enc_fragment_key_inj.
Qed.

Lemma fragment_key_identifies_witness :
  exists fkb, _fragment_key 5 (str "oid") 1 2 3 toy_client
    = (Ret (str "p" ++ le_split 4 0 ++ str "n" ++ rev (le_split 4 5) ++ str "o"
            ++ le_split 4 3 ++ str "oid" ++ le_split 4 2 ++ le_split 4 3 ++ le_split 4 1),
       set_fkb fkb toy_client).
Proof.
  destruct (fragment_key_identifies toy_client 5 (str "oid") 1 2 3) as [(fkb & H & _) _];
    try (split; vm_compute; congruence); try reflexivity.
  - exact wf_make.
  - exists fkb. exact H.
Defined.

(** C28: only keys that hash to what was asked for are given out: the key cache holds
    every key under its own SHA-256, before and after, however the call ends, and a
    key that is returned has the identification as its hash. *)
Theorem encryption_keys_authentic {C} `{Delegate C} `{Digest} (c c' : RoraProxy_client C)
    alba_id ns key_identification o :
  keys_authentic c -> get_encryption_key alba_id ns key_identification c = (o, c') ->
  keys_authentic c' /\ forall enc_key, o = Ret enc_key -> sha256 enc_key = key_identification.
Proof. apply get_encryption_key_spec. Qed.

Lemma encryption_keys_authentic_witness :
  fst (get_encryption_key (str "alba") 1 (str "yek") toy_client) = Ret (str "key") /\
  keys_authentic (snd (get_encryption_key (str "alba") 1 (str "other") toy_client)).
Proof.
  split; [vm_compute; reflexivity|].
  destruct (get_encryption_key (str "alba") 1 (str "other") toy_client) as [o c'] eqn:E.
  apply (encryption_keys_authentic toy_client c' (str "alba") 1 (str "other") o); [|exact E].
  intros k v Hk. unfold toy_client in Hk. simpl in Hk. by rewrite lookup_empty in Hk.
Defined.
