(* ===== verification/Connecting.v ===== *)
(** * Connecting to the proxy

    The factory [make_proxy_client] and the constructors behind it ([RoraClient],
    [ProxyClient], [GenericClient]), over any transport: the greeting, the two questions
    the RORA client asks a proxy that may be too old to know them, and what becomes of
    the connection when one of the constructors throws. *)

From S2P Require Import Prelude Llio Stuff AlbaCommon Checksum Encryption OsdInfo Manifest Sequences.
From S2P Require Import ProxyProtocol LruCache ManifestCache Transport TransportHelper GenericClient.
From S2P Require Import ProxyCalls ProxyClient RoraClient.

Local Open Scope Z_scope.
Local Open Scope alba_scope.

(** A proxy's answer to a question: the result, or an error. *)
Inductive reply (A : Type) := Supported (a : A) | Refused (rc : Z) (what : bytes).
Arguments Supported {A} a.
Arguments Refused {A} rc what.
Definition enc_reply {A} (enc : A -> bytes) (r : reply A) : bytes :=
  match r with Supported a => enc_status 0 [] ++ enc a | Refused rc what => enc_status rc what end.
Definition valid_reply {A} (enc : A -> bytes) (r : reply A) : Prop :=
  len (enc_reply enc r) < 2 ^ 31 /\
  match r with Supported _ => True | Refused rc _ => valid_int 32 rc /\ rc <> 0 end.
(** What the constructor makes of it: a proxy that does not know the question has an
    answer all the same. *)
Definition tolerated {A D} (f : A -> D) (d : D) (r : reply A) : outcome D :=
  match r with
  | Supported a => Ret (f a)
  | Refused rc what =>
      if rc =? return_code.UNKNOWN_OPERATION then Ret d
      else Throw (ExnProxy (Proxy_exception rc what))
  end.

Lemma tolerated_ends {A D} (f : A -> D) d r :
  match tolerated f d r with Ret _ | Throw _ => True | _ => False end.
Proof. unfold tolerated. destruct r; [done|]. by destruct (_ =? _). Qed.

(** The greeting and the questions. *)
Definition greeting : bytes := le_split 4 1148837403 ++ le_split 4 1.
Definition ask_cache : request := HasLocalFragmentCache.
Definition ask_session : request := UpdateSession [(str "manifest_ser", Some [Byte.x02])].
Definition enc_kvs : list (bytes * bytes) -> bytes := enc_vector (enc_pair enc_string enc_string).

Section connecting.
Context `{RT : ReliableTransport T} {W : Type} {WW : World T W} `{Snappy}.
Context {B : BimapOps bytes manifest_cache_entry} {D : Digest}.
Implicit Types (c : GenericProxy_client T) (w : W).

Lemma init_spec c : idle c ->
  exists c', GenericClient.init_ c = (Ret tt, c') /\ idle c' /\
    incoming (_transport c') = incoming (_transport c) /\
    outgoing (_transport c') = outgoing (_transport c) ++ greeting.
Proof.
  intros (Hpt & Hl & Hb). destruct (expires_spec (_timeout c) _ Hl Hpt) as (t1 & H1 & Hl1 & Hi1 & Ho1).
  destruct (write_exact_spec (le_split 4 1148837403) t1 Hl1) as (t2 & H2 & Hl2 & Hi2 & Ho2).
  destruct (write_exact_spec (le_split 4 1) t2 Hl2) as (t3 & H3 & Hl3 & Hi3 & Ho3).
  destruct (expires_spec duration_max t3 Hl3 patient_max) as (t4 & H4 & Hl4 & Hi4 & Ho4).
  exists (Make_GenericProxy_client (_status c) t4 (_timeout c) (_mb c)).
  split; [|split; [by split|split; simpl; [congruence|]]].
  - unfold GenericClient.init_, on_transport. rewrite gets_bind. unfold id.
    rewrite (bind_ret_eq _ _ _ _ _ (zoom_eq _ _ _ _ _ _ H1)).
    erewrite bind_ret_eq; [|by apply zoom_eq]. erewrite bind_ret_eq; [|by apply zoom_eq].
    erewrite zoom_eq; [reflexivity|exact H4].
  - rewrite Ho4, Ho3, Ho2, Ho1. unfold greeting. by rewrite <- app_assoc.
Qed.

(** A question through a delegate, answered or tolerated. *)
Lemma question_spec {A F} (m : method A) (f : A -> F) (d : F) enc (r : reply A) c rest
    (q : M (GenericProxy_client T) F) :
  (forall c, q c = unless_unknown (a ← run_method m; mret (f a)) d c) ->
  idle c -> valid_request (request_of m) -> len (enc_request (request_of m)) < 2 ^ 31 - 4 ->
  (forall a, r = Supported a -> answers m (enc a) a) ->
  (forall rc what, on_error m rc what = Throw (ExnProxy (Proxy_exception rc what))) ->
  valid_reply enc r -> incoming (_transport c) = frame (enc_reply enc r) ++ rest ->
  exists c', q c = (tolerated f d r, c') /\ exchanged (enc_request (request_of m)) rest c c'.
Proof.
  intros Hq Hi Hv Hreq Ha Herr [Hl Hr] Hin. rewrite Hq. unfold unless_unknown, try_catch.
  destruct r as [a|rc what]; cbn [enc_reply tolerated] in *.
  - destruct (run_ok m c (enc a) a rest Hi Hv Hreq (Ha a eq_refl) Hl Hin) as (c' & Hc & Hx).
    exists c'. by rewrite (bind_ret_eq _ _ _ _ _ Hc).
  - destruct Hr as [Hrc Hne].
    destruct (run_error m c rc what rest Hi Hv Hreq Hl Hrc Hne Hin) as (c' & Hc & Hx).
    exists c'. rewrite Herr in Hc. rewrite (bind_throw_eq _ _ _ _ _ Hc). cbn [pe_return_code].
    by destruct (rc =? return_code.UNKNOWN_OPERATION).
Qed.

Lemma has_local_cache_spec (r : reply bool) c rest : idle c -> valid_reply enc_bool r ->
  incoming (_transport c) = frame (enc_reply enc_bool r) ++ rest ->
  exists c', unless_unknown d_has_local_fragment_cache false c = (tolerated id false r, c') /\
    exchanged (enc_request ask_cache) rest c c'.
Proof.
  intros Hi Hr Hin. apply (question_spec MHasLocalFragmentCache id false enc_bool r c rest); try done.
  intros c'. unfold unless_unknown, try_catch, mbind, M_bind. cbn [run_method].
  change (d_has_local_fragment_cache c') with (has_local_fragment_cache c').
  by destruct (has_local_fragment_cache c') as [[]].
Qed.

Lemma session_spec (r : reply (list (bytes * bytes))) c rest : idle c -> valid_reply enc_kvs r ->
  (forall kvs, r = Supported kvs -> len kvs < 2 ^ 31) ->
  incoming (_transport c) = frame (enc_reply enc_kvs r) ++ rest ->
  exists c', unless_unknown (kvs ← d_update_session [(str "manifest_ser", Some [Byte.x02])];
                             mret (session_version kvs)) (Some 1) c
    = (tolerated session_version (Some 1) r, c') /\ exchanged (enc_request ask_session) rest c c'.
Proof.
  intros Hi Hr Hl Hin.
  apply (question_spec (MUpdateSession [(str "manifest_ser", Some [Byte.x02])]) session_version (Some 1)
    enc_kvs r c rest); try done. intros kvs ->. split; [done|by apply Hl].
Qed.

(** The client [make_proxy_client] returns. *)
Definition made_client (cfg : RoraConfig) (local_cache : bool) (ser : option Z) c :
    RoraProxy_client (GenericProxy_client T) :=
  Make_RoraProxy_client c (use_null_io cfg) local_cache 0 0 (asd_connection_pool_size cfg)
    (asd_partial_read_timeout_milliseconds cfg * 10 ^ 6) message_builder.make ser ∅.

(** The two questions, one after the other; the second is not asked when the first answer
    is an error that is not tolerated. *)
Definition constructed (cfg : RoraConfig) (r1 : reply bool) (r2 : reply (list (bytes * bytes))) c :
    outcome (RoraProxy_client (GenericProxy_client T)) :=
  match tolerated id false r1, tolerated session_version (Some 1) r2 with
  | Ret local_cache, Ret ser => Ret (made_client cfg local_cache ser c)
  | Ret _, Throw e | Throw e, _ => Throw e
  | _, _ => Undef
  end.
Definition asked_requests (r1 : reply bool) : list request :=
  match tolerated id false r1 with Ret _ => [ask_cache; ask_session] | _ => [ask_cache] end.

Lemma constructor_spec cfg mc c r1 r2 rest :
  gcrypt_initialized = true -> wf_manifest_cache mc -> 0 < manifest_cache_size cfg -> idle c ->
  valid_reply enc_bool r1 -> valid_reply enc_kvs r2 -> (forall kvs, r2 = Supported kvs -> len kvs < 2 ^ 31) ->
  incoming (_transport c) = frame (enc_reply enc_bool r1) ++ frame (enc_reply enc_kvs r2) ++ rest ->
  exists mc' c', new_RoraProxy_client cfg (mc, c) = (constructed cfg r1 r2 c', (mc', c')) /\
    wf_manifest_cache mc' /\ _manifest_cache_capacity mc' = manifest_cache_size cfg /\ idle c' /\
    outgoing (_transport c') = outgoing (_transport c) ++ concat (frame ∘ enc_request <$> asked_requests r1).
Proof.
  intros Hg Hmc Hcap Hi Hr1 Hr2 Hl2 Hin.
  destruct (set_capacity_spec (manifest_cache_size cfg) mc Hmc Hcap) as (mc' & Hset & Hw & _).
  assert (_manifest_cache_capacity mc' = manifest_cache_size cfg) as Hc.
  { unfold set_capacity, with_level1, lock_guard in Hset. rewrite (wf_unlocked mc Hmc) in Hset. by injection Hset as <-. }
  destruct (has_local_cache_spec r1 c _ Hi Hr1 Hin) as (c1 & Hq1 & Hi1 & _ & Hin1 & Ho1).
  destruct (session_spec r2 c1 rest Hi1 Hr2 Hl2 Hin1) as (c2 & Hq2 & Hi2 & _ & _ & Ho2).
  exists mc'. unfold new_RoraProxy_client. rewrite Hg, ret_bind.
  erewrite bind_ret_eq; [|unfold zoom; cbn [fst]; rewrite Hset; reflexivity].
  apply (zoom_eq snd (fun c s => (s.1, c)) _ (mc', c)) in Hq1.
  apply (zoom_eq snd (fun c s => (s.1, c)) _ (mc', c1)) in Hq2. cbn [fst snd] in Hq1, Hq2.
  unfold constructed, asked_requests.
  destruct (tolerated id false r1) as [local_cache|e| |] eqn:Et1.
  - exists c2. split.
    + rewrite (bind_ret_eq _ _ _ _ _ Hq1). pose proof (tolerated_ends session_version (Some 1) r2) as Hend.
      destruct (tolerated session_version (Some 1) r2); try done.
      * by rewrite (bind_ret_eq _ _ _ _ _ Hq2).
      * by rewrite (bind_throw_eq _ _ _ _ _ Hq2).
    + split_and!; try done; try apply Hi2. rewrite Ho2, Ho1, <- app_assoc. cbn [fmap list_fmap concat].
      by rewrite app_nil_r.
  - exists c1. split; [by rewrite (bind_throw_eq _ _ _ _ _ Hq1)|]. split_and!; try done; try apply Hi1.
  - pose proof (tolerated_ends id false r1) as Hend. by rewrite Et1 in Hend.
  - pose proof (tolerated_ends id false r1) as Hend. by rewrite Et1 in Hend.
Qed.
End connecting.

(** ** Property *)

(** C27: Connecting.  When the transport can be made, the factory greets the proxy and
    asks its two questions; a proxy that is too old to know one of them is taken to have
    no local fragment cache, or to speak version 1 of the manifests.  The client that
    comes back is set up accordingly, its delegate ready for the first call, the manifest
    cache of the size configured.  Any other error answer is thrown, and the connection
    is closed; and when no transport can be made, its exception is thrown. *)
Theorem make_proxy_client_connects `{RT : ReliableTransport T} {W} {WW : World T W} `{Snappy}
    {B : BimapOps bytes manifest_cache_entry} {D : Digest} ip port timeout k cfg mc (w : W) :
  gcrypt_initialized = true -> wf_manifest_cache mc -> 0 < manifest_cache_size cfg ->
  match make_transport k ip port timeout w with
  | (Ret t, w1) => forall r1 r2 rest, live t -> patient (T := T) timeout ->
      valid_reply enc_bool r1 -> valid_reply enc_kvs r2 -> (forall kvs, r2 = Supported kvs -> len kvs < 2 ^ 31) ->
      incoming t = frame (enc_reply enc_bool r1) ++ frame (enc_reply enc_kvs r2) ++ rest ->
      exists mc' c, wf_manifest_cache mc' /\ _manifest_cache_capacity mc' = manifest_cache_size cfg /\ idle c /\
        outgoing (GenericClient._transport c)
          = outgoing t ++ greeting ++ concat (frame ∘ enc_request <$> asked_requests r1) /\
        make_proxy_client ip port timeout k (Some cfg) (mc, w)
        = match constructed cfg r1 r2 c with
          | Ret rora => (Ret (inr rora), (mc', w1))
          | Throw e => (Throw e, (mc', close_transport (GenericClient._transport c) w1))
          | Abort => (Abort, (mc', w1))
          | Undef => (Undef, (mc', w1))
          end
  | (Throw e, w1) => make_proxy_client ip port timeout k (Some cfg) (mc, w) = (Throw e, (mc, w1))
  | _ => True
  end.
Proof.
  intros Hg Hmc Hcap. destruct (make_transport k ip port timeout w) as [[t|e| |] w1] eqn:Et; [|..|done|done].
  - intros r1 r2 rest Hl Hpt Hr1 Hr2 Hl2 Hin.
    destruct (init_spec (Make_GenericProxy_client (Make_Status 0 []) t timeout message_builder.make))
      as (c0 & Hinit & Hi0 & Hin0 & Ho0); [split; [done|]; split; [done|]; split; [exact wf_make|done]|].
    cbn [GenericClient._transport] in *. rewrite Hin in Hin0.
    destruct (constructor_spec cfg mc c0 r1 r2 rest Hg Hmc Hcap Hi0 Hr1 Hr2 Hl2 Hin0)
      as (mc' & c & Hnew & Hw & Hc & Hi & Ho).
    exists mc', c. split_and!; try done; try apply Hi. { by rewrite Ho, Ho0, <- app_assoc. }
    unfold make_proxy_client, _make_proxy_client. cbn [fst snd]. rewrite Et.
    unfold make_GenericProxy_client. rewrite Hinit, Hnew. by destruct (constructed cfg r1 r2 c).
  - unfold make_proxy_client, _make_proxy_client. cbn [fst snd]. by rewrite Et.
Qed.

(** A proxy that does not know about sessions. *)
Lemma make_proxy_client_connects_witness :
  let t := Script (frame (enc_status 0 [] ++ enc_bool true) ++ frame (enc_status return_code.UNKNOWN_OPERATION (str "huh?"))) [] in
  let w := Scripted 0 [Some t] [] in
  let r := make_proxy_client (H1 := fun bs => bs) (B := list_bimap_ops) (str "10.0.0.1") (str "10000") 1000 tcp
             (Some default_RoraConfig) (ManifestCache.getInstance, w) in
  exists c, fst r = Ret (inr c) /\ _has_local_fragment_cache c = true /\ _ser_version c = Some 1.
Proof.
  intros t w r.
  pose proof (make_proxy_client_connects (H0 := fun bs => bs) (B := list_bimap_ops) (str "10.0.0.1") (str "10000") 1000 tcp
    default_RoraConfig ManifestCache.getInstance w eq_refl ManifestCache.getInstance_wf ltac:(reflexivity)) as Hm.
  cbn [make_transport scripted_world w sw_peers] in Hm.
  destruct (Hm (Supported true) (Refused return_code.UNKNOWN_OPERATION (str "huh?")) []) as (mc' & c & _ & _ & _ & _ & Hr).
  - exact I.
  - exact I.
  - by split.
  - split; [reflexivity|]. split; [vm_compute; split; congruence|discriminate].
  - intros kvs Hk. discriminate Hk.
  - reflexivity.
  - eexists. split; [unfold r; rewrite Hr; reflexivity|]. by split.
Defined.
