(* ===== verification/FastPath.v ===== *)
(** * Reading from the OSDs, end to end

    The composition of the components a successful fast path goes through: the
    manifest cache and the resolution of slices ([RoraLocation]), the fragments' keys
    and their grouping per OSD ([RoraClient]), the connections and the ASD protocol
    ([OsdAccess], [ConnectionPool], [AsdClient]), and the decryption in place
    ([Encryption]).  The abstract specification is [read_objects]: every slice's bytes
    of its object at the slice's address.  The theorem [fast_path_refines] says that
    [read_objects_slices] implements it without asking the proxy. *)

From S2P Require Import Prelude Llio AlbaCommon Checksum Encryption OsdInfo Manifest ProxyProtocol.
From S2P Require Import Writes LruCache ManifestCache Transport TransportHelper GenericClient.
From S2P Require Import AsdProtocol AsdClient ConnectionPool OsdAccess RoraLocation ProxyClient RoraClient.

Local Open Scope Z_scope.
Local Open Scope alba_scope.

(** ** Specification *)

(** Every slice of every object, at its address. *)
Definition read_objects (content : bytes -> bytes) (slices : list ObjectSlices) (mm : mem) : mem :=
  foldl (fun mm os => read_slices (content (object_name os)) (ProxyProtocol.slices os) mm) mm slices.

(** What the ASDs hold: the value of a key, and the part of it a location names. *)
Abbreviation disks := (osd_t -> bytes -> bytes).
Definition osd_of (l : Location) : osd_t := default 0 (fst (loc_fragment_location l)).
Definition key_of (l : Location) : bytes :=
  enc_fragment_key (loc_namespace_id l) (loc_object_id l) (snd (loc_fragment_location l))
    (loc_chunk_id l) (loc_fragment_id l).
Definition asd_data (disk : disks) (osd : osd_t) (s : asd_slice) : bytes :=
  stretch (as_offset s) (as_len s) (disk osd (as_key s)).
Definition stored (disk : disks) (l : Location) : bytes :=
  stretch (loc_offset l) (loc_length l) (disk (osd_of l) (key_of l)).
(** The same after decryption of the whole value; [key_for] is the client's key cache. *)
Definition plain `{G : Gcrypt} (E : bytes -> Z -> bytes) (key_for : bytes -> bytes) (disk : disks)
    (l : Location) : bytes :=
  stretch (loc_offset l) (loc_length l)
    match loc_encrypt_info l with
    | NoEncryption => disk (osd_of l) (key_of l)
    | IsEncrypted e =>
        xor_stream (E (key_for (key_identification e)))
          (le_combine (rev (default [] (loc_ctr l)))) 0 (disk (osd_of l) (key_of l))
    end.

(** The request for a location, and the requests of many, per OSD. *)
Definition asd_of (p : Z * Location) : asd_slice :=
  Make_asd_slice (key_of p.2) (loc_offset p.2) (loc_length p.2) p.1.
Definition push_all (ls : list (Z * Location)) (per_osd : list (osd_t * list asd_slice)) :
    list (osd_t * list asd_slice) :=
  foldl (fun per_osd p => push_slice (osd_of p.2) (asd_of p) per_osd) per_osd ls.

(** A location whose fragment's key can be written. *)
Record addressable (l : Location) : Prop := {
  ad_osd : is_Some (fst (loc_fragment_location l));
  ad_ns : valid_int 64 (loc_namespace_id l);
  ad_version : valid_int 32 (snd (loc_fragment_location l));
  ad_chunk : valid_int 32 (loc_chunk_id l);
  ad_fragment : valid_int 32 (loc_fragment_id l);
  ad_oid : len (loc_object_id l) < 2 ^ 30 }.

(** A location that lies inside its value and that can be decrypted with the right key. *)
Record decryptable (key_for : bytes -> bytes) (disk : disks) (l : Location) : Prop := {
  de_offset : 0 <= loc_offset l < 2 ^ 31;
  de_length : 0 <= loc_length l;
  de_inside : loc_offset l + loc_length l <= len (disk (osd_of l) (key_of l));
  de_key : match loc_encrypt_info l with
           | NoEncryption => True
           | IsEncrypted e => mode e = CTR /\ (forall ctr, loc_ctr l = Some ctr -> len ctr = 16) /\
               len (key_for (key_identification e)) = 32
           end }.
(** The client has all it takes. *)
Record readable {C} (c : RoraProxy_client C) (key_for : bytes -> bytes) (disk : disks)
    (l : Location) : Prop := {
  re_value : decryptable key_for disk l;
  re_key : match loc_encrypt_info l with
           | NoEncryption => True
           | IsEncrypted e => is_Some (loc_ctr l) /\
               _enc_keys c !! key_identification e = Some (key_for (key_identification e))
           end }.

(** One OSD of the fast path is ready to answer. *)
Definition osd_ready `{RT : ReliableTransport T} {W} {WW : World T W} (a : OsdAccess T) (w : W)
    (disk : disks) (lid : osd_t -> bytes) (p : osd_t * list asd_slice) : Prop :=
  exists pool c cs rest,
    ready a w p.1 (lid p.1) p.2 (asd_data disk p.1 <$> p.2) pool c cs rest /\
    ConnectionPool._fast_path_failures pool < 15.

(** ** Grouping *)

Definition flatten (per_osd : list (osd_t * list asd_slice)) : list (osd_t * asd_slice) :=
  concat ((fun p : osd_t * list asd_slice => pair p.1 <$> p.2) <$> per_osd).

Lemma push_slice_flatten osd s per_osd :
  flatten (push_slice osd s per_osd) ≡ₚ (osd, s) :: flatten per_osd.
Proof.
  unfold flatten. induction per_osd as [|[o ss] rest IH]; [done|]. simpl.
  destruct (osd <? o); [done|]. destruct (Z.eqb_spec osd o) as [->|Hne]; simpl.
  - rewrite fmap_app, <- app_assoc. simpl. by rewrite <- Permutation_middle.
  - rewrite IH. by rewrite <- Permutation_middle.
Qed.

Lemma push_all_flatten ls per_osd :
  flatten (push_all ls per_osd) ≡ₚ ((fun p => (osd_of p.2, asd_of p)) <$> ls) ++ flatten per_osd.
Proof.
  revert per_osd. induction ls as [|p ls IH]; intros per_osd; [done|]. simpl.
  rewrite IH, push_slice_flatten. by rewrite <- Permutation_middle.
Qed.

(** The writes of the grouped requests are those of the locations. *)
Lemma grouped_writes disk ls :
  ((fun q => (as_target q.2, asd_data disk q.1 q.2)) <$> flatten (push_all ls []))
  ≡ₚ ((fun p => (p.1, stored disk p.2)) <$> ls).
Proof.
  rewrite push_all_flatten. change (flatten []) with (@nil (osd_t * asd_slice)).
  rewrite app_nil_r, <- list_fmap_compose. done.
Qed.

Lemma set_fkb_set {C} b b' (c : RoraProxy_client C) : set_fkb b (set_fkb b' c) = set_fkb b c.
Proof. done. Qed.
Lemma set_fkb_same {C} (c : RoraProxy_client C) : set_fkb (_fkb c) c = c.
Proof. by destruct c. Qed.

Lemma group_per_osd_spec {C} ls per_osd (c : RoraProxy_client C) :
  Forall (fun p => addressable p.2) ls -> wf_builder (_fkb c) -> message_builder._pos (_fkb c) = 4 ->
  exists b, group_per_osd ls per_osd c = (Ret (push_all ls per_osd), set_fkb b c) /\
    wf_builder b /\ message_builder._pos b = 4.
Proof.
  intros Hls. revert per_osd c. induction Hls as [|[t l] ls [[o Ho] Hn Hv Hch Hf Hoid] _ IH];
    intros per_osd c Hwf Hp.
  { exists (_fkb c). rewrite set_fkb_same. by split_and!. }
  cbn [group_per_osd]. cbn [snd] in *. rewrite Ho, ret_bind.
  assert (osd_of l = o) as Hosd by (unfold osd_of; by rewrite Ho).
  destruct (fragment_key_spec c _ _ _ _ _ Hn Hv Hch Hf Hoid Hwf Hp) as (b & Hk & Hwf' & Hp').
  rewrite (bind_ret_eq _ _ _ _ _ Hk).
  destruct (IH (push_slice o (asd_of (t, l)) per_osd) (set_fkb b c)) as (b' & Hg & Hwfb); [done|done|].
  exists b'. split; [|exact Hwfb]. unfold asd_of in Hg. cbn [fst snd] in Hg. fold (key_of l). rewrite Hg, set_fkb_set.
  unfold push_all; cbn [foldl snd]. by rewrite Hosd.
Qed.

(** ** Reading from several OSDs *)

Lemma write_asd_slices_apply disk osd ss mm :
  write_asd_slices ss (asd_data disk osd <$> ss) mm
  = apply_writes ((fun s => (as_target s, asd_data disk osd s)) <$> ss) mm.
Proof.
  unfold write_asd_slices, apply_writes. revert mm.
  induction ss as [|s ss IH]; intros mm; [done|]. simpl. apply IH.
Qed.

Section osds.
Context `{RT : ReliableTransport T} {W : Type} {WW : World T W}.
Implicit Types a : OsdAccess T.

(** Serving one OSD leaves the others ready. *)
Lemma osd_ready_other a w disk lid p key pool :
  key <> lid p.1 -> osd_ready a w disk lid p ->
  osd_ready (set_pools (Make_ConnectionPools false
    (<[key := pool]> (connection_pools_ (asd_connection_pools a)))) a) w disk lid p.
Proof.
  intros Hne (pool' & c & cs & rest & [Hk Hp Hf Hb Hc Hcap Hi HF Hin] & Hn).
  exists pool', c, cs, rest. split; [|done]. split; try done.
  cbn. by rewrite lookup_insert_ne.
Qed.

Lemma read_osds_spec disk lid per_osd a w mm :
  _osd_maps_mutex a = false -> pools_mutex (asd_connection_pools a) = false ->
  NoDup (lid ∘ fst <$> per_osd) -> Forall (osd_ready a w disk lid) per_osd ->
  exists pools, read_osds_slices per_osd (a, w, mm)
    = (Ret 0, (set_pools pools a, w,
         apply_writes ((fun q => (as_target q.2, asd_data disk q.1 q.2)) <$> flatten per_osd) mm)).
Proof.
  intros Hm. revert a mm Hm. induction per_osd as [|[osd ss] per_osd IH]; intros a mm Hm Hpm Hnd Hr.
  { exists (asd_connection_pools a). by destruct a. }
  apply Forall_cons in Hr as [(pool & c & cs & rest & Hready & Hn) Hr].
  cbn [fmap list_fmap] in Hnd. apply NoDup_cons in Hnd as [Hnew Hnd].
  cbn [fst snd] in Hready.
  destruct (direct_path_spec a w mm osd (lid osd) ss _ rest pool c cs Hm Hpm Hready)
    as (c' & Hi' & Hin' & Hread).
  assert (after_clock pool w = w) as Hw.
  { unfold after_clock. by destruct (Z.leb_spec 15 (ConnectionPool._fast_path_failures pool)); [lia|]. }
  rewrite Hw in Hread. cbn [read_osds_slices]. rewrite (bind_ret_eq _ _ _ _ _ Hread).
  cbn [negb Z.eqb]. cbv iota.
  set (a1 := set_pools (Make_ConnectionPools false
    (<[lid osd := served pool c' cs]> (connection_pools_ (asd_connection_pools a)))) a).
  destruct (IH a1 (write_asd_slices ss (asd_data disk osd <$> ss) mm)) as (pools & He).
  - done.
  - done.
  - done.
  - apply Forall_forall. intros p Hp. apply osd_ready_other; [|by rewrite Forall_forall in Hr; apply Hr].
    intros Heq. apply Hnew. apply list_elem_of_fmap. by exists p.
  - exists pools. rewrite He. unfold flatten. cbn [fmap list_fmap concat].
    rewrite fmap_app, apply_writes_app, write_asd_slices_apply, <- list_fmap_compose. done.
Qed.

Lemma all_known_spec per_osd a w disk lid : _osd_maps_mutex a = false ->
  Forall (osd_ready a w disk lid) per_osd -> all_known per_osd a = (Ret true, a).
Proof.
  intros Hm. induction 1 as [|[osd ss] per_osd (pool & c & cs & rest & [Hk _ _ _ _ _ _ _ _] & _) _ IH];
    [done|].
  destruct Hk as (id & map & info & caps & Hl & Ho & _). cbn [fst] in Ho. cbn [all_known].
  rewrite (bind_ret_eq _ _ _ false a); [exact IH|].
  unfold osd_is_unknown, lock_guard. rewrite Hm. unfold last_map, mbind, M_bind, gets, mret, M_ret.
  cbn. rewrite Hl. cbn. rewrite Ho. rewrite bool_decide_eq_false_2 by done. f_equal.
  by destruct a; simpl in *; subst.
Qed.
End osds.

(** ** Decrypting in place *)

Lemma mem_read_written ws1 t d ws2 mm n : pairwise_disjoint (ws1 ++ (t, d) :: ws2) -> len d = n ->
  mem_read t n (apply_writes (ws1 ++ (t, d) :: ws2) mm) = d.
Proof.
  intros Hd <-. apply list_eq. intros i. unfold mem_read. rewrite list_lookup_fmap.
  unfold len at 1. rewrite Nat2Z.id. destruct (d !! i) as [b|] eqn:E.
  - pose proof (lookup_lt_Some _ _ _ E). rewrite lookup_seq_lt by done. simpl.
    rewrite apply_writes_lookup by (done || unfold in_block, len; lia).
    replace (Z.to_nat (t + Z.of_nat i - t)) with i by lia. by rewrite E.
  - apply lookup_ge_None in E. rewrite lookup_ge_None_2; [done|]. rewrite length_seq. lia.
Qed.

Section decrypt.
Context {C : Type} `{Delegate C} {T W : Type} `{Transport T} `{World T W}.
Context {B : BimapOps bytes manifest_cache_entry}.
Context {G : Gcrypt} {E : bytes -> Z -> bytes} {CM : CtrMode G E} `{Digest}.
Context (key_for : bytes -> bytes) (disk : disks).
Implicit Types s : rora_state C T W.

Definition set_memory (mm : mem) (s : rora_state C T W) : rora_state C T W :=
  Make_rora_state (client s) (manifests s) (access s) (world s) mm (cntr s).

Lemma len_stored l : decryptable key_for disk l -> len (stored disk l) = loc_length l.
Proof. intros [Ho Hl Hi _]. apply len_stretch; lia. Qed.

Lemma plain_block l : decryptable key_for disk l -> len (stored disk l) = len (plain E key_for disk l).
Proof.
  intros Hr. rewrite (len_stored l Hr). destruct Hr as [Ho Hl Hi _]. symmetry. unfold plain.
  destruct (loc_encrypt_info l); apply len_stretch; try lia.
  unfold len in *. unfold xor_stream. rewrite length_imap. lia.
Qed.

Lemma cached_key s a ns id key : _enc_keys (client s) !! id = Some key ->
  in_client (get_encryption_key a ns id) s = (Ret key, s).
Proof.
  intros Hk. unfold in_client, zoom, get_encryption_key. rewrite gets_bind. unfold Datatypes.id.
  rewrite Hk. by destruct s.
Qed.

(** One block, among others that stay as they are. *)
Lemma decrypt_in_place_spec s t l e ctr ws1 ws2 mm :
  decryptable key_for disk l -> loc_encrypt_info l = IsEncrypted e -> loc_ctr l = Some ctr ->
  memory s = apply_writes (ws1 ++ (t, stored disk l) :: ws2) mm ->
  pairwise_disjoint (ws1 ++ (t, stored disk l) :: ws2) ->
  decrypt_in_place e (key_for (key_identification e)) ctr t (loc_length l) (loc_offset l) s
  = (Ret true, set_memory (apply_writes (ws1 ++ (t, plain E key_for disk l) :: ws2) mm) s).
Proof.
  intros Hr Ee Hc Hm Hd. pose proof (plain_block l Hr) as Hlen. pose proof (len_stored l Hr) as Hls.
  destruct Hr as [Ho Hl Hi Hk]. rewrite Ee in Hk. destruct Hk as (Hmode & Hctr & Hkey).
  specialize (Hctr ctr Hc). unfold decrypt_in_place. rewrite Hm, mem_read_written by done.
  rewrite (partial_decrypt_spec (CM := CM)) by done. cbn [ds_buf].
  unfold plain in *. rewrite Ee, Hc in *. cbn [default] in *.
  unfold stored at 1, stretch at 1. rewrite xor_stream_slice by lia.
  fold (stretch (loc_offset l) (loc_length l) (xor_stream (E (key_for (key_identification e)))
     (le_combine (rev ctr)) 0 (disk (osd_of l) (key_of l)))).
  unfold set_memory. by rewrite apply_writes_over.
Qed.

Lemma decrypt_location_spec levels a s t l ws1 ws2 mm :
  last levels = Some a -> readable (client s) key_for disk l ->
  memory s = apply_writes (ws1 ++ (t, stored disk l) :: ws2) mm ->
  pairwise_disjoint (ws1 ++ (t, stored disk l) :: ws2) ->
  decrypt_location levels (t, l) s
  = (Ret tt, set_memory (apply_writes (ws1 ++ (t, plain E key_for disk l) :: ws2) mm) s).
Proof.
  intros Ha [Hr Hk] Hm Hd. unfold decrypt_location.
  destruct (loc_encrypt_info l) as [|e] eqn:Ee.
  { unfold set_memory, plain. rewrite Ee. fold (stored disk l). rewrite <- Hm. by destruct s. }
  destruct Hk as ([ctr Hc] & Hks).
  rewrite Hc, ret_bind, Ha, ret_bind, (bind_ret_eq _ _ _ _ _ (cached_key _ _ _ _ _ Hks)).
  by rewrite (bind_ret_eq _ _ _ _ _ (decrypt_in_place_spec s t l e ctr ws1 ws2 mm Hr Ee Hc Hm Hd)).
Qed.

Definition stored_write (p : Z * Location) : write := (p.1, stored disk p.2).
Definition plain_write (p : Z * Location) : write := (p.1, plain E key_for disk p.2).

Lemma half_decrypted ls1 ls2 :
  Forall (fun p => decryptable key_for disk p.2) ls1 -> pairwise_disjoint (stored_write <$> ls1 ++ ls2) ->
  pairwise_disjoint ((plain_write <$> ls1) ++ (stored_write <$> ls2)).
Proof.
  intros Hr. apply pairwise_blocks. rewrite fmap_app. apply Forall2_app.
  - apply Forall2_fmap, Forall_Forall2_diag. eapply Forall_impl; [exact Hr|].
    intros p Hp. split; [done|by apply plain_block].
  - apply Forall_Forall2_diag, Forall_true. by split.
Qed.

Lemma decrypt_all levels a s ls mm :
  last levels = Some a -> Forall (fun p => readable (client s) key_for disk p.2) ls ->
  pairwise_disjoint (stored_write <$> ls) -> memory s = apply_writes (stored_write <$> ls) mm ->
  for_each (decrypt_location levels) ls s
  = (Ret tt, set_memory (apply_writes (plain_write <$> ls) mm) s).
Proof.
  intros Ha Hr Hd Hm.
  assert (forall ls1 ls2 s, ls = ls1 ++ ls2 ->
    Forall (fun p => readable (client s) key_for disk p.2) ls ->
    memory s = apply_writes ((plain_write <$> ls1) ++ (stored_write <$> ls2)) mm ->
    for_each (decrypt_location levels) ls2 s
    = (Ret tt, set_memory (apply_writes (plain_write <$> ls) mm) s)) as Hgen.
  2: { by apply (Hgen [] ls s). }
  clear s Hr Hm. intros ls1 ls2. revert ls1. induction ls2 as [|[t l] ls2 IH]; intros ls1 s Heq Hr Hm.
  { rewrite app_nil_r in Heq, Hm. subst ls1. unfold set_memory. rewrite <- Hm. by destruct s. }
  cbn [for_each]. cbn [fmap list_fmap] in Hm.
  assert (readable (client s) key_for disk l) as Hrl
    by (rewrite Heq in Hr; apply Forall_app in Hr as [_ Hr]; by apply Forall_inv in Hr).
  assert (pairwise_disjoint ((plain_write <$> ls1) ++ stored_write (t, l) :: (stored_write <$> ls2)))
    as Hdm.
  { rewrite Heq in Hr, Hd. apply Forall_app in Hr as [Hr _]. apply (half_decrypted ls1 ((t, l) :: ls2)); [|exact Hd].
    eapply Forall_impl; [exact Hr|]. by intros p []. }
  rewrite (bind_ret_eq _ _ _ _ _ (decrypt_location_spec levels a s t l _ _ mm Ha Hrl Hm Hdm)).
  rewrite (IH (ls1 ++ [(t, l)])).
  - done.
  - by rewrite <- app_assoc.
  - done.
  - cbn [memory set_memory]. rewrite fmap_app, <- app_assoc. done.
Qed.
End decrypt.

(** ** Which slices are read directly *)

Lemma read_locations_apply data (ls : list (Z * Location)) mm :
  read_locations data ls mm = apply_writes ((fun p => (p.1, data p.2)) <$> ls) mm.
Proof.
  unfold read_locations, apply_writes. revert mm. induction ls as [|p ls IH]; intros mm; [done|].
  simpl. apply IH.
Qed.

Section split.
Context {B : BimapOps bytes manifest_cache_entry} {BL : Bimap B}.
Context (osd : Location -> bytes) (content : bytes -> bytes) (ns : bytes) (levels : list alba_id_t).
Context (F : bytes -> bytes -> option ManifestWithNamespaceId).

(** The manifests the cache has for an object tell the truth about its slices. *)
Definition truthful (os : ObjectSlices) : Prop :=
  coherent osd (knows F) levels (object_name os) (content (object_name os)) /\
  Forall (slice_inside (content (object_name os))) (ProxyProtocol.slices os).

(** The writes a read of slices stands for, and locations that tile them. *)
Definition slice_write (data : bytes) (sd : SliceDescriptor) : write :=
  (buf sd, stretch (offset sd) (sd_size sd) data).
Definition object_writes (slices : list ObjectSlices) : list write :=
  concat ((fun os => slice_write (content (object_name os)) <$> ProxyProtocol.slices os) <$> slices).
Definition tiled_writes (P : Location -> Prop) (ws : list write) (ls : list (Z * Location)) : Prop :=
  exists lss, ls = concat lss /\ Forall2 (fun w ls => tiled osd P ls w.1 w.2) ws lss.

Lemma tiled_writes_nil P : tiled_writes P [] [].
Proof. by exists []. Qed.
Lemma tiled_writes_app P ws1 ws2 ls1 ls2 : tiled_writes P ws1 ls1 -> tiled_writes P ws2 ls2 ->
  tiled_writes P (ws1 ++ ws2) (ls1 ++ ls2).
Proof.
  intros (l1 & -> & H1) (l2 & -> & H2). exists (l1 ++ l2). rewrite concat_app. split; [done|].
  by apply Forall2_app.
Qed.
Lemma tiled_slices_writes P data sds ls : tiled_slices osd P data sds ls ->
  tiled_writes P (slice_write data <$> sds) ls.
Proof.
  revert ls. induction sds as [|sd sds IH]; intros ls; [intros ->; apply tiled_writes_nil|].
  intros (l1 & l2 & -> & H1 & H2). apply (tiled_writes_app P [_] _ l1 l2); [|by apply IH].
  exists [l1]. split; [by rewrite concat_cons, app_nil_r|]. by constructor.
Qed.
Lemma tiled_writes_read P ws ls mm : tiled_writes P ws ls -> read_locations osd ls mm = apply_writes ws mm.
Proof.
  intros (lss & -> & HF). revert mm. induction HF as [|w l ws lss Ht _ IH]; intros mm; [done|].
  rewrite concat_cons, read_locations_app, (tiled_read _ _ _ _ _ _ Ht). apply IH.
Qed.

Lemma object_writes_read slices mm : apply_writes (object_writes slices) mm = read_objects content slices mm.
Proof.
  unfold object_writes, read_objects. revert mm. induction slices as [|os slices IH]; intros mm; [done|].
  cbn [fmap list_fmap concat foldl]. rewrite apply_writes_app, IH. f_equal. unfold apply_writes, read_slices.
  clear IH. revert mm. induction (ProxyProtocol.slices os) as [|sd sds IH]; intros mm; [done|]. apply IH.
Qed.

(** The slices are parted: the locations tile those that are read directly, and none of
    them needs the proxy; the rest is left for the proxy. *)
Lemma split_slices_tiles (P : Location -> Prop) slices acc via mc :
  wf_manifest_cache mc -> (forall a o, cached mc ns a o = F a o) ->
  (forall a o mf fd l, F a o = Some mf -> describes (manifest mf) fd -> located mf fd l -> P l) ->
  Forall truthful slices ->
  exists direct extra more mc', split_slices levels ns slices acc via mc = (Ret (acc ++ more, via ++ extra), mc') /\
    same_cached mc mc' /\ tiled_writes P (object_writes direct) more /\
    Forall (fun p => needs_proxy p.2 = false) more /\
    direct ++ extra ≡ₚ slices /\ (extra = [] -> direct = slices).
Proof.
  intros Hwf HF HP Hs. revert acc via mc Hwf HF.
  induction Hs as [|os slices [Hco Hin] _ IH]; intros acc via mc Hwf HF.
  { exists [], [], [], mc. rewrite !app_nil_r. split_and!; try done. apply tiled_writes_nil. }
  cbn [split_slices]. destruct os as [nm sds]. cbn [object_name ProxyProtocol.slices] in *.
  destruct (resolve_many_levels_tiles osd P F ns levels nm (content nm) sds mc Hwf HF HP Hco Hin)
    as (r & mc1 & H1 & Hs1 & Hres).
  rewrite (bind_ret_eq _ _ _ _ _ H1).
  assert (forall a o, cached mc1 ns a o = F a o) as HF1 by (intros; by rewrite (proj2 Hs1)).
  assert (exists direct extra more mc', split_slices levels ns slices acc (via ++ [Make_ObjectSlices nm sds]) mc1
      = (Ret (acc ++ more, via ++ extra), mc') /\
    same_cached mc mc' /\ tiled_writes P (object_writes direct) more /\
    Forall (fun p => needs_proxy p.2 = false) more /\
    direct ++ extra ≡ₚ Make_ObjectSlices nm sds :: slices /\ (extra = [] -> direct = Make_ObjectSlices nm sds :: slices))
    as Hproxy.
  { destruct (IH acc (via ++ [Make_ObjectSlices nm sds]) mc1 (proj1 Hs1) HF1)
      as (direct & extra & more & mc' & -> & Hs2 & Ht & Hn & Hperm & _).
    exists direct, (Make_ObjectSlices nm sds :: extra), more, mc'. rewrite <- app_assoc.
    split_and!; try done. { by eapply same_cached_trans. }
    by rewrite <- Permutation_middle, Hperm. }
  destruct r as [locs|]; [|exact Hproxy].
  destruct (existsb _ locs) eqn:Ex; [exact Hproxy|].
  destruct (IH (acc ++ locs) via mc1 (proj1 Hs1) HF1) as (direct & extra & more & mc' & -> & Hs2 & Ht & Hn & Hperm & Hd).
  exists (Make_ObjectSlices nm sds :: direct), extra, (locs ++ more), mc'. rewrite app_assoc.
  split_and!; try done.
  - by eapply same_cached_trans.
  - apply (tiled_writes_app P (slice_write (content nm) <$> sds) (object_writes direct)); [|done].
    by apply tiled_slices_writes.
  - apply Forall_app_2; [|done]. apply Forall_forall. intros p Hp. apply not_true_is_false. intros Hnp.
    apply eq_true_false_abs with (2 := Ex). apply existsb_exists. exists p. split; [|done].
    by apply list_elem_of_In.
  - simpl. by rewrite Hperm.
  - intros He. by rewrite Hd.
Qed.

(** When nothing is left for the proxy, the locations stand for all the slices. *)
Lemma split_slices_spec slices mc ls mc' :
  wf_manifest_cache mc -> (forall a o, cached mc ns a o = F a o) -> Forall truthful slices ->
  split_slices levels ns slices [] [] mc = (Ret (ls, []), mc') ->
  forall mm, read_locations osd ls mm = read_objects content slices mm.
Proof.
  intros Hwf HF Hs Hr mm. destruct (split_slices_tiles (fun _ => True) slices [] [] mc Hwf HF
    (fun _ _ _ _ _ _ _ _ => I) Hs) as (direct & extra & more & mc2 & Hr2 & _ & Ht & _ & _ & Hd).
  rewrite Hr in Hr2. injection Hr2 as -> <- _. rewrite (tiled_writes_read _ _ _ _ Ht), (Hd eq_refl).
  apply object_writes_read.
Qed.
End split.

(** ** The theorem *)

Section fast_path.
Context {C : Type} `{Delegate C} `{RT : ReliableTransport T} {W : Type} {WW : World T W}.
Context {B : BimapOps bytes manifest_cache_entry} {BL : Bimap B}.
Context {G : Gcrypt} {E : bytes -> Z -> bytes} {CM : CtrMode G E} `{Digest}.

(** When a read takes the fast path and the fast path has everything it needs: the
    levels and the OSDs are known, the true manifests are cached, nothing in them needs
    the proxy, the slices do not overlap in memory, and every ASD has an idle
    connection that will answer with the values on [disk]. *)
Record fast_path_ready (content : bytes -> bytes) (key_for : bytes -> bytes) (disk : disks)
    (lid : osd_t -> bytes) (s : rora_state C T W) (ns : bytes) (slices : list ObjectSlices)
    (consistent_read : bool) (levels : list alba_id_t) (ls : list (Z * Location)) : Prop := {
  fp_chosen : consistent_read && _has_local_fragment_cache (client s) = false;
  fp_failures : RoraClient._fast_path_failures (client s) <= 100;
  fp_io : _use_null_io (client s) = false;
  fp_fkb : wf_builder (_fkb (client s)) /\ message_builder._pos (_fkb (client s)) = 4;
  fp_levels : _alba_levels (instance s) = levels /\ levels <> [];
  fp_free : _osd_maps_mutex (instance s) = false /\
            pools_mutex (asd_connection_pools (instance s)) = false;
  fp_cache : wf_manifest_cache (manifests s);
  fp_true : Forall (truthful (plain E key_for disk) content levels (cached (manifests s) ns)) slices;
  fp_split : fst (split_slices levels ns slices [] [] (manifests s)) = Ret (ls, []);
  fp_disjoint : pairwise_disjoint (stored_write disk <$> ls);
  fp_locations : Forall (fun p => addressable p.2 /\ readable (client s) key_for disk p.2) ls;
  fp_pools : NoDup (lid ∘ fst <$> push_all ls []);
  fp_osds : Forall (osd_ready (instance s) (world s) disk lid) (push_all ls []) }.

Lemma set_delegate_same (c : RoraProxy_client C) : set_delegate (_delegate c) c = c.
Proof. by destruct c. Qed.

(** [_short_path] reads what is stored; the client's key builder and the pools change. *)
Lemma short_path_spec key_for disk lid c mc a w mm cn ls :
  _use_null_io c = false -> wf_builder (_fkb c) -> message_builder._pos (_fkb c) = 4 ->
  _osd_maps_mutex a = false -> pools_mutex (asd_connection_pools a) = false ->
  pairwise_disjoint (stored_write disk <$> ls) ->
  Forall (fun p => addressable p.2 /\ readable c key_for disk p.2) ls ->
  NoDup (lid ∘ fst <$> push_all ls []) -> Forall (osd_ready a w disk lid) (push_all ls []) ->
  exists b a', _short_path ls (Make_rora_state c mc (Some a) w mm cn)
    = (Ret 0, Make_rora_state (set_fkb b c) mc (Some a') w
                (apply_writes (stored_write disk <$> ls) mm) cn).
Proof.
  intros Hio Hb Hbp Hm Hpm Hd Hls Hnd Hr.
  assert (Forall (fun p : Z * Location => addressable p.2) ls) as Had
    by (eapply Forall_impl; [exact Hls|]; by intros p []).
  destruct (group_per_osd_spec ls [] c Had Hb Hbp) as (b & Hg & _).
  destruct (read_osds_spec disk lid (push_all ls []) a w mm Hm Hpm Hnd Hr) as (pools & Hread).
  exists b, (set_pools pools a). unfold _short_path.
  rewrite (bind_ret_eq (in_client _) _ _ (push_all ls []) (Make_rora_state (set_fkb b c) mc (Some a) w mm cn)).
  2: { unfold in_client, zoom. cbn [client]. by rewrite Hg. }
  rewrite (bind_ret_eq (_maybe_update_osd_infos _) _ _ tt (Make_rora_state (set_fkb b c) mc (Some a) w mm cn)).
  2: { unfold _maybe_update_osd_infos.
    rewrite (bind_ret_eq (in_access _) _ _ true (Make_rora_state (set_fkb b c) mc (Some a) w mm cn)); [done|].
    unfold in_access, zoom. change (instance (Make_rora_state (set_fkb b c) mc (Some a) w mm cn)) with a.
    cbn [client fst snd].
    rewrite (all_known_spec _ a w disk lid Hm Hr). cbn [fst snd manifests world memory cntr].
    by rewrite set_delegate_same. }
  rewrite gets_bind. cbn [client set_fkb _use_null_io]. rewrite Hio. cbv iota.
  unfold in_reading, zoom. change (instance (Make_rora_state (set_fkb b c) mc (Some a) w mm cn)) with a.
  cbn [world memory fst snd client manifests cntr].
  rewrite Hread. cbn [fst snd]. do 2 f_equal.
  apply apply_writes_perm; [apply grouped_writes|].
  eapply pairwise_perm; [symmetry; apply grouped_writes|exact Hd].
Qed.

(** The state after a fast path: the memory is filled, the counters are up to date, the
    proxy has not been asked. *)
Definition fast_path_done (content : bytes -> bytes) (slices : list ObjectSlices)
    (ls : list (Z * Location)) (s s' : rora_state C T W) : Prop :=
  memory s' = read_objects content slices (memory s) /\
  _delegate (client s') = _delegate (client s) /\ world s' = world s /\
  RoraClient._fast_path_failures (client s') = 0 /\
  cntr s' = Make_RoraCounter (u64 (fast_path (cntr s) + len ls)) (slow_path (cntr s)).

Lemma fast_path_spec content key_for disk lid s ns slices cr levels ls :
  fast_path_ready content key_for disk lid s ns slices cr levels ls ->
  exists s', read_objects_slices ns slices cr s = (Ret tt, s') /\
    fast_path_done content slices ls s s'.
Proof.
  intros [Hch Hfl Hio [Hb Hbp] [Hlev Hne] [Hm Hpm] Hwf Htrue Hsplit Hd Hls Hnd Hready].
  destruct s as [c mc acc w mm cn]. cbn [client manifests access world memory cntr] in *.
  set (a := instance (Make_rora_state c mc acc w mm cn)) in *.
  unfold read_objects_slices.
  rewrite (bind_ret_eq (choose_path cr) _ _ false (Make_rora_state c mc acc w mm cn)).
  2: { unfold choose_path. rewrite gets_bind. cbn [client]. rewrite Hch.
    by destruct (Z.ltb_spec 100 (RoraClient._fast_path_failures c)); [lia|]. }
  rewrite (bind_ret_eq (in_access _) _ _ levels (Make_rora_state c mc (Some a) w mm cn)).
  2: { unfold in_access, zoom. fold a. cbn [client fst snd]. unfold get_alba_levels.
    rewrite gets_bind. cbn [fst]. rewrite Hlev.
    destruct (Z.eqb_spec (len levels) 0) as [Hz|_]; [unfold len in Hz; exfalso; apply Hne, nil_length_inv; lia|].
    rewrite ret_bind. unfold gets. cbn [fst]. rewrite Hlev. cbn [fst snd].
    by rewrite set_delegate_same. }
  destruct (split_slices levels ns slices [] [] mc) as [o mc'] eqn:Esp. cbn [fst] in Hsplit. subst o.
  rewrite (bind_ret_eq (in_manifests _) _ _ (ls, []) (Make_rora_state c mc' (Some a) w mm cn)).
  2: { unfold in_manifests, zoom. cbn [manifests]. by rewrite Esp. }
  pose proof (split_slices_spec _ content ns levels _ slices mc ls mc' Hwf (fun _ _ => eq_refl) Htrue Esp) as Hmem.
  destruct (short_path_spec key_for disk lid c mc' a w mm cn ls Hio Hb Hbp Hm Hpm Hd Hls Hnd Hready)
    as (b & a' & Hsp).
  destruct (last levels) as [al|] eqn:Hlast; [|by apply last_None in Hlast].
  cbn [fst snd].
  rewrite (bind_ret_eq (read_directly levels ls) _ _ 0 (Make_rora_state (set_fkb b c) mc' (Some a') w
    (read_objects content slices mm) cn)).
  2: { unfold read_directly. rewrite (bind_ret_eq _ _ _ _ _ Hsp). cbn [Z.eqb]. cbv iota.
    unfold try_catch.
    assert (Forall (fun p => readable (set_fkb b c) key_for disk p.2) ls) as Hrd.
    { eapply Forall_impl; [exact Hls|]. intros p [_ [? Hk]]. split; [done|exact Hk]. }
    rewrite (bind_ret_eq _ _ _ _ _ (decrypt_all (CM := CM) key_for disk levels al
      (Make_rora_state (set_fkb b c) mc' (Some a') w _ cn) ls mm Hlast Hrd Hd eq_refl)).
    cbn [mret M_ret]. unfold set_memory. cbn [client manifests access world cntr].
    rewrite <- Hmem, read_locations_apply. done. }
  unfold account. cbn [negb Z.eqb]. cbv iota. cbn [len]. eexists. split; [reflexivity|]. by split_and!.
Qed.
End fast_path.

(** A concrete state: the object of [two_chunks], encrypted, its fragments on two ASDs
    whose connections have the answers ready. *)
Section sealed.
Definition sealed_info : Encrypted := Make_Encrypted AES CTR L256 (replicate 32 Byte.x2a).
Definition sealed_key : bytes := replicate 32 Byte.x2a.
Definition sealed_ctr : bytes := replicate 16 Byte.x07.
Definition sealed_chunks : ManifestWithNamespaceId :=
  let f osd := Some (Make_Fragment (Some osd, 0) None 2 (Some sealed_ctr) None) in
  Make_ManifestWithNamespaceId
    (Make_Manifest (str "obj") (str "oid") [4; 2] (Make_EncodingScheme 2 1 8) NoCompression
       (IsEncrypted sealed_info) Checksum.NoChecksum 5
       [[f 10; f 11; f 12]; [f 10; f 14; f 15]] 0 0 double_1) 1.
Definition sealed_disk (osd : osd_t) (key : bytes) : bytes :=
  let holds i j := xor_stream (toy_block sealed_key) (le_combine (rev sealed_ctr)) 0 (two_chunks_data i j) in
  if bool_decide (key = enc_fragment_key 1 (str "oid") 0 0 0) then holds 0%nat 0%nat
  else if bool_decide (key = enc_fragment_key 1 (str "oid") 0 0 1) then holds 0%nat 1%nat
  else if bool_decide (key = enc_fragment_key 1 (str "oid") 0 1 0) then holds 1%nat 0%nat
  else holds 1%nat 1%nat.
Definition sealed_lid (osd : osd_t) : bytes := if osd =? 10 then str "ten" else str "eleven".
Definition sealed_osd (osd : osd_t) : OsdInfo :=
  Make_OsdInfo true (sealed_lid osd) [str "10.0.0.1"] 8000 false false [].
Definition sealed_locations : list (Z * Location) :=
  match fst (_resolve_slice_one_level [] sealed_chunks 1 4 100 tt) with Ret ls => ls | _ => [] end.
Definition sealed_requests : list (osd_t * list asd_slice) := push_all sealed_locations [].
Definition sealed_pool (p : osd_t * list asd_slice) : ConnectionPool script :=
  Make_ConnectionPool false
    [Make_Asd_client (Make_AsdStatus 0)
       (Script (concat (answer <$> (asd_data sealed_disk p.1 <$> p.2))) []) 25 message_builder.make]
    (sealed_osd p.1) 5 25 3 0.
Definition sealed_access : OsdAccess script :=
  Make_OsdAccess 5 25 false
    [(str "alba", list_to_map ((fun p => (p.1, (sealed_osd p.1, default_OsdCapabilities))) <$> sealed_requests))]
    [str "alba"]
    (Make_ConnectionPools false (list_to_map ((fun p => (sealed_lid p.1, sealed_pool p)) <$> sealed_requests)))
    false false.
Definition sealed_state : rora_state unit script scripted :=
  Make_rora_state
    (Make_RoraProxy_client tt false false 2 0 5 25 message_builder.make None {[ sealed_key := sealed_key ]})
    (run_steps ManifestCache.getInstance
       [StepLookupOrCreate (str "ns"); StepAddTo 1%positive (str "alba") sealed_chunks])
    (Some sealed_access) (Scripted 0 [] []) ∅ new_RoraCounter.

Lemma sealed_described : describes (manifest sealed_chunks) two_chunks_data.
Proof.
  split; simpl; [lia| |lia|].
  - repeat constructor; try lia; [by exists 2|by exists 1].
  - intros [|[|i]] cs j Hi Hj; simplify_eq/=; (destruct j as [|[|j]]; [| |lia]);
      do 2 eexists; split_and!; reflexivity.
Qed.

Lemma sealed_plain key_for disk l : key_for sealed_key = sealed_key ->
  (forall osd key, disk osd key = sealed_disk osd key) -> located sealed_chunks two_chunks_data l ->
  plain (G := toy_gcrypt) toy_block key_for disk l = location_data two_chunks_data l.
Proof.
  intros Hkey Hdisk.
  intros (row & f & Hrow & Hf & Hc0 & [Hf0 Hf1] & Hloc & Hctr & Hns & Hoid & Henc & _).
  unfold plain, location_data, key_of. rewrite Hdisk, Henc, Hctr, Hns, Hoid, Hloc. f_equal.
  cbn [sealed_chunks manifest encrypt_info]. change (key_identification sealed_info) with sealed_key.
  rewrite Hkey.
  simpl in Hf1, Hrow. destruct (Z.to_nat (loc_chunk_id l)) as [|[|n]] eqn:Ec; [..|done];
    injection Hrow as <-;
    (destruct (Z.to_nat (loc_fragment_id l)) as [|[|m]] eqn:Ef; [..|lia]); injection Hf as <-;
    [ replace (loc_chunk_id l) with 0 by lia; replace (loc_fragment_id l) with 0 by lia
    | replace (loc_chunk_id l) with 0 by lia; replace (loc_fragment_id l) with 1 by lia
    | replace (loc_chunk_id l) with 1 by lia; replace (loc_fragment_id l) with 0 by lia
    | replace (loc_chunk_id l) with 1 by lia; replace (loc_fragment_id l) with 1 by lia ];
    vm_compute; reflexivity.
Qed.

Lemma sealed_locations_fine :
  Forall (fun p => addressable p.2 /\
    readable (client sealed_state) (fun _ => sealed_key) sealed_disk p.2)
    sealed_locations.
Proof.
  unfold sealed_locations. set (o := fst _). vm_compute in o. subst o.
  repeat (apply Forall_cons_2); try apply Forall_nil_2.
  all: split; [|split; [|split; [by eexists|reflexivity]]]; split.
  all: try (split; vm_compute; congruence); try (vm_compute; congruence); try by eexists.
  all: split_and!; [reflexivity|by intros ctr [= <-]|reflexivity].
Qed.

Lemma sealed_slices_ok :
  Forall (fun p => Forall (fun s => asd_slice_ok s (asd_data sealed_disk p.1 s)) p.2) sealed_requests.
Proof.
  unfold sealed_requests, sealed_locations. set (o := push_all _ _). vm_compute in o. subst o.
  repeat constructor; vm_compute; congruence.
Qed.

Lemma sealed_osds_ready :
  Forall (osd_ready sealed_access (Scripted 0 [] []) sealed_disk sealed_lid) sealed_requests.
Proof.
  apply Forall_forall. intros p Hp. eexists (sealed_pool p), _, [], []. split; [|done].
  split; try reflexivity.
  - do 2 eexists. exists (sealed_osd p.1), default_OsdCapabilities. split; [reflexivity|].
    split; [|split; [reflexivity|reflexivity]]. apply elem_of_list_to_map_1.
    + apply (bool_decide_unpack _). vm_compute. exact I.
    + apply list_elem_of_fmap. by exists p.
  - apply elem_of_list_to_map_1.
    + apply (bool_decide_unpack _). vm_compute. exact I.
    + apply list_elem_of_fmap. by exists p.
  - vm_compute. discriminate.
  - split; [exact I|]. split; [exact I|]. split; [apply wf_make|reflexivity].
  - apply Forall2_fmap_r, Forall_Forall2_diag. pose proof sealed_slices_ok as Hok.
    rewrite Forall_forall in Hok. by apply Hok.
  - by rewrite app_nil_r.
Qed.
End sealed.

(** ** Property *)


