(* ===== verification/Sane.v ===== *)
(** * What comes out of the parsers, and where a response is written

    Whatever bytes arrive, the manifests the parsers accept have fields of their types
    ([sane]), and copying a response writes only inside the slices asked for.  The class
    [SaneDelegate] states both of a client of the proxy; [generic_SaneDelegate] proves
    it of the real one, over any transport. *)

From S2P Require Import Prelude Hoare Llio Stuff AlbaCommon Checksum Encryption OsdInfo Manifest Sequences.
From S2P Require Import ProxyProtocol LruCache ManifestCache Transport TransportHelper GenericClient.
From S2P Require Import AsdProtocol AsdClient ConnectionPool OsdAccess RoraLocation ProxyClient RoraClient.

Local Open Scope Z_scope.
Local Open Scope alba_scope.

(** ** Manifests the parser accepts *)

(** The types of the fields: chunk sizes and [k] are [uint32_t]s. *)
Record sane (mf : ManifestWithNamespaceId) : Prop := {
  sane_sizes : Forall (fun cs => 0 <= cs < 2 ^ 32) (chunk_sizes (manifest mf));
  sane_k : 0 <= k (encoding_scheme (manifest mf)) }.

(** What a reader returns, whatever the bytes. *)
Abbreviation yields := (maintains (ST := message.t) any).

Lemma current_length n m bs m' : message.current n m = (Ret bs, m') -> len bs <= Z.max 0 n.
Proof.
  unfold message.current. destruct (message.outside n m); [done|].
  unfold message_buffer.data. destruct (_ && _); [|done].
  intros [= <- _]. unfold len. rewrite length_take. lia.
Qed.

Lemma from_raw_yields n : yields (fun v => 0 <= v < 2 ^ (8 * Z.of_nat n)) (from_raw n).
Proof.
  unfold from_raw. eapply (maintains_bind_post _ (fun bs => len bs <= Z.of_nat n)).
  - intros m _. destruct (message.current (Z.of_nat n) m) as [[bs|e| |] m'] eqn:E; try done.
    apply current_length in E. split; [done|lia].
  - intros bs Hbs. apply maintains_bind; [by intros ? ?|]. intros _. apply maintains_ret.
    pose proof (LittleEndianList.le_combine_bound bs) as [H1 H2]. split; [done|].
    eapply Z.lt_le_trans; [exact H2|]. apply Z.pow_le_mono_r; [lia|]. unfold len in Hbs. lia.
Qed.

Lemma from_vector_yields {A} (Q : A -> Prop) dflt (r : reader A) :
  Q dflt -> yields Q r -> yields (Forall Q) (from_vector dflt r).
Proof.
  intros Hd Hr. apply maintains_noexcept. apply maintains_bind.
  - eapply maintains_any, from_raw_yields.
  - intros n. apply maintains_for_down; [by apply Forall_replicate|]. intros i ts Hts.
    eapply maintains_bind_post; [exact Hr|]. intros t Ht. apply maintains_ret.
    by apply Forall_insert.
Qed.

(** Readers whose results do not matter. *)
Lemma yields_any {A} (r : reader A) : yields any r.
Proof. intros m _. by destruct (r m) as [[a|e| |] m']. Qed.

Definition sane_header (h : bytes * bytes * list Z * EncodingScheme * Compression * EncryptInfo
    * Checksum * Z) : Prop :=
  let '(_, _, sizes, es, _, _, _, _) := h in
  Forall (fun cs => 0 <= cs < 2 ^ 32) sizes /\ 0 <= k es.

Lemma from_EncodingScheme_yields : yields (fun es => 0 <= k es) from_EncodingScheme.
Proof.
  unfold from_EncodingScheme. do 2 (apply maintains_bind; [apply yields_any|intros ?]).
  eapply maintains_bind_post; [apply (from_raw_yields 4)|]. intros k Hk.
  do 2 (apply maintains_bind; [apply yields_any|intros ?]). apply maintains_ret; by destruct Hk.
Qed.

Lemma from_header_yields : yields sane_header from_header.
Proof.
  unfold from_header. do 2 (apply maintains_bind; [apply yields_any|intros ?]).
  eapply maintains_bind_post; [apply (from_vector_yields (fun cs => 0 <= cs < 2 ^ 32)); [lia|apply (from_raw_yields 4)]|].
  intros sizes Hs. apply maintains_bind; [apply yields_any|intros _].
  eapply maintains_bind_post; [apply from_EncodingScheme_yields|]. intros es He.
  do 4 (apply maintains_bind; [apply yields_any|intros ?]). by apply maintains_ret.
Qed.

Definition sane_body (m : Manifest) : Prop :=
  Forall (fun cs => 0 <= cs < 2 ^ 32) (chunk_sizes m) /\ 0 <= k (encoding_scheme m).

Ltac header_then :=
  eapply maintains_bind_post; [apply from_header_yields|];
  intros [[[[[[[? ?] ?] ?] ?] ?] ?] ?] ?;
  repeat (apply maintains_bind; [apply yields_any|intros ?]); by apply maintains_ret.

Lemma from_body1_yields : yields sane_body from_body1.
Proof. unfold from_body1. header_then. Qed.
Lemma from_body2_yields : yields sane_body from_body2.
Proof. unfold from_body2. header_then. Qed.

Section with_snappy.
Context `{Snappy}.
(** The same for readers with the flag. *)
Abbreviation yields2 := (maintains (ST := message.t * bool) any).

Lemma rd_yields {A} (Q : A -> Prop) (r : reader A) : yields Q r -> yields2 Q (rd r).
Proof. intros Hr. by apply (maintains_zoom any any). Qed.
Lemma on_nested_yields {A} (Q : A -> Prop) m2 (r : reader A) : yields Q r -> yields Q (on_nested m2 r).
Proof.
  intros Hr m _. specialize (Hr m2 I). unfold on_nested.
  by destruct (r m2) as [[a|e| |] m'].
Qed.
Lemma yields2_any {A} (r : reader2 A) : yields2 any r.
Proof. intros m _. by destruct (r m) as [[a|e| |] m']. Qed.

Lemma from2_Manifest_yields : yields2 sane_body from2_Manifest.
Proof.
  unfold from2_Manifest. apply maintains_bind; [apply yields2_any|intros _].
  apply maintains_bind; [apply yields2_any|intros version].
  assert (yields2 sane_body _from_version1) as H1.
  { unfold _from_version1. do 2 (apply maintains_bind; [apply yields2_any|intros ?]).
    apply rd_yields, on_nested_yields, from_body1_yields. }
  assert (yields2 sane_body _from_version2) as H2.
  { unfold _from_version2. do 5 (apply maintains_bind; [apply yields2_any|intros ?]).
    apply rd_yields, on_nested_yields, from_body2_yields. }
  destruct version as [|[[]|[]|]|]; try exact H1; try exact H2; by apply maintains_mout.
Qed.

(** Every manifest the parser returns is sane, whatever the bytes and whatever the
    decompressor made of them. *)
Lemma from2_sane : yields2 sane from2_ManifestWithNamespaceId.
Proof.
  unfold from2_ManifestWithNamespaceId. apply maintains_try.
  - eapply maintains_bind_post; [apply from2_Manifest_yields|]. intros mf [Hs Hk].
    apply maintains_bind; [apply yields2_any|intros ns]. apply maintains_ret. by split.
  - intros []; try apply maintains_throw.
    apply maintains_bind; [apply yields2_any|intros ok].
    apply maintains_bind; [apply yields2_any|intros _]. apply maintains_throw.
Qed.

Definition sane_info (info : object_info) : Prop := sane (snd info).

Lemma read_umf_yields name future infos : Forall sane_info infos ->
  yields (Forall sane_info) (read_umf name future infos).
Proof.
  intros Hi m _. pose proof (from2_sane (m, false) I) as Hs. unfold read_umf.
  destruct (from2_ManifestWithNamespaceId (m, false)) as [[mf|e| |] [m' ok]]; try done.
  - destruct (bool_decide _); [|done]. split; [done|]. destruct Hs as [_ Hs].
    apply Forall_app_2; [done|]. by constructor.
  - destruct e; try done. by destruct ok.
Qed.

Lemma read_object_infos_yields : yields (Forall sane_info) _read_object_infos.
Proof.
  unfold _read_object_infos. apply maintains_bind; [apply yields_any|]. intros n.
  apply maintains_for_up; [done|]. intros infos Hi. unfold read_object_info.
  do 2 (apply maintains_bind; [apply yields_any|intros ?]). by apply read_umf_yields.
Qed.
End with_snappy.

(** ** The proxy *)

(** Addresses no slice covers. *)
Definition outside (slices : list ObjectSlices) (a : Z) : Prop :=
  Forall (fun os => Forall (fun sd => ~ in_block a (buf sd) (sd_size sd)) (ProxyProtocol.slices os)) slices.

(** A proxy client that writes only inside the slices, and whose manifests were parsed. *)
Class SaneDelegate (C : Type) `{Delegate C} := {
  read_sane ns slices cr a v : outside slices a ->
    maintains (fun s : C * mem * RoraCounter => s.1.2 !! a = v) (Forall sane_info)
      (d_read_objects_slices2 ns slices cr);
  apply_sane ns write_barrier asserts updates :
    maintains (fun _ : C => True) (Forall sane_info)
      (d_apply_sequence_ ns write_barrier asserts updates) }.

Lemma mem_write_short a p n bs mm :
  ~ in_block a p n -> len bs <= Z.max 0 n -> mem_write p bs mm !! a = mm !! a.
Proof. intros Ha Hl. apply mem_write_outside. unfold in_block in *. pose proof (len_nonneg bs). lia. Qed.

Section generic.
Context {T : Type} `{Transport T} `{Snappy} (a : Z) (v : option byte).
Abbreviation kept := (fun s : message.t * mem => s.2 !! a = v).

Lemma copy_slice_kept sd : ~ in_block a (buf sd) (sd_size sd) -> maintains kept any (copy_slice sd).
Proof.
  intros Ha. unfold copy_slice.
  eapply (maintains_bind_post _ (fun bs => len bs <= Z.max 0 (sd_size sd))).
  - apply (maintains_zoom _ any); [|done..]. intros m _.
    destruct (message.current (sd_size sd) m) as [[bs|e| |] m'] eqn:E; try done.
    split; [done|]. by eapply current_length.
  - intros bs Hbs. apply maintains_bind; [|intros _; by apply maintains_apart].
    apply maintains_modify. intros s Hs. cbn [snd]. by rewrite (mem_write_short a _ (sd_size sd)).
Qed.

Lemma copy_slices_kept slices : outside slices a -> maintains kept any (copy_slices slices).
Proof.
  intros Ho. apply maintains_for_each. eapply Forall_impl; [exact Ho|]. intros os Hos.
  apply maintains_for_each. eapply Forall_impl; [exact Hos|]. intros sd. apply copy_slice_kept.
Qed.

Lemma read_response_kept slices st : outside slices a ->
  maintains kept (fun r => Forall sane_info r.2) (read_read_objects_slices2_response slices st).
Proof.
  intros Ho. unfold read_read_objects_slices2_response.
  apply maintains_bind; [by apply maintains_apart|]. intros st'. destruct (is_ok st').
  - apply maintains_bind; [by apply maintains_apart|]. intros _.
    apply maintains_bind; [by apply copy_slices_kept|]. intros _.
    eapply maintains_bind_post; [|intros infos Hi; by apply maintains_ret].
    apply (maintains_zoom _ any); [apply read_object_infos_yields|done..].
  - apply maintains_ret. constructor.
Qed.
End generic.

Lemma unconstrained {ST A} (m : M ST A) : maintains (fun _ => True) any m.
Proof. intros s _. by destruct (m s) as [[a|e| |] s']. Qed.

(** The client of the proxy is one, over any transport. *)
#[export] Instance generic_SaneDelegate {T} `{Transport T} `{Snappy} :
  SaneDelegate (GenericProxy_client T).
Proof.
  split.
  - intros ns slices cr a v Ho. cbn [d_read_objects_slices2 generic_Delegate].
    unfold GenericClient.read_objects_slices2. destruct (len slices =? 0).
    { apply maintains_ret. constructor. }
    do 5 (apply maintains_bind; [by apply maintains_apart|intros ?]).
    eapply (maintains_bind_post _ (fun r => Forall sane_info r.2)).
    { intros s Hs. unfold on_response.
      pose proof (read_response_kept a v slices (GenericClient._status a0) Ho (a4, s.1.2) Hs) as Hr.
      by destruct (read_read_objects_slices2_response _ _ _) as [[r|e| |] [m mm]]. }
    intros r Hr. apply maintains_bind; [by apply maintains_apart|intros _].
    apply maintains_bind; [by apply maintains_modify|intros _].
    apply maintains_bind; [by apply maintains_apart|intros _]. by apply maintains_ret.
  - intros ns wb asserts updates. cbn [d_apply_sequence_ generic_Delegate].
    unfold GenericClient.apply_sequence_, call.
    eapply (maintains_bind_post _ (fun r => forall infos, r = Some infos -> Forall sane_info infos)).
    { unfold exchange. do 6 (apply maintains_bind; [apply unconstrained|intros ?]).
      eapply (maintains_bind_post _ (fun r => forall infos, r.2 = Some infos -> Forall sane_info infos)).
      - apply maintains_mout. intros r Hr.
        assert (yields (fun r : Status * option (list object_info) =>
          forall infos, r.2 = Some infos -> Forall sane_info infos)
          (read_apply_sequence_response (GenericClient._status a4))) as Hy.
        { unfold read_apply_sequence_response, respond. apply maintains_bind; [apply yields_any|].
          intros st. destruct (is_ok st); [|by apply maintains_ret].
          eapply maintains_bind_post; [apply read_object_infos_yields|]. intros infos Hi.
          apply maintains_ret. simpl. by intros ? [= <-]. }
        specialize (Hy a3 I). destruct (read_apply_sequence_response _ _) as [o m']. simpl in Hr. subst o.
        by destruct Hy.
      - intros r Hr. apply maintains_bind; [apply unconstrained|intros _]. by apply maintains_ret. }
    intros r Hr. apply maintains_bind; [apply unconstrained|intros _].
    destruct r as [infos|]; [by apply maintains_ret, Hr|by apply maintains_mout].
Qed.

(** A proxy that answers single slices writes only there. *)
Lemma toy_read_outside {C} data slices (a : Z) (v : option byte) : outside slices a ->
  maintains (fun s : C * mem * RoraCounter => s.1.2 !! a = v) (fun infos => infos = []) (toy_read data slices).
Proof.
  intros Ho [[d mm] cn] Hv. cbn [fst snd] in *. unfold toy_read.
  destruct slices as [|[nm [|sd [|? ?]]] [|? ?]]; try done.
  destruct ((0 <=? offset sd) && (0 <=? sd_size sd) && (offset sd + sd_size sd <=? len data)) eqn:E; [|done].
  split; [|done]. cbn [fst snd]. apply Forall_inv, Forall_inv in Ho. cbn in Ho.
  rewrite (mem_write_short a _ (sd_size sd)); [done|done|].
  unfold stretch, len. rewrite length_take. lia.
Qed.

#[export] Instance toy_SaneDelegate : SaneDelegate unit.
Proof.
  split; [|intros; by apply maintains_ret]. intros ns slices cr a v Ho.
  eapply maintains_weaken; [by apply toy_read_outside|]. by intros ? ->.
Qed.
