(* ===== verification/AccessInvariant.v ===== *)
(** * Reading from the ASDs keeps the pools in order and the memory safe

    Triples ([Hoare]) for the connections, the pools, the map of pools and the singleton
    [OsdAccess]: on every way out of every operation the invariants [ok_pool] and
    [ok_access] hold again, and an address outside the slices keeps its byte. *)

From S2P Require Import Prelude Hoare Llio Stuff AlbaCommon Checksum Encryption OsdInfo Manifest Sequences.
From S2P Require Import ProxyProtocol LruCache ManifestCache Transport TransportHelper GenericClient.
From S2P Require Import AsdProtocol AsdClient ConnectionPool OsdAccess RoraLocation ProxyClient RoraClient.

From S2P Require Import Sane.

Local Open Scope Z_scope.
Local Open Scope alba_scope.

(** ** The ASDs *)

(** Whatever a connection's past, its builder holds no request. *)
Definition ready_client {T} (c : Asd_client T) : Prop := message_builder._pos (AsdClient._mb c) = 4.

(** The type invariant of a pool no thread is inside of, of the map of pools, and of
    the singleton. *)
Record ok_pool {T} (p : ConnectionPool T) : Prop := {
  okp_free : ConnectionPool._mutex p = false;
  okp_size : len (connections_ p) <= capacity_ p;
  okp_failures : 0 <= ConnectionPool._fast_path_failures p < 2 ^ 31;
  okp_clients : Forall ready_client (connections_ p) }.
Record ok_access {T} (a : OsdAccess T) : Prop := {
  oka_maps : _osd_maps_mutex a = false;
  oka_filling : _filling_mutex a = false;
  oka_pools_free : pools_mutex (asd_connection_pools a) = false;
  oka_pools : map_Forall (fun _ p => ok_pool p) (connection_pools_ (asd_connection_pools a)) }.

Section asd.
Context {T W : Type} `{BoundedReads T} {WW : World T W} (a : Z) (v : option byte).

(** One connection: its builder is reset before the answer is read. *)
Abbreviation quiet := (fun c : Asd_client T => ready_client c).
Lemma send_receive_ready (w : writer) :
  hoare any (send_receive w) (fun _ c => ready_client c) any.
Proof.
  unfold send_receive.
  do 4 (eapply (hoare_bind _ _ _ (fun _ _ => True));
    [eapply hoare_weaken; [apply unconstrained|done..]|intros ?]).
  eapply (hoare_bind _ _ _ (fun _ c => ready_client c)).
  - by intros c _.
  - intros _. eapply (hoare_weaken _ quiet); [by apply (maintains_apart quiet)|by intros|by intros ?? []|done].
Qed.

(** The connection and the memory, while slices arrive. *)
Abbreviation reading := (fun s : Asd_client T * mem => ready_client s.1 /\ s.2 !! a = v).
Abbreviation kept := (fun s : Asd_client T * mem => s.2 !! a = v).

Lemma read_slice_kept s : 0 <= slice_length s < 2 ^ 31 -> ~ in_block a (target s) (slice_length s) ->
  maintains reading any (read_slice s).
Proof.
  intros Hl Ha. unfold read_slice. rewrite s32_small by lia.
  eapply (maintains_bind_post _ (fun bs => len bs <= slice_length s)).
  - intros [c mm] [Hc Hm]. unfold AsdClient.on_client, on_transport, zoom. cbn [fst snd].
    destruct (read_exact (slice_length s) (AsdClient._transport c)) as [[bs|e| |] t'] eqn:Er; try done.
    split; [done|]. eapply read_exact_length; [|exact Er]; lia.
  - intros bs Hbs. apply maintains_modify. intros [c mm] [Hc Hm]. cbn [fst snd] in *. split; [done|].
    rewrite (mem_write_short a _ (slice_length s)); [done|done|lia].
Qed.

Definition slice_away (s : asd_slice) : Prop :=
  0 <= as_len s < 2 ^ 31 /\ ~ in_block a (as_target s) (as_len s).

Lemma partial_get_kept s : slice_away s ->
  hoare reading (partial_get (as_key s) [Make_slice (as_offset s) (as_len s) (as_target s)])
    (fun _ => reading) kept.
Proof.
  intros [Hl Ha]. unfold partial_get. eapply (hoare_bind _ _ _ (fun _ => reading)).
  { apply (hoare_zoom _ _ _ _ (fun _ => any) (fun _ _ c => ready_client c) (fun _ _ => True)); try (intros; simpl in *; tauto).
    intros. apply send_receive_ready. }
  intros response. eapply (hoare_weaken _ reading _ _ (fun _ s => reading s /\ True) _ reading); [|(intros; tauto)..].
  change (maintains reading any (r ← mout (fst (read_partial_get_response false response));
    AsdClient.on_client (AsdClient.set_status r.1) ;;
    AsdClient.on_client (AsdClient.check_status (str "partial_get")) ;;
    for_each read_slice [Make_slice (as_offset s) (as_len s) (as_target s)] ;;
    AsdClient.on_client (on_transport (expires_from_now duration_max)))).
  assert (forall A (m : M (Asd_client T) A), maintains quiet any m ->
    maintains reading any (AsdClient.on_client m)) as Hc.
  { intros A m Hm. apply (maintains_zoom _ quiet); (intros; tauto). }
  apply maintains_bind; [by apply maintains_mout|intros r].
  apply maintains_bind; [by apply Hc, maintains_modify|intros _].
  apply maintains_bind.
  { apply Hc. apply maintains_bind; [by apply maintains_gets|]. intros c.
    destruct (asd_is_ok _); [by apply maintains_ret|apply maintains_throw]. }
  intros _. apply maintains_bind.
  { apply maintains_for_each. constructor; [by apply read_slice_kept|constructor]. }
  intros _. by apply Hc, maintains_apart.
Qed.

Lemma get_slices_kept slices : Forall slice_away slices ->
  hoare reading (get_slices slices) (fun _ => reading) kept.
Proof.
  induction 1 as [|s slices Hs _ IH]; [by intros st Hst|]. unfold get_slices. cbn [for_each].
  eapply hoare_bind; [by apply partial_get_kept|]. intros ?. exact IH.
Qed.
End asd.

Section pools.
Context {T W : Type} `{Transport T} {WW : World T W}.
Abbreviation pool_fine := (fun s : ConnectionPool T * W => ok_pool s.1).
Implicit Types p : ConnectionPool T.

Lemma in_world_fine {A} (m : W -> outcome A * W) : maintains pool_fine any (in_world m).
Proof. by apply maintains_apart. Qed.

Lemma report_failure_fine : maintains pool_fine any report_failure.
Proof.
  intros [p w] [Hm Hs Hf Hc]. unfold report_failure, ConnectionPool.steady_clock_now, in_world, zoom.
  unfold mbind, M_bind. cbn [fst snd] in *. destruct (steady_now w) as [n w']. cbn [gets fst].
  destruct (Z.eqb_spec (ConnectionPool._fast_path_failures p) (2 ^ 31 - 1)); [by split|].
  split; [|done]. cbn [fst]. split; simpl; try done. lia.
Qed.

Lemma get_section_fine :
  maintains pool_fine (fun r => forall c, r = Some (Some c) -> ready_client c) get_section.
Proof.
  intros [p w] [Hm Hs Hf Hc]. rewrite get_section_spec by done. cbn [fst] in *.
  destruct (backing_off p w); [by split|]. split.
  - split; cbn [fst with_connections]; simpl; try done.
    + destruct (connections_ p); [done|]. rewrite len_cons in Hs. simpl. lia.
    + by apply Forall_tail.
  - intros c [= Hh]. rewrite Forall_forall in Hc. apply Hc. by apply head_Some_elem_of.
Qed.

Lemma make_one_ready : maintains pool_fine ready_client make_one_.
Proof.
  unfold make_one_. apply maintains_bind; [by apply maintains_gets|]. intros p.
  destruct (ips (config_ p)) as [|ip ips]; [by apply maintains_mout|].
  apply maintains_bind; [apply in_world_fine|]. intros t [q w] Hq.
  assert (hoare (fun c => AsdClient._mb c = message_builder.make) (init_ (Some (long_id (config_ p))))
    (fun _ c => AsdClient._mb c = message_builder.make) (fun _ => True)) as Hi.
  { eapply (hoare_weaken _ (fun c : Asd_client T => AsdClient._mb c = message_builder.make) _ _
      (fun _ c => AsdClient._mb c = message_builder.make /\ True)); [|by intros|by intros ?? []|by intros].
    unfold init_, read_u32.
    repeat first [ by apply maintains_apart | by apply maintains_gets | by apply maintains_mout
                 | by apply maintains_ret | apply maintains_throw | apply maintains_if
                 | apply maintains_bind; [|intros ?] ]. }
  specialize (Hi (AsdClient.Make_Asd_client (Make_AsdStatus 0) t (ConnectionPool.timeout_ p) message_builder.make) eq_refl).
  unfold in_world, zoom, new_client, make_Asd_client. cbn [snd].
  destruct (init_ _ _) as [[[]|e| |] c]; try done. split; [done|]. unfold ready_client. by rewrite Hi.
Qed.

Lemma get_connection_fine :
  maintains pool_fine (fun r => forall c, r = Some c -> ready_client c) get_connection.
Proof.
  unfold get_connection. eapply maintains_bind_post; [apply get_section_fine|].
  intros [[c|]|] Hr.
  - apply maintains_ret. intros ? [= <-]. by apply Hr.
  - apply maintains_try.
    + eapply maintains_bind_post; [apply make_one_ready|]. intros c Hc. apply maintains_ret. by intros ? [= <-].
    + intros e. destruct (is_std_exception e); [by apply maintains_ret|apply maintains_throw].
  - by apply maintains_ret.
Qed.

Lemma release_connection_fine c : ready_client c -> maintains pool_fine any (release_connection (Some c)).
Proof.
  intros Hc. unfold release_connection. apply maintains_bind.
  - intros [p w] [Hm Hs Hf Hcs]. rewrite release_section_spec by done. split; [|done].
    split; simpl; [done| |lia|].
    + destruct (Z.ltb_spec (len (connections_ p)) (capacity_ p)); [rewrite len_cons; lia|done].
    + destruct (_ <? _); [by constructor|done].
  - intros taken. destruct taken; [by apply maintains_ret|apply in_world_fine].
Qed.
End pools.

Section access.
Context {T W : Type} `{BoundedReads T} {WW : World T W} (a : Z) (v : option byte).
Abbreviation access_fine := (fun s : OsdAccess T * W * mem => ok_access s.1.1 /\ s.2 !! a = v).

Lemma ok_set_pools (o : OsdAccess T) key p :
  ok_access o -> ok_pool p ->
  ok_access (set_pools (Make_ConnectionPools (pools_mutex (asd_connection_pools o))
    (<[key := p]> (connection_pools_ (asd_connection_pools o)))) o).
Proof. intros [Hm Hf Hp Hps] Hok. split; simpl; try done. by apply map_Forall_insert_2. Qed.

Lemma on_pool_fine {A} key (m : M (ConnectionPool T * W) A) Q :
  maintains (fun s => ok_pool s.1) Q m -> maintains access_fine Q (on_pool key m).
Proof.
  intros Hm [[o w] mm] [Ho Hv]. unfold on_pool. cbn [fst snd] in *.
  destruct (connection_pools_ (asd_connection_pools o) !! key) as [p|] eqn:E; [|done].
  specialize (Hm (p, w) (oka_pools _ Ho key p E)).
  destruct (m (p, w)) as [[x|e| |] [p' w']]; cbn [fst snd] in *.
  - split; [|apply Hm]. split; [apply ok_set_pools; [done|apply Hm]|done].
  - split; [by apply ok_set_pools|done].
  - split; [by apply ok_set_pools|done].
  - split; [by apply ok_set_pools|done].
Qed.

Lemma get_pool_fine info size timeout :
  maintains access_fine any (on_pools (get_connection_pool info size timeout)).
Proof.
  intros [[o w] mm] [Ho Hv]. unfold on_pools, on_access, zoom, get_connection_pool. cbn [fst snd] in *.
  destruct (negb (kind_asd info)); [by destruct o|]. unfold lock_guard. rewrite (oka_pools_free _ Ho).
  unfold mbind, M_bind. cbn [gets id connection_pools_].
  destruct (connection_pools_ _ !! _) as [p|] eqn:E; cbn; (split; [|done]); (split; [|done]).
  - destruct Ho. by split.
  - destruct Ho as [Hm Hf Hp Hps]. split; simpl; try done. apply map_Forall_insert_2; [|done].
    split; simpl; [done| |lia|constructor]. pose proof (u64_range size). rewrite len_nil. lia.
Qed.

Lemma find_osd_fine osd : maintains access_fine any (on_access (_find_osd osd)).
Proof.
  apply (maintains_zoom _ ok_access); [|by intros s []|by intros s o [_ Hv]].
  unfold _find_osd. apply maintains_lock; [by intros o []|by intros o []|].
  unfold last_map. apply maintains_bind; [|by intros; apply maintains_gets].
  apply maintains_bind; [by apply maintains_gets|]. intros maps.
  destruct (last maps); [by apply maintains_ret|by apply maintains_mout].
Qed.

Lemma use_connection_fine key c slices : ready_client c -> Forall (slice_away a) slices ->
  maintains access_fine any (use_connection key c slices).
Proof.
  intros Hc Hs [[o w] mm] [Ho Hv]. unfold use_connection. cbn [fst snd] in *.
  pose proof (get_slices_kept a v slices Hs (c, mm) (conj Hc Hv)) as Hg.
  destruct (get_slices slices (c, mm)) as [[[]|e| |] [c' mm']]; cbn [fst snd] in Hg; try (by split).
  - refine (maintains_bind _ any (on_pool key _) _ _ _ (o, w, mm') (conj Ho (proj2 Hg))).
    + by apply on_pool_fine, release_connection_fine, Hg.
    + intros _. by apply maintains_ret.
  - destruct (is_std_exception e).
    + refine (maintains_bind _ any (on_pool key _) _ _ _ (o, w, mm') (conj Ho Hg)).
      * apply on_pool_fine, maintains_bind; [apply report_failure_fine|intros _; apply in_world_fine].
      * intros _. by apply maintains_ret.
    + refine (maintains_bind _ any (on_pool key _) _ _ _ (o, w, mm') (conj Ho Hg)).
      * apply on_pool_fine, in_world_fine.
      * intros _. apply maintains_throw.
Qed.

Lemma direct_path_fine osd slices : Forall (slice_away a) slices ->
  maintains access_fine any (_read_osd_slices_asd_direct_path osd slices).
Proof.
  intros Hs. unfold _read_osd_slices_asd_direct_path.
  apply maintains_bind; [apply find_osd_fine|]. intros [ic|]; [|by apply maintains_ret].
  apply maintains_bind; [by apply maintains_gets|]. intros o.
  apply maintains_bind; [apply get_pool_fine|]. intros [key|]; [|by apply maintains_ret].
  eapply maintains_bind_post; [apply on_pool_fine, get_connection_fine|].
  intros [c|] Hc; [|by apply maintains_ret]. apply use_connection_fine; [by apply Hc|done].
Qed.

Lemma read_osds_fine per_osd : Forall (fun p => Forall (slice_away a) p.2) per_osd ->
  maintains access_fine any (read_osds_slices per_osd).
Proof.
  induction 1 as [|[osd slices] per_osd Hs _ IH]; [by apply maintains_ret|]. cbn [read_osds_slices].
  apply maintains_bind; [by apply direct_path_fine|]. intros rc.
  destruct (negb (rc =? 0)); [by apply maintains_ret|exact IH].
Qed.
End access.

(** ** The singleton *)

Section singleton.
Context {T W : Type} `{Transport T} {WW : World T W} {C : Type} (osd_info2 : osd_maps_t -> M C osd_maps_t).
Abbreviation ok_first := (fun s : OsdAccess T * C => ok_access s.1).

Lemma update_fine : maintains ok_first any (update osd_info2).
Proof.
  unfold update. apply maintains_bind; [by apply maintains_gets|]. intros filling.
  apply maintains_lock; [by intros s []|by intros [o c] []|]. destruct filling; simpl.
  { apply maintains_bind; [by apply maintains_gets|]. intros [];
      [by apply maintains_mout|by apply maintains_ret]. }
  apply maintains_bind; [by apply maintains_gets|]. intros [];
    [by apply maintains_ret|]. simpl.
  apply maintains_bind; [by apply maintains_modify; intros [o c] []|]. intros _.
  apply maintains_bind.
  - apply maintains_try.
    + apply maintains_bind; [|intros _; by apply maintains_ret].
      apply maintains_lock; [by intros s []|by intros [o c] []|].
      apply maintains_bind; [by apply maintains_apart|]. intros infos.
      apply maintains_modify. intros [o c] []. by split.
    + intros e. destruct (is_std_exception e); [by apply maintains_ret|apply maintains_throw].
  - intros r. apply maintains_bind; [by apply maintains_modify; intros [o c] []|].
    intros _. by apply maintains_ret.
Qed.

Lemma get_alba_levels_fine : maintains ok_first any (get_alba_levels osd_info2).
Proof.
  unfold get_alba_levels. apply maintains_bind; [by apply maintains_gets|]. intros levels.
  apply maintains_bind; [|intros _; by apply maintains_gets].
  destruct (len levels =? 0); [|by apply maintains_ret].
  apply maintains_bind; [apply update_fine|]. intros [];
    [by apply maintains_ret|apply maintains_throw].
Qed.

Lemma all_known_fine per_osd : maintains (ok_access (T := T)) any (all_known per_osd).
Proof.
  induction per_osd as [|[osd ss] per_osd IH]; [by apply maintains_ret|]. cbn [all_known].
  apply maintains_bind; [|intros []; [by apply maintains_ret|exact IH]].
  apply maintains_lock; [by intros o []|by intros o []|].
  unfold last_map. apply maintains_bind; [|by intros; apply maintains_ret].
  apply maintains_bind; [by apply maintains_gets|]. intros maps.
  destruct (last maps); [by apply maintains_ret|by apply maintains_mout].
Qed.
End singleton.
