(* ===== verification/WellFormed.v ===== *)
(** * The client's state stays well formed, and reads stay inside their buffers

    Whatever the servers answer and however a call ends, the client keeps its type
    invariant ([well_formed]): the manifests it has cached are ones the resolution of
    slices can work with, the caches and the pools have their sizes, no mutex stays
    locked, keys are kept under their hashes.  And whatever the ASDs send, reading writes
    to the caller's memory only inside the slices asked for ([outside]).  Both follow
    from triples ([Hoare]) for the operations of every component on the way. *)

From S2P Require Import Prelude Hoare Llio Stuff AlbaCommon Checksum Encryption OsdInfo Manifest Sequences.
From S2P Require Import ProxyProtocol LruCache ManifestCache Transport TransportHelper GenericClient.
From S2P Require Import AsdProtocol AsdClient ConnectionPool OsdAccess RoraLocation ProxyClient RoraClient.

From S2P Require Import Sane AccessInvariant.

Local Open Scope Z_scope.
Local Open Scope alba_scope.

(** ** The cache, and where the locations of a slice lie *)

(** Slices of sizes an [int] can hold, that do not cover the address. *)
Definition sd_away (a : Z) (sd : SliceDescriptor) : Prop :=
  0 <= sd_size sd < 2 ^ 31 /\ ~ in_block a (buf sd) (sd_size sd).
Definition loc_away (a : Z) (p : Z * Location) : Prop :=
  0 <= loc_length p.2 < 2 ^ 31 /\ ~ in_block a p.1 (loc_length p.2).

Lemma get_location_state {ST} mf pos n (s : ST) : snd (get_location mf pos n s) = s.
Proof.
  assert (keeps (fun s : ST => s) (get_location mf pos n)) as Hk; [|by apply Hk].
  unfold get_location.
  repeat first [ apply keeps_mout | apply keeps_ret | apply keeps_bind; [|intros ?]
               | match goal with |- keeps _ (match ?x with _ => _ end) => destruct x end ].
Qed.

Section cache.
Context {B : BimapOps bytes manifest_cache_entry} {BL : Bimap B}.

Record sane_cache (mc : ManifestCache) : Prop := {
  sc_wf : wf_manifest_cache mc;
  sc_sane p key mf : (key, mf) ∈ cache_entries mc p -> sane mf }.

Lemma find_sane ns alba_id name :
  maintains sane_cache (fun r => forall mf, r = Some mf -> sane mf) (find ns alba_id name).
Proof.
  intros mc [Hwf Hs]. pose proof (find_eq ns alba_id name mc Hwf) as He. unfold find in *.
  rewrite (bind_ret_eq _ _ _ _ _ (lookup_spec ns mc Hwf)) in *.
  destruct (_level1 mc !! ns) as [p|] eqn:E; [|by split].
  destruct (find_in_spec p alba_id name mc Hwf) as (mc' & Hf & Hw & _ & _ & Hin); [by eapply wf_refs|].
  rewrite Hf in *. split.
  - split; [done|]. intros q key mf. rewrite Hin. apply Hs.
  - intros mf Hmf. eapply Hs, assoc_Some. exact Hmf.
Qed.

Lemma add_sane ns alba_id mf : sane mf -> maintains sane_cache any (add ns alba_id mf).
Proof.
  intros Hmf mc [Hwf Hs]. unfold add.
  destruct (lookup_or_create_spec ns mc Hwf) as (p & mc1 & Hr & Hw1 & _ & _ & Hp & _ & _ & He1 & _).
  rewrite (bind_ret_eq _ _ _ _ _ Hr).
  destruct (add_to_spec p alba_id mf mc1 Hw1 Hp) as (mc2 & -> & Hw2 & _ & _ & He & Hq & _).
  split; [|done]. split; [done|]. intros q key mf'. destruct (decide (q = p)) as [->|Hne].
  - rewrite He, He1. intros [[= -> ->]|Hin]%insert_entries_elem; [done|by eapply Hs].
  - rewrite Hq, He1 by done. apply Hs.
Qed.

Lemma invalidate_sane ns : maintains sane_cache any (invalidate_namespace ns).
Proof.
  intros mc [Hwf Hs]. destruct (invalidate_spec ns mc Hwf) as (mc' & -> & Hw & _ & Hc).
  split; [|done]. split; [done|]. intros p key mf. unfold cache_entries. rewrite Hc. apply Hs.
Qed.

Context (a : Z).

Lemma resolve_loop_away fuel mf offset n target results :
  sane mf -> 0 <= n < 2 ^ 31 -> ~ in_block a target n -> Forall (loc_away a) results ->
  maintains sane_cache (Forall (loc_away a)) (resolve_loop fuel mf offset n target results).
Proof.
  intros [Hsz Hk]. revert offset n target results.
  induction fuel as [|fuel IH]; intros offset n target results Hn Ha Hr; simpl;
    (destruct (Z.ltb_spec 0 n) as [Hpos|]; [|by apply maintains_ret]); [by apply maintains_mout|].
  eapply (maintains_bind_post _ (fun l => 0 < loc_length l <= n)).
  - intros mc Hmc. destruct (get_location mf offset n mc) as [o mc'] eqn:E.
    pose proof (get_location_state mf offset n mc) as Hst. rewrite E in Hst. simpl in Hst. subst mc'.
    destruct o as [l|e| |]; try done. split; [done|].
    apply (get_location_length _ _ _ _ _ _ Hsz Hk Hpos) in E as [_ Hl]. exact Hl.
  - intros l Hl. rewrite u32_small by lia. apply IH; [lia|unfold in_block in *; lia|].
    apply Forall_app_2; [done|]. constructor; [|done]. split; simpl; [lia|].
    unfold in_block in *. lia.
Qed.

Lemma resolve_slices_away mf sds results :
  sane mf -> Forall (sd_away a) sds -> Forall (loc_away a) results ->
  maintains sane_cache (Forall (loc_away a)) (resolve_slices mf sds results).
Proof.
  intros Hmf Hs. revert results. induction Hs as [|sd sds [Hn Ha] _ IH]; intros results Hr;
    [by apply maintains_ret|]. cbn [resolve_slices].
  eapply maintains_bind_post; [by apply resolve_loop_away|]. exact IH.
Qed.

Definition found_away (r : option (list (Z * Location))) : Prop :=
  forall ls, r = Some ls -> Forall (loc_away a) ls.

Lemma resolve_one_level_away alba_id ns os : Forall (sd_away a) (ProxyProtocol.slices os) ->
  maintains sane_cache found_away (_resolve_one_level alba_id ns os).
Proof.
  intros Hs. unfold _resolve_one_level. eapply maintains_bind_post; [apply find_sane|].
  intros [mf|] Hmf; [|by apply maintains_ret].
  eapply maintains_bind_post; [apply resolve_slices_away; [by apply Hmf|done|done]|].
  intros ls Hls. apply maintains_ret. by intros ? [= <-].
Qed.

Lemma resolve_deeper_away resolve ls final :
  (forall os, Forall (sd_away a) (ProxyProtocol.slices os) -> maintains sane_cache found_away (resolve os)) ->
  Forall (loc_away a) ls -> Forall (loc_away a) final ->
  maintains sane_cache found_away (resolve_deeper resolve ls final).
Proof.
  intros Hres Hls. revert final. induction Hls as [|[target l] ls [Hn Ha] _ IH]; intros final Hf.
  { apply maintains_ret. by intros ? [= <-]. }
  cbn [resolve_deeper]. apply maintains_bind; [by apply maintains_mout|]. intros nm.
  eapply maintains_bind_post; [apply Hres; constructor; [by split|constructor]|].
  intros [more|] Hmore; [|by apply maintains_ret]. apply IH, Forall_app_2; [done|by apply Hmore].
Qed.

Lemma resolve_levels_away levels ns os : Forall (sd_away a) (ProxyProtocol.slices os) ->
  maintains sane_cache found_away (_resolve_one_many_levels levels ns os).
Proof.
  revert os. induction levels as [|alba_id deeper IH]; intros os Hs; [by apply maintains_mout|].
  cbn [_resolve_one_many_levels]. eapply maintains_bind_post; [by apply resolve_one_level_away|].
  intros [ls|] Hls; [|by apply maintains_ret]. destruct deeper as [|al deeper].
  - by apply maintains_ret.
  - apply resolve_deeper_away; [exact IH|by apply Hls|done].
Qed.

Lemma split_slices_away levels ns slices acc via :
  Forall (fun os => Forall (sd_away a) (ProxyProtocol.slices os)) slices ->
  Forall (loc_away a) acc ->
  Forall (fun os => Forall (sd_away a) (ProxyProtocol.slices os)) via ->
  maintains sane_cache (fun r => Forall (loc_away a) r.1 /\
    Forall (fun os => Forall (sd_away a) (ProxyProtocol.slices os)) r.2)
    (split_slices levels ns slices acc via).
Proof.
  intros Hs. revert acc via. induction Hs as [|os slices Hos _ IH]; intros acc via Ha Hv.
  { by apply maintains_ret. }
  cbn [split_slices]. eapply maintains_bind_post; [by apply resolve_levels_away|].
  assert (Forall (fun os => Forall (sd_away a) (ProxyProtocol.slices os)) (via ++ [os])) as Hv'
    by (apply Forall_app_2; [done|by constructor]).
  intros [ls|] Hls; [|by apply IH]. destruct (existsb _ ls); [by apply IH|].
  apply IH; [|done]. apply Forall_app_2; [done|by apply Hls].
Qed.
End cache.

(** ** The client *)

(** Nothing is learnt of a handle but what decryption in place needs: the buffer keeps
    its length. *)
Class InPlace (G : Gcrypt) := {
  decrypt_length hd bs : len (snd (gcry_cipher_decrypt hd bs)) = len bs }.
#[export] Instance toy_InPlace : InPlace toy_gcrypt.
Proof. split. intros hd bs. simpl. unfold len, xor_stream. by rewrite length_imap. Qed.

(** The type invariant of the client and of the objects it works on. *)
Record well_formed {C T W} {B : BimapOps bytes manifest_cache_entry} {BL : Bimap B} `{Digest}
    (s : rora_state C T W) : Prop := {
  wf_manifests : sane_cache (manifests s);
  wf_keys : keys_authentic (client s);
  wf_access o : access s = Some o -> ok_access o }.

Section client.
Context {C : Type} `{SaneDelegate C} {T : Type} `{BoundedReads T} {W : Type} {WW : World T W}.
Context {B : BimapOps bytes manifest_cache_entry} {BL : Bimap B}.
Context {G : Gcrypt} {IP : InPlace G} {D : Digest} (a : Z) (v : option byte).
Abbreviation fine := (fun s : rora_state C T W => well_formed s /\ memory s !! a = v).

Lemma ok_instance (s : rora_state C T W) : well_formed s -> ok_access (instance s).
Proof.
  intros [_ _ Ha]. unfold instance. destruct (access s) as [o|]; [by apply Ha|]. by split.
Qed.

Lemma in_manifests_fine {A} (m : M ManifestCache A) Q :
  maintains sane_cache Q m -> maintains fine Q (in_manifests m).
Proof.
  intros Hm. apply (maintains_zoom _ sane_cache); [done|by intros s [[] _]|].
  intros s mc [[] Hv] Hmc. by split.
Qed.

Lemma in_client_fine {A} (m : M (RoraProxy_client C) A) Q :
  maintains keys_authentic Q m -> maintains fine Q (in_client m).
Proof.
  intros Hm. apply (maintains_zoom _ keys_authentic); [done|by intros s [[] _]|].
  intros s c [[] Hv] Hc. by split.
Qed.

Lemma in_access_fine {A} (m : M (OsdAccess T * C) A) Q :
  maintains (fun s => ok_access s.1) Q m -> maintains fine Q (in_access m).
Proof.
  intros Hm. apply (maintains_zoom _ (fun s => ok_access s.1)); [done|by intros s [Hs _]; apply ok_instance|].
  intros s [o d] [[] Hv] Ho. split; [|done]. split; [done|done|]. by intros ? [= <-].
Qed.

Lemma in_reading_fine {A} (m : M (OsdAccess T * W * mem) A) Q :
  maintains (fun s => ok_access s.1.1 /\ s.2 !! a = v) Q m -> maintains fine Q (in_reading m).
Proof.
  intros Hm. apply (maintains_zoom _ (fun s => ok_access s.1.1 /\ s.2 !! a = v)); [done| |].
  - intros s [Hs Hv]. split; [by apply ok_instance|done].
  - intros s [[o w] mm] [[] Hv] [Ho Hv']. split; [|done]. split; [done|done|]. by intros ? [= <-].
Qed.

Lemma clock_fine : maintains fine any (RoraClient.steady_clock_now).
Proof.
  intros s [[] Hv]. unfold RoraClient.steady_clock_now. destruct (steady_now (world s)). by split.
Qed.

Lemma set_failures_fine n (f : RoraProxy_client C -> Z) :
  maintains fine any (in_client (modify (fun c => RoraClient.set_failures (f c) (n c) c))).
Proof. by apply in_client_fine, maintains_modify. Qed.

Lemma choose_path_fine cr : maintains fine any (choose_path cr).
Proof.
  unfold choose_path. apply maintains_bind; [by apply maintains_gets|]. intros c.
  destruct (100 <? _); [|by apply maintains_ret].
  apply maintains_bind; [apply clock_fine|]. intros t. destruct (120 <? _); [|by apply maintains_ret].
  apply maintains_bind; [by apply in_client_fine, maintains_modify|]. intros _. by apply maintains_ret.
Qed.

Lemma account_fine rc n : maintains fine any (account rc n).
Proof.
  unfold account. destruct (negb (rc =? 0)).
  - apply maintains_bind; [apply clock_fine|]. intros t. by apply in_client_fine, maintains_modify.
  - apply maintains_bind; [by apply in_client_fine, maintains_modify|]. intros _.
    apply maintains_modify. intros s [[] Hv]. by split.
Qed.

Lemma process_fine infos ns : Forall sane_info infos -> maintains fine any (_process infos ns).
Proof.
  intros Hi. apply maintains_for_each. eapply Forall_impl; [exact Hi|].
  intros [[nm al] mf] Hmf. unfold process_info. apply maintains_bind; [|intros; by apply in_manifests_fine, add_sane].
  destruct (bool_decide (al = [])); [|by apply maintains_ret].
  apply maintains_bind; [apply in_access_fine, get_alba_levels_fine|].
  intros [|l levels]; [apply maintains_throw|by apply maintains_ret].
Qed.

Lemma via_proxy_fine ns slices cr : outside slices a -> maintains fine any (read_via_proxy ns slices cr).
Proof.
  intros Ho. unfold read_via_proxy. eapply maintains_bind_post; [|intros infos Hi; by apply process_fine].
  apply (maintains_zoom _ (fun s : C * mem * RoraCounter => s.1.2 !! a = v)); [by apply read_sane|by intros s [_ Hv]|].
  intros s [[d mm] cn] [[] Hv] Hv'. by split.
Qed.
End client.

(** ** Reading directly *)

Section direct.
Context {C : Type} `{SaneDelegate C} {T : Type} `{BoundedReads T} {W : Type} {WW : World T W}.
Context {B : BimapOps bytes manifest_cache_entry} {BL : Bimap B}.
Context {G : Gcrypt} {IP : InPlace G} {D : Digest} (a : Z) (v : option byte).
Abbreviation fine := (fun s : rora_state C T W => well_formed s /\ memory s !! a = v).

Definition osd_slices_away (per_osd : list (osd_t * list asd_slice)) : Prop :=
  Forall (fun p => Forall (slice_away a) p.2) per_osd.

Lemma push_slice_away osd s per_osd :
  slice_away a s -> osd_slices_away per_osd -> osd_slices_away (push_slice osd s per_osd).
Proof.
  intros Hs. assert (Forall (slice_away a) [s]) as Hone by (constructor; [done|constructor]).
  induction 1 as [|[o ss] per_osd Hss Hrest IH]; [by constructor|]. simpl.
  destruct (osd <? o); [constructor; [done|by constructor]|].
  destruct (osd =? o); constructor; try done. apply Forall_app_2; [done|by constructor].
Qed.

Lemma group_away ls per_osd : Forall (loc_away a) ls -> osd_slices_away per_osd ->
  maintains keys_authentic osd_slices_away (group_per_osd (C := C) ls per_osd).
Proof.
  intros Hls. revert per_osd. induction Hls as [|[target l] ls Hl _ IH]; intros per_osd Hp;
    [by apply maintains_ret|]. cbn [group_per_osd].
  apply maintains_bind; [destruct (fst _); [by apply maintains_ret|by apply maintains_mout]|]. intros o.
  apply maintains_bind; [by apply maintains_apart|]. intros key. apply IH. by apply push_slice_away.
Qed.

Lemma partial_decrypt_length e key ctr offset n :
  maintains (fun s => len (ds_buf s) = n) any (partial_decrypt e key ctr offset).
Proof.
  assert (forall b, maintains (fun s => len (ds_buf s) = n) any
    (gcry_cipher_close ;; mret b : M decrypt_state bool)) as Hclose.
  { intros b. apply maintains_bind; [by apply maintains_modify|]. intros _. by apply maintains_ret. }
  unfold partial_decrypt. destruct (negb _); [by apply maintains_ret|].
  apply maintains_bind; [destruct (len ctr =? 16); [by apply maintains_ret|by apply maintains_mout]|]. intros _.
  apply maintains_bind; [by apply maintains_mout|]. intros hl. destruct (ctr_add _ _ _) as [high low].
  apply maintains_bind; [by apply maintains_mout|]. intros block.
  apply maintains_bind.
  { intros s Hs. unfold open_handle. by destruct gcry_cipher_open. }
  intros [rc hd]. destruct (negb _); [by apply maintains_ret|]. unfold keyed_decrypt. cbn [snd].
  destruct (gcry_cipher_setkey hd key) as [rc1 hd1]. destruct (negb (rc1 =? 0)); [apply Hclose|].
  destruct (gcry_cipher_setctr hd1 block) as [rc2 hd2]. destruct (negb (rc2 =? 0)); [apply Hclose|].
  unfold burn_and_decrypt. set (r := if 0 <? _ then _ else _). destruct r as [[rc3 hd3] junk].
  destruct (negb (rc3 =? 0)); [apply Hclose|].
  apply maintains_bind; [|intros r; destruct (negb (r.1 =? 0)); apply Hclose].
  intros s Hs. unfold decrypt_buf. pose proof (decrypt_length hd3 (ds_buf s)) as Hl.
  destruct (gcry_cipher_decrypt hd3 (ds_buf s)) as [[rc4 hd4] buf]. simpl in *. split; [congruence|done].
Qed.

Lemma decrypt_location_fine levels p : loc_away a p -> maintains fine any (decrypt_location levels p).
Proof.
  destruct p as [buf l]. intros [Hl Ha]. unfold decrypt_location. cbn [fst snd] in *.
  destruct (loc_encrypt_info l) as [|e]; [by apply maintains_ret|].
  apply maintains_bind; [destruct (loc_ctr l); [by apply maintains_ret|apply maintains_throw]|]. intros ctr.
  apply maintains_bind; [destruct (last levels); [by apply maintains_ret|by apply maintains_mout]|]. intros al.
  apply maintains_bind.
  { apply in_client_fine. intros c Hc.
    destruct (get_encryption_key al (loc_namespace_id l) (key_identification e) c) as [o c'] eqn:E.
    destruct (get_encryption_key_spec _ _ _ _ _ _ Hc E). by destruct o. }
  intros key. apply maintains_bind; [|intros []; [by apply maintains_ret|apply maintains_throw]].
  intros s [Hs Hv]. unfold decrypt_in_place.
  pose proof (partial_decrypt_length e key ctr (loc_offset l) (loc_length l)
    (Decrypt_state (mem_read buf (loc_length l) (memory s)) 0)) as Hd.
  destruct (partial_decrypt _ _ _ _ _) as [o d].
  assert (len (ds_buf d) = loc_length l) as Hlen.
  { assert (len (mem_read buf (loc_length l) (memory s)) = loc_length l) as Hr
      by (unfold len, mem_read; rewrite length_fmap, length_seq; lia).
    specialize (Hd Hr). by destruct o as [|e'| |]; [destruct Hd|..]. }
  assert (well_formed (Make_rora_state (client s) (manifests s) (access s) (world s)
            (mem_write buf (ds_buf d) (memory s)) (cntr s)) /\
          mem_write buf (ds_buf d) (memory s) !! a = v) as Hgoal.
  { split; [by destruct Hs|]. rewrite (mem_write_short a _ (loc_length l)); [done|done|lia]. }
  by destruct o.
Qed.

Lemma read_directly_fine levels ls : Forall (loc_away a) ls -> maintains fine any (read_directly levels ls).
Proof.
  intros Hls. unfold read_directly. apply maintains_bind.
  - unfold _short_path. eapply maintains_bind_post; [apply in_client_fine, group_away; [done|constructor]|].
    intros per_osd Hp. apply maintains_bind.
    + unfold _maybe_update_osd_infos. apply maintains_bind.
      * apply in_access_fine. apply (maintains_zoom _ ok_access); [apply all_known_fine|done..].
      * intros []; simpl; [by apply maintains_ret|].
        apply maintains_bind; [apply in_access_fine, update_fine|]. intros _. by apply maintains_ret.
    + intros _. apply maintains_bind; [by apply maintains_gets|]. intros []; [by apply maintains_ret|].
      by apply in_reading_fine, read_osds_fine.
  - intros rc. destruct (rc =? 0); [|by apply maintains_ret]. apply maintains_try; [|intros; by apply maintains_ret].
    apply maintains_bind; [|intros _; by apply maintains_ret]. apply maintains_for_each.
    eapply Forall_impl; [exact Hls|]. intros p. apply decrypt_location_fine.
Qed.

Lemma read_objects_slices_fine ns slices cr :
  Forall (fun os => Forall (sd_away a) (ProxyProtocol.slices os)) slices ->
  maintains fine any (read_objects_slices ns slices cr).
Proof.
  intros Hs.
  assert (forall via, Forall (fun os => Forall (sd_away a) (ProxyProtocol.slices os)) via -> outside via a) as Hout.
  { intros via Hv. eapply Forall_impl; [exact Hv|]. intros os Hos. eapply Forall_impl; [exact Hos|]. by intros sd []. }
  unfold read_objects_slices. apply maintains_bind; [apply choose_path_fine|]. intros slow.
  destruct slow; [by apply via_proxy_fine, Hout|].
  apply maintains_bind; [apply in_access_fine, get_alba_levels_fine|]. intros levels.
  eapply maintains_bind_post; [by apply in_manifests_fine, split_slices_away|].
  intros [ls via] [Hls Hvia]. cbn [fst snd] in *.
  apply maintains_bind; [by apply read_directly_fine|]. intros rc.
  apply maintains_bind; [apply account_fine|]. intros _.
  destruct (rc =? 0); (destruct (0 <? _); [by apply via_proxy_fine, Hout|by apply maintains_ret]).
Qed.
End direct.

(** ** Every call *)

Inductive rora_call :=
  | NamespaceExistsCall (name : bytes)
  | CreateNamespaceCall (name : bytes) (preset_name : option bytes)
  | DeleteNamespaceCall (name : bytes)
  | ListNamespacesCall (first : bytes) (finc : bool) (last : option bytes) (linc : bool) (max : Z)
      (reverse : bool)
  | WriteObjectFsCall (namespace_ object_name input_file : bytes) (allow_overwrite : bool)
      (checksum : option Checksum)
  | ReadObjectFsCall (namespace_ object_name dest_file : bytes) (consistent_read should_cache : bool)
  | DeleteObjectCall (namespace_ object_name : bytes) (may_not_exist : bool)
  | ListObjectsCall (namespace_ first : bytes) (finc : bool) (last : option bytes) (linc : bool)
      (max : Z) (reverse : bool)
  | ReadObjectsSlicesCall (namespace_ : bytes) (slices : list ObjectSlices) (consistent_read : bool)
  | GetObjectInfoCall (namespace_ object_name : bytes) (consistent_read should_cache : bool)
  | ApplySequenceCall (namespace_ : bytes) (write_barrier : bool) (asserts : list Assert)
      (updates : list Update)
  | InvalidateCacheCall (namespace_ : bytes)
  | DropCacheCall (namespace_ : bytes)
  | GetProxyVersionCall
  | PingCall (delay : Z)
  | OsdInfoCall (result : osd_map_t)
  | OsdInfo2Call (result : osd_maps_t)
  | GetKeyCall (alba_id : bytes) (namespace_id : namespace_t).

(** Sizes an [int] can hold. *)
Definition call_ok (c : rora_call) : Prop :=
  match c with
  | ReadObjectsSlicesCall _ slices _ =>
      Forall (fun os => Forall (fun sd => 0 <= sd_size sd < 2 ^ 31) (ProxyProtocol.slices os)) slices
  | _ => True
  end.

Section calls.
Context {C : Type} `{SaneDelegate C} {T : Type} `{BoundedReads T} {W : Type} {WW : World T W}.
Context {B : BimapOps bytes manifest_cache_entry} {BL : Bimap B}.
Context {G : Gcrypt} {IP : InPlace G} {D : Digest}.

(** The state after a call, however it ends. *)
Definition run_call (s : rora_state C T W) (c : rora_call) : rora_state C T W :=
  match c with
  | NamespaceExistsCall n => snd (namespace_exists n s)
  | CreateNamespaceCall n p => snd (create_namespace n p s)
  | DeleteNamespaceCall n => snd (delete_namespace n s)
  | ListNamespacesCall f fi l li m r => snd (list_namespaces f fi l li m r s)
  | WriteObjectFsCall n o f w cs => snd (write_object_fs n o f w cs s)
  | ReadObjectFsCall n o f cr sc => snd (read_object_fs n o f cr sc s)
  | DeleteObjectCall n o m => snd (delete_object n o m s)
  | ListObjectsCall n f fi l li m r => snd (list_objects n f fi l li m r s)
  | ReadObjectsSlicesCall n sl cr => snd (read_objects_slices n sl cr s)
  | GetObjectInfoCall n o cr sc => snd (get_object_info n o cr sc s)
  | ApplySequenceCall n wb a u => snd (apply_sequence n wb a u s)
  | InvalidateCacheCall n => snd (invalidate_cache n s)
  | DropCacheCall n => snd (drop_cache n s)
  | GetProxyVersionCall => snd (get_proxy_version s)
  | PingCall d => snd (ping d s)
  | OsdInfoCall r => snd (osd_info r s)
  | OsdInfo2Call r => snd (osd_info2 r s)
  | GetKeyCall a n => snd (get_fragment_encryption_key a n s)
  end.

Lemma maintains_snd {ST A} (I : ST -> Prop) (Q : A -> Prop) (m : M ST A) s :
  maintains I Q m -> I s -> I (snd (m s)).
Proof. intros Hm Hs. specialize (Hm s Hs). destruct (m s) as [[x|e| |] s']; [apply Hm|done..]. Qed.

(** An address in front of all the slices. *)
Lemma address_outside (slices : list ObjectSlices) :
  exists a, Forall (fun os => Forall (fun sd => a < buf sd) (ProxyProtocol.slices os)) slices.
Proof.
  assert (forall sds : list SliceDescriptor, exists a, Forall (fun sd => a < buf sd) sds) as Hone.
  { induction sds as [|sd sds [a Ha]]; [by exists 0|]. exists (Z.min a (buf sd - 1)).
    constructor; [lia|]. eapply Forall_impl; [exact Ha|]. simpl. lia. }
  induction slices as [|os slices [a Ha]]; [by exists 0|].
  destruct (Hone (ProxyProtocol.slices os)) as [a' Ha']. exists (Z.min a a'). constructor.
  - eapply Forall_impl; [exact Ha'|]. simpl. lia.
  - eapply Forall_impl; [exact Ha|]. intros os' Hos'. eapply Forall_impl; [exact Hos'|]. simpl. lia.
Qed.

Lemma delegate_call_fine {A} (m : M C A) (s : rora_state C T W) :
  well_formed s -> well_formed (snd (delegate_call m s)).
Proof.
  intros Hs. apply (maintains_snd well_formed any); [|done].
  apply (maintains_zoom _ keys_authentic); [by apply maintains_apart|by intros s' []|].
  intros s' c [] Hc. by split.
Qed.

Lemma apply_sequence_fine ns wb asserts updates (s : rora_state C T W) :
  well_formed s -> well_formed (snd (apply_sequence ns wb asserts updates s)).
Proof.
  intros Hs. apply (maintains_snd (fun s' => well_formed s' /\ memory s' !! 0 = memory s !! 0) any); [|done].
  unfold apply_sequence. eapply maintains_bind_post; [|intros infos Hi; by apply process_fine].
  apply in_client_fine. apply (maintains_zoom _ any); [apply apply_sane|done|done].
Qed.

Lemma run_call_well_formed c (s : rora_state C T W) :
  call_ok c -> well_formed s -> well_formed (run_call s c).
Proof.
  intros Hok Hs. destruct c; cbn [run_call]; try (by apply delegate_call_fine);
    try (by apply apply_sequence_fine).
  - destruct (address_outside slices) as [a Ha].
    apply (maintains_snd (fun s' => well_formed s' /\ memory s' !! a = memory s !! a) any); [|done].
    apply read_objects_slices_fine. cbn [call_ok] in Hok.
    rewrite Forall_forall in Hok, Ha. apply Forall_forall. intros os Hos.
    specialize (Hok os Hos). specialize (Ha os Hos). rewrite Forall_forall in Hok, Ha.
    apply Forall_forall. intros sd Hsd. split; [by apply Hok|]. specialize (Ha sd Hsd).
    unfold in_block. lia.
  - unfold invalidate_cache. unfold mbind, M_bind.
    assert (well_formed (snd (in_manifests (invalidate_namespace namespace_) s))) as Hinv.
    { apply (maintains_snd (fun s' => well_formed s' /\ memory s' !! 0 = memory s !! 0) any); [|done].
      apply in_manifests_fine, invalidate_sane. }
    destruct (in_manifests _ s) as [[[]|e| |] s1]; try done. by apply delegate_call_fine.
Qed.
End calls.

Lemma toy_well_formed : well_formed toy_state.
Proof.
  split.
  - change (sane_cache (snd (add (str "ns") (str "alba") two_chunks ManifestCache.getInstance))).
    apply (maintains_snd sane_cache any); [apply add_sane|].
    + split; [repeat constructor; lia|done].
    + split; [apply ManifestCache.getInstance_wf|]. intros p key mf. unfold cache_entries. simpl.
      rewrite lookup_empty. by intros ?%not_elem_of_nil.
  - intros k v Hk. cbn in Hk. by rewrite lookup_empty in Hk.
  - by intros o [=].
Qed.

(** ** Properties *)

(** C5: The type invariant of the client.  Whatever calls are made (all public methods,
    with any arguments but slices beyond the range of [int]), whatever the proxy, the
    ASDs and the world answer and however each call ends, the client stays well formed:
    the cache keeps its capacities, its mutexes free and only manifests whose fields
    have their types; keys are kept under their own hashes; every pool is within its
    capacity, unlocked, with connections that have no request half written. *)
Theorem client_stays_well_formed {C} `{SaneDelegate C} {T} `{BoundedReads T} {W} {WW : World T W}
    {B : BimapOps bytes manifest_cache_entry} {BL : Bimap B} {G : Gcrypt} {IP : InPlace G}
    {D : Digest} calls (s : rora_state C T W) :
  Forall call_ok calls -> well_formed s -> well_formed (foldl run_call s calls).
Proof.
  intros Hok. revert s. induction Hok as [|c calls Hc _ IH]; intros s Hs; [done|].
  by apply IH, run_call_well_formed.
Qed.

Lemma client_stays_well_formed_witness :
  let calls := [ReadObjectsSlicesCall (str "ns") [Make_ObjectSlices (str "obj")
                  [Make_SliceDescriptor 100 1 4]] false;
                GetKeyCall (str "alba") 1; InvalidateCacheCall (str "ns")] in
  well_formed (foldl run_call toy_state calls).
Proof.
  intros calls. apply (client_stays_well_formed (G := toy_gcrypt) calls toy_state).
  - repeat constructor; vm_compute; congruence.
  - apply toy_well_formed.
Defined.


