(* ===== verification/SlowPath.v ===== *)
(** * Reading through the proxy, end to end

    The composition of the components a read takes that goes through the proxy: the
    request and the response ([ProxyProtocol]) over a connection ([GenericClient]), the
    slices copied into their buffers, and the manifests that come along going into the
    cache ([ManifestCache]).  [slow_path_refines] says that it implements the same
    abstract [read_objects] as the fast path. *)

From S2P Require Import Prelude Hoare Llio Stuff AlbaCommon Checksum Encryption OsdInfo Manifest ProxyProtocol.
From S2P Require Import Writes LruCache ManifestCache Transport TransportHelper GenericClient OsdAccess.
From S2P Require Import RoraLocation ProxyClient RoraClient FastPath Sane WellFormed.

Local Open Scope Z_scope.
Local Open Scope alba_scope.

(** ** The response *)

(** The slices' bytes of the objects, in the order of the request. *)
Definition slices_data (content : bytes -> bytes) (slices : list ObjectSlices) : list bytes :=
  concat ((fun os => (fun sd => stretch (offset sd) (sd_size sd) (content (object_name os)))
                       <$> ProxyProtocol.slices os) <$> slices).

Lemma write_slices_app ss1 ss2 ds1 ds2 mm : length ss1 = length ds1 ->
  write_slices (ss1 ++ ss2) (ds1 ++ ds2) mm = write_slices ss2 ds2 (write_slices ss1 ds1 mm).
Proof. intros Hl. unfold write_slices. by rewrite zip_with_app, foldl_app. Qed.

Lemma write_slices_read data sds mm :
  write_slices sds ((fun sd => stretch (offset sd) (sd_size sd) data) <$> sds) mm = read_slices data sds mm.
Proof.
  unfold write_slices, read_slices. revert mm. induction sds as [|sd sds IH]; intros mm; [done|].
  simpl. apply IH.
Qed.

Lemma write_slices_data content slices mm :
  write_slices (all_slices slices) (slices_data content slices) mm = read_objects content slices mm.
Proof.
  unfold all_slices, slices_data, read_objects. revert mm.
  induction slices as [|os slices IH]; intros mm; [done|]. simpl.
  rewrite write_slices_app by (by rewrite length_fmap). rewrite write_slices_read. apply IH.
Qed.

Lemma slices_data_sizes content slices :
  Forall (fun os => Forall (slice_inside (content (object_name os))) (ProxyProtocol.slices os)) slices ->
  Forall2 (fun s d => len d = sd_size s) (all_slices slices) (slices_data content slices).
Proof.
  intros Hs. unfold all_slices, slices_data. induction Hs as [|os slices Hos _ IH]; [done|]. simpl.
  apply Forall2_app; [|exact IH]. apply Forall2_fmap_r, Forall_Forall2_diag.
  eapply Forall_impl; [exact Hos|]. intros sd (Ho & Hn & Hle). apply len_stretch; lia.
Qed.

Section proxy.
Context `{RT : ReliableTransport T} `{Snappy}.
Implicit Types c : GenericProxy_client T.

(** What the proxy sends: the status, a count, the bytes, the manifests. *)
Definition slices_response (content : bytes -> bytes) (slices : list ObjectSlices) (count : Z)
    (wis : list wire_info) : bytes :=
  enc_status 0 [] ++ enc_int 4 count ++ concat (slices_data content slices) ++ enc_infos wis.

Lemma slices2_response_spec st content slices count wis msg mm :
  wf_message msg -> valid_int 32 count -> Forall valid_info wis -> len wis < 2 ^ 31 ->
  Forall (fun os => Forall (slice_inside (content (object_name os))) (ProxyProtocol.slices os)) slices ->
  remaining msg = slices_response content slices count wis ->
  exists msg', read_read_objects_slices2_response slices st (msg, mm)
    = (Ret (Make_Status 0 (_what st), omap read_info wis), (msg', read_objects content slices mm)).
Proof.
  intros Hwf Hc Hw Hl Hin E. unfold slices_response in E. pose proof (remaining_split _ _ _ Hwf E) as L0.
  assert (valid_int 32 0) as Hz by (vm_compute; split; congruence).
  assert (wf_message (advance 4 msg)) as Hw1 by (apply wf_advance; [done|change (len (enc_status 0 [])) with 4 in L0; lia]).
  pose proof (remaining_advance _ _ _ Hwf E) as E1. change (len (enc_status 0 [])) with 4 in E1.
  pose proof (remaining_split _ _ _ Hw1 E1) as L1.
  assert (wf_message (advance 4 (advance 4 msg))) as Hw2
    by (apply wf_advance; [done|change (len (enc_int 4 count)) with 4 in L1; lia]).
  pose proof (remaining_advance _ _ _ Hw1 E1) as E2. change (len (enc_int 4 count)) with 4 in E2.
  set (datas := concat (slices_data content slices)) in *.
  pose proof (remaining_split _ _ _ Hw2 E2) as L2. pose proof (len_nonneg datas).
  assert (wf_message (advance (len datas) (advance 4 (advance 4 msg)))) as Hw3 by (apply wf_advance; [done|lia]).
  pose proof (remaining_advance _ _ _ Hw2 E2) as E3. rewrite <- (app_nil_r (enc_infos wis)) in E3.
  eexists. unfold read_read_objects_slices2_response.
  rewrite (bind_ret_eq _ _ _ _ _ (rm_eq _ _ mm _ _ (read_status_parses st 0 [] Hz msg _ Hwf E))).
  cbn [Z.eqb is_ok _return_code]. unfold is_ok, return_code.OK; cbn [Z.eqb _return_code].
  change (len (enc_status 0 [])) with 4.
  rewrite (bind_ret_eq _ _ _ _ _ (rm_eq _ _ mm _ _ (from_u32_decodes count Hc _ _ Hw1 E1))).
  change (len (enc_int 4 count)) with 4.
  rewrite (bind_ret_eq _ _ _ _ _ (copy_slices_spec slices _ _ mm (enc_infos wis) Hw2 (slices_data_sizes _ _ Hin) E2)).
  rewrite write_slices_data. fold datas.
  rewrite (bind_ret_eq _ _ _ _ _ (rm_eq _ _ _ _ _ (read_object_infos_parses wis Hw Hl _ _ Hw3 E3))).
  reflexivity.
Qed.

(** The call: the response is to exactly this request, and the connection is in step. *)
Lemma read_slices2_spec c mm cn ns slices cr content count wis rest :
  let req := enc_request (ReadObjectsSlices2 ns slices cr) in
  let resp := slices_response content slices count wis in
  slices <> [] -> idle c -> valid_request (ReadObjectsSlices2 ns slices cr) ->
  len req < 2 ^ 31 - 4 -> len resp < 2 ^ 31 -> incoming (GenericClient._transport c) = frame resp ++ rest ->
  valid_int 32 count -> Forall valid_info wis -> len wis < 2 ^ 31 ->
  Forall (fun os => Forall (slice_inside (content (object_name os))) (ProxyProtocol.slices os)) slices ->
  exists c', d_read_objects_slices2 ns slices cr (c, mm, cn)
    = (Ret (omap read_info wis), (c', read_objects content slices mm,
         Make_RoraCounter (fast_path cn) (u64 (slow_path cn + len slices)))) /\
    exchanged req rest c c'.
Proof.
  intros req resp Hne Hi Hv Hreq Hresp Hin Hc Hw Hl Hs.
  destruct (send_receive_spec _ req resp rest c Hi (write_request_appends _ Hv) Hreq Hresp Hin)
    as (c1 & Hsr & Hex & _).
  destruct (message_make_spec resp Hresp) as (Hwf & Hrem & _).
  destruct (slices2_response_spec (GenericClient._status c) content slices count wis
    (message.make (message_buffer.fresh resp (len resp))) mm Hwf Hc Hw Hl Hs) as (msg' & Hr); [done|].
  destruct (check_status_spec req rest c (Make_GenericProxy_client (Make_Status 0 (_what (GenericClient._status c)))
    (GenericClient._transport c1) (GenericClient._timeout c1) (GenericClient._mb c1))) as (c2 & Hcs & Hex2 & _).
  { destruct Hex as ((E1 & E2 & E3) & E4 & E5 & E6). by split_and!. }
  exists c2. split; [|done]. cbn [d_read_objects_slices2 generic_Delegate]. unfold GenericClient.read_objects_slices2.
  destruct (Z.eqb_spec (len slices) 0) as [Hz|_]; [exfalso; apply Hne, nil_length_inv; unfold len in Hz; lia|].
  revert Hsr. unfold GenericClient.on_client, zoom, mbind, M_bind, gets, id. cbn [fst snd write_request].
  destruct (_expires_from_now (GenericClient._timeout c) c) as [[[]| | |] ca]; try done. cbn [fst snd].
  destruct (on_mb (write_read_objects_slices2_request ns slices cr) ca) as [[[]| | |] cb]; try done. cbn [fst snd].
  destruct (_output cb) as [[[]| | |] cd]; try done. cbn [fst snd].
  intros ->. cbn [fst snd]. unfold GenericClient.on_response. cbn [fst snd]. rewrite Hr. cbn [fst snd].
  unfold GenericClient.set_status, modify, count_slow. cbn [fst snd]. unfold modify. cbn [fst snd].
  rewrite Hcs. reflexivity.
Qed.
End proxy.

(** ** The manifests that come along *)

Section process.
Context {C : Type} `{Delegate C} {T W : Type} `{Transport T} {WW : World T W}.
Context {B : BimapOps bytes manifest_cache_entry} {BL : Bimap B}.
Implicit Types s : rora_state C T W.

Definition set_manifests (mc : ManifestCache) s : rora_state C T W :=
  Make_rora_state (client s) mc (access s) (world s) (memory s) (cntr s).

(** The manifest that came last for a name, among those of a response. *)
Definition info_entry (i : object_info) : bytes * ManifestWithNamespaceId :=
  (make_key i.1.2 (name (manifest i.2)), i.2).
Definition latest (infos : list object_info) (alba_id nm : bytes) : option ManifestWithNamespaceId :=
  inserted (make_key alba_id nm) (info_entry <$> infos).

Lemma infos_named `{Snappy} wis : Forall (fun i => wi_future i <> []) wis ->
  Forall (fun i : object_info => i.1.2 <> []) (omap read_info wis).
Proof.
  intros Hal. apply Forall_forall. intros i (wi & Hwi & Hri)%list_elem_of_omap.
  rewrite Forall_forall in Hal. specialize (Hal wi Hwi). unfold read_info in Hri.
  by destruct (info_result wi); simplify_eq.
Qed.

(** All of them go into the namespace's cache, one after the other. *)
Lemma process_spec ns infos s :
  wf_manifest_cache (manifests s) -> Forall (fun i : object_info => i.1.2 <> []) infos ->
  exists mc, _process infos ns s = (Ret tt, set_manifests mc s) /\ wf_manifest_cache mc /\
    room mc ns = room (manifests s) ns /\
    ns_entries mc ns = insert_all (room (manifests s) ns) (info_entry <$> infos) (ns_entries (manifests s) ns).
Proof.
  intros Hwf Hi. revert s Hwf. induction Hi as [|[[nm al] mf] infos Hal _ IH]; intros s Hwf.
  { exists (manifests s). split; [by destruct s|]. by split. }
  destruct (add_spec ns al mf (manifests s) Hwf) as (mc1 & Ha & Hw1 & He1 & Hroom1 & _).
  destruct (IH (set_manifests mc1 s) Hw1) as (mc & Hp & Hw & Hroom & He). cbn [manifests set_manifests] in *.
  exists mc. split; [|split; [done|split; [congruence|]]].
  - unfold _process. cbn [for_each].
    rewrite (bind_ret_eq _ _ _ tt (set_manifests mc1 s)); [exact Hp|].
    unfold process_info. cbn [fst snd] in Hal. rewrite bool_decide_eq_false_2 by done. rewrite ret_bind.
    unfold in_manifests, zoom. by rewrite Ha.
  - by rewrite He, Hroom1, He1.
Qed.

(** What is found afterwards: the last ones, as many as there is room for. *)
Lemma latest_cached ns infos older newer s mc al nm mf :
  wf_manifest_cache (manifests s) -> infos = older ++ newer -> len newer <= room (manifests s) ns ->
  ns_entries mc ns = insert_all (room (manifests s) ns) (info_entry <$> infos) (ns_entries (manifests s) ns) ->
  latest newer al nm = Some mf -> cached mc ns al nm = Some mf.
Proof.
  intros Hwf -> Hn He Hl. unfold cached. rewrite He, fmap_app. unfold insert_all. rewrite foldl_app.
  apply insert_all_inserted; [|unfold len in *; by rewrite length_fmap|done].
  by apply insert_all_nodup, ns_entries_nodup.
Qed.
End process.

(** A concrete exchange: two slices, and the manifest of another object. *)
Section answered.
Definition answered_content (name : bytes) : bytes := str "abcdefgh".
Definition answered_slices : list ObjectSlices :=
  [Make_ObjectSlices (str "object") [Make_SliceDescriptor 100 2 3; Make_SliceDescriptor 200 0 1]].
Definition answered_info : wire_info :=
  Make_wire_info (str "object") (str "alba") 2 (enc_body sample_wire) 5.
#[local] Instance plain_snappy : Snappy := fun bs => bs.
Definition answered_state : rora_state (GenericProxy_client script) script scripted :=
  Make_rora_state
    (Make_RoraProxy_client
       (Make_GenericProxy_client (Make_Status 0 [])
          (Script (frame (slices_response answered_content answered_slices 2 [answered_info])) [])
          1000 message_builder.make)
       false true 0 0 5 25 message_builder.make None ∅)
    ManifestCache.getInstance None (Scripted 0 [] []) ∅ new_RoraCounter.
Lemma answered_info_valid : valid_info answered_info.
Proof.
  split; [right; reflexivity|]. split; [split; vm_compute; congruence|].
  left. eexists. split; [vm_compute; reflexivity|reflexivity].
Qed.
End answered.

(** ** Property *)

(** C3: The slow path implements the specification of a read, the same as the fast path.
    When a consistent read goes through the proxy (over any transport) and the proxy
    answers with the slices' bytes and manifests, [read_objects_slices] returns; the
    caller's memory holds exactly the slices of the objects; exactly the request has been
    sent, exactly the response taken in, and the connection is ready for the next call;
    the slow path is counted; and of the manifests that came along the last ones, as many
    as the namespace's cache has room for, are found by the next read, the latest for every
    name. *)
Theorem slow_path_refines `{RT : ReliableTransport T} `{Snappy} {T'} `{Transport T'} {W} {WW : World T' W}
    {B : BimapOps bytes manifest_cache_entry} {BL : Bimap B} {G : Gcrypt} `{Digest}
    content count wis rest (s : rora_state (GenericProxy_client T) T' W) ns slices :
  let req := enc_request (ReadObjectsSlices2 ns slices true) in
  let resp := slices_response content slices count wis in
  _has_local_fragment_cache (client s) = true -> failures s <= 100 -> wf_manifest_cache (manifests s) ->
  slices <> [] -> idle (_delegate (client s)) -> valid_request (ReadObjectsSlices2 ns slices true) ->
  len req < 2 ^ 31 - 4 -> len resp < 2 ^ 31 ->
  incoming (GenericClient._transport (_delegate (client s))) = frame resp ++ rest ->
  valid_int 32 count -> Forall valid_info wis -> len wis < 2 ^ 31 -> Forall (fun i => wi_future i <> []) wis ->
  Forall (fun os => Forall (slice_inside (content (object_name os))) (ProxyProtocol.slices os)) slices ->
  exists s', read_objects_slices ns slices true s = (Ret tt, s') /\
    memory s' = read_objects content slices (memory s) /\
    exchanged req rest (_delegate (client s)) (_delegate (client s')) /\
    cntr s' = Make_RoraCounter (fast_path (cntr s)) (u64 (slow_path (cntr s) + len slices)) /\
    wf_manifest_cache (manifests s') /\
    forall older newer alba_id nm mf, omap read_info wis = older ++ newer ->
      len newer <= room (manifests s) ns -> latest newer alba_id nm = Some mf ->
      cached (manifests s') ns alba_id nm = Some mf.
Proof.
  intros req resp Hloc Hf Hmc Hne Hi Hv Hreq Hresp Hin Hc Hw Hl Hal Hs.
  destruct s as [c mc acc w mm cn]. cbn [client manifests access world memory cntr] in *.
  destruct (read_slices2_spec (_delegate c) mm cn ns slices true content count wis rest)
    as (d & Hr & Hex); [done..|].
  destruct (process_spec ns (omap read_info wis)
    (Make_rora_state (RoraClient.set_delegate d c) mc acc w (read_objects content slices mm)
       (Make_RoraCounter (fast_path cn) (u64 (slow_path cn + len slices)))) Hmc) as (mc' & Hp & Hw' & _ & He).
  { by apply infos_named. }
  eexists. split; [|split; [|split; [|split; [|split]]]].
  - unfold RoraClient.read_objects_slices.
    rewrite (bind_ret_eq (choose_path true) _ _ true (Make_rora_state c mc acc w mm cn)).
    2: { unfold choose_path. rewrite gets_bind. cbn [client]. rewrite Hloc. unfold failures in Hf. cbn [client] in Hf.
      by destruct (Z.ltb_spec 100 (RoraClient._fast_path_failures c)); [lia|]. }
    cbv iota. unfold read_via_proxy.
    rewrite (bind_ret_eq (_slow_path ns slices true) _ _ (omap read_info wis)
      (Make_rora_state (RoraClient.set_delegate d c) mc acc w (read_objects content slices mm)
       (Make_RoraCounter (fast_path cn) (u64 (slow_path cn + len slices))))).
    2: { unfold _slow_path, zoom. cbn [client memory cntr manifests access world]. by rewrite Hr. }
    exact Hp.
  - reflexivity.
  - exact Hex.
  - reflexivity.
  - exact Hw'.
  - intros older newer al nm mf Ho Hn Hlat. by apply (latest_cached ns _ older newer (Make_rora_state c mc acc w mm cn) mc' al nm mf Hmc Ho Hn).
Qed.

Lemma slow_path_refines_witness :
  exists s', read_objects_slices (H := generic_Delegate (H0 := fun bs => bs)) (str "ns") answered_slices true
      answered_state = (Ret tt, s') /\
    memory s' = mem_write 200 (str "a") (mem_write 100 (str "cde") ∅) /\
    cached (manifests s') (str "ns") (str "alba") (str "object")
    = Some (Make_ManifestWithNamespaceId (read_Manifest sample_wire) 5).
Proof.
  destruct (slow_path_refines (H0 := fun bs => bs) (BL := list_bimap) answered_content 2 [answered_info] []
    answered_state (str "ns") answered_slices) as (s' & Hr & Hm & _ & _ & _ & Hc).
  - reflexivity.
  - vm_compute. congruence.
  - apply ManifestCache.getInstance_wf.
  - discriminate.
  - apply make_client_idle.
  - repeat constructor; vm_compute; congruence.
  - vm_compute. reflexivity.
  - vm_compute. reflexivity.
  - symmetry. apply app_nil_r.
  - split; vm_compute; congruence.
  - constructor; [apply answered_info_valid|constructor].
  - vm_compute. reflexivity.
  - repeat constructor. discriminate.
  - repeat constructor; vm_compute; congruence.
  - exists s'. split; [exact Hr|]. split; [rewrite Hm; reflexivity|].
    apply (Hc [] [(str "object", str "alba", Make_ManifestWithNamespaceId (read_Manifest sample_wire) 5)]);
      [reflexivity|vm_compute; congruence|vm_compute; reflexivity].
Defined.
