(* ===== verification/WritePath.v ===== *)
(** * Writing through the proxy, end to end

    [apply_sequence] (and [write_object_fs], which is one) of the RORA client over a
    connection: the request and the answer ([ProxyCalls]), and the manifests of the
    written objects going into the cache ([ManifestCache]), where the next read finds
    them. *)

From S2P Require Import Prelude Llio Stuff AlbaCommon Checksum Encryption OsdInfo Manifest Sequences.
From S2P Require Import ProxyProtocol LruCache ManifestCache Transport TransportHelper GenericClient.
From S2P Require Import ProxyCalls RoraLocation ProxyClient RoraClient SlowPath.

Local Open Scope Z_scope.
Local Open Scope alba_scope.

Section write.
Context `{RT : ReliableTransport T} `{Snappy} {T'} `{Transport T'} {W} {WW : World T' W}.
Context {B : BimapOps bytes manifest_cache_entry} {BL : Bimap B} {G : Gcrypt} `{Digest}.
Implicit Types s : rora_state (GenericProxy_client T) T' W.

(** The client after a call that has used only the connection. *)
Definition after_call (d : GenericProxy_client T) s : rora_state (GenericProxy_client T) T' W :=
  Make_rora_state (RoraClient.set_delegate d (client s)) (manifests s) (access s) (world s) (memory s) (cntr s).

Lemma delegate_call_eq {A} (m : M (GenericProxy_client T) A) s o d :
  m (_delegate (client s)) = (o, d) -> delegate_call m s = (o, after_call d s).
Proof. intros Hm. unfold delegate_call, in_client, in_delegate, zoom. by rewrite Hm. Qed.
End write.

(** ** An exchange *)

Section written.
Definition written_info (n : Z) : wire_info := Make_wire_info (str "object") (str "alba") 2 (enc_body sample_wire) n.
#[local] Instance plain_snappy : Snappy := fun bs => bs.
Lemma written_info_valid n : valid_int 64 n -> valid_info (written_info n).
Proof.
  intros Hn. split; [right; reflexivity|]. split; [exact Hn|].
  left. eexists. split; [vm_compute; reflexivity|reflexivity].
Qed.
End written.

(** ** Property *)

(** C6: Writing.  [apply_sequence] sends its request and takes in the answer, over any
    working transport.  When the proxy answers with the manifests of the objects it has
    written, the last of them, as many as the namespace's cache has room for, are found
    by the next read, the latest for every name; the caller's memory, the map of OSDs and
    the counters are untouched.  When it answers with an error, the error is thrown and
    the manifests cached before are still there. *)
Theorem written_objects_are_cached `{RT : ReliableTransport T} `{Snappy} {T'} `{Transport T'} {W} {WW : World T' W}
    {B : BimapOps bytes manifest_cache_entry} {BL : Bimap B} {G : Gcrypt} `{Digest}
    (s : rora_state (GenericProxy_client T) T' W) ns write_barrier asserts updates wis rc what rest :
  let r := ApplySequence ns write_barrier asserts updates in
  let resp := enc_status 0 [] ++ enc_infos wis in
  wf_manifest_cache (manifests s) -> idle (_delegate (client s)) ->
  valid_request r -> len (enc_request r) < 2 ^ 31 - 4 ->
  (Forall valid_info wis -> len wis < 2 ^ 31 -> Forall (fun i => wi_future i <> []) wis -> len resp < 2 ^ 31 ->
   incoming (GenericClient._transport (_delegate (client s))) = frame resp ++ rest ->
   exists d mc, exchanged (enc_request r) rest (_delegate (client s)) d /\ wf_manifest_cache mc /\
     RoraClient.apply_sequence ns write_barrier asserts updates s = (Ret tt, set_manifests mc (after_call d s)) /\
     forall older newer alba_id nm mf, omap read_info wis = older ++ newer ->
       len newer <= room (manifests s) ns -> latest newer alba_id nm = Some mf -> cached mc ns alba_id nm = Some mf) /\
  (valid_int 32 rc -> rc <> 0 -> len (enc_status rc what) < 2 ^ 31 ->
   incoming (GenericClient._transport (_delegate (client s))) = frame (enc_status rc what) ++ rest ->
   exists d, exchanged (enc_request r) rest (_delegate (client s)) d /\
     RoraClient.apply_sequence ns write_barrier asserts updates s
     = (Throw (ExnProxy (Proxy_exception rc what)), after_call d s)).
Proof.
  intros r resp Hmc Hi Hv Hreq. split.
  - intros Hw Hl Hal Hresp Hin.
    destruct (run_ok (MApplySequence ns write_barrier asserts updates) (_delegate (client s)) (enc_infos wis)
      (omap read_info wis) rest Hi Hv Hreq ltac:(by exists wis) Hresp Hin) as (d & Hr & Hx).
    destruct (process_spec ns (omap read_info wis) (after_call d s) Hmc (infos_named wis Hal))
      as (mc & Hp & Hwm & _ & He).
    exists d, mc. split; [done|]. split; [done|]. split.
    + unfold RoraClient.apply_sequence. by rewrite (bind_ret_eq _ _ _ _ _ (delegate_call_eq _ s _ _ Hr)).
    + intros older newer al nm mf Ho Hn Hlat. by apply (latest_cached ns _ older newer (after_call d s) mc al nm mf Hmc Ho Hn).
  - intros Hrc Hne Hresp Hin.
    destruct (run_error (MApplySequence ns write_barrier asserts updates) (_delegate (client s)) rc what rest
      Hi Hv Hreq Hresp Hrc Hne Hin) as (d & Hr & Hx).
    exists d. split; [done|]. unfold RoraClient.apply_sequence.
    by rewrite (bind_throw_eq _ _ _ _ _ (delegate_call_eq _ s _ _ Hr)).
Qed.

(** Two manifests for the same object, then an error. *)
Lemma written_objects_are_cached_witness :
  let wis := [written_info 5; written_info 6] in
  let read n := (str "object", str "alba", Make_ManifestWithNamespaceId (read_Manifest sample_wire) n) in
  let upload := [UpdateUploadObjectFromFile (str "object") (str "/tmp/file") None] in
  let s : rora_state (GenericProxy_client script) script scripted := Make_rora_state
    (Make_RoraProxy_client
       (Make_GenericProxy_client (Make_Status 0 [])
          (Script (frame (enc_status 0 [] ++ enc_infos wis) ++ frame (enc_status 9 (str "no"))) []) 1000 message_builder.make)
       false true 0 0 5 25 message_builder.make None ∅)
    ManifestCache.getInstance None (Scripted 0 [] []) ∅ new_RoraCounter in
  let write s := RoraClient.apply_sequence (H := generic_Delegate (H0 := fun bs => bs)) (str "ns") false [] upload s in
  exists s1 s2, write s = (Ret tt, s1) /\
    cached (manifests s1) (str "ns") (str "alba") (str "object")
    = Some (Make_ManifestWithNamespaceId (read_Manifest sample_wire) 6) /\
    write s1 = (Throw (ExnProxy (Proxy_exception 9 (str "no"))), s2) /\
    manifests s2 = manifests s1.
Proof.
  intros wis read upload s write.
  assert (valid_request (ApplySequence (str "ns") false [] upload)) as Hv.
  { split; (split; [|reflexivity]); [constructor|]. constructor; [split|constructor]; exact I. }
  destruct (proj1 (written_objects_are_cached (H0 := fun bs => bs) (BL := list_bimap) s (str "ns") false [] upload wis 1 []
    (frame (enc_status 9 (str "no"))) ManifestCache.getInstance_wf (make_client_idle _ _) Hv ltac:(reflexivity)))
    as (d & mc & (Hi & _ & Hin & _) & Hw & Hr & Hc).
  { constructor; [|constructor; [|constructor]]; apply written_info_valid; split; lia. }
  { reflexivity. } { constructor; [discriminate|]. constructor; [discriminate|constructor]. } { reflexivity. } { reflexivity. }
  destruct (proj2 (written_objects_are_cached (H0 := fun bs => bs) (BL := list_bimap) (set_manifests mc (after_call d s))
    (str "ns") false [] upload [] 9 (str "no") [] Hw Hi Hv ltac:(reflexivity))) as (d2 & _ & Hr2).
  { split; vm_compute; congruence. } { discriminate. } { reflexivity. } { rewrite app_nil_r. exact Hin. }
  eexists _, _. split; [exact Hr|]. split; [|split; [exact Hr2|reflexivity]].
  apply (Hc [] [read 5; read 6]); [vm_compute; reflexivity|vm_compute; congruence|vm_compute; reflexivity].
Defined.
