(* ===== verification/AsdServer.v ===== *)
(** * The other end of a connection to an ASD

    What the ASDs are documented to do, as the class [AsdServer] of transports with an
    ASD at the other end: it introduces itself in the handshake, and answers each request
    with the bytes it holds or with an error.  Nothing is said about whether an operation
    succeeds: connections break and time out as they like.  The triples that follow say
    what the client ([AsdClient]) knows when its calls do return: after the handshake, that
    it talks to the ASD it asked for; after reading slices, that the memory holds them.
    [simulated] is such an ASD, which can be told to fail. *)

From S2P Require Import Prelude Hoare Llio AlbaCommon ProxyProtocol Writes Transport AsdProtocol AsdClient OsdAccess RoraLocation TransportHelper.

Local Open Scope Z_scope.
Local Open Scope alba_scope.

(** ** The contract *)

(** The answer to the prologue: an error, or the ASD's long id. *)
Definition prologue_answer (id resp : bytes) : Prop :=
  (exists rc rest, rc <> 0 /\ valid_int 32 rc /\ resp = enc_int 4 rc ++ rest) \/
  (len id < 2 ^ 30 /\ resp = enc_int 4 0 ++ enc_string id).
(** The answer to a request for one slice of a value: an error, the news that there is no
    such value, or the slice. *)
Definition get_answer (value : bytes) (s : slice) (resp : bytes) : Prop :=
  (exists rc rest, rc <> 0 /\ valid_int 32 rc /\ resp = Transport.frame (enc_int 4 rc) ++ rest) \/
  resp = Transport.frame (enc_int 4 0 ++ enc_bool false) \/
  resp = answer (stretch (slice_offset s) (slice_length s) value).

(** [pending] is what the ASD has sent, or is about to send, and nobody has read. *)
Class AsdServer (T : Type) `{Transport T} := {
  peer : T -> bytes;
  greeted : T -> bool;
  pending : T -> bytes;
  asd_value : bytes -> bytes -> bytes;
  expires_silent d t u t' : expires_from_now d t = (Ret u, t') ->
    peer t' = peer t /\ greeted t' = greeted t /\ pending t' = pending t;
  read_takes n t bs t' : 0 <= n -> read_exact n t = (Ret bs, t') ->
    peer t' = peer t /\ greeted t' = greeted t /\ len bs = n /\ pending t = bs ++ pending t';
  prologue_answered long_id t u t' : greeted t = false -> pending t = [] ->
    write_exact (enc_prologue long_id) t = (Ret u, t') ->
    peer t' = peer t /\ greeted t' = true /\ prologue_answer (peer t) (pending t');
  get_answered key s t u t' : greeted t = true -> pending t = [] -> valid_slice s ->
    slice_offset s + slice_length s <= len (asd_value (peer t) key) ->
    len (enc_asd_request (PartialGet key [s])) < 2 ^ 31 ->
    write_exact (Transport.frame (enc_asd_request (PartialGet key [s]))) t = (Ret u, t') ->
    peer t' = peer t /\ greeted t' = true /\ get_answer (asd_value (peer t) key) s (pending t') }.

(** A connection nobody has written to yet. *)
Definition untouched `{AsdServer T} (t : T) : Prop := greeted t = false /\ pending t = [].
(** A connection between two calls: the ASD at the other end is [lid], all it has sent
    has been read, and the builder is empty. *)
Record in_step `{AsdServer T} (lid : bytes) (c : Asd_client T) : Prop := {
  is_peer : peer (_transport c) = lid;
  is_greeted : greeted (_transport c) = true;
  is_quiet : pending (_transport c) = [];
  is_builder : wf_builder (_mb c) /\ message_builder._pos (_mb c) = 4 }.

(** A world that connects to ASDs. *)
Class AsdWorld (T W : Type) `{AsdServer T} `{!World T W} := {
  make_untouched k ip port timeout w t w' :
    make_transport k ip port timeout w = (Ret t, w') -> untouched t }.

(** A slice of a value that can be asked for. *)
Record askable `{AsdServer T} (lid : bytes) (s : asd_slice) : Prop := {
  ask_offset : 0 <= as_offset s < 2 ^ 31;
  ask_length : 0 <= as_len s < 2 ^ 31;
  ask_key : len (as_key s) < 2 ^ 30 + 64;
  ask_inside : as_offset s + as_len s <= len (asd_value lid (as_key s)) }.
Definition asked `{AsdServer T} (lid : bytes) (s : asd_slice) : Z * bytes :=
  (as_target s, stretch (as_offset s) (as_len s) (asd_value lid (as_key s))).

(** ** Reading from a connection *)

Section connection.
Context `{AS : AsdServer T}.
Implicit Types (t : T) (c : Asd_client T).

(** Reading on leaves the two ends where they are. *)
Definition same_ends t t' : Prop := peer t' = peer t /\ greeted t' = greeted t.

Lemma read_message_takes t m t' resp rest :
  read_message t = (Ret m, t') -> pending t = Transport.frame resp ++ rest -> len resp < 2 ^ 31 ->
  m = message.make (message_buffer.fresh resp (len resp)) /\ same_ends t t' /\ pending t' = rest.
Proof.
  intros Hr Hp Hl. pose proof (len_nonneg resp) as Hn. unfold read_message in Hr.
  apply bind_ret_inv in Hr as (mb & t1 & Hr & [= <- <-]).
  unfold message_buffer.from_reader in Hr. apply bind_ret_inv in Hr as (sz & t2 & H1 & Hr).
  change (s32 4) with 4 in H1. apply read_takes in H1 as (Hp1 & Hg1 & Hs1 & Hd1); [|lia].
  rewrite Hd1 in Hp. unfold Transport.frame in Hp. rewrite <- app_assoc in Hp.
  apply app_inj_1 in Hp as [-> Hp]; [|rewrite length_le_split; unfold len in Hs1; lia].
  rewrite Hs1 in Hr. cbn [Z.eqb Pos.eqb] in Hr. rewrite ret_bind in Hr. cbv zeta in Hr.
  rewrite le_combine_split_small in Hr by (simpl; lia).
  apply bind_ret_inv in Hr as (d & t3 & H2 & [= <- <-]). rewrite s32_small in H2 by lia.
  apply read_takes in H2 as (Hp2 & Hg2 & Hs2 & Hd2); [|lia]. rewrite Hd2 in Hp.
  apply app_inj_1 in Hp as [-> <-]; [|unfold len in Hs2; lia].
  split; [done|]. split; [|done]. split; congruence.
Qed.

(** A request is sent as a frame, and the answer's frame is read. *)
Lemma send_receive_takes w req lid c m c' :
  appends w req -> len req < 2 ^ 31 - 4 -> in_step lid c -> send_receive w c = (Ret m, c') ->
  exists t u t', peer t = lid /\ greeted t = true /\ pending t = [] /\
    write_exact (Transport.frame req) t = (Ret u, t') /\
    wf_builder (_mb c') /\ message_builder._pos (_mb c') = 4 /\
    forall resp rest, pending t' = Transport.frame resp ++ rest -> len resp < 2 ^ 31 ->
      m = message.make (message_buffer.fresh resp (len resp)) /\ same_ends t' (_transport c') /\
      pending (_transport c') = rest.
Proof.
  intros Hw Hreq [Hp Hg Hq [Hwf Hpos]] Hr. unfold send_receive in Hr. rewrite gets_bind in Hr.
  apply bind_ret_inv in Hr as (u1 & c1 & H1 & Hr). apply zoom_ret_inv in H1 as (t1 & H1 & ->).
  apply expires_silent in H1 as (Hp1 & Hg1 & Hq1). unfold id in Hr.
  apply bind_ret_inv in Hr as (u2 & c2 & H2 & Hr). apply zoom_ret_inv in H2 as (b1 & H2 & ->).
  assert (message_builder._pos (_mb c) + len req < 2 ^ 31) as Hfit by (rewrite Hpos; lia).
  destruct (Hw (_mb c) Hwf Hfit) as (b & Hb & Hwf1 & _ & Hc1). cbn [_mb] in H2.
  rewrite Hb in H2. injection H2 as _ <-.
  assert (contents (_mb c) = []) as Hc0.
  { pose proof (len_contents _ Hwf) as Hlc. rewrite Hpos in Hlc. apply nil_length_inv.
    unfold len in Hlc. lia. }
  rewrite Hc0, app_nil_l in Hc1.
  apply bind_ret_inv in Hr as (u3 & c3 & H3 & Hr). apply zoom_ret_inv in H3 as ([t3 b3] & H3 & ->).
  cbn [_transport _mb] in H3. unfold output, message_builder.output_using in H3.
  rewrite modify_bind, gets_bind in H3. cbn [fst snd] in H3.
  destruct (framed_spec b Hwf1) as (Hwf3 & _ & _ & Hf).
  apply zoom_ret_inv in H3 as (t4 & H3 & [= -> ->]). cbn [fst] in H3. rewrite Hf, Hc1 in H3.
  apply bind_ret_inv in Hr as (u4 & c4 & H4 & Hr). apply zoom_ret_inv in H4 as (b5 & H4 & ->).
  destruct (reset_spec _ Hwf3) as (b6 & Hrs & Hwf5 & Hp5 & _). cbn [_mb fst snd] in H4. rewrite Hrs in H4.
  injection H4 as _ <-. apply zoom_ret_inv in Hr as (t7 & Hr & ->). cbn [_transport _mb fst snd] in *.
  exists t1, u3, t4. split_and!; try congruence; try done.
  intros resp rest Hres Hl. by apply (read_message_takes t4).
Qed.

Lemma read_slice_takes s c mm c' mm' :
  0 <= slice_length s < 2 ^ 31 -> read_slice s (c, mm) = (Ret tt, (c', mm')) ->
  exists bs, mm' = mem_write (target s) bs mm /\ len bs = slice_length s /\
    same_ends (_transport c) (_transport c') /\ _mb c' = _mb c /\
    pending (_transport c) = bs ++ pending (_transport c').
Proof.
  intros Hl Hr. unfold read_slice in Hr. rewrite s32_small in Hr by lia.
  apply bind_ret_inv in Hr as (bs & st & H1 & [= <- <-]). exists bs. cbn [fst snd].
  apply zoom_ret_inv in H1 as (c1 & H1 & ->). apply zoom_ret_inv in H1 as (t1 & H1 & ->). cbn [fst snd].
  apply read_takes in H1 as (Hp1 & Hg1 & Hs1 & Hd1); [|lia]. by split_and!.
Qed.

(** What [partial_get] does with the response. *)
Definition take_in (slices : list slice) (response : message.t) : M (Asd_client T * mem) unit :=
  r ← mout (fst (read_partial_get_response false response));
  on_client (set_status r.1) ;;
  on_client (check_status (str "partial_get")) ;;
  for_each read_slice slices ;;
  on_client (on_transport (expires_from_now duration_max)).

Lemma take_in_reads s response st ok c mm c' mm' :
  fst (read_partial_get_response false response) = Ret (st, ok) -> 0 <= slice_length s < 2 ^ 31 ->
  take_in [s] response (c, mm) = (Ret tt, (c', mm')) ->
  asd_rc st = 0 /\ exists bs, mm' = mem_write (target s) bs mm /\ len bs = slice_length s /\
    same_ends (_transport c) (_transport c') /\ _mb c' = _mb c /\
    pending (_transport c) = bs ++ pending (_transport c').
Proof.
  intros Hrd Hl Hr. unfold take_in in Hr. rewrite Hrd in Hr.
  apply bind_ret_inv in Hr as (r & st2 & [= <- <-] & Hr). cbn [fst snd] in Hr.
  apply bind_ret_inv in Hr as (u2 & st3 & H3 & Hr). apply zoom_ret_inv in H3 as (c3 & [= _ <-] & ->).
  apply bind_ret_inv in Hr as (u3 & st4 & H4 & Hr). apply zoom_ret_inv in H4 as (c4 & H4 & ->).
  cbn [fst snd] in *. unfold check_status in H4. rewrite gets_bind in H4. unfold id in H4. cbn [_status] in H4.
  unfold asd_is_ok, asd_return_code.OK in H4.
  destruct (Z.eqb_spec (asd_rc st) 0) as [Hz|]; [|discriminate H4]. split; [done|]. injection H4 as _ <-.
  apply bind_ret_inv in Hr as ([] & [c5 mm5] & H5 & Hr). cbn [for_each] in H5.
  apply bind_ret_inv in H5 as ([] & [c6 mm6] & H5 & [= <- <-]).
  apply read_slice_takes in H5 as (bs & -> & Hlb & [Hp Hg] & Hmb & Hpe); [|done]. cbn [_transport _mb] in *.
  apply zoom_ret_inv in Hr as (c7 & Hr & [= -> ->]). apply zoom_ret_inv in Hr as (t7 & Hr & ->).
  apply expires_silent in Hr as (Hp7 & Hg7 & Hq7). cbn [fst snd _transport _mb] in *.
  exists bs. split_and!; [done..| |done|congruence]. split; congruence.
Qed.

(** One request for one slice. *)
Lemma partial_get_takes lid s c mm c' mm' :
  in_step lid c -> askable lid s ->
  partial_get (as_key s) [Make_slice (as_offset s) (as_len s) (as_target s)] (c, mm) = (Ret tt, (c', mm')) ->
  in_step lid c' /\ mm' = mem_write (asked lid s).1 (asked lid s).2 mm.
Proof.
  intros Hc [Ho Hl Hk Hin] Hr. set (sl := Make_slice (as_offset s) (as_len s) (as_target s)) in *.
  assert (valid_slice sl) as Hv by (split; split; simpl; lia).
  assert (len (enc_asd_request (PartialGet (as_key s) [sl])) < 2 ^ 31 - 4) as Hreq.
  { unfold enc_asd_request, enc_slice, enc_string, enc_int, len in *.
    cbn [fmap list_fmap concat]. rewrite app_nil_r, !length_app, !length_le_split. lia. }
  apply bind_ret_inv in Hr as (m & st1 & H1 & Hr). apply zoom_ret_inv in H1 as (c1 & H1 & ->).
  cbn [fst snd] in *. destruct (send_receive_takes _ _ lid _ _ _
    (write_asd_request_appends (PartialGet (as_key s) [sl])) Hreq Hc H1)
    as (t & u & t' & <- & Hg & Hq & Hw & Hwf & Hpos & Hread).
  destruct (get_answered _ sl _ _ _ Hg Hq Hv Hin ltac:(lia) Hw) as (Hp' & Hg' & Hans).
  assert (forall resp rest st ok, pending t' = Transport.frame resp ++ rest -> len resp < 2 ^ 31 ->
    parses (read_partial_get_response false) resp (st, ok) ->
    asd_rc st = 0 /\ exists bs, mm' = mem_write (as_target s) bs mm /\ len bs = as_len s /\
      same_ends t' (_transport c') /\ _mb c' = _mb c1 /\ rest = bs ++ pending (_transport c')) as Hgo.
  { intros resp rest st ok Hpe Hle Hpar. destruct (Hread resp rest Hpe Hle) as (-> & [Hsp Hsg] & Hrest).
    destruct (message_make_spec resp Hle) as (Hwm & Hrem & _).
    apply (take_in_reads sl _ st ok) in Hr; [|by rewrite (Hpar _ [] Hwm ltac:(by rewrite app_nil_r))|done].
    destruct Hr as (Hz & bs & -> & Hlb & [Hp Hg2] & Hmb & Hpe'). split; [done|]. exists bs.
    split_and!; [done..| |done|congruence]. split; congruence. }
  assert (forall resp rest ok, pending t' = Transport.frame resp ++ rest -> len resp < 2 ^ 31 ->
    parses (read_partial_get_response false) resp (Make_AsdStatus 0, ok) ->
    (forall bs more, rest = bs ++ more -> len bs = as_len s -> bs = (asked (peer t) s).2 /\ more = []) ->
    in_step (peer t) c' /\ mm' = mem_write (asked (peer t) s).1 (asked (peer t) s).2 mm) as Hok.
  { intros resp rest ok Hpe Hle Hpar Hsp. destruct (Hgo _ _ _ _ Hpe Hle Hpar)
      as (_ & bs & -> & Hlb & [Hp Hg2] & Hmb & Hrest).
    destruct (Hsp _ _ Hrest Hlb) as [-> He]. split; [|done].
    split; [congruence..|]. rewrite Hmb. by split. }
  destruct Hans as [(rc & rest & Hrc & Hvrc & Hpe)|[Hpe|Hpe]].
  - by destruct (Hgo (enc_int 4 rc) rest _ _ Hpe ltac:(done) (read_partial_get_error false rc Hvrc Hrc)).
  - rewrite <- (app_nil_r (Transport.frame _)) in Hpe.
    apply (Hok _ [] _ Hpe ltac:(done) (read_partial_get_ok false false)).
    intros bs more [-> ->]%symmetry%app_nil Hlb. split; [|done]. unfold asked. cbn [fst snd].
    rewrite <- Hlb. done.
  - apply (Hok _ _ _ Hpe ltac:(done) (read_partial_get_ok false true)). intros bs more He Hlb.
    rewrite <- (app_nil_r (stretch _ _ _)) in He. apply app_inj_1 in He as [<- <-]; [done|].
    pose proof (len_stretch (as_offset s) (as_len s) (asd_value (peer t) (as_key s))) as Hst.
    cbn [slice_offset slice_length sl]. unfold len in *. lia.
Qed.

(** All the slices of one ASD. *)
Lemma get_slices_takes lid slices mm :
  Forall (askable lid) slices ->
  hoare (fun s : Asd_client T * mem => in_step lid s.1 /\ s.2 = mm) (get_slices slices)
    (fun _ s => in_step lid s.1 /\ s.2 = apply_writes (asked lid <$> slices) mm) any.
Proof.
  intros Hs. revert mm. induction Hs as [|s slices Hs _ IH]; intros mm.
  { by intros st. }
  unfold get_slices. cbn [for_each]. eapply hoare_bind; [|intros u; apply IH].
  intros [c m] [Hc Hm]. cbn [fst snd] in *. subst m.
  destruct (partial_get _ _ (c, mm)) as [[[]|e| |] [c' mm']] eqn:E; [|done..].
  by apply (partial_get_takes lid) in E.
Qed.

(** ** The handshake *)

Lemma read_u32_takes v rest c r c' :
  valid_int 32 v -> pending (_transport c) = enc_int 4 v ++ rest -> read_u32 c = (Ret r, c') ->
  r = v /\ same_ends (_transport c) (_transport c') /\ pending (_transport c') = rest /\
  _mb c' = _mb c.
Proof.
  intros Hv Hp Hr. unfold read_u32 in Hr. apply bind_ret_inv in Hr as (bs & c1 & H1 & Hr).
  apply zoom_ret_inv in H1 as (t1 & H1 & ->). apply read_takes in H1 as (Hp1 & Hg1 & Hs1 & Hd1); [|lia].
  rewrite Hs1 in Hr. cbn [Z.eqb Pos.eqb] in Hr. rewrite ret_bind in Hr. injection Hr as <- <-.
  rewrite Hd1 in Hp. apply app_inj_1 in Hp as [-> <-];
    [|unfold enc_int; rewrite length_le_split; unfold len in Hs1; lia].
  unfold enc_int. rewrite le_combine_split_small by (destruct Hv; simpl; lia). by split_and!.
Qed.

Lemma prologue_length lid : len lid < 2 ^ 30 -> len (enc_prologue (Some lid)) < 2 ^ 31 - 4.
Proof.
  intros Hl. unfold enc_prologue, enc_optional, enc_bool, enc_string, enc_int.
  rewrite !len_app, !len_le_split. change (len _MAGIC) with 4. change (len [Byte.x01]) with 1. lia.
Qed.

(** The client accepts no other ASD than the one it asked for. *)
Lemma init_takes lid c c' :
  untouched (_transport c) -> len lid < 2 ^ 30 -> wf_builder (_mb c) /\ message_builder._pos (_mb c) = 4 ->
  init_ (Some lid) c = (Ret tt, c') -> in_step lid c'.
Proof.
  intros [Hg Hq] Hl Hmb Hr. unfold init_ in Hr. rewrite gets_bind in Hr.
  apply bind_ret_inv in Hr as (u1 & c1 & H1 & Hr). apply zoom_ret_inv in H1 as (t1 & H1 & ->).
  apply expires_silent in H1 as (Hp1 & Hg1 & Hq1). unfold id in Hr. pose proof (len_nonneg lid) as Hn.
  rewrite prologue_spec in Hr by by apply prologue_length.
  apply bind_ret_inv in Hr as (p & c2 & [= <- <-] & Hr).
  apply bind_ret_inv in Hr as (u3 & c3 & H3 & Hr). apply zoom_ret_inv in H3 as (t3 & H3 & ->).
  cbn [_transport _mb AsdClient._timeout _status] in *.
  apply prologue_answered in H3 as (Hp3 & Hg3 & Hans); [|congruence..].
  apply bind_ret_inv in Hr as (rc & c4 & H4 & Hr).
  assert (exists v rest, valid_int 32 v /\ pending t3 = enc_int 4 v ++ rest /\
    (v = 0 -> len (peer t1) < 2 ^ 30 /\ rest = enc_string (peer t1))) as (v & rest & Hv & Hpe & Hrest).
  { destruct Hans as [(v & rest & Hne & Hv & ->)|[Hpl ->]]; do 2 eexists; split_and!; try done; split; done. }
  apply (read_u32_takes v rest) in H4 as (-> & [Hp4 Hg4] & Hq4 & Hm4); [|exact Hv|exact Hpe].
  apply bind_ret_inv in Hr as (u5 & c5 & H5 & Hr).
  destruct (Z.eqb_spec v 0) as [Hz|]; [|discriminate H5]. injection H5 as _ <-.
  destruct (Hrest Hz) as [Hpl ->]. apply bind_ret_inv in Hr as (n & c6 & H6 & Hr).
  pose proof (len_nonneg (peer t1)).
  apply (read_u32_takes (len (peer t1)) (peer t1)) in H6 as (-> & [Hp6 Hg6] & Hq6 & Hm6);
    [|split; lia|exact Hq4].
  apply bind_ret_inv in Hr as (bs & c7 & H7 & Hr). apply zoom_ret_inv in H7 as (t7 & H7 & ->).
  rewrite s32_small in H7 by lia. apply read_takes in H7 as (Hp7 & Hg7 & Hs7 & Hd7); [|lia].
  assert (peer t1 ++ [] = bs ++ pending t7) as He by (rewrite app_nil_r; congruence).
  apply app_inj_1 in He as [<- Hq7]; [|unfold len in *; lia]. cbv zeta in Hr.
  rewrite Z.sub_diag, app_nil_r in Hr. apply bind_ret_inv in Hr as (u8 & c8 & H8 & Hr).
  destruct (bool_decide_reflect (lid = peer t1)) as [->|]; [|discriminate H8]. injection H8 as _ <-.
  apply zoom_ret_inv in Hr as (t9 & H9 & ->). apply expires_silent in H9 as (Hp9 & Hg9 & Hq9).
  cbn [_transport _mb AsdClient._timeout _status] in *. split; simpl; [congruence..|]. by rewrite Hm6, Hm4.
Qed.
End connection.

(** ** A simulated ASD *)

(** [sim_patience] operations later the connection breaks. *)
Record simulated := Simulated {
  sim_id : bytes; sim_greeted : bool; sim_pending : bytes; sim_patience : nat }.

Section simulated.
Context (values : bytes -> bytes -> option bytes).

Definition sim_get (id key : bytes) (s : slice) : bytes :=
  match values id key with
  | Some v =>
      if slice_offset s + slice_length s <=? len v
      then answer (stretch (slice_offset s) (slice_length s) v)
      else Transport.frame (enc_int 4 asd_return_code.ASSERT_FAILED)
  | None => Transport.frame (enc_int 4 0 ++ enc_bool false)
  end.
(** What it sends back for a request. *)
Definition sim_respond (id req : bytes) : bytes :=
  match fst (decode_asd_request (message.make (message_buffer.fresh req (len req)))) with
  | Ret (PartialGet key [s]) => sim_get id key s
  | _ => Transport.frame (enc_int 4 asd_return_code.UNKNOWN_OPERATION)
  end.
Definition sim_write (bs : bytes) (t : simulated) : simulated :=
  let reply :=
    if sim_greeted t then sim_respond (sim_id t) (drop 4 bs)
    else if len (sim_id t) <? 2 ^ 30 then enc_int 4 0 ++ enc_string (sim_id t)
    else enc_int 4 asd_return_code.ASSERT_FAILED in
  Simulated (sim_id t) true (sim_pending t ++ reply) (sim_patience t).
Definition sim_operation {A} (m : M simulated A) : M simulated A := fun t =>
  match sim_patience t with
  | O => (Throw (ExnTransport (Transport_exception (str "timeout"))), t)
  | S n => m (Simulated (sim_id t) (sim_greeted t) (sim_pending t) n)
  end.
#[export] Instance simulated_transport : Transport simulated := {
  expires_from_now _ := mret tt;
  write_exact bs := sim_operation (modify (sim_write bs));
  read_exact n := sim_operation (fun t =>
    if (0 <=? n) && (n <=? len (sim_pending t)) then
      (Ret (take (Z.to_nat n) (sim_pending t)),
       Simulated (sim_id t) (sim_greeted t) (drop (Z.to_nat n) (sim_pending t)) (sim_patience t))
    else (Throw (ExnTransport (Transport_exception (str "timeout"))), t)) }.

Lemma sim_respond_answers id key s :
  valid_slice s -> slice_offset s + slice_length s <= len (default [] (values id key)) ->
  len (enc_asd_request (PartialGet key [s])) < 2 ^ 31 ->
  get_answer (default [] (values id key)) s (sim_respond id (enc_asd_request (PartialGet key [s]))).
Proof.
  intros Hs Hin Hl. destruct (message_make_spec _ Hl) as (Hwf & Hrem & _).
  assert (valid_asd_request (PartialGet key [s])) as Hv by (split; [by constructor|vm_compute; done]).
  unfold sim_respond. rewrite (decode_asd_request_parses _ Hv _ [] Hwf) by by rewrite app_nil_r.
  cbn [fst sent_asd fmap list_fmap]. unfold sim_get. cbn [slice_offset slice_length].
  destruct (values id key) as [v|]; [|right; by left].
  destruct (Z.leb_spec (slice_offset s + slice_length s) (len v)); [by right; right|].
  exfalso. simpl in Hin. unfold Datatypes.id in Hin. lia.
Qed.

#[export] Instance simulated_server : AsdServer simulated.
Proof.
  refine {| peer := sim_id; greeted := sim_greeted; pending := sim_pending;
            asd_value id key := default [] (values id key) |}.
  - by intros d t u t' [= <- <-].
  - intros n [id g p [|k]] bs t' Hn; cbn; [done|].
    destruct (_ && _) eqn:E; [|done]. intros [= <- <-]. cbn. split_and!; try done.
    + unfold len in *. rewrite length_take. lia.
    + by rewrite take_drop.
  - intros lid [id g p [|k]] u t' Hg Hp; cbn in *; [done|]. intros [= <- <-]. subst g p.
    cbn. split_and!; try done. destruct (Z.ltb_spec (len id) (2 ^ 30)) as [Hl|].
    + by right.
    + left. exists asd_return_code.ASSERT_FAILED, []. by rewrite app_nil_r.
  - intros key s [id g p [|k]] u t' Hg Hp Hs Hin Hl; cbn in *; [done|]. intros [= <- <-]. subst g p.
    cbn. split_and!; try done. by apply sim_respond_answers.
Defined.
End simulated.

(** ASDs to connect to, each with the patience of the connection. *)
Record sim_world := Sim_world { sim_clock : Z; sim_peers : list (bytes * nat) }.
#[export] Instance simulated_world : World simulated sim_world := {
  steady_now w := (sim_clock w, w);
  make_transport _ _ _ _ w :=
    match sim_peers w with
    | (id, n) :: ps => (Ret (Simulated id false [] n), Sim_world (sim_clock w) ps)
    | [] => (Throw (ExnTransport (Transport_exception (str "connect"))), w)
    end;
  close_transport _ w := w }.
#[export] Instance simulated_untouched values :
  AsdWorld simulated sim_world (H0 := simulated_server values).
Proof. split. intros k ip port timeout [c [|[id n] ps]] t w'; cbn; [done|]. by intros [= <- _]. Defined.
