(* ===== verification/TcpAsd.v ===== *)
(** * An ASD at the other end of a TCP connection

    The contract [AsdServer] is stated for a transport; here it is proved for the TCP
    transport ([TcpTransport]), from what the ASD does with the bytes that arrive on its
    socket: the class [AsdSocket] speaks of single events of Asio.  Whatever happens
    while an operation is pending (the deadline timer's handler runs, the socket is
    closed), an operation that succeeds has had exactly its effect.  [asd_box] is a
    socket with a simulated ASD behind it. *)

From S2P Require Import Prelude Hoare Llio AlbaCommon ProxyProtocol Transport TcpTransport AsdProtocol AsdClient OsdAccess RoraLocation TransportHelper AsdServer.

Local Open Scope Z_scope.
Local Open Scope alba_scope.

(** ** The last event of an operation *)

Section last_event.
Context {E : Type} `{Asio E} {X : Type} (view : E -> X).
Context (view_set : forall d e, view (set_expires_at d e) = view e).
Context (view_now : forall e, view (snd (timer_now e)) = view e).
Context (view_wait : forall e, view (async_wait e) = view e).
Context (view_close : forall e, view (socket_close e) = view e).
Context (view_idle : forall e, match run_one e with (EvHandler ec _ _, _) => ec <> would_block | (_, e') => view e' = view e end).
Implicit Types t : TCP_transport E.

Lemma timer_view t : exists t', timer_expires_from_now t = (Ret tt, t') /\ view (io t') = view (io t).
Proof using view_set view_now.
  unfold timer_expires_from_now, call_io. rewrite gets_bind. unfold id, mbind, M_bind.
  pose proof (view_now (io t)) as Hn. destruct (timer_now (io t)) as [n e].
  eexists. split; [reflexivity|]. simpl. by rewrite view_set.
Qed.

Lemma check_deadline_view t : exists t', _check_deadline t = (Ret tt, t') /\ view (io t') = view (io t).
Proof using view_set view_now view_wait view_close.
  unfold _check_deadline, call_io, gets, id, mbind, M_bind.
  pose proof (view_now (io t)) as Hn. destruct (timer_now (io t)) as [n e]; simpl in *.
  destruct (match timer_expires_at e with Some d => d <=? n | None => false end);
    (eexists; split; [reflexivity|]); simpl; by rewrite view_wait, ?view_set, ?view_close.
Qed.

(** The loop returns success only from the operation's own handler, with all the bytes. *)
Lemma wait_last n l data t d t' : wait_io n l would_block data t = (Ret (0, d), t') ->
  exists e1 len2, view e1 = view (io t) /\ run_one e1 = (EvHandler 0 len2 d, io t') /\ l <= len2.
Proof using view_set view_now view_wait view_close view_idle.
  revert data t. induction n as [|n IH]; intros data t; [done|]. simpl.
  pose proof (view_idle (io t)) as Hi. unfold call_io at 1, mbind at 1, M_bind at 1.
  destruct (run_one (io t)) as [[ec len2 d'| |] e'] eqn:Ee; cbn iota beta.
  - unfold mbind at 1, M_bind at 1. unfold mret at 1, M_ret at 1.
    destruct (Z.eqb_spec ec 0) as [->|Hec]; simpl.
    + destruct (Z.ltb_spec len2 l); simpl; [done|]. intros [= <- <-]. by exists (io t), len2.
    + rewrite (proj2 (Z.eqb_neq ec would_block) Hi). by intros [= -> _ _].
  - destruct (check_deadline_view (Make_TCP (TcpTransport._timeout t) e')) as (t2 & Hc & Hv).
    rewrite (bind_ret_eq (_check_deadline ;; _) _ _ (would_block, data) t2).
    2: { by rewrite (bind_ret_eq _ _ _ _ _ Hc). }
    simpl in *. intros Hw. destruct (IH _ _ Hw) as (e1 & len2 & Hv1 & Hr & Hl). exists e1, len2. by rewrite Hv1, Hv.
  - intros Hw. destruct (IH _ _ Hw) as (e1 & len2 & Hv1 & Hr & Hl). exists e1, len2. by rewrite Hv1.
Qed.
End last_event.

(** ** What the ASD does *)

(** The ASD's id, whether it has been greeted, and what it has sent that nobody has read;
    [sk_reading] and [sk_writing] are the pending operation. *)
Class AsdSocket (E : Type) `{Asio E} := {
  sk_peer : E -> bytes;
  sk_greeted : E -> bool;
  sk_pending : E -> bytes;
  sk_reading : E -> option Z;
  sk_writing : E -> option bytes;
  sk_value : bytes -> bytes -> bytes;
  sk_ends e := (sk_peer e, sk_greeted e, sk_pending e);
  sk_view e := (sk_ends e, sk_reading e, sk_writing e);
  sk_set d e : sk_view (set_expires_at d e) = sk_view e;
  sk_now e : sk_view (snd (timer_now e)) = sk_view e;
  sk_wait e : sk_view (async_wait e) = sk_view e;
  sk_close e : sk_view (socket_close e) = sk_view e;
  sk_idle e : match run_one e with (EvHandler ec _ _, _) => ec <> would_block | (_, e') => sk_view e' = sk_view e end;
  read_started n e : sk_reading (async_read n e) = Some n /\ sk_ends (async_read n e) = sk_ends e;
  write_started bs e : sk_writing (async_write bs e) = Some bs /\ sk_ends (async_write bs e) = sk_ends e;
  read_done n e len2 data e' : 0 <= n -> sk_reading e = Some n -> run_one e = (EvHandler 0 len2 data, e') ->
    len data = len2 /\ len2 <= n /\ sk_peer e' = sk_peer e /\ sk_greeted e' = sk_greeted e /\
    sk_pending e = data ++ sk_pending e';
  prologue_done long_id e len2 d e' : sk_writing e = Some (enc_prologue long_id) ->
    sk_greeted e = false -> sk_pending e = [] -> run_one e = (EvHandler 0 len2 d, e') ->
    len (enc_prologue long_id) <= len2 ->
    sk_peer e' = sk_peer e /\ sk_greeted e' = true /\ prologue_answer (sk_peer e) (sk_pending e');
  get_done key s e len2 d e' : sk_writing e = Some (Transport.frame (enc_asd_request (PartialGet key [s]))) ->
    sk_greeted e = true -> sk_pending e = [] -> valid_slice s ->
    slice_offset s + slice_length s <= len (sk_value (sk_peer e) key) ->
    len (enc_asd_request (PartialGet key [s])) < 2 ^ 31 -> run_one e = (EvHandler 0 len2 d, e') ->
    len (Transport.frame (enc_asd_request (PartialGet key [s]))) <= len2 ->
    sk_peer e' = sk_peer e /\ sk_greeted e' = true /\ get_answer (sk_value (sk_peer e) key) s (sk_pending e') }.

(** ** The contract *)

Section contract.
Context {E : Type} `{AsdSocket E} (fuel : nat).
Implicit Types t : TCP_transport E.

Lemma sk_view_eq e e' : sk_view e' = sk_view e ->
  sk_peer e' = sk_peer e /\ sk_greeted e' = sk_greeted e /\ sk_pending e' = sk_pending e /\
  sk_reading e' = sk_reading e /\ sk_writing e' = sk_writing e.
Proof. unfold sk_view, sk_ends. by intros [= -> -> -> -> ->]. Qed.
Lemma sk_ends_eq e e' : sk_ends e' = sk_ends e ->
  sk_peer e' = sk_peer e /\ sk_greeted e' = sk_greeted e /\ sk_pending e' = sk_pending e.
Proof. unfold sk_ends. by intros [= -> -> ->]. Qed.

(** A successful operation is its start, then its last event. *)
Lemma read_last n t d t' : tcp_read_exact fuel n t = (Ret d, t') ->
  exists e len2, sk_ends e = sk_ends (io t) /\ sk_reading e = Some n /\
    run_one e = (EvHandler 0 len2 d, io t') /\ n <= len2.
Proof.
  destruct (timer_view sk_view sk_set sk_now t) as (t1 & Ht & Hv). unfold tcp_read_exact.
  rewrite (bind_ret_eq _ _ _ _ _ Ht). unfold do_io. rewrite modify_bind. unfold mbind, M_bind.
  destruct (read_started n (io t1)) as [Hr He].
  destruct (wait_io _ _ _ _ _) as [[[ec d']| | |] t2] eqn:Ew; try done. simpl.
  destruct (Z.eqb_spec ec 0) as [->|Hec]; simpl; [|done]. intros [= -> ->].
  destruct (wait_last sk_view sk_set sk_now sk_wait sk_close sk_idle _ _ _ _ _ _ Ew) as (e & len2 & Hv2 & Hrun & Hl).
  exists e, len2. cbn [io] in Hv2.
  split; [exact (eq_trans (f_equal (fun p => p.1.1) Hv2) (eq_trans He (f_equal (fun p => p.1.1) Hv)))|].
  split; [exact (eq_trans (f_equal (fun p => p.1.2) Hv2) Hr)|]. by split.
Qed.

Lemma write_last bs t u t' : tcp_write_exact fuel bs t = (Ret u, t') ->
  exists e len2 d, sk_ends e = sk_ends (io t) /\ sk_writing e = Some bs /\
    run_one e = (EvHandler 0 len2 d, io t') /\ len bs <= len2.
Proof.
  destruct (timer_view sk_view sk_set sk_now t) as (t1 & Ht & Hv). unfold tcp_write_exact.
  rewrite (bind_ret_eq _ _ _ _ _ Ht). unfold do_io. rewrite modify_bind. unfold mbind, M_bind.
  destruct (write_started bs (io t1)) as [Hr He].
  destruct (wait_io _ _ _ _ _) as [[[ec d']| | |] t2] eqn:Ew; try done. simpl.
  destruct (Z.eqb_spec ec 0) as [->|Hec]; simpl; [|done]. intros [= _ ->].
  destruct (wait_last sk_view sk_set sk_now sk_wait sk_close sk_idle _ _ _ _ _ _ Ew) as (e & len2 & Hv2 & Hrun & Hl).
  exists e, len2, d'. cbn [io] in Hv2.
  split; [exact (eq_trans (f_equal (fun p => p.1.1) Hv2) (eq_trans He (f_equal (fun p => p.1.1) Hv)))|].
  split; [exact (eq_trans (f_equal snd Hv2) Hr)|]. by split.
Qed.

Definition tcp_server : AsdServer (H := tcp_Transport fuel) (TCP_transport E).
Proof.
  refine {| peer t := sk_peer (io t); greeted t := sk_greeted (io t); pending t := sk_pending (io t);
            asd_value := sk_value |}.
  - by intros d t u t' [= <- <-].
  - intros n t bs t' Hn Hr. destruct (read_last n t bs t' Hr) as (e & len2 & He & Hrd & Hrun & Hl).
    destruct (read_done n e len2 bs (io t') Hn Hrd Hrun) as (Hlen & Hle & Hp & Hg & Hpe).
    apply sk_ends_eq in He as (H1 & H2 & H3). split_and!; [congruence|congruence|lia|congruence].
  - intros lid t u t' Hg Hp Hw. destruct (write_last _ t u t' Hw) as (e & len2 & d & He & Hwr & Hrun & Hl).
    apply sk_ends_eq in He as (H1 & H2 & H3).
    destruct (prologue_done lid e len2 d (io t') Hwr) as (Hp' & Hg' & Ha); [congruence|congruence|done|done|].
    split_and!; congruence.
  - intros key s t u t' Hg Hp Hs Hin Hlen Hw. destruct (write_last _ t u t' Hw) as (e & len2 & d & He & Hwr & Hrun & Hl).
    apply sk_ends_eq in He as (H1 & H2 & H3).
    destruct (get_done key s e len2 d (io t') Hwr) as (Hp' & Hg' & Ha); try congruence; try done.
    split_and!; congruence.
Defined.
End contract.

(** ** A socket with a simulated ASD behind it *)

(** Every operation takes two events: the deadline timer's handler, then its own. *)
Record asd_box := Box {
  bx_timer : option Z; bx_read : option Z; bx_write : option bytes; bx_timer_fires : bool; bx_asd : simulated }.

Section box.
Context (values : bytes -> bytes -> option bytes).

(** One operation less before the connection breaks. *)
Definition box_step (f : simulated -> (Z * bytes) * simulated) (e : asd_box) : event * asd_box :=
  match sim_patience (bx_asd e) with
  | O => (EvHandler operation_aborted 0 [], e)
  | S n =>
      let a := bx_asd e in
      let '(ld, a') := f (Simulated (sim_id a) (sim_greeted a) (sim_pending a) n) in
      (EvHandler 0 ld.1 ld.2, Box (bx_timer e) None None false a')
  end.
Definition box_read (n : Z) (a : simulated) : (Z * bytes) * simulated :=
  let d := take (Z.to_nat n) (sim_pending a) in
  ((len d, d), Simulated (sim_id a) (sim_greeted a) (drop (Z.to_nat n) (sim_pending a)) (sim_patience a)).
Definition box_run (e : asd_box) : event * asd_box :=
  if bx_timer_fires e then (EvTimer, Box (bx_timer e) (bx_read e) (bx_write e) false (bx_asd e))
  else
    match bx_read e, bx_write e with
    | Some n, None => box_step (box_read n) e
    | None, Some bs => box_step (fun a => ((len bs, []), sim_write values bs a)) e
    | None, None => (EvHandler 0 0 [], e)
    | _, _ => (EvHandler operation_aborted 0 [], e)
    end.
#[export] Instance box_asio : Asio asd_box := {
  timer_expires_at := bx_timer;
  set_expires_at d e := Box d (bx_read e) (bx_write e) (bx_timer_fires e) (bx_asd e);
  timer_now e := (0, e);
  async_wait e := e;
  socket_close e := e;
  socket_is_open _ := true;
  set_no_delay e := e;
  async_connect _ _ e := e;
  async_write bs e := Box (bx_timer e) None (Some bs) true (bx_asd e);
  async_read n e := Box (bx_timer e) (Some n) None true (bx_asd e);
  run_one := box_run;
  stoi _ := Some 0;
  address_from_string _ := true;
  error_what _ := str "timeout" }.

Lemma box_step_inv f e len2 d e' : box_step f e = (EvHandler 0 len2 d, e') ->
  exists n a, sim_patience (bx_asd e) = S n /\
    f (Simulated (sim_id (bx_asd e)) (sim_greeted (bx_asd e)) (sim_pending (bx_asd e)) n) = ((len2, d), a) /\
    bx_asd e' = a.
Proof.
  unfold box_step. destruct (sim_patience (bx_asd e)) as [|n]; [done|].
  destruct (f _) as [[l' d'] a] eqn:Ef. intros [= <- <- <-]. by exists n, a.
Qed.

Lemma box_run_write e bs len2 d e' : bx_write e = Some bs -> box_run e = (EvHandler 0 len2 d, e') ->
  exists n, sim_patience (bx_asd e) = S n /\
  bx_asd e' = sim_write values bs (Simulated (sim_id (bx_asd e)) (sim_greeted (bx_asd e)) (sim_pending (bx_asd e)) n).
Proof.
  intros Hw. unfold box_run. destruct (bx_timer_fires e); [done|]. rewrite Hw.
  destruct (bx_read e); [done|]. intros (n & a & Hp & Hf & Ha)%box_step_inv. exists n. split; [done|].
  rewrite Ha. by injection Hf as _ _ <-.
Qed.

Lemma box_run_cases e :
  (exists ec l d e', box_run e = (EvHandler ec l d, e') /\ ec <> would_block) \/
  box_run e = (EvTimer, Box (bx_timer e) (bx_read e) (bx_write e) false (bx_asd e)).
Proof.
  destruct e as [tm r w [] a]; [by right|left]. unfold box_run, box_step. cbn [bx_timer_fires bx_read bx_write bx_asd].
  destruct r as [n|], w as [bs|]; try (destruct (sim_patience a) as [|k]); cbn; by do 4 eexists.
Qed.

#[export] Instance box_socket : AsdSocket asd_box.
Proof.
  refine {| sk_peer e := sim_id (bx_asd e); sk_greeted e := sim_greeted (bx_asd e);
            sk_pending e := sim_pending (bx_asd e); sk_reading := bx_read; sk_writing := bx_write;
            sk_value id key := default [] (values id key) |}; try done.
  - intros e. cbn [run_one box_asio]. destruct (box_run_cases e) as [(ec & l & d & e' & -> & Hec)| ->]; done.
  - intros n [tm r w [] a] len2 data e' Hn Hr; [done|]. cbn in *. subst r. unfold box_run. cbn [bx_timer_fires bx_read bx_write].
    destruct w; [done|]. intros (k & a' & Hp & Hf & Ha)%box_step_inv. rewrite Ha. injection Hf as <- <- <-. cbn.
    split; [done|]. split; [|by rewrite take_drop].
    unfold len. rewrite length_take. lia.
  - intros lid e len2 d e' Hw Hg Hp Hrun _. destruct (box_run_write e _ _ _ _ Hw Hrun) as (n & _ & Ha).
    rewrite Ha. unfold sim_write. cbn [sim_id sim_greeted sim_pending]. rewrite Hg, Hp. cbn [app].
    split; [done|]. split; [done|]. cbn. destruct (Z.ltb_spec (len (sim_id (bx_asd e))) (2 ^ 30)).
    + by right.
    + left. exists asd_return_code.ASSERT_FAILED, []. by rewrite app_nil_r.
  - intros key s e len2 d e' Hw Hg Hp Hs Hin Hl Hrun _. destruct (box_run_write e _ _ _ _ Hw Hrun) as (n & _ & Ha).
    rewrite Ha. unfold sim_write. cbn [sim_id sim_greeted sim_pending]. rewrite Hg, Hp. cbn.
    split; [done|]. split; [done|]. by apply sim_respond_answers.
Defined.

(** The ASD and the pending operation. *)
Definition box_view (e : asd_box) : simulated * option Z * option bytes := (bx_asd e, bx_read e, bx_write e).
Lemma box_view_set d e : box_view (set_expires_at d e) = box_view e.
Proof. done. Qed.
Lemma box_view_now e : box_view (snd (timer_now e)) = box_view e.
Proof. done. Qed.
Lemma box_view_idle e :
  match run_one e with (EvHandler ec _ _, _) => ec <> would_block | (_, e') => box_view e' = box_view e end.
Proof. cbn [run_one box_asio]. destruct (box_run_cases e) as [(ec & l & d & e' & -> & Hec)| ->]; done. Qed.

(** Connecting leaves the ASD alone. *)
Lemma box_connected fuel ip port t u t' : bx_read (io t) = None -> bx_write (io t) = None ->
  connect fuel ip port t = (Ret u, t') -> bx_asd (io t') = bx_asd (io t).
Proof.
  intros Hr Hw.
  destruct (timer_view box_view box_view_set box_view_now t) as (t1 & Ht & Hv1).
  destruct (check_deadline_view box_view box_view_set box_view_now box_view_now box_view_now t1) as (t2 & Hc & Hv2).
  unfold connect. rewrite (bind_ret_eq _ _ _ _ _ Ht), (bind_ret_eq _ _ _ _ _ Hc).
  cbn [stoi address_from_string box_asio]. unfold do_io. rewrite !ret_bind, modify_bind.
  intros ([ec d] & t4 & Hrun & Hrest)%bind_ret_inv. cbn [fst] in Hrest. rewrite gets_bind in Hrest.
  destruct (Z.eqb_spec ec 0) as [->|Hec]; [|cbn in Hrest; discriminate Hrest].
  destruct (wait_last box_view box_view_set box_view_now box_view_now box_view_now box_view_idle _ _ _ _ _ _ Hrun)
    as (e & len2 & Hv3 & He & _).
  injection Hrest as _ <-. cbn [io]. change (bx_asd (io t4) = bx_asd (io t)).
  assert (box_view e = box_view (io t)) as Hv by (etransitivity; [exact Hv3|]; etransitivity; [exact Hv2|exact Hv1]).
  unfold box_view in Hv. injection Hv as Ha Hr' Hw'. rewrite <- Ha. cbn in He. unfold box_run in He.
  destruct (bx_timer_fires e); [done|]. rewrite Hr', Hr, Hw', Hw in He. by injection He as _ _ <-.
Qed.
End box.

(** ASDs to connect to over TCP, each with the patience of the connection. *)
Section box_world.
Context (values : bytes -> bytes -> option bytes).
#[export] Instance box_world : World (TCP_transport asd_box) sim_world := {
  steady_now w := (sim_clock w, w);
  make_transport _ ip port timeout w :=
    match sim_peers w with
    | (id, n) :: ps =>
        let '(o, _) := make_TCP (H := box_asio values) 3 ip port timeout
                         (Box None None None true (Simulated id false [] n)) in
        (o, Sim_world (sim_clock w) ps)
    | [] => (Throw (ExnTransport (Transport_exception (str "connect"))), w)
    end;
  close_transport _ w := w }.
#[export] Instance box_untouched :
  AsdWorld (TCP_transport asd_box) sim_world (H0 := tcp_server (H := box_asio values) 3).
Proof.
  split. intros k ip port timeout [c [|[id n] ps]] t w'; [done|].
  cbn [make_transport box_world sim_peers]. unfold make_TCP.
  destruct (connect (H := box_asio values) 3 ip port _) as [[u|x| |] t2] eqn:Ec; try done. intros [= <- _].
  apply box_connected in Ec; [|done..]. unfold untouched. cbn. rewrite Ec. by split.
Defined.
End box_world.
