(* ===== verification/TrustedAccess.v ===== *)
(** * What the OSD access knows of what it has read

    Over connections to ASDs that keep the contract [AsdServer], but break as they like:
    the pools of idle connections hold only connections that are in step with the ASD
    they are kept for ([sound_pool]), what is known of the OSDs is what the proxy says
    ([true_maps]), and when [read_osds_slices] returns 0 the memory holds what the ASDs
    hold.  On every other way out the invariant [sound_access] is kept all the same. *)

From S2P Require Import Prelude Hoare Llio Stuff AlbaCommon OsdInfo ProxyProtocol Writes.
From S2P Require Import Transport TransportHelper AsdProtocol AsdClient ConnectionPool OsdAccess.
From S2P Require Import RoraLocation ProxyClient RoraClient FastPath AsdServer.

Local Open Scope Z_scope.
Local Open Scope alba_scope.

(** ** The pools *)

Record sound_pool `{AsdServer T} (lid : bytes) (p : ConnectionPool T) : Prop := {
  sp_free : ConnectionPool._mutex p = false;
  sp_config : long_id (config_ p) = lid;
  sp_id : len lid < 2 ^ 30;
  sp_clients : Forall (in_step lid) (connections_ p) }.

Section pools.
Context {T W : Type} `{AS : AsdServer T} {WW : World T W} {AW : AsdWorld T W} (lid : bytes).
Abbreviation pool_sound := (fun s : ConnectionPool T * W => sound_pool lid s.1).

Lemma in_world_sound {A} (m : W -> outcome A * W) : maintains pool_sound any (in_world m).
Proof. by apply maintains_apart. Qed.

Lemma report_failure_sound : maintains pool_sound any report_failure.
Proof.
  intros [p w] [Hm Hi Hl Hc]. unfold report_failure, ConnectionPool.steady_clock_now, in_world, zoom.
  unfold mbind, M_bind. cbn [fst snd] in *. destruct (steady_now w) as [n w']. cbn [gets fst].
  destruct (_ =? _); [by split|]. split; [by split|done].
Qed.

Lemma get_section_sound :
  maintains pool_sound (fun r => forall c, r = Some (Some c) -> in_step lid c) get_section.
Proof.
  intros [p w] [Hm Hi Hl Hc]. rewrite get_section_spec by done. cbn [fst] in *.
  destruct (backing_off p w); [by split|]. split.
  - split; cbn [fst with_connections]; simpl; try done. by apply Forall_tail.
  - intros c [= Hh]. rewrite Forall_forall in Hc. apply Hc. by apply head_Some_elem_of.
Qed.

Lemma make_one_sound : maintains pool_sound (in_step lid) make_one_.
Proof.
  unfold make_one_. eapply (maintains_bind_post _ (sound_pool lid)); [by apply maintains_gets|].
  intros p [_ Hi Hl _]. destruct (ips (config_ p)) as [|ip ips]; [by apply maintains_mout|].
  eapply (maintains_bind_post _ untouched).
  - intros [q w] Hq. unfold in_world, zoom. cbn [fst snd].
    destruct (make_transport _ _ _ _ w) as [[t|e| |] w'] eqn:E; try done.
    split; [done|]. by eapply make_untouched.
  - intros t Ht [q w] Hq. unfold in_world, zoom, new_client, make_Asd_client. cbn [snd]. rewrite Hi.
    destruct (init_ (Some lid) _) as [[[]|e| |] c] eqn:E; try done. split; [done|].
    apply (init_takes lid) in E; [done|done|done|]. split; [exact wf_make|done].
Qed.

Lemma get_connection_sound :
  maintains pool_sound (fun r => forall c, r = Some c -> in_step lid c) get_connection.
Proof.
  unfold get_connection. eapply maintains_bind_post; [apply get_section_sound|].
  intros [[c|]|] Hr.
  - apply maintains_ret. intros ? [= <-]. by apply Hr.
  - apply maintains_try.
    + eapply maintains_bind_post; [apply make_one_sound|]. intros c Hc. apply maintains_ret. by intros ? [= <-].
    + intros e. destruct (is_std_exception e); [by apply maintains_ret|apply maintains_throw].
  - by apply maintains_ret.
Qed.

Lemma release_connection_sound c : in_step lid c -> maintains pool_sound any (release_connection (Some c)).
Proof.
  intros Hc. unfold release_connection. apply maintains_bind.
  - intros [p w] [Hm Hi Hl Hcs]. rewrite release_section_spec by done. split; [|done].
    split; simpl; [done..|]. destruct (_ <? _); [by constructor|done].
  - intros taken. destruct taken; [by apply maintains_ret|apply in_world_sound].
Qed.
End pools.

(** ** The access *)

(** What the proxy tells about the levels and about the OSDs of the last one. *)
Definition true_maps (levels : list alba_id_t) (lid : osd_t -> bytes) (maps : osd_maps_t) : Prop :=
  fst <$> maps = levels /\
  forall id m osd ic, last maps = Some (id, m) -> m !! osd = Some ic ->
    long_id ic.1 = lid osd /\ len (lid osd) < 2 ^ 30.

Record sound_access `{AsdServer T} (levels : list alba_id_t) (lid : osd_t -> bytes)
    (a : OsdAccess T) : Prop := {
  sa_maps_free : _osd_maps_mutex a = false;
  sa_filling_free : _filling_mutex a = false;
  sa_pools_free : pools_mutex (asd_connection_pools a) = false;
  sa_known : _alba_levels a = [] /\ _osd_maps a = [] \/
             _alba_levels a = levels /\ true_maps levels lid (_osd_maps a);
  sa_pools : map_Forall sound_pool (connection_pools_ (asd_connection_pools a)) }.

Section access.
Context {T W : Type} `{AS : AsdServer T} {WW : World T W} {AW : AsdWorld T W}.
Context (levels : list alba_id_t) (lid : osd_t -> bytes).
Abbreviation sound := (fun s : OsdAccess T * W * mem => sound_access levels lid s.1.1).
Abbreviation sound_mem mm := (fun s : OsdAccess T * W * mem => sound_access levels lid s.1.1 /\ s.2 = mm).
Abbreviation disk := (fun osd key => asd_value (lid osd) key).

Lemma sound_set_pools a key p :
  sound_access levels lid a -> sound_pool key p ->
  sound_access levels lid (set_pools (Make_ConnectionPools (pools_mutex (asd_connection_pools a))
    (<[key := p]> (connection_pools_ (asd_connection_pools a)))) a).
Proof. intros [] Hp. split; simpl; try done. by apply map_Forall_insert_2. Qed.

Lemma on_pool_sound {A} key mm (m : M (ConnectionPool T * W) A) Q :
  maintains (fun s => sound_pool key s.1) Q m -> maintains (sound_mem mm) Q (on_pool key m).
Proof.
  intros Hm [[o w] mm'] [Ho Hv]. unfold on_pool. cbn [fst snd] in *.
  destruct (connection_pools_ (asd_connection_pools o) !! key) as [p|] eqn:E; [|done].
  specialize (Hm (p, w) (sa_pools _ _ _ Ho key p E)).
  destruct (m (p, w)) as [[x|e| |] [p' w']]; cbn [fst snd] in *.
  - split; [|apply Hm]. split; [apply sound_set_pools; [done|apply Hm]|done].
  - split; [by apply sound_set_pools|done].
  - split; [by apply sound_set_pools|done].
  - split; [by apply sound_set_pools|done].
Qed.

(** What is known of an OSD is true. *)
Lemma find_osd_sound osd mm :
  maintains (sound_mem mm) (fun r => forall ic, r = Some ic -> long_id ic.1 = lid osd /\ len (lid osd) < 2 ^ 30)
    (on_access (_find_osd osd)).
Proof.
  apply (maintains_zoom _ (sound_access levels lid)); [|by intros s []|by intros s o [_ Hv]].
  unfold _find_osd. apply maintains_lock; [by intros o []|by intros o []|].
  eapply (maintains_bind_post _ (fun m => forall ic, m !! osd = Some ic -> long_id ic.1 = lid osd /\ len (lid osd) < 2 ^ 30)).
  2: { intros m Hm. by apply maintains_ret. }
  intros o Ho. unfold last_map. rewrite gets_bind. destruct (last (_osd_maps o)) as [[id m]|] eqn:E; [|done].
  split; [done|]. cbn [snd]. intros ic Hic.
  destruct (sa_known _ _ _ Ho) as [[_ Hn]|[_ [_ Ht]]]; [|by eapply Ht].
  cbn [set_maps_mutex _osd_maps] in Hn. by rewrite Hn in E.
Qed.

Lemma get_pool_sound info size timeout mm : len (long_id info) < 2 ^ 30 ->
  maintains (sound_mem mm) (fun r => forall key, r = Some key -> key = long_id info)
    (on_pools (get_connection_pool info size timeout)).
Proof.
  intros Hl [[o w] mm'] [Ho Hv]. unfold on_pools, on_access, zoom, get_connection_pool. cbn [fst snd] in *.
  destruct (negb (kind_asd info)); [by destruct o|]. unfold lock_guard. rewrite (sa_pools_free _ _ _ Ho).
  unfold mbind, M_bind. cbn [gets id connection_pools_].
  destruct (connection_pools_ _ !! _) as [p|] eqn:E; cbn; (split; [|by intros ? [= <-]]); (split; [|done]).
  - destruct Ho. by split.
  - destruct Ho. split; simpl; try done. apply map_Forall_insert_2; [|done]. by split.
Qed.

Definition requests (osd : osd_t) (slices : list asd_slice) : list write := asked (lid osd) <$> slices.

Lemma use_connection_sound osd c slices mm : in_step (lid osd) c -> Forall (askable (lid osd)) slices ->
  hoare (sound_mem mm) (use_connection (lid osd) c slices)
    (fun rc s => sound s /\ (rc = 0 -> s.2 = apply_writes (requests osd slices) mm)) sound.
Proof.
  intros Hc Hs [[o w] m0] [Ho Hm0]. unfold use_connection. cbn [fst snd] in *. subst m0.
  pose proof (get_slices_takes (lid osd) slices mm Hs (c, mm) (conj Hc eq_refl)) as Hg.
  assert (forall A m' (m : M (ConnectionPool T * W) A) rc r, maintains (fun s => sound_pool (lid osd) s.1) any m ->
    (rc = 0 -> m' = apply_writes (requests osd slices) mm) ->
    match (on_pool (lid osd) m ;; match r with None => mret rc | Some e => mthrow e end) (o, w, m') with
    | (Ret rc, s') => sound s' /\ (rc = 0 -> s'.2 = apply_writes (requests osd slices) mm)
    | (_, s') => sound s'
    end) as Hend.
  { intros A m' m rc r Hm Hrc. pose proof (on_pool_sound (lid osd) m' m any Hm (o, w, m') (conj Ho eq_refl)) as Hp.
    unfold mbind, M_bind. destruct (on_pool (lid osd) m (o, w, m')) as [[x|e| |] s']; try apply Hp.
    destruct Hp as [[Hp1 Hp2] _]. destruct r; [done|]. split; [done|]. intros Hz. rewrite Hp2. by apply Hrc. }
  destruct (get_slices slices (c, mm)) as [[[]|e| |] [c' mm']]; cbn [fst snd] in Hg |- *; try done.
  - destruct Hg as [Hc' ->]. apply (Hend _ _ _ 0 None); [|done]. by apply release_connection_sound.
  - destruct (is_std_exception e).
    + apply (Hend _ _ _ (-1) None); [|done]. apply maintains_bind; [apply report_failure_sound|].
      intros _. apply in_world_sound.
    + apply (Hend _ _ _ (-1) (Some e)); [|done]. apply in_world_sound.
Qed.

Lemma direct_path_sound osd slices mm : Forall (askable (lid osd)) slices ->
  hoare (sound_mem mm) (_read_osd_slices_asd_direct_path osd slices)
    (fun rc s => sound s /\ (rc = 0 -> s.2 = apply_writes (requests osd slices) mm)) sound.
Proof.
  intros Hs. assert (forall rc, rc <> 0 -> hoare (sound_mem mm) (mret rc : M (OsdAccess T * W * mem) Z)
    (fun rc s => sound s /\ (rc = 0 -> s.2 = apply_writes (requests osd slices) mm)) sound) as Hfail.
  { intros rc Hrc s [Ho _]. by split. }
  assert (forall A (m : M (OsdAccess T * W * mem) A) Q k, maintains (sound_mem mm) Q m ->
    (forall a, Q a -> hoare (sound_mem mm) (k a)
      (fun rc s => sound s /\ (rc = 0 -> s.2 = apply_writes (requests osd slices) mm)) sound) ->
    hoare (sound_mem mm) (m ≫= k)
      (fun rc s => sound s /\ (rc = 0 -> s.2 = apply_writes (requests osd slices) mm)) sound) as Hstep.
  { intros A m Q k Hm Hk. eapply hoare_bind.
    - eapply hoare_weaken; [exact Hm|done|intros a s Has; exact Has|by intros s []].
    - intros a s [Has Hq]. by apply Hk. }
  unfold _read_osd_slices_asd_direct_path.
  eapply Hstep; [apply find_osd_sound|]. intros [ic|] Hic; [|by apply Hfail].
  destruct (Hic ic eq_refl) as [Hlid Hlen].
  eapply (Hstep _ _ any); [by apply maintains_gets|]. intros o _.
  eapply Hstep; [apply get_pool_sound; by rewrite Hlid|]. intros [key|] Hkey; [|by apply Hfail].
  rewrite (Hkey key eq_refl), Hlid.
  eapply Hstep; [apply on_pool_sound, get_connection_sound|].
  intros [c|] Hc; [|by apply Hfail]. apply use_connection_sound; [by apply Hc|done].
Qed.

(** Reading from all the OSDs. *)
Lemma read_osds_sound per_osd mm : Forall (fun p => Forall (askable (lid p.1)) p.2) per_osd ->
  hoare (sound_mem mm) (read_osds_slices per_osd)
    (fun rc s => sound s /\ (rc = 0 ->
       s.2 = apply_writes ((fun q => asked (lid q.1) q.2) <$> flatten per_osd) mm)) sound.
Proof.
  intros Hs. revert mm. induction Hs as [|[osd slices] per_osd Hs _ IH]; intros mm.
  { by intros s []. }
  cbn [read_osds_slices]. eapply hoare_bind; [by apply direct_path_sound|].
  intros rc [[o w] m1] [Ho Hm]. cbn [fst snd] in *. destruct (Z.eqb_spec rc 0) as [->|Hne]; cbn [negb].
  - specialize (IH _ (o, w, m1) (conj Ho (Hm eq_refl))).
    destruct (read_osds_slices per_osd (o, w, m1)) as [[rc|e| |] s']; [|done..].
    destruct IH as [Ho' Hr]. split; [done|]. intros Hz. rewrite (Hr Hz).
    unfold flatten. cbn [fmap list_fmap concat]. rewrite fmap_app, apply_writes_app.
    unfold requests. rewrite <- list_fmap_compose. done.
  - split; [done|]. by intros.
Qed.
End access.

(** ** The singleton *)

Section singleton.
Context {T W : Type} `{AS : AsdServer T} {WW : World T W} {C : Type}.
Context (levels : list alba_id_t) (lid : osd_t -> bytes) (osd_info2 : osd_maps_t -> M C osd_maps_t).
Hypothesis info_true : forall m c maps c',
  osd_info2 m c = (Ret maps, c') -> true_maps levels lid maps.
Abbreviation sound_first := (fun s : OsdAccess T * C => sound_access levels lid s.1).

Lemma update_sound : maintains sound_first any (update osd_info2).
Proof.
  unfold update. apply maintains_bind; [by apply maintains_gets|]. intros filling.
  apply maintains_lock; [by intros s []|by intros [o c] []|]. destruct filling; simpl.
  { apply maintains_bind; [by apply maintains_gets|]. intros [];
      [by apply maintains_mout|by apply maintains_ret]. }
  apply maintains_bind; [by apply maintains_gets|]. intros [];
    [by apply maintains_ret|]. simpl.
  apply maintains_bind; [by apply maintains_modify; intros [o c] []|]. intros _.
  apply maintains_bind.
  - apply maintains_try.
    + apply maintains_bind; [|intros _; by apply maintains_ret].
      apply maintains_lock; [by intros s []|by intros [o c] []|].
      eapply (maintains_bind_post _ (true_maps levels lid)).
      * intros [o c] Hs. unfold zoom. cbn [snd]. destruct (osd_info2 [] c) as [[maps|e| |] c'] eqn:E; try exact Hs.
        split; [exact Hs|by eapply info_true].
      * intros infos Hi. apply maintains_modify. intros [o c] []. split; try done.
        right. split; [apply Hi|exact Hi].
    + intros e. destruct (is_std_exception e); [by apply maintains_ret|apply maintains_throw].
  - intros r. apply maintains_bind; [by apply maintains_modify; intros [o c] []|].
    intros _. by apply maintains_ret.
Qed.

(** The levels are those of the deployment, as soon as there are any. *)
Lemma get_alba_levels_sound :
  maintains sound_first (fun r => r = [] \/ r = levels) (get_alba_levels osd_info2).
Proof.
  unfold get_alba_levels. apply maintains_bind; [by apply maintains_gets|]. intros ls.
  apply maintains_bind.
  - destruct (len ls =? 0); [|by apply maintains_ret].
    apply maintains_bind; [apply update_sound|]. intros []; [by apply maintains_ret|apply maintains_throw].
  - intros _. apply maintains_gets. intros s Hs. destruct (sa_known _ _ _ Hs) as [[-> _]|[-> _]]; auto.
Qed.

Lemma all_known_sound per_osd : maintains (sound_access (T := T) levels lid) any (all_known per_osd).
Proof.
  induction per_osd as [|[osd ss] per_osd IH]; [by apply maintains_ret|]. cbn [all_known].
  apply maintains_bind; [|intros []; [by apply maintains_ret|exact IH]].
  apply maintains_lock; [by intros o []|by intros o []|].
  unfold last_map. apply maintains_bind; [|by intros; apply maintains_ret].
  apply maintains_bind; [by apply maintains_gets|]. intros maps.
  destruct (last maps); [by apply maintains_ret|by apply maintains_mout].
Qed.
End singleton.
