(* ===== verification/ReadCorrect.v ===== *)
(** * What a read returns is right

    The partial correctness of [read_objects_slices], whatever fails on the way.  The
    deployment is honest ([honest]): the proxy tells the truth when it answers, manifests
    describe the objects, and the ASDs keep the contract [AsdServer].  But connections
    break, OSDs are unknown, pools back off, keys do not decrypt, manifests have been
    evicted: every call may fail.  When the read does return, by whichever of its paths,
    the slices hold the objects' bytes; and on every way out the client's invariant
    ([sound_client]) holds, so that the next read is right again. *)

From S2P Require Import Prelude Hoare Llio Stuff AlbaCommon Checksum Encryption OsdInfo Manifest.
From S2P Require Import ProxyProtocol Writes LruCache ManifestCache Transport TransportHelper GenericClient.
From S2P Require Import AsdProtocol AsdClient ConnectionPool OsdAccess RoraLocation ProxyClient RoraClient.
From S2P Require Import FastPath Sane AsdServer TcpTransport TcpAsd TrustedAccess.

Local Open Scope Z_scope.
Local Open Scope alba_scope.

(** ** Slices and their blocks of memory *)

Lemma tiled_pieces osd (P : Location -> Prop) ls t bs : tiled osd P ls t bs ->
  Forall (fun p => P p.2 /\ 0 < loc_length p.2 <= len bs /\ len (osd p.2) = loc_length p.2 /\
                   t <= p.1 /\ p.1 + loc_length p.2 <= t + len bs) ls /\
  pairwise_disjoint ((fun p => (p.1, osd p.2)) <$> ls).
Proof.
  induction 1 as [t|t l ls rest Hl Hpos Hlen _ [IH Hd]]; [by split|].
  pose proof (len_nonneg rest). rewrite len_app. split.
  - constructor; simpl; [split_and!; try done; lia|]. eapply Forall_impl; [exact IH|].
    intros p (? & ? & ? & ? & ?). split_and!; try done; lia.
  - simpl. split; [|done]. apply Forall_fmap. eapply Forall_impl; [exact IH|].
    intros p (? & ? & ? & ? & ?) a. unfold in_block. simpl. lia.
Qed.

(** The same for many blocks. *)
Lemma tiled_writes_pieces osd (P : Location -> Prop) ws ls : tiled_writes osd P ws ls ->
  pairwise_disjoint ws ->
  Forall (fun p => P p.2 /\ 0 < loc_length p.2 /\ len (osd p.2) = loc_length p.2 /\
    exists w, w ∈ ws /\ loc_length p.2 <= len w.2 /\
      w.1 <= p.1 /\ p.1 + loc_length p.2 <= w.1 + len w.2) ls /\
  pairwise_disjoint ((fun p => (p.1, osd p.2)) <$> ls).
Proof.
  intros (lss & -> & HF). induction HF as [|w l ws lss Ht _ IH]; [by split|].
  intros [Hw Hd]. destruct (IH Hd) as [Hp Hd2]. destruct (tiled_pieces _ _ _ _ _ Ht) as [Hp1 Hd1].
  rewrite concat_cons. split.
  - apply Forall_app_2.
    + eapply Forall_impl; [exact Hp1|]. intros p (? & ? & ? & ? & ?). split_and!; try done; [lia|].
      exists w. split_and!; [by left|lia..].
    + eapply Forall_impl; [exact Hp|]. intros p (? & ? & ? & w' & ? & ? & ? & ?). split_and!; try done.
      exists w'. split_and!; [by right|done..].
  - rewrite fmap_app. clear IH Ht.
    assert (Forall (fun v => forall a, in_block a v.1 (len v.2) -> in_block a w.1 (len w.2))
      ((fun p => (p.1, osd p.2)) <$> l)) as Hin.
    { apply Forall_fmap. eapply Forall_impl; [exact Hp1|]. intros p (? & ? & ? & ? & ?) a.
      unfold in_block. simpl. lia. }
    assert (Forall (disjoint_writes w) ((fun p => (p.1, osd p.2)) <$> concat lss)) as Hout.
    { apply Forall_fmap. eapply Forall_impl; [exact Hp|]. intros p (? & ? & Hlp & w' & Hw' & ? & ? & ?) a.
      rewrite Forall_forall in Hw. specialize (Hw w' Hw' a). unfold in_block in *. simpl.
      rewrite Hlp. intros Hin1 Hin2. apply Hw; lia. }
    clear Hp Hp1. induction ((fun p => (p.1, osd p.2)) <$> l) as [|v vs IHv]; [done|].
    apply Forall_cons in Hin as [Hv Hin]. destruct Hd1 as [Hd1 Hd1']. simpl. split; [|by apply IHv].
    apply Forall_app_2; [done|]. eapply Forall_impl; [exact Hout|]. intros v' Hv' a Ha Ha'.
    by apply (Hv' a); [apply Hv|].
Qed.

Lemma object_writes_perm content ss1 ss2 : ss1 ≡ₚ ss2 ->
  object_writes content ss1 ≡ₚ object_writes content ss2.
Proof. intros HP. unfold object_writes. by rewrite HP. Qed.
Lemma object_writes_app content ss1 ss2 :
  object_writes content (ss1 ++ ss2) = object_writes content ss1 ++ object_writes content ss2.
Proof. unfold object_writes. by rewrite fmap_app, concat_app. Qed.

Lemma object_writes_elem content slices os sd : os ∈ slices -> sd ∈ ProxyProtocol.slices os ->
  slice_write (content (object_name os)) sd ∈ object_writes content slices.
Proof.
  intros Hos Hsd. apply list_elem_of_In, in_concat. exists (slice_write (content (object_name os)) <$> ProxyProtocol.slices os).
  split; apply list_elem_of_In.
  - by apply (list_elem_of_fmap_2 (fun os => slice_write (content (object_name os)) <$> ProxyProtocol.slices os)).
  - by apply list_elem_of_fmap_2.
Qed.

Lemma pairwise_app ws1 ws2 : pairwise_disjoint (ws1 ++ ws2) ->
  pairwise_disjoint ws1 /\ pairwise_disjoint ws2 /\
  forall w1 w2, w1 ∈ ws1 -> w2 ∈ ws2 -> disjoint_writes w1 w2.
Proof.
  induction ws1 as [|w ws1 IH]; simpl.
  - intros Hd. split_and!; [done..|]. intros w1 w2 Hn. by apply not_elem_of_nil in Hn.
  - intros [Hw Hd]. apply Forall_app in Hw as [Hw1 Hw2]. destruct (IH Hd) as (H1 & H2 & H3).
    split_and!; [done..|]. intros w1 w2 [->|Hin]%elem_of_cons Hw2'; [|by apply H3].
    rewrite Forall_forall in Hw2. by apply Hw2.
Qed.

(** A slice whose block has been written holds its bytes. *)
Lemma written_filled data sd ws mm : slice_inside data sd -> pairwise_disjoint ws ->
  slice_write data sd ∈ ws -> filled (apply_writes ws mm) sd data.
Proof.
  intros (Ho & Hn & Hle) Hd Hin i Hi. pose proof (len_stretch (offset sd) (sd_size sd) data Ho (proj1 Hn) Hle) as Hl.
  apply list_elem_of_split in Hin as (ws1 & ws2 & ->).
  unfold slice_write in Hd |- *. rewrite apply_writes_lookup by (done || unfold in_block; lia).
  replace (buf sd + i - buf sd) with i by lia. unfold stretch.
  rewrite lookup_take_lt, lookup_drop by lia. f_equal. lia.
Qed.

(** ** An honest deployment *)

(** A location as true manifests have them: its fields have their types' ranges, and what
    is encrypted can be decrypted with [key_for] its key's identification. *)
Record usable (key_for : bytes -> bytes) (l : Location) : Prop := {
  us_ns : valid_int 64 (loc_namespace_id l);
  us_version : valid_int 32 (snd (loc_fragment_location l));
  us_chunk : valid_int 32 (loc_chunk_id l);
  us_fragment : valid_int 32 (loc_fragment_id l);
  us_oid : len (loc_object_id l) < 2 ^ 30;
  us_offset : 0 <= loc_offset l < 2 ^ 31;
  us_key e : loc_encrypt_info l = IsEncrypted e ->
    (forall ctr, loc_ctr l = Some ctr -> len ctr = 16) /\ len (key_for (key_identification e)) = 32 }.

Section read_correct.
Context {C : Type} `{TD : TruthfulDelegate C} {SD : SaneDelegate C}.
Context {T W : Type} `{AS : AsdServer T} {WW : World T W} {AW : AsdWorld T W}.
Context {B : BimapOps bytes manifest_cache_entry} {BL : Bimap B}.
Context {G : Gcrypt} {E : bytes -> Z -> bytes} {CM : CtrMode G E} {D : Digest}.
(** The levels, the long ids of the OSDs, the keys by their identification, and the true
    manifests of every namespace under their cache keys. *)
Context (levels : list alba_id_t) (lid : osd_t -> bytes) (key_for : bytes -> bytes).
Context (book : bytes -> bytes -> ManifestWithNamespaceId -> Prop).

Definition held : disks := fun osd key => asd_value (lid osd) key.

(** A manifest the proxy sends goes under the level it names, or the first one. *)
Definition vouched (ns : bytes) (i : object_info) : Prop :=
  let '(_, alba_id, mf) := i in
  book ns (make_key (if bool_decide (alba_id = []) then hd [] levels else alba_id)
             (name (manifest mf))) mf.
Record honest : Prop := {
  ho_maps m c maps c' : d_osd_info2 m c = (Ret maps, c') -> true_maps levels lid maps;
  ho_infos ns slices cr s infos s' :
    d_read_objects_slices2 ns slices cr s = (Ret infos, s') -> Forall (vouched ns) infos;
  ho_book ns nm : coherent (plain E key_for held) (fun a o => book ns (make_key a o)) levels nm (content ns nm);
  ho_usable ns key mf fd l : book ns key mf -> describes (manifest mf) fd -> located mf fd l ->
    usable key_for l;
  ho_hash key : key_for (sha256 key) = key }.

(** The client's invariant. *)
Definition true_cache (mc : ManifestCache) : Prop :=
  wf_manifest_cache mc /\ forall ns a o mf, cached mc ns a o = Some mf -> book ns (make_key a o) mf.
Definition sound_rora (c : RoraProxy_client C) : Prop :=
  keys_authentic c /\ (wf_builder (_fkb c) /\ message_builder._pos (_fkb c) = 4) /\ _use_null_io c = false.
Record sound_client (s : rora_state C T W) : Prop := {
  so_cache : true_cache (manifests s);
  so_rora : sound_rora (client s);
  so_access o : access s = Some o -> sound_access levels lid o }.

Hypothesis Hhonest : honest.
Implicit Types s : rora_state C T W.
Abbreviation sound_mem mm := (fun s : rora_state C T W => sound_client s /\ memory s = mm).

Lemma sound_instance s : sound_client s -> sound_access levels lid (instance s).
Proof.
  intros [_ _ Ha]. unfold instance. destruct (access s) as [o|]; [by apply Ha|]. split; simpl; try done. by left.
Qed.

Lemma in_manifests_sound {A} mm (m : M ManifestCache A) Q :
  maintains true_cache Q m -> maintains (sound_mem mm) Q (in_manifests m).
Proof.
  intros Hm. apply (maintains_zoom _ true_cache); [done|by intros s [[] _]|].
  intros s mc [[] Hv] Hmc. by split.
Qed.
Lemma in_client_sound {A} mm (m : M (RoraProxy_client C) A) Q :
  maintains sound_rora Q m -> maintains (sound_mem mm) Q (in_client m).
Proof.
  intros Hm. apply (maintains_zoom _ sound_rora); [done|by intros s [[] _]|].
  intros s c [[] Hv] Hc. by split.
Qed.
Lemma in_access_sound {A} mm (m : M (OsdAccess T * C) A) Q :
  maintains (fun p => sound_access levels lid p.1) Q m -> maintains (sound_mem mm) Q (in_access m).
Proof.
  intros Hm. apply (maintains_zoom _ (fun p => sound_access levels lid p.1)); [done|by intros s [Hs _]; apply sound_instance|].
  intros s [o d] [[] Hv] Ho. split; [|done]. split; [done|done|]. by intros ? [= <-].
Qed.

Lemma clock_sound mm : maintains (sound_mem mm) any (RoraClient.steady_clock_now).
Proof.
  intros s [[] Hv]. unfold RoraClient.steady_clock_now. destruct (steady_now (world s)). by split.
Qed.

Lemma choose_path_sound mm cr : maintains (sound_mem mm) any (choose_path cr).
Proof.
  unfold choose_path. apply maintains_bind; [by apply maintains_gets|]. intros c.
  destruct (100 <? _); [|by apply maintains_ret].
  apply maintains_bind; [apply clock_sound|]. intros t. destruct (120 <? _); [|by apply maintains_ret].
  apply maintains_bind; [by apply in_client_sound, maintains_modify|]. intros _. by apply maintains_ret.
Qed.

Lemma account_sound mm rc n : maintains (sound_mem mm) any (account rc n).
Proof.
  unfold account. destruct (negb (rc =? 0)).
  - apply maintains_bind; [apply clock_sound|]. intros t. by apply in_client_sound, maintains_modify.
  - apply maintains_bind; [by apply in_client_sound, maintains_modify|]. intros _.
    apply maintains_modify. intros s [[] Hv]. by split.
Qed.

(** ** Through the proxy *)

Lemma add_true ns a mf : book ns (make_key a (name (manifest mf))) mf -> maintains true_cache any (add ns a mf).
Proof.
  intros Hmf mc [Hwf Hb]. destruct (add_spec ns a mf mc Hwf) as (mc' & -> & Hw & He & _ & Hne).
  split; [|done]. split; [done|]. intros ns' a' o' mf'. unfold cached. destruct (decide (ns' = ns)) as [->|Hn].
  - rewrite He. intros [[= Hk ->]|Hin]%assoc_Some%insert_entries_elem; [by rewrite Hk|].
    apply (Hb ns a' o'), elem_of_assoc; [by apply ns_entries_nodup|done].
  - rewrite Hne by done. apply Hb.
Qed.

Lemma process_sound mm infos ns : Forall (vouched ns) infos -> maintains (sound_mem mm) any (_process infos ns).
Proof.
  intros Hi. apply maintains_for_each. eapply Forall_impl; [exact Hi|].
  intros [[nm al] mf] Hmf. unfold process_info. unfold vouched in Hmf.
  eapply (maintains_bind_post _ (fun al => book ns (make_key al (name (manifest mf))) mf)).
  - destruct (bool_decide (al = [])); [|by apply maintains_ret].
    eapply maintains_bind_post; [apply in_access_sound, get_alba_levels_sound, (ho_maps Hhonest)|].
    intros [|l ls] Hl; [apply maintains_throw|]. apply maintains_ret. destruct Hl as [|<-]; [done|]. exact Hmf.
  - intros al' Hal. by apply in_manifests_sound, add_true.
Qed.

(** The slices come from the proxy, and nothing else is written. *)
Lemma via_proxy_sound ns slices cr mm :
  hoare (sound_mem mm) (read_via_proxy ns slices cr)
    (fun _ s => sound_client s /\ (forall a, outside slices a -> memory s !! a = mm !! a) /\
       forall os sd, os ∈ slices -> sd ∈ ProxyProtocol.slices os ->
         filled (memory s) sd (content ns (object_name os))) sound_client.
Proof.
  intros s [Hs Hm]. unfold read_via_proxy, _slow_path, zoom, mbind, M_bind.
  destruct (d_read_objects_slices2 ns slices cr (_delegate (client s), memory s, cntr s))
    as [[infos|e| |] [[d m1] cn]] eqn:Ed; cbn [fst snd];
    match goal with |- context [Make_rora_state ?c ?mc ?a ?w ?m ?cn] =>
      assert (sound_client (Make_rora_state c mc a w m cn)) as Hs1 by (by destruct Hs) end; try done.
  pose proof (process_sound m1 infos ns (ho_infos Hhonest _ _ _ _ _ _ Ed) _ (conj Hs1 eq_refl)) as Hp.
  destruct (_process infos ns _) as [[[]|e| |] s']; try apply Hp. destruct Hp as [[Hp Hm1] _].
  split; [done|]. rewrite Hm1. split.
  - intros a Ha. pose proof (read_sane ns slices cr a (mm !! a) Ha (_delegate (client s), memory s, cntr s)) as Hr.
    cbn [fst snd] in Hr. rewrite Hm in Hr. specialize (Hr eq_refl). rewrite Hm in Ed. rewrite Ed in Hr. apply Hr.
  - intros os sd Hos Hsd. by eapply read_truthful.
Qed.

(** ** From the ASDs *)

Lemma stretch_inside o n bs : 0 <= o -> 0 < n -> len (stretch o n bs) = n -> o + n <= len bs.
Proof. unfold stretch, len. rewrite length_take, length_drop. lia. Qed.

(** A usable location that does not need the proxy can be read and decrypted. *)
Lemma leaf_readable l : usable key_for l -> needs_proxy l = false -> 0 < loc_length l ->
  len (plain E key_for held l) = loc_length l -> addressable l /\ decryptable key_for held l.
Proof.
  intros [Hn Hv Hc Hf Ho Hoff Hk] Hp Hpos Hl. unfold needs_proxy in Hp.
  apply orb_false_iff in Hp as [[Hosd%bool_decide_eq_false_1 _]%orb_false_iff Hpd%negb_false_iff].
  split; [split; try done; by apply not_eq_None_Some|]. split; [done|lia| |].
  - unfold plain in Hl. destruct (loc_encrypt_info l).
    + apply stretch_inside in Hl; lia.
    + apply stretch_inside in Hl; [|lia..]. unfold len in *. unfold xor_stream in Hl. by rewrite length_imap in Hl.
  - destruct (loc_encrypt_info l) as [|e]; [done|]. apply bool_decide_eq_true_1 in Hpd.
    destruct (Hk e eq_refl). by split_and!.
Qed.

Definition leaf (p : Z * Location) : Prop :=
  addressable p.2 /\ decryptable key_for held p.2 /\ loc_length p.2 < 2 ^ 31.

Lemma len_key_of l : len (loc_object_id l) < 2 ^ 30 -> len (key_of l) < 2 ^ 30 + 64.
Proof.
  intros Hl. unfold key_of, enc_fragment_key, enc_be_x_uint64, enc_string, enc_int, len in *.
  destruct (loc_namespace_id l <? max_int32);
    repeat (rewrite length_app || rewrite length_rev || rewrite length_le_split); simpl; lia.
Qed.

Lemma leaf_askable p : leaf p -> askable (lid (osd_of p.2)) (asd_of p).
Proof.
  intros (Ha & [Ho Hl Hi _] & Hs). split; simpl; [done|lia|apply len_key_of, Ha|exact Hi].
Qed.

Lemma all_askable ls : Forall leaf ls ->
  Forall (fun p => Forall (askable (lid p.1)) p.2) (push_all ls []).
Proof.
  intros Hls. assert (Forall (fun q => askable (lid q.1) q.2) (flatten (push_all ls []))) as Hf.
  { rewrite push_all_flatten. change (flatten []) with (@nil (osd_t * asd_slice)). rewrite app_nil_r.
    apply Forall_fmap. eapply Forall_impl; [exact Hls|]. intros p. apply leaf_askable. }
  revert Hf. unfold flatten. induction (push_all ls []) as [|[osd ss] per_osd IH]; [done|].
  cbn [fmap list_fmap concat]. intros [H1 H2]%Forall_app. constructor; [|by apply IH].
  by apply Forall_fmap in H1.
Qed.

Lemma group_sound mm ls : Forall leaf ls ->
  maintains (sound_mem mm) (fun r => r = push_all ls []) (in_client (group_per_osd ls [])).
Proof.
  intros Hls. apply in_client_sound. intros c (Hk & [Hb Hp] & Hio).
  assert (Forall (fun p : Z * Location => addressable p.2) ls) as Had
    by (eapply Forall_impl; [exact Hls|]; by intros p []).
  destruct (group_per_osd_spec ls [] c Had Hb Hp) as (b & -> & Hb' & Hp'). by split.
Qed.

Lemma maybe_update_sound mm per_osd : maintains (sound_mem mm) any (_maybe_update_osd_infos per_osd).
Proof.
  unfold _maybe_update_osd_infos. apply maintains_bind.
  - apply in_access_sound. apply (maintains_zoom _ (sound_access levels lid)); [apply all_known_sound|done..].
  - intros []; simpl; [by apply maintains_ret|].
    apply maintains_bind; [apply in_access_sound, update_sound, (ho_maps Hhonest)|].
    intros _. by apply maintains_ret.
Qed.

(** A step that keeps the invariant and the memory, before one that need not. *)
Lemma then_hoare {A F} mm (m : M (rora_state C T W) A) (k : A -> M (rora_state C T W) F) Q R :
  maintains (sound_mem mm) Q m -> (forall a, Q a -> hoare (sound_mem mm) (k a) R sound_client) ->
  hoare (sound_mem mm) (m ≫= k) R sound_client.
Proof.
  intros Hm Hk. eapply hoare_bind.
  - eapply hoare_weaken; [exact Hm|done|intros a s Has; exact Has|by intros s []].
  - intros a s [Has Hq]. by apply Hk.
Qed.

Lemma short_path_sound mm ls : Forall leaf ls -> pairwise_disjoint (stored_write held <$> ls) ->
  hoare (sound_mem mm) (_short_path ls)
    (fun rc s => sound_client s /\ (rc = 0 -> memory s = apply_writes (stored_write held <$> ls) mm))
    sound_client.
Proof.
  intros Hls Hd. unfold _short_path. eapply then_hoare; [by apply group_sound|]. intros per_osd ->.
  eapply then_hoare; [apply maybe_update_sound|]. intros _ _.
  eapply (then_hoare _ _ _ (fun b => b = false)).
  { apply maintains_gets. intros s [Hs _]. apply (so_rora s Hs). }
  intros b ->. cbv iota.
  apply (hoare_zoom _ _ _ _ (fun _ p => sound_access levels lid p.1.1 /\ p.2 = mm)
    (fun _ rc p => sound_access levels lid p.1.1 /\
       (rc = 0 -> p.2 = apply_writes ((fun q => asked (lid q.1) q.2) <$> flatten (push_all ls [])) mm))
    (fun _ p => sound_access levels lid p.1.1)).
  - intros s _. by apply read_osds_sound, all_askable.
  - intros s [Hs Hm]. split; [by apply sound_instance|done].
  - intros s rc [[o w] m] [[Hc Hr Ha] _] [Ho Hm]. split; [split; [done|done|]; by intros ? [= <-]|].
    intros Hz. cbn [memory fst snd] in *. rewrite (Hm Hz).
    apply apply_writes_perm; [apply (grouped_writes held)|].
    eapply pairwise_perm; [symmetry; apply (grouped_writes held)|exact Hd].
  - intros s [[o w] m] [[Hc Hr Ha] _] Ho. split; [done|done|]. by intros ? [= <-].
Qed.

(** ** Decryption *)

Lemma encryption_key_sound al ns id :
  maintains sound_rora (fun key => key = key_for id) (get_encryption_key al ns id).
Proof.
  intros c (Hk & Hb & Hio).
  pose proof (encryption_key_keeps (fun c : RoraProxy_client C => (_fkb c, _use_null_io c)) al ns id
    (fun _ _ => eq_refl) (fun _ _ => eq_refl) c) as Hkeep.
  destruct (get_encryption_key al ns id c) as [o c'] eqn:Eg. cbn [snd] in Hkeep. injection Hkeep as Hb' Hio'.
  destruct (get_encryption_key_spec _ _ _ _ _ _ Hk Eg) as [Hk' Hr].
  assert (sound_rora c') as Hs by (unfold sound_rora; by rewrite Hb', Hio').
  destruct o as [key|e| |]; try done. split; [done|]. rewrite <- (Hr key eq_refl). symmetry.
  apply (ho_hash Hhonest).
Qed.

Lemma decrypt_location_sound lv t l ws1 ws2 mm :
  leaf (t, l) -> pairwise_disjoint (ws1 ++ (t, stored held l) :: ws2) ->
  hoare (sound_mem (apply_writes (ws1 ++ (t, stored held l) :: ws2) mm)) (decrypt_location lv (t, l))
    (fun _ => sound_mem (apply_writes (ws1 ++ (t, plain E key_for held l) :: ws2) mm)) sound_client.
Proof.
  intros (_ & Hde & _) Hd. cbn [snd] in Hde. unfold decrypt_location.
  destruct (loc_encrypt_info l) as [|e] eqn:Ee.
  { intros s Hs. assert (plain E key_for held l = stored held l) as -> by (unfold plain; by rewrite Ee). exact Hs. }
  eapply (then_hoare _ _ _ (fun ctr => loc_ctr l = Some ctr)).
  { destruct (loc_ctr l); [by apply maintains_ret|apply maintains_throw]. }
  intros ctr Hc. eapply (then_hoare _ _ _ any).
  { destruct (last lv); [by apply maintains_ret|by apply maintains_mout]. }
  intros al _. eapply then_hoare; [apply in_client_sound, encryption_key_sound|]. intros key ->.
  intros s [Hs Hm].
  rewrite (bind_ret_eq _ _ _ _ _ (decrypt_in_place_spec (CM := CM) key_for held s t l e ctr ws1 ws2 mm Hde Ee Hc Hm Hd)).
  split; [by destruct Hs|done].
Qed.

Lemma decrypt_all_sound lv ls mm : Forall leaf ls -> pairwise_disjoint (stored_write held <$> ls) ->
  hoare (sound_mem (apply_writes (stored_write held <$> ls) mm)) (for_each (decrypt_location lv) ls)
    (fun _ => sound_mem (apply_writes (plain_write key_for held (E := E) <$> ls) mm)) sound_client.
Proof.
  intros Hls Hd.
  assert (forall ls2 ls1, ls = ls1 ++ ls2 ->
    hoare (sound_mem (apply_writes ((plain_write key_for held (E := E) <$> ls1) ++ (stored_write held <$> ls2)) mm))
      (for_each (decrypt_location lv) ls2)
      (fun _ => sound_mem (apply_writes (plain_write key_for held (E := E) <$> ls) mm)) sound_client) as Hgen.
  2: { by apply (Hgen ls []). }
  induction ls2 as [|[t l] ls2 IH]; intros ls1 Heq.
  { rewrite app_nil_r in Heq. subst ls1. cbn [fmap list_fmap]. rewrite app_nil_r. by intros s Hs. }
  cbn [for_each fmap list_fmap]. rewrite Heq in Hls, Hd.
  apply Forall_app in Hls as [Hl1 [Hl _]%Forall_cons].
  eapply hoare_bind; [apply decrypt_location_sound; [done|]|].
  - apply (half_decrypted key_for held ls1 ((t, l) :: ls2)); [|exact Hd].
    eapply Forall_impl; [exact Hl1|]. by intros p (_ & ? & _).
  - intros u. eapply hoare_weaken; [apply (IH (ls1 ++ [(t, l)]))|..]; [by rewrite <- app_assoc| |done|done].
    intros s Hs. by rewrite fmap_app, <- app_assoc.
Qed.

(** What the fast path leaves in memory when it says that it has read everything. *)
Lemma read_directly_sound lv ls mm : Forall leaf ls -> pairwise_disjoint (stored_write held <$> ls) ->
  hoare (sound_mem mm) (read_directly lv ls)
    (fun rc s => sound_client s /\
       (rc = 0 -> memory s = apply_writes (plain_write key_for held (E := E) <$> ls) mm)) sound_client.
Proof.
  intros Hls Hd. unfold read_directly. eapply hoare_bind; [by apply short_path_sound|].
  intros rc s [Hs Hm]. destruct (Z.eqb_spec rc 0) as [->|Hne]; [|by split].
  pose proof (decrypt_all_sound lv ls mm Hls Hd s (conj Hs (Hm eq_refl))) as Hdec.
  unfold try_catch, mbind, M_bind.
  destruct (for_each (decrypt_location lv) ls s) as [[[]|e| |] s']; try done.
  destruct Hdec as [Hs' Hm']. by split.
Qed.

(** ** Reading *)

(** Slices inside their objects, of sizes an [int] can hold. *)
Definition slices_fit (ns : bytes) (slices : list ObjectSlices) : Prop :=
  Forall (fun os => Forall (fun sd => slice_inside (content ns (object_name os)) sd /\ sd_size sd < 2 ^ 31)
    (ProxyProtocol.slices os)) slices.

Lemma slices_truthful ns slices mc : true_cache mc -> slices_fit ns slices ->
  Forall (truthful (plain E key_for held) (content ns) levels (cached mc ns)) slices.
Proof.
  intros [_ Hb] Hs. eapply Forall_impl; [exact Hs|]. intros os Hos. split.
  - eapply coherent_mono; [|apply (ho_book Hhonest)]. intros a o mf Hmf. by apply Hb.
  - eapply Forall_impl; [exact Hos|]. by intros sd [].
Qed.

(** How the slices are parted: [direct] is tiled by locations, [extra] is for the proxy. *)
Definition parted (ns : bytes) (slices : list ObjectSlices) (r : list (Z * Location) * list ObjectSlices) : Prop :=
  exists direct, tiled_writes (plain E key_for held) (usable key_for) (object_writes (content ns) direct) r.1 /\
    Forall (fun p => needs_proxy p.2 = false) r.1 /\ direct ++ r.2 ≡ₚ slices.

Lemma split_sound ns slices lv mm : slices_fit ns slices -> lv = [] \/ lv = levels ->
  maintains (sound_mem mm) (parted ns slices) (in_manifests (split_slices lv ns slices [] [])).
Proof.
  intros Hs Hlv. apply in_manifests_sound. intros mc Hmc. destruct Hlv as [-> | ->].
  { destruct slices as [|os slices]; [|done]. split; [done|]. exists []. split; [|done].
    apply tiled_writes_nil. }
  destruct Hmc as [Hwf Hb].
  destruct (split_slices_tiles (plain E key_for held) (content ns) ns levels (cached mc ns) (usable key_for)
    slices [] [] mc Hwf (fun _ _ => eq_refl)) as (direct & extra & more & mc' & -> & Hsame & Ht & Hn & Hp & _).
  - intros a o mf fd l Hmf. apply (ho_usable Hhonest ns (make_key a o)). by apply Hb.
  - by apply slices_truthful.
  - split; [|by exists direct]. split; [apply Hsame|]. intros ns' a o mf. rewrite (proj2 Hsame). apply Hb.
Qed.

(** The locations of the direct part can be read, and their blocks do not overlap. *)
Lemma parted_leaves ns slices direct ls : slices_fit ns slices ->
  tiled_writes (plain E key_for held) (usable key_for) (object_writes (content ns) direct) ls ->
  Forall (fun p => needs_proxy p.2 = false) ls -> (forall os, os ∈ direct -> os ∈ slices) ->
  pairwise_disjoint (object_writes (content ns) direct) ->
  Forall leaf ls /\ pairwise_disjoint (stored_write held <$> ls).
Proof.
  intros Hs Ht Hn Hin Hd. destruct (tiled_writes_pieces _ _ _ _ Ht Hd) as [Hp Hpd].
  assert (Forall leaf ls) as Hl.
  { rewrite Forall_forall in Hp, Hn. apply Forall_forall. intros p Hpin.
    destruct (Hp p Hpin) as (Hu & Hpos & Hlen & w & Hw & Hle & _).
    destruct (leaf_readable p.2 Hu (Hn p Hpin) Hpos Hlen) as [Had Hde]. split_and!; [done..|].
    apply list_elem_of_In, in_concat in Hw as (ws & Hws & Hw).
    apply list_elem_of_In in Hws, Hw. apply list_elem_of_fmap in Hws as (os & -> & Hos).
    apply list_elem_of_fmap in Hw as (sd & -> & Hsd). cbn [slice_write snd] in Hle.
    unfold slices_fit in Hs. rewrite Forall_forall in Hs. specialize (Hs os (Hin os Hos)).
    rewrite Forall_forall in Hs. destruct (Hs sd Hsd) as [(Ho & Hsz & Hi) Hlt].
    rewrite len_stretch in Hle by (lia || done). lia. }
  split; [done|]. eapply pairwise_blocks; [|exact Hpd]. apply Forall2_fmap, Forall_Forall2_diag.
  eapply Forall_impl; [exact Hl|]. intros p (_ & Hde & _). split; [done|]. symmetry.
  by apply (plain_block key_for held).
Qed.

Definition all_filled (ns : bytes) (slices : list ObjectSlices) (mm : mem) : Prop :=
  forall os sd, os ∈ slices -> sd ∈ ProxyProtocol.slices os -> filled mm sd (content ns (object_name os)).

(** What was read directly stays when the proxy fills the rest. *)
Lemma filled_together ns slices direct extra mm mm' :
  slices_fit ns slices -> direct ++ extra ≡ₚ slices ->
  pairwise_disjoint (object_writes (content ns) slices) ->
  (forall a, outside extra a -> mm' !! a = apply_writes (object_writes (content ns) direct) mm !! a) ->
  all_filled ns extra mm' -> all_filled ns slices mm'.
Proof.
  intros Hs Hp Hd Hout Hex os sd Hos Hsd. rewrite <- Hp in Hos. apply elem_of_app in Hos as [Hos|Hos]; [|by apply Hex].
  assert (forall os sd, os ∈ direct ++ extra -> sd ∈ ProxyProtocol.slices os ->
    slice_inside (content ns (object_name os)) sd) as Hin.
  { intros os' sd' Hos' Hsd'. rewrite Hp in Hos'. unfold slices_fit in Hs. rewrite Forall_forall in Hs.
    specialize (Hs os' Hos'). rewrite Forall_forall in Hs. by apply Hs. }
  eapply pairwise_perm in Hd; [|apply object_writes_perm; symmetry; exact Hp].
  rewrite object_writes_app in Hd. destruct (pairwise_app _ _ Hd) as (Hd1 & _ & Hcross).
  pose proof (object_writes_elem (content ns) direct os sd Hos Hsd) as Hw.
  assert (slice_inside (content ns (object_name os)) sd) as Hsi by (apply Hin; [apply elem_of_app; by left|done]).
  intros i Hi. rewrite Hout; [by apply (written_filled _ _ _ _ Hsi Hd1 Hw)|].
  apply Forall_forall. intros os' Hos'. apply Forall_forall. intros sd' Hsd' Ha.
  destruct (Hin os' sd') as (Ho' & [Hn' _] & Hle'); [apply elem_of_app; by right|done|].
  destruct Hsi as (Ho & [Hn _] & Hle).
  apply (Hcross _ _ Hw (object_writes_elem (content ns) extra os' sd' Hos' Hsd') (buf sd + i));
    unfold slice_write, in_block in *; cbn [fst snd]; rewrite len_stretch by lia; lia.
Qed.

Lemma read_objects_slices_sound ns slices cr mm :
  slices_fit ns slices -> pairwise_disjoint (object_writes (content ns) slices) ->
  hoare (sound_mem mm) (RoraClient.read_objects_slices ns slices cr)
    (fun _ s => sound_client s /\ all_filled ns slices (memory s)) sound_client.
Proof.
  intros Hs Hd. unfold RoraClient.read_objects_slices.
  eapply then_hoare; [apply choose_path_sound|]. intros slow _.
  assert (forall mm', hoare (sound_mem mm') (read_via_proxy ns slices cr)
    (fun _ s => sound_client s /\ all_filled ns slices (memory s)) sound_client) as Hproxy.
  { intros mm'. eapply hoare_weaken; [apply (via_proxy_sound ns slices cr mm')|done| |done].
    intros [] s (? & _ & ?). by split. }
  destruct slow; [apply Hproxy|].
  eapply then_hoare; [apply in_access_sound, get_alba_levels_sound, (ho_maps Hhonest)|]. intros lv Hlv.
  eapply then_hoare; [by apply split_sound|]. intros [ls extra] (direct & Ht & Hn & Hp). cbn [fst snd] in *.
  assert (pairwise_disjoint (object_writes (content ns) direct)) as Hdd.
  { eapply pairwise_perm in Hd; [|apply object_writes_perm; symmetry; exact Hp].
    rewrite object_writes_app in Hd. apply (pairwise_app _ _ Hd). }
  destruct (parted_leaves ns slices direct ls Hs Ht Hn) as [Hl Hsd]; [|done|].
  { intros os Hos. rewrite <- Hp. apply elem_of_app. by left. }
  eapply hoare_bind; [by apply read_directly_sound|]. intros rc s1 [Hs1 Hm1].
  assert (rc = 0 -> memory s1 = apply_writes (object_writes (content ns) direct) mm) as Hmem.
  { intros Hz. rewrite (Hm1 Hz). rewrite <- (tiled_writes_read _ _ _ _ mm Ht), read_locations_apply. done. }
  clear Hm1 Hl Hsd Ht Hn. generalize (conj Hs1 eq_refl : sound_client s1 /\ memory s1 = memory s1).
  revert Hmem. generalize (memory s1) at 1 3. intros m1 Hmem. clear Hs1. revert s1.
  change (hoare (sound_mem m1) (account rc (len ls) ;;
     let via_proxy := if rc =? 0 then extra else slices in
     if 0 <? len via_proxy then read_via_proxy ns via_proxy cr else mret tt)
    (fun _ s => sound_client s /\ all_filled ns slices (memory s)) sound_client).
  eapply then_hoare; [apply account_sound|]. intros _ _. cbv zeta.
  destruct (Z.eqb_spec rc 0) as [Hz|Hz].
  - rewrite (Hmem Hz) in *. destruct (Z.ltb_spec 0 (len extra)) as [_|Hle].
    + eapply hoare_weaken; [apply (via_proxy_sound ns extra cr)|intros s Hx; exact Hx| |done].
      intros [] s (Hs' & Hout & Hf). split; [done|]. by eapply filled_together.
    + assert (extra = []) as -> by (apply nil_length_inv; unfold len in Hle; lia).
      intros s [Hs' Hm]. split; [done|]. eapply (filled_together ns slices direct [] mm); try done.
      { intros a _. by rewrite Hm. } intros os sd Hos. by apply not_elem_of_nil in Hos.
  - destruct (Z.ltb_spec 0 (len slices)) as [_|Hle]; [apply Hproxy|].
    assert (slices = []) as -> by (apply nil_length_inv; unfold len in Hle; lia).
    intros s [Hs' _]. split; [done|]. intros os sd Hos. by apply not_elem_of_nil in Hos.
Qed.
End read_correct.

(** ** A deployment *)

(** The object of [sealed_chunks] on two simulated ASDs behind TCP connections, and a proxy that knows where
    they are, has the key, and answers single slices. *)
Section vault.
Inductive vault := Vault.
Definition vault_data : bytes := object_data (manifest sealed_chunks) two_chunks_data.
Definition vault_osds : osd_map_t :=
  list_to_map ((fun osd => (osd, (sealed_osd osd, default_OsdCapabilities))) <$> [10; 11; 14]).
#[export] Instance vault_Delegate : Delegate vault := {
  d_namespace_exists _ := mret true;
  d_create_namespace _ _ := mret tt;
  d_delete_namespace _ := mret tt;
  d_list_namespaces _ _ _ _ _ _ := mret ([], false);
  d_read_object_fs _ _ _ _ _ := mret tt;
  d_delete_object _ _ _ := mret tt;
  d_list_objects _ _ _ _ _ _ _ := mret ([], false);
  d_read_objects_slices2 ns slices _ :=
    toy_read vault_data slices ;;
    mret (if bool_decide (ns = str "ns") then [(str "obj", [], sealed_chunks)] else []);
  d_get_object_info _ _ _ _ := mret (6, NoChecksum);
  d_apply_sequence_ _ _ _ _ := mret [];
  d_update_session _ := mret [];
  d_invalidate_cache _ := mret tt;
  d_drop_cache _ := mret tt;
  d_get_proxy_version := mret (1, 0, 0, []);
  d_ping d := mret d;
  d_osd_info m := mret m;
  d_osd_info2 _ := mret [(str "alba", vault_osds)];
  d_has_local_fragment_cache := mret false;
  d_get_fragment_encryption_key _ _ := mret (Some sealed_key) }.
#[export] Instance vault_Truthful : TruthfulDelegate vault.
Proof.
  refine {| content _ _ := vault_data |}.
  intros ns slices cr d mm cn infos d' mm' cn' Hr. cbn [d_read_objects_slices2 vault_Delegate] in Hr.
  apply bind_ret_inv in Hr as (i & s1 & Hr & [= _ ->]). by apply toy_read_filled in Hr as [_ Hr].
Defined.
#[export] Instance vault_Sane : SaneDelegate vault.
Proof.
  split; [|intros; by apply maintains_ret]. intros ns slices cr a v Ho.
  eapply maintains_bind_post; [by apply toy_read_outside|]. intros ? _. apply maintains_ret.
  destruct (bool_decide _); repeat constructor; vm_compute; congruence.
Qed.

Definition vault_book (ns key : bytes) (mf : ManifestWithNamespaceId) : Prop :=
  ns = str "ns" /\ key = make_key (str "alba") (str "obj") /\ mf = sealed_chunks.
Definition vault_values (id key : bytes) : option bytes := Some (sealed_disk 0 key).
#[local] Instance vault_asio : Asio asd_box := box_asio vault_values.
#[local] Instance vault_socket : AsdSocket asd_box := box_socket vault_values.
#[local] Instance vault_transport : Transport (TCP_transport asd_box) := tcp_Transport 3.
#[local] Instance vault_server : AsdServer (TCP_transport asd_box) := tcp_server 3.
#[local] Instance vault_world : World (TCP_transport asd_box) sim_world := box_world vault_values.
#[local] Instance vault_untouched : AsdWorld (TCP_transport asd_box) sim_world := box_untouched vault_values.

Lemma sealed_usable fd l : describes (manifest sealed_chunks) fd -> located sealed_chunks fd l ->
  usable (@rev byte) l.
Proof.
  intros Hd (row & f & Hrow & Hf & Hc0 & Hf0 & Hloc & Hctr & Hns & Hoid & Henc & _ & Ho & Hl & Hle).
  cbn in Hns, Hoid, Henc, Hf0.
  assert (Z.to_nat (loc_chunk_id l) < 2)%nat as Hlt by (apply lookup_lt_Some in Hrow; exact Hrow).
  assert (snd (frag_loc f) = 0 /\ frag_ctr f = Some sealed_ctr) as [Hv Hfc].
  { cbn in Hrow. destruct (Z.to_nat (loc_chunk_id l)) as [|[|n]]; [..|lia]; injection Hrow as <-;
      (destruct (Z.to_nat (loc_fragment_id l)) as [|[|[|m]]]; [..|done]); by injection Hf as <-. }
  split; [rewrite Hns; by vm_compute|rewrite Hloc, Hv; by vm_compute|split; lia|split; lia
         |rewrite Hoid; by vm_compute|..].
  - assert (exists cs, chunk_sizes (manifest sealed_chunks) !! Z.to_nat (loc_chunk_id l) = Some cs /\ cs <= 4)
      as (cs & Hcs & Hcle).
    { cbn. destruct (Z.to_nat (loc_chunk_id l)) as [|[|n]]; [by exists 4|by exists 2|lia]. }
    destruct (desc_fragments _ _ Hd _ cs (Z.to_nat (loc_fragment_id l)) Hcs) as (_ & _ & _ & _ & Hlen); [cbn; lia|].
    rewrite Hlen in Hle. cbn in Hle. pose proof (Z.div_le_upper_bound cs 2 2). lia.
  - intros e He. rewrite Henc in He. injection He as <-. split; [|done].
    intros ctr Hc. rewrite Hctr, Hfc in Hc. by injection Hc as <-.
Qed.

Lemma vault_honest : honest (H0 := vault_transport) (D := toy_Digest) (G := toy_gcrypt) (E := toy_block)
  [str "alba"] sealed_lid (@rev byte) vault_book.
Proof.
  split.
  - intros m c maps c' Hr. injection Hr as Hr. subst maps. split; [done|]. intros id m' osd ic Hl Hic. injection Hl as _ <-.
    apply elem_of_list_to_map_2, list_elem_of_fmap in Hic as (o & [= -> ->] & _). split; [done|].
    cbn. unfold sealed_lid. by destruct (o =? 10).
  - intros ns slices cr s infos s' Hr. cbn [d_read_objects_slices2 vault_Delegate] in Hr.
    apply bind_ret_inv in Hr as (i & s1 & Hr & [= <- _]).
    destruct (bool_decide_reflect (ns = str "ns")) as [->|]; [|constructor].
    constructor; [|constructor]. by split_and!.
  - intros ns nm mf (_ & Hk & ->). apply app_inv_head in Hk as ->. exists two_chunks_data.
    split; [apply sealed_described|]. split; [done|]. intros l. by apply sealed_plain.
  - intros ns key mf fd l (_ & _ & ->). apply sealed_usable.
  - intros key. cbn. apply rev_involutive.
Qed.

(** The manifest is cached; nothing is known of the OSDs, and no connection is there. *)
Definition vault_state : rora_state vault (TCP_transport asd_box) sim_world :=
  Make_rora_state
    (Make_RoraProxy_client Vault false false 0 0 5 25 message_builder.make None ∅)
    (run_steps ManifestCache.getInstance
       [StepLookupOrCreate (str "ns"); StepAddTo 1%positive (str "alba") sealed_chunks])
    None (Sim_world 0 [(str "ten", 13%nat); (str "eleven", 100%nat)]) ∅ new_RoraCounter.

Lemma vault_sound :
  sound_client (H0 := vault_transport) [str "alba"] sealed_lid vault_book vault_state.
Proof.
  split.
  - change (true_cache vault_book (snd (add (str "ns") (str "alba") sealed_chunks ManifestCache.getInstance))).
    pose proof (add_true vault_book (str "ns") (str "alba") sealed_chunks ltac:(by split_and!)
      ManifestCache.getInstance) as Ha.
    destruct (add _ _ _ _) as [[u|e| |] mc]; apply Ha; (split; [apply ManifestCache.getInstance_wf|]);
      intros ns a o mf Hmf; unfold cached, ns_entries in Hmf; simpl in Hmf; by rewrite lookup_empty in Hmf.
  - split; [|split; [split; [exact wf_make|reflexivity]|reflexivity]].
    intros k v Hk. cbn in Hk. by rewrite lookup_empty in Hk.
  - by intros o Ho.
Qed.
End vault.

(** ** Property *)


